(* ===== verification/_CoqProject ===== *)
-Q . S2P
Prelude.v
Text.v
Address.v
HexInstance.v
VmTypes.v
Gas.v
Vm.v
VmProps.v
VerifierStructural.v
VerifierCycles.v
VerifierAbstract.v
VerifierTyping.v
VerifierSound.v
VmExamples.v
VmCorrect.v
VerifierCorrect.v
ChainTypes.v
Convert.v
Framework.v
Context.v
Worklist.v
Resolvers.v
InputsResolver.v
AdapterVerifier.v
ErrorText.v
Ast.v
Chumsky.v
ChumskyInstance.v
Grammar.v
GrammarProps.v
GrammarPrint.v
Dfs.v
CompilerValidator.v
TypeChecker.v
Codegen.v
CodegenProps.v
SourceSemantics.v
CodegenSim.v
Compiler.v
CompilerProps.v
Builder.v
FrameworkModules.v
CompilerExamples.v
CompilerCorrect.v
GrammarCorrect.v
Execute.v
Genesis.v
GenesisProps.v
AdapterProps.v
AdapterTyping.v
AdapterExamples.v
GenesisCorrect.v
Validator.v
Store.v
Mempool.v
Chain.v
ChainProps.v
Miner.v
MinerProps.v
AdapterInstance.v
AdapterCorrect.v
NodeExamples.v
LedgerCorrect.v
ChainCorrect.v
MinerCorrect.v
Http.v
Rpc.v
NodeClient.v
GossipNetwork.v
GossipService.v
Node.v
RpcProps.v
RpcCorrect.v
NodeProps.v
NodeCorrect.v
SyncCorrect.v
Keys.v
KeysCorrect.v
Cli.v
CliCorrect.v
