(* ===== verification/Prelude.v ===== *)
(** * A verification library for MEOW

    MEOW is a proof-of-work blockchain with an object model and a smart
    contract language that is compiled to bytecode for a stack machine with
    move semantics (crates under [src/crates]).  This library models its core
    in Rocq and proves what makes it correct.

    ** The program and its parts

    - [meow-vm-types]: types, values, instructions, modules, limits, addresses
      and references of the form [@address::name].
    - [meow-vm]: the interpreter: frames, instructions, calls within and across
      modules, native functions, gas.
    - [meow-vm-bytecode-verifier]: accepts or rejects a module before it is
      published: structural checks, then an abstract interpretation of every
      function that tracks types and the liveness of linear values.
    - [meow-vm-adapter]: runs transactions on the machine: resolves inputs,
      provides the natives, turns the outcome into created, changed and
      destroyed objects.
    - [meow-types], [meow-nakamoto-types]: objects, transactions, signatures,
      results, block headers, blocks, snapshots.
    - [meow-nakamoto]: the object store, the pool of pending transactions, the
      chain state with fork choice and pruning, the miner.
    - [meow-vm-compiler]: parser, validator, type checker and code generator
      from the source language to bytecode modules; the [builder] of the adapter
      runs it.
    - [meow-framework], [meow-genesis]: the system modules and the objects and
      coins a chain starts with.
    - [meow-gossip-network], [meow-gossip-types]: the messages between nodes and
      the bookkeeping of peers.
    - [meow-node], [meow-node-client]: the gossip, RPC and miner services around
      one shared miner, and the client of the RPC interface.
    - [keypair] and [keystore] of [meow-types]: key pairs from phrases, and the
      files they are kept in; [meow]: the command line.

    A transaction enters the pool through [submit_transaction], called by the
    RPC service or for a transaction that gossip brings; the miner service
    drains a batch ([prepare_round]), searches a nonce, executes the batch with
    the adapter and completes a block ([grind]), commits it ([commit_mined])
    and hands it to the gossip service, which sends it out; peers check and
    re-execute it ([apply_block]), and one that misses the parent asks the
    sender for a snapshot over RPC.

    ** Files

    Foundations:
    - [Prelude]: outcomes of Rust code (a value, an error, a panic; and the
      fourth outcome of running out of fuel), the monad over them, [u64]
      arithmetic, lists, tactics, the hint database [meow].
    - [Text]: characters and texts as the compiler reads them, white space.
    - [Address]: [address/mod.rs], [module_ref.rs].  The crate [prefix_hex] is
      the class [PrefixHex] with the laws [PrefixHexLaws]; [HexInstance] shows
      that a concrete codec satisfies them.
    - [VmTypes]: [types.rs], [bytecode.rs], [module.rs], [natives.rs],
      [config.rs], [identifier.rs] of [meow-vm-types].

    The machine ([meow-vm]):
    - [Gas]: [error.rs], [gas_schedule.rs], [gas_meter.rs].
    - [Vm]: [lib.rs].  The state of a function is a [Frame]; an instruction is
      a function on frames; a call is recursive on fuel, one unit for each
      instruction and each nested call.  A call runs in a state monad over the
      gas meter and the state of the natives: Rust natives are closures over
      shared state, here they are functions of that state.
    - [VmProps]: gas never decreases and is bounded; fuel is monotone; enough
      fuel exists.  [VmExamples]: two linked modules used by the witnesses.
    - [VmCorrect]: the theorems about the machine.

    The verifier ([meow-vm-bytecode-verifier]):
    - [VerifierStructural]: [error.rs], [structural.rs]; [VerifierAbstract]:
      [abstract_interpretation.rs] and [verify].
    - [VerifierCycles]: the depth-first search for cyclic structs.
    - [VerifierTyping], [VerifierSound]: the typing of values
      and frames, soundness of each instruction and of whole calls.
    - [VerifierCorrect]: the theorems about verified code.

    The adapter ([meow-vm-adapter], [convert] of [meow-vm-types], the system
    framework and the object conversion of [meow-types]):
    - [Convert]: [convert/mod.rs]; serde data is an inductive type, the crate
      [bcs] is the class [Bcs] with [BcsLaws].  [Framework]: [meow_object.rs],
      [meow_coin.rs], [object_conversion].
    - [Context]: [external_context.rs], [context.rs], [natives.rs]; the closures
      share the context through a cell, here they are functions of it; the crate
      [rand] is the class [Rng].
    - [Worklist]: reachability and the measure of the searches below.
      [Resolvers]: [executor/resolvers.rs].  [InputsResolver]:
      [inputs_resolver.rs]; the closure [get_object] is the map it reads.
    - [AdapterVerifier]: [bytecode_verifier] of the adapter.  [ErrorText]: the messages of
      machine and verifier errors, which results carry.
    - [Execute]: [executor/mod.rs], [effects.rs], [gas.rs], [versioning.rs],
      [runner.rs].
    - [AdapterProps]: effects, gas and termination of a transaction; the executor
      on two lists of inputs.
      [AdapterTyping]: the natives have the types the verifier assumes.
      [AdapterExamples]: framework and user modules, stand-ins for the crates.
    - [AdapterInstance]: the adapter as the [Executor] of the node.
      [AdapterCorrect]: the theorems.

    The compiler ([meow-vm-compiler], [builder] of [meow-vm-adapter]):
    - [Ast]: [ast.rs], [error.rs].  [Dfs]: the depth-first search that validator
      and type checker share, for any graph.  [CompilerValidator]:
      [validator.rs].  [TypeChecker]: [type_checker.rs]; the order in which a
      [HashMap] is walked decides which error is reported first, it is the class
      [HashOrder].  [Codegen]: [codegen.rs].
    - [Chumsky]: the combinators of the crate [chumsky] that [parser.rs] uses,
      as the class [Chumsky] with what the code relies on in its laws;
      [ChumskyInstance] is a concrete implementation of them.  [Grammar]:
      [parser.rs], production by production, over the class.
    - [GrammarProps]: what each production accepts, consumes and
      produces.  [GrammarPrint]: a printer of syntax trees, and the productions on printed text.  [GrammarCorrect]: the theorems.
    - [Compiler]: [lib.rs] and [strip_line_comments].  A text is ASCII, so that
      characters are bytes. [Builder]: [builder/mod.rs].
    - [SourceSemantics]: an interpreter of syntax trees after [docs/language.md],
      with variables in scopes instead of slots, jumps and an operand stack.
    - [CodegenProps]: the shape of the code of each construct.  [CodegenSim]: the machine
      on that code simulates the interpreter.
      [CompilerProps]: the closure of imports, comments, what [compile_items]
      has checked, and that compilation always answers.  [CompilerExamples]: compiled programs.
    - [CompilerCorrect]: the theorems.

    The system modules and the first block ([meow-framework], [meow-genesis]):
    - [FrameworkModules]: the embedded sources and how they are built.
      [Genesis]: the genesis objects and the minting of the allocations.
    - [GenesisProps]: the modules the compiler makes of the
      sources, runs of the minting function.  [GenesisCorrect]: the theorems.

    The chain ([meow-types], [meow-nakamoto-types], [meow-nakamoto]):
    - [ChainTypes]: objects, transactions, headers, blocks, proof of work.  The
      crates [bcs], [blake2] and [ed25519_consensus] are the class [Crypto],
      with what the code relies on in [CryptoLaws].
    - [Validator]: [transaction/validator]; [Store]: [store.rs], [roots.rs];
      [Mempool]: [mempool]; [Chain]: [chain], [system_transactions.rs]; the
      adapter is the class [Executor], with [ExecutorLaws] in [MinerProps];
      [Miner]: [miner/mod.rs], [mining_work.rs].
    - [ChainProps], [MinerProps]: invariants and lemmas; [NodeExamples]: stand-ins
      for cryptography and executor, and a chain mined with them, on which the
      theorems are instantiated.
    - [LedgerCorrect], [ChainCorrect], [MinerCorrect]: the theorems.

    The node ([meow-node], [meow-node-client], [meow-gossip-network]):
    - [Http]: requests, answers, addresses of peers, digests in base 58.  The
      crates [serde_json], [url] and [bs58] are the classes [JsonLib], [UrlLib]
      and [Base58] with their laws.
    - [Rpc]: [rpc/rpc_service.rs] and the router.  [NodeClient]: [lib.rs] of the
      client; a method is the request it sends and the reading of its answer.
    - [GossipNetwork]: configuration, events and [next_event] on the stream of
      swarm events.  [GossipService]: the event loop, one function per branch,
      on the service and the shared miner.
    - [Node]: the miner service in the phases between its locks, the channels,
      the start of a node, its interleaved turns and how it ends.
    - [RpcProps], [NodeProps]: lemmas and invariants, stand-ins for the crates.
      [RpcCorrect], [NodeCorrect], [SyncCorrect]: the theorems.

    Keys and the command line ([meow-types], [meow]):
    - [Keys]: [keypair] and [keystore].  The crates [bip32], [base64], [bip39],
      [slip10_ed25519] and [serde_json] are the classes [Bip32] and [KeyLib] with
      their laws; the file of a key store is a value, and how a write to it goes
      an argument.  [KeysCorrect]: the theorems.
    - [Cli]: call arguments, the commands and what they put out, and how a node is
      set up from its options ([commands.rs] of [meow-node]).  A command is a
      computation on the state of the node behind the client; what the node
      answers in a search for objects is a map.  [CliCorrect]: the theorems.

    ** What the theorems show

    - Machine: calls terminate under a limited meter whatever the bytecode,
      gas is monotone and bounded.
    - Verifier: verified code is safe (no panic, no stack, type, move or jump
      error) and drops no struct; the search for cyclic structs is exact; and
      two gaps: every write through a local struct into a foreign one escapes the
      visibility check, and two field conditions that soundness needs are not
      checked.
    - Compiler: running a compiled function is what the interpreter makes of its
      body, result, gas and natives included; jumps go forward and stay in the
      code, and slots in the locals, so that calls into compiled modules end
      without the help of gas or of the verifier; an accepted program has all
      its dependencies and no import cycle; printing what was parsed and parsing
      it again gives it back; compilation ends for every text and never panics
      where the code generator indexes, unwraps or patches; and three gaps: a
      function that ends in an [if] with a [return] compiles and is never
      verified, a struct may not have the name of a foreign struct that a field
      of an imported struct has, and the grammar reads a variable before an empty
      block as a struct literal.
    - Framework and genesis: the embedded sources compile to the modules that
      the adapter relies on, and verify; the genesis objects are the framework
      and one coin for each allocation, with its amount and its owner.
    - Adapter: a transaction touches only objects its sender owns and a failed
      one only its gas coin; gas is charged exactly; publishing lets through
      exactly the verified modules; calls into verified modules are type safe;
      executing on the collected inputs is executing on the whole store; both
      collectors agree; dependency resolution is the transitive closure; objects
      and Rust data survive conversion; an execution comes back, and its errors
      and panics are characterised; mining with the adapter terminates; what
      arguments are resolved to is characterised, which shows a gap: object
      arguments are not compared with the parameter types; and a second one in
      an example: the freshness check does not follow the machine's stack.
    - Ledger: validation, submission, revalidation and draining are
      characterised exactly, the pool invariant holds in every reachable pool, no
      pending transaction starves, applying a result is characterised address by
      address, stores survive listing and rebuilding.
    - Chain: acceptance and fork choice are characterised exactly, every
      reachable chain keeps its invariant and never lowers its head, the
      difficulty test is the usual bound.
    - Miner: mining terminates, its blocks are accepted by peers and can be
      committed, the snapshots of every miner that ran rebuild its head and store
      at its peers; and one gap: a miner whose clock does not advance commits
      every block it finds, and every peer rejects it.
    - Node: what a client method sends, the router answers with the result of
      the miner's operation, and the client reads that result; every interleaving
      of the services keeps the invariant of the chain and never lowers its
      head; a reachable node that waits for blocks of a peer catches up with it
      when they arrive; and one gap: one
      that misses blocks while it knows no peer's address waits for ever.
    - Keys and command line: a generated key is recovered from its phrase and
      from its text; key stores and their files agree as long as a write that
      fails leaves the file as it was, and not otherwise; arguments are read back
      from their texts; a call that is built, signed and submitted with the
      commands reaches the pool of the node; a node starts from the file that the
      genesis command makes of a list of allocations, with a coin for each.

    ** Bounds and fuel

    - A call of the machine: [fuel_by_gas] for any code (one pass over the
      longest function per unit of gas, since every backward jump and call
      costs gas), [fuel_by_depth] for verified code (whose jumps go forward).
    - A transaction: [adapter_fuel], the bound by depth for the code limit of
      the verifier and the call depth of the node's configuration.
      [resolve_loop], [bfs_loop], [load_loop]: the imports of all modules;
      [collect_dep_modules]: the number of objects.  [resolve_dep_modules],
      [collect_inputs] and [load_deps_async] are total with them.
    - The compiler: [closure_loop] runs for the imports of all dependencies and
      [dfs_all] for the number of nodes, and both are total with it.  Jump
      offsets are cast with [as i32]; they do not wrap because the theorems take
      a code limit below 2^31, as every configuration has.  The simulation runs
      the code with the fuel of the interpreter's calls and one pass more.
    - [struct_dfs]: the number of structs.  [canonical_chain]: the number of
      known blocks.  [grind]: one round per transaction and one more, and all
      the nonces there are in each.
    - [Grammar]: [ChumskyInstance] unfolds a recursive production as often as the
      text is long, which is enough because each consumes a character before it
      recurs.
    - [Genesis] and [FrameworkModules] run the compiler and the machine with the
      bounds above.  A turn of a node is total.
    - [u64] sums the code leaves unchecked panic in the model, as they do with
      overflow checks; in a release build they wrap.
    - The clock is an argument.  Logging is not modelled.

    ** Idealisations

    - [bcs::to_bytes] is total and injective on what is encoded: the depth limit
      of [bcs], at which the code's [expect] would panic, is not modelled.
    - The laws of the classes of serialisers ([BcsLaws], [JsonLaws], [KeyLaws],
      [CliLaws]) are stated for all values of the model, also those that
      no Rust value corresponds to.
    - A native that gets too few arguments returns an error in the model, where
      the Rust closure would panic on the index; verified code always passes as
      many as the signature has.
    - [get_blocks_since] lists the blocks in the order of the map of the model; a
      [HashMap] has no fixed order, and its readers sort by height.  In the
      compiler, where the order matters, it is the argument [HashOrder].

    ** Not modelled, and the plan

    - The wiring of [libp2p] (building the swarm, subscribing, publishing) and
      the sockets of the RPC service are calls into third-party code; the model
      has the events they deliver and the requests they carry.
    - Reading the options of the command lines ([clap]) and the formatting of
      outputs as JSON or tables, which are third-party code.
    - Logging; the texts of syntax errors, which [chumsky] composes.
    - In the plan: the soundness of the type checker, which would give the
      arities that the simulation takes as a hypothesis. *)

From Stdlib Require Export Ascii ZArith Lia.
From stdpp Require Export base tactics list gmap strings pretty numbers option.

(** ** Outcomes

    Rust code either returns a value, returns [Err], or panics ([panic!],
    a failed [assert!], [expect] on [None], an out-of-range index).  A model
    that recurses on fuel adds a fourth result, [NoFuel], which no Rust run
    has: the termination theorems show that it does not occur when the fuel
    is large enough. *)
Inductive outcome (E A : Type) : Type :=
  | Ok (a : A)
  | Err (e : E)
  | Panic (msg : string)
  | NoFuel.
Arguments Ok {_ _} _.
Arguments Err {_ _} _.
Arguments Panic {_ _} _.
Arguments NoFuel {_ _}.

Global Instance outcome_ret E : MRet (outcome E) := λ A a, Ok a.
Global Instance outcome_bind E : MBind (outcome E) := λ A B f m,
  match m with
  | Ok a => f a
  | Err e => Err e
  | Panic s => Panic s
  | NoFuel => NoFuel
  end.
Global Instance outcome_fmap E : FMap (outcome E) := λ A B f m,
  match m with
  | Ok a => Ok (f a)
  | Err e => Err e
  | Panic s => Panic s
  | NoFuel => NoFuel
  end.

(** [Option::ok_or]. *)
Definition ok_or {E A} (o : option A) (e : E) : outcome E A :=
  match o with Some a => Ok a | None => Err e end.

(** [Option::expect]. *)
Definition expect {E A} (o : option A) (msg : string) : outcome E A :=
  match o with Some a => Ok a | None => Panic msg end.

(** [assert!(b, msg)]. *)
Definition rust_assert {E} (b : bool) (msg : string) : outcome E () :=
  if b then Ok () else Panic msg.

(** [if b { return Err(e) }]. *)
Definition guard_err {E} (b : bool) (e : E) : outcome E () :=
  if b then Err e else Ok ().

(** [Result::map_err]. *)
Definition map_err {E F A} (f : E → F) (m : outcome E A) : outcome F A :=
  match m with
  | Ok a => Ok a
  | Err e => Err (f e)
  | Panic s => Panic s
  | NoFuel => NoFuel
  end.

Definition is_ok {E A} (m : outcome E A) : bool :=
  match m with Ok _ => true | _ => false end.

(** [Option::is_some]; the value of a computation known to have one. *)
Definition is_some {A} (o : option A) : bool := match o with Some _ => true | None => false end.
Definition ok_value {E A} (o : outcome E A) : is_ok o = true → A :=
  match o with Ok a => λ _, a | _ => λ H, False_rect A (Bool.diff_false_true H) end.
Definition some_value {A} (o : option A) : is_some o = true → A :=
  match o with Some a => λ _, a | None => λ H, False_rect A (Bool.diff_false_true H) end.
Lemma ok_value_eq {E A} (o : outcome E A) (Hok : is_ok o = true) : o = Ok (ok_value o Hok).
Proof. by destruct o. Qed.
Lemma some_value_eq {A} (o : option A) (Hok : is_some o = true) : o = Some (some_value o Hok).
Proof. by destruct o. Qed.

Section outcome_lemmas.
Context {E A B : Type}.
Implicit Types (m : outcome E A) (f : A → outcome E B).

Lemma bind_Ok m f b : m ≫= f = Ok b ↔ ∃ a, m = Ok a ∧ f a = Ok b.
Proof. destruct m; naive_solver. Qed.

Lemma bind_Err m f e :
  m ≫= f = Err e ↔ m = Err e ∨ ∃ a, m = Ok a ∧ f a = Err e.
Proof. destruct m; naive_solver. Qed.

Lemma bind_NoFuel m f :
  m ≫= f = NoFuel ↔ m = NoFuel ∨ ∃ a, m = Ok a ∧ f a = NoFuel.
Proof. destruct m; naive_solver. Qed.

Lemma bind_Panic m f s :
  m ≫= f = Panic s ↔ m = Panic s ∨ ∃ a, m = Ok a ∧ f a = Panic s.
Proof. destruct m; naive_solver. Qed.

Lemma ok_or_Ok (o : option A) (e : E) a : ok_or o e = Ok a ↔ o = Some a.
Proof. destruct o; naive_solver. Qed.

Lemma ok_or_Err (o : option A) (e e' : E) :
  ok_or o e = Err e' ↔ o = None ∧ e = e'.
Proof. destruct o; naive_solver. Qed.

Lemma expect_Ok (o : option A) s a : expect (E:=E) o s = Ok a ↔ o = Some a.
Proof. destruct o; naive_solver. Qed.

Lemma guard_err_Ok b (e : E) u : guard_err b e = Ok u ↔ b = false.
Proof. destruct b, u; naive_solver. Qed.

Lemma guard_err_Err b (e e' : E) : guard_err b e = Err e' ↔ b = true ∧ e = e'.
Proof. destruct b; naive_solver. Qed.

Lemma rust_assert_Ok b s u : rust_assert (E:=E) b s = Ok u ↔ b = true.
Proof. destruct b, u; naive_solver. Qed.

Lemma map_err_Ok {F} (g : E → F) m a : map_err g m = Ok a ↔ m = Ok a.
Proof. destruct m; naive_solver. Qed.
End outcome_lemmas.

Lemma fmap_Ok {E A B} (f : A → B) (m : outcome E A) b :
  f <$> m = Ok b ↔ ∃ a, m = Ok a ∧ b = f a.
Proof. destruct m; naive_solver. Qed.

(** A computation that returns: a value or an error. *)
Definition no_panic {E A} (m : outcome E A) : Prop :=
  match m with Ok _ | Err _ => True | Panic _ | NoFuel => False end.

Section no_panic.
Context {E A B : Type}.
Implicit Types (m : outcome E A).

Lemma no_panic_bind m (f : A → outcome E B) :
  no_panic m → (∀ a, m = Ok a → no_panic (f a)) → no_panic (m ≫= f).
Proof. destruct m; naive_solver. Qed.
Lemma no_panic_guard b (e : E) : no_panic (guard_err b e).
Proof. by destruct b. Qed.
Lemma no_panic_ok_or (o : option A) (e : E) : no_panic (ok_or o e).
Proof. by destruct o. Qed.
Lemma no_panic_map_err {F} (g : E → F) m : no_panic m → no_panic (map_err g m).
Proof. by destruct m. Qed.
Lemma no_panic_not_ok m : no_panic m → is_ok m = false → ∃ e, m = Err e.
Proof. destruct m; naive_solver. Qed.
End no_panic.

Lemma no_panic_ok {E A} (a : A) : no_panic (Ok (E:=E) a).
Proof. done. Qed.
Lemma no_panic_fmap {E A B} (f : A → B) (m : outcome E A) : no_panic m → no_panic (f <$> m).
Proof. by destruct m. Qed.
Lemma no_panic_fuel {E A} (m : outcome E A) : no_panic m → m ≠ NoFuel.
Proof. by destruct m. Qed.

(** Take apart a successful (or failing) monadic computation in a hypothesis. *)
Ltac inv_outcome H :=
  repeat first
    [ progress simplify_eq/=
    | let H1 := fresh H in let a := fresh "a" in
      apply bind_Ok in H as (a & H1 & H)
    | apply ok_or_Ok in H
    | apply expect_Ok in H
    | apply guard_err_Ok in H
    | apply rust_assert_Ok in H ].

(** Show that a monadic computation returns, following its structure. *)
Ltac solve_no_panic :=
  repeat first
    [ done
    | apply no_panic_guard
    | apply no_panic_ok_or
    | apply no_panic_map_err
    | apply no_panic_fmap
    | apply no_panic_bind; [|intros ? ?]
    | progress simpl
    | case_match ].

(** Destruct the scrutinee of a match in the goal or in a hypothesis. *)
Ltac case_goal :=
  match goal with
  | |- context [match ?x with _ => _ end] => destruct x eqn:?
  end.
Ltac case_hyp H :=
  match type of H with
  | context [match ?x with _ => _ end] => destruct x eqn:?
  end.

(** ** Machine integers

    A [u64] is a [Z] in the range [0, 2^64 - 1]; the operations the code uses
    (checked, saturating) are written out.  [usize] and [u8] quantities that
    only count or index vectors are [nat]. *)
Definition u64_max : Z := 2 ^ 64 - 1.
Definition in_u64 (n : Z) : Prop := (0 ≤ n ≤ u64_max)%Z.
Global Instance in_u64_dec n : Decision (in_u64 n).
Proof. unfold in_u64. apply _. Defined.

Definition fits_u64 (n : Z) : option Z :=
  if bool_decide (in_u64 n) then Some n else None.

Definition checked_add (a b : Z) : option Z := fits_u64 (a + b).
Definition checked_sub (a b : Z) : option Z := fits_u64 (a - b).
Definition checked_mul (a b : Z) : option Z := fits_u64 (a * b).
Definition checked_div (a b : Z) : option Z :=
  if Z.eqb b 0 then None else Some (a / b)%Z.
Definition checked_rem (a b : Z) : option Z :=
  if Z.eqb b 0 then None else Some (a mod b)%Z.
Definition saturating_add (a b : Z) : Z := Z.min (a + b) u64_max.
Definition saturating_sub (a b : Z) : Z := Z.max (a - b) 0.

Lemma fits_u64_Some n m : fits_u64 n = Some m ↔ n = m ∧ in_u64 n.
Proof. unfold fits_u64. case_bool_decide; naive_solver. Qed.

Lemma checked_div_in_u64 a b c :
  in_u64 a → in_u64 b → checked_div a b = Some c → in_u64 c.
Proof.
  unfold checked_div, in_u64. intros Ha Hb H.
  destruct (Z.eqb_spec b 0); simplify_eq.
  pose proof (Z.div_pos a b). pose proof (Z.div_le_upper_bound a b u64_max).
  unfold u64_max in *. nia.
Qed.

Lemma checked_rem_in_u64 a b c :
  in_u64 a → in_u64 b → checked_rem a b = Some c → in_u64 c.
Proof.
  unfold checked_rem, in_u64. intros Ha Hb H.
  destruct (Z.eqb_spec b 0); simplify_eq.
  pose proof (Z.mod_pos_bound a b). lia.
Qed.

(** ** Lists *)

(** [iter().find(p)]. *)
Fixpoint find_first {A} (p : A → bool) (l : list A) : option A :=
  match l with
  | [] => None
  | x :: l => if p x then Some x else find_first p l
  end.

Lemma find_first_Some {A} (p : A → bool) l x :
  find_first p l = Some x → x ∈ l ∧ p x = true.
Proof.
  induction l as [|y l IH]; simpl; [done|].
  destruct (p y) eqn:Hp; intros ?; simplify_eq; set_solver.
Qed.

Lemma find_first_None {A} (p : A → bool) l :
  find_first p l = None → ∀ x, x ∈ l → p x = false.
Proof.
  induction l as [|y l IH]; simpl; [set_solver|].
  destruct (p y) eqn:Hp; [done|]. intros Hl x [->|Hx]%elem_of_cons; auto.
Qed.

(** A grounded element lies on no cycle. *)
Lemma grounded_no_cycle {A} (R : relation A) x : Acc (flip R) x → ¬ tc R x x.
Proof.
  induction 1 as [x _ IH]. intros Hc. inversion Hc as [? y Hxy|? y z Hxy Hyx]; subst.
  - by apply (IH x).
  - apply (IH y); [done|]. eapply tc_r; done.
Qed.

(** A loop that may fail. *)
Fixpoint fold_opt {A B} (f : A → B → option A) (a : A) (l : list B) : option A :=
  match l with
  | [] => Some a
  | b :: l => a ← f a b; fold_opt f a l
  end.

(** [n] pops of a stack whose top is the head of the list: the popped values,
    first popped first, and the rest. *)
Fixpoint pop_n {A} (n : nat) (st : list A) : option (list A * list A) :=
  match n with
  | O => Some ([], st)
  | S n =>
      match st with
      | [] => None
      | v :: st => '(vs, st) ← pop_n n st; Some (v :: vs, st)
      end
  end.

Lemma pop_n_take_drop {A} n (st : list A) :
  n ≤ length st → pop_n n st = Some (take n st, drop n st).
Proof.
  revert st. induction n as [|n IH]; intros [|v st] H; simpl in *; try done; try lia.
  rewrite IH by lia. done.
Qed.

Lemma pop_n_Some {A} n (st vs st' : list A) :
  pop_n n st = Some (vs, st') → st = vs ++ st' ∧ length vs = n.
Proof.
  revert st vs. induction n as [|n IH]; intros [|v st] vs H; simplify_eq/=; try done.
  destruct (pop_n n st) as [[ws st'']|] eqn:Hp; simplify_eq/=.
  apply IH in Hp as [-> <-]. done.
Qed.

Lemma pop_n_None {A} n (st : list A) : pop_n n st = None → length st < n.
Proof.
  intros H. destruct (decide (n ≤ length st)) as [Hle|]; [|lia].
  rewrite pop_n_take_drop in H by done. done.
Qed.

Create HintDb meow.
#[export] Hint Resolve checked_div_in_u64 checked_rem_in_u64 : meow.
#[export] Hint Resolve no_panic_bind no_panic_guard no_panic_ok_or no_panic_map_err no_panic_ok no_panic_fmap : meow.
