(* ===== verification/Text.v ===== *)
(** * Texts

    Characters and texts as the code reads them: character classes of Rust and
    of ASCII identifiers, prefixes, and [str::parse::<u64>].  A text is a string
    of bytes; sources are ASCII outside of comments and string literals. *)

From S2P Require Import Prelude.

(** ** Characters *)
Definition code (c : ascii) : nat := nat_of_ascii c.
Definition is_ws (c : ascii) : bool := ((9 <=? code c) && (code c <=? 13)) || (code c =? 32).
Definition is_digit (c : ascii) : bool := (48 <=? code c) && (code c <=? 57).
Definition is_upper (c : ascii) : bool := (65 <=? code c) && (code c <=? 90).
Definition is_lower (c : ascii) : bool := (97 <=? code c) && (code c <=? 122).
Definition is_ident_start (c : ascii) : bool := is_upper c || is_lower c || (code c =? 95).
Definition is_ident_char (c : ascii) : bool := is_ident_start c || is_digit c.
Definition is_hex_digit (c : ascii) : bool :=
  is_digit c || ((65 <=? code c) && (code c <=? 70)) || ((97 <=? code c) && (code c <=? 102)).

(** The longest prefix whose characters satisfy [f], and the rest. *)
Fixpoint span (f : ascii → bool) (s : string) : string * string :=
  match s with
  | EmptyString => (EmptyString, EmptyString)
  | String c s' =>
      if f c then let '(w, r) := span f s' in (String c w, r) else (EmptyString, s)
  end.
Definition skip_ws (s : string) : string := snd (span is_ws s).
Fixpoint strip_prefix (p s : string) : option string :=
  match p, s with
  | EmptyString, _ => Some s
  | String c p, String d s => if Ascii.eqb c d then strip_prefix p s else None
  | String _ _, EmptyString => None
  end.

Fixpoint all_chars (f : ascii → bool) (s : string) : bool :=
  match s with EmptyString => true | String c s => f c && all_chars f s end.
(** [str::parse::<u64>]. *)
Definition digit_value (c : ascii) : Z := Z.of_nat (code c) - 48.
Fixpoint parse_digits (acc : Z) (s : string) : option Z :=
  match s with
  | EmptyString => Some acc
  | String c s =>
      if is_digit c then
        acc ← checked_mul acc 10; acc ← checked_add acc (digit_value c); parse_digits acc s
      else None
  end.
Definition parse_u64 (s : string) : option Z :=
  match s with
  | EmptyString | String "+" EmptyString => None
  | String "+" digits => parse_digits 0 digits
  | digits => parse_digits 0 digits
  end.

(** ** Lemmas on texts *)
Lemma append_cons c s t : String c s +:+ t = String c (s +:+ t).
Proof. done. Qed.
Lemma append_assoc (a b c : string) : (a +:+ b) +:+ c = a +:+ b +:+ c.
Proof. induction a as [|x a IH]; [done|]. by rewrite !append_cons, IH. Qed.
Lemma append_nil (a : string) : a +:+ "" = a.
Proof. induction a as [|x a IH]; [done|]. by rewrite append_cons, IH. Qed.
Lemma all_chars_app f a b : all_chars f (a +:+ b) = all_chars f a && all_chars f b.
Proof. induction a as [|x a IH]; [done|]. rewrite append_cons. simpl. by rewrite IH, andb_assoc. Qed.
Lemma span_length f s : String.length (snd (span f s)) ≤ String.length s.
Proof. induction s as [|c s IH]; simpl; [done|]. destruct (f c); [|done]. case_match; simpl in *; lia. Qed.
Lemma skip_ws_length s : String.length (skip_ws s) ≤ String.length s.
Proof. apply span_length. Qed.
Lemma span_true f c s : f c = true →
  span f (String c s) = (String c (fst (span f s)), snd (span f s)).
Proof. intros Hc. simpl. rewrite Hc. by destruct (span f s). Qed.
Lemma strip_prefix_length t s r : strip_prefix t s = Some r →
  String.length r + String.length t = String.length s.
Proof.
  revert s. induction t as [|c t IH]; intros [|d s] Hr; simplify_eq/=; try lia.
  case_match; [|done]. apply IH in Hr. lia.
Qed.
Lemma strip_prefix_app t s : strip_prefix t (t +:+ s) = Some s.
Proof. induction t as [|c t IH]; simpl; [done|]. by rewrite Ascii.eqb_refl. Qed.

Lemma span_all f s : all_chars f (fst (span f s)) = true.
Proof. induction s as [|c s IH]; simpl; [done|]. destruct (f c) eqn:Hc; [|done].
  destruct (span f s). simpl in *. by rewrite Hc. Qed.
Lemma span_app f w s : all_chars f w = true → (match s with String c _ => f c = false | _ => True end) →
  span f (w +:+ s) = (w, s).
Proof.
  intros Hw Hs. induction w as [|c w IH]; simpl in *.
  - destruct s as [|c s]; simpl; [done|]. by rewrite Hs.
  - apply andb_true_iff in Hw as [-> Hw]. by rewrite IH.
Qed.
Lemma all_chars_no f c s : f c = false → all_chars f s = true →
  c ∉ String.list_ascii_of_string s.
Proof.
  intros Hf. induction s as [|d s IH]; simpl; [intros _; apply not_elem_of_nil|].
  intros [Hd Hs]%andb_true_iff. rewrite not_elem_of_cons. split; [congruence|auto].
Qed.
Lemma parse_digits_range s : ∀ acc n, in_u64 acc → parse_digits acc s = Some n → in_u64 n.
Proof.
  induction s as [|c s IH]; simpl; intros acc n Ha Hn; [by simplify_eq|].
  destruct (is_digit c); [|done].
  destruct (checked_mul acc 10) as [x|] eqn:Hm; [|done]. simpl in Hn.
  destruct (checked_add x (digit_value c)) as [y|] eqn:Hadd; [|done]. simpl in Hn.
  apply fits_u64_Some in Hadd as [<- ?]. by eapply IH.
Qed.
Lemma parse_u64_range s n : parse_u64 s = Some n → in_u64 n.
Proof.
  unfold parse_u64. intros Hn. assert (in_u64 0) as Hz by done.
  repeat case_match; simplify_eq; by eapply parse_digits_range.
Qed.

(** Printing and reading a number. *)
Lemma pretty_char_digit x : (x < 10)%N →
  is_digit (pretty_N_char x) = true ∧ digit_value (pretty_N_char x) = Z.of_N x ∧
  (x ≠ 0%N → pretty_N_char x ≠ "0"%char).
Proof. intros Hx. destruct x as [|p]; [done|]. do 4 (destruct p as [p|p|]; try done; try lia). Qed.
Lemma pretty_go_digits x : ∀ s, all_chars is_digit s = true → all_chars is_digit (pretty_N_go x s) = true.
Proof.
  induction (N.lt_wf_0 x) as [x _ IH]. intros s Hs. destruct (decide (0 < x)%N) as [Hx|Hx].
  - rewrite pretty_N_go_step by done. apply IH; [by apply N.div_lt|]. simpl. rewrite Hs, andb_true_r.
    apply pretty_char_digit. by apply N.mod_lt.
  - by replace x with 0%N by lia.
Qed.
Lemma pretty_go_head x : (0 < x)%N → ∀ s, ∃ c r, pretty_N_go x s = String c r ∧ is_digit c = true ∧ c ≠ "0"%char.
Proof.
  induction (N.lt_wf_0 x) as [x _ IH]. intros Hx s. rewrite pretty_N_go_step by done.
  destruct (decide (x < 10)%N) as [Hlt|].
  - rewrite N.div_small, N.mod_small by done. rewrite pretty_N_go_0.
    destruct (pretty_char_digit x Hlt) as (? & _ & Hne). do 2 eexists. split; [done|].
    split; [done|]. apply Hne. lia.
  - apply IH; [by apply N.div_lt|]. apply N.div_str_pos. lia.
Qed.
Lemma parse_digits_pretty x : ∀ s, in_u64 (Z.of_N x) →
  parse_digits 0 (pretty_N_go x s) = parse_digits (Z.of_N x) s.
Proof.
  induction (N.lt_wf_0 x) as [x _ IH]. intros s Hr. destruct (decide (0 < x)%N) as [Hx|Hx].
  - rewrite pretty_N_go_step by done. pose proof (N.div_mod' x 10) as Hdm.
    assert (x mod 10 < 10)%N as Hlt by by apply N.mod_lt. unfold in_u64 in *.
    assert (x `div` 10 < x)%N as Hq by by apply N.div_lt.
    generalize dependent (x `mod` 10)%N. generalize dependent (x `div` 10)%N. intros q Hq m Hdm Hlt.
    rewrite IH by lia. destruct (pretty_char_digit m) as (Hd & Hv & _); [lia|]. simpl. rewrite Hd.
    unfold checked_mul, fits_u64. rewrite bool_decide_true by (unfold in_u64; lia). simpl.
    unfold checked_add, fits_u64. rewrite Hv, bool_decide_true by (unfold in_u64; lia). simpl.
    f_equal. lia.
  - by replace x with 0%N by lia.
Qed.
Lemma parse_u64_pretty n : in_u64 n → parse_u64 (pretty (Z.to_N n)) = Some n.
Proof.
  intros Hn. assert (Z.of_N (Z.to_N n) = n) as Hz by (unfold in_u64 in Hn; lia).
  unfold pretty, pretty_N. case_decide as H0.
  - rewrite <-Hz, H0. done.
  - destruct (pretty_go_head (Z.to_N n)) with (s := "") as (c & r & Hp & Hc & _); [lia|].
    pose proof (parse_digits_pretty (Z.to_N n) "") as Hd. rewrite Hz in Hd. specialize (Hd Hn).
    rewrite Hp in *. transitivity (parse_digits 0 (String c r)); [|exact Hd].
    unfold parse_u64. by destruct c as [[] [] [] [] [] [] [] []].
Qed.
