(* ===== verification/Address.v ===== *)
(** * Addresses and cross-module references

    Models [meow-vm-types/src/address/mod.rs] (and its twin in
    [meow-types/src/address/mod.rs]: the two Rust types are both a newtype of
    [[u8; 32]] and the conversions between them copy the bytes, so one Rocq
    type stands for both) and [meow-vm-types/src/module_ref.rs].

    The hexadecimal codec is the crate [prefix_hex]; it is the class
    [PrefixHex], with what the code relies on in [PrefixHexLaws]. *)

From S2P Require Import Prelude Text.

(** The length of an address in bytes. *)
Definition ADDRESS_LENGTH : nat := 32.

Record Address := mkAddress { address_bytes : list Z }.

Global Instance Address_eq_dec : EqDecision Address.
Proof. solve_decision. Defined.
Global Instance Address_countable : Countable Address :=
  inj_countable' address_bytes mkAddress (λ '(mkAddress _), eq_refl).

(** What the type [[u8; 32]] guarantees of every Rust address. *)
Definition is_byte (b : Z) : Prop := (0 ≤ b < 256)%Z.
Global Instance is_byte_dec b : Decision (is_byte b).
Proof. unfold is_byte. apply _. Defined.
Definition wf_address (a : Address) : Prop :=
  length (address_bytes a) = ADDRESS_LENGTH ∧ Forall is_byte (address_bytes a).
Global Instance wf_address_dec a : Decision (wf_address a).
Proof. unfold wf_address. apply _. Defined.

(** [Address::ZERO], [Address::fill], [Address::suffixed]. *)
Definition address_ZERO : Address := mkAddress (replicate ADDRESS_LENGTH 0%Z).
Definition address_fill (byte : Z) : Address := mkAddress (replicate ADDRESS_LENGTH byte).
Definition address_suffixed (suffix : Z) : Address :=
  let addr := replicate ADDRESS_LENGTH 0%Z in
  let hi := Z.shiftr suffix 8 in
  let lo := Z.land suffix 255 in
  mkAddress (<[ADDRESS_LENGTH - 1 := lo]> (<[ADDRESS_LENGTH - 2 := hi]> addr)).

(** ** The [prefix_hex] crate *)
Class PrefixHex := {
  hex_encode : list Z → string;
  hex_decode : string → option (list Z);
}.

(** Documented behaviour of [prefix_hex]: [decode] inverts [encode], what it
    decodes are bytes (the Rust type is [Vec<u8>]), and [encode] writes [0x]
    followed by two hexadecimal digits for each byte. *)
Class PrefixHexLaws `{PrefixHex} := {
  hex_decode_encode bs : Forall is_byte bs → hex_decode (hex_encode bs) = Some bs;
  hex_decode_bytes s bs : hex_decode s = Some bs → Forall is_byte bs;
  hex_encode_digits bs : Forall is_byte bs →
    ∃ ds, hex_encode bs = "0x" +:+ ds ∧ all_chars is_hex_digit ds = true ∧
      String.length ds = 2 * length bs;
}.

Lemma hex_encode_no_colon `{PrefixHexLaws} bs :
  Forall is_byte bs → ":"%char ∉ String.list_ascii_of_string (hex_encode bs).
Proof.
  intros (ds & -> & Hds & _)%hex_encode_digits. simpl. rewrite !not_elem_of_cons.
  split_and!; [done..|]. by apply (all_chars_no is_hex_digit).
Qed.

Module AddressError.
Inductive t :=
  | PrefixHexError
  | InvalidLength (actual expected : nat).
End AddressError.

(** [impl TryFrom<&[u8]> for Address]. *)
Definition address_try_from (bytes : list Z) : outcome AddressError.t Address :=
  if bool_decide (length bytes = ADDRESS_LENGTH) then Ok (mkAddress bytes)
  else Err (AddressError.InvalidLength (length bytes) ADDRESS_LENGTH).

(** [impl FromStr for Address]. *)
Definition address_from_str `{PrefixHex} (s : string) : outcome AddressError.t Address :=
  bytes ← ok_or (hex_decode s) AddressError.PrefixHexError;
  if bool_decide (length bytes < ADDRESS_LENGTH) then
    let padded := replicate (ADDRESS_LENGTH - length bytes) 0%Z ++ bytes in
    address_try_from padded
  else address_try_from bytes.

(** [impl Display for Address]. *)
Definition address_to_string `{PrefixHex} (a : Address) : string :=
  hex_encode (address_bytes a).

(** ** String primitives of the standard library *)

(** [str::split_once(two colons)]: split at the first occurrence. *)
Fixpoint split_once (s : string) : option (string * string) :=
  match s with
  | EmptyString => None
  | String c rest =>
      match rest with
      | String d rest' =>
          if Ascii.eqb c ":" && Ascii.eqb d ":" then Some (EmptyString, rest')
          else '(a, b) ← split_once rest; Some (String c a, b)
      | EmptyString => None
      end
  end.

(** [str::strip_prefix] of the character [@]. *)
Definition strip_prefix_at (s : string) : option string :=
  match s with
  | String c rest => if Ascii.eqb c "@" then Some rest else None
  | EmptyString => None
  end.

(** ** Cross-module references [@0xHEX::name] *)

(** [module_ref::parse_module_ref]. *)
Definition parse_module_ref `{PrefixHex} (s : string) : option (Address * string) :=
  rest ← strip_prefix_at s;
  '(hex_part, name) ← split_once rest;
  match address_from_str hex_part with
  | Ok address => Some (address, name)
  | _ => None
  end.

(** [module_ref::qualify]. *)
Definition qualify `{PrefixHex} (address : Address) (name : string) : string :=
  "@" +:+ address_to_string address +:+ "::" +:+ name.

(** [module_ref::is_qualified]. *)
Definition is_qualified (s : string) : bool :=
  match split_once s with Some _ => true | None => false end.

(** ** Lemmas *)

Lemma split_once_cons c d r :
  split_once (String c (String d r)) =
    if Ascii.eqb c ":" && Ascii.eqb d ":" then Some (EmptyString, r)
    else '(a, b) ← split_once (String d r); Some (String c a, b).
Proof. done. Qed.

Lemma split_once_app (s r : string) :
  ":"%char ∉ String.list_ascii_of_string s →
  split_once (s +:+ "::" +:+ r) = Some (s, r).
Proof.
  induction s as [|c s IH]; [done|].
  cbn [String.list_ascii_of_string]. rewrite not_elem_of_cons. intros [Hc Hs].
  specialize (IH Hs). rewrite append_cons. destruct s as [|d s].
  - change (split_once (String c (String ":" (":" +:+ r))) = Some (String c "", r)).
    rewrite split_once_cons. change (String ":" (":" +:+ r)) with ("" +:+ "::" +:+ r).
    rewrite IH. destruct (Ascii.eqb_spec c ":"); by simplify_eq.
  - rewrite append_cons in IH |- *. rewrite split_once_cons, IH. destruct (Ascii.eqb_spec c ":"); by simplify_eq.
Qed.

Lemma split_once_no_colon (s : string) :
  ":"%char ∉ String.list_ascii_of_string s → split_once s = None.
Proof.
  induction s as [|c s IH]; [done|].
  cbn [String.list_ascii_of_string]. rewrite not_elem_of_cons. intros [Hc Hs].
  specialize (IH Hs). destruct s as [|d s]; [done|].
  rewrite split_once_cons, IH. destruct (Ascii.eqb_spec c ":"); by simplify_eq.
Qed.

Lemma address_try_from_wf a : wf_address a → address_try_from (address_bytes a) = Ok a.
Proof.
  destruct a as [bs]. intros [Hl _]. unfold address_try_from.
  rewrite bool_decide_true by done. done.
Qed.

Lemma address_try_from_length bs a :
  address_try_from bs = Ok a → length (address_bytes a) = ADDRESS_LENGTH.
Proof. unfold address_try_from. intros H. case_bool_decide; naive_solver. Qed.

Section module_ref.
Context `{PrefixHexLaws}.

Lemma address_from_to_string a :
  wf_address a → address_from_str (address_to_string a) = Ok a.
Proof.
  intros Hwf. unfold address_from_str, address_to_string.
  rewrite hex_decode_encode by apply Hwf. simpl.
  rewrite bool_decide_false by (rewrite (proj1 Hwf); lia).
  by apply address_try_from_wf.
Qed.

Lemma parse_qualify a n :
  wf_address a → parse_module_ref (qualify a n) = Some (a, n).
Proof.
  intros Hwf. unfold parse_module_ref, qualify. rewrite append_cons. simpl.
  change ("" +:+ ?x) with x. rewrite split_once_app by apply hex_encode_no_colon, Hwf. simpl.
  by rewrite address_from_to_string.
Qed.

Lemma parse_module_ref_wf s a n : parse_module_ref s = Some (a, n) → wf_address a.
Proof.
  unfold parse_module_ref, address_from_str, address_try_from. intros Hs.
  destruct (strip_prefix_at s) as [r|]; simplify_eq/=.
  destruct (split_once r) as [[h n']|]; simplify_eq/=.
  destruct (hex_decode h) as [bs|] eqn:Hb; simplify_eq/=.
  apply hex_decode_bytes in Hb.
  repeat case_bool_decide; simplify_eq; split; try done.
  apply Forall_app. split; [|done]. by apply Forall_replicate.
Qed.

Lemma parse_plain s : strip_prefix_at s = None → parse_module_ref s = None.
Proof. unfold parse_module_ref. by intros ->. Qed.

Lemma is_qualified_qualify a n : wf_address a → is_qualified (qualify a n) = true.
Proof.
  intros Hwf. unfold is_qualified, qualify.
  change ("@" +:+ address_to_string a +:+ "::" +:+ n)
    with (String "@" (address_to_string a) +:+ "::" +:+ n).
  rewrite split_once_app; [done|]. simpl. rewrite not_elem_of_cons.
  split; [done|]. apply hex_encode_no_colon, Hwf.
Qed.
End module_ref.
