(* ===== verification/HexInstance.v ===== *)
(** * A concrete hexadecimal codec

    An instance of the [PrefixHex] interface with its laws: [0x] followed by
    two lower-case digits per byte.  The theorems hold for every codec with
    the laws; the concrete examples use this one. *)

From S2P Require Import Prelude Text Address.

Definition hex_digit (n : Z) : ascii :=
  ascii_of_nat (Z.to_nat (if Z.ltb n 10 then n + 48 else n + 87)).
Definition hex_value (c : ascii) : option Z :=
  let n := Z.of_nat (nat_of_ascii c) in
  if Z.leb 48 n && Z.leb n 57 then Some (n - 48)%Z
  else if Z.leb 97 n && Z.leb n 102 then Some (n - 87)%Z
  else if Z.leb 65 n && Z.leb n 70 then Some (n - 55)%Z
  else None.

Fixpoint digits (bs : list Z) : string :=
  match bs with
  | [] => ""
  | b :: bs => String (hex_digit (b / 16)) (String (hex_digit (b mod 16)) (digits bs))
  end.
Fixpoint undigits (s : string) : option (list Z) :=
  match s with
  | EmptyString => Some []
  | String h (String l s) =>
      x ← hex_value h; y ← hex_value l; bs ← undigits s; Some ((16 * x + y)%Z :: bs)
  | _ => None
  end.

Global Instance std_prefix_hex : PrefixHex := {|
  hex_encode bs := String "0" (String "x" (digits bs));
  hex_decode s :=
    match s with
    | String "0" (String "x" s) => undigits s
    | _ => None
    end;
|}.

Lemma hex_value_range c x : hex_value c = Some x → (0 ≤ x < 16)%Z.
Proof.
  unfold hex_value. intros. repeat case_match; simplify_eq;
    repeat match goal with H : _ && _ = true |- _ => apply andb_true_iff in H as [??] end; lia.
Qed.

Lemma nibbles (P : Z → Prop) : (∀ n, n < 16 → P (Z.of_nat n)) → ∀ x, (0 ≤ x < 16)%Z → P x.
Proof. intros HP x Hx. rewrite <-(Z2Nat.id x) by lia. apply HP. lia. Qed.

Lemma hex_value_digit x : (0 ≤ x < 16)%Z → hex_value (hex_digit x) = Some x.
Proof. revert x. apply nibbles. intros n Hn. do 16 (destruct n as [|n]; [done|]). lia. Qed.
Lemma hex_digit_is x : (0 ≤ x < 16)%Z → is_hex_digit (hex_digit x) = true.
Proof. revert x. apply nibbles. intros n Hn. do 16 (destruct n as [|n]; [done|]). lia. Qed.

Lemma byte_nibbles b : is_byte b → (0 ≤ b / 16 < 16)%Z ∧ (0 ≤ b mod 16 < 16)%Z.
Proof.
  intros [??]. split; [|by apply Z.mod_pos_bound]. split; [by apply Z.div_pos|].
  by apply Z.div_lt_upper_bound.
Qed.

Lemma undigits_digits bs : Forall is_byte bs → undigits (digits bs) = Some bs.
Proof.
  induction 1 as [|b bs Hb _ IH]; [done|]. apply byte_nibbles in Hb as [H1 H2]. simpl.
  rewrite !hex_value_digit by done. simpl. rewrite IH. simpl.
  by rewrite <-Z.div_mod by done.
Qed.

Lemma undigits_bytes n s bs : String.length s ≤ n → undigits s = Some bs → Forall is_byte bs.
Proof.
  revert s bs. induction n as [|n IH]; intros [|h [|l s]] bs Hn Hu; simplify_eq/=; try done; try lia.
  destruct (hex_value h) as [x|] eqn:Hx; simplify_eq/=.
  destruct (hex_value l) as [y|] eqn:Hy; simplify_eq/=.
  destruct (undigits s) as [bs'|] eqn:Hs; simplify_eq/=.
  apply hex_value_range in Hx, Hy. constructor; [unfold is_byte; lia|]. eapply IH; [|done]. lia.
Qed.

Global Instance std_prefix_hex_laws : PrefixHexLaws.
Proof.
  split.
  - apply undigits_digits.
  - intros s bs. simpl. intros Hd. repeat case_match; try done. by eapply undigits_bytes.
  - intros bs Hbs. exists (digits bs). split; [done|].
    induction Hbs as [|b bs Hb _ [IH Hl]]; simpl; [done|].
    apply byte_nibbles in Hb as [H1 H2]. rewrite !hex_digit_is by done. simpl in *. split; [done|lia].
Qed.
