(* ===== verification/VmTypes.v ===== *)
(** * Shared VM types

    Models [meow-vm-types]: types and values ([types.rs]), the instruction
    set ([bytecode.rs]), compiled modules ([module.rs]), native functions
    ([natives.rs]), limits ([config.rs]) and identifiers ([identifier.rs]). *)

From S2P Require Import Prelude Address.

(** ** Types ([types.rs]) *)
Module Ty.
Inductive t :=
  | Bool
  | U64
  | Address
  | Str
  | Struct (name : string)
  | Tuple (types : list t).

(** The induction principle that goes through the list of a tuple. *)
Section ind.
Context (P : t → Prop).
Context (HBool : P Bool) (HU64 : P U64) (HAddress : P Address) (HStr : P Str).
Context (HStruct : ∀ n, P (Struct n)).
Context (HTuple : ∀ ts, Forall P ts → P (Tuple ts)).
Fixpoint ind' (ty : t) : P ty :=
  match ty with
  | Bool => HBool
  | U64 => HU64
  | Address => HAddress
  | Str => HStr
  | Struct n => HStruct n
  | Tuple ts =>
      HTuple ts ((fix go ts : Forall P ts :=
        match ts with
        | [] => Forall_nil_2 P
        | ty :: ts => Forall_cons_2 P ty ts (ind' ty) (go ts)
        end) ts)
  end.
End ind.

Definition eq_dec : ∀ a b : t, {a = b} + {a ≠ b}.
Proof.
  fix IH 1. pose (H := IH : EqDecision t).
  intros [] []; try (left; reflexivity); try (right; congruence).
  - destruct (decide (name = name0)); [left|right]; congruence.
  - destruct (decide (types = types0)); [left|right]; congruence.
Defined.
Global Instance eq_decision : EqDecision t := eq_dec.

(** [Type::from_name]. *)
Definition from_name (s : string) : t :=
  if String.eqb s "bool" then Bool
  else if String.eqb s "u64" then U64
  else if String.eqb s "address" then Address
  else if String.eqb s "string" then Str
  else Struct s.

(** [[String]::join(sep)]. *)
Fixpoint join (sep : string) (l : list string) : string :=
  match l with
  | [] => ""
  | [s] => s
  | s :: l => s +:+ sep +:+ join sep l
  end.

(** [Type::name]. *)
Fixpoint name (ty : t) : string :=
  match ty with
  | Bool => "bool"
  | U64 => "u64"
  | Address => "address"
  | Str => "string"
  | Struct n => n
  | Tuple types => "(" +:+ join ", " (map name types) +:+ ")"
  end.

(** [Type::is_primitive]. *)
Definition is_primitive (ty : t) : bool :=
  match ty with Bool | U64 | Address | Str => true | _ => false end.

(** [Type::is_valid_field_type]. *)
Definition is_valid_field_type (ty : t) : bool :=
  is_primitive ty || match ty with Struct _ => true | _ => false end.

(** [Type::is_linear]. *)
Fixpoint is_linear (ty : t) : bool :=
  match ty with
  | Struct _ => true
  | Tuple types => existsb is_linear types
  | _ => false
  end.

(** [Type::is_cross_module]. *)
Definition is_cross_module (ty : t) : bool :=
  match ty with Struct name => is_qualified name | _ => false end.
End Ty.

(** ** Runtime values ([types.rs]) *)
Module Value.
Inductive t :=
  | Bool (b : bool)
  | U64 (n : Z)
  | Address (a : Address)
  | Str (s : string)
  | Void
  | Struct (type_name : string) (fields : list (string * t))
  | Tuple (values : list t).

Section ind.
Context (P : t → Prop).
Context (HBool : ∀ b, P (Bool b)) (HU64 : ∀ n, P (U64 n)).
Context (HAddress : ∀ a, P (Address a)) (HStr : ∀ s, P (Str s)) (HVoid : P Void).
Context (HStruct : ∀ n fs, Forall (λ f, P (snd f)) fs → P (Struct n fs)).
Context (HTuple : ∀ vs, Forall P vs → P (Tuple vs)).
Fixpoint ind' (v : t) : P v :=
  match v with
  | Bool b => HBool b
  | U64 n => HU64 n
  | Address a => HAddress a
  | Str s => HStr s
  | Void => HVoid
  | Struct n fs =>
      HStruct n fs ((fix go fs : Forall (λ f, P (snd f)) fs :=
        match fs with
        | [] => Forall_nil_2 _
        | f :: fs => Forall_cons_2 _ f fs (ind' (snd f)) (go fs)
        end) fs)
  | Tuple vs =>
      HTuple vs ((fix go vs : Forall P vs :=
        match vs with
        | [] => Forall_nil_2 P
        | v :: vs => Forall_cons_2 P v vs (ind' v) (go vs)
        end) vs)
  end.
End ind.

(** Derived [PartialEq]: structural equality. *)
Definition eq_dec : ∀ a b : t, {a = b} + {a ≠ b}.
Proof.
  fix IH 1. pose (H := IH : EqDecision t).
  intros [x|x|x|x| |n x|x] [y|y|y|y| |m y|y];
    try (left; reflexivity); try (right; congruence).
  all: try (destruct (decide (x = y)); [left|right]; congruence).
  destruct (decide (n = m)), (decide (x = y)); [left|right..]; congruence.
Defined.
Global Instance eq_decision : EqDecision t := eq_dec.

(** [Value::type_name]. *)
Definition type_name (v : t) : string :=
  match v with
  | Bool _ => "bool"
  | U64 _ => "u64"
  | Address _ => "address"
  | Str _ => "str"
  | Void => "void"
  | Struct type_name _ => type_name
  | Tuple _ => "tuple"
  end.

(** [Value::as_u64], [as_bool], [as_address], [as_str] and [into_str],
    [as_tuple], [is_void]. *)
Definition as_u64 (v : t) : option Z := match v with U64 n => Some n | _ => None end.
Definition as_bool (v : t) : option bool := match v with Bool b => Some b | _ => None end.
Definition as_address (v : t) : option Address.Address :=
  match v with Address a => Some a | _ => None end.
Definition as_str (v : t) : option string := match v with Str s => Some s | _ => None end.
Definition as_tuple (v : t) : option (list t) := match v with Tuple vs => Some vs | _ => None end.
Definition is_void (v : t) : bool := match v with Void => true | _ => false end.

(** [fields.iter().find(|(k, _)| k == name)]. *)
Definition find_field (name : string) (fields : list (string * t)) : option t :=
  snd <$> find_first (λ f, String.eqb (fst f) name) fields.

(** [Value::field], [field_u64], [field_str], [field_bool], [field_address]. *)
Definition field (v : t) (name : string) : option t :=
  match v with Struct _ fields => find_field name fields | _ => None end.
Definition field_u64 (v : t) (name : string) : option Z := field v name ≫= as_u64.
Definition field_str (v : t) (name : string) : option string := field v name ≫= as_str.
Definition field_bool (v : t) (name : string) : option bool := field v name ≫= as_bool.
Definition field_address (v : t) (name : string) : option Address.Address :=
  field v name ≫= as_address.

(** [Value::is_linear]. *)
Fixpoint is_linear (v : t) : bool :=
  match v with
  | Struct _ _ => true
  | Tuple values => existsb is_linear values
  | _ => false
  end.
End Value.

(** [FieldDef], [StructDef]. *)
Record FieldDef := mkFieldDef { fd_name : string; fd_ty : Ty.t }.
Global Instance FieldDef_eq_dec : EqDecision FieldDef.
Proof. solve_decision. Defined.
Record StructDef := mkStructDef {
  sd_name : string;
  sd_fields : list FieldDef;
  sd_is_public : bool;
}.

(** [StructDef::field_index]. *)
Definition field_index (s : StructDef) (field_name : string) : option nat :=
  fst <$> list_find (λ f, fd_name f = field_name) (sd_fields s).

(** ** Instructions ([bytecode.rs]); slots and tuple sizes are the [u8] operands,
    jump offsets the [i32] ones. *)
Module Instruction.
Inductive t :=
  | PushBool (b : bool)
  | PushU64 (n : Z)
  | PushAddress (a : Address)
  | PushStr (s : string)
  | Load (slot : nat)
  | Store (slot : nat)
  | LoadField (slot : nat) (path : list string)
  | StoreField (slot : nat) (path : list string)
  | Add | Sub | Mul | Div | Mod
  | Eq | Ne | Lt | Le | Gt | Ge
  | Not | And | Or
  | NewStruct (type_name : string) (field_names : list string)
  | GetField (field : string)
  | UnpackStruct (type_name : string) (field_names : list string)
  | Pop
  | Dup
  | Jump (offset : Z)
  | JumpIf (offset : Z)
  | JumpIfNot (offset : Z)
  | Call (name : string)
  | Return
  | MakeTuple (n : nat)
  | UnpackTuple (n : nat).
End Instruction.

(** ** Compiled modules ([module.rs]) *)
Record Function := mkFunction {
  fn_name : string;
  fn_is_public : bool;
  fn_params : list (string * Ty.t);
  fn_return_type : option Ty.t;
  fn_local_count : nat;
  fn_code : list Instruction.t;
}.

Record VmModule := mkModule {
  mod_name : string;
  mod_imports : list Address;
  mod_structs : list StructDef;
  mod_functions : list Function;
}.

(** [Module::new], [Module::get_struct], [Module::get_function]. *)
Definition module_new (name : string) : VmModule := mkModule name [] [] [].
Definition get_struct (m : VmModule) (name : string) : option StructDef :=
  find_first (λ s, String.eqb (sd_name s) name) (mod_structs m).
Definition get_function (m : VmModule) (name : string) : option Function :=
  find_first (λ f, String.eqb (fn_name f) name) (mod_functions m).

(** ** Native functions ([natives.rs]) *)
Inductive NativeParam :=
  | Concrete (ty : Ty.t)
  | AnyStruct
  | LocalStruct.
Global Instance NativeParam_eq_dec : EqDecision NativeParam.
Proof. solve_decision. Defined.

Inductive NativeResult :=
  | NativeReturn (v : option Value.t)
  | NativeAbort (code : Z) (message : string)
  | NativeErr (msg : string).

(** A native entry.  In Rust [func] is a closure that may mutate a context it
    shares with its siblings through an [Rc<RefCell<_>>]; the model passes
    that context, of type [S], explicitly. *)
Record NativeFnEntry (S : Type) := mkNative {
  nat_name : string;
  nat_params : list NativeParam;
  nat_return_type : option Ty.t;
  nat_gas_cost : Z;
  nat_func : list Value.t → S → NativeResult * S;
}.
Arguments mkNative {_}.
Arguments nat_name {_}.
Arguments nat_params {_}.
Arguments nat_return_type {_}.
Arguments nat_gas_cost {_}.
Arguments nat_func {_}.

Record NativeSig := mkNativeSig {
  sig_name : string;
  sig_params : list NativeParam;
  sig_return_type : option Ty.t;
}.

Definition MEOW_VM_ABORT : string := "meow_vm_abort".

(** [meow_vm_abort_sig], [builtin_natives]. *)
Definition meow_vm_abort_sig : NativeSig :=
  mkNativeSig MEOW_VM_ABORT [Concrete Ty.Bool; Concrete Ty.U64; Concrete Ty.Str] None.
Definition builtin_natives : list NativeSig := [meow_vm_abort_sig].

(** The closure of [meow_vm_abort_entry].  Indexing [args] past its end would
    panic in Rust; the VM always passes the three declared arguments, and the
    missing-argument cases below return the first error. *)
Definition meow_vm_abort_func (args : list Value.t) : NativeResult :=
  match args !! 0 with
  | Some (Value.Bool condition) =>
      if condition then NativeReturn None
      else
        let code := default 0%Z (args !! 1 ≫= Value.as_u64) in
        let message := default "aborted" (args !! 2 ≫= Value.as_str) in
        NativeAbort code message
  | _ => NativeErr "meow_vm_abort: first argument must be bool"
  end.

(** [meow_vm_abort_entry]. *)
Definition meow_vm_abort_entry {S} : NativeFnEntry S :=
  mkNative MEOW_VM_ABORT [Concrete Ty.Bool; Concrete Ty.U64; Concrete Ty.Str] None 0
    (λ args s, (meow_vm_abort_func args, s)).

(** ** Limits ([config.rs]) *)
Record CompilerConfig := mkCompilerConfig {
  max_identifier_len : nat;
  max_structs : nat;
  max_functions : nat;
  max_fields : nat;
  max_params : nat;
  max_tuple_elements : nat;
  max_locals : nat;
  max_fun_code_size : Z;
  max_imports : nat;
  compiler_max_dep_modules : nat;
  reserved_function_names : list string;
}.

(** [impl Default for CompilerConfig]. *)
Definition CompilerConfig_default : CompilerConfig := {|
  max_identifier_len := 128;
  max_structs := 128;
  max_functions := 256;
  max_fields := 32;
  max_params := 16;
  max_tuple_elements := 16;
  max_locals := 255;
  max_fun_code_size := 65536;
  max_imports := 64;
  compiler_max_dep_modules := 64;
  reserved_function_names := [];
|}.

(** [CompilerConfig::with_reserved_function_names]. *)
Definition with_reserved_function_names (c : CompilerConfig) (names : list string) : CompilerConfig := {|
  max_identifier_len := max_identifier_len c;
  max_structs := max_structs c;
  max_functions := max_functions c;
  max_fields := max_fields c;
  max_params := max_params c;
  max_tuple_elements := max_tuple_elements c;
  max_locals := max_locals c;
  max_fun_code_size := max_fun_code_size c;
  max_imports := max_imports c;
  compiler_max_dep_modules := compiler_max_dep_modules c;
  reserved_function_names := names;
|}.

Record VmConfig := mkVmConfig {
  max_call_depth : nat;
  vm_max_dep_modules : nat;
  enable_call_private_functions : bool;
}.

(** [impl Default for VmConfig]. *)
Definition VmConfig_default : VmConfig := {|
  max_call_depth := 256;
  vm_max_dep_modules := 64;
  enable_call_private_functions := false;
|}.

(** [VmConfig::with_enable_call_private_functions]. *)
Definition with_enable_call_private_functions (c : VmConfig) (enable : bool) : VmConfig :=
  mkVmConfig (max_call_depth c) (vm_max_dep_modules c) enable.

(** ** Identifiers ([identifier.rs]) *)
Definition RESERVED_FUNCTION_NAMES : list string := ["meow_vm_abort"].

Definition is_ascii_alphabetic (c : ascii) : bool :=
  let n := nat_of_ascii c in
  (Nat.leb 65 n && Nat.leb n 90) || (Nat.leb 97 n && Nat.leb n 122).
Definition is_ascii_alphanumeric (c : ascii) : bool :=
  is_ascii_alphabetic c ||
  (let n := nat_of_ascii c in Nat.leb 48 n && Nat.leb n 57).

(** [is_valid_identifier]; strings are their bytes, and a multi-byte
    character, like each of its bytes, is not ASCII-alphanumeric. *)
Definition is_valid_identifier (name : string) (config : CompilerConfig) : bool :=
  if bool_decide (name = "") || Nat.ltb (max_identifier_len config) (String.length name)
  then false
  else
    match name with
    | String first chars =>
        (is_ascii_alphabetic first || Ascii.eqb first "_") &&
        forallb (λ c, is_ascii_alphanumeric c || Ascii.eqb c "_")
          (String.list_ascii_of_string chars)
    | EmptyString => false
    end.
