(* ===== verification/Gas.v ===== *)
(** * Gas: the cost table and the meter

    Models [meow-vm/src/gas_schedule.rs], [gas_meter.rs] and the error type
    [error.rs] of the VM. *)

From S2P Require Import Prelude Address VmTypes.

(** ** VM errors ([error.rs]) *)
Module VmError.
Inductive t :=
  | Aborted (code : Z) (message : string)
  | ArithmeticOverflow
  | ArityMismatch (function : string) (got local_count : nat)
  | CallStackOverflow (max : nat)
  | DivisionByZero
  | EqOnLinearType (name : string)
  | InvalidJumpTarget (pc : nat) (offset : Z)
  | LinearFieldOverwrite (field : string)
  | NativeError (msg : string)
  | NativeFunctionCallDirect (name : string)
  | OutOfGas (spent limit : Z)
  | PrivateFunction (name : string)
  | SlotOverwrite (slot : nat)
  | StackUnderflow
  | TooManyDepModules (max : nat)
  | TypeError (msg : string)
  | UndefinedField (type_name field : string)
  | UndefinedFunction (name : string)
  | UndefinedStruct (name : string)
  | UndefinedVariable (slot : nat)
  | UseAfterMove (msg : string).
End VmError.

(** ** The gas schedule *)
Record GasSchedule := mkGasSchedule {
  push_primitive : Z;
  push_str : Z;
  load_store : Z;
  load_field : Z;
  store_field : Z;
  add_sub_mul : Z;
  div : Z;
  mod_ : Z;
  compare : Z;
  logic : Z;
  new_struct_base : Z;
  new_struct_per_field : Z;
  get_field : Z;
  stack_cost : Z;
  jump : Z;
  call_cost : Z;
  return_ : Z;
  make_tuple_per_element : Z;
  unpack_tuple_per_element : Z;
  unpack_struct_per_field : Z;
}.

(** [impl Default for GasSchedule]. *)
Definition GasSchedule_default : GasSchedule := {|
  push_primitive := 1;
  push_str := 2;
  load_store := 1;
  load_field := 2;
  store_field := 5;
  add_sub_mul := 2;
  div := 5;
  mod_ := 5;
  compare := 2;
  logic := 1;
  new_struct_base := 10;
  new_struct_per_field := 2;
  get_field := 3;
  stack_cost := 1;
  jump := 2;
  call_cost := 20;
  return_ := 2;
  make_tuple_per_element := 1;
  unpack_tuple_per_element := 1;
  unpack_struct_per_field := 1;
|}.

(** [GasSchedule::cost_of].  The multiplications are by vector lengths, far
    below the 64-bit range. *)
Definition cost_of (g : GasSchedule) (instr : Instruction.t) : Z :=
  match instr with
  | Instruction.PushBool _ | Instruction.PushU64 _ | Instruction.PushAddress _ =>
      push_primitive g
  | Instruction.PushStr _ => push_str g
  | Instruction.Load _ | Instruction.Store _ => load_store g
  | Instruction.LoadField _ _ => load_field g
  | Instruction.StoreField _ _ => store_field g
  | Instruction.Add | Instruction.Sub | Instruction.Mul => add_sub_mul g
  | Instruction.Div => div g
  | Instruction.Mod => mod_ g
  | Instruction.Eq | Instruction.Ne | Instruction.Lt
  | Instruction.Le | Instruction.Gt | Instruction.Ge => compare g
  | Instruction.Not | Instruction.And | Instruction.Or => logic g
  | Instruction.NewStruct _ field_names =>
      (new_struct_base g + Z.of_nat (length field_names) * new_struct_per_field g)%Z
  | Instruction.GetField _ => get_field g
  | Instruction.Pop | Instruction.Dup => stack_cost g
  | Instruction.Jump _ | Instruction.JumpIf _ | Instruction.JumpIfNot _ => jump g
  | Instruction.Call _ => call_cost g
  | Instruction.Return => return_ g
  | Instruction.MakeTuple n => (Z.of_nat n * make_tuple_per_element g)%Z
  | Instruction.UnpackTuple n => (Z.of_nat n * unpack_tuple_per_element g)%Z
  | Instruction.UnpackStruct _ field_names =>
      (Z.of_nat (length field_names) * unpack_struct_per_field g)%Z
  end.

(** ** The gas meter *)
Record GasMeter := mkGasMeter { limit : Z; spent : Z }.

(** [GasMeter::new], [GasMeter::unlimited], [GasMeter::remaining]. *)
Definition gas_new (limit : Z) : GasMeter := mkGasMeter limit 0.
Definition gas_unlimited : GasMeter := gas_new u64_max.
Definition remaining (g : GasMeter) : Z := saturating_sub (limit g) (spent g).

(** [GasMeter::charge]: the meter is updated on the error path too. *)
Definition charge (g : GasMeter) (cost : Z) : outcome VmError.t () * GasMeter :=
  let new := saturating_add (spent g) cost in
  if bool_decide (new > limit g)%Z
  then (Err (VmError.OutOfGas (limit g) (limit g)), mkGasMeter (limit g) (limit g))
  else (Ok (), mkGasMeter (limit g) new).

(** ** The meter invariant *)
Definition wf_gas (g : GasMeter) : Prop := in_u64 (limit g) ∧ (0 ≤ spent g ≤ limit g)%Z.
Global Instance wf_gas_dec g : Decision (wf_gas g).
Proof. unfold wf_gas. apply _. Defined.

(** [g'] is [g] after spending some more gas. *)
Definition gas_le (g g' : GasMeter) : Prop :=
  limit g' = limit g ∧ (spent g ≤ spent g')%Z ∧ (wf_gas g → wf_gas g').

Global Instance gas_le_preorder : PreOrder gas_le.
Proof.
  split; [by intros g; split_and!|].
  intros g1 g2 g3 (?&?&?) (?&?&?). split_and!; [congruence|lia|auto].
Qed.

Lemma gas_new_wf l : in_u64 l → wf_gas (gas_new l).
Proof. unfold wf_gas, in_u64. simpl. lia. Qed.

(** Every schedule the VM is built with charges nothing negative, and charges
    for the instructions that transfer control. *)
Definition wf_schedule (g : GasSchedule) : Prop :=
  (∀ i, 0 ≤ cost_of g i)%Z ∧ (1 ≤ jump g)%Z ∧ (1 ≤ call_cost g)%Z.

Lemma GasSchedule_default_wf : wf_schedule GasSchedule_default.
Proof. split; [|by split]. intros []; simpl; lia. Qed.

Lemma charge_Ok g cost u g' :
  charge g cost = (Ok u, g') →
  limit g' = limit g ∧ spent g' = Z.min (spent g + cost) u64_max ∧ (spent g' ≤ limit g)%Z.
Proof.
  unfold charge, saturating_add. case_bool_decide; intros ?; simplify_eq/=.
  split_and!; [done..|lia].
Qed.

Lemma charge_spent g cost r g' :
  wf_gas g → (0 ≤ cost)%Z → charge g cost = (r, g') →
  spent g' = Z.min (spent g + cost) (limit g) ∧ limit g' = limit g.
Proof.
  unfold charge, saturating_add, wf_gas, in_u64. intros Hg Hc.
  case_bool_decide; intros ?; simplify_eq/=; lia.
Qed.

Lemma charge_le g cost r g' :
  (0 ≤ cost)%Z → wf_gas g → charge g cost = (r, g') → gas_le g g'.
Proof.
  intros Hc Hg H. apply charge_spent in H as [Hs Hl]; [|done..].
  unfold gas_le, wf_gas, in_u64 in *. rewrite Hl. lia.
Qed.
