(* ===== verification/Vm.v ===== *)
(** * The virtual machine

    Models [meow-vm/src/lib.rs].  The operand stack is a list whose head is
    the top (the last element of the Rust vector).  One definition per group
    of instructions computes the new frame; [run] is the fetch-charge-execute
    loop of [call_inner], recursive on fuel, and threads the gas meter and the
    state [S] that the native functions share. *)

From S2P Require Import Prelude Address VmTypes Gas.

(** ** Frames *)
Record Frame := mkFrame {
  locals : list (option Value.t);
  stack : list Value.t;
  pc : nat;
  code : list Instruction.t;
}.

Definition set_locals (fr : Frame) (l : list (option Value.t)) : Frame :=
  mkFrame l (stack fr) (pc fr) (code fr).
Definition set_stack (fr : Frame) (st : list Value.t) : Frame :=
  mkFrame (locals fr) st (pc fr) (code fr).
Definition set_pc (fr : Frame) (n : nat) : Frame :=
  mkFrame (locals fr) (stack fr) n (code fr).

(** [Frame::new], for at most [local_count] arguments (checked by the caller). *)
Definition frame_new (code : list Instruction.t) (args : list Value.t) (local_count : nat) : Frame :=
  mkFrame ((Some <$> args) ++ replicate (local_count - length args) None) [] 0 code.

(** [Frame::push], [Frame::pop], [Frame::peek]. *)
Definition push (v : Value.t) (fr : Frame) : Frame := set_stack fr (v :: stack fr).
Definition pop (fr : Frame) : outcome VmError.t (Value.t * Frame) :=
  match stack fr with
  | v :: st => Ok (v, set_stack fr st)
  | [] => Err VmError.StackUnderflow
  end.
Definition peek (fr : Frame) : outcome VmError.t Value.t :=
  ok_or (head (stack fr)) VmError.StackUnderflow.

(** [(0..n).map(|_| frame.pop()).collect::<Result<Vec<_>>>()] then [reverse]. *)
Definition pop_args (n : nat) (fr : Frame) : outcome VmError.t (list Value.t * Frame) :=
  match pop_n n (stack fr) with
  | Some (vs, st) => Ok (reverse vs, set_stack fr st)
  | None => Err VmError.StackUnderflow
  end.

(** Two pops: the right operand is on top. *)
Definition pop2 (fr : Frame) : outcome VmError.t (Value.t * Value.t * Frame) :=
  '(r, fr) ← pop fr;
  '(l, fr) ← pop fr;
  Ok (l, r, fr).

(** ** Helpers *)

(** [jump_target]. *)
Definition jump_target (pc : nat) (offset : Z) : outcome VmError.t nat :=
  let target := (Z.of_nat pc - 1 + offset)%Z in
  if Z.ltb target 0 then Err (VmError.InvalidJumpTarget pc offset)
  else Ok (Z.to_nat target).

Definition expected_integer (v : Value.t) : VmError.t :=
  VmError.TypeError ("expected integer, got " +:+ Value.type_name v).
Definition expected_bool (v : Value.t) : VmError.t :=
  VmError.TypeError ("expected bool, got " +:+ Value.type_name v).
Definition moved_slot (slot : nat) : VmError.t :=
  VmError.UseAfterMove ("local slot " +:+ pretty slot +:+ " has already been moved").

(** [arith_op]. *)
Definition arith_op (l r : Value.t) (op : Z → Z → option Z) : outcome VmError.t Value.t :=
  a ← ok_or (Value.as_u64 l) (expected_integer l);
  b ← ok_or (Value.as_u64 r) (expected_integer r);
  ok_or (Value.U64 <$> op a b) VmError.ArithmeticOverflow.

(** [cmp_values]: unsigned [l < r]. *)
Definition cmp_values (l r : Value.t) : outcome VmError.t bool :=
  a ← ok_or (Value.as_u64 l) (expected_integer l);
  b ← ok_or (Value.as_u64 r) (expected_integer r);
  Ok (Z.ltb a b).

(** [read_field_path]; [i] is the step number of the loop. *)
Fixpoint read_field_path (i : nat) (current : Value.t) (path : list string)
  : outcome VmError.t Value.t :=
  match path with
  | [] => Ok current
  | field :: path =>
      match current with
      | Value.Struct type_name fields =>
          next ← ok_or (Value.find_field field fields)
                   (VmError.UndefinedField type_name field);
          read_field_path (S i) next path
      | other =>
          Err (VmError.TypeError ("LoadField: expected struct at path step " +:+
                 pretty i +:+ ", got " +:+ Value.type_name other))
      end
  end.

(** Overwrite the first field called [name]. *)
Fixpoint update_field (name : string) (v : Value.t) (fields : list (string * Value.t))
  : list (string * Value.t) :=
  match fields with
  | [] => []
  | (n, w) :: fields =>
      if String.eqb n name then (n, v) :: fields
      else (n, w) :: update_field name v fields
  end.

(** [write_field_path]: the updated root value. *)
Fixpoint write_field_path (i : nat) (current : Value.t) (path : list string) (val : Value.t)
  : outcome VmError.t Value.t :=
  match path with
  | [] => Err (VmError.TypeError "StoreField: path must not be empty")
  | [last] =>
      match current with
      | Value.Struct type_name fields =>
          old ← ok_or (Value.find_field last fields)
                  (VmError.UndefinedField type_name last);
          if Value.is_linear old then Err (VmError.LinearFieldOverwrite last)
          else Ok (Value.Struct type_name (update_field last val fields))
      | other =>
          Err (VmError.TypeError ("StoreField: expected struct for terminal write, got " +:+
                 Value.type_name other))
      end
  | field :: prefix =>
      match current with
      | Value.Struct type_name fields =>
          next ← ok_or (Value.find_field field fields)
                   (VmError.UndefinedField type_name field);
          next' ← write_field_path (S i) next prefix val;
          Ok (Value.Struct type_name (update_field field next' fields))
      | other =>
          Err (VmError.TypeError ("StoreField: expected struct at path step " +:+
                 pretty i +:+ ", got " +:+ Value.type_name other))
      end
  end.

(** [linear_type_name]. *)
Definition linear_type_name (l r : Value.t) : outcome VmError.t string :=
  match (if Value.is_linear l then l else r) with
  | Value.Struct type_name _ => Ok type_name
  | Value.Tuple _ => Ok "tuple"
  | _ => Panic "is_linear() is only true for Struct and Tuple"
  end.

(** [check_struct_qualified]: looks through struct fields, not into tuples. *)
Fixpoint check_struct_qualified `{PrefixHex} (val : Value.t) : bool :=
  match val with
  | Value.Struct type_name fields =>
      match parse_module_ref type_name with
      | None => false
      | Some _ => forallb (λ f, check_struct_qualified (snd f)) fields
      end
  | _ => true
  end.

(** ** The machine *)
Record Vm (S : Type) := mkVm {
  vm_module : VmModule;
  vm_module_addr : Address;
  vm_deps : gmap Address VmModule;
  vm_natives : gmap string (NativeFnEntry S);
  vm_gas_schedule : GasSchedule;
  vm_config : VmConfig;
}.
Arguments mkVm {_}.
Arguments vm_module {_}.
Arguments vm_module_addr {_}.
Arguments vm_deps {_}.
Arguments vm_natives {_}.
Arguments vm_gas_schedule {_}.
Arguments vm_config {_}.

(** [Vm::new]: panics on duplicate native names and on an override of
    [meow_vm_abort] with another signature. *)
Definition vm_new {S} (module : Address * VmModule) (natives : list (NativeFnEntry S))
    (gas_schedule : GasSchedule) (deps : gmap Address VmModule) (config : VmConfig)
  : outcome VmError.t (Vm S) :=
  native_map ← foldl (λ acc entry,
      m ← acc;
      match m !! nat_name entry with
      | None => Ok (<[nat_name entry := entry]> m)
      | Some _ => Panic ("duplicate native function name: " +:+ nat_name entry)
      end) (Ok (∅ : gmap string (NativeFnEntry S))) natives;
  native_map ←
    match native_map !! MEOW_VM_ABORT with
    | Some entry =>
        rust_assert (bool_decide (nat_params entry = sig_params meow_vm_abort_sig))
          "meow_vm_abort override has wrong parameter types; expected (bool, u64, str)" ;;
        rust_assert (bool_decide (nat_return_type entry = None))
          "meow_vm_abort override must return void" ;;
        Ok native_map
    | None => Ok (<[MEOW_VM_ABORT := meow_vm_abort_entry]> native_map)
    end;
  Ok (mkVm (snd module) (fst module) deps native_map gas_schedule config).

(** ** Instructions that only touch the frame

    [pc] has already been advanced when they run. *)

Definition exec_load (slot : nat) (fr : Frame) : outcome VmError.t Frame :=
  match locals fr !! slot with
  | None => Err (VmError.UndefinedVariable slot)
  | Some (Some v) =>
      if Value.is_linear v
      then Ok (push v (set_locals fr (<[slot := None]> (locals fr))))
      else Ok (push v fr)
  | Some None => Err (moved_slot slot)
  end.

(** [frame.locals.resize(idx + 1, None)] when the slot is past the end. *)
Definition resize_locals (slot : nat) (l : list (option Value.t)) : list (option Value.t) :=
  if bool_decide (length l ≤ slot) then l ++ replicate (slot + 1 - length l) None else l.

Definition exec_store (slot : nat) (fr : Frame) : outcome VmError.t Frame :=
  '(v, fr) ← pop fr;
  let ls := resize_locals slot (locals fr) in
  match ls !! slot with
  | Some (Some existing) =>
      if Value.is_linear existing then Err (VmError.SlotOverwrite slot)
      else Ok (set_locals fr (<[slot := Some v]> ls))
  | _ => Ok (set_locals fr (<[slot := Some v]> ls))
  end.

Definition exec_load_field (slot : nat) (path : list string) (fr : Frame)
  : outcome VmError.t Frame :=
  root ← ok_or (mjoin (locals fr !! slot)) (moved_slot slot);
  v ← read_field_path 0 root path;
  Ok (push v fr).

Definition exec_store_field (slot : nat) (path : list string) (fr : Frame)
  : outcome VmError.t Frame :=
  '(new_val, fr) ← pop fr;
  root ← ok_or (mjoin (locals fr !! slot)) (moved_slot slot);
  root' ← write_field_path 0 root path new_val;
  Ok (set_locals fr (<[slot := Some root']> (locals fr))).

Definition exec_arith (op : Z → Z → option Z) (fr : Frame) : outcome VmError.t Frame :=
  '(l, r, fr) ← pop2 fr;
  v ← arith_op l r op;
  Ok (push v fr).

(** [Div] and [Mod]: a zero divisor is an error of its own. *)
Definition exec_div (op : Z → Z → option Z) (fr : Frame) : outcome VmError.t Frame :=
  '(l, r, fr) ← pop2 fr;
  if bool_decide (Value.as_u64 r = Some 0%Z) then Err VmError.DivisionByZero
  else v ← arith_op l r op; Ok (push v fr).

(** [Eq] ([negate = false]) and [Ne] ([negate = true]). *)
Definition exec_eq (negate : bool) (fr : Frame) : outcome VmError.t Frame :=
  '(l, r, fr) ← pop2 fr;
  if Value.is_linear l || Value.is_linear r
  then name ← linear_type_name l r; Err (VmError.EqOnLinearType name)
  else Ok (push (Value.Bool (xorb negate (bool_decide (l = r)))) fr).

(** [Lt], [Le], [Gt], [Ge]: [swap] exchanges the operands, [negate] the result. *)
Definition exec_cmp (swap negate : bool) (fr : Frame) : outcome VmError.t Frame :=
  '(l, r, fr) ← pop2 fr;
  b ← (if swap then cmp_values r l else cmp_values l r);
  Ok (push (Value.Bool (xorb negate b)) fr).

Definition exec_not (fr : Frame) : outcome VmError.t Frame :=
  '(v, fr) ← pop fr;
  b ← ok_or (Value.as_bool v) (expected_bool v);
  Ok (push (Value.Bool (negb b)) fr).

Definition exec_logic (op : bool → bool → bool) (fr : Frame) : outcome VmError.t Frame :=
  '(l, r, fr) ← pop2 fr;
  a ← ok_or (Value.as_bool l) (expected_bool l);
  b ← ok_or (Value.as_bool r) (expected_bool r);
  Ok (push (Value.Bool (op a b)) fr).

(** [NewStruct] pops the values in reverse field order. *)
Definition exec_new_struct `{PrefixHex} (deps : gmap Address VmModule)
    (context_module : VmModule) (context_module_addr : Address)
    (type_name : string) (field_names : list string) (fr : Frame)
  : outcome VmError.t Frame :=
  qualified_type_name ←
    match parse_module_ref type_name with
    | Some (dep_addr, struct_name) =>
        ok_or (deps !! dep_addr ≫= λ m, get_struct m struct_name)
          (VmError.UndefinedStruct type_name) ;;
        Ok type_name
    | None =>
        ok_or (get_struct context_module type_name)
          (VmError.UndefinedStruct type_name) ;;
        Ok (qualify context_module_addr type_name)
    end;
  '(vs, fr) ← pop_args (length field_names) fr;
  Ok (push (Value.Struct qualified_type_name (zip field_names vs)) fr).

Definition exec_get_field (field : string) (fr : Frame) : outcome VmError.t Frame :=
  '(v, fr) ← pop fr;
  match v with
  | Value.Struct type_name fields =>
      fv ← ok_or (Value.find_field field fields) (VmError.UndefinedField type_name field);
      Ok (push fv fr)
  | other => Err (VmError.TypeError ("expected struct, got " +:+ Value.type_name other))
  end.

(** The loop of [UnpackStruct]: remove each name from the map and push. *)
Fixpoint unpack_fields (type_name : string) (names : list string)
    (field_map : gmap string Value.t) (fr : Frame) : outcome VmError.t Frame :=
  match names with
  | [] => Ok fr
  | name :: names =>
      fv ← ok_or (field_map !! name) (VmError.UndefinedField type_name name);
      unpack_fields type_name names (delete name field_map) (push fv fr)
  end.

(** [UnpackStruct]: the Rust [collect] into a [HashMap] keeps the last of
    several equal names, [list_to_map] the first, hence the [reverse]. *)
Definition exec_unpack_struct (field_names : list string) (fr : Frame)
  : outcome VmError.t Frame :=
  '(v, fr) ← pop fr;
  match v with
  | Value.Struct type_name fields =>
      unpack_fields type_name (reverse field_names) (list_to_map (reverse fields)) fr
  | other =>
      Err (VmError.TypeError ("UnpackStruct: expected struct, got " +:+ Value.type_name other))
  end.

Definition exec_pop (fr : Frame) : outcome VmError.t Frame :=
  '(_, fr) ← pop fr; Ok fr.
Definition exec_dup (fr : Frame) : outcome VmError.t Frame :=
  v ← peek fr; Ok (push v fr).

Definition exec_jump (offset : Z) (fr : Frame) : outcome VmError.t Frame :=
  set_pc fr <$> jump_target (pc fr) offset.

(** [JumpIf] ([on = true]) and [JumpIfNot] ([on = false]). *)
Definition exec_jump_if (on : bool) (offset : Z) (fr : Frame) : outcome VmError.t Frame :=
  '(v, fr) ← pop fr;
  cond ← ok_or (Value.as_bool v) (expected_bool v);
  if Bool.eqb cond on then exec_jump offset fr else Ok fr.

Definition exec_make_tuple (n : nat) (fr : Frame) : outcome VmError.t Frame :=
  '(values, fr) ← pop_args n fr;
  Ok (push (Value.Tuple values) fr).

(** [UnpackTuple]: the first element ends up on top. *)
Definition exec_unpack_tuple (n : nat) (fr : Frame) : outcome VmError.t Frame :=
  '(v, fr) ← pop fr;
  match v with
  | Value.Tuple values =>
      if bool_decide (length values = n)
      then Ok (set_stack fr (values ++ stack fr))
      else Err (VmError.TypeError ("UnpackTuple: expected tuple of size " +:+ pretty n +:+
                  ", got size " +:+ pretty (length values)))
  | other =>
      Err (VmError.TypeError ("UnpackTuple: expected tuple, got " +:+ Value.type_name other))
  end.

(** ** The machine monad: errors over the gas meter and the native state *)
Definition VmM (S A : Type) : Type := GasMeter * S → outcome VmError.t A * (GasMeter * S).
Global Instance VmM_ret S : MRet (VmM S) := λ A a σ, (Ok a, σ).
Global Instance VmM_bind S : MBind (VmM S) := λ A B f m σ,
  match m σ with
  | (Ok a, σ') => f a σ'
  | (Err e, σ') => (Err e, σ')
  | (Panic s, σ') => (Panic s, σ')
  | (NoFuel, σ') => (NoFuel, σ')
  end.
Definition lift {S A} (m : outcome VmError.t A) : VmM S A := λ σ, (m, σ).
Definition vm_charge {S} (cost : Z) : VmM S () := λ σ,
  let '(r, g) := charge (fst σ) cost in (r, (g, snd σ)).
Definition run_native {S} (entry : NativeFnEntry S) (args : list Value.t) : VmM S NativeResult :=
  λ σ, let '(r, s) := nat_func entry args (snd σ) in (Ok r, (fst σ, s)).

Section machine.
Context {S : Type} `{PrefixHex} (vm : Vm S).

(** Every instruction but [Call] and [Return]. *)
Definition exec_instr (context_module : VmModule) (context_module_addr : Address)
    (instr : Instruction.t) (fr : Frame) : outcome VmError.t Frame :=
  match instr with
  | Instruction.PushBool v => Ok (push (Value.Bool v) fr)
  | Instruction.PushU64 v => Ok (push (Value.U64 v) fr)
  | Instruction.PushAddress a => Ok (push (Value.Address a) fr)
  | Instruction.PushStr s => Ok (push (Value.Str s) fr)
  | Instruction.Load slot => exec_load slot fr
  | Instruction.Store slot => exec_store slot fr
  | Instruction.LoadField slot path => exec_load_field slot path fr
  | Instruction.StoreField slot path => exec_store_field slot path fr
  | Instruction.Add => exec_arith checked_add fr
  | Instruction.Sub => exec_arith checked_sub fr
  | Instruction.Mul => exec_arith checked_mul fr
  | Instruction.Div => exec_div checked_div fr
  | Instruction.Mod => exec_div checked_rem fr
  | Instruction.Eq => exec_eq false fr
  | Instruction.Ne => exec_eq true fr
  | Instruction.Lt => exec_cmp false false fr
  | Instruction.Le => exec_cmp true true fr
  | Instruction.Gt => exec_cmp true false fr
  | Instruction.Ge => exec_cmp false true fr
  | Instruction.Not => exec_not fr
  | Instruction.And => exec_logic andb fr
  | Instruction.Or => exec_logic orb fr
  | Instruction.NewStruct type_name field_names =>
      exec_new_struct (vm_deps vm) context_module context_module_addr type_name field_names fr
  | Instruction.GetField field => exec_get_field field fr
  | Instruction.UnpackStruct _ field_names => exec_unpack_struct field_names fr
  | Instruction.Pop => exec_pop fr
  | Instruction.Dup => exec_dup fr
  | Instruction.Jump offset => exec_jump offset fr
  | Instruction.JumpIf offset => exec_jump_if true offset fr
  | Instruction.JumpIfNot offset => exec_jump_if false offset fr
  | Instruction.MakeTuple n => exec_make_tuple n fr
  | Instruction.UnpackTuple n => exec_unpack_tuple n fr
  | Instruction.Call _ | Instruction.Return => Ok fr
  end.

(** What runs a frame of a given module at a given call depth. *)
Definition runner := VmModule → Address → nat → Frame → VmM S (option Value.t).

(** [call_inner] up to its loop: depth, function lookup, arity, new frame. *)
Definition enter (rec : runner) (fn_name : string) (context_module : VmModule)
    (context_module_addr : Address) (args : list Value.t) (depth : nat)
  : VmM S (option Value.t) :=
  if bool_decide (max_call_depth (vm_config vm) ≤ depth)
  then lift (Err (VmError.CallStackOverflow (max_call_depth (vm_config vm))))
  else
    func ← lift (ok_or (get_function context_module fn_name)
                   (VmError.UndefinedFunction fn_name));
    if bool_decide (fn_local_count func < length args)
    then lift (Err (VmError.ArityMismatch fn_name (length args) (fn_local_count func)))
    else rec context_module context_module_addr depth
           (frame_new (fn_code func) args (fn_local_count func)).

(** The [Call] instruction: cross-module, same-module, then native. *)
Definition exec_call (rec : runner) (context_module : VmModule)
    (context_module_addr : Address) (depth : nat) (name : string) (fr : Frame)
  : VmM S Frame :=
  match parse_module_ref name with
  | Some (dep_addr, fn_name_in_dep) =>
      dep ← lift (ok_or (vm_deps vm !! dep_addr) (VmError.UndefinedFunction name));
      dep_func ← lift (ok_or (get_function dep fn_name_in_dep)
                         (VmError.UndefinedFunction name));
      lift (guard_err (negb (fn_is_public dep_func)) (VmError.PrivateFunction name)) ;;
      '(args, fr) ← lift (pop_args (length (fn_params dep_func)) fr);
      ret ← enter rec fn_name_in_dep dep dep_addr args (depth + 1);
      mret (push (default Value.Void ret) fr)
  | None =>
      match get_function context_module name with
      | Some callee =>
          '(args, fr) ← lift (pop_args (length (fn_params callee)) fr);
          ret ← enter rec name context_module context_module_addr args (depth + 1);
          mret (push (default Value.Void ret) fr)
      | None =>
          match vm_natives vm !! name with
          | Some native =>
              vm_charge (nat_gas_cost native) ;;
              '(args, fr) ← lift (pop_args (length (nat_params native)) fr);
              res ← run_native native args;
              match res with
              | NativeReturn v =>
                  lift (rust_assert (match v with
                                     | Some val => check_struct_qualified val
                                     | None => true
                                     end)
                          ("native function '" +:+ name +:+
                           "' returned a struct with unqualified type name")) ;;
                  mret (push (default Value.Void v) fr)
              | NativeAbort code message => lift (Err (VmError.Aborted code message))
              | NativeErr msg => lift (Err (VmError.NativeError msg))
              end
          | None => lift (Err (VmError.UndefinedFunction name))
          end
      end
  end.

(** The loop of [call_inner]. *)
Fixpoint run (fuel : nat) (context_module : VmModule) (context_module_addr : Address)
    (depth : nat) (fr : Frame) {struct fuel} : VmM S (option Value.t) :=
  match fuel with
  | O => lift NoFuel
  | Datatypes.S fuel =>
      match code fr !! pc fr with
      | None => mret (head (stack fr))
      | Some instr =>
          vm_charge (cost_of (vm_gas_schedule vm) instr) ;;
          let fr := set_pc fr (pc fr + 1) in
          match instr with
          | Instruction.Return => mret (head (stack fr))
          | Instruction.Call name =>
              fr' ← exec_call (run fuel) context_module context_module_addr depth name fr;
              run fuel context_module context_module_addr depth fr'
          | _ =>
              fr' ← lift (exec_instr context_module context_module_addr instr fr);
              run fuel context_module context_module_addr depth fr'
          end
      end
  end.

(** [call_inner]. *)
Definition call_inner (fuel : nat) (fn_name : string) (context_module : VmModule)
    (context_module_addr : Address) (args : list Value.t) (depth : nat)
  : VmM S (option Value.t) :=
  enter (run fuel) fn_name context_module context_module_addr args depth.

(** [Vm::call]; a [VmCallResult] is its [return_value]. *)
Definition call (fuel : nat) (fn_name : string) (args : list Value.t)
  : VmM S (option Value.t) :=
  lift (guard_err (bool_decide (vm_max_dep_modules (vm_config vm) < size (vm_deps vm)))
          (VmError.TooManyDepModules (vm_max_dep_modules (vm_config vm)))) ;;
  lift (guard_err (bool_decide (is_Some (vm_natives vm !! fn_name)))
          (VmError.NativeFunctionCallDirect fn_name)) ;;
  func ← lift (ok_or (get_function (vm_module vm) fn_name)
                 (VmError.UndefinedFunction fn_name));
  lift (guard_err (negb (fn_is_public func) &&
                   negb (enable_call_private_functions (vm_config vm)))
          (VmError.PrivateFunction fn_name)) ;;
  lift (rust_assert (forallb check_struct_qualified args)
          "struct argument has unqualified type name; all struct values passed to the VM must use @0xHEX::Name format") ;;
  call_inner fuel fn_name (vm_module vm) (vm_module_addr vm) args 0.
End machine.
