(* ===== verification/VmProps.v ===== *)
(** * Gas, fuel and termination of the VM

    Lemmas over [Vm.v]: the gas meter only grows and never passes its limit;
    more fuel never changes a finished run; and two termination arguments
    that share one measure lemma ([run_enough_fuel]): by gas, for any code,
    and by call depth, for code without backward jumps. *)

From S2P Require Import Prelude Address VmTypes Gas Vm.

(** ** Frame facts *)

(** The program counters an instruction can continue at. *)
Definition next_pc (i : Instruction.t) (pc pc' : nat) : Prop :=
  match i with
  | Instruction.Jump o | Instruction.JumpIf o | Instruction.JumpIfNot o =>
      pc' = pc + 1 ∨ (0 ≤ Z.of_nat pc + o)%Z ∧ pc' = Z.to_nat (Z.of_nat pc + o)
  | _ => pc' = pc + 1
  end.

Lemma pop_Ok fr v fr' :
  pop fr = Ok (v, fr') → stack fr = v :: stack fr' ∧ locals fr' = locals fr ∧
    code fr' = code fr ∧ pc fr' = pc fr.
Proof. unfold pop. destruct (stack fr) eqn:E; intros; by simplify_eq/=. Qed.

Lemma pop2_Ok fr l r fr' :
  pop2 fr = Ok (l, r, fr') → stack fr = r :: l :: stack fr' ∧ locals fr' = locals fr ∧
    code fr' = code fr ∧ pc fr' = pc fr.
Proof.
  unfold pop2. intros ([r' fr1] & H1 & ([l' fr2] & H2 & ?)%bind_Ok)%bind_Ok.
  simplify_eq. apply pop_Ok in H1 as (?&?&?&?). apply pop_Ok in H2 as (?&?&?&?).
  split_and!; congruence.
Qed.

Lemma pop_args_Ok n fr vs fr' :
  pop_args n fr = Ok (vs, fr') →
  stack fr = reverse vs ++ stack fr' ∧ length vs = n ∧ locals fr' = locals fr ∧
    code fr' = code fr ∧ pc fr' = pc fr.
Proof.
  unfold pop_args. destruct (pop_n n (stack fr)) as [[ws st]|] eqn:Hp; [|done].
  intros ?; simplify_eq/=. apply pop_n_Some in Hp as [-> <-].
  by rewrite reverse_involutive, length_reverse.
Qed.

Lemma unpack_fields_frame tn names fm fr fr' :
  unpack_fields tn names fm fr = Ok fr' →
  locals fr' = locals fr ∧ code fr' = code fr ∧ pc fr' = pc fr.
Proof.
  revert fm fr. induction names as [|n names IH]; intros fm fr H; simpl in H; [by simplify_eq|].
  apply bind_Ok in H as (v & _ & H). by apply IH in H.
Qed.

(** Split a successful frame computation into its steps and collect what each
    pop says. *)
Ltac frame_inv :=
  repeat match goal with
  | H : _ ≫= _ = Ok _ |- _ => apply bind_Ok in H as (? & ? & H)
  | H : _ <$> _ = Ok _ |- _ => apply fmap_Ok in H as (? & ? & ->)
  | H : ok_or _ _ = Ok _ |- _ => apply ok_or_Ok in H
  | H : (let '(_, _) := ?x in _) = Ok _ |- _ => destruct x
  | H : pop _ = Ok _ |- _ => apply pop_Ok in H as (?&?&?&?)
  | H : pop2 _ = Ok _ |- _ => apply pop2_Ok in H as (?&?&?&?)
  | H : pop_args _ _ = Ok _ |- _ => apply pop_args_Ok in H as (?&?&?&?&?)
  | H : unpack_fields _ _ _ _ = Ok _ |- _ => apply unpack_fields_frame in H as (?&?&?)
  | H : (if ?b then _ else _) = Ok _ |- _ => destruct b eqn:?
  | H : match ?x with _ => _ end = Ok _ |- _ => destruct x eqn:?
  | _ => progress simplify_eq/=
  end.

Lemma jump_target_Ok pc o n :
  jump_target (pc + 1) o = Ok n → (0 ≤ Z.of_nat pc + o)%Z ∧ n = Z.to_nat (Z.of_nat pc + o).
Proof.
  unfold jump_target. destruct (Z.ltb_spec (Z.of_nat (pc + 1) - 1 + o) 0); [done|].
  intros ?; simplify_eq. split; [lia|f_equal; lia].
Qed.

Section facts.
Context {S : Type} `{PrefixHex} (vm : Vm S).

Lemma exec_instr_frame ctx addr i fr fr' :
  exec_instr vm ctx addr i (set_pc fr (pc fr + 1)) = Ok fr' →
  code fr' = code fr ∧ next_pc i (pc fr) (pc fr').
Proof.
  intros Hx. destruct i; simpl in Hx; try (by simplify_eq/=).
  all: try (unfold exec_load, exec_store, exec_load_field, exec_store_field, exec_arith,
    exec_div, exec_eq, exec_cmp, exec_not, exec_logic, exec_new_struct, exec_get_field,
    exec_unpack_struct, exec_pop, exec_dup, exec_make_tuple, exec_unpack_tuple in Hx;
    frame_inv; split; congruence).
  all: unfold exec_jump_if, exec_jump in Hx; frame_inv.
  all: repeat match goal with
    | H : jump_target _ _ = Ok _ |- _ =>
        apply jump_target_Ok in H as [??]; subst
    | H : pc _ = _ |- _ => rewrite H in *
    end; split; first [congruence|auto].
Qed.

Lemma vm_bind_inv {A B} (m : VmM S A) (f : A → VmM S B) σ r σ' :
  (m ≫= f) σ = (r, σ') →
  (∃ a σ1, m σ = (Ok a, σ1) ∧ f a σ1 = (r, σ')) ∨
  (∃ r0, m σ = (r0, σ') ∧ is_ok r0 = false ∧ is_ok r = false ∧ (r0 = NoFuel ↔ r = NoFuel)).
Proof.
  unfold mbind, VmM_bind. destruct (m σ) as [[] ?] eqn:E; intros; simplify_eq; eauto.
  all: right; eexists; split_and!; naive_solver.
Qed.

(** ** Gas only grows *)
Definition gas_mono {A} (m : VmM S A) : Prop :=
  ∀ σ r σ', m σ = (r, σ') → wf_gas (fst σ) → gas_le (fst σ) (fst σ').

Lemma gas_mono_lift {A} (m : outcome VmError.t A) : gas_mono (lift m).
Proof. intros σ r σ' ? _. unfold lift in *. by simplify_eq. Qed.

Lemma gas_mono_bind {A B} (m : VmM S A) (f : A → VmM S B) :
  gas_mono m → (∀ a, gas_mono (f a)) → gas_mono (m ≫= f).
Proof.
  intros Hm Hf σ r σ' [(a & σ1 & H1 & H2)|(r0 & H1 & _)]%vm_bind_inv Hwf; [|by eauto].
  pose proof (Hm _ _ _ H1 Hwf) as Hle. etrans; [done|].
  eapply Hf; [done|]. by apply Hle.
Qed.

Lemma gas_mono_charge c : (0 ≤ c)%Z → gas_mono (vm_charge c).
Proof.
  intros Hc σ r σ'. unfold vm_charge. destruct (charge (fst σ) c) eqn:E.
  intros ? ?; simplify_eq/=. by eapply charge_le.
Qed.

Lemma gas_mono_native n args : gas_mono (run_native n args).
Proof.
  intros σ r σ'. unfold run_native. destruct (nat_func n args (snd σ)).
  intros; by simplify_eq/=.
Qed.

Lemma gas_mono_ret {A} (a : A) : gas_mono (mret a).
Proof. intros σ r σ' ? _. unfold mret, VmM_ret in *. by simplify_eq. Qed.
End facts.

#[export] Hint Resolve gas_mono_lift gas_mono_bind gas_mono_native gas_mono_ret : meow.

(** Costs are unsigned in the Rust types. *)
Definition wf_vm {S} (vm : Vm S) : Prop :=
  wf_schedule (vm_gas_schedule vm) ∧
  map_Forall (λ _ n, 0 ≤ nat_gas_cost n)%Z (vm_natives vm).

Section gas.
Context {S : Type} `{PrefixHex} (vm : Vm S) (Hvm : wf_vm vm).

Lemma enter_gas_mono rec fn ctx addr args d :
  (∀ m a d fr, gas_mono (rec m a d fr)) → gas_mono (enter vm rec fn ctx addr args d).
Proof.
  intros Hrec. unfold enter. case_match; auto with meow.
  apply gas_mono_bind; [auto with meow|]. intros f. case_match; auto with meow.
Qed.

Lemma exec_call_gas_mono rec ctx addr d name fr :
  (∀ m a d fr, gas_mono (rec m a d fr)) → gas_mono (exec_call vm rec ctx addr d name fr).
Proof.
  intros Hrec. unfold exec_call.
  repeat first
    [ apply gas_mono_lift | apply gas_mono_ret | apply gas_mono_native
    | apply enter_gas_mono; done
    | apply gas_mono_charge; by eapply (proj2 Hvm)
    | apply gas_mono_bind; [|intros ?]
    | case_match ].
Qed.

Lemma run_gas_mono fuel ctx addr d fr : gas_mono (run vm fuel ctx addr d fr).
Proof.
  revert ctx addr d fr. induction fuel as [|fuel IH]; intros ctx addr d fr; simpl;
    [apply gas_mono_lift|].
  destruct (code fr !! pc fr) as [i|]; [|apply gas_mono_ret].
  apply gas_mono_bind; [apply gas_mono_charge, (proj1 Hvm)|intros _].
  destruct i; try apply gas_mono_ret; (apply gas_mono_bind; [|auto]);
    try apply gas_mono_lift. by apply exec_call_gas_mono.
Qed.
End gas.

(** ** Gas *)
Lemma call_gas_mono {S} `{PrefixHex} (vm : Vm S) fuel fn args :
  wf_vm vm → gas_mono (call vm fuel fn args).
Proof.
  intros Hvm. unfold call, call_inner.
  repeat (apply gas_mono_bind; [apply gas_mono_lift|intros ?]).
  apply enter_gas_mono. intros; by apply run_gas_mono.
Qed.

(** ** Invariants of the state the natives share *)
Section native_state.
Context {S : Type} `{PrefixHex} (vm : Vm S) (I : S → Prop).

Definition keeps {A} (m : VmM S A) : Prop := ∀ σ, I (snd σ) → I (snd (snd (m σ))).

Lemma keeps_lift {A} (m : outcome VmError.t A) : keeps (lift m).
Proof. by intros σ. Qed.
Lemma keeps_ret {A} (a : A) : keeps (mret a).
Proof. by intros σ. Qed.
Lemma keeps_charge c : keeps (vm_charge c).
Proof. intros [g s] Hs. unfold vm_charge. simpl. by destruct (charge g c). Qed.
Lemma keeps_bind {A B} (m : VmM S A) (f : A → VmM S B) :
  keeps m → (∀ a, keeps (f a)) → keeps (m ≫= f).
Proof.
  intros Hm Hf σ Hs. specialize (Hm σ Hs). unfold mbind, VmM_bind.
  destruct (m σ) as [[a|e|s|] σ']; try done. by apply Hf.
Qed.

Context (HI : map_Forall (λ _ n, ∀ args s, I s → I (snd (nat_func n args s))) (vm_natives vm)).

Lemma keeps_native name n args : vm_natives vm !! name = Some n → keeps (run_native n args).
Proof using HI.
  intros Hn [g s] Hs. unfold run_native. simpl. specialize (HI _ _ Hn args s Hs).
  by destruct (nat_func n args s).
Qed.

Lemma enter_keeps rec fn ctx addr args d :
  (∀ m a d fr, keeps (rec m a d fr)) → keeps (enter vm rec fn ctx addr args d).
Proof.
  intros Hrec. unfold enter. case_match; [apply keeps_lift|].
  apply keeps_bind; [apply keeps_lift|]. intros f. case_match; [apply keeps_lift|apply Hrec].
Qed.

Lemma exec_call_keeps rec ctx addr d name fr :
  (∀ m a d fr, keeps (rec m a d fr)) → keeps (exec_call vm rec ctx addr d name fr).
Proof using HI.
  intros Hrec. unfold exec_call.
  repeat first
    [ apply keeps_lift | apply keeps_ret | apply keeps_charge
    | by eapply keeps_native
    | apply enter_keeps; done
    | apply keeps_bind; [|intros ?]
    | case_match ].
Qed.

Lemma run_keeps fuel ctx addr d fr : keeps (run vm fuel ctx addr d fr).
Proof using HI.
  revert ctx addr d fr. induction fuel as [|fuel IH]; intros ctx addr d fr; simpl;
    [apply keeps_lift|].
  destruct (code fr !! pc fr) as [i|]; [|apply keeps_ret].
  apply keeps_bind; [apply keeps_charge|intros _].
  destruct i; try apply keeps_ret; (apply keeps_bind; [|auto]); try apply keeps_lift.
  by apply exec_call_keeps.
Qed.

Lemma call_keeps fuel fn args : keeps (call vm fuel fn args).
Proof using HI.
  unfold call, call_inner.
  repeat (apply keeps_bind; [apply keeps_lift|intros ?]).
  apply enter_keeps. intros. apply run_keeps.
Qed.
End native_state.

(** ** More fuel never changes a finished run *)
Section fuel.
Context {S : Type} `{PrefixHex} (vm : Vm S).

Definition fuel_le {A} (m m' : VmM S A) : Prop :=
  ∀ σ, fst (m σ) = NoFuel ∨ m σ = m' σ.

Lemma fuel_le_refl {A} (m : VmM S A) : fuel_le m m.
Proof. intros σ. by right. Qed.

Lemma fuel_le_bind {A B} (m m' : VmM S A) (f f' : A → VmM S B) :
  fuel_le m m' → (∀ a, fuel_le (f a) (f' a)) → fuel_le (m ≫= f) (m' ≫= f').
Proof.
  intros Hm Hf σ. unfold mbind, VmM_bind.
  destruct (Hm σ) as [E|E].
  - destruct (m σ) as [[] ?]; simpl in E; simplify_eq. by left.
  - rewrite <-E. destruct (m σ) as [[] ?]; [apply Hf|by right..].
Qed.

Lemma enter_fuel_le rec rec' fn ctx addr args d :
  (∀ m a d fr, fuel_le (rec m a d fr) (rec' m a d fr)) →
  fuel_le (enter vm rec fn ctx addr args d) (enter vm rec' fn ctx addr args d).
Proof.
  intros Hrec. unfold enter. case_match; [apply fuel_le_refl|].
  apply fuel_le_bind; [apply fuel_le_refl|]. intros f. case_match; auto using fuel_le_refl.
Qed.

Lemma exec_call_fuel_le rec rec' ctx addr d name fr :
  (∀ m a d fr, fuel_le (rec m a d fr) (rec' m a d fr)) →
  fuel_le (exec_call vm rec ctx addr d name fr) (exec_call vm rec' ctx addr d name fr).
Proof.
  intros Hrec. unfold exec_call.
  repeat first
    [ apply fuel_le_refl
    | apply enter_fuel_le; done
    | apply fuel_le_bind; [|intros ?]
    | case_match ].
Qed.

Lemma run_fuel_le n m ctx addr d fr :
  n ≤ m → fuel_le (run vm n ctx addr d fr) (run vm m ctx addr d fr).
Proof.
  revert m ctx addr d fr. induction n as [|n IH]; intros m ctx addr d fr Hnm;
    [by left|]. destruct m as [|m]; [lia|]. simpl.
  destruct (code fr !! pc fr) as [i|]; [|apply fuel_le_refl].
  apply fuel_le_bind; [apply fuel_le_refl|intros _].
  destruct i; try apply fuel_le_refl; (apply fuel_le_bind; [|intros ?; apply IH; lia]);
    try apply fuel_le_refl.
  apply exec_call_fuel_le. intros; apply IH; lia.
Qed.
End fuel.

Lemma charge_fuel g c g' : charge g c ≠ (NoFuel, g').
Proof. unfold charge. by case_match. Qed.

(** ** Single instructions never report missing fuel *)
Lemma read_field_path_fuel i v p : read_field_path i v p ≠ NoFuel.
Proof.
  revert i v. induction p as [|f p IH]; intros i v; simpl; [done|].
  destruct v; try done. intros [H|(w & _ & H)]%bind_NoFuel; [|by eapply IH].
  by destruct (Value.find_field f fields).
Qed.

Lemma write_field_path_fuel i v p w : write_field_path i v p w ≠ NoFuel.
Proof.
  revert i v. induction p as [|f p IH]; intros i v; simpl; [done|].
  destruct p as [|f' p], v; try done;
    intros [H|(x & _ & H)]%bind_NoFuel; try (by destruct (Value.find_field f fields)).
  - by destruct (Value.is_linear x).
  - apply bind_NoFuel in H as [H|(y & _ & H)]; [by eapply IH|done].
Qed.

Lemma unpack_fields_fuel tn names fm fr : unpack_fields tn names fm fr ≠ NoFuel.
Proof.
  revert fm fr. induction names as [|n names IH]; intros fm fr; simpl; [done|].
  intros [H|(x & _ & H)]%bind_NoFuel; [by destruct (fm !! n)|by eapply IH].
Qed.

Lemma exec_instr_fuel {S} `{PrefixHex} (vm : Vm S) ctx addr i fr :
  exec_instr vm ctx addr i fr ≠ NoFuel.
Proof.
  pose proof read_field_path_fuel. pose proof write_field_path_fuel.
  pose proof unpack_fields_fuel.
  destruct i; simpl; try done;
    unfold exec_load, exec_store, exec_load_field, exec_store_field, exec_arith,
      exec_div, exec_eq, exec_cmp, exec_not, exec_logic, exec_new_struct, exec_get_field,
      exec_unpack_struct, exec_pop, exec_dup, exec_make_tuple, exec_unpack_tuple,
      exec_jump_if, exec_jump, jump_target, arith_op, cmp_values, linear_type_name,
      pop2, pop_args, pop, peek, ok_or, mbind, outcome_bind, fmap, outcome_fmap;
    repeat case_match; simplify_eq; naive_solver.
Qed.

(** ** A measure that bounds the fuel

    [μ depth pc gas] bounds the fuel a frame needs.  It has to drop at every
    step, on entry to a callee and on return from it. *)
Definition module_ok (OkCode : list Instruction.t → Prop) (m : VmModule) : Prop :=
  Forall (λ f, OkCode (fn_code f)) (mod_functions m).

Lemma get_function_ok OkCode m name f :
  module_ok OkCode m → get_function m name = Some f → OkCode (fn_code f).
Proof.
  intros Hm [Hin _]%find_first_Some. unfold module_ok in Hm.
  rewrite list.Forall_forall in Hm. by apply Hm.
Qed.

Section termination.
Context {S : Type} `{PrefixHex} (vm : Vm S) (Hvm : wf_vm vm).
Context (OkCode : list Instruction.t → Prop) (OkGas : GasMeter → Prop).
Context (μ : nat → nat → GasMeter → nat).
Context (ok_gas_wf : ∀ g, OkGas g → wf_gas g).
Context (ok_gas_le : ∀ g g', gas_le g g' → OkGas g → OkGas g').
Context (Hdeps : map_Forall (λ _, module_ok OkCode) (vm_deps vm)).

Definition charged (g : GasMeter) (i : Instruction.t) (g' : GasMeter) : Prop :=
  charge g (cost_of (vm_gas_schedule vm) i) = (Ok (), g').

Context (μ_step : ∀ c n i n' d g g1,
  OkCode c → OkGas g → c !! n = Some i → charged g i g1 → next_pc i n n' →
  μ d n' g1 < μ d n g).
Context (μ_call : ∀ c n f d g g1 g2,
  OkCode c → OkGas g → c !! n = Some (Instruction.Call f) →
  charged g (Instruction.Call f) g1 → gas_le g1 g2 →
  d + 1 < max_call_depth (vm_config vm) → μ (d + 1) 0 g2 < μ d n g).
Context (μ_ret : ∀ c n f d g g1 g2,
  OkCode c → OkGas g → c !! n = Some (Instruction.Call f) →
  charged g (Instruction.Call f) g1 → gas_le g1 g2 → μ d (n + 1) g2 < μ d n g).

Context (μ_mono : ∀ d n g g', OkGas g → gas_le g g' → μ d n g' ≤ μ d n g).

(** A computation that does not run out of fuel from a given meter on. *)
Definition finishes {A} (g : GasMeter) (m : VmM S A) : Prop :=
  ∀ g' s, gas_le g g' → fst (m (g', s)) ≠ NoFuel.

Lemma finishes_bind {A B} g (m : VmM S A) (f : A → VmM S B) :
  wf_gas g → gas_mono m → finishes g m →
  (∀ a s s' g' g'', gas_le g g' → m (g', s) = (Ok a, (g'', s')) → finishes g'' (f a)) →
  finishes g (m ≫= f).
Proof.
  intros Hwf Hmono Hm Hf g' s Hle Hn. destruct ((m ≫= f) (g', s)) as [r [g2 s2]] eqn:E.
  simpl in Hn. subst r.
  apply vm_bind_inv in E as [(a & [g1 s1] & H1 & H2)|(r0 & H1 & _ & _ & Hr)].
  - assert (Hle1 : gas_le g1 g1) by reflexivity.
    apply (Hf _ _ _ _ _ Hle H1 _ s1 Hle1). by rewrite H2.
  - apply (Hm _ s Hle). rewrite H1. by apply Hr.
Qed.

Lemma finishes_lift {A} g (m : outcome VmError.t A) : m ≠ NoFuel → finishes g (lift m).
Proof. by intros Hm g' s _. Qed.

(** What the induction on fuel provides for callees at depth [d + 1]. *)
Definition rec_ok (rec : runner) (g : GasMeter) (d : nat) : Prop :=
  d < max_call_depth (vm_config vm) →
  ∀ m a c args lc, module_ok OkCode m → OkCode c →
    finishes g (rec m a d (frame_new c args lc)).

Lemma finishes_mono {A} g g' (m : VmM S A) : gas_le g g' → finishes g m → finishes g' m.
Proof. intros Hle Hm g2 s Hle2. apply Hm. by etrans. Qed.

Lemma enter_finishes rec fn m a args d g :
  wf_gas g → module_ok OkCode m → rec_ok rec g d → finishes g (enter vm rec fn m a args d).
Proof.
  intros Hwf Hm Hrec. unfold enter. case_bool_decide; [by apply finishes_lift|].
  destruct (get_function m fn) as [f|] eqn:Hf; simpl; [|by apply finishes_lift].
  intros g' s Hle. unfold mbind, VmM_bind, lift; simpl.
  case_bool_decide; [done|]. apply Hrec; [lia|done| |done]. by eapply get_function_ok.
Qed.

Lemma finishes_bind_mono {A B} g (m : VmM S A) (f : A → VmM S B) :
  wf_gas g → gas_mono m → finishes g m → (∀ a, finishes g (f a)) → finishes g (m ≫= f).
Proof.
  intros Hwf Hmono Hm Hf. apply finishes_bind; [done..|].
  intros a s s' g' g'' Hle H1. eapply finishes_mono, Hf. etrans; [done|].
  by apply (Hmono _ _ _ H1), Hle.
Qed.

Lemma finishes_bind_lift {A B} g (m : outcome VmError.t A) (f : A → VmM S B) :
  m ≠ NoFuel → (∀ a, m = Ok a → finishes g (f a)) → finishes g (lift m ≫= f).
Proof.
  intros Hm Hf g' s Hle. unfold mbind, VmM_bind, lift.
  destruct m; try done. by apply Hf.
Qed.

Lemma exec_call_finishes rec ctx addr d name fr g :
  wf_gas g → module_ok OkCode ctx → (∀ m a d fr, gas_mono (rec m a d fr)) →
  rec_ok rec g (d + 1) → finishes g (exec_call vm rec ctx addr d name fr).
Proof.
  intros Hwf Hctx Hmono Hrec. unfold exec_call.
  assert (Hnf : ∀ n fr, pop_args n fr ≠ NoFuel) by (intros; unfold pop_args; by repeat case_match).
  assert (Hret : ∀ (fr : Frame), finishes g (mret fr : VmM S Frame)) by by intros ? ? ?.
  assert (Hdep : ∀ a m (e : VmError.t), ok_or (vm_deps vm !! a) e = Ok m → module_ok OkCode m)
    by (intros a m e Hm; rewrite ok_or_Ok in Hm; by apply Hdeps in Hm).
  repeat first
    [ by apply finishes_lift
    | apply Hret
    | eapply enter_finishes; [done|by eauto|done]
    | apply finishes_bind_lift;
        [first [apply Hnf | by unfold ok_or, guard_err, rust_assert; repeat case_match]|intros ??]
    | apply finishes_bind_mono;
        [done|first [ apply gas_mono_native | by apply enter_gas_mono
                    | apply gas_mono_charge; by eapply (proj2 Hvm) ]| |intros ?]
    | case_match ].
  all: intros g' s' Hle; unfold vm_charge, run_native; simpl; case_match; try done.
  simpl. intros ->. by eapply charge_fuel.
Qed.

Lemma exec_call_frame rec ctx addr d name fr σ fr' σ' :
  exec_call vm rec ctx addr d name fr σ = (Ok fr', σ') →
  code fr' = code fr ∧ pc fr' = pc fr.
Proof.
  unfold exec_call. intros Hc.
  repeat match goal with
  | H : (_ ≫= _) _ = (Ok _, _) |- _ =>
      apply vm_bind_inv in H as [(? & ? & ? & H)|(? & _ & _ & ? & _)]; [|done]
  | H : lift _ _ = (Ok _, _) |- _ => unfold lift in H; simplify_eq
  | H : pop_args _ _ = Ok _ |- _ => apply pop_args_Ok in H as (_ & _ & _ & ? & ?)
  | H : mret _ _ = (Ok _, _) |- _ => unfold mret, VmM_ret in H; simplify_eq/=
  | _ => case_match; simplify_eq/=
  end; by split.
Qed.

Lemma run_enough_fuel fuel ctx addr d fr g s :
  module_ok OkCode ctx → OkCode (code fr) → OkGas g → d < max_call_depth (vm_config vm) →
  μ d (pc fr) g < fuel → fst (run vm fuel ctx addr d fr (g, s)) ≠ NoFuel.
Proof.
  revert ctx addr d fr g s. induction fuel as [|fuel IH]; [lia|].
  intros ctx addr d fr g s Hctx Hcode Hg Hd Hμ. simpl.
  destruct (code fr !! pc fr) as [i|] eqn:Hi; [|done].
  unfold mbind at 1, VmM_bind at 1, vm_charge; simpl.
  destruct (charge g _) as [[]g1] eqn:Hc; try done; [|by apply charge_fuel in Hc].
  destruct a. pose proof (charge_le _ _ _ _ (proj1 (proj1 Hvm) i) (ok_gas_wf _ Hg) Hc) as Hle.
  assert (Hg1 : OkGas g1) by eauto.
  assert (Hsimple : ∀ fr', exec_instr vm ctx addr i (set_pc fr (pc fr + 1)) = Ok fr' →
    fst (run vm fuel ctx addr d fr' (g1, s)) ≠ NoFuel).
  { intros fr' [Hcd Hpc]%exec_instr_frame.
    apply IH; [done|by rewrite Hcd|done|done|]. eapply Nat.lt_le_trans; [|apply Nat.lt_succ_r, Hμ].
    by eapply μ_step. }
  pose proof (exec_instr_fuel vm ctx addr i (set_pc fr (pc fr + 1))) as Hfuel.
  destruct i; try done;
    try (by unfold mbind, VmM_bind, lift; destruct (exec_instr _ _ _ _ _); eauto).
  clear Hsimple Hfuel. apply (finishes_bind g1); [by eauto| | | |done].
  - apply exec_call_gas_mono; [done|]. intros; by apply run_gas_mono.
  - apply exec_call_finishes; [by eauto|done|intros; by apply run_gas_mono|].
    intros Hd' m a c args lc Hm Hcd g' s' Hle'. apply IH; [done..|by eauto|done|].
    simpl. pose proof (μ_call _ _ _ _ _ _ _ Hcode Hg Hi Hc Hle' Hd'). lia.
  - intros fr' s1 s2 g2 g3 Hle2 H1 g4 s4 Hle4.
    assert (Hle3 : gas_le g2 g3).
    { assert (Hm : gas_mono (exec_call vm (run vm fuel) ctx addr d name
          (set_pc fr (pc fr + 1)))).
      { apply exec_call_gas_mono; [done|]. intros; by apply run_gas_mono. }
      apply (Hm _ _ _ H1), Hle2. by eauto. }
    apply exec_call_frame in H1 as [Hcd Hpc]. simpl in Hcd, Hpc.
    apply IH; [done|by rewrite Hcd|by eauto 10|done|]. rewrite Hpc.
    assert (Hle5 : gas_le g1 g4) by (by etrans; [|etrans]).
    pose proof (μ_ret _ _ _ d _ _ _ Hcode Hg Hi Hc Hle5). lia.
Qed.

Lemma call_enough_fuel fuel fn args g s :
  module_ok OkCode (vm_module vm) → OkGas g → μ 0 0 g < fuel →
  fst (call vm fuel fn args (g, s)) ≠ NoFuel.
Proof.
  intros Hm Hg Hμ. enough (finishes g (call vm fuel fn args)) as Hfin by by apply Hfin.
  unfold call.
  assert (Hf : finishes g (call_inner vm fuel fn (vm_module vm) (vm_module_addr vm) args 0)).
  { apply enter_finishes; [by eauto|done|].
    intros Hd m a c args' lc Hm' Hc g' s' Hle. apply run_enough_fuel; [done|done|by eauto|done|].
    simpl. pose proof (μ_mono 0 0 _ _ Hg Hle). lia. }
  repeat match goal with
  | |- finishes _ (lift _ ≫= _) =>
      apply finishes_bind_lift; [unfold guard_err, ok_or, rust_assert; by repeat case_match|]; intros ??
  end.
  done.
Qed.
End termination.

(** The same result for every larger fuel. *)
Lemma call_fuel_le {S} `{PrefixHex} (vm : Vm S) n m fn args :
  n ≤ m → fuel_le (call vm n fn args) (call vm m fn args).
Proof.
  intros Hnm. unfold call, call_inner.
  repeat (apply fuel_le_bind; [apply fuel_le_refl|intros ?]).
  apply enter_fuel_le. intros; by apply run_fuel_le.
Qed.

(** ** Termination by gas, for any code *)
Definition code_at_most (L : nat) (c : list Instruction.t) : Prop := length c ≤ L.

(** Fuel that suffices: one pass over the longest function per unit of gas. *)
Definition fuel_by_gas (L : nat) (g : GasMeter) : nat :=
  Z.to_nat (limit g - spent g) * (L + 1) + L + 1.

Lemma call_finishes_by_gas {S} `{PrefixHex} (vm : Vm S) L fn args g s :
  wf_vm vm → module_ok (code_at_most L) (vm_module vm) →
  map_Forall (λ _, module_ok (code_at_most L)) (vm_deps vm) →
  wf_gas g → (limit g < u64_max)%Z →
  fst (call vm (fuel_by_gas L g) fn args (g, s)) ≠ NoFuel.
Proof.
  intros Hvm Hm Hd Hg Hl.
  apply (call_enough_fuel vm Hvm (code_at_most L) (λ g, wf_gas g ∧ limit g < u64_max)%Z
    (λ _ n g, Z.to_nat (limit g - spent g) * (L + 1) + (L - n))); try done.
  - by intros ? [??].
  - intros g0 g1 (Hl1 & Hs & Hw) [??]. rewrite Hl1. auto.
  - intros c n i n' d g0 g1 Hc [Hg0 Hl0] Hi Hch Hn. unfold code_at_most in Hc.
    apply lookup_lt_Some in Hi. destruct Hvm as [(Hcost & Hj & _) _].
    pose proof (Hcost i). apply charge_Ok in Hch as (Hl1 & Hs1 & Hle).
    unfold wf_gas in Hg0.
    assert (spent g1 = spent g0 + cost_of (vm_gas_schedule vm) i)%Z as Hs by lia.
    assert (n' = n + 1 ∨ (1 ≤ cost_of (vm_gas_schedule vm) i)%Z) as [->|]
      by (destruct i; simpl in *; lia); rewrite Hl1, Hs; nia.
  - intros c n f d g0 g1 g2 Hc [Hg0 Hl0] Hi Hch (Hl2 & Hs2 & _) Hd'.
    apply charge_Ok in Hch as (Hl1 & Hs1 & Hle). destruct Hvm as [(_ & _ & Hcc) _].
    simpl in *. unfold wf_gas in Hg0. nia.
  - intros c n f d g0 g1 g2 Hc [Hg0 Hl0] Hi Hch (Hl2 & Hs2 & _).
    apply charge_Ok in Hch as (Hl1 & Hs1 & Hle). destruct Hvm as [(_ & _ & Hcc) _].
    simpl in *. unfold wf_gas in Hg0. nia.
  - intros d n g0 g1 [Hg0 Hl0] (Hl2 & Hs2 & _). rewrite Hl2. nia.
  - unfold fuel_by_gas. lia.
Qed.

(** ** Termination by call depth, for forward jumps only *)
Definition forward_only (c : list Instruction.t) : Prop :=
  Forall (λ i, match i with
    | Instruction.Jump o | Instruction.JumpIf o | Instruction.JumpIfNot o => (0 < o)%Z
    | _ => True
    end) c.

Definition fuel_by_depth (L : nat) (cfg : VmConfig) : nat :=
  (max_call_depth cfg + 1) * (L + 1).

Lemma call_finishes_by_depth {S} `{PrefixHex} (vm : Vm S) L fn args g s :
  let OkCode c := code_at_most L c ∧ forward_only c in
  wf_vm vm → module_ok OkCode (vm_module vm) →
  map_Forall (λ _, module_ok OkCode) (vm_deps vm) → wf_gas g →
  fst (call vm (fuel_by_depth L (vm_config vm)) fn args (g, s)) ≠ NoFuel.
Proof.
  intros OkCode Hvm Hm Hd Hg.
  apply (call_enough_fuel vm Hvm OkCode wf_gas
    (λ d n _, (max_call_depth (vm_config vm) - d) * (L + 1) + (L - n))); try done.
  - intros g0 g1 (Hl1 & Hs & Hw) ?. auto.
  - intros c n i n' d g0 g1 [Hc Hf] _ Hi _ Hn. unfold code_at_most in Hc.
    pose proof (lookup_lt_Some _ _ _ Hi). eapply Forall_lookup_1 in Hf; [|done].
    enough (n < n') by lia. destruct i; simpl in *; lia.
  - intros c n f d g0 g1 g2 [Hc _] _ Hi _ _ Hd'. apply lookup_lt_Some in Hi.
    unfold code_at_most in Hc. nia.
  - intros c n f d g0 g1 g2 [Hc _] _ Hi _ _. apply lookup_lt_Some in Hi.
    unfold code_at_most in Hc. nia.
  - unfold fuel_by_depth. nia.
Qed.
