(* ===== verification/VerifierStructural.v ===== *)
(** * Bytecode verifier, phase 1: structural checks

    Models [meow-vm-bytecode-verifier/src/error.rs] and [structural.rs].  The
    Rust code pushes onto one error vector; here each check returns the errors
    it adds, concatenated in the order of the pushes. *)

From S2P Require Import Prelude Address VmTypes.

(** ** Errors ([error.rs]) *)
Module VerificationError.
Inductive t :=
  | InvalidIdentifier (name context : string)
  | DuplicateFunctionName (name : string)
  | DuplicateStructName (name : string)
  | TooManyStructs (count limit : nat)
  | TooManyFunctions (count limit : nat)
  | TooManyImports (count limit : nat)
  | EmptyStruct (struct_name : string)
  | TooManyFields (struct_name : string) (count limit : nat)
  | CyclicStructDefinition (struct_name : string)
  | TupleFieldType (struct_name field_name : string)
  | TupleTooLarge (function : string) (size limit : nat)
  | LocalCountTooSmall (function : string) (local_count param_count : nat)
  | TooManyParams (function : string) (count limit : nat)
  | FunctionTooLarge (function : string) (count limit : Z)
  | TooManyLocals (function : string) (count limit : nat)
  | BackwardJump (function : string) (pc : nat) (offset : Z)
  | JumpOutOfBounds (function : string) (pc : nat) (target code_len : nat)
  | SlotOutOfRange (function : string) (pc slot local_count : nat)
  | EmptyFieldPath (function : string) (pc : nat)
  | UnresolvedTypeReference (context type_name : string)
  | UndefinedStructType (function : string) (pc : nat) (type_name : string)
  | StructFieldMismatch (function : string) (pc : nat) (type_name : string)
  | CrossModuleCallToPrivateFunction (function : string) (pc : nat) (callee : string)
  | CrossModuleStructAccess (function : string) (pc : nat) (type_name : string)
  | CrossModulePrivateStructReference (context type_name : string)
  | CrossModulePrivateFieldRead (function : string) (pc : nat) (type_name field : string)
  | CrossModuleFieldWrite (function : string) (pc : nat) (type_name field : string)
  | StackUnderflow (function : string) (pc : nat) (expected : string)
  | TypeMismatch (function : string) (pc : nat) (expected found : string)
  | StackMergeConflict (function : string) (join_pc : nat)
  | LivenessMergeConflict (function : string) (join_pc slot : nat)
  | SlotTypeMergeConflict (function : string) (join_pc slot : nat)
  | ReturnTypeMismatch (function declared found : string)
  | MissingReturn (function : string)
  | StructTypedFieldLoaded (function : string) (pc : nat) (field : string)
  | StructTypedFieldWritten (function : string) (pc : nat) (field : string)
  | GetFieldDropsLinearField (function : string) (pc : nat) (type_name linear_field : string)
  | UseAfterMove (function : string) (pc slot : nat)
  | PopOnStruct (function : string) (pc : nat)
  | DupOnStruct (function : string) (pc : nat)
  | EqOnLinearType (function : string) (pc : nat)
  | SlotOverwrite (function : string) (pc slot : nat)
  | UnconsumedStruct (function : string) (slot : nat)
  | UnconsumedStructOnStack (function : string)
  | UndefinedFunction (function : string) (pc : nat) (callee : string)
  | NativeArgCountMismatch (function : string) (pc : nat) (callee : string)
      (expected found : nat)
  | NativeArgTypeMismatch (function : string) (pc : nat) (callee : string)
      (arg_index : nat) (expected found : string).
End VerificationError.

(** [if cond { errors.push(e) }]. *)
Definition report (cond : bool) (e : VerificationError.t) : list VerificationError.t :=
  if cond then [e] else [].

Lemma report_nil b e : report b e = [] ↔ b = false.
Proof. by destruct b. Qed.

Section structural.
Context `{PrefixHex}.
Context (module : VmModule) (deps : gmap Address VmModule) (cfg : CompilerConfig).

(** [validate_type_ref]. *)
Fixpoint validate_type_ref (context : string) (ty : Ty.t) : list VerificationError.t :=
  match ty with
  | Ty.Bool | Ty.U64 | Ty.Address | Ty.Str => []
  | Ty.Struct name =>
      match parse_module_ref name with
      | Some (dep_addr, struct_name) =>
          if bool_decide (dep_addr ∉ mod_imports module)
          then [VerificationError.UnresolvedTypeReference context name]
          else
            match deps !! dep_addr with
            | Some dep_mod =>
                match get_struct dep_mod struct_name with
                | None => [VerificationError.UnresolvedTypeReference context name]
                | Some def =>
                    report (negb (sd_is_public def))
                      (VerificationError.CrossModulePrivateStructReference context name)
                end
            | None => []
            end
      | None =>
          match get_struct module name with
          | None => [VerificationError.UnresolvedTypeReference context name]
          | Some _ => []
          end
      end
  | Ty.Tuple types => mjoin (map (validate_type_ref context) types)
  end.

(** The field loop of [check_module]. *)
Definition check_field (s : StructDef) (field : FieldDef) : list VerificationError.t :=
  report (negb (is_valid_identifier (fd_name field) cfg))
    (VerificationError.InvalidIdentifier (fd_name field)
       ("field in struct '" +:+ sd_name s +:+ "'")) ++
  report (negb (Ty.is_valid_field_type (fd_ty field)))
    (VerificationError.TupleFieldType (sd_name s) (fd_name field)) ++
  validate_type_ref ("field '" +:+ fd_name field +:+ "' in struct '" +:+ sd_name s +:+ "'")
    (fd_ty field).

(** The struct loop of [check_module], with its set [seen_structs]. *)
Fixpoint check_structs (seen_structs : gset string) (structs : list StructDef)
  : list VerificationError.t :=
  match structs with
  | [] => []
  | s :: structs =>
      report (negb (is_valid_identifier (sd_name s) cfg))
        (VerificationError.InvalidIdentifier (sd_name s) "struct definition") ++
      report (bool_decide (sd_name s ∈ seen_structs))
        (VerificationError.DuplicateStructName (sd_name s)) ++
      report (bool_decide (length (sd_fields s) = 0))
        (VerificationError.EmptyStruct (sd_name s)) ++
      report (bool_decide (max_fields cfg < length (sd_fields s)))
        (VerificationError.TooManyFields (sd_name s) (length (sd_fields s)) (max_fields cfg)) ++
      mjoin (map (check_field s) (sd_fields s)) ++
      check_structs ({[sd_name s]} ∪ seen_structs) structs
  end.

(** *** Cyclic struct definitions *)
Definition local_structs : gset string := list_to_set (sd_name <$> mod_structs module).

(** [visiting], [visited] and the errors so far. *)
Record Dfs := mkDfs {
  visiting : gset string;
  visited : gset string;
  dfs_errors : list VerificationError.t;
}.

(** The field types that [struct_dfs] follows. *)
Definition local_ref (field : FieldDef) : option string :=
  match fd_ty field with
  | Ty.Struct ty_name =>
      match parse_module_ref ty_name with
      | None => if bool_decide (ty_name ∈ local_structs) then Some ty_name else None
      | Some _ => None
      end
  | _ => None
  end.

(** The field loop of [struct_dfs]; [rec] is the recursive call. *)
Fixpoint dfs_fields (rec : string → Dfs → option Dfs) (fields : list FieldDef) (d : Dfs)
  : option Dfs :=
  match fields with
  | [] => Some d
  | field :: fields =>
      d ← match local_ref field with
          | Some ty_name =>
              if bool_decide (ty_name ∈ visiting d)
              then Some (mkDfs (visiting d) (visited d)
                     (dfs_errors d ++ [VerificationError.CyclicStructDefinition ty_name]))
              else if bool_decide (ty_name ∈ visited d) then Some d
              else rec ty_name d
          | None => Some d
          end;
      dfs_fields rec fields d
  end.

(** [struct_dfs], on fuel; [None] when it runs out. *)
Fixpoint struct_dfs (fuel : nat) (name : string) (d : Dfs) : option Dfs :=
  match fuel with
  | O => None
  | S fuel =>
      let d := mkDfs ({[name]} ∪ visiting d) (visited d) (dfs_errors d) in
      d ← match get_struct module name with
          | Some def => dfs_fields (struct_dfs fuel) (sd_fields def) d
          | None => Some d
          end;
      Some (mkDfs (visiting d ∖ {[name]}) ({[name]} ∪ visited d) (dfs_errors d))
  end.

(** The recursion is at most as deep as there are struct names. *)
Definition dfs_fuel : nat := length (mod_structs module).

(** The loop of [check_struct_cycles]. *)
Fixpoint dfs_structs (structs : list StructDef) (d : Dfs) : option Dfs :=
  match structs with
  | [] => Some d
  | s :: structs =>
      d ← if bool_decide (sd_name s ∈ visited d) then Some d
          else struct_dfs dfs_fuel (sd_name s) d;
      dfs_structs structs d
  end.

(** [check_struct_cycles]. *)
Definition check_struct_cycles : list VerificationError.t :=
  match dfs_structs (mod_structs module) (mkDfs ∅ ∅ []) with
  | Some d => dfs_errors d
  | None => []
  end.

(** *** Functions *)

(** The field-list comparison of [NewStruct] and [UnpackStruct]. *)
Definition check_struct_instr (f : Function) (pc : nat) (type_name : string)
    (field_names : list string) : list VerificationError.t :=
  match parse_module_ref type_name with
  | Some _ => [VerificationError.CrossModuleStructAccess (fn_name f) pc type_name]
  | None =>
      match get_struct module type_name with
      | None => [VerificationError.UndefinedStructType (fn_name f) pc type_name]
      | Some def =>
          report (bool_decide ((fd_name <$> sd_fields def) ≠ field_names))
            (VerificationError.StructFieldMismatch (fn_name f) pc type_name)
      end
  end.

(** The per-instruction match of [check_module]. *)
Definition structural_check_instr (f : Function) (pc : nat) (instr : Instruction.t)
  : list VerificationError.t :=
  let code_len := length (fn_code f) in
  match instr with
  | Instruction.Load slot | Instruction.Store slot =>
      report (bool_decide (fn_local_count f ≤ slot))
        (VerificationError.SlotOutOfRange (fn_name f) pc slot (fn_local_count f))
  | Instruction.LoadField slot path | Instruction.StoreField slot path =>
      report (bool_decide (fn_local_count f ≤ slot))
        (VerificationError.SlotOutOfRange (fn_name f) pc slot (fn_local_count f)) ++
      report (bool_decide (path = []))
        (VerificationError.EmptyFieldPath (fn_name f) pc)
  | Instruction.Jump offset | Instruction.JumpIf offset | Instruction.JumpIfNot offset =>
      if bool_decide (offset ≤ 0)%Z
      then [VerificationError.BackwardJump (fn_name f) pc offset]
      else
        let target := (Z.of_nat pc + offset)%Z in
        report (bool_decide (Z.of_nat code_len < target)%Z)
          (VerificationError.JumpOutOfBounds (fn_name f) pc (Z.to_nat target) code_len)
  | Instruction.NewStruct type_name field_names
  | Instruction.UnpackStruct type_name field_names =>
      check_struct_instr f pc type_name field_names
  | Instruction.Call name =>
      match parse_module_ref name with
      | Some (dep_addr, callee_name) =>
          match deps !! dep_addr with
          | None => []
          | Some dep_mod =>
              match get_function dep_mod callee_name with
              | None => []
              | Some callee =>
                  report (negb (fn_is_public callee))
                    (VerificationError.CrossModuleCallToPrivateFunction (fn_name f) pc name)
              end
          end
      | None => []
      end
  | Instruction.MakeTuple n | Instruction.UnpackTuple n =>
      report (bool_decide (max_tuple_elements cfg < n))
        (VerificationError.TupleTooLarge (fn_name f) n (max_tuple_elements cfg))
  | _ => []
  end.

(** Signature checks of one function: type references and limits. *)
Definition check_signature (f : Function) : list VerificationError.t :=
  mjoin (map (λ p, validate_type_ref
    ("param '" +:+ fst p +:+ "' of function '" +:+ fn_name f +:+ "'") (snd p))
    (fn_params f)) ++
  (match fn_return_type f with
   | Some ret_ty =>
       validate_type_ref ("return type of function '" +:+ fn_name f +:+ "'") ret_ty
   | None => []
   end) ++
  (match fn_return_type f with
   | Some (Ty.Tuple types) =>
       report (bool_decide (max_tuple_elements cfg < length types))
         (VerificationError.TupleTooLarge (fn_name f) (length types) (max_tuple_elements cfg))
   | _ => []
   end) ++
  report (bool_decide (fn_local_count f < length (fn_params f)))
    (VerificationError.LocalCountTooSmall (fn_name f) (fn_local_count f)
       (length (fn_params f))) ++
  report (bool_decide (max_params cfg < length (fn_params f)))
    (VerificationError.TooManyParams (fn_name f) (length (fn_params f)) (max_params cfg)) ++
  report (bool_decide (max_fun_code_size cfg < Z.of_nat (length (fn_code f)))%Z)
    (VerificationError.FunctionTooLarge (fn_name f) (Z.of_nat (length (fn_code f)))
       (max_fun_code_size cfg)) ++
  report (bool_decide (max_locals cfg < fn_local_count f))
    (VerificationError.TooManyLocals (fn_name f) (fn_local_count f) (max_locals cfg)).

(** The function loop of [check_module], with its set [seen_fns]. *)
Fixpoint check_functions (seen_fns : gset string) (functions : list Function)
  : list VerificationError.t :=
  match functions with
  | [] => []
  | f :: functions =>
      report (negb (is_valid_identifier (fn_name f) cfg) ||
              bool_decide (fn_name f ∈ RESERVED_FUNCTION_NAMES) ||
              bool_decide (fn_name f ∈ reserved_function_names cfg))
        (VerificationError.InvalidIdentifier (fn_name f) "function definition") ++
      report (bool_decide (fn_name f ∈ seen_fns))
        (VerificationError.DuplicateFunctionName (fn_name f)) ++
      check_signature f ++
      mjoin (imap (structural_check_instr f) (fn_code f)) ++
      check_functions ({[fn_name f]} ∪ seen_fns) functions
  end.

(** [check_module]. *)
Definition check_module : list VerificationError.t :=
  report (negb (is_valid_identifier (mod_name module) cfg))
    (VerificationError.InvalidIdentifier (mod_name module) "module declaration") ++
  report (bool_decide (max_structs cfg < length (mod_structs module)))
    (VerificationError.TooManyStructs (length (mod_structs module)) (max_structs cfg)) ++
  report (bool_decide (max_functions cfg < length (mod_functions module)))
    (VerificationError.TooManyFunctions (length (mod_functions module)) (max_functions cfg)) ++
  report (bool_decide (max_imports cfg < length (mod_imports module)))
    (VerificationError.TooManyImports (length (mod_imports module)) (max_imports cfg)) ++
  check_structs ∅ (mod_structs module) ++
  check_struct_cycles ++
  check_functions ∅ (mod_functions module).
End structural.
