(* ===== verification/VerifierCycles.v ===== *)
(** * The search for cyclic struct definitions is correct

    [check_struct_cycles] always finishes, reports only structs that lie on a
    cycle, and reports nothing only when the references between the local
    structs are well founded. *)

From S2P Require Import Prelude Address VmTypes VerifierStructural.

Section cycles.
Context `{PrefixHex} (module : VmModule).
Implicit Types (d : Dfs) (x y name : string) (e : VerificationError.t).

(** [x] has a field of the local struct type [y]. *)
Definition ref_edge x y : Prop :=
  ∃ def field, get_struct module x = Some def ∧ field ∈ sd_fields def ∧
    local_ref module field = Some y.

Definition reports_cycle e : Prop :=
  ∃ x, e = VerificationError.CyclicStructDefinition x ∧ tc ref_edge x x.

Notation grounded := (set_Forall (Acc (flip ref_edge))).

(** What a part of the search that runs below the struct [name] leaves behind. *)
Record dfs_ext name d d' : Prop := {
  ext_visiting : visiting d' = visiting d;
  ext_visited : visited d ⊆ visited d';
  ext_errors : dfs_errors d' = [] → dfs_errors d = [];
  ext_grounded : dfs_errors d' = [] → grounded (visited d) → grounded (visited d');
  ext_cycles e : set_Forall (λ x, rtc ref_edge x name) (visiting d) →
    e ∈ dfs_errors d' → e ∈ dfs_errors d ∨ reports_cycle e;
}.

Lemma dfs_ext_refl name d : dfs_ext name d d.
Proof. by split; auto. Qed.
Lemma dfs_ext_trans name d1 d2 d3 :
  dfs_ext name d1 d2 → dfs_ext name d2 d3 → dfs_ext name d1 d3.
Proof.
  intros [V1 S1 E1 G1 C1] [V2 S2 E2 G2 C2]. split; [congruence|set_solver|auto..].
  intros e Hs He. destruct (C2 e) as [?|?]; [by rewrite V1|done| |by right]. by apply C1.
Qed.
Lemma dfs_ext_edge name y d d' :
  ref_edge name y → dfs_ext y d d' → dfs_ext name d d'.
Proof.
  intros Hy [V1 S1 E1 G1 C1]. split; [done..|].
  intros e Hs. apply C1. intros x Hx. etrans; [by apply Hs|by apply rtc_once].
Qed.
Lemma dfs_ext_report name y d :
  ref_edge name y → y ∈ visiting d →
  dfs_ext name d (mkDfs (visiting d) (visited d)
    (dfs_errors d ++ [VerificationError.CyclicStructDefinition y])).
Proof.
  intros He Hy. split; simpl; try done.
  - by intros [??]%app_nil.
  - intros e Hs [?|Hin]%elem_of_app; [by left|right]. exists y. split; [set_solver|].
    apply tc_rtc_l with name; [by apply Hs|by apply tc_once].
Qed.

(** The names that can still be put on the path. *)
Definition fresh d : gset string := local_structs module ∖ visiting d.

(** What [struct_dfs] promises to its callers, with fuel [n]. *)
Definition dfs_spec (n : nat) (rec : string → Dfs → option Dfs) : Prop :=
  ∀ name d, name ∈ fresh d → size (fresh d) ≤ n →
    ∃ d', rec name d = Some d' ∧ dfs_ext name d d' ∧ name ∈ visited d'.

Lemma local_ref_local field y : local_ref module field = Some y → y ∈ local_structs module.
Proof. unfold local_ref. intros. repeat case_match; simplify_eq; by case_bool_decide. Qed.

Lemma fresh_eq d d' : visiting d' = visiting d → fresh d' = fresh d.
Proof. unfold fresh. by intros ->. Qed.

Lemma dfs_fields_spec n rec name fields d :
  dfs_spec n rec → size (fresh d) ≤ n →
  (∀ f y, f ∈ fields → local_ref module f = Some y → ref_edge name y) →
  ∃ d', dfs_fields module rec fields d = Some d' ∧ dfs_ext name d d' ∧
    (dfs_errors d' = [] → ∀ f y, f ∈ fields → local_ref module f = Some y → y ∈ visited d').
Proof.
  intros Hrec. revert d. induction fields as [|f fields IH]; intros d Hn Hedge; simpl.
  { exists d. split_and!; [done|apply dfs_ext_refl|set_solver]. }
  assert (∃ d1, match local_ref module f with
      | Some ty_name =>
          if bool_decide (ty_name ∈ visiting d)
          then Some (mkDfs (visiting d) (visited d)
                 (dfs_errors d ++ [VerificationError.CyclicStructDefinition ty_name]))
          else if bool_decide (ty_name ∈ visited d) then Some d
          else rec ty_name d
      | None => Some d
      end = Some d1 ∧ dfs_ext name d d1 ∧
      (dfs_errors d1 = [] → ∀ y, local_ref module f = Some y → y ∈ visited d1))
    as (d1 & -> & Hext1 & Hin1).
  { destruct (local_ref module f) as [y|] eqn:Hf.
    - assert (Hy : ref_edge name y) by (eapply Hedge; [left|done]).
      repeat case_bool_decide.
      + eexists. split_and!; [done|by apply dfs_ext_report|]. by intros [??]%app_nil.
      + exists d. split_and!; [done|apply dfs_ext_refl|]. intros _ ??. by simplify_eq.
      + destruct (Hrec y d) as (d1 & -> & ? & ?); [|done|].
        { apply elem_of_difference. split; [by eapply local_ref_local|done]. }
        exists d1. split_and!; [done|by eapply dfs_ext_edge|]. intros _ ??. by simplify_eq.
    - exists d. split_and!; [done|apply dfs_ext_refl|done]. }
  simpl. destruct (IH d1) as (d2 & -> & Hext2 & Hin2).
  { by rewrite (fresh_eq _ _ (ext_visiting _ _ _ Hext1)). }
  { intros ????. eapply Hedge; [by right|done]. }
  exists d2. split_and!; [done|by eapply dfs_ext_trans|].
  intros He f' y [->|Hf']%elem_of_cons Hy; [|by eapply Hin2].
  apply (ext_visited _ _ _ Hext2), Hin1; [|done]. by apply (ext_errors _ _ _ Hext2).
Qed.

Lemma struct_dfs_spec n : dfs_spec n (struct_dfs module n).
Proof.
  induction n as [|n IH]; intros name d Hname Hn.
  { assert (size (fresh d) = 0) as Hz by lia. apply size_empty_inv in Hz. set_solver. }
  cbn [struct_dfs]. set (d0 := mkDfs ({[name]} ∪ visiting d) (visited d) (dfs_errors d)).
  assert (Hn0 : size (fresh d0) ≤ n).
  { enough (size (fresh d0) < size (fresh d)) by lia. apply subset_size.
    unfold fresh in *. simpl. set_solver. }
  assert (∃ d1, match get_struct module name with
      | Some def => dfs_fields module (struct_dfs module n) (sd_fields def) d0
      | None => Some d0
      end = Some d1 ∧ dfs_ext name d0 d1 ∧
      (dfs_errors d1 = [] → ∀ y, ref_edge name y → y ∈ visited d1))
    as (d1 & -> & [V S E G C] & Hin).
  { destruct (get_struct module name) as [def|] eqn:Hdef.
    - destruct (dfs_fields_spec n (struct_dfs module n) name (sd_fields def) d0)
        as (d1 & -> & Hext & Hin); [done..| |].
      { intros f y Hf Hy. by exists def, f. }
      exists d1. split_and!; [done..|]. intros He y (def' & f & ? & ? & ?).
      simplify_eq. by eapply Hin.
    - exists d0. split_and!; [done|apply dfs_ext_refl|].
      intros _ y (def' & f & ? & _). by simplify_eq. }
  eexists. split; [done|]. subst d0. simpl in *. split; [|set_solver]. split; simpl; auto.
  - rewrite V. unfold fresh in Hname. set_solver.
  - set_solver.
  - intros He Hg x [->%elem_of_singleton|Hx]%elem_of_union; [|by apply G].
    constructor. intros y Hy. apply G; auto.
  - intros e Hs. apply C. intros x [->%elem_of_singleton|Hx]%elem_of_union; [done|by apply Hs].
Qed.

Lemma size_local_structs : size (local_structs module) ≤ dfs_fuel module.
Proof.
  unfold local_structs, dfs_fuel. rewrite <-(length_fmap sd_name).
  induction (sd_name <$> mod_structs module) as [|x l IH]; [done|].
  rewrite list_to_set_cons; cbn [length]. rewrite size_union_alt, size_singleton.
  assert (list_to_set l ∖ {[x]} ⊆ (list_to_set l : gset string)) as ?%subseteq_size by set_solver.
  lia.
Qed.

Lemma dfs_structs_spec structs d :
  (∀ s, s ∈ structs → sd_name s ∈ local_structs module) → visiting d = ∅ →
  ∃ d', dfs_structs module structs d = Some d' ∧
    (dfs_errors d' = [] → dfs_errors d = []) ∧
    (dfs_errors d' = [] → grounded (visited d) →
      grounded (visited d') ∧ visited d ⊆ visited d' ∧
      ∀ s, s ∈ structs → sd_name s ∈ visited d') ∧
    (∀ e, e ∈ dfs_errors d' → e ∈ dfs_errors d ∨ reports_cycle e).
Proof.
  revert d. induction structs as [|s structs IH]; intros d Hl Hv; simpl.
  { exists d. split_and!; auto; set_solver. }
  assert (∃ d1, (if bool_decide (sd_name s ∈ visited d) then Some d
      else struct_dfs module (dfs_fuel module) (sd_name s) d) = Some d1 ∧
      dfs_ext (sd_name s) d d1 ∧ sd_name s ∈ visited d1) as (d1 & -> & [V S E G C] & Hin).
  { case_bool_decide; [exists d; split_and!; [done|apply dfs_ext_refl|done]|].
    apply struct_dfs_spec.
    - unfold fresh. rewrite Hv. rewrite difference_empty_L. apply Hl. left.
    - unfold fresh. rewrite Hv, difference_empty_L. apply size_local_structs. }
  simpl. destruct (IH d1) as (d2 & -> & E2 & G2 & C2); [set_solver|by rewrite V|].
  exists d2. split_and!; [done|by auto| |].
  - intros He Hg. destruct (G2 He (G (E2 He) Hg)) as (? & ? & ?).
    split_and!; [done|set_solver|]. intros s' [->|?]%elem_of_cons; [set_solver|auto].
  - intros e [?|?]%C2; [|by right]. apply C; [|done]. rewrite Hv. by intros ??%not_elem_of_empty.
Qed.

Lemma struct_in_local s : s ∈ mod_structs module → sd_name s ∈ local_structs module.
Proof. intros Hs. unfold local_structs. apply elem_of_list_to_set, list_elem_of_fmap. by exists s. Qed.

(** The search never runs out of fuel. *)
Lemma dfs_structs_total : is_Some (dfs_structs module (mod_structs module) (mkDfs ∅ ∅ [])).
Proof.
  destruct (dfs_structs_spec (mod_structs module) (mkDfs ∅ ∅ []))
    as (d & -> & _); [apply struct_in_local|done|by eexists].
Qed.

Lemma check_struct_cycles_wf : check_struct_cycles module = [] → well_founded (flip ref_edge).
Proof.
  unfold check_struct_cycles.
  destruct (dfs_structs_spec (mod_structs module) (mkDfs ∅ ∅ []))
    as (d & -> & _ & Hg & _); [apply struct_in_local|done|].
  intros He. destruct (Hg He) as (Hacc & _ & Hin); [by intros ??%not_elem_of_empty|].
  intros x. constructor. intros y (def & f & Hx & ? & ?).
  assert (Acc (flip ref_edge) x) as Hax.
  { apply find_first_Some in Hx as (Hx & Heq%String.eqb_eq). subst x. auto. }
  apply (Acc_inv Hax). by exists def, f.
Qed.

Lemma check_struct_cycles_reports e :
  e ∈ check_struct_cycles module → reports_cycle e.
Proof.
  unfold check_struct_cycles.
  destruct (dfs_structs_spec (mod_structs module) (mkDfs ∅ ∅ []))
    as (d & -> & _ & _ & Hc); [apply struct_in_local|done|].
  intros [?%not_elem_of_nil|?]%Hc; done.
Qed.
End cycles.
