(* ===== verification/VerifierAbstract.v ===== *)
(** * Bytecode verifier, phase 2: abstract interpretation

    Models [meow-vm-bytecode-verifier/src/abstract_interpretation.rs] and
    [verify] of [lib.rs].  As in [VerifierStructural] every check returns the
    errors it pushes.  The abstract stack is a list whose head is the top. *)

From S2P Require Import Prelude Address VmTypes VerifierStructural.

(** ** Abstract types *)
Module AbstractType.
Inductive t :=
  | Bool
  | U64
  | Address
  | Str
  | Struct (name : string)
  | Void
  | Tuple (types : list t).

Definition eq_dec : ∀ a b : t, {a = b} + {a ≠ b}.
Proof.
  fix IH 1. pose (H := IH : EqDecision t).
  intros [] []; try (left; reflexivity); try (right; congruence).
  - destruct (decide (name = name0)); [left|right]; congruence.
  - destruct (decide (types = types0)); [left|right]; congruence.
Defined.
Global Instance eq_decision : EqDecision t := eq_dec.

(** [AbstractType::display_name]. *)
Fixpoint display_name (ty : t) : string :=
  match ty with
  | Bool => "bool"
  | U64 => "u64"
  | Address => "address"
  | Str => "str"
  | Struct n => "struct(" +:+ n +:+ ")"
  | Void => "void"
  | Tuple types => "(" +:+ Ty.join ", " (map display_name types) +:+ ")"
  end.

(** [AbstractType::is_linear]. *)
Fixpoint is_linear (ty : t) : bool :=
  match ty with
  | Struct _ => true
  | Tuple types => existsb is_linear types
  | _ => false
  end.

(** [matches!(ty, AbstractType::Struct(_))]. *)
Definition is_struct (ty : t) : bool := match ty with Struct _ => true | _ => false end.

(** [from_type]. *)
Fixpoint from_type (ty : Ty.t) : t :=
  match ty with
  | Ty.Bool => Bool
  | Ty.U64 => U64
  | Ty.Address => Address
  | Ty.Str => Str
  | Ty.Struct n => Struct n
  | Ty.Tuple types => Tuple (map from_type types)
  end.
End AbstractType.
Import AbstractType (display_name, from_type).

(** ** Abstract states *)
Inductive SlotState :=
  | Live (ty : AbstractType.t)
  | Dead.
Global Instance SlotState_eq_dec : EqDecision SlotState.
Proof. solve_decision. Defined.

(** [matches!(slot, SlotState::Live(t) if t.is_linear())]. *)
Definition live_linear (s : SlotState) : bool :=
  match s with Live t => AbstractType.is_linear t | Dead => false end.

Record AbstractState := mkAState {
  st_stack : list AbstractType.t;
  st_locals : list SlotState;
  reachable : bool;
}.

(** [AbstractState::new]. *)
Definition state_new (local_count : nat) : AbstractState :=
  mkAState [] (replicate local_count Dead) true.

Definition with_stack (st : AbstractState) (l : list AbstractType.t) : AbstractState :=
  mkAState l (st_locals st) (reachable st).
Definition with_locals (st : AbstractState) (l : list SlotState) : AbstractState :=
  mkAState (st_stack st) l (reachable st).
Definition unreachable (st : AbstractState) : AbstractState :=
  mkAState (st_stack st) (st_locals st) false.

(** [AbstractState::push], [pop], [peek]; several pushes or pops at once. *)
Definition st_push (ty : AbstractType.t) (st : AbstractState) : AbstractState :=
  with_stack st (ty :: st_stack st).
Definition st_pop (st : AbstractState) : option AbstractType.t * AbstractState :=
  (head (st_stack st), with_stack st (tail (st_stack st))).
Definition st_peek (st : AbstractState) : option AbstractType.t := head (st_stack st).
Definition st_push_all (tys : list AbstractType.t) (st : AbstractState) : AbstractState :=
  with_stack st (tys ++ st_stack st).
Definition st_drop (n : nat) (st : AbstractState) : AbstractState :=
  with_stack st (drop n (st_stack st)).

(** ** State merge *)

(** The slot loop of [merge]. *)
Fixpoint merge_locals (fn_name : string) (join_pc slot : nat) (current incoming : list SlotState)
  : list SlotState + VerificationError.t :=
  match current, incoming with
  | a :: current, b :: incoming =>
      if bool_decide (a = b) then
        match merge_locals fn_name join_pc (S slot) current incoming with
        | inl l => inl (a :: l)
        | inr e => inr e
        end
      else if xorb (live_linear a) (live_linear b) then
        inr (VerificationError.LivenessMergeConflict fn_name join_pc slot)
      else if live_linear a && live_linear b then
        inr (VerificationError.SlotTypeMergeConflict fn_name join_pc slot)
      else
        match merge_locals fn_name join_pc (S slot) current incoming with
        | inl l => inl (Dead :: l)
        | inr e => inr e
        end
  | _, _ => inl current
  end.

(** [merge]: the merged state, or the one error it pushes. *)
Definition merge (current incoming : AbstractState) (join_pc : nat) (fn_name : string)
  : AbstractState + VerificationError.t :=
  if negb (reachable incoming) then inl current
  else if negb (reachable current) then inl incoming
  else if bool_decide (length (st_stack current) ≠ length (st_stack incoming)) then
    inr (VerificationError.StackMergeConflict fn_name join_pc)
  else if bool_decide (st_stack current ≠ st_stack incoming) then
    inr (VerificationError.StackMergeConflict fn_name join_pc)
  else
    match merge_locals fn_name join_pc 0 (st_locals current) (st_locals incoming) with
    | inl l => inl (with_locals current l)
    | inr e => inr e
    end.

(** [merge_at]. *)
Definition merge_at (pending : gmap nat AbstractState) (target : nat) (incoming : AbstractState)
    (fn_name : string) : gmap nat AbstractState * list VerificationError.t :=
  match pending !! target with
  | None => (<[target := incoming]> pending, [])
  | Some current =>
      match merge current incoming target fn_name with
      | inl merged => (<[target := merged]> pending, [])
      | inr e => (pending, [e])
      end
  end.

Section helpers.
Context `{PrefixHex}.

(** [resolve_field_type]. *)
Definition resolve_field_type (module : VmModule) (ty : AbstractType.t) (field_name : string)
  : option AbstractType.t :=
  match ty with
  | AbstractType.Struct type_name =>
      match parse_module_ref type_name with
      | Some _ => None
      | None =>
          def ← get_struct module type_name;
          field_def ← find_first (λ f, String.eqb (fd_name f) field_name) (sd_fields def);
          Some (from_type (fd_ty field_def))
      end
  | _ => None
  end.

(** [resolve_field_path_type]. *)
Fixpoint resolve_field_path_type (module : VmModule) (ty : AbstractType.t) (path : list string)
  : option AbstractType.t :=
  match path with
  | [] => Some ty
  | step :: path =>
      next ← resolve_field_type module ty step;
      resolve_field_path_type module next path
  end.

(** [check_field_read_visibility], with the caller's function and pc. *)
Definition check_field_read_visibility (fn_name : string) (pc : nat) (ty : AbstractType.t)
    (field_name : string) : list VerificationError.t :=
  match ty with
  | AbstractType.Struct type_name =>
      match parse_module_ref type_name with
      | Some _ =>
          [VerificationError.CrossModulePrivateFieldRead fn_name pc type_name field_name]
      | None => []
      end
  | _ => []
  end.

(** [types_compatible]. *)
Definition types_compatible (a b : AbstractType.t) : bool := bool_decide (a = b).

(** [native_param_matches], [native_param_display]. *)
Definition native_param_matches (param : NativeParam) (ty : AbstractType.t) : bool :=
  match param with
  | Concrete t => bool_decide (from_type t = ty)
  | AnyStruct => AbstractType.is_struct ty
  | LocalStruct =>
      match ty with
      | AbstractType.Struct n =>
          match parse_module_ref n with None => true | Some _ => false end
      | _ => false
      end
  end.
Definition native_param_display (param : NativeParam) : string :=
  match param with
  | Concrete t => display_name (from_type t)
  | AnyStruct => "any struct"
  | LocalStruct => "local struct"
  end.

(** [qualify_type]. *)
Fixpoint qualify_type (ty : Ty.t) (addr : Address) : Ty.t :=
  match ty with
  | Ty.Struct n =>
      match parse_module_ref n with
      | None => Ty.Struct (qualify addr n)
      | Some _ => Ty.Struct n
      end
  | Ty.Tuple types => Ty.Tuple (map (λ t, qualify_type t addr) types)
  | other => other
  end.
End helpers.

Section check_function.
Context `{PrefixHex}.
Context (func : Function) (module : VmModule).
Context (deps : gmap Address VmModule) (natives : list NativeSig).
Notation result := (AbstractState * list VerificationError.t)%type.
Let fname := fn_name func.

(** A pop that expects [want]; [what] describes it when the stack is empty. *)
Definition pop_expect (pc : nat) (want : AbstractType.t) (what : string) (st : AbstractState)
  : result :=
  match st_pop st with
  | (None, st) => (st, [VerificationError.StackUnderflow fname pc what])
  | (Some ty, st) =>
      (st, report (bool_decide (ty ≠ want))
             (VerificationError.TypeMismatch fname pc (display_name want) (display_name ty)))
  end.

(** [for side in ["right operand", "left operand"]], then a push of [res]. *)
Definition check_binop (pc : nat) (want res : AbstractType.t) (st : AbstractState) : result :=
  let '(st, e1) := pop_expect pc want "right operand" st in
  let '(st, e2) := pop_expect pc want "left operand" st in
  (st_push res st, e1 ++ e2).

Definition check_load (pc slot : nat) (st : AbstractState) : result :=
  match st_locals st !! slot with
  | None => (st, [])
  | Some Dead => (st, [VerificationError.UseAfterMove fname pc slot])
  | Some (Live ty) =>
      let st := if AbstractType.is_linear ty
                then with_locals st (<[slot := Dead]> (st_locals st)) else st in
      (st_push ty st, [])
  end.

Definition check_store (pc slot : nat) (st : AbstractState) : result :=
  match st_locals st !! slot with
  | None => (st, [])
  | Some old =>
      match st_pop st with
      | (None, st) => (st, [VerificationError.StackUnderflow fname pc "any"])
      | (Some val, st) =>
          (with_locals st (<[slot := Live val]> (st_locals st)),
           report (live_linear old) (VerificationError.SlotOverwrite fname pc slot))
      end
  end.

Definition check_load_field (pc slot : nat) (path : list string) (st : AbstractState) : result :=
  match st_locals st !! slot with
  | None => (st, [])
  | Some Dead => (st, [VerificationError.UseAfterMove fname pc slot])
  | Some (Live root_ty) =>
      match path with
      | [] => (st, [])
      | first :: _ =>
          let terminal_ty :=
            default AbstractType.Address (resolve_field_path_type module root_ty path) in
          (st_push terminal_ty st,
           check_field_read_visibility fname pc root_ty first ++
           report (AbstractType.is_struct terminal_ty)
             (VerificationError.StructTypedFieldLoaded fname pc (default "" (list.last path))))
      end
  end.

(** The check of [StoreField] once the root type is known and the path not empty. *)
Definition check_field_write (pc : nat) (root_ty val : AbstractType.t) (first : string)
    (path : list string) : list VerificationError.t :=
  match (match root_ty with
         | AbstractType.Struct n => _ ← parse_module_ref n; Some n
         | _ => None
         end) with
  | Some n => [VerificationError.CrossModuleFieldWrite fname pc n first]
  | None =>
      match resolve_field_path_type module root_ty path with
      | Some expected_ty =>
          if AbstractType.is_struct expected_ty
          then [VerificationError.StructTypedFieldWritten fname pc (default "" (list.last path))]
          else report (negb (types_compatible val expected_ty))
                 (VerificationError.TypeMismatch fname pc (display_name expected_ty)
                    (display_name val))
      | None => []
      end
  end.

Definition check_store_field (pc slot : nat) (path : list string) (st : AbstractState) : result :=
  match st_locals st !! slot with
  | None => (st, [])
  | Some root =>
      match st_pop st with
      | (None, st) => (st, [VerificationError.StackUnderflow fname pc "value to store"])
      | (Some val, st) =>
          match root, path with
          | Dead, _ => (st, [VerificationError.UseAfterMove fname pc slot])
          | Live _, [] => (st, [])
          | Live root_ty, first :: _ => (st, check_field_write pc root_ty val first path)
          end
      end
  end.

Definition check_eq (pc : nat) (st : AbstractState) : result :=
  let '(r, st) := st_pop st in
  let '(l, st) := st_pop st in
  (st_push AbstractType.Bool st,
   match l, r with
   | Some lt, Some rt =>
       if AbstractType.is_linear lt || AbstractType.is_linear rt
       then [VerificationError.EqOnLinearType fname pc]
       else report (bool_decide (lt ≠ rt))
              (VerificationError.TypeMismatch fname pc (display_name lt) (display_name rt))
   | _, _ => [VerificationError.StackUnderflow fname pc "two comparable values"]
   end).

Definition check_not (pc : nat) (st : AbstractState) : result :=
  let '(st, e) := pop_expect pc AbstractType.Bool "bool" st in
  (st_push AbstractType.Bool st, e).

(** The field loop of [NewStruct], over the fields in reverse order. *)
Fixpoint check_new_fields (pc : nat) (fields : list FieldDef) (st : AbstractState) : result :=
  match fields with
  | [] => (st, [])
  | field_def :: fields =>
      let '(st, e1) :=
        pop_expect pc (from_type (fd_ty field_def)) ("field '" +:+ fd_name field_def +:+ "'") st in
      let '(st, e2) := check_new_fields pc fields st in
      (st, e1 ++ e2)
  end.

Definition check_new_struct (pc : nat) (type_name : string) (field_names : list string)
    (st : AbstractState) : result :=
  match parse_module_ref type_name with
  | Some _ => (st_drop (length field_names) st, [])
  | None =>
      match get_struct module type_name with
      | Some def =>
          let '(st, e) := check_new_fields pc (reverse (sd_fields def)) st in
          (st_push (AbstractType.Struct type_name) st, e)
      | None => (st_push (AbstractType.Struct type_name) (st_drop (length field_names) st), [])
      end
  end.

Definition check_get_field (pc : nat) (field_name : string) (st : AbstractState) : result :=
  match st_pop st with
  | (None, st) => (st, [VerificationError.StackUnderflow fname pc "struct"])
  | (Some (AbstractType.Struct type_name as ty), st) =>
      let field_ty :=
        default AbstractType.Address (resolve_field_type module ty field_name) in
      (st_push field_ty st,
       check_field_read_visibility fname pc ty field_name ++
       if AbstractType.is_struct field_ty
       then [VerificationError.StructTypedFieldLoaded fname pc field_name]
       else
         match def ← get_struct module type_name;
               find_first (λ f, AbstractType.is_struct (from_type (fd_ty f))) (sd_fields def) with
         | Some linear_field =>
             [VerificationError.GetFieldDropsLinearField fname pc type_name (fd_name linear_field)]
         | None => []
         end)
  | (Some other, st) =>
      (st_push AbstractType.Address st,
       [VerificationError.TypeMismatch fname pc "struct" (display_name other)])
  end.

Definition check_pop (pc : nat) (st : AbstractState) : result :=
  match st_pop st with
  | (None, st) => (st, [VerificationError.StackUnderflow fname pc "any"])
  | (Some ty, st) =>
      (st, report (AbstractType.is_linear ty) (VerificationError.PopOnStruct fname pc))
  end.

Definition check_dup (pc : nat) (st : AbstractState) : result :=
  match st_peek st with
  | None => (st, [VerificationError.StackUnderflow fname pc "any"])
  | Some ty =>
      if AbstractType.is_linear ty then (st, [VerificationError.DupOnStruct fname pc])
      else (st_push ty st, [])
  end.

Definition placeholders (n : nat) : list AbstractType.t := replicate n AbstractType.U64.

Definition check_unpack_struct (pc : nat) (type_name : string) (field_names : list string)
    (st : AbstractState) : result :=
  match parse_module_ref type_name with
  | Some _ => (st_push_all (placeholders (length field_names)) (snd (st_pop st)), [])
  | None =>
      match st_pop st with
      | (None, st) => (st, [VerificationError.StackUnderflow fname pc "struct"])
      | (Some ty, st) =>
          if bool_decide (ty = AbstractType.Struct type_name) then
            match get_struct module type_name with
            | Some def => (st_push_all ((from_type ∘ fd_ty) <$> sd_fields def) st, [])
            | None => (st_push_all (placeholders (length field_names)) st, [])
            end
          else
            (st_push_all (placeholders (length field_names)) st,
             [VerificationError.TypeMismatch fname pc ("struct(" +:+ type_name +:+ ")")
                (display_name ty)])
      end
  end.

Definition check_make_tuple (pc n : nat) (st : AbstractState) : result :=
  if bool_decide (length (st_stack st) < n) then
    (with_stack st [],
     [VerificationError.StackUnderflow fname pc (pretty n +:+ " values for MakeTuple")])
  else
    (st_push (AbstractType.Tuple (reverse (take n (st_stack st)))) (st_drop n st), []).

Definition check_unpack_tuple (pc n : nat) (st : AbstractState) : result :=
  match st_pop st with
  | (None, st) => (st, [VerificationError.StackUnderflow fname pc "tuple"])
  | (Some (AbstractType.Tuple types), st) =>
      if bool_decide (length types ≠ n) then
        (st, [VerificationError.TypeMismatch fname pc ("tuple of size " +:+ pretty n)
                ("tuple of size " +:+ pretty (length types))])
      else (st_push_all types st, [])
  | (Some other, st) =>
      (st_push_all (placeholders n) st,
       [VerificationError.TypeMismatch fname pc "tuple" (display_name other)])
  end.

(** *** Calls *)

(** [push_return_type]. *)
Definition push_return_type (return_type : option Ty.t) (st : AbstractState) : AbstractState :=
  st_push (match return_type with Some ty => from_type ty | None => AbstractType.Void end) st.

(** [pop_and_check_params]; [params] are the types only. *)
Definition pop_and_check_params (params : list Ty.t) (callee : string) (pc : nat)
    (st : AbstractState) : result :=
  if bool_decide (length (st_stack st) < length params) then
    (with_stack st [],
     [VerificationError.StackUnderflow fname pc
        (pretty (length params) +:+ " args for '" +:+ callee +:+ "'")])
  else
    let args := reverse (take (length params) (st_stack st)) in
    (st_drop (length params) st,
     mjoin (zip_with (λ expected_ty actual,
       report (negb (types_compatible actual (from_type expected_ty)))
         (VerificationError.TypeMismatch fname pc (display_name (from_type expected_ty))
            (display_name actual))) params args)).

(** The native branch of [check_call]. *)
Definition check_native_call (native : NativeSig) (name : string) (pc : nat)
    (st : AbstractState) : result :=
  let expected := length (sig_params native) in
  let '(st, e) :=
    if bool_decide (length (st_stack st) < expected) then
      (with_stack st [],
       [VerificationError.NativeArgCountMismatch fname pc name expected (length (st_stack st))])
    else
      let args := reverse (take expected (st_stack st)) in
      (st_drop expected st,
       mjoin (imap (λ i '(param, ty),
         report (negb (native_param_matches param ty))
           (VerificationError.NativeArgTypeMismatch fname pc name i
              (native_param_display param) (display_name ty)))
         (zip (sig_params native) args))) in
  (push_return_type (sig_return_type native) st, e).

(** [check_call]. *)
Definition check_call (name : string) (pc : nat) (st : AbstractState) : result :=
  match parse_module_ref name with
  | Some (dep_addr, callee_name) =>
      match dep_mod ← deps !! dep_addr; get_function dep_mod callee_name with
      | Some callee =>
          let '(st, e) := pop_and_check_params
            ((λ p, qualify_type (snd p) dep_addr) <$> fn_params callee) name pc st in
          (push_return_type ((λ t, qualify_type t dep_addr) <$> fn_return_type callee) st, e)
      | None => (st, [VerificationError.UndefinedFunction fname pc name])
      end
  | None =>
      match get_function module name with
      | Some callee =>
          let '(st, e) := pop_and_check_params (snd <$> fn_params callee) name pc st in
          (push_return_type (fn_return_type callee) st, e)
      | None =>
          match find_first (λ n, String.eqb (sig_name n) name) natives with
          | Some native => check_native_call native name pc st
          | None => (st, [VerificationError.UndefinedFunction fname pc name])
          end
      end
  end.

(** *** Return *)

(** The slots that still hold a live linear value. *)
Definition unconsumed (first_slot : nat) (ls : list SlotState) : list VerificationError.t :=
  mjoin (imap (λ i s, report (live_linear s)
    (VerificationError.UnconsumedStruct fname (first_slot + i))) ls).

(** The return-type part of [check_return]. *)
Definition check_return_type (st : AbstractState) : list VerificationError.t :=
  match fn_return_type func, st_peek st with
  | None, None | None, Some AbstractType.Void => []
  | None, Some other =>
      [VerificationError.ReturnTypeMismatch fname "void" (display_name other)]
  | Some declared, None =>
      [VerificationError.ReturnTypeMismatch fname (display_name (from_type declared)) "empty stack"]
  | Some declared, Some actual =>
      report (negb (types_compatible actual (from_type declared)))
        (VerificationError.ReturnTypeMismatch fname (display_name (from_type declared))
           (display_name actual))
  end.

(** [check_return]. *)
Definition check_return (st : AbstractState) : list VerificationError.t :=
  check_return_type st ++
  report (existsb AbstractType.is_linear (tail (st_stack st)))
    (VerificationError.UnconsumedStructOnStack fname) ++
  unconsumed 0 (st_locals st).

(** *** The loop *)

(** [if *offset > 0 { merge_at(...) }]. *)
Definition schedule_jump (pending : gmap nat AbstractState) (pc : nat) (offset : Z)
    (st : AbstractState) : gmap nat AbstractState * list VerificationError.t :=
  if bool_decide (0 < offset)%Z
  then merge_at pending (Z.to_nat (Z.of_nat pc + offset)) st fname
  else (pending, []).

(** Instructions that do not look at [pending]. *)
Definition check_simple (pc : nat) (instr : Instruction.t) (st : AbstractState) : result :=
  match instr with
  | Instruction.PushBool _ => (st_push AbstractType.Bool st, [])
  | Instruction.PushU64 _ => (st_push AbstractType.U64 st, [])
  | Instruction.PushAddress _ => (st_push AbstractType.Address st, [])
  | Instruction.PushStr _ => (st_push AbstractType.Str st, [])
  | Instruction.Load slot => check_load pc slot st
  | Instruction.Store slot => check_store pc slot st
  | Instruction.LoadField slot path => check_load_field pc slot path st
  | Instruction.StoreField slot path => check_store_field pc slot path st
  | Instruction.Add | Instruction.Sub | Instruction.Mul | Instruction.Div | Instruction.Mod =>
      check_binop pc AbstractType.U64 AbstractType.U64 st
  | Instruction.Eq | Instruction.Ne => check_eq pc st
  | Instruction.Lt | Instruction.Le | Instruction.Gt | Instruction.Ge =>
      check_binop pc AbstractType.U64 AbstractType.Bool st
  | Instruction.Not => check_not pc st
  | Instruction.And | Instruction.Or => check_binop pc AbstractType.Bool AbstractType.Bool st
  | Instruction.NewStruct type_name field_names => check_new_struct pc type_name field_names st
  | Instruction.GetField field => check_get_field pc field st
  | Instruction.UnpackStruct type_name field_names =>
      check_unpack_struct pc type_name field_names st
  | Instruction.Pop => check_pop pc st
  | Instruction.Dup => check_dup pc st
  | Instruction.Call name => check_call name pc st
  | Instruction.MakeTuple n => check_make_tuple pc n st
  | Instruction.UnpackTuple n => check_unpack_tuple pc n st
  | Instruction.Return => (unreachable st, check_return st)
  | Instruction.Jump _ | Instruction.JumpIf _ | Instruction.JumpIfNot _ => (st, [])
  end.

(** The [match instr] of [check_function]. *)
Definition check_instr (pc : nat) (instr : Instruction.t) (st : AbstractState)
    (pending : gmap nat AbstractState)
  : AbstractState * gmap nat AbstractState * list VerificationError.t :=
  match instr with
  | Instruction.Jump offset =>
      let '(pending, e) := schedule_jump pending pc offset st in
      (unreachable st, pending, e)
  | Instruction.JumpIf offset | Instruction.JumpIfNot offset =>
      let '(st, e1) := pop_expect pc AbstractType.Bool "bool" st in
      let '(pending, e2) := schedule_jump pending pc offset st in
      (st, pending, e1 ++ e2)
  | _ => let '(st, e) := check_simple pc instr st in (st, pending, e)
  end.

(** The pending merge at the head of the loop: [None] is the [break]. *)
Definition apply_pending (pc : nat) (st : AbstractState) (pending : gmap nat AbstractState)
  : AbstractState + VerificationError.t :=
  match pending !! pc with
  | Some incoming => merge st incoming pc fname
  | None => inl st
  end.

(** [for (pc, instr) in func.code.iter().enumerate()]. *)
Fixpoint check_code (pc : nat) (code : list Instruction.t) (st : AbstractState)
    (pending : gmap nat AbstractState)
  : AbstractState * gmap nat AbstractState * list VerificationError.t :=
  match code with
  | [] => (st, pending, [])
  | instr :: code =>
      match apply_pending pc st pending with
      | inr e => (st, delete pc pending, [e])
      | inl st =>
          let pending := delete pc pending in
          if reachable st then
            let '(st, pending, e1) := check_instr pc instr st pending in
            let '(st, pending, e2) := check_code (S pc) code st pending in
            (st, pending, e1 ++ e2)
          else check_code (S pc) code st pending
      end
  end.

(** What follows the loop. *)
Definition check_end (st : AbstractState) (pending : gmap nat AbstractState)
  : list VerificationError.t :=
  let jump_to_end := pending !! length (fn_code func) in
  if reachable st || bool_decide (is_Some jump_to_end) then
    VerificationError.MissingReturn fname ::
    match jump_to_end with
    | Some escaped =>
        unconsumed (length (fn_params func)) (drop (length (fn_params func)) (st_locals escaped))
    | None => []
    end
  else [].

(** The state at entry: parameters fill the first slots. *)
Definition initial_state : AbstractState :=
  with_locals (state_new (fn_local_count func))
    (((λ p, Live (from_type (snd p))) <$> fn_params func) ++
     drop (length (fn_params func)) (replicate (fn_local_count func) Dead)).

(** [check_function]. *)
Definition check_function : list VerificationError.t :=
  if bool_decide (fn_local_count func < length (fn_params func)) then []
  else
    let '(st, pending, e) := check_code 0 (fn_code func) initial_state ∅ in
    e ++ check_end st pending.
End check_function.

(** [verify]. *)
Definition verify `{PrefixHex} (module : VmModule) (deps : gmap Address VmModule)
    (natives : list NativeSig) (config : CompilerConfig)
  : outcome (list VerificationError.t) () :=
  let all_natives := builtin_natives ++ natives in
  let errors := check_module module deps config ++
    mjoin (map (λ func, check_function func module deps all_natives) (mod_functions module)) in
  match errors with [] => Ok () | _ => Err errors end.
