(* ===== verification/VerifierTyping.v ===== *)
(** * What a verified frame looks like

    The typing of runtime values by the verifier's abstract types, the
    agreement of a VM frame with an abstract state, and the preservation of
    that agreement by the merge of two states and by every instruction but
    calls, jumps and returns. *)

From S2P Require Import Prelude Address VmTypes Gas Vm VerifierStructural VerifierAbstract.
Import AbstractType (display_name, from_type).

Section typing.
Context `{PrefixHex} (env : gmap Address VmModule).

(** The module and the name a struct type of the module at [a] denotes. *)
Definition resolve_name (a : Address) (n : string) : Address * string :=
  default (a, n) (parse_module_ref n).

Definition lookup_struct (q : Address * string) : option StructDef :=
  m ← env !! fst q; get_struct m (snd q).

(** [v] is a value of type [t], with the type names of the module at [a]. *)
Fixpoint has_type (a : Address) (v : Value.t) (t : AbstractType.t) : Prop :=
  match v, t with
  | Value.Bool _, AbstractType.Bool => True
  | Value.U64 _, AbstractType.U64 => True
  | Value.Address _, AbstractType.Address => True
  | Value.Str _, AbstractType.Str => True
  | Value.Void, AbstractType.Void => True
  | Value.Struct tn fs, AbstractType.Struct n =>
      let q := resolve_name a n in
      parse_module_ref tn = Some q ∧
      match lookup_struct q with
      | Some def =>
          (fix go fs fds {struct fs} : Prop :=
             match fs, fds with
             | [], [] => True
             | f :: fs, fd :: fds =>
                 (fst f = fd_name fd ∧ has_type (fst q) (snd f) (from_type (fd_ty fd))) ∧
                 go fs fds
             | _, _ => False
             end) fs (sd_fields def)
      | None => False
      end
  | Value.Tuple vs, AbstractType.Tuple ts =>
      (fix go vs ts {struct vs} : Prop :=
         match vs, ts with
         | [], [] => True
         | v :: vs, t :: ts => has_type a v t ∧ go vs ts
         | _, _ => False
         end) vs ts
  | _, _ => False
  end.

Definition field_ok (a : Address) (f : string * Value.t) (fd : FieldDef) : Prop :=
  fst f = fd_name fd ∧ has_type a (snd f) (from_type (fd_ty fd)).

Lemma has_type_struct a tn fs n :
  has_type a (Value.Struct tn fs) (AbstractType.Struct n) ↔
  parse_module_ref tn = Some (resolve_name a n) ∧
  ∃ def, lookup_struct (resolve_name a n) = Some def ∧
    Forall2 (field_ok (fst (resolve_name a n))) fs (sd_fields def).
Proof.
  simpl. split; intros [Hp Hf]; (split; [done|]).
  - destruct (lookup_struct _) as [def|]; [|done]. exists def. split; [done|].
    revert Hf. generalize (sd_fields def). induction fs as [|f fs IH]; intros [|fd fds] Hf;
      try done. destruct Hf. constructor; auto.
  - destruct Hf as (def & -> & Hf). induction Hf; [done|]. by split.
Qed.

Lemma has_type_tuple a vs ts :
  has_type a (Value.Tuple vs) (AbstractType.Tuple ts) ↔ Forall2 (has_type a) vs ts.
Proof.
  simpl. split; [|by induction 1].
  revert ts. induction vs as [|v vs IH]; intros [|t ts] Hf; try done.
  destruct Hf. constructor; auto.
Qed.

(** Values of a given type have the expected shape. *)
Lemma has_type_u64 a v : has_type a v AbstractType.U64 ↔ ∃ n, v = Value.U64 n.
Proof. destruct v; simpl; naive_solver. Qed.
Lemma has_type_bool a v : has_type a v AbstractType.Bool ↔ ∃ b, v = Value.Bool b.
Proof. destruct v; simpl; naive_solver. Qed.
Lemma has_type_struct_inv a v n :
  has_type a v (AbstractType.Struct n) → ∃ tn fs, v = Value.Struct tn fs.
Proof. destruct v; simpl; naive_solver. Qed.
Lemma has_type_tuple_inv a v ts :
  has_type a v (AbstractType.Tuple ts) → ∃ vs, v = Value.Tuple vs ∧ Forall2 (has_type a) vs ts.
Proof. destruct v; try done. intros ?%has_type_tuple. eauto. Qed.

(** The verifier's linearity is the VM's. *)
Lemma has_type_linear a v t :
  has_type a v t → Value.is_linear v = AbstractType.is_linear t.
Proof.
  revert t. induction v as [| | | | |n fs _|vs IH] using Value.ind'; intros []; try done.
  rewrite has_type_tuple. simpl. revert types. induction IH as [|v vs Hv _ IH];
    intros ts Ht; inversion Ht; subst; simpl; [done|]. f_equal; auto.
Qed.

Lemma has_type_qualified a v t : has_type a v t → check_struct_qualified v = true.
Proof.
  revert a t. induction v as [| | | | |n fs IH|vs _] using Value.ind'; intros ad []; try done.
  rewrite has_type_struct. intros [Hn (def & _ & Hf)]. simpl. rewrite Hn.
  revert Hf. generalize (sd_fields def). induction IH as [|f fs Hv _ IH];
    intros fds Ht; inversion Ht as [|??? fds' [_ ?]]; subst; simpl; [done|].
  apply andb_true_iff. split; eauto.
Qed.

(** Typing against a qualified type is typing in the other module. *)
Lemma has_type_qualify `{!PrefixHexLaws} a d v t :
  wf_address d →
  has_type a v (from_type (qualify_type t d)) ↔ has_type d v (from_type t).
Proof.
  intros Hd. revert v. induction t as [| | | |n|ts IH] using Ty.ind'; intros v;
    try by destruct v.
  - assert (Hr : resolve_name a (match parse_module_ref n with
                   | None => qualify d n | Some _ => n end) = resolve_name d n).
    { unfold resolve_name. destruct (parse_module_ref n) eqn:Hn; simpl.
      - by rewrite Hn.
      - by rewrite parse_qualify. }
    destruct v; try (simpl; destruct (parse_module_ref n); done).
    assert (from_type (qualify_type (Ty.Struct n) d) = AbstractType.Struct
      (match parse_module_ref n with None => qualify d n | Some _ => n end)) as ->
      by (simpl; by destruct (parse_module_ref n)).
    simpl from_type. by rewrite !has_type_struct, Hr.
  - destruct v; try done. change (from_type (qualify_type (Ty.Tuple ts) d))
      with (AbstractType.Tuple (map from_type (map (λ t, qualify_type t d) ts))).
    change (from_type (Ty.Tuple ts)) with (AbstractType.Tuple (map from_type ts)).
    rewrite !has_type_tuple. revert values. induction IH as [|t ts Ht _ IH]; intros vs.
    { split; intros Hf; inversion Hf; constructor. }
    split; intros Hf; inversion Hf; subst; constructor; by (apply Ht || apply IH).
Qed.

(** ** Frames and abstract states *)
Definition slot_ok (a : Address) (o : option Value.t) (s : SlotState) : Prop :=
  match s with
  | Live t => ∃ v, o = Some v ∧ has_type a v t
  | Dead => ∀ v, o = Some v → Value.is_linear v = false
  end.

Record frame_ok (a : Address) (fr : Frame) (st : AbstractState) : Prop := {
  ok_stack : Forall2 (has_type a) (stack fr) (st_stack st);
  ok_locals : Forall2 (slot_ok a) (locals fr) (st_locals st);
}.

Lemma slot_ok_dead a o s : slot_ok a o s → live_linear s = false → slot_ok a o Dead.
Proof.
  destruct s as [t|]; simpl; [|done]. intros (v & -> & Hv) Hl w ?. simplify_eq.
  by rewrite (has_type_linear _ _ _ Hv).
Qed.

Lemma merge_locals_ok a fn pc n cur inc l ls :
  merge_locals fn pc n cur inc = inl l → length cur = length inc →
  Forall2 (slot_ok a) ls cur ∨ Forall2 (slot_ok a) ls inc → Forall2 (slot_ok a) ls l.
Proof.
  revert n inc l ls. induction cur as [|x cur IH]; intros n [|y inc] l ls Hm Hl Hls; try done.
  { simpl in *. naive_solver. }
  simpl in Hm, Hl. injection Hl as Hl.
  assert (∃ o ls', ls = o :: ls' ∧ (slot_ok a o x ∨ slot_ok a o y) ∧
    (Forall2 (slot_ok a) ls' cur ∨ Forall2 (slot_ok a) ls' inc) ∧
    (x ≠ y → live_linear x = false → live_linear y = false → slot_ok a o Dead))
    as (o & ls' & -> & Ho & Hls' & Hd).
  { destruct Hls as [Hls|Hls]; inversion Hls; subst; do 2 eexists;
      (split_and!; [done|eauto..|]); intros; by eapply slot_ok_dead. }
  destruct (merge_locals fn pc (S n) cur inc) as [l'|] eqn:Hrec;
    repeat case_match; simplify_eq; constructor; eauto.
  - case_bool_decide; [|done]. subst. naive_solver.
  - case_bool_decide; [done|]. apply Hd; [done|..]; by destruct (live_linear x), (live_linear y).
Qed.

Lemma merge_ok a fr cur inc pc fn st :
  merge cur inc pc fn = inl st →
  length (st_locals cur) = length (st_locals inc) →
  (reachable cur = true ∧ frame_ok a fr cur) ∨ (reachable inc = true ∧ frame_ok a fr inc) →
  reachable st = true ∧ frame_ok a fr st.
Proof.
  unfold merge. intros Hm Hl Hor.
  destruct (reachable inc) eqn:Hri, (reachable cur) eqn:Hrc; simplify_eq/=; try naive_solver.
  repeat case_bool_decide; simplify_eq.
  destruct (merge_locals _ _ _ _ _) as [l|] eqn:Hml; simplify_eq.
  split; [done|]. split; simpl.
  - destruct Hor as [[_ [? _]]|[_ [? _]]]; congruence.
  - eapply merge_locals_ok; [done..|]. destruct Hor as [[_ [_ ?]]|[_ [_ ?]]]; auto.
Qed.
End typing.

(** * Verified instructions do not go wrong

    For every instruction but calls, jumps and returns: when the abstract step
    reports no error and the frame agrees with the abstract state, the VM step
    succeeds in a frame that agrees with the next abstract state, or fails
    with an error the verifier does not rule out (arithmetic). *)

(** The VM errors that depend on the data, on gas or on natives: everything
    else is what verification rules out. *)
Definition benign (e : VmError.t) : bool :=
  match e with
  | VmError.Aborted _ _ | VmError.ArithmeticOverflow | VmError.CallStackOverflow _
  | VmError.DivisionByZero | VmError.NativeError _ | VmError.OutOfGas _ _ => true
  | _ => false
  end.

(** What the structural phase guarantees of the struct definitions, together
    with distinct field names, which it does not check. *)
Record structs_ok (m : VmModule) : Prop := {
  structs_field_types s fd : s ∈ mod_structs m → fd ∈ sd_fields s →
    Ty.is_valid_field_type (fd_ty fd) = true;
  structs_field_names s : s ∈ mod_structs m → NoDup (fd_name <$> sd_fields s);
}.

(** Every field access of [instr] names a field the verifier can resolve. *)
Definition fields_resolve `{PrefixHex} (m : VmModule) (instr : Instruction.t) (st : AbstractState)
  : bool :=
  match instr with
  | Instruction.LoadField slot path | Instruction.StoreField slot path =>
      match st_locals st !! slot with
      | Some (Live root_ty) => bool_decide (is_Some (resolve_field_path_type m root_ty path))
      | _ => true
      end
  | Instruction.GetField field =>
      match st_stack st with
      | ty :: _ => bool_decide (is_Some (resolve_field_type m ty field))
      | [] => true
      end
  | _ => true
  end.

Section instrs.
Context `{PrefixHexLaws} (env : gmap Address VmModule).
Context (a : Address) (m : VmModule) (Ha : wf_address a) (Hm : env !! a = Some m).
Context (Hstructs : structs_ok m) (func : Function).
Notation has_type := (has_type env).
Notation frame_ok := (frame_ok env).

(** The VM step [o] agrees with the abstract state [st]. *)
Definition step_ok (st : AbstractState) (o : outcome VmError.t Frame) : Prop :=
  match o with
  | Ok fr => frame_ok a fr st
  | Err e => benign e = true
  | _ => False
  end.

(** ** Stack operations *)
Lemma frame_ok_push fr st v t :
  frame_ok a fr st → has_type a v t → frame_ok a (push v fr) (st_push t st).
Proof. intros [Hs Hl] Hv. split; [by constructor|done]. Qed.

Lemma frame_ok_push_all fr st vs ts :
  frame_ok a fr st → Forall2 (has_type a) vs ts →
  frame_ok a (set_stack fr (vs ++ stack fr)) (st_push_all ts st).
Proof. intros [Hs Hl] Hv. split; [by apply Forall2_app|done]. Qed.

Lemma frame_ok_pop fr st t ts :
  frame_ok a fr st → st_stack st = t :: ts →
  ∃ v vs, pop fr = Ok (v, set_stack fr vs) ∧ stack fr = v :: vs ∧ has_type a v t ∧
    frame_ok a (set_stack fr vs) (with_stack st ts).
Proof.
  intros [Hs Hl] Ht. rewrite Ht in Hs. unfold pop.
  inversion Hs as [|v ? vs ? Hv Hvs Heq]; subst. exists v, vs. by repeat split.
Qed.

Lemma frame_ok_split fr st n :
  frame_ok a fr st → n ≤ length (st_stack st) →
  ∃ vs, pop_args n fr = Ok (vs, set_stack fr (drop n (stack fr))) ∧
    Forall2 (has_type a) vs (reverse (take n (st_stack st))) ∧
    frame_ok a (set_stack fr (drop n (stack fr))) (st_drop n st).
Proof.
  intros [Hs Hl] Hn. unfold pop_args. pose proof (Forall2_length Hs).
  rewrite pop_n_take_drop by lia.
  exists (reverse (take n (stack fr))). split_and!; [done| |split; [by apply Forall2_drop|done]].
  by apply Forall2_reverse, Forall2_take.
Qed.

Lemma pop_expect_ok pc want what fr st st' :
  pop_expect func pc want what st = (st', []) → frame_ok a fr st →
  st_stack st = want :: st_stack st' ∧ st' = with_stack st (st_stack st') ∧
  ∃ v fr', pop fr = Ok (v, fr') ∧ has_type a v want ∧ frame_ok a fr' st'.
Proof.
  unfold pop_expect, st_pop. intros Hp Hf.
  destruct (st_stack st) as [|t ts] eqn:Hst; injection Hp as <- He; [done|].
  apply report_nil, bool_decide_eq_false, dec_stable in He as <-. split_and!; [done..|].
  destruct (frame_ok_pop _ _ _ _ Hf Hst) as (v & vs & ? & _ & ? & ?). eauto 10.
Qed.

(** ** Field paths *)
Lemma local_struct_type v n def :
  parse_module_ref n = None → get_struct m n = Some def →
  has_type a v (AbstractType.Struct n) ↔
  ∃ tn fs, v = Value.Struct tn fs ∧ parse_module_ref tn = Some (a, n) ∧
    Forall2 (field_ok env a) fs (sd_fields def).
Proof.
  intros Hn Hdef. split.
  - intros Hv. destruct (has_type_struct_inv _ _ _ _ Hv) as (tn & fs & ->).
    apply has_type_struct in Hv as [Hp (def' & Hl & Hf)].
    unfold resolve_name, lookup_struct in *. rewrite Hn in *. simpl in *.
    rewrite Hm in Hl. simplify_eq/=. by exists tn, fs.
  - intros (tn & fs & -> & Hp & Hf). apply has_type_struct.
    unfold resolve_name, lookup_struct. rewrite Hn. simpl. rewrite Hm. eauto.
Qed.

Lemma find_field_ok fs fds name fd :
  Forall2 (field_ok env a) fs fds →
  find_first (λ f, String.eqb (fd_name f) name) fds = Some fd →
  ∃ v, Value.find_field name fs = Some v ∧ has_type a v (from_type (fd_ty fd)).
Proof.
  unfold Value.find_field. induction 1 as [|f fd' fs fds [Hn Hv] _ IH]; simpl; [done|].
  rewrite Hn. destruct (String.eqb _ _); [|done]. intros ?. simplify_eq/=. eauto.
Qed.

(** Replacing the first field called [name] by a value of its type. *)
Lemma update_field_ok fs fds name fd w :
  Forall2 (field_ok env a) fs fds →
  find_first (λ f, String.eqb (fd_name f) name) fds = Some fd →
  has_type a w (from_type (fd_ty fd)) →
  Forall2 (field_ok env a) (update_field name w fs) fds.
Proof.
  intros Hf Hfd Hw. induction Hf as [|[n v] fd' fs fds [Hn Hv] Hf IH]; simpl in *; [done|].
  subst n. destruct (String.eqb _ _) eqn:E; simplify_eq; by repeat constructor; auto.
Qed.

(** What a resolved step of a path means for a value. *)
Lemma resolve_field_type_ok v t name t' :
  resolve_field_type m t name = Some t' → has_type a v t →
  ∃ tn n def fs fd, v = Value.Struct tn fs ∧ t = AbstractType.Struct n ∧
    parse_module_ref n = None ∧ get_struct m n = Some def ∧ parse_module_ref tn = Some (a, n) ∧
    Forall2 (field_ok env a) fs (sd_fields def) ∧
    find_first (λ f, String.eqb (fd_name f) name) (sd_fields def) = Some fd ∧
    t' = from_type (fd_ty fd).
Proof.
  unfold resolve_field_type. intros Hr Hv. destruct t as [| | | |n| |]; try done.
  destruct (parse_module_ref n) eqn:Hn; [done|].
  destruct (get_struct m n) as [def|] eqn:Hdef; simpl in Hr; [|done].
  destruct (find_first _ _) as [fd|] eqn:Hfd; simplify_eq/=.
  apply (local_struct_type _ _ _ Hn Hdef) in Hv as (tn & fs & -> & ? & ?). eauto 20.
Qed.

Lemma resolve_field_type_prim t name t' :
  resolve_field_type m t name = Some t' →
  AbstractType.is_linear t' = AbstractType.is_struct t'.
Proof.
  unfold resolve_field_type. intros Hr. destruct t as [| | | |n| |]; try done.
  destruct (parse_module_ref n); [done|].
  destruct (get_struct m n) as [def|] eqn:Hdef; simpl in Hr; [|done].
  destruct (find_first _ _) as [fd|] eqn:Hfd; simplify_eq/=.
  apply find_first_Some in Hdef as [Hdef _], Hfd as [Hfd _].
  pose proof (structs_field_types _ Hstructs _ _ Hdef Hfd) as Hty. by destruct (fd_ty fd).
Qed.

Lemma read_field_path_ok path i v t t' :
  resolve_field_path_type m t path = Some t' → has_type a v t →
  ∃ v', read_field_path i v path = Ok v' ∧ has_type a v' t'.
Proof.
  revert i v t. induction path as [|f path IH]; simpl; intros i v t Hr Hv; [naive_solver|].
  destruct (resolve_field_type m t f) as [t1|] eqn:H1; simpl in Hr; [|done].
  destruct (resolve_field_type_ok _ _ _ _ H1 Hv)
    as (tn & n & def & fs & fd & -> & -> & _ & _ & _ & Hfs & Hfd & ->).
  destruct (find_field_ok _ _ _ _ Hfs Hfd) as (v1 & -> & Hv1). simpl. eauto.
Qed.

Lemma write_field_path_ok path i v t t' w :
  path ≠ [] → resolve_field_path_type m t path = Some t' →
  AbstractType.is_struct t' = false → has_type a w t' → has_type a v t →
  ∃ v', write_field_path i v path w = Ok v' ∧ has_type a v' t.
Proof.
  revert i v t. induction path as [|f path IH]; [done|].
  intros i v t _ Hr Hs Hw Hv. cbn [resolve_field_path_type] in Hr.
  destruct (resolve_field_type m t f) as [t1|] eqn:H1; simpl in Hr; [|done].
  pose proof (resolve_field_type_prim _ _ _ H1) as Hprim.
  destruct (resolve_field_type_ok _ _ _ _ H1 Hv)
    as (tn & n & def & fs & fd & -> & -> & Hn & Hdef & Htn & Hfs & Hfd & ->).
  destruct (find_field_ok _ _ _ _ Hfs Hfd) as (v1 & Hff & Hv1).
  assert (Hup : ∀ w', has_type a w' (from_type (fd_ty fd)) →
    has_type a (Value.Struct tn (update_field f w' fs)) (AbstractType.Struct n)).
  { intros w' Hw'. apply (local_struct_type _ _ _ Hn Hdef).
    do 2 eexists. split_and!; [done..|]. by eapply update_field_ok. }
  destruct path as [|f' path].
  - simpl in Hr. simplify_eq. simpl. rewrite Hff. simpl.
    rewrite (has_type_linear _ _ _ _ Hv1), Hprim, Hs. eauto.
  - destruct (IH (S i) v1 (from_type (fd_ty fd))) as (v' & Hwr & Hv'); [done..|].
    cbn [write_field_path]. rewrite Hff. cbn [mbind outcome_bind ok_or].
    cbn [write_field_path] in Hwr. simpl. rewrite Hwr. simpl. eauto.
Qed.

(** ** Locals *)
Lemma check_load_ok pc slot fr st st' :
  check_load func pc slot st = (st', []) → slot < length (st_locals st) →
  frame_ok a fr st → step_ok st' (exec_load slot fr).
Proof.
  unfold check_load, exec_load. intros Hc Hl [Hs Hls].
  destruct (lookup_lt_is_Some_2 _ _ Hl) as [s Hslot]. rewrite Hslot in Hc.
  destruct (Forall2_lookup_r _ _ _ _ _ Hls Hslot) as (o & -> & Ho).
  destruct s as [t|]; [|done]. destruct Ho as (v & -> & Hv). injection Hc as <-.
  rewrite (has_type_linear _ _ _ _ Hv).
  destruct (AbstractType.is_linear t); (apply frame_ok_push; [|done]); split; try done.
  simpl. by apply Forall2_insert.
Qed.

Lemma check_store_ok pc slot fr st st' :
  check_store func pc slot st = (st', []) → slot < length (st_locals st) →
  frame_ok a fr st → step_ok st' (exec_store slot fr).
Proof.
  unfold check_store, exec_store. intros Hc Hl Hf.
  destruct (lookup_lt_is_Some_2 _ _ Hl) as [s Hslot]. rewrite Hslot in Hc.
  unfold st_pop in Hc. destruct (st_stack st) as [|t ts] eqn:Hst; [done|].
  destruct (frame_ok_pop _ _ _ _ Hf Hst) as (v & vs & -> & _ & Hv & [Hs Hls]). simpl in *.
  injection Hc as <- Hlin%report_nil.
  destruct (Forall2_lookup_r _ _ _ _ _ Hls Hslot) as (o & Ho & Hok). simpl in Ho.
  unfold resize_locals. rewrite bool_decide_false
    by (rewrite (Forall2_length Hls); lia).
  rewrite Ho. apply (slot_ok_dead env a) in Hok; [|done].
  destruct o as [w|]; [rewrite Hok by done|].
  all: split; [done|]; simpl; apply Forall2_insert; [done|]; by exists v.
Qed.

Lemma frame_ok_slot fr st slot t :
  frame_ok a fr st → st_locals st !! slot = Some (Live t) →
  ∃ v, locals fr !! slot = Some (Some v) ∧ has_type a v t.
Proof.
  intros [_ Hls] Hslot.
  destruct (Forall2_lookup_r _ _ _ _ _ Hls Hslot) as (o & ? & v & -> & ?). eauto.
Qed.

Lemma check_load_field_ok pc slot path fr st st' :
  check_load_field func m pc slot path st = (st', []) → slot < length (st_locals st) →
  path ≠ [] → fields_resolve m (Instruction.LoadField slot path) st = true →
  frame_ok a fr st → step_ok st' (exec_load_field slot path fr).
Proof.
  unfold check_load_field, exec_load_field, fields_resolve. intros Hc Hl Hp Hres Hf.
  destruct (lookup_lt_is_Some_2 _ _ Hl) as [s Hslot]. rewrite Hslot in Hc, Hres.
  destruct s as [t|]; [|done]. destruct path as [|f path]; [done|].
  apply bool_decide_eq_true in Hres as [t' Hres]. rewrite Hres in Hc. simpl in Hc.
  injection Hc as <- _. destruct (frame_ok_slot _ _ _ _ Hf Hslot) as (v & -> & Hv).
  destruct (read_field_path_ok _ 0 _ _ _ Hres Hv) as (v' & Hrd & Hv').
  simpl. simpl in Hrd. rewrite Hrd. by apply frame_ok_push.
Qed.

Lemma check_store_field_ok pc slot path fr st st' :
  check_store_field func m pc slot path st = (st', []) → slot < length (st_locals st) →
  path ≠ [] → fields_resolve m (Instruction.StoreField slot path) st = true →
  frame_ok a fr st → step_ok st' (exec_store_field slot path fr).
Proof.
  unfold check_store_field, exec_store_field, fields_resolve. intros Hc Hl Hp Hres Hf.
  destruct (lookup_lt_is_Some_2 _ _ Hl) as [s Hslot]. rewrite Hslot in Hc, Hres.
  unfold st_pop in Hc. destruct (st_stack st) as [|tw ts] eqn:Hst; [done|].
  destruct (frame_ok_pop _ _ _ _ Hf Hst) as (w & vs & -> & _ & Hw & Hf').
  destruct s as [t|]; [|done]. destruct path as [|f path]; [done|].
  apply bool_decide_eq_true in Hres as [t' Hres]. simpl in Hc. injection Hc as <- Hcw.
  unfold check_field_write in Hcw. rewrite Hres in Hcw.
  destruct (match t with AbstractType.Struct _ => _ | _ => _ end); [done|].
  destruct (AbstractType.is_struct t') eqn:Hstr; [done|].
  apply report_nil, negb_false_iff, bool_decide_eq_true in Hcw as ->.
  destruct (frame_ok_slot _ _ _ _ Hf' Hslot) as (v & Hv & Htv). cbn [mbind outcome_bind].
  rewrite Hv. cbn [mjoin option_join ok_or mbind outcome_bind].
  destruct (write_field_path_ok (f :: path) 0 v t t' w) as (v' & -> & Hv'); [done..|].
  destruct Hf' as [Hs' Hls']. split; [done|]. simpl.
  rewrite <-(list_insert_id (st_locals st) slot (Live t)) by done.
  apply Forall2_insert; [done|]. by exists v'.
Qed.

(** ** Operators *)
Lemma check_binop_ok pc want res fr st st' :
  check_binop func pc want res st = (st', []) → frame_ok a fr st →
  ∃ l r fr', pop2 fr = Ok (l, r, fr') ∧ has_type a l want ∧ has_type a r want ∧
    ∀ v, has_type a v res → frame_ok a (push v fr') st'.
Proof.
  unfold check_binop. intros Hc Hf.
  destruct (pop_expect func pc want "right operand" st) as [st1 e1] eqn:H1.
  destruct (pop_expect func pc want "left operand" st1) as [st2 e2] eqn:H2.
  injection Hc as <- [-> ->]%app_nil.
  destruct (pop_expect_ok _ _ _ _ _ _ H1 Hf) as (_ & _ & r & fr1 & Hp1 & Hr & Hf1).
  destruct (pop_expect_ok _ _ _ _ _ _ H2 Hf1) as (_ & _ & l & fr2 & Hp2 & Hl & Hf2).
  exists l, r, fr2. unfold pop2. rewrite Hp1. simpl. rewrite Hp2.
  split_and!; [done..|]. intros v Hv. by apply frame_ok_push.
Qed.

Lemma exec_arith_ok pc op fr st st' :
  check_binop func pc AbstractType.U64 AbstractType.U64 st = (st', []) → frame_ok a fr st →
  step_ok st' (exec_arith op fr).
Proof.
  intros Hc Hf. destruct (check_binop_ok _ _ _ _ _ _ Hc Hf) as (l & r & fr' & Hp & Hl & Hr & Hk).
  unfold exec_arith. rewrite Hp. simpl.
  apply has_type_u64 in Hl as [x ->], Hr as [y ->]. unfold arith_op. simpl.
  destruct (op x y); simpl; [by apply Hk|done].
Qed.

Lemma exec_div_ok pc op fr st st' :
  check_binop func pc AbstractType.U64 AbstractType.U64 st = (st', []) → frame_ok a fr st →
  step_ok st' (exec_div op fr).
Proof.
  intros Hc Hf. destruct (check_binop_ok _ _ _ _ _ _ Hc Hf) as (l & r & fr' & Hp & Hl & Hr & Hk).
  unfold exec_div. rewrite Hp. simpl. case_bool_decide; [done|].
  apply has_type_u64 in Hl as [x ->], Hr as [y ->]. unfold arith_op. simpl.
  destruct (op x y); simpl; [by apply Hk|done].
Qed.

Lemma exec_cmp_ok pc swap negate fr st st' :
  check_binop func pc AbstractType.U64 AbstractType.Bool st = (st', []) → frame_ok a fr st →
  step_ok st' (exec_cmp swap negate fr).
Proof.
  intros Hc Hf. destruct (check_binop_ok _ _ _ _ _ _ Hc Hf) as (l & r & fr' & Hp & Hl & Hr & Hk).
  unfold exec_cmp. rewrite Hp. simpl.
  apply has_type_u64 in Hl as [x ->], Hr as [y ->]. destruct swap; by apply Hk.
Qed.

Lemma exec_logic_ok pc op fr st st' :
  check_binop func pc AbstractType.Bool AbstractType.Bool st = (st', []) → frame_ok a fr st →
  step_ok st' (exec_logic op fr).
Proof.
  intros Hc Hf. destruct (check_binop_ok _ _ _ _ _ _ Hc Hf) as (l & r & fr' & Hp & Hl & Hr & Hk).
  unfold exec_logic. rewrite Hp. simpl.
  apply has_type_bool in Hl as [x ->], Hr as [y ->]. by apply Hk.
Qed.

Lemma exec_not_ok pc fr st st' :
  check_not func pc st = (st', []) → frame_ok a fr st → step_ok st' (exec_not fr).
Proof.
  unfold check_not, exec_not. intros Hc Hf.
  destruct (pop_expect _ _ _ _ _) as [st1 e1] eqn:H1. injection Hc as <- ->.
  destruct (pop_expect_ok _ _ _ _ _ _ H1 Hf) as (_ & _ & v & fr1 & -> & Hv & Hf1).
  apply has_type_bool in Hv as [b ->]. by apply frame_ok_push.
Qed.

Lemma exec_eq_ok pc negate fr st st' :
  check_eq func pc st = (st', []) → frame_ok a fr st → step_ok st' (exec_eq negate fr).
Proof.
  unfold check_eq, exec_eq, pop2. intros Hc Hf. simpl in Hc. injection Hc as <- He.
  destruct (st_stack st) as [|tr [|tl ts]] eqn:Hst; simplify_eq/=.
  destruct (frame_ok_pop _ _ _ _ Hf Hst) as (r & vs & -> & _ & Hr & Hf1). simpl.
  destruct (frame_ok_pop _ _ _ _ Hf1 eq_refl) as (l & vs' & -> & _ & Hl & Hf2). simpl.
  rewrite (has_type_linear _ _ _ _ Hr), (has_type_linear _ _ _ _ Hl).
  destruct (AbstractType.is_linear tl || AbstractType.is_linear tr); [done|].
  by apply (frame_ok_push (set_stack (set_stack fr vs) vs') (with_stack st ts)).
Qed.

(** ** Structs and tuples *)
Lemma check_new_fields_ok pc fields fr st st' :
  check_new_fields func pc fields st = (st', []) → frame_ok a fr st →
  st = st_push_all ((from_type ∘ fd_ty) <$> fields) st'.
Proof.
  revert fr st. induction fields as [|fd fields IH]; intros fr st Hc Hf; simpl in Hc.
  { injection Hc as <-. by destruct st. }
  destruct (pop_expect _ _ _ _ _) as [st1 e1] eqn:H1.
  destruct (check_new_fields func pc fields st1) as [st2 e2] eqn:H2.
  injection Hc as <- [-> ->]%app_nil.
  destruct (pop_expect_ok _ _ _ _ _ _ H1 Hf) as (Hst & Heq & v & fr1 & _ & _ & Hf1).
  pose proof (IH _ _ H2 Hf1) as Hst1. rewrite Hst1 in Hst, Heq. simpl in Hst.
  unfold st_push_all, with_stack in *. destruct st; simplify_eq/=. done.
Qed.

Lemma zip_fields_ok fds vs :
  Forall2 (has_type a) vs ((from_type ∘ fd_ty) <$> fds) →
  Forall2 (field_ok env a) (zip (fd_name <$> fds) vs) fds.
Proof.
  revert vs. induction fds as [|fd fds IH]; intros vs Hf; inversion Hf; subst; simpl;
    constructor; auto. by split.
Qed.

Lemma check_new_struct_ok pc deps type_name field_names fr st st' :
  check_new_struct func m pc type_name field_names st = (st', []) →
  check_struct_instr m func pc type_name field_names = [] →
  frame_ok a fr st → step_ok st' (exec_new_struct deps m a type_name field_names fr).
Proof.
  unfold check_new_struct, check_struct_instr, exec_new_struct. intros Hc Hs Hf.
  destruct (parse_module_ref type_name) eqn:Hn; [done|].
  destruct (get_struct m type_name) as [def|] eqn:Hdef; [|done].
  apply report_nil, bool_decide_eq_false, dec_stable in Hs as <-.
  destruct (check_new_fields _ _ _ _) as [st1 e] eqn:H1. injection Hc as <- ->.
  pose proof (check_new_fields_ok _ _ _ _ _ H1 Hf) as Heq.
  assert (Hlen : length (sd_fields def) ≤ length (st_stack st)).
  { rewrite Heq. simpl. rewrite length_app, length_fmap, length_reverse. lia. }
  destruct (frame_ok_split _ _ (length (fd_name <$> sd_fields def)) Hf) as (vs & Hp & Hvs & Hf1).
  { by rewrite length_fmap. }
  simpl. rewrite Hp. simpl. rewrite length_fmap in *.
  assert (Hdrop : st_drop (length (sd_fields def)) st = st1).
  { rewrite Heq. unfold st_drop, st_push_all, with_stack. simpl.
    rewrite drop_app_length' by by rewrite length_fmap, length_reverse. by destruct st1. }
  rewrite Hdrop in Hf1. apply frame_ok_push; [done|].
  apply (local_struct_type _ _ _ Hn Hdef). do 2 eexists.
  split_and!; [done|by apply parse_qualify|]. apply zip_fields_ok.
  rewrite Heq in Hvs. simpl in Hvs.
  rewrite take_app_length' in Hvs by by rewrite length_fmap, length_reverse.
  by rewrite <-fmap_reverse, reverse_involutive in Hvs.
Qed.

Lemma check_get_field_ok pc field fr st st' :
  check_get_field func m pc field st = (st', []) →
  fields_resolve m (Instruction.GetField field) st = true →
  frame_ok a fr st → step_ok st' (exec_get_field field fr).
Proof.
  unfold check_get_field, exec_get_field, fields_resolve, st_pop. intros Hc Hres Hf.
  destruct (st_stack st) as [|t ts] eqn:Hst; [done|].
  apply bool_decide_eq_true in Hres as [t' Hres].
  destruct (frame_ok_pop _ _ _ _ Hf Hst) as (v & vs & -> & _ & Hv & Hf').
  destruct (resolve_field_type_ok _ _ _ _ Hres Hv)
    as (tn & n & def & fs & fd & -> & -> & Hn & Hdef & Htn & Hfs & Hfd & ->).
  destruct (find_field_ok _ _ _ _ Hfs Hfd) as (v1 & Hff & Hv1).
  cbn [head] in Hc. rewrite Hres in Hc. injection Hc as <- _.
  cbn [mbind outcome_bind]. rewrite Hff. by apply frame_ok_push.
Qed.

(** The loop of [UnpackStruct] on distinct names. *)
Lemma unpack_fields_ok tn (l : list (string * Value.t)) fr :
  NoDup l.*1 →
  unpack_fields tn l.*1 (list_to_map l) fr = Ok (set_stack fr (reverse l.*2 ++ stack fr)).
Proof.
  revert fr. induction l as [|[n v] l IH]; intros fr Hnd; [by destruct fr|].
  apply list.NoDup_cons in Hnd as [Hn Hnd]. simpl. rewrite lookup_insert_eq. simpl.
  rewrite delete_insert_id by by apply not_elem_of_list_to_map_1.
  rewrite IH by done. f_equal. unfold set_stack. simpl. f_equal.
  by rewrite reverse_cons, <-app_assoc.
Qed.

Lemma fields_names fs fds : Forall2 (field_ok env a) fs fds → fs.*1 = fd_name <$> fds.
Proof. induction 1 as [|f fd fs fds [Hn _] _ IH]; cbn; rewrite ?Hn, ?IH; congruence. Qed.
Lemma fields_values fs fds :
  Forall2 (field_ok env a) fs fds → Forall2 (has_type a) fs.*2 ((from_type ∘ fd_ty) <$> fds).
Proof. induction 1 as [|f fd fs fds [_ ?] _ IH]; simpl; by constructor. Qed.

Lemma check_unpack_struct_ok pc type_name field_names fr st st' :
  check_unpack_struct func m pc type_name field_names st = (st', []) →
  check_struct_instr m func pc type_name field_names = [] →
  frame_ok a fr st → step_ok st' (exec_unpack_struct field_names fr).
Proof.
  unfold check_unpack_struct, check_struct_instr, exec_unpack_struct, st_pop. intros Hc Hs Hf.
  destruct (parse_module_ref type_name) eqn:Hn; [done|].
  destruct (get_struct m type_name) as [def|] eqn:Hdef; [|done].
  apply report_nil, bool_decide_eq_false, dec_stable in Hs as <-.
  destruct (st_stack st) as [|t ts] eqn:Hst; [done|].
  destruct (frame_ok_pop _ _ _ _ Hf Hst) as (v & vs & -> & _ & Hv & Hf'). simpl in Hc.
  case_bool_decide as Ht; [subst t; injection Hc as <-|done].
  apply (local_struct_type _ _ _ Hn Hdef) in Hv as (tn & fs & -> & Htn & Hfs). simpl.
  rewrite <-(fields_names _ _ Hfs), <-fmap_reverse, unpack_fields_ok.
  - rewrite <-fmap_reverse, reverse_involutive. apply frame_ok_push_all; [done|].
    by apply fields_values.
  - rewrite fmap_reverse, reverse_Permutation, (fields_names _ _ Hfs).
    apply find_first_Some in Hdef as [Hdef _]. by apply (structs_field_names _ Hstructs).
Qed.

Lemma check_pop_ok pc fr st st' :
  check_pop func pc st = (st', []) → frame_ok a fr st → step_ok st' (exec_pop fr).
Proof.
  unfold check_pop, exec_pop, st_pop. intros Hc Hf.
  destruct (st_stack st) as [|t ts] eqn:Hst; [done|].
  destruct (frame_ok_pop _ _ _ _ Hf Hst) as (v & vs & -> & _ & Hv & Hf'). by simplify_eq/=.
Qed.

Lemma check_dup_ok pc fr st st' :
  check_dup func pc st = (st', []) → frame_ok a fr st → step_ok st' (exec_dup fr).
Proof.
  unfold check_dup, exec_dup, st_peek, peek. intros Hc Hf.
  destruct (st_stack st) as [|t ts] eqn:Hst; [done|].
  destruct (frame_ok_pop _ _ _ _ Hf Hst) as (v & vs & _ & -> & Hv & _). simpl in *.
  destruct (AbstractType.is_linear t); [done|]. injection Hc as <-. by apply frame_ok_push.
Qed.

Lemma check_make_tuple_ok pc n fr st st' :
  check_make_tuple func pc n st = (st', []) → frame_ok a fr st →
  step_ok st' (exec_make_tuple n fr).
Proof.
  unfold check_make_tuple, exec_make_tuple. intros Hc Hf. case_bool_decide; [done|].
  injection Hc as <-.
  destruct (frame_ok_split _ _ n Hf) as (vs & -> & Hvs & Hf'); [lia|].
  apply frame_ok_push; [done|]. by apply has_type_tuple.
Qed.

Lemma check_unpack_tuple_ok pc n fr st st' :
  check_unpack_tuple func pc n st = (st', []) → frame_ok a fr st →
  step_ok st' (exec_unpack_tuple n fr).
Proof.
  unfold check_unpack_tuple, exec_unpack_tuple, st_pop. intros Hc Hf.
  destruct (st_stack st) as [|t ts] eqn:Hst; [done|].
  destruct (frame_ok_pop _ _ _ _ Hf Hst) as (v & vs & -> & _ & Hv & Hf'). simpl in Hc.
  destruct t; try done. case_bool_decide as Hn; [done|]. injection Hc as <-.
  apply has_type_tuple_inv in Hv as (ws & -> & Hws). simpl.
  rewrite bool_decide_true by by rewrite (Forall2_length Hws).
  by apply frame_ok_push_all.
Qed.

(** Every instruction that neither transfers control nor calls. *)
Definition is_plain (i : Instruction.t) : bool :=
  match i with
  | Instruction.Call _ | Instruction.Return | Instruction.Jump _
  | Instruction.JumpIf _ | Instruction.JumpIfNot _ => false
  | _ => true
  end.

Lemma exec_instr_ok {S} (vm : Vm S) deps natives cfg pc i fr st st' :
  is_plain i = true →
  check_simple func m deps natives pc i st = (st', []) →
  structural_check_instr m deps cfg func pc i = [] →
  length (st_locals st) = fn_local_count func → fields_resolve m i st = true →
  frame_ok a fr st → step_ok st' (exec_instr vm m a i fr).
Proof.
  intros Hi Hc Hs Hl Hr Hf.
  assert (Hslot : ∀ slot e, report (bool_decide (fn_local_count func ≤ slot)) e = [] →
    slot < length (st_locals st)).
  { intros slot e ?%report_nil%bool_decide_eq_false. lia. }
  assert (Hpath : ∀ (path : list string) e, report (bool_decide (path = [])) e = [] → path ≠ []).
  { by intros path e ?%report_nil%bool_decide_eq_false. }
  destruct i; try done; simpl in Hc, Hs |- *;
    try (injection Hc as <-; by apply frame_ok_push).
  - eapply check_load_ok; eauto.
  - eapply check_store_ok; eauto.
  - apply app_nil in Hs as [??]. eapply check_load_field_ok; eauto.
  - apply app_nil in Hs as [??]. eapply check_store_field_ok; eauto.
  - by eapply exec_arith_ok.
  - by eapply exec_arith_ok.
  - by eapply exec_arith_ok.
  - by eapply exec_div_ok.
  - by eapply exec_div_ok.
  - by eapply exec_eq_ok.
  - by eapply exec_eq_ok.
  - by eapply exec_cmp_ok.
  - by eapply exec_cmp_ok.
  - by eapply exec_cmp_ok.
  - by eapply exec_cmp_ok.
  - by eapply exec_not_ok.
  - by eapply exec_logic_ok.
  - by eapply exec_logic_ok.
  - by eapply check_new_struct_ok.
  - by eapply check_get_field_ok.
  - by eapply check_unpack_struct_ok.
  - by eapply check_pop_ok.
  - by eapply check_dup_ok.
  - by eapply check_make_tuple_ok.
  - by eapply check_unpack_tuple_ok.
Qed.
End instrs.

(** ** What the abstract step keeps *)
Section shape.
Context `{PrefixHex} (func : Function) (m : VmModule).
Context (deps : gmap Address VmModule) (natives : list NativeSig).

(** Same number of slots, same reachability. *)
Definition same_shape (st st' : AbstractState) : Prop :=
  length (st_locals st') = length (st_locals st) ∧ reachable st' = reachable st.

Lemma pop_expect_shape pc want what st st' e :
  pop_expect func pc want what st = (st', e) → same_shape st st'.
Proof. unfold pop_expect, st_pop. intros. case_match; by simplify_eq/=. Qed.

Lemma check_new_fields_shape pc fields st st' e :
  check_new_fields func pc fields st = (st', e) → same_shape st st'.
Proof.
  revert st e. induction fields as [|fd fields IH]; intros st e; simpl; [by intros; simplify_eq|].
  destruct (pop_expect _ _ _ _ _) as [st1 e1] eqn:H1.
  destruct (check_new_fields _ _ _ _) as [st2 e2] eqn:H2. intros; simplify_eq.
  apply pop_expect_shape in H1 as [??]. apply IH in H2 as [??]. split; congruence.
Qed.

Lemma check_call_shape pc name st st' e :
  check_call func m deps natives name pc st = (st', e) → same_shape st st'.
Proof.
  unfold check_call, check_native_call, pop_and_check_params. intros Hc.
  repeat case_match; by simplify_eq/=.
Qed.

Lemma check_simple_shape pc i st st' e :
  i ≠ Instruction.Return →
  check_simple func m deps natives pc i st = (st', e) → same_shape st st'.
Proof.
  intros Hi Hc. destruct i; simpl in Hc; try (by simplify_eq/=); try done;
    try by eapply check_call_shape.
  all: unfold check_load, check_store, check_load_field, check_store_field, check_binop,
    check_eq, check_not, check_new_struct, check_get_field, check_unpack_struct, check_pop,
    check_dup, check_make_tuple, check_unpack_tuple, st_pop in Hc.
  all: repeat case_match; simplify_eq/=; try done;
    repeat match goal with
    | H : pop_expect _ _ _ _ _ = _ |- _ => apply pop_expect_shape in H as [??]
    | H : check_new_fields _ _ _ _ = _ |- _ => apply check_new_fields_shape in H as [??]
    end;
    split; simpl; rewrite ?length_insert; congruence.
Qed.
End shape.
