(* ===== verification/VerifierSound.v ===== *)
(** * Soundness of the bytecode verifier

    A call into a verified module, linked against verified dependencies and
    natives that respect their signatures, never fails with a stack, type,
    move, visibility or resolution error, never panics, and returns a value of
    the declared type.  The two things the verifier leaves open are hypotheses
    here: every field path resolves ([fields_checked]) and the fields of a
    struct have distinct names ([structs_ok]). *)

From S2P Require Import Prelude Address VmTypes Gas Vm VmProps VerifierStructural.
From S2P Require Import VerifierAbstract VerifierTyping.
Import AbstractType (display_name, from_type).

(** ** The abstract loop *)
Section loop.
Context `{PrefixHex}.
Context (func : Function) (m : VmModule).
Context (deps : gmap Address VmModule) (natives : list NativeSig).
Notation check_code := (check_code func m deps natives).
Notation check_instr := (check_instr func m deps natives).

(** The instructions the loop interprets, each with its state. *)
Fixpoint reached (pc : nat) (code : list Instruction.t) (st : AbstractState)
    (pending : gmap nat AbstractState) : list (Instruction.t * AbstractState) :=
  match code with
  | [] => []
  | instr :: code =>
      match apply_pending func pc st pending with
      | inr _ => []
      | inl st =>
          let pending := delete pc pending in
          if reachable st then
            let '(st', pending, _) := check_instr pc instr st pending in
            (instr, st) :: reached (S pc) code st' pending
          else reached (S pc) code st pending
      end
  end.

(** Every field access the function can reach resolves. *)
Definition fields_checked : bool :=
  forallb (λ p, fields_resolve m (fst p) (snd p))
    (reached 0 (fn_code func) (initial_state func) ∅).

Definition sized (st : AbstractState) : Prop := length (st_locals st) = fn_local_count func.

(** The rest of the check, from [pc] on, reports no error. *)
Record ok_from (pc : nat) (st : AbstractState) (pending : gmap nat AbstractState) : Prop := {
  from_code : ∃ st' pending', check_code pc (drop pc (fn_code func)) st pending = (st', pending', [])
    ∧ check_end func st' pending' = [];
  from_fields : forallb (λ p, fields_resolve m (fst p) (snd p))
    (reached pc (drop pc (fn_code func)) st pending) = true;
  from_sized : sized st;
  from_pending : map_Forall (λ _ s, sized s ∧ reachable s = true) pending;
}.

Lemma merge_locals_length fn pc n cur inc l :
  merge_locals fn pc n cur inc = inl l → length l = length cur.
Proof.
  revert n inc l. induction cur as [|x xs IH]; intros n [|y ys] l; simpl; try (by intros; simplify_eq).
  destruct (merge_locals _ _ (S n) xs ys) eqn:Hr; repeat case_match; intros; simplify_eq; simpl;
    f_equal; eauto.
Qed.

Lemma merge_sized cur inc pc fn st :
  merge cur inc pc fn = inl st → sized cur → sized inc →
  sized st ∧ (reachable cur || reachable inc = reachable st).
Proof.
  unfold merge, sized. intros Hm Hc Hi.
  destruct (reachable inc) eqn:Hri, (reachable cur) eqn:Hrc; simplify_eq/=; try done;
    try by rewrite ?Hri, ?Hrc.
  repeat case_bool_decide; simplify_eq.
  destruct (merge_locals _ _ _ _ _) as [l|] eqn:Hml; simplify_eq/=. split; [|done].
  rewrite <-Hc. by eapply merge_locals_length.
Qed.

Lemma schedule_jump_pending pending pc offset st pending' :
  schedule_jump func pending pc offset st = (pending', []) → sized st → reachable st = true →
  map_Forall (λ _ s, sized s ∧ reachable s = true) pending →
  map_Forall (λ _ s, sized s ∧ reachable s = true) pending' ∧
  (∀ env a fr, (0 < offset)%Z → frame_ok env a fr st →
    ∃ s, pending' !! Z.to_nat (Z.of_nat pc + offset) = Some s ∧ frame_ok env a fr s) ∧
  (∀ env a fr t s, pending !! t = Some s → frame_ok env a fr s →
    ∃ s', pending' !! t = Some s' ∧ frame_ok env a fr s').
Proof.
  unfold schedule_jump, merge_at. intros Hs Hz Hr Hp. case_bool_decide; last first.
  { simplify_eq. split_and!; [done|lia|eauto]. }
  set (t0 := Z.to_nat (Z.of_nat pc + offset)) in *.
  destruct (pending !! t0) as [cur|] eqn:Ht0; last first.
  { simplify_eq. split_and!.
    - by apply map_Forall_insert_2.
    - intros. exists st. by rewrite lookup_insert_eq.
    - intros env a fr t s Ht Hf. exists s. rewrite lookup_insert_ne; [done|]. by intros ->; simplify_eq. }
  destruct (merge cur st _ _) as [mg|] eqn:Hm; simplify_eq.
  destruct (Hp _ _ Ht0) as [Hzc Hrc]. destruct (merge_sized _ _ _ _ _ Hm Hzc Hz) as [Hzm Hrm].
  rewrite Hrc in Hrm. simpl in Hrm.
  split_and!.
  - apply map_Forall_insert_2; [by split|done].
  - intros env a fr _ Hf. exists mg. rewrite lookup_insert_eq. split; [done|].
    eapply merge_ok; [done|congruence|by right].
  - intros env a fr t s Ht Hf. destruct (decide (t = t0)) as [->|].
    + simplify_eq. exists mg. rewrite lookup_insert_eq. split; [done|].
      eapply merge_ok; [done|congruence|by left].
    + exists s. by rewrite lookup_insert_ne.
Qed.

Lemma check_instr_pending pc i st pending st' pending' :
  check_instr pc i st pending = (st', pending', []) → sized st → reachable st = true →
  map_Forall (λ _ s, sized s ∧ reachable s = true) pending →
  sized st' ∧ map_Forall (λ _ s, sized s ∧ reachable s = true) pending' ∧
  (∀ env a fr t s, pending !! t = Some s → frame_ok env a fr s →
    ∃ s', pending' !! t = Some s' ∧ frame_ok env a fr s').
Proof.
  intros Hc Hz Hr Hp.
  assert (Hsimple : ∀ st1, check_simple func m deps natives pc i st = (st1, []) → sized st1).
  { intros st1 Hs. assert (i = Instruction.Return ∨ i ≠ Instruction.Return) as [->|]
      by (destruct i; auto).
    - simpl in Hs. by simplify_eq.
    - apply check_simple_shape in Hs as [Hl _]; [|done]. unfold sized. congruence. }
  assert (Hcond : ∀ o st1 e1 p e2,
    pop_expect func pc AbstractType.Bool "bool" st = (st1, e1) →
    schedule_jump func pending pc o st1 = (p, e2) → e1 ++ e2 = [] →
    sized st1 ∧ map_Forall (λ _ s, sized s ∧ reachable s = true) p ∧
    (∀ env a fr t s, pending !! t = Some s → frame_ok env a fr s →
      ∃ s', p !! t = Some s' ∧ frame_ok env a fr s')).
  { intros o st1 e1 p e2 [Hl1 Hr1]%pop_expect_shape Hj [-> ->]%app_nil.
    assert (sized st1) by (unfold sized; congruence). rewrite Hr in Hr1.
    destruct (schedule_jump_pending _ _ _ _ _ Hj) as (? & _ & ?); done. }
  destruct i; cbn [VerifierAbstract.check_instr] in Hc;
    try (destruct (check_simple _ _ _ _ _ _ _) as [st1 e1]; simplify_eq; split_and!; by eauto).
  - destruct (schedule_jump _ _ _ _ _) as [p e] eqn:Hj; simplify_eq.
    by destruct (schedule_jump_pending _ _ _ _ _ Hj Hz Hr Hp) as (? & _ & ?).
  - destruct (pop_expect _ _ _ _ _) as [st1 e1] eqn:H1.
    destruct (schedule_jump _ _ _ _ _) as [p e] eqn:Hj. injection Hc as <- <- He. by eapply Hcond.
  - destruct (pop_expect _ _ _ _ _) as [st1 e1] eqn:H1.
    destruct (schedule_jump _ _ _ _ _) as [p e] eqn:Hj. injection Hc as <- <- He. by eapply Hcond.
Qed.

(** One iteration of an error-free check. *)
Lemma ok_from_step pc st pending i :
  ok_from pc st pending → fn_code func !! pc = Some i →
  ∃ st1, apply_pending func pc st pending = inl st1 ∧ sized st1 ∧
    if reachable st1 then
      fields_resolve m i st1 = true ∧
      ∃ st' pending', check_instr pc i st1 (delete pc pending) = (st', pending', []) ∧
        ok_from (S pc) st' pending'
    else ok_from (S pc) st1 (delete pc pending).
Proof.
  intros [(st' & pending' & Hc & He) Hf Hz Hp] Hi.
  rewrite (drop_S _ _ _ Hi) in Hc, Hf. simpl in Hc, Hf.
  destruct (apply_pending func pc st pending) as [st1|] eqn:Ha; [|done].
  exists st1. split; [done|].
  assert (Hz1 : sized st1).
  { unfold apply_pending in Ha. destruct (pending !! pc) as [inc|] eqn:Hinc; [|by simplify_eq].
    apply (merge_sized _ _ _ _ _ Ha Hz), (Hp _ _ Hinc). }
  assert (Hp1 : map_Forall (λ _ s, sized s ∧ reachable s = true) (delete pc pending))
    by by apply map_Forall_delete.
  split; [done|]. destruct (reachable st1) eqn:Hr; [|split; by eauto].
  destruct (check_instr pc i st1 (delete pc pending)) as [[st2 p2] e2] eqn:Hci.
  destruct (check_code (S pc) _ st2 p2) as [[st3 p3] e3] eqn:Hcc.
  injection Hc as <- <- [-> ->]%app_nil. simpl in Hf. apply andb_true_iff in Hf as [Hf1 Hf2].
  split; [done|]. exists st2, p2. split; [done|].
  destruct (check_instr_pending _ _ _ _ _ _ Hci Hz1 Hr Hp1) as (? & ? & _). split; eauto.
Qed.

(** The frame is described by the state, or by one that a jump has left. *)
Definition covered (env : gmap Address VmModule) (a : Address) (k : nat) (fr : Frame)
    (st : AbstractState) (pending : gmap nat AbstractState) : Prop :=
  pc fr = k ∧ reachable st = true ∧ frame_ok env a fr st ∨
  k ≤ pc fr ≤ length (fn_code func) ∧
    ∃ s, pending !! pc fr = Some s ∧ frame_ok env a fr s.

Lemma ok_from_end st pending :
  ok_from (length (fn_code func)) st pending →
  reachable st = false ∧ pending !! length (fn_code func) = None.
Proof.
  intros [(st' & pending' & Hc & He) _ _ _]. rewrite drop_all in Hc. simpl in Hc. simplify_eq.
  unfold check_end in He.
  destruct (reachable st'); [done|]. by destruct (pending' !! length (fn_code func)).
Qed.

(** The check catches up with a covered frame. *)
Lemma advance env a k fr st pending :
  ok_from k st pending → k ≤ length (fn_code func) → covered env a k fr st pending →
  ∃ i st1 p1 st' pending', fn_code func !! pc fr = Some i ∧ sized st1 ∧
    reachable st1 = true ∧ frame_ok env a fr st1 ∧ fields_resolve m i st1 = true ∧
    map_Forall (λ _ s, sized s ∧ reachable s = true) p1 ∧
    check_instr (pc fr) i st1 p1 = (st', pending', []) ∧ ok_from (S (pc fr)) st' pending'.
Proof.
  remember (length (fn_code func) - k) as n eqn:Hn. revert k st pending Hn.
  induction n as [|n IH]; intros k st pending Hn Hok Hk Hcov.
  { assert (k = length (fn_code func)) as -> by lia.
    destruct (ok_from_end _ _ Hok) as [Hr Hpe]. exfalso.
    destruct Hcov as [(_ & ? & _)|(? & s & Hs & _)]; [congruence|].
    by replace (pc fr) with (length (fn_code func)) in Hs by lia; simplify_eq. }
  destruct (lookup_lt_is_Some_2 (fn_code func) k) as [i Hi]; [lia|].
  destruct (ok_from_step _ _ _ _ Hok Hi) as (st1 & Ha & Hz1 & Hnext).
  unfold apply_pending in Ha. pose proof (from_pending _ _ _ Hok) as Hp.
  pose proof (from_sized _ _ _ Hok) as Hz.
  assert (Hp1 : map_Forall (λ _ s, sized s ∧ reachable s = true) (delete k pending))
    by by apply map_Forall_delete.
  destruct (decide (pc fr = k)) as [Hpc|Hpc].
  - assert (reachable st1 = true ∧ frame_ok env a fr st1) as [Hr1 Hf1].
    { destruct (pending !! k) as [inc|] eqn:Hinc.
      - destruct (Hp _ _ Hinc) as [Hzi Hri].
        eapply merge_ok; [done|congruence|]. destruct Hcov as [(_ & ? & ?)|(_ & s & Hs & ?)].
        + by left.
        + right. rewrite Hpc in Hs. by simplify_eq.
      - injection Ha as <-. destruct Hcov as [(_ & ? & ?)|(_ & s & Hs & ?)]; [done|].
        rewrite Hpc in Hs. congruence. }
    rewrite Hr1 in Hnext. destruct Hnext as (Hfr & st' & p' & Hci & Hok').
    subst k. eauto 15.
  - destruct Hcov as [(? & _)|(Hle & s & Hs & Hfs)]; [done|].
    assert (Hs' : delete k pending !! pc fr = Some s) by by rewrite lookup_delete_ne.
    destruct (reachable st1) eqn:Hr1.
    + destruct Hnext as (Hfr & st' & p' & Hci & Hok').
      destruct (check_instr_pending _ _ _ _ _ _ Hci Hz1 Hr1 Hp1) as (_ & _ & Hkeep).
      destruct (Hkeep _ _ _ _ _ Hs' Hfs) as (s' & ? & ?).
      apply (IH (S k) st' p'); [lia|done|lia|]. right. split; [lia|eauto].
    + apply (IH (S k) st1 (delete k pending)); [lia|done|lia|]. right. split; [lia|eauto].
Qed.
End loop.

(** ** Computations that do not go wrong *)
Section safe.
Context {S : Type}.

(** From every meter and native state: a result in [Q], a benign error or
    no result within the fuel, and never a panic. *)
Definition safe {A} (m : VmM S A) (Q : A → Prop) : Prop :=
  ∀ σ, match fst (m σ) with
       | Ok x => Q x
       | Err e => benign e = true
       | Panic _ => False
       | NoFuel => True
       end.

Lemma safe_bind {A B} (m : VmM S A) (f : A → VmM S B) P Q :
  safe m P → (∀ x, P x → safe (f x) Q) → safe (m ≫= f) Q.
Proof.
  intros Hm Hf σ. specialize (Hm σ). unfold mbind, VmM_bind.
  destruct (m σ) as [[x|e|s|] σ']; try done. by apply Hf.
Qed.
Lemma safe_mono {A} (m : VmM S A) (P Q : A → Prop) :
  safe m P → (∀ x, P x → Q x) → safe m Q.
Proof. intros Hm HPQ σ. specialize (Hm σ). destruct (fst (m σ)); auto. Qed.
Lemma safe_ret {A} (x : A) (Q : A → Prop) : Q x → safe (mret x : VmM S A) Q.
Proof. by intros HQ σ. Qed.
Lemma safe_lift {A} (x : A) (Q : A → Prop) (o : outcome VmError.t A) :
  o = Ok x → Q x → safe (lift o : VmM S A) Q.
Proof. by intros -> HQ σ. Qed.
Lemma safe_charge cost : safe (vm_charge (S:=S) cost) (λ _, True).
Proof. intros [g s]. unfold vm_charge, charge. simpl. by case_bool_decide. Qed.
End safe.

(** ** What an accepting verifier run says of each function *)
Lemma mjoin_nil {A} (l : list (list A)) : mjoin l = [] ↔ Forall (λ x, x = []) l.
Proof.
  induction l as [|x l IH]; simpl; [done|]. rewrite app_nil, IH. split.
  - intros [??]; by constructor.
  - by intros [??]%list.Forall_cons.
Qed.

Section verify.
Context `{PrefixHex} (m : VmModule) (deps : gmap Address VmModule).
Context (natives : list NativeSig) (cfg : CompilerConfig).

Lemma verify_Ok :
  verify m deps natives cfg = Ok () →
  check_module m deps cfg = [] ∧
  ∀ f, f ∈ mod_functions m → check_function f m deps (builtin_natives ++ natives) = [].
Proof.
  unfold verify. intros Hv.
  destruct (check_module m deps cfg ++ _) eqn:He; [|done]. apply app_nil in He as [? He].
  split; [done|]. intros f Hf. apply mjoin_nil in He. rewrite list.Forall_forall in He.
  apply He, list_elem_of_fmap. eauto.
Qed.

Lemma check_structs_field seen ss s fd :
  check_structs m deps cfg seen ss = [] → s ∈ ss → fd ∈ sd_fields s →
  Ty.is_valid_field_type (fd_ty fd) = true.
Proof.
  revert seen. induction ss as [|s' ss IH]; intros seen Hc Hs Hfd; [set_solver|].
  simpl in Hc. repeat (apply app_nil in Hc as [? Hc]).
  apply elem_of_cons in Hs as [->|Hs]; [|by eapply IH].
  assert (Hcf : check_field m deps cfg s' fd = []).
  { match goal with H : mjoin _ = [] |- _ => apply mjoin_nil in H;
      rewrite list.Forall_forall in H; apply H, list_elem_of_fmap end. eauto. }
  unfold check_field in Hcf. apply app_nil in Hcf as [_ Hcf].
  by apply app_nil in Hcf as [?%report_nil%negb_false_iff _].
Qed.

Lemma check_functions_one seen fs f :
  check_functions m deps cfg seen fs = [] → f ∈ fs →
  check_signature m deps cfg f = [] ∧
  ∀ pc i, fn_code f !! pc = Some i → structural_check_instr m deps cfg f pc i = [].
Proof.
  revert seen. induction fs as [|f' fs IH]; intros seen Hc Hf; [set_solver|].
  simpl in Hc. repeat (apply app_nil in Hc as [? Hc]).
  apply elem_of_cons in Hf as [->|Hf]; [|by eapply IH].
  split; [done|]. intros pc i Hi.
  match goal with H : mjoin _ = [] |- _ => apply mjoin_nil in H; rewrite list.Forall_forall in H;
    apply H end.
  apply list_elem_of_lookup. exists pc. by rewrite list_lookup_imap, Hi.
Qed.

Lemma check_module_parts :
  check_module m deps cfg = [] →
  check_structs m deps cfg ∅ (mod_structs m) = [] ∧ check_struct_cycles m = [] ∧
  check_functions m deps cfg ∅ (mod_functions m) = [].
Proof. unfold check_module. intros Hc. repeat (apply app_nil in Hc as [? Hc]). done. Qed.

Lemma verify_structs_ok :
  verify m deps natives cfg = Ok () →
  (∀ s, s ∈ mod_structs m → NoDup (fd_name <$> sd_fields s)) → structs_ok m.
Proof.
  intros [(Hs & _)%check_module_parts _]%verify_Ok Hn. split; [|done].
  intros s fd. by eapply check_structs_field.
Qed.

Lemma verify_function f :
  verify m deps natives cfg = Ok () → f ∈ mod_functions m →
  length (fn_params f) ≤ fn_local_count f ∧
  (∀ pc i, fn_code f !! pc = Some i → structural_check_instr m deps cfg f pc i = []) ∧
  ∃ st pending, check_code f m deps (builtin_natives ++ natives) 0 (fn_code f) (initial_state f) ∅
      = (st, pending, []) ∧ check_end f st pending = [].
Proof.
  intros [(_ & _ & Hf)%check_module_parts Hc]%verify_Ok Hin.
  destruct (check_functions_one _ _ _ Hf Hin) as [Hsig Hi].
  assert (length (fn_params f) ≤ fn_local_count f).
  { unfold check_signature in Hsig. repeat (apply app_nil in Hsig as [? Hsig]).
    match goal with H : report (bool_decide (_ < length _)) (VerificationError.LocalCountTooSmall _ _ _) = [] |- _ =>
      apply report_nil, bool_decide_eq_false in H end. lia. }
  split_and!; [done..|]. specialize (Hc f Hin). unfold check_function in Hc.
  rewrite bool_decide_false in Hc by lia.
  destruct (check_code _ _ _ _ _ _ _ _) as [[st p] e]. apply app_nil in Hc as [-> ?]. eauto.
Qed.
End verify.

(** The bound of the verifier on the length of a function. *)
Definition code_bound (cfg : CompilerConfig) : nat := Z.to_nat (max_fun_code_size cfg).

(** Accepted code is short and only jumps forward. *)
Lemma verify_module_ok `{PrefixHex} m deps natives cfg :
  verify m deps natives cfg = Ok () →
  module_ok (λ c, code_at_most (code_bound cfg) c ∧ forward_only c) m.
Proof.
  intros Hv. apply list.Forall_forall. intros f Hf. split.
  - apply verify_Ok in Hv as [(_ & _ & Hc)%check_module_parts _].
    destruct (check_functions_one _ _ _ _ _ _ Hc Hf) as [Hsig _].
    unfold check_signature in Hsig. repeat (apply app_nil in Hsig as [? Hsig]).
    match goal with H : report _ (VerificationError.FunctionTooLarge _ _ _) = [] |- _ =>
      apply report_nil, bool_decide_eq_false in H end.
    unfold code_at_most, code_bound. lia.
  - destruct (verify_function _ _ _ _ _ Hv Hf) as (_ & Hstr & _).
    apply Forall_lookup_2. intros pc i Hi. specialize (Hstr _ _ Hi).
    destruct i; try done; simpl in Hstr; (case_bool_decide; [done|lia]).
Qed.

(** ** Soundness *)
Section soundness.
Context `{PrefixHexLaws} {S : Type} (vm : Vm S).
Context (natives : list NativeSig) (cfg : CompilerConfig).
Notation all_natives := (builtin_natives ++ natives).

(** The modules a run can enter. *)
Definition vm_env : gmap Address VmModule := <[vm_module_addr vm := vm_module vm]> (vm_deps vm).

(** [m], at [a], was verified against some of the VM's dependencies. *)
Record module_verified (a : Address) (m : VmModule) : Prop := {
  mv_addr : wf_address a;
  mv_verified : ∃ deps, deps ⊆ vm_deps vm ∧ verify m deps natives cfg = Ok () ∧
    ∀ f, f ∈ mod_functions m → fields_checked f m deps all_natives = true;
  mv_names : ∀ s, s ∈ mod_structs m → NoDup (fd_name <$> sd_fields s);
}.

Definition return_ty (ret : option Ty.t) : AbstractType.t :=
  match ret with Some ty => from_type ty | None => AbstractType.Void end.

(** An argument that a native parameter admits. *)
Definition native_arg (a : Address) (v : Value.t) (p : NativeParam) : Prop :=
  ∃ t, native_param_matches p t = true ∧ has_type vm_env a v t.

(** A native entry with the signature the verifier was given, whose results
    have the declared type. *)
Record native_ok (sig : NativeSig) (entry : NativeFnEntry S) : Prop := {
  no_params : nat_params entry = sig_params sig;
  no_returns a args s v s' : Forall2 (native_arg a) args (sig_params sig) →
    nat_func entry args s = (NativeReturn v, s') →
    has_type vm_env a (default Value.Void v) (return_ty (sig_return_type sig));
}.

(** The VM is linked correctly. *)
Record linked : Prop := {
  linked_modules : map_Forall module_verified vm_env;
  linked_self : vm_deps vm ⊆ vm_env;
  linked_natives name sig :
    find_first (λ n, String.eqb (sig_name n) name) all_natives = Some sig →
    ∃ entry, vm_natives vm !! name = Some entry ∧ native_ok sig entry;
}.

Context (Hlinked : linked).
Notation has_type := (has_type vm_env).
Notation frame_ok := (frame_ok vm_env).

(** What a call of [f], in the module at [a], may return. *)
Definition returns (a : Address) (f : Function) (ret : option Value.t) : Prop :=
  has_type a (default Value.Void ret) (return_ty (fn_return_type f)).

(** The arguments of [f]. *)
Definition args_ok (a : Address) (f : Function) (args : list Value.t) : Prop :=
  Forall2 (λ v p, has_type a v (from_type (snd p))) args (fn_params f).

(** A runner that is right about whole functions. *)
Definition runner_ok (rec : runner (S:=S)) : Prop :=
  ∀ a m f d args, vm_env !! a = Some m → f ∈ mod_functions m → args_ok a f args →
    safe (rec m a d (frame_new (fn_code f) args (fn_local_count f))) (returns a f).

Lemma module_function a m f :
  vm_env !! a = Some m → f ∈ mod_functions m → length (fn_params f) ≤ fn_local_count f.
Proof.
  intros Hm Hf. destruct (linked_modules Hlinked _ _ Hm) as [_ (deps & _ & Hv & _) _].
  by destruct (verify_function _ _ _ _ _ Hv Hf).
Qed.

Lemma enter_ok rec a m f name d args :
  runner_ok rec → vm_env !! a = Some m → get_function m name = Some f → args_ok a f args →
  safe (enter vm rec name m a args d) (returns a f).
Proof.
  intros Hrec Hm Hf Hargs. unfold enter. case_bool_decide; [by intros σ|].
  rewrite Hf. apply (safe_bind _ _ (λ f', f' = f)); [by eapply safe_lift|]. intros f' ->.
  apply find_first_Some in Hf as [Hf _]. pose proof (module_function _ _ _ Hm Hf) as Hl.
  rewrite bool_decide_false by (rewrite (Forall2_length Hargs); lia). by apply Hrec.
Qed.

Lemma pop_params_ok func params callee pc st st' a fr :
  pop_and_check_params func params callee pc st = (st', []) → frame_ok a fr st →
  ∃ vs fr', pop_args (length params) fr = Ok (vs, fr') ∧ frame_ok a fr' st' ∧
    Forall2 (λ v t, has_type a v (from_type t)) vs params.
Proof.
  unfold pop_and_check_params. intros Hc Hf. case_bool_decide; [done|].
  injection Hc as <- He. apply mjoin_nil in He.
  destruct (frame_ok_split _ _ _ _ (length params) Hf) as (vs & -> & Hvs & Hf'); [lia|].
  do 2 eexists. split_and!; [done..|]. clear -Hvs He H1.
  assert (Hlen : length params = length (reverse (take (length params) (st_stack st)))).
  { rewrite length_reverse, length_take. lia. }
  clear H1. revert Hlen He Hvs. generalize (reverse (take (length params) (st_stack st))) as ts.
  intros ts. revert vs ts. induction params as [|p params IH]; intros vs [|t ts] Hl He Hvs;
    try done; inversion Hvs; subst; [done|].
  simpl in He. apply list.Forall_cons in He as [He1 He].
  apply report_nil, negb_false_iff, bool_decide_eq_true in He1 as ->.
  constructor; [done|]. simpl in Hl. eapply IH; eauto.
Qed.

Lemma native_args_ok func native name pc st st' a fr :
  check_native_call func native name pc st = (st', []) → frame_ok a fr st →
  ∃ vs fr', pop_args (length (sig_params native)) fr = Ok (vs, fr') ∧
    Forall2 (native_arg a) vs (sig_params native) ∧
    ∀ v, has_type a v (return_ty (sig_return_type native)) → frame_ok a (push v fr') st'.
Proof.
  unfold check_native_call. intros Hc Hf. case_bool_decide; [done|].
  set (params := sig_params native) in *. injection Hc as <- He. apply mjoin_nil in He.
  destruct (frame_ok_split _ _ _ _ (length params) Hf) as (vs & -> & Hvs & Hf'); [lia|].
  do 2 eexists. split_and!; [done| |by intros; apply frame_ok_push].
  assert (Hlen : length params = length (reverse (take (length params) (st_stack st)))).
  { rewrite length_reverse, length_take. lia. }
  revert Hlen He Hvs. generalize (reverse (take (length params) (st_stack st))) as ts.
  clear. intros ts Hl He Hvs. apply Forall2_same_length_lookup. split.
  { rewrite (Forall2_length Hvs). done. }
  intros i v p Hv Hp. destruct (Forall2_lookup_l _ _ _ _ _ Hvs Hv) as (t & Ht & Hvt).
  exists t. split; [|done]. rewrite list.Forall_forall in He.
  assert (Hzip : zip params ts !! i = Some (p, t)) by (apply lookup_zip_Some; done).
  set (e := VerificationError.NativeArgTypeMismatch (fn_name func) pc name i
    (native_param_display p) (display_name t)).
  assert (report (negb (native_param_matches p t)) e = []) as ?%report_nil%negb_false_iff; [|done].
  apply He, list_elem_of_lookup. exists i. by rewrite list_lookup_imap, Hzip.
Qed.

(** Calls of any kind. *)
Lemma exec_call_ok rec func deps name pc st st' a m d fr :
  runner_ok rec → vm_env !! a = Some m → deps ⊆ vm_deps vm →
  check_call func m deps all_natives name pc st = (st', []) →
  structural_check_instr m deps cfg func pc (Instruction.Call name) = [] →
  frame_ok a fr st → safe (exec_call vm rec m a d name fr) (λ fr', frame_ok a fr' st').
Proof.
  intros Hrec Hm Hdeps Hc Hs Hf. unfold check_call in Hc. unfold exec_call. simpl in Hs.
  destruct (parse_module_ref name) as [[dep_addr callee_name]|] eqn:Hname.
  - destruct (deps !! dep_addr) as [dep|] eqn:Hdep; simpl in Hc; [|done].
    destruct (get_function dep callee_name) as [callee|] eqn:Hcallee; [|done].
    destruct (pop_and_check_params _ _ _ _ _) as [st1 e] eqn:Hpop. injection Hc as <- ->.
    apply report_nil, negb_false_iff in Hs.
    pose proof (lookup_weaken _ _ _ _ Hdep Hdeps) as Hdep'.
    pose proof (lookup_weaken _ _ _ _ Hdep' (linked_self Hlinked)) as Henv.
    pose proof (parse_module_ref_wf _ _ _ Hname) as Hwf.
    rewrite Hdep'. apply (safe_bind _ _ (λ x, x = dep)); [by eapply safe_lift|]. intros ? ->.
    rewrite Hcallee. apply (safe_bind _ _ (λ x, x = callee)); [by eapply safe_lift|]. intros ? ->.
    apply (safe_bind _ _ (λ _, True)); [by eapply safe_lift; [rewrite Hs|]|]. intros _ _.
    destruct (pop_params_ok _ _ _ _ _ _ _ _ Hpop Hf) as (vs & fr' & Hp & Hf' & Hvs).
    rewrite length_fmap in Hp. rewrite Hp.
    apply (safe_bind _ _ (λ x, x = (vs, fr'))); [by eapply safe_lift|]. intros ? ->.
    apply (safe_bind _ _ (returns dep_addr callee)).
    + apply enter_ok; [done..|]. rewrite Forall2_fmap_r in Hvs.
      eapply list.Forall2_impl; [exact Hvs|]. simpl. intros v p Hv. by eapply has_type_qualify.
    + intros ret Hret. apply safe_ret. apply frame_ok_push; [done|]. unfold returns in Hret.
      destruct (fn_return_type callee); simpl in *; [by apply has_type_qualify|].
      by destruct (default Value.Void ret).
  - destruct (get_function m name) as [callee|] eqn:Hcallee.
    + destruct (pop_and_check_params _ _ _ _ _) as [st1 e] eqn:Hpop. injection Hc as <- ->.
      destruct (pop_params_ok _ _ _ _ _ _ _ _ Hpop Hf) as (vs & fr' & Hp & Hf' & Hvs).
      rewrite length_fmap in Hp. rewrite Hp.
      apply (safe_bind _ _ (λ x, x = (vs, fr'))); [by eapply safe_lift|]. intros ? ->.
      apply (safe_bind _ _ (returns a callee)).
      * apply enter_ok; [done..|]. by rewrite Forall2_fmap_r in Hvs.
      * intros ret Hret. apply safe_ret. by apply frame_ok_push.
    + destruct (find_first _ all_natives) as [sig|] eqn:Hsig; [|done].
      destruct (linked_natives Hlinked _ _ Hsig) as (entry & -> & [Hpar Hret]).
      destruct (native_args_ok _ _ _ _ _ _ _ _ Hc Hf) as (vs & fr' & Hp & Hvs & Hk).
      apply (safe_bind _ _ (λ _, True)); [apply safe_charge|]. intros _ _.
      rewrite Hpar, Hp. apply (safe_bind _ _ (λ x, x = (vs, fr'))); [by eapply safe_lift|]. intros ? ->.
      apply (safe_bind _ _ (λ res, ∀ v, res = NativeReturn v →
        has_type a (default Value.Void v) (return_ty (sig_return_type sig)))).
      { intros [g s]. unfold run_native. simpl.
        destruct (nat_func entry vs s) as [r s1] eqn:Hr. simpl. intros v ->. by eapply Hret. }
      intros [v|code msg|msg] Hv; [|by intros σ|by intros σ].
      specialize (Hv v eq_refl). apply (safe_bind _ _ (λ _, True)).
      { eapply safe_lift; [|done]. instantiate (1 := tt).
        destruct v as [val|]; [|done]. simpl in Hv. by rewrite (has_type_qualified _ _ _ _ Hv). }
      intros _ _. apply safe_ret. by apply Hk.
Qed.

(** The frame of a function under execution is covered by its check. *)
Definition run_inv (a : Address) (m : VmModule) (f : Function) (fr : Frame) : Prop :=
  code fr = fn_code f ∧ ∃ deps, deps ⊆ vm_deps vm ∧
    verify m deps natives cfg = Ok () ∧
    ∃ k st pending, ok_from f m deps all_natives k st pending ∧
      k ≤ length (fn_code f) ∧ covered f vm_env a k fr st pending.

Lemma run_inv_init a m f args :
  vm_env !! a = Some m → f ∈ mod_functions m → args_ok a f args →
  run_inv a m f (frame_new (fn_code f) args (fn_local_count f)).
Proof.
  intros Hm Hf Hargs. destruct (linked_modules Hlinked _ _ Hm) as [_ (deps & Hd & Hv & Hfc) _].
  destruct (verify_function _ _ _ _ _ Hv Hf) as (Hl & _ & st & p & Hc & He).
  split; [done|]. exists deps. split_and!; [done..|]. exists 0, (initial_state f), ∅.
  split_and!; [|lia|].
  - split; [eauto|by apply Hfc| |by apply map_Forall_empty].
    unfold sized, initial_state. simpl. rewrite length_app, length_fmap, length_drop, length_replicate. lia.
  - left. split_and!; [done..|]. split; simpl; [done|].
    apply Forall2_app.
    + apply Forall2_fmap. eapply list.Forall2_impl; [exact Hargs|]. intros v p' ?. by exists v.
    + rewrite drop_replicate, (Forall2_length Hargs). by apply Forall2_replicate.
Qed.

(** One plain instruction keeps the invariant. *)
Lemma covered_next f a k fr' st' pending' :
  pc fr' = k + 1 → reachable st' = true → frame_ok a fr' st' →
  covered f vm_env a (Datatypes.S k) fr' st' pending'.
Proof. left. split_and!; [lia|done..]. Qed.

Lemma jump_ok fr o t :
  (0 < o)%Z → t = Z.to_nat (Z.of_nat (pc fr) + o) →
  exec_jump o (set_pc fr (pc fr + 1)) = Ok (set_pc fr t).
Proof.
  intros Ho ->. unfold exec_jump, jump_target. simpl. rewrite (proj2 (Z.ltb_ge _ _)) by lia.
  simpl. do 2 f_equal. lia.
Qed.

Lemma frame_ok_pc a fr n st : frame_ok a (set_pc fr n) st ↔ frame_ok a fr st.
Proof. split; intros [??]; by split. Qed.

Lemma structural_jump m deps f pc i o :
  structural_check_instr m deps cfg f pc i = [] →
  i = Instruction.Jump o ∨ i = Instruction.JumpIf o ∨ i = Instruction.JumpIfNot o →
  (0 < o)%Z ∧ pc < Z.to_nat (Z.of_nat pc + o) ≤ length (fn_code f).
Proof.
  intros Hs [->|[->| ->]]; simpl in Hs; (case_bool_decide; [done|]);
    apply report_nil, bool_decide_eq_false in Hs; lia.
Qed.

(** The conditional jumps. *)
Lemma jump_if_ok f m deps a on o fr st pending st' pending' :
  (let '(st1, e1) := pop_expect f (pc fr) AbstractType.Bool "bool" st in
   let '(p, e2) := schedule_jump f pending (pc fr) o st1 in (st1, p, e1 ++ e2))
    = (st', pending', []) →
  structural_check_instr m deps cfg f (pc fr) (Instruction.JumpIf o) = [] →
  sized f st → reachable st = true →
  map_Forall (λ _ s, sized f s ∧ reachable s = true) pending → frame_ok a fr st →
  ∃ fr', exec_jump_if on o (set_pc fr (pc fr + 1)) = Ok fr' ∧ code fr' = code fr ∧
    covered f vm_env a (Datatypes.S (pc fr)) fr' st' pending'.
Proof.
  intros Hc Hs Hz Hr Hp Hf.
  destruct (pop_expect _ _ _ _ _) as [st1 e1] eqn:H1.
  destruct (schedule_jump _ _ _ _ _) as [p e2] eqn:Hj. injection Hc as <- <- [-> ->]%app_nil.
  destruct (structural_jump _ _ _ _ _ o Hs) as [Ho Ht]; [auto|].
  pose proof (pop_expect_shape _ _ _ _ _ _ _ H1) as [Hl1 Hr1].
  apply (frame_ok_pc _ _ (pc fr + 1)) in Hf.
  destruct (pop_expect_ok _ _ _ _ _ _ _ _ _ H1 Hf) as (_ & _ & v & fr1 & Hpop & Hv & Hf1).
  assert (fr1 = set_pc (set_stack fr (stack fr1)) (pc fr + 1)) as Hfr1.
  { destruct (pop_Ok _ _ _ Hpop) as (_ & ? & ? & ?). destruct fr1; simpl in *; by subst. }
  apply has_type_bool in Hv as [b ->]. unfold exec_jump_if. rewrite Hpop. simpl.
  destruct (schedule_jump_pending _ _ _ _ _ _ Hj) as (_ & Hjump & _);
    [by unfold sized in *; congruence|congruence|done|].
  destruct (Bool.eqb b on).
  - rewrite Hfr1. erewrite (jump_ok (set_stack fr (stack fr1)));
      [|done|reflexivity]. eexists. split_and!; [done..|]. right. split; [simpl; lia|].
    rewrite Hfr1 in Hf1. apply frame_ok_pc in Hf1.
    destruct (Hjump vm_env a (set_stack fr (stack fr1)) Ho Hf1) as (s & ? & ?).
    exists s. split; [done|]. by apply frame_ok_pc.
  - exists fr1. split_and!; [done|by rewrite Hfr1|].
    apply covered_next; [by rewrite Hfr1|congruence|done].
Qed.

(** One iteration of the loop, after the charge and for no [Return]. *)
Definition step_once (fuel : nat) (m : VmModule) (a : Address) (d : nat) (i : Instruction.t)
    (fr : Frame) : VmM S Frame :=
  match i with
  | Instruction.Call name => exec_call vm (run vm fuel) m a d name (set_pc fr (pc fr + 1))
  | _ => lift (exec_instr vm m a i (set_pc fr (pc fr + 1)))
  end.

Lemma run_unfold fuel m a d fr :
  run vm (Datatypes.S fuel) m a d fr =
  match code fr !! pc fr with
  | None => mret (head (stack fr))
  | Some i =>
      vm_charge (cost_of (vm_gas_schedule vm) i) ;;
      match i with
      | Instruction.Return => mret (head (stack fr))
      | _ => step_once fuel m a d i fr ≫= run vm fuel m a d
      end
  end.
Proof. cbn [run]. destruct (code fr !! pc fr) as [i|]; [|done]. by destruct i. Qed.

(** Where the check stands when it has caught up with the frame. *)
Lemma run_inv_advance a m f fr :
  run_inv a m f fr →
  ∃ i deps st p st' p', code fr !! pc fr = Some i ∧ deps ⊆ vm_deps vm ∧
    verify m deps natives cfg = Ok () ∧ sized f st ∧ reachable st = true ∧ frame_ok a fr st ∧
    fields_resolve m i st = true ∧
    map_Forall (λ _ s, sized f s ∧ reachable s = true) p ∧
    check_instr f m deps all_natives (pc fr) i st p = (st', p', []) ∧
    ∀ fr', code fr' = code fr → covered f vm_env a (Datatypes.S (pc fr)) fr' st' p' →
      run_inv a m f fr'.
Proof.
  intros (Hcode & deps & Hdeps & Hv & k & st0 & p0 & Hok & Hk & Hcov).
  destruct (advance _ _ _ _ _ _ _ _ _ _ Hok Hk Hcov)
    as (i & st & p & st' & p' & Hi & Hz & Hr & Hfr & Hres & Hp & Hci & Hok').
  exists i, deps, st, p, st', p'. rewrite Hcode. split_and!; [done..|].
  intros fr' Hc' Hcov'. split; [done|]. exists deps. split_and!; [done..|].
  apply lookup_lt_Some in Hi. eauto 10.
Qed.

Lemma plain_ok a m f fr i deps st p st' p' :
  vm_env !! a = Some m → f ∈ mod_functions m → verify m deps natives cfg = Ok () →
  fn_code f !! pc fr = Some i → is_plain i = true → sized f st → reachable st = true →
  frame_ok a fr st → fields_resolve m i st = true →
  check_instr f m deps all_natives (pc fr) i st p = (st', p', []) →
  safe (lift (S:=S) (exec_instr vm m a i (set_pc fr (pc fr + 1))))
    (λ fr', code fr' = code fr ∧ covered f vm_env a (Datatypes.S (pc fr)) fr' st' p').
Proof.
  intros Hm Hf Hv Hi Hpl Hz Hr Hfr Hres Hci.
  destruct (linked_modules Hlinked _ _ Hm) as [Ha _ Hnames].
  destruct (verify_function _ _ _ _ _ Hv Hf) as (_ & Hstr & _). specialize (Hstr _ _ Hi).
  destruct (check_simple f m deps all_natives (pc fr) i st) as [st1 e1] eqn:Hcs.
  assert (st' = st1 ∧ e1 = []) as [-> ->]
    by (destruct i; try done; cbn [check_instr] in Hci; rewrite Hcs in Hci; by simplify_eq).
  assert (Hne : i ≠ Instruction.Return) by by destruct i.
  pose proof (check_simple_shape _ _ _ _ _ _ _ _ _ Hne Hcs) as [_ Hr1].
  pose proof (exec_instr_ok vm_env a m Ha Hm (verify_structs_ok _ _ _ _ Hv Hnames) f vm
    deps all_natives cfg _ _ (set_pc fr (pc fr + 1)) _ _ Hpl Hcs Hstr Hz Hres) as Hstep.
  intros σ. unfold lift. simpl. rewrite frame_ok_pc in Hstep. specialize (Hstep Hfr).
  destruct (exec_instr vm m a i _) as [fr'|e|?|] eqn:Hx; try done.
  apply exec_instr_frame in Hx as [Hc' Hpc]. split; [done|].
  apply covered_next; [by destruct i|congruence|done].
Qed.

Lemma jump_step_ok a m f fr deps o st p st' p' :
  structural_check_instr m deps cfg f (pc fr) (Instruction.Jump o) = [] →
  sized f st → reachable st = true → frame_ok a fr st →
  map_Forall (λ _ s, sized f s ∧ reachable s = true) p →
  check_instr f m deps all_natives (pc fr) (Instruction.Jump o) st p = (st', p', []) →
  ∃ fr', exec_jump o (set_pc fr (pc fr + 1)) = Ok fr' ∧ code fr' = code fr ∧
    covered f vm_env a (Datatypes.S (pc fr)) fr' st' p'.
Proof.
  intros Hstr Hz Hr Hfr Hp Hci.
  cbn [check_instr] in Hci. destruct (schedule_jump _ _ _ _ _) as [p1 e1] eqn:Hj.
  injection Hci as <- <- ->.
  destruct (structural_jump _ _ _ _ _ o Hstr) as [Ho Ht]; [auto|].
  destruct (schedule_jump_pending _ _ _ _ _ _ Hj Hz Hr Hp) as (_ & Hjump & _).
  erewrite jump_ok; [|done|reflexivity]. eexists. split_and!; [done..|]. right.
  split; [simpl; lia|]. destruct (Hjump _ _ _ Ho Hfr) as (s & ? & ?). exists s.
  split; [done|]. by apply frame_ok_pc.
Qed.

(** One step, given that deeper runs are safe, keeps the invariant. *)
Lemma step_once_ok fuel a m f d fr i :
  vm_env !! a = Some m → f ∈ mod_functions m → run_inv a m f fr →
  code fr !! pc fr = Some i → i ≠ Instruction.Return → runner_ok (run vm fuel) →
  safe (step_once fuel m a d i fr) (run_inv a m f).
Proof.
  intros Hm Hf Hinv0 Hi0 Hnr Hrec. pose proof (proj1 Hinv0) as Hcode.
  destruct (run_inv_advance _ _ _ _ Hinv0)
    as (i' & deps & st & p & st' & p' & Hi & Hdeps & Hv & Hz & Hr & Hfr & Hres & Hp & Hci & Hnext).
  assert (i' = i) as -> by congruence. clear Hi0.
  destruct (verify_function _ _ _ _ _ Hv Hf) as (_ & Hstr & _).
  rewrite Hcode in Hi. specialize (Hstr _ _ Hi).
  assert (Hfin : ∀ o, (∃ fr', o = Ok fr' ∧ code fr' = code fr ∧
      covered f vm_env a (Datatypes.S (pc fr)) fr' st' p') →
    safe (lift (S:=S) o) (run_inv a m f)).
  { intros o (fr' & -> & ? & ?) σ. simpl. by apply Hnext. }
  destruct i; try done;
    try (eapply safe_mono; [by eapply plain_ok|]; intros fr' [??]; by apply Hnext).
  - apply Hfin. by eapply jump_step_ok.
  - apply Hfin. by eapply (jump_if_ok f m deps a true offset fr st p).
  - apply Hfin. by eapply (jump_if_ok f m deps a false offset fr st p).
  - cbn [check_instr check_simple] in Hci.
    destruct (check_call _ _ _ _ _ _ _) as [st1 e1] eqn:Hcc. injection Hci as <- <- ->.
    pose proof (check_call_shape _ _ _ _ _ _ _ _ _ Hcc) as [_ Hr1].
    intros σ. pose proof (exec_call_ok _ _ _ _ _ _ _ _ _ d (set_pc fr (pc fr + 1)) Hrec Hm Hdeps
      Hcc Hstr) as Hsafe. rewrite frame_ok_pc in Hsafe. specialize (Hsafe Hfr σ). simpl.
    destruct (exec_call _ _ _ _ _ _ _ σ) as [[fr'| | |] σ'] eqn:Hx; try done. simpl in *.
    apply exec_call_frame in Hx as [Hc' Hpc']. apply Hnext; [done|].
    apply covered_next; [done|congruence|done].
Qed.

(** What the check says of a frame that returns. *)
Lemma return_ok a m f fr :
  run_inv a m f fr → code fr !! pc fr = Some Instruction.Return →
  returns a f (head (stack fr)) ∧
  Forall (λ v, Value.is_linear v = false) (tail (stack fr)) ∧
  Forall (λ o, ∀ v, o = Some v → Value.is_linear v = false) (locals fr).
Proof.
  intros Hinv Hi0. destruct (run_inv_advance _ _ _ _ Hinv)
    as (i & deps & st & p & st' & p' & Hi & _ & _ & _ & _ & [Hs Hl] & _ & _ & Hci & _).
  assert (i = Instruction.Return) as -> by congruence.
  cbn [check_instr check_simple] in Hci. injection Hci as <- <- Hret.
  apply app_nil in Hret as [Hret Hrest]. apply app_nil in Hrest as [Hbelow Hslots].
  split_and!.
  - unfold returns, check_return_type, st_peek in *.
    destruct Hs as [|v t vs ts Hvt _]; simpl in *; [by destruct (fn_return_type f)|].
    destruct (fn_return_type f) as [rt|]; simpl in *; [|by destruct t].
    by apply report_nil, negb_false_iff, bool_decide_eq_true in Hret as <-.
  - apply report_nil in Hbelow. destruct Hs as [|v t vs ts _ Hts]; simpl in *; [done|].
    induction Hts as [|w u ws us Hwu _ IH]; [done|]. simpl in Hbelow.
    apply orb_false_iff in Hbelow as [Hu ?]. constructor; [|by apply IH].
    by rewrite (has_type_linear _ _ _ _ Hwu).
  - apply Forall_lookup_2. intros j o Ho v ->.
    destruct (Forall2_lookup_l _ _ _ _ _ Hl Ho) as (s & Hs' & Hok).
    unfold unconsumed in Hslots. apply mjoin_nil in Hslots. rewrite list.Forall_forall in Hslots.
    assert (report (live_linear s) (VerificationError.UnconsumedStruct (fn_name f) (0 + j)) = [])
      as Hdead%report_nil.
    { apply Hslots, list_elem_of_lookup. exists j. by rewrite list_lookup_imap, Hs'. }
    by eapply (slot_ok_dead vm_env a).
Qed.

(** A frame under the invariant runs safely. *)
Lemma run_ok fuel a m f d fr :
  vm_env !! a = Some m → f ∈ mod_functions m → run_inv a m f fr →
  safe (run vm fuel m a d fr) (returns a f).
Proof.
  revert a m f d fr. induction fuel as [|fuel IH]; intros a m f d fr Hm Hf Hinv; [by intros σ|].
  destruct (run_inv_advance _ _ _ _ Hinv) as (i & ? & ? & ? & ? & ? & Hi & _).
  rewrite run_unfold, Hi. apply (safe_bind _ _ (λ _, True)); [apply safe_charge|]. intros _ _.
  assert (Hstep : i ≠ Instruction.Return →
    safe (step_once fuel m a d i fr ≫= run vm fuel m a d) (returns a f)).
  { intros Hne. apply (safe_bind _ _ (run_inv a m f)); [|by eauto].
    apply step_once_ok; [done..|]. intros a' m' f' d' args ???.
    apply IH; [done..|]. by apply run_inv_init. }
  destruct i; try (by apply Hstep). apply safe_ret. by eapply return_ok.
Qed.

(** [Vm::call] with well-typed arguments. *)
Lemma call_ok fuel name f args :
  get_function (vm_module vm) name = Some f → fn_is_public f = true →
  vm_natives vm !! name = None → size (vm_deps vm) ≤ vm_max_dep_modules (vm_config vm) →
  args_ok (vm_module_addr vm) f args →
  safe (call vm fuel name args) (returns (vm_module_addr vm) f).
Proof.
  intros Hf Hpub Hnat Hsize Hargs. unfold call, call_inner.
  rewrite (bool_decide_false (_ < _)) by by apply Nat.nlt_ge.
  rewrite Hnat, bool_decide_false by by intros [??].
  rewrite Hf.
  apply (safe_bind _ _ (λ _, True)); [by eapply safe_lift|intros _ _].
  apply (safe_bind _ _ (λ _, True)); [by eapply safe_lift|intros _ _].
  apply (safe_bind _ _ (λ x, x = f)); [by eapply safe_lift|intros ? ->]. rewrite Hpub.
  apply (safe_bind _ _ (λ _, True)); [by eapply safe_lift|intros _ _].
  apply (safe_bind _ _ (λ _, True)).
  { eapply safe_lift; [|done]. instantiate (1 := tt). apply rust_assert_Ok, forallb_forall.
    intros v Hv%list_elem_of_In. apply list_elem_of_lookup in Hv as [j Hj].
    destruct (Forall2_lookup_l _ _ _ _ _ Hargs Hj) as (p & _ & Hp).
    by eapply has_type_qualified. }
  intros _ _. eapply enter_ok; [|by unfold vm_env; rewrite lookup_insert_eq|done|done].
  intros a m g d args' ???. apply run_ok; [done..|]. by apply run_inv_init.
Qed.
End soundness.

(** The built-in native. *)
Lemma abort_native_ok `{PrefixHex} {S} (vm : Vm S) : native_ok vm meow_vm_abort_sig meow_vm_abort_entry.
Proof.
  split; [done|]. intros a args s v s' _. simpl. unfold meow_vm_abort_func. intros Hr.
  repeat case_match; by simplify_eq.
Qed.
