(* ===== verification/VmExamples.v ===== *)
(** * Two small linked modules

    Concrete modules on which the theorems about the VM and the verifier are
    instantiated: [bank] defines a struct [Coin] with [mint] and [burn], and
    [main] calls both across the module boundary, after a branch. *)

From S2P Require Import Prelude Address HexInstance VmTypes Gas Vm VmProps VerifierStructural.
From S2P Require Import VerifierAbstract VerifierTyping VerifierSound.

Definition bank_addr : Address := address_suffixed 32.
Definition main_addr : Address := address_suffixed 4096.

Definition bank : VmModule :=
  mkModule "bank" [] [mkStructDef "Coin" [mkFieldDef "value" Ty.U64] true]
    [mkFunction "mint" true [("v", Ty.U64)] (Some (Ty.Struct "Coin")) 1
       [Instruction.Load 0; Instruction.NewStruct "Coin" ["value"]; Instruction.Return];
     mkFunction "burn" true [("c", Ty.Struct "Coin")] (Some Ty.U64) 1
       [Instruction.Load 0; Instruction.UnpackStruct "Coin" ["value"]; Instruction.Return]].

(** [max_burn(x, y)]: mint a coin of the larger value and burn it again. *)
Definition max_burn : Function :=
  mkFunction "max_burn" true [("x", Ty.U64); ("y", Ty.U64)] (Some Ty.U64) 2
    [Instruction.Load 0; Instruction.Load 1; Instruction.Lt; Instruction.JumpIfNot 3;
     Instruction.Load 1; Instruction.Jump 2; Instruction.Load 0;
     Instruction.Call (qualify bank_addr "mint"); Instruction.Call (qualify bank_addr "burn");
     Instruction.Return].
Definition main : VmModule := mkModule "main" [bank_addr] [] [max_burn].

Definition main_deps : gmap Address VmModule := {[ bank_addr := bank ]}.
Definition main_vm : Vm () :=
  mkVm main main_addr main_deps {[ MEOW_VM_ABORT := meow_vm_abort_entry ]}
    GasSchedule_default VmConfig_default.

Lemma main_vm_new :
  vm_new (main_addr, main) [] GasSchedule_default main_deps VmConfig_default = Ok main_vm.
Proof. reflexivity. Qed.

Lemma main_vm_wf : wf_vm main_vm.
Proof. split; [apply GasSchedule_default_wf|]. by apply map_Forall_singleton. Qed.

Lemma bank_verified : verify bank ∅ [] CompilerConfig_default = Ok ().
Proof. vm_compute. reflexivity. Qed.
Lemma main_verified : verify main main_deps [] CompilerConfig_default = Ok ().
Proof. vm_compute. reflexivity. Qed.

Lemma max_burn_3_7 :
  call main_vm 30 "max_burn" [Value.U64 3; Value.U64 7] (gas_new 1000, tt) =
  (Ok (Some (Value.U64 7)), (mkGasMeter 1000 70, tt)).
Proof. vm_compute. reflexivity. Qed.

Lemma main_vm_linked : linked main_vm [] CompilerConfig_default.
Proof.
  split.
  - apply map_Forall_insert_2; [|apply map_Forall_singleton]; split.
    + by apply (bool_decide_unpack _).
    + exists main_deps. split_and!; [done|apply main_verified|].
      intros f [->|[]%not_elem_of_nil]%elem_of_cons. vm_compute. reflexivity.
    + by intros s ?%not_elem_of_nil.
    + by apply (bool_decide_unpack _).
    + exists ∅. split_and!; [apply map_empty_subseteq|apply bank_verified|].
      intros f [->|[->|[]%not_elem_of_nil]%elem_of_cons]%elem_of_cons; vm_compute; reflexivity.
    + intros s [->|[]%not_elem_of_nil]%elem_of_cons. apply NoDup_singleton.
  - by apply insert_subseteq.
  - intros name sig Hs. cbn [builtin_natives app find_first sig_name meow_vm_abort_sig] in Hs.
    destruct (String.eqb_spec MEOW_VM_ABORT name) as [<-|]; [|done]. simplify_eq.
    eexists. split; [reflexivity|apply abort_native_ok].
Qed.
