(* ===== verification/VmCorrect.v ===== *)
(** * Correctness of the virtual machine

    Gas accounting, termination, construction of the machine, and the
    functional behaviour of references, fields and the built-in abort. *)

From S2P Require Import Prelude Address HexInstance VmTypes Gas Vm VmProps VerifierSound.
From S2P Require Import VmExamples.

(** A call, whatever its outcome (result, error, panic), leaves the limit
    of the meter alone, never decreases the gas spent and never reports more
    gas spent than the limit. *)
Lemma vm_call_gas {S} `{PrefixHex} (vm : Vm S) fuel fn args g s r g' s' :
  wf_vm vm → wf_gas g → call vm fuel fn args (g, s) = (r, (g', s')) →
  limit g' = limit g ∧ (spent g ≤ spent g' ≤ limit g)%Z.
Proof.
  intros Hvm Hg Hc. destruct (call_gas_mono vm fuel fn args Hvm _ _ _ Hc Hg) as (Hl & Hs & Hw).
  simpl in *. specialize (Hw Hg) as [_ Hw]. rewrite Hl in Hw. lia.
Qed.

(** ** Termination *)

(** C20: Every call with a limited meter terminates, with no assumption on the
    code: [fuel_by_gas] (one pass over the longest function per unit of gas)
    is enough, and more fuel gives the same result, meter and native state. *)
Theorem vm_call_terminates {S} `{PrefixHex} (vm : Vm S) L fuel fn args g s :
  wf_vm vm → module_ok (code_at_most L) (vm_module vm) →
  map_Forall (λ _, module_ok (code_at_most L)) (vm_deps vm) →
  wf_gas g → (limit g < u64_max)%Z → fuel_by_gas L g ≤ fuel →
  fst (call vm fuel fn args (g, s)) ≠ NoFuel ∧
  call vm fuel fn args (g, s) = call vm (fuel_by_gas L g) fn args (g, s).
Proof.
  intros Hvm Hm Hd Hg Hl Hf.
  pose proof (call_finishes_by_gas vm L fn args g s Hvm Hm Hd Hg Hl) as Hfin.
  destruct (call_fuel_le vm _ _ fn args Hf (g, s)) as [?|<-]; done.
Qed.

Lemma main_vm_code : module_ok (code_at_most 10) (vm_module main_vm) ∧
  map_Forall (λ _, module_ok (code_at_most 10)) (vm_deps main_vm).
Proof.
  unfold module_ok, code_at_most. split; [repeat constructor|].
  apply map_Forall_singleton. repeat constructor.
Qed.

Lemma vm_call_terminates_witness :
  fst (call main_vm 600 "max_burn" [Value.U64 3; Value.U64 7] (gas_new 50, tt)) ≠ NoFuel ∧
  call main_vm 600 "max_burn" [Value.U64 3; Value.U64 7] (gas_new 50, tt) =
  call main_vm (fuel_by_gas 10 (gas_new 50)) "max_burn" [Value.U64 3; Value.U64 7]
    (gas_new 50, tt).
Proof.
  apply (vm_call_terminates main_vm 10).
  - apply main_vm_wf.
  - apply main_vm_code.
  - apply main_vm_code.
  - by apply gas_new_wf.
  - reflexivity.
  - apply Nat.leb_le. reflexivity.
Defined.

(** ** Construction of the machine *)
Lemma add_natives_spec {S} (natives : list (NativeFnEntry S)) (m0 : gmap string (NativeFnEntry S)) :
  NoDup (nat_name <$> natives) → (∀ e, e ∈ natives → m0 !! nat_name e = None) →
  foldl (λ (acc : outcome VmError.t (gmap string (NativeFnEntry S))) entry,
      m ← acc;
      match m !! nat_name entry with
      | None => Ok (<[nat_name entry := entry]> m)
      | Some _ => Panic ("duplicate native function name: " +:+ nat_name entry)
      end) (Ok m0) natives =
  Ok (list_to_map ((λ e, (nat_name e, e)) <$> natives) ∪ m0).
Proof.
  revert m0. induction natives as [|e natives IH]; intros m0 Hnd Hfresh; simpl.
  { by rewrite (left_id_L ∅ (∪)). }
  apply list.NoDup_cons in Hnd as [He Hnd]. rewrite Hfresh by left. rewrite IH; [|done|].
  - f_equal. rewrite <-insert_union_l, insert_union_r; [done|].
    apply not_elem_of_list_to_map_1. by rewrite <-list_fmap_compose.
  - intros e' He'. rewrite lookup_insert_ne; [by apply Hfresh; right|].
    intros Heq. apply He. rewrite Heq. by apply list_elem_of_fmap_2.
Qed.

(** What [Vm::new] requires of an entry called [meow_vm_abort]. *)
Definition abort_override_ok {S} (e : NativeFnEntry S) : Prop :=
  nat_params e = sig_params meow_vm_abort_sig ∧ nat_return_type e = None.

(** [Vm::new] with natives of distinct names, of which one that overrides
    [meow_vm_abort] has its signature, builds a machine in which every native
    given is found under its name, and [meow_vm_abort] is always present: the
    override if there is one, the built-in otherwise. *)
Lemma vm_new_ok {S} addr m (natives : list (NativeFnEntry S)) sched deps cfg :
  NoDup (nat_name <$> natives) →
  (∀ e, e ∈ natives → nat_name e = MEOW_VM_ABORT → abort_override_ok e) →
  ∃ vm, vm_new (addr, m) natives sched deps cfg = Ok vm ∧
    vm_module vm = m ∧ vm_module_addr vm = addr ∧ vm_deps vm = deps ∧
    (∀ e, e ∈ natives → vm_natives vm !! nat_name e = Some e) ∧
    (MEOW_VM_ABORT ∉ nat_name <$> natives →
      vm_natives vm !! MEOW_VM_ABORT = Some meow_vm_abort_entry) ∧
    (∀ name e, vm_natives vm !! name = Some e → e ∈ natives ∨ e = meow_vm_abort_entry).
Proof.
  intros Hnd Habort. unfold vm_new. rewrite add_natives_spec; [|done|by intros; apply lookup_empty].
  rewrite (right_id_L ∅ (∪)). simpl.
  set (nm := list_to_map ((λ e, (nat_name e, e)) <$> natives) : gmap string (NativeFnEntry S)).
  assert (Hin : ∀ name e, nm !! name = Some e ↔ e ∈ natives ∧ nat_name e = name).
  { intros name e. unfold nm. rewrite <-elem_of_list_to_map by by rewrite <-list_fmap_compose.
    rewrite list_elem_of_fmap. naive_solver. }
  destruct (nm !! MEOW_VM_ABORT) as [e|] eqn:He.
  - destruct (proj1 (Hin _ _) He) as [Hine Hname].
    destruct (Habort e Hine Hname) as [Hp Hr]. rewrite !bool_decide_true by done. simpl.
    eexists. split_and!; [done..| | |]; simpl.
    + intros e' ?. by apply Hin.
    + intros []. rewrite <-Hname. by apply list_elem_of_fmap_2.
    + intros name e' ?%Hin. naive_solver.
  - eexists. split_and!; [done..| | |]; simpl.
    + intros e' He'. rewrite lookup_insert_ne; [by apply Hin|].
      intros Heq. rewrite Heq in He. by rewrite (proj2 (Hin _ e')) in He.
    + intros _. apply lookup_insert_eq.
    + intros name e'. rewrite lookup_insert_Some. intros [[_ <-]|[_ ?%Hin]]; [by right|naive_solver].
Qed.

(** ** Fields *)
Lemma find_update_eq name v fs old :
  Value.find_field name fs = Some old → Value.find_field name (update_field name v fs) = Some v.
Proof.
  unfold Value.find_field. induction fs as [|[n w] fs IH]; simpl; [done|].
  destruct (String.eqb n name) eqn:E; simpl; rewrite E; auto.
Qed.
Lemma find_update_ne name name' v fs :
  name ≠ name' → Value.find_field name' (update_field name v fs) = Value.find_field name' fs.
Proof.
  unfold Value.find_field. intros Hne. induction fs as [|[n w] fs IH]; simpl; [done|].
  destruct (String.eqb_spec n name) as [->|]; simpl.
  - by rewrite (proj2 (String.eqb_neq name name')).
  - destruct (String.eqb n name'); auto.
Qed.

(** A write along a non-empty path: the field of the first step is replaced. *)
Lemma write_field_path_step i v f path w v' :
  write_field_path i v (f :: path) w = Ok v' →
  ∃ tn fs old new, v = Value.Struct tn fs ∧ Value.find_field f fs = Some old ∧
    v' = Value.Struct tn (update_field f new fs) ∧
    match path with
    | [] => new = w ∧ Value.is_linear old = false
    | _ => write_field_path (S i) old path w = Ok new
    end.
Proof.
  intros Hw. destruct path as [|f' path]; cbn [write_field_path] in Hw; destruct v; try done.
  - destruct (Value.find_field f fields) as [old|] eqn:Hf; simpl in Hw; [|done].
    destruct (Value.is_linear old) eqn:Hl; simplify_eq. by exists type_name, fields, old, w.
  - destruct (Value.find_field f fields) as [old|] eqn:Hf; [|done].
    apply bind_Ok in Hw as (old' & Hold & Hw). apply ok_or_Ok in Hold. simplify_eq.
    apply bind_Ok in Hw as (new & Hnew & Hok). simplify_eq.
    by exists type_name, fields, old', new.
Qed.

Lemma write_read_field_path path i j v w v' :
  write_field_path i v path w = Ok v' → read_field_path j v' path = Ok w.
Proof.
  revert i j v v'. induction path as [|f path IH]; intros i j v v' Hw; [done|].
  apply write_field_path_step in Hw as (tn & fs & old & new & -> & Hf & -> & Hnew).
  simpl. rewrite (find_update_eq _ _ _ _ Hf). simpl.
  destruct path as [|f' path]; [by destruct Hnew as [-> _]|]. by eapply IH.
Qed.

Lemma write_other_field_path path path' i j v w v' :
  write_field_path i v path w = Ok v' → ¬ path `prefix_of` path' → ¬ path' `prefix_of` path →
  read_field_path j v' path' = read_field_path j v path'.
Proof.
  revert path' i j v v'. induction path as [|f path IH]; intros path' i j v v' Hw Hp Hp'; [done|].
  apply write_field_path_step in Hw as (tn & fs & old & new & -> & Hf & -> & Hnew).
  destruct path' as [|f' path']; [by destruct Hp'; apply prefix_nil|].
  simpl. destruct (decide (f = f')) as [<-|Hne]; [|by rewrite find_update_ne].
  rewrite (find_update_eq _ _ _ _ Hf), Hf. simpl.
  destruct path as [|f2 path]; [by destruct Hp; apply prefix_cons, prefix_nil|].
  eapply IH; [done|..]; intros ?; [apply Hp|apply Hp']; by apply prefix_cons.
Qed.

(** [StoreField] then [LoadField] of the same path reads back the value
    written, and every path that is neither above nor below the written one
    reads what it read before. *)
Lemma store_load_field fr slot path fr' root' :
  exec_store_field slot path fr = Ok fr' → locals fr' !! slot = Some (Some root') →
  ∃ w root, stack fr = w :: stack fr' ∧ locals fr !! slot = Some (Some root) ∧
    exec_load_field slot path fr' = Ok (push w fr') ∧
    ∀ path', ¬ path `prefix_of` path' → ¬ path' `prefix_of` path →
      read_field_path 0 root' path' = read_field_path 0 root path'.
Proof.
  unfold exec_store_field. intros Hs Hroot'.
  apply bind_Ok in Hs as ([w fr1] & Hpop & Hs). apply pop_Ok in Hpop as (Hst & Hl & _).
  apply bind_Ok in Hs as (root & Hroot & Hs). apply bind_Ok in Hs as (new & Hw & Hs).
  injection Hs as <-. apply ok_or_Ok in Hroot. simpl in *.
  destruct (locals fr1 !! slot) as [[r|]|] eqn:Hslot; simplify_eq/=.
  assert (slot < length (locals fr1)) by by eapply lookup_lt_Some.
  rewrite list_lookup_insert_eq in Hroot' by done. simplify_eq.
  exists w, root. rewrite <-Hl. split_and!; [done..| |].
  - unfold exec_load_field. simpl. rewrite list_lookup_insert_eq by done. simpl.
    by rewrite (write_read_field_path _ _ 0 _ _ _ Hw).
  - intros path' ??. by eapply write_other_field_path.
Qed.

Definition coin_frame : Frame :=
  mkFrame [Some (Value.Struct "C" [("id", Value.U64 1); ("value", Value.U64 2)])]
    [Value.U64 9] 0 [].
Definition coin_frame' : Frame :=
  mkFrame [Some (Value.Struct "C" [("id", Value.U64 1); ("value", Value.U64 9)])] [] 0 [].

(** ** References *)

(** A reference printed by [qualify] parses back to its address and name,
    whatever the name; so a struct type qualified by the VM always names the
    module that made it. *)
Lemma module_ref_roundtrip `{PrefixHexLaws} a n :
  wf_address a → parse_module_ref (qualify a n) = Some (a, n) ∧ is_qualified (qualify a n) = true.
Proof. intros Ha. split; [by apply parse_qualify|by apply is_qualified_qualify]. Qed.

(** ** Abort *)

(** A call of the built-in [meow_vm_abort(condition, code, message)] costs
    the [Call] instruction only; it continues with the unit value on the stack
    when the condition holds, and ends the call with [Aborted] and exactly the
    given code and message when it does not. *)
Lemma meow_vm_abort_semantics {S} `{PrefixHex} (vm : Vm S) rec ctx addr d cond code msg st fr σ :
  parse_module_ref MEOW_VM_ABORT = None → get_function ctx MEOW_VM_ABORT = None →
  vm_natives vm !! MEOW_VM_ABORT = Some meow_vm_abort_entry → wf_gas (fst σ) →
  stack fr = Value.Str msg :: Value.U64 code :: Value.Bool cond :: st →
  exec_call vm rec ctx addr d MEOW_VM_ABORT fr σ =
  (if cond then Ok (set_stack fr (Value.Void :: st)) else Err (VmError.Aborted code msg), σ).
Proof.
  intros Hp Hf Hn Hg Hst. unfold exec_call. rewrite Hp, Hf, Hn. destruct σ as [g s].
  assert (Hc : charge g 0 = (Ok (), g)).
  { unfold charge, wf_gas, in_u64, saturating_add in *. simpl in Hg.
    rewrite Z.add_0_r, Z.min_l by lia. case_bool_decide; [lia|]. by destruct g. }
  unfold mbind, VmM_bind, vm_charge. simpl. rewrite Hc.
  unfold lift, pop_args. rewrite Hst. simpl. unfold run_native. simpl.
  unfold meow_vm_abort_func. simpl. by destruct cond.
Qed.

