(* ===== verification/VerifierCorrect.v ===== *)
(** * Correctness of the bytecode verifier

    Soundness with termination, move semantics, the cycle search, and the
    programs that show what the verifier lets through. *)

From S2P Require Import Prelude Address HexInstance VmTypes Gas Vm VmProps VmCorrect.
From S2P Require Import VerifierStructural VerifierCycles VerifierAbstract VerifierTyping.
From S2P Require Import VerifierSound VmExamples.
Import AbstractType (from_type).

Section verified.
Context `{PrefixHexLaws} {S : Type} (vm : Vm S).
Context (natives : list NativeSig) (cfg : CompilerConfig).
Context (Hlinked : linked vm natives cfg).

Lemma verified_code a m :
  vm_env vm !! a = Some m →
  module_ok (λ c, code_at_most (code_bound cfg) c ∧ forward_only c) m.
Proof using Hlinked.
  intros Hm. destruct (linked_modules _ _ _ Hlinked _ _ Hm) as [_ (deps & _ & Hv & _) _].
  by eapply verify_module_ok.
Qed.

Lemma verified_finishes fuel fn args g s :
  wf_vm vm → wf_gas g → fuel_by_depth (code_bound cfg) (vm_config vm) ≤ fuel →
  fst (call vm fuel fn args (g, s)) ≠ NoFuel.
Proof using Hlinked.
  intros Hvm Hg Hf.
  pose proof (call_finishes_by_depth vm (code_bound cfg) fn args g s) as Hfin. simpl in Hfin.
  destruct (call_fuel_le vm _ _ fn args Hf (g, s)) as [Hn|<-].
  - destruct Hfin; try done.
    + eapply verified_code. unfold vm_env. apply lookup_insert_eq.
    + intros a m Hm. eapply verified_code. by eapply lookup_weaken, linked_self.
  - apply Hfin; try done.
    + eapply verified_code. unfold vm_env. apply lookup_insert_eq.
    + intros a m Hm. eapply verified_code. by eapply lookup_weaken, linked_self.
Qed.
End verified.

(** C1: Soundness of verification.  On a machine whose module and dependencies
    were all accepted by [verify], whose struct definitions name each field
    once and whose field paths resolve (two conditions [verify] leaves out, see
    [verify_accepts_bad_fields]), with natives that respect their signatures,
    a call of a public function with arguments of the declared types ends,
    within a fuel that depends on the code limit and the call depth only, with
    a value of the declared return type or with one of the errors that depend
    on data: arithmetic overflow, division by zero, gas, call depth, an abort
    or a native's error.  It never panics and never reports a stack underflow,
    a type error, a use after move, an overwritten or compared linear value,
    a bad jump, or an undefined variable, field, struct or function. *)
Theorem verified_call_safe `{PrefixHexLaws} {S} (vm : Vm S) natives cfg fuel name f args g s :
  linked vm natives cfg → wf_vm vm → wf_gas g →
  get_function (vm_module vm) name = Some f → fn_is_public f = true →
  vm_natives vm !! name = None → size (vm_deps vm) ≤ vm_max_dep_modules (vm_config vm) →
  args_ok vm (vm_module_addr vm) f args → fuel_by_depth (code_bound cfg) (vm_config vm) ≤ fuel →
  (∃ ret, fst (call vm fuel name args (g, s)) = Ok ret ∧ returns vm (vm_module_addr vm) f ret) ∨
  (∃ e, fst (call vm fuel name args (g, s)) = Err e ∧ benign e = true).
Proof.
  intros Hl Hvm Hg Hf Hpub Hnat Hsize Hargs Hfuel.
  pose proof (verified_finishes vm natives cfg Hl fuel name args g s Hvm Hg Hfuel) as Hfin.
  pose proof (call_ok vm natives cfg Hl fuel name f args Hf Hpub Hnat Hsize Hargs (g, s)) as Hok.
  destruct (fst (call vm fuel name args (g, s))); [left|right| |]; naive_solver.
Qed.

Lemma verified_call_safe_witness :
  let r := fst (call main_vm (fuel_by_depth (code_bound CompilerConfig_default) VmConfig_default)
                  "max_burn" [Value.U64 3; Value.U64 7] (gas_new 1000, tt)) in
  (∃ ret, r = Ok ret ∧ returns main_vm main_addr max_burn ret) ∨
  (∃ e, r = Err e ∧ benign e = true).
Proof.
  apply (verified_call_safe main_vm [] CompilerConfig_default).
  - apply main_vm_linked.
  - apply main_vm_wf.
  - by apply gas_new_wf.
  - reflexivity.
  - reflexivity.
  - reflexivity.
  - apply Nat.leb_le. reflexivity.
  - repeat constructor.
  - apply Nat.le_refl.
Defined.

(** ** Move semantics *)

(** The frames a function goes through, from its entry frame [fr0]. *)
Inductive reaches `{PrefixHex} {S} (vm : Vm S) (m : VmModule) (a : Address) (d : nat) (fr0 : Frame)
  : Frame → Prop :=
  | reach_entry : reaches vm m a d fr0 fr0
  | reach_step fr i fuel σ fr' σ' :
      reaches vm m a d fr0 fr → code fr !! pc fr = Some i → i ≠ Instruction.Return →
      step_once vm fuel m a d i fr σ = (Ok fr', σ') → reaches vm m a d fr0 fr'.

Lemma reaches_inv `{PrefixHexLaws} {S} (vm : Vm S) natives cfg a m f d args fr :
  linked vm natives cfg → vm_env vm !! a = Some m → f ∈ mod_functions m →
  args_ok vm a f args →
  reaches vm m a d (frame_new (fn_code f) args (fn_local_count f)) fr →
  run_inv vm natives cfg a m f fr.
Proof.
  intros Hl Hm Hf Hargs. induction 1 as [|fr i fuel σ fr' σ' _ IH Hi Hne Hs].
  - by apply run_inv_init.
  - assert (Hsafe : safe (step_once vm fuel m a d i fr) (run_inv vm natives cfg a m f)).
    { apply step_once_ok; [done..|]. intros a' m' f' d' args' ???.
      apply run_ok with natives cfg; [done..|]. by apply run_inv_init. }
    specialize (Hsafe σ). by rewrite Hs in Hsafe.
Qed.

(** C21: Verified code drops no struct.  In every frame a verified function
    goes through, control is at an instruction (it never runs off the end of
    the code); and when that instruction is [Return], no local slot and no
    stack entry under the returned value holds a linear value. *)
Theorem verified_return_drops_nothing `{PrefixHexLaws} {S} (vm : Vm S) natives cfg a m f d args fr :
  linked vm natives cfg → vm_env vm !! a = Some m → f ∈ mod_functions m →
  args_ok vm a f args →
  reaches vm m a d (frame_new (fn_code f) args (fn_local_count f)) fr →
  ∃ i, code fr !! pc fr = Some i ∧
    (i = Instruction.Return →
      Forall (λ v, Value.is_linear v = false) (tail (stack fr)) ∧
      Forall (λ o, ∀ v, o = Some v → Value.is_linear v = false) (locals fr)).
Proof.
  intros Hl Hm Hf Hargs Hr. pose proof (reaches_inv _ _ _ _ _ _ _ _ _ Hl Hm Hf Hargs Hr) as Hinv.
  destruct (run_inv_advance _ _ _ _ _ _ _ Hinv) as (i & ? & ? & ? & ? & ? & Hi & _).
  exists i. split; [done|]. intros ->. by destruct (return_ok _ _ _ _ _ _ _ Hinv Hi).
Qed.

Lemma verified_return_drops_nothing_witness :
  ∃ i, fn_code max_burn !! 0 = Some i ∧
    (i = Instruction.Return →
      Forall (λ v, Value.is_linear v = false) (tail []) ∧
      Forall (λ o, ∀ v, o = Some v → Value.is_linear v = false)
        [Some (Value.U64 3); Some (Value.U64 7)]).
Proof.
  apply (verified_return_drops_nothing main_vm [] CompilerConfig_default main_addr main max_burn 0
    [Value.U64 3; Value.U64 7] (frame_new (fn_code max_burn) [Value.U64 3; Value.U64 7] 2)).
  - apply main_vm_linked.
  - reflexivity.
  - left.
  - repeat constructor.
  - apply reach_entry.
Defined.

(** ** Cyclic struct definitions *)

(** The search for cyclic struct definitions is exact: it finishes within
    the number of structs, every report names a struct that lies on a cycle of
    field references, and there is no report exactly when the references
    between the local structs are well founded. *)
Lemma struct_cycles_exact `{PrefixHex} (m : VmModule) :
  is_Some (dfs_structs m (mod_structs m) (mkDfs ∅ ∅ [])) ∧
  (∀ e, e ∈ check_struct_cycles m →
    ∃ x, e = VerificationError.CyclicStructDefinition x ∧ tc (ref_edge m) x x) ∧
  (check_struct_cycles m = [] ↔ well_founded (flip (ref_edge m))).
Proof.
  split_and!; [apply dfs_structs_total|apply check_struct_cycles_reports|].
  split; [apply check_struct_cycles_wf|]. intros Hwf.
  destruct (check_struct_cycles m) as [|e es] eqn:He; [done|].
  destruct (check_struct_cycles_reports m e) as (x & -> & Hx); [rewrite He; left|].
  by apply (grounded_no_cycle (ref_edge m) x) in Hx.
Qed.

(** ** What the verifier lets through *)

Lemma resolve_path_app `{PrefixHex} m ty p q :
  resolve_field_path_type m ty (p ++ q) =
  ty' ← resolve_field_path_type m ty p; resolve_field_path_type m ty' q.
Proof.
  revert ty. induction p as [|f p IH]; intros ty; simpl; [done|].
  destruct (resolve_field_type m ty f); simpl; [apply IH|done].
Qed.

(** A module with a local struct [Purse] around a [Coin] of [bank]. *)
Definition purse_module (code : list Instruction.t) : VmModule :=
  mkModule "thief" [bank_addr]
    [mkStructDef "Purse" [mkFieldDef "coin" (Ty.Struct (qualify bank_addr "Coin"))] false]
    [mkFunction "forge" true [("c", Ty.Struct (qualify bank_addr "Coin"))]
       (Some (Ty.Struct (qualify bank_addr "Coin"))) 2 code].

(** Wrap the coin, write its private field through the wrapper, unwrap it. *)
Definition forge_nested : list Instruction.t :=
  [Instruction.Load 0; Instruction.NewStruct "Purse" ["coin"]; Instruction.Store 1;
   Instruction.PushU64 1000; Instruction.StoreField 1 ["coin"; "value"];
   Instruction.Load 1; Instruction.UnpackStruct "Purse" ["coin"]; Instruction.Return].
(** The same write without the wrapper. *)
Definition forge_direct : list Instruction.t :=
  [Instruction.PushU64 1000; Instruction.StoreField 0 ["value"]; Instruction.Load 0;
   Instruction.Return].

Definition coin_of (n : Z) : Value.t :=
  Value.Struct (qualify bank_addr "Coin") [("value", Value.U64 n)].
Definition thief_vm : Vm () :=
  mkVm (purse_module forge_nested) main_addr main_deps {[ MEOW_VM_ABORT := meow_vm_abort_entry ]}
    GasSchedule_default VmConfig_default.


(** A number, and even a string, is written into the coin in the purse; the
    write to the coin itself is rejected; and the machine writes. *)
Definition purse_state (val : AbstractType.t) : AbstractState :=
  mkAState [val] [Live (AbstractType.Struct (qualify bank_addr "Coin"));
                  Live (AbstractType.Struct "Purse")] true.
Definition forge_fn : Function :=
  mkFunction "forge" true [("c", Ty.Struct (qualify bank_addr "Coin"))]
    (Some (Ty.Struct (qualify bank_addr "Coin"))) 2 forge_nested.

(** So a module can forge: the write to the coin in the slot is rejected, the
    write through the purse is accepted, and the accepted module turns a coin
    of value 1 into a coin of value 1000. *)
Lemma coin_forged :
  verify (purse_module forge_direct) main_deps [] CompilerConfig_default =
    Err [VerificationError.CrossModuleFieldWrite "forge" 1 (qualify bank_addr "Coin") "value"] ∧
  verify (purse_module forge_nested) main_deps [] CompilerConfig_default = Ok () ∧
  fst (call thief_vm 20 "forge" [coin_of 1] (gas_new 1000, tt)) = Ok (Some (coin_of 1000)).
Proof. vm_compute. done. Qed.

Definition twins : VmModule :=
  mkModule "twins" [] [mkStructDef "T" [mkFieldDef "a" Ty.U64; mkFieldDef "a" Ty.U64] false]
    [mkFunction "f" true [] (Some Ty.U64) 0
       [Instruction.PushU64 1; Instruction.PushU64 2; Instruction.NewStruct "T" ["a"; "a"];
        Instruction.UnpackStruct "T" ["a"; "a"]; Instruction.Return]].
Definition typo : VmModule :=
  mkModule "typo" [] [mkStructDef "T" [mkFieldDef "a" Ty.U64] false]
    [mkFunction "f" true [("x", Ty.U64)] (Some Ty.Address) 1
       [Instruction.LoadField 0 ["nope"]; Instruction.Return]].
Definition single_vm (m : VmModule) : Vm () :=
  mkVm m main_addr ∅ {[ MEOW_VM_ABORT := meow_vm_abort_entry ]} GasSchedule_default VmConfig_default.

(** Two hypotheses of soundness are not enforced by [verify]: it accepts a
    struct with two fields of the same name, whose [UnpackStruct] then fails at
    run time with an undefined field, and a [LoadField] on a value that is not
    a struct, which then fails with a type error. *)
Lemma verify_accepts_bad_fields :
  verify twins ∅ [] CompilerConfig_default = Ok () ∧
  fst (call (single_vm twins) 20 "f" [] (gas_new 1000, tt)) =
    Err (VmError.UndefinedField (qualify main_addr "T") "a") ∧
  verify typo ∅ [] CompilerConfig_default = Ok () ∧
  fst (call (single_vm typo) 20 "f" [Value.U64 5] (gas_new 1000, tt)) =
    Err (VmError.TypeError "LoadField: expected struct at path step 0, got u64").
Proof. vm_compute. done. Qed.
