(* ===== verification/ChainTypes.v ===== *)
(** * Objects, transactions and blocks

    Models the data of [meow-types] (digests, objects, references,
    transactions, execution results, key pairs) and of [meow-nakamoto-types]
    (headers, blocks, snapshots).

    Serialization ([bcs]), hashing ([blake2]) and signatures
    ([ed25519_consensus]) are crates outside the repository: they are the
    class [Crypto], with what the code relies on in [CryptoLaws]. *)

From S2P Require Import Prelude Address VmTypes.

(** ** Digests ([digest/mod.rs]) *)
Definition DIGEST_LENGTH : nat := 32.

Record Digest := mkDigest { digest_bytes : list Z }.
Global Instance Digest_eq_dec : EqDecision Digest.
Proof. solve_decision. Defined.
Global Instance Digest_countable : Countable Digest :=
  inj_countable' digest_bytes mkDigest (λ '(mkDigest _), eq_refl).

Definition digest_ZERO : Digest := mkDigest (replicate DIGEST_LENGTH 0%Z).

Module DigestError.
Inductive t := InvalidDigestBytesLength (actual expected : nat).
End DigestError.

(** [impl TryFrom<&[u8]> for Digest]. *)
Definition digest_try_from (bytes : list Z) : outcome DigestError.t Digest :=
  if bool_decide (length bytes = DIGEST_LENGTH) then Ok (mkDigest bytes)
  else Err (DigestError.InvalidDigestBytesLength (length bytes) DIGEST_LENGTH).

(** ** Identifiers ([identifier/mod.rs]) and limits ([config/mod.rs]) *)
Definition NATIVE_FN_FRESH_ID : string := "meow_vm_fresh_id".
Definition NATIVE_FN_TRANSFER : string := "meow_vm_transfer".
Definition NATIVE_FN_DESTROY : string := "meow_vm_destroy".
Definition NATIVE_FN_SENDER : string := "meow_vm_sender".
Definition NATIVE_FN_RAND : string := "meow_vm_rand".
Definition NATIVE_FN_TIMESTAMP : string := "meow_vm_timestamp".
Definition NATIVE_FUNCTION_NAMES : list string :=
  [NATIVE_FN_FRESH_ID; NATIVE_FN_TRANSFER; NATIVE_FN_DESTROY; NATIVE_FN_SENDER;
   NATIVE_FN_RAND; NATIVE_FN_TIMESTAMP].

(** [compiler_config], [vm_config], [vm_config_privileged]. *)
Definition compiler_config : CompilerConfig :=
  with_reserved_function_names CompilerConfig_default NATIVE_FUNCTION_NAMES.
Definition vm_config : VmConfig := VmConfig_default.
Definition vm_config_privileged : VmConfig := with_enable_call_private_functions vm_config true.

Definition MAX_BCS_SERIALIZED_MODULE_SIZE : Z := 512 * 1024.
Definition MEOW_CALL_TRANSACTION_BCS_BYTES_MAX_SIZE : Z := 32 * 1024.
Definition MEOW_PUBLISH_MODULE_TRANSACTION_BCS_BYTES_MAX_SIZE : Z :=
  MAX_BCS_SERIALIZED_MODULE_SIZE + 1024.

Record Identifier := mkIdentifier { identifier_str : string }.
Global Instance Identifier_eq_dec : EqDecision Identifier.
Proof. solve_decision. Defined.

Module IdentifierError.
Inductive t := InvalidIdentifier (name : string).
End IdentifierError.

(** [Identifier::new] (also [Deserialize], [TryFrom] and [FromStr], which call it). *)
Definition identifier_new (identifier : string) : outcome IdentifierError.t Identifier :=
  if is_valid_identifier identifier compiler_config then Ok (mkIdentifier identifier)
  else Err (IdentifierError.InvalidIdentifier identifier).

(** ** Objects ([object/]) *)

(** [ObjectVersion] wraps a [u64]. *)
Record ObjectVersion := mkVersion { version_u64 : Z }.
Global Instance ObjectVersion_eq_dec : EqDecision ObjectVersion.
Proof. solve_decision. Defined.
Definition version_ZERO : ObjectVersion := mkVersion 0.
Definition version_ONE : ObjectVersion := mkVersion 1.
Definition version_MAX : ObjectVersion := mkVersion u64_max.

(** [ObjectVersion::next]. *)
Definition version_next (v : ObjectVersion) : option ObjectVersion :=
  if bool_decide (v = version_MAX) then None else Some (mkVersion (version_u64 v + 1)).

Inductive ObjectOwner :=
  | OwnerAddress (a : Address)
  | Immutable.
Global Instance ObjectOwner_eq_dec : EqDecision ObjectOwner.
Proof. solve_decision. Defined.

(** [ObjectOwner::address], [is_address_owned], [is_immutable]. *)
Definition owner_address (o : ObjectOwner) : option Address :=
  match o with OwnerAddress a => Some a | Immutable => None end.
Definition is_address_owned (o : ObjectOwner) : bool :=
  match o with OwnerAddress _ => true | Immutable => false end.
Definition is_immutable (o : ObjectOwner) : bool :=
  match o with OwnerAddress _ => false | Immutable => true end.

Record ObjectDeclRef := mkDeclRef { decl_module : Address; decl_name : Identifier }.
Global Instance ObjectDeclRef_eq_dec : EqDecision ObjectDeclRef.
Proof. solve_decision. Defined.

Inductive ObjectType :=
  | TypeModule
  | TypeObject (r : ObjectDeclRef).
Global Instance ObjectType_eq_dec : EqDecision ObjectType.
Proof. solve_decision. Defined.

Record Object := mkObject {
  obj_address : Address;
  obj_owner : ObjectOwner;
  obj_transaction : Digest;
  obj_version : ObjectVersion;
  obj_type : ObjectType;
  obj_content : list Z;
}.
Global Instance Object_eq_dec : EqDecision Object.
Proof. solve_decision. Defined.

(** [Object::fresh_object], [Object::fresh_module]. *)
Definition fresh_object (address owner : Address) (transaction : Digest)
    (object_decl_ref : ObjectDeclRef) (content : list Z) : Object :=
  mkObject address (OwnerAddress owner) transaction version_ONE (TypeObject object_decl_ref) content.
Definition fresh_module (address : Address) (transaction : Digest) (content : list Z) : Object :=
  mkObject address Immutable transaction version_ONE TypeModule content.

Record ObjectRef := mkObjectRef {
  ref_address : Address;
  ref_version : ObjectVersion;
  ref_digest : Digest;
}.
Global Instance ObjectRef_eq_dec : EqDecision ObjectRef.
Proof. solve_decision. Defined.

(** ** Transactions ([transaction/]) *)
Inductive Input :=
  | InputObject (r : ObjectRef)
  | InputRaw (bytes : list Z).
Global Instance Input_eq_dec : EqDecision Input.
Proof. solve_decision. Defined.

Record Call := mkCall {
  call_module : Address;
  call_function : Identifier;
  call_arguments : list Input;
}.
Global Instance Call_eq_dec : EqDecision Call.
Proof. solve_decision. Defined.

Inductive TransactionType :=
  | MeowCall (c : Call)
  | MeowModulePublish (module : list Z).
Global Instance TransactionType_eq_dec : EqDecision TransactionType.
Proof. solve_decision. Defined.

Record Transaction := mkTransaction {
  tx_sender : Address;
  tx_gas_coin : ObjectRef;
  tx_type : TransactionType;
}.
Global Instance Transaction_eq_dec : EqDecision Transaction.
Proof. solve_decision. Defined.

(** [Signature::Ed25519]: the signature and the verification key. *)
Record Signature := mkSignature { sig_bytes : list Z; sig_key : list Z }.
Global Instance Signature_eq_dec : EqDecision Signature.
Proof. solve_decision. Defined.

Record SignedTransaction := mkSigned {
  signed_transaction : Transaction;
  signed_signature : Signature;
}.
Global Instance SignedTransaction_eq_dec : EqDecision SignedTransaction.
Proof. solve_decision. Defined.

Inductive ExecutionStatus :=
  | Success
  | Failure (msg : string).
Global Instance ExecutionStatus_eq_dec : EqDecision ExecutionStatus.
Proof. solve_decision. Defined.

Record ExecutionResult := mkResult {
  res_status : ExecutionStatus;
  res_transaction_digest : Digest;
  res_created : list Object;
  res_changed : list Object;
  res_destroyed : list Object;
  res_gas_used : Z;
}.
Global Instance ExecutionResult_eq_dec : EqDecision ExecutionResult.
Proof. solve_decision. Defined.

(** [ExecutionResult::new], [failure], [with_gas_used]. *)
Definition result_new (status : ExecutionStatus) (d : Digest)
    (created changed destroyed : list Object) : ExecutionResult :=
  mkResult status d created changed destroyed 0.
Definition result_failure (message : string) (d : Digest) : ExecutionResult :=
  result_new (Failure message) d [] [] [].
Definition with_gas_used (r : ExecutionResult) (gas : Z) : ExecutionResult :=
  mkResult (res_status r) (res_transaction_digest r) (res_created r) (res_changed r)
    (res_destroyed r) gas.

(** ** Blocks ([meow-nakamoto-types]) *)
Record BlockHeader := mkHeader {
  height : Z;
  parent_hash : Digest;
  transactions_root : Digest;
  reward_root : option Digest;
  state_root : Digest;
  timestamp : Z;
  nonce : Z;
}.

Record MiningBlockHeader := mkMiningHeader {
  m_height : Z;
  m_parent_hash : Digest;
  m_transactions_root : Digest;
  m_timestamp : Z;
  m_nonce : Z;
}.

(** [impl From<&BlockHeader> for MiningBlockHeader]. *)
Definition mining_header (h : BlockHeader) : MiningBlockHeader :=
  mkMiningHeader (height h) (parent_hash h) (transactions_root h) (timestamp h) (nonce h).

Definition MAX_TRANSACTIONS_PER_BLOCK : nat := 256.

Record Block := mkBlock {
  block_header : BlockHeader;
  transactions : list SignedTransaction;
  results : list ExecutionResult;
  reward_transaction : option SignedTransaction;
  reward_transaction_result : option ExecutionResult;
}.

(** [Block::genesis]. *)
Definition block_genesis : Block :=
  mkBlock (mkHeader 0 digest_ZERO digest_ZERO None digest_ZERO 0 0) [] [] None None.

Record StateSnapshot := mkSnapshot {
  snap_head : Block;
  snap_objects : list Object;
}.

(** ** The cryptographic crates *)

(** What the program serializes with [bcs] in order to hash it. *)
Inductive Signable :=
  | SObject (o : Object)
  | SObjects (os : list Object)
  | STransaction (t : Transaction)
  | SDigests (ds : list Digest)
  | SHeader (h : BlockHeader)
  | SMiningHeader (h : MiningBlockHeader)
  | SBytes (bs : list Z).

Class Crypto := {
  (** [bcs::to_bytes] and [bcs::serialized_size]. *)
  bcs_to_bytes : Signable → list Z;
  bcs_serialized_size : Transaction → Z;
  (** [bcs] of the two argument types of a reward transaction. *)
  bcs_u64 : Z → list Z;
  bcs_u64_decode : list Z → option Z;
  bcs_address : Address → list Z;
  bcs_address_decode : list Z → option Address;
  (** [Blake2b::<U32>]. *)
  blake2b : list Z → list Z;
  (** [ed25519_consensus]: a signing key is its bytes. *)
  ed_public : list Z → list Z;
  ed_sign : list Z → list Z → list Z;
  ed_verify : list Z → list Z → list Z → bool;
}.

(** Documented behaviour: what a key signs verifies under its public key, and
    [bcs] decodes what it encodes. *)
Class CryptoLaws `{Crypto} := {
  ed_verify_sign sk msg : ed_verify (ed_public sk) (ed_sign sk msg) msg = true;
  bcs_u64_roundtrip n : in_u64 n → bcs_u64_decode (bcs_u64 n) = Some n;
  bcs_address_roundtrip a : wf_address a → bcs_address_decode (bcs_address a) = Some a;
}.

Section crypto.
Context `{Crypto}.

(** [Digest::compute]. *)
Definition digest_compute (s : Signable) : Digest := mkDigest (blake2b (bcs_to_bytes s)).

(** [Transaction::digest], [Object::digest], [Object::object_ref]. *)
Definition tx_digest (t : Transaction) : Digest := digest_compute (STransaction t).
Definition object_digest (o : Object) : Digest := digest_compute (SObject o).
Definition object_ref (o : Object) : ObjectRef :=
  mkObjectRef (obj_address o) (obj_version o) (object_digest o).

(** [BlockHeader::hash], [mining_hash], [Block::hash]. *)
Definition header_hash (h : BlockHeader) : Digest := digest_compute (SHeader h).
Definition mining_hash (h : BlockHeader) : Digest :=
  digest_compute (SMiningHeader (mining_header h)).
Definition block_hash (b : Block) : Digest := header_hash (block_header b).

(** The flag of [SignatureScheme::Ed25519], and [impl From<PublicKey> for Address]. *)
Definition ed25519_flag : Z := 0.
Definition address_from_public_key (key : list Z) : Address :=
  mkAddress (blake2b (ed25519_flag :: key)).

(** [u64::to_le_bytes], [Address::derive]. *)
Definition to_le_bytes (n : Z) : list Z :=
  (λ i, Z.land (Z.shiftr n (8 * Z.of_nat i)) 255) <$> seq 0 8.
Definition address_derive (d : Digest) (tag number : Z) : Address :=
  mkAddress (blake2b (tag :: digest_bytes d ++ to_le_bytes number)).

(** A [KeyPair] is its signing key; [KeyPair::sign], [Transaction::sign],
    [Signature::signer], [Signature::verify]. *)
Record KeyPair := mkKeyPair { signing_key : list Z }.
Definition keypair_address (kp : KeyPair) : Address :=
  address_from_public_key (ed_public (signing_key kp)).
Definition keypair_sign (kp : KeyPair) (msg : list Z) : Signature :=
  mkSignature (ed_sign (signing_key kp) msg) (ed_public (signing_key kp)).
Definition tx_sign (t : Transaction) (kp : KeyPair) : SignedTransaction :=
  mkSigned t (keypair_sign kp (digest_bytes (tx_digest t))).
Definition signer (s : Signature) : Address := address_from_public_key (sig_key s).
Definition signature_verify (s : Signature) (msg : list Z) : bool :=
  ed_verify (sig_key s) (sig_bytes s) msg.
End crypto.

(** ** Proof of work ([block_header.rs]) *)

(** [u8::leading_zeros]. *)
Definition u8_leading_zeros (b : Z) : Z := if Z.eqb b 0 then 8 else 7 - Z.log2 b.

(** The loop of [leading_zeros]. *)
Fixpoint leading_zeros (bytes : list Z) : Z :=
  match bytes with
  | [] => 0
  | byte :: bytes =>
      let lz := u8_leading_zeros byte in
      if Z.ltb lz 8 then lz else lz + leading_zeros bytes
  end.

(** [BlockHeader::meets_difficulty]. *)
Definition meets_difficulty `{Crypto} (h : BlockHeader) (difficulty : Z) : bool :=
  Z.leb difficulty (leading_zeros (digest_bytes (mining_hash h))).
