(* ===== verification/Convert.v ===== *)
(** * Conversion between Rust data and VM values

    Models [meow-vm-types/src/convert/mod.rs] and [error.rs].  What a Rust
    type shows a [serde] serializer is a term of [Serde]; the custom serializer
    [ValueSerializer] is the function [serialize] from it to values, and
    [ValueToRust] is [value_to_bytes].  The crate [bcs] is the class [Bcs]
    (its encodings of [u64] and of addresses are in [Crypto]), which also holds the text form of digests. *)

From S2P Require Import Prelude Address VmTypes ChainTypes.

(** ** The crates [bcs] and [bs58] *)

(** The types the program decodes, for the text of the errors. *)
Inductive BcsType := BcsU64 | BcsBool | BcsAddress | BcsString | BcsFields | BcsModule.

Class Bcs := {
  bcs_bool : bool → list Z;
  bcs_bool_decode : list Z → option bool;
  bcs_u8 : Z → list Z;
  bcs_u16 : Z → list Z;
  bcs_u32 : Z → list Z;
  bcs_str : string → list Z;
  bcs_str_decode : list Z → option string;
  (** [Vec<(String, Value)>], the content of an object. *)
  bcs_fields : list (string * Value.t) → list Z;
  bcs_fields_decode : list Z → option (list (string * Value.t));
  (** [Module], the content of a module object. *)
  bcs_module_decode : list Z → option VmModule;
  (** The text of the error of [bcs::from_bytes]; [bs58::encode]. *)
  bcs_error : BcsType → list Z → string;
  bs58_encode : list Z → string;
}.

(** What the Rust type of a value guarantees: integers and addresses in range. *)
Fixpoint wf_value (v : Value.t) : bool :=
  match v with
  | Value.U64 n => bool_decide (in_u64 n)
  | Value.Address a => bool_decide (wf_address a)
  | Value.Struct _ fields => forallb (λ f, wf_value (snd f)) fields
  | Value.Tuple values => forallb wf_value values
  | _ => true
  end.
Definition wf_fields (fs : list (string * Value.t)) : bool := forallb (λ f, wf_value (snd f)) fs.

(** Documented behaviour of [bcs]: decoding inverts encoding and yields data
    of the type asked for; a byte is encoded as itself and an array of bytes,
    being of fixed size, as its bytes. *)
Class BcsLaws `{Crypto, Bcs} := {
  bcs_fields_roundtrip fs : wf_fields fs = true → bcs_fields_decode (bcs_fields fs) = Some fs;
  bcs_fields_decode_wf bs fs : bcs_fields_decode bs = Some fs → wf_fields fs = true;
  bcs_u64_decode_wf bs n : bcs_u64_decode bs = Some n → in_u64 n;
  bcs_address_decode_wf bs a : bcs_address_decode bs = Some a → wf_address a;
  bcs_u8_eq b : bcs_u8 b = [b];
  bcs_address_eq a : wf_address a → bcs_address a = address_bytes a;
}.

(** ** Errors ([error.rs]) *)
Module ConversionError.
(** The text of [UnsupportedType] is [Msg], except where it prints a value
    with [Debug]. *)
Inductive reason :=
  | Msg (s : string)
  | ExpectedU8 (got : Value.t).
Inductive t :=
  | BcsError
  | UnsupportedType (r : reason).
End ConversionError.

(** ** The data model of [serde], as far as the serializer tells it apart *)
Inductive SerdeKind :=
  | I8 | I16 | I32 | I64 | F32 | F64 | Char | OptionNone | OptionSome | UnitValue | UnitStruct
  | UnitVariant | NewtypeVariant | Seq | TupleStruct | TupleVariant | MapValue | StructVariant.

Module Serde.
Inductive t :=
  | Bool (b : bool)
  | U8 (n : Z)
  | U16 (n : Z)
  | U32 (n : Z)
  | U64 (n : Z)
  | Str (s : string)
  | Bytes (bs : list Z)
  | Struct (name : string) (fields : list (string * t))
  | Tuple (elements : list t)
  | NewtypeStruct (name : string) (value : t)
  | Unsupported (k : SerdeKind).

Section ind.
Context (P : t → Prop).
Context (HBool : ∀ b, P (Bool b)) (HU8 : ∀ n, P (U8 n)) (HU16 : ∀ n, P (U16 n)).
Context (HU32 : ∀ n, P (U32 n)) (HU64 : ∀ n, P (U64 n)) (HStr : ∀ s, P (Str s)).
Context (HBytes : ∀ bs, P (Bytes bs)).
Context (HStruct : ∀ n fs, Forall (λ f, P (snd f)) fs → P (Struct n fs)).
Context (HTuple : ∀ es, Forall P es → P (Tuple es)).
Context (HNewtype : ∀ n v, P v → P (NewtypeStruct n v)).
Context (HUnsupported : ∀ k, P (Unsupported k)).
Fixpoint ind' (d : t) : P d :=
  match d with
  | Bool b => HBool b
  | U8 n => HU8 n
  | U16 n => HU16 n
  | U32 n => HU32 n
  | U64 n => HU64 n
  | Str s => HStr s
  | Bytes bs => HBytes bs
  | Struct n fs =>
      HStruct n fs ((fix go fs : Forall (λ f, P (snd f)) fs :=
        match fs with
        | [] => Forall_nil_2 _
        | f :: fs => Forall_cons_2 _ f fs (ind' (snd f)) (go fs)
        end) fs)
  | Tuple es =>
      HTuple es ((fix go es : Forall P es :=
        match es with
        | [] => Forall_nil_2 P
        | e :: es => Forall_cons_2 P e es (ind' e) (go es)
        end) es)
  | NewtypeStruct n v => HNewtype n v (ind' v)
  | Unsupported k => HUnsupported k
  end.
End ind.
End Serde.

(** The messages of the methods that only report. *)
Definition unsupported_message (k : SerdeKind) : string :=
  match k with
  | I8 => "i8" | I16 => "i16" | I32 => "i32" | I64 => "i64" | F32 => "f32" | F64 => "f64"
  | Char => "char"
  | OptionNone => "Option::None"
  | OptionSome => "Option::Some"
  | UnitValue => "unit"
  | UnitStruct => "unit struct"
  | UnitVariant => "unit variant"
  | NewtypeVariant => "newtype variant"
  | Seq => "seq"
  | TupleStruct => "tuple struct"
  | TupleVariant => "tuple variant"
  | MapValue => "map"
  | StructVariant => "struct variant"
  end.

Definition unsupported {A} (msg : string) : outcome ConversionError.t A :=
  Err (ConversionError.UnsupportedType (ConversionError.Msg msg)).

(** The name translation of [serialize_struct]. *)
Definition translate (type_names : list (string * string)) (name : string) : string :=
  default name (snd <$> find_first (λ p, String.eqb (fst p) name) type_names).

(** The loop of [TupleSerializer::end]. *)
Fixpoint address_elements (elements : list Value.t) : outcome ConversionError.t (list Z) :=
  match elements with
  | [] => Ok []
  | v :: elements =>
      match v with
      | Value.U64 b =>
          if Z.leb b 255 then bs ← address_elements elements; Ok (b :: bs)
          else Err (ConversionError.UnsupportedType (ConversionError.ExpectedU8 v))
      | other => Err (ConversionError.UnsupportedType (ConversionError.ExpectedU8 other))
      end
  end.

(** [TupleSerializer::end]. *)
Definition tuple_end (elements : list Value.t) : outcome ConversionError.t Value.t :=
  if bool_decide (length elements = 32) then
    bs ← address_elements elements; Ok (Value.Address (mkAddress bs))
  else unsupported ("tuple of length " +:+ pretty (length elements) +:+
                    "; only [u8; 32] tuples are supported").

(** [ValueSerializer], with [StructSerializer] and [TupleSerializer]. *)
Fixpoint serialize (type_names : list (string * string)) (d : Serde.t)
  : outcome ConversionError.t Value.t :=
  match d with
  | Serde.Bool v => Ok (Value.Bool v)
  | Serde.U8 v | Serde.U16 v | Serde.U32 v | Serde.U64 v => Ok (Value.U64 v)
  | Serde.Str v => Ok (Value.Str v)
  | Serde.Bytes v =>
      unsupported ("byte slice of length " +:+ pretty (length v) +:+ "; use [u8; 32] for addresses")
  | Serde.Struct name fields =>
      fields ← (fix go fields : outcome ConversionError.t (list (string * Value.t)) :=
        match fields with
        | [] => Ok []
        | (key, value) :: fields =>
            v ← serialize type_names value; vs ← go fields; Ok ((key, v) :: vs)
        end) fields;
      Ok (Value.Struct (translate type_names name) fields)
  | Serde.Tuple elements =>
      elements ← (fix go elements : outcome ConversionError.t (list Value.t) :=
        match elements with
        | [] => Ok []
        | value :: elements => v ← serialize [] value; vs ← go elements; Ok (v :: vs)
        end) elements;
      tuple_end elements
  | Serde.NewtypeStruct _ value => serialize type_names value
  | Serde.Unsupported k => unsupported (unsupported_message k)
  end.

(** The trait [VmTypeNames] with [Serialize], and [struct_from_rust]. *)
Class VmTypeNames (T : Type) := {
  to_serde : T → Serde.t;
  type_names : list (string * string);
}.
Arguments type_names T {_}.
Definition struct_from_rust {T} `{VmTypeNames T} (val : T) : outcome ConversionError.t Value.t :=
  serialize (type_names T) (to_serde val).

Section bytes.
Context `{Crypto, Bcs}.

(** [ValueToRust], serialized by [bcs::to_bytes]. *)
Fixpoint value_to_bytes (v : Value.t) : outcome ConversionError.t (list Z) :=
  match v with
  | Value.Bool b => Ok (bcs_bool b)
  | Value.U64 n => Ok (bcs_u64 n)
  | Value.Address a => Ok (bcs_address a)
  | Value.Str s => Ok (bcs_str s)
  | Value.Void => Err ConversionError.BcsError
  | Value.Tuple _ => Err ConversionError.BcsError
  | Value.Struct _ fields =>
      (fix go fields : outcome ConversionError.t (list Z) :=
         match fields with
         | [] => Ok []
         | f :: fields => b ← value_to_bytes (snd f); bs ← go fields; Ok (b ++ bs)
         end) fields
  end.

(** [value_to_rust::<T>]; [decode] is [bcs::from_bytes::<T>]. *)
Definition value_to_rust {T} (decode : list Z → option T) (v : Value.t)
  : outcome ConversionError.t T :=
  bytes ← value_to_bytes v;
  ok_or (decode bytes) ConversionError.BcsError.

(** What [bcs] writes for the Rust data itself: structs and tuples are their
    parts in order, a newtype is what it wraps. *)
Fixpoint serde_bytes (d : Serde.t) : list Z :=
  match d with
  | Serde.Bool b => bcs_bool b
  | Serde.U8 n => bcs_u8 n
  | Serde.U16 n => bcs_u16 n
  | Serde.U32 n => bcs_u32 n
  | Serde.U64 n => bcs_u64 n
  | Serde.Str s => bcs_str s
  | Serde.Struct _ fields => mjoin (map (λ f, serde_bytes (snd f)) fields)
  | Serde.Tuple elements => mjoin (map serde_bytes elements)
  | Serde.NewtypeStruct _ v => serde_bytes v
  | Serde.Bytes _ | Serde.Unsupported _ => []
  end.
End bytes.

(** ** Lemmas *)

(** Integers narrower than 64 bits occur in byte arrays only. *)
Fixpoint no_narrow (d : Serde.t) : bool :=
  match d with
  | Serde.U8 _ | Serde.U16 _ | Serde.U32 _ => false
  | Serde.Struct _ fields => forallb (λ f, no_narrow (snd f)) fields
  | Serde.Tuple elements => forallb (λ e, match e with Serde.U8 n => bool_decide (is_byte n) | _ => false end) elements
  | Serde.NewtypeStruct _ v => no_narrow v
  | _ => true
  end.

(** The bytes of a list of fields. *)
Fixpoint fields_bytes `{Crypto, Bcs} (fields : list (string * Value.t))
  : outcome ConversionError.t (list Z) :=
  match fields with
  | [] => Ok []
  | f :: fields => b ← value_to_bytes (snd f); bs ← fields_bytes fields; Ok (b ++ bs)
  end.

Lemma address_elements_bytes bs :
  Forall is_byte bs → address_elements (Value.U64 <$> bs) = Ok bs.
Proof.
  induction 1 as [|b bs Hb _ IH]; csimpl; [done|].
  unfold is_byte in Hb. rewrite (proj2 (Z.leb_le b 255)) by lia. by rewrite IH.
Qed.

(** A tuple of byte-valued elements. *)
Lemma serialize_tuple es :
  forallb (λ e, match e with Serde.U8 n => bool_decide (is_byte n) | _ => false end) es = true →
  ∃ bs, es = Serde.U8 <$> bs ∧ Forall is_byte bs.
Proof.
  induction es as [|e es IH]; simpl; [by exists []|].
  intros [He Hes]%andb_true_iff. destruct e as [|n| | | | | | | | |]; try done.
  apply bool_decide_eq_true in He. destruct IH as (bs & -> & Hbs); [done|].
  exists (n :: bs). split; [done|by constructor].
Qed.

Lemma serialize_elements_bytes bs :
  (fix go elements : outcome ConversionError.t (list Value.t) :=
     match elements with
     | [] => Ok []
     | value :: elements => v ← serialize [] value; vs ← go elements; Ok (v :: vs)
     end) (Serde.U8 <$> bs) = Ok (Value.U64 <$> bs).
Proof. induction bs as [|b bs IH]; cbn; [done|]. by rewrite IH. Qed.

Lemma serialize_bytes_ok tn bs :
  Forall is_byte bs → length bs = 32 →
  serialize tn (Serde.Tuple (Serde.U8 <$> bs)) = Ok (Value.Address (mkAddress bs)).
Proof.
  intros Hbs Hl. cbn [serialize]. rewrite serialize_elements_bytes. cbn [mbind outcome_bind].
  unfold tuple_end. rewrite length_fmap, bool_decide_true by done.
  by rewrite address_elements_bytes.
Qed.

Lemma serialize_bytes_tuple tn bs v :
  serialize tn (Serde.Tuple (Serde.U8 <$> bs)) = Ok v → length bs = 32.
Proof.
  cbn [serialize]. rewrite serialize_elements_bytes. cbn [mbind outcome_bind].
  unfold tuple_end. rewrite length_fmap. by case_bool_decide.
Qed.

Section conversion.
Context `{BcsLaws}.

Lemma value_to_bytes_struct n fs : value_to_bytes (Value.Struct n fs) = fields_bytes fs.
Proof. simpl. induction fs as [|f fs IH]; simpl; [done|]. by rewrite IH. Qed.

(** The VM value of Rust data has the bytes of the data. *)
Lemma serialize_layout tn d v :
  serialize tn d = Ok v → no_narrow d = true → value_to_bytes v = Ok (serde_bytes d).
Proof.
  revert tn v.
  induction d as [b|n|n|n|n|s|bs|n fs IH|es _|n d IH|k] using Serde.ind'; intros tn v Hs Hw;
    simplify_eq/=; try done; [| |by eapply IH].
  - apply bind_Ok in Hs as (vs & Hs & ?); simplify_eq.
    change (value_to_bytes (Value.Struct (translate tn n) vs) = Ok (mjoin (map (λ f, serde_bytes (snd f)) fs))).
    rewrite value_to_bytes_struct. revert vs Hs. induction IH as [|[k d] fs Hd _ IH];
      intros vs Hs; simplify_eq/=; [done|].
    apply bind_Ok in Hs as (v & Hv & Hs). apply bind_Ok in Hs as (ws & Hws & ?); simplify_eq.
    apply andb_true_iff in Hw as [Hw1 Hw2]. simpl. rewrite (Hd _ _ Hv) by done. simpl.
    by rewrite (IH Hw2 _ Hws).
  - apply serialize_tuple in Hw as (bs & -> & Hbs).
    pose proof (serialize_bytes_tuple tn bs v Hs) as Hl.
    pose proof (serialize_bytes_ok tn bs Hbs Hl) as Hv. cbn [serialize] in Hv.
    rewrite Hv in Hs. simplify_eq. cbn [value_to_bytes].
    rewrite bcs_address_eq by done. f_equal. cbn [address_bytes]. clear Hl Hbs Hv.
    induction bs as [|b bs IH]; csimpl; [done|]. by rewrite bcs_u8_eq, <-IH.
Qed.
End conversion.
