(* ===== verification/Framework.v ===== *)
(** * The system framework of [meow-types]

    Models [system_framework/] (the object identity and the native coin) and
    [object/object_conversion/]: how on-chain objects become VM values and
    come back. *)

From S2P Require Import Prelude Address VmTypes ChainTypes Convert.

(** ** Object identity ([meow_object.rs]) *)
Definition MEOW_SYSTEM_ADDRESS : Address := address_ZERO.
Definition MEOW_OBJECT_MODULE_ADDRESS : Address := address_suffixed 16.
Definition MEOW_OBJECT_ID_OBJECT_NAME : string := "Id".
Definition MEOW_OBJECT_ID_FIELD_NAME : string := "id".
Definition MEOW_OBJECT_ID_BYTECODE_TYPE_NAME : string :=
  "@0x0000000000000000000000000000000000000000000000000000000000000010::Id".

Record MeowObjectId := mkObjectId { inner : Address }.

(** The derived [Serialize] of a newtype of [[u8; 32]]. *)
Definition address_to_serde (a : Address) : Serde.t :=
  Serde.NewtypeStruct "Address" (Serde.Tuple (Serde.U8 <$> address_bytes a)).

Definition object_id_to_serde (id : MeowObjectId) : Serde.t :=
  Serde.Struct "MeowObjectId" [("inner", address_to_serde (inner id))].
Global Instance MeowObjectId_type_names : VmTypeNames MeowObjectId := {|
  to_serde := object_id_to_serde;
  type_names := [("MeowObjectId", MEOW_OBJECT_ID_BYTECODE_TYPE_NAME)];
|}.

(** [impl From<MeowObjectId> for Value] calls [expect]; for an address of 32
    bytes the conversion succeeds with this value ([object_id_to_value]). *)
Definition id_value (a : Address) : Value.t :=
  Value.Struct MEOW_OBJECT_ID_BYTECODE_TYPE_NAME [("inner", Value.Address a)].

(** [is_object_struct]. *)
Definition is_object_struct (s : StructDef) : bool :=
  match sd_fields s with
  | f :: _ => String.eqb (fd_name f) MEOW_OBJECT_ID_FIELD_NAME &&
              bool_decide (fd_ty f = Ty.Struct MEOW_OBJECT_ID_BYTECODE_TYPE_NAME)
  | [] => false
  end.

Section object.
Context `{Crypto, Bcs}.

(** [convert::value_to_rust::<MeowObjectId>]: a struct of one field has the
    layout of the field. *)
Definition value_to_object_id (v : Value.t) : outcome ConversionError.t MeowObjectId :=
  value_to_rust (λ bs, mkObjectId <$> bcs_address_decode bs) v.

(** [object_address]. *)
Definition object_address (value : Value.t) : option Address :=
  id_val ← Value.field value MEOW_OBJECT_ID_FIELD_NAME;
  match value_to_object_id id_val with
  | Ok id => Some (inner id)
  | _ => None
  end.
End object.

(** ** The native coin ([meow_coin.rs]) *)
Definition MEOW_COIN_MODULE_ADDRESS : Address := address_suffixed 32.
Definition MEOW_COIN_OBJECT_NAME : string := "MeowCoin".
Definition MEOW_COIN_BALANCE_STRUCT_NAME : string := "MeowCoinBalance".
Definition MEOW_COIN_MINT_FUNCTION_NAME : string := "mint".
Definition MEOW_COIN_OBJECT_BYTECODE_TYPE_NAME : string :=
  "@0x0000000000000000000000000000000000000000000000000000000000000020::MeowCoin".
Definition MEOW_COIN_BALANCE_BYTECODE_TYPE_NAME : string :=
  "@0x0000000000000000000000000000000000000000000000000000000000000020::MeowCoinBalance".

Record MeowCoin := mkCoin { coin_id : MeowObjectId; coin_balance : Z }.
Definition coin_new (id : Address) (balance : Z) : MeowCoin := mkCoin (mkObjectId id) balance.
Global Instance MeowCoin_type_names : VmTypeNames MeowCoin := {|
  to_serde c := Serde.Struct "MeowCoin"
    [("id", object_id_to_serde (coin_id c)); ("balance", Serde.U64 (coin_balance c))];
  type_names := [("MeowCoin", MEOW_COIN_OBJECT_BYTECODE_TYPE_NAME);
                 ("MeowObjectId", MEOW_OBJECT_ID_BYTECODE_TYPE_NAME)];
|}.

Record MeowCoinBalance := mkCoinBalance { amount : Z }.
Global Instance MeowCoinBalance_type_names : VmTypeNames MeowCoinBalance := {|
  to_serde b := Serde.Struct "MeowCoinBalance" [("amount", Serde.U64 (amount b))];
  type_names := [("MeowCoinBalance", MEOW_COIN_BALANCE_BYTECODE_TYPE_NAME)];
|}.

(** [is_meow_coin], [is_meow_coin_object_decl_ref], [is_meow_coin_object],
    [is_meow_coin_balance]. *)
Definition is_meow_coin (module : Address) (name : string) : bool :=
  bool_decide (module = MEOW_COIN_MODULE_ADDRESS) && String.eqb name MEOW_COIN_OBJECT_NAME.
Definition is_meow_coin_object_decl_ref (r : ObjectDeclRef) : bool :=
  is_meow_coin (decl_module r) (identifier_str (decl_name r)).
Definition is_meow_coin_object (object : Object) : bool :=
  match obj_type object with
  | TypeObject r => is_meow_coin_object_decl_ref r
  | TypeModule => false
  end.
Definition is_meow_coin_balance (module : Address) (name : string) : bool :=
  bool_decide (module = MEOW_COIN_MODULE_ADDRESS) && String.eqb name MEOW_COIN_BALANCE_STRUCT_NAME.

Definition BALANCE_FIELD_NAME : string := "balance".
Definition AMOUNT_FIELD_NAME : string := "amount".

(** [meow_coin_object::balance_from_value], [meow_coin_balance_struct::amount]. *)
Definition balance_from_value (coin : Value.t) : option Z :=
  if String.eqb (Value.type_name coin) MEOW_COIN_OBJECT_BYTECODE_TYPE_NAME
  then Value.field_u64 coin BALANCE_FIELD_NAME else None.
Definition balance_struct_amount (v : Value.t) : option Z :=
  if String.eqb (Value.type_name v) MEOW_COIN_BALANCE_BYTECODE_TYPE_NAME
  then Value.field_u64 v AMOUNT_FIELD_NAME else None.

(** The loop of [deduct_gas] over the fields; [None] when the balance is not
    a [u64]. *)
Fixpoint deduct_balance (spent : Z) (fields : list (string * Value.t))
  : option (list (string * Value.t)) :=
  match fields with
  | [] => Some []
  | (name, val) :: fields =>
      if String.eqb name BALANCE_FIELD_NAME then
        current ← Value.as_u64 val;
        Some ((name, Value.U64 (saturating_sub current spent)) :: fields)
      else fields ← deduct_balance spent fields; Some ((name, val) :: fields)
  end.

Section coin.
Context `{Bcs}.

(** [meow_coin_object::balance_from_object]. *)
Definition balance_from_object (coin : Object) : option Z :=
  if negb (is_meow_coin_object coin) then None
  else
    fields ← bcs_fields_decode (obj_content coin);
    Value.find_field BALANCE_FIELD_NAME fields ≫= Value.as_u64.

(** [meow_coin_object::deduct_gas]. *)
Definition deduct_gas (gas_coin : Object) (spent : Z) : option (list Z) :=
  if negb (is_meow_coin_object gas_coin) then None
  else
    fields ← bcs_fields_decode (obj_content gas_coin);
    fields ← deduct_balance spent fields;
    Some (bcs_fields fields).
End coin.

(** ** Conversion of objects ([object_conversion/]) *)
Module ObjectConversionError.
Inductive t :=
  | InvalidObjectType
  | InvalidVMValueType
  | InvalidTypeName
  | MissingIdField
  | InvalidContent (msg : string)
  | InvalidIdentifier (msg : string).

(** The [Display] of the error. *)
Definition to_string (e : t) : string :=
  match e with
  | InvalidObjectType => "invalid object type"
  | InvalidVMValueType => "invalid VM value type"
  | InvalidTypeName => "type name is not a qualified address::name reference"
  | MissingIdField => "object struct is missing the required id field"
  | InvalidContent m => "object content is not valid BCS: " +:+ m
  | InvalidIdentifier m => "VM type name is not a valid identifier: " +:+ m
  end.
End ObjectConversionError.

Section object_conversion.
Context `{PrefixHex, Crypto, Bcs}.

(** [object_to_vm_object_value]. *)
Definition object_to_vm_object_value (obj : Object) : outcome ObjectConversionError.t Value.t :=
  match obj_type obj with
  | TypeModule => Err ObjectConversionError.InvalidObjectType
  | TypeObject decl =>
      let type_name := qualify (decl_module decl) (identifier_str (decl_name decl)) in
      fields ← ok_or (bcs_fields_decode (obj_content obj))
                 (ObjectConversionError.InvalidContent (bcs_error BcsFields (obj_content obj)));
      Ok (Value.Struct type_name
            ((MEOW_OBJECT_ID_FIELD_NAME, id_value (obj_address obj)) :: fields))
  end.

(** [IdentifierError]'s text. *)
Definition identifier_error_text (e : IdentifierError.t) : string :=
  match e with IdentifierError.InvalidIdentifier name => "invalid identifier: " +:+ name end.

(** [vm_object_value_to_object]. *)
Definition vm_object_value_to_object (val : Value.t) (owner : ObjectOwner) (tx_digest : Digest)
    (version : ObjectVersion) : outcome ObjectConversionError.t Object :=
  match val with
  | Value.Struct type_name fields =>
      '(vm_module_addr, struct_name) ←
        ok_or (parse_module_ref type_name) ObjectConversionError.InvalidTypeName;
      id ← map_err (λ e, ObjectConversionError.InvalidIdentifier (identifier_error_text e))
             (identifier_new struct_name);
      address ← ok_or (object_address val) ObjectConversionError.MissingIdField;
      let content_fields :=
        filter (λ f : string * Value.t, fst f ≠ MEOW_OBJECT_ID_FIELD_NAME) fields in
      Ok (mkObject address owner tx_digest version (TypeObject (mkDeclRef vm_module_addr id))
            (bcs_fields content_fields))
  | _ => Err ObjectConversionError.InvalidVMValueType
  end.

(** [impl Display for Value]. *)
Definition double_quote : string := String (ascii_of_nat 34) EmptyString.
Fixpoint value_to_string (v : Value.t) : string :=
  match v with
  | Value.Bool b => if b then "true" else "false"
  | Value.U64 n => pretty n
  | Value.Address a => address_to_string a
  | Value.Str s => double_quote +:+ s +:+ double_quote
  | Value.Void => "void"
  | Value.Struct type_name fields =>
      type_name +:+ " { " +:+
      Ty.join ", " (map (λ f, fst f +:+ ": " +:+ value_to_string (snd f)) fields) +:+ " }"
  | Value.Tuple values => "(" +:+ Ty.join ", " (map value_to_string values) +:+ ")"
  end.

(** [extract_human_readable_content]: a later field of the same name wins. *)
Definition extract_human_readable_content (object : Object) : option (gmap string string) :=
  match obj_type object with
  | TypeModule => None
  | TypeObject _ =>
      fields ← bcs_fields_decode (obj_content object);
      Some (foldl (λ m f, <[fst f := value_to_string (snd f)]> m) ∅ fields)
  end.
End object_conversion.

(** ** Lemmas *)

Lemma address_to_value tn a :
  wf_address a → serialize tn (address_to_serde a) = Ok (Value.Address a).
Proof.
  intros [Hl Hb]. destruct a as [bs]. simpl in *.
  change (serialize tn (Serde.Tuple (Serde.U8 <$> bs)) = Ok (Value.Address (mkAddress bs))).
  by apply serialize_bytes_ok.
Qed.

(** [From<MeowObjectId> for Value] does not panic. *)
Lemma object_id_to_value a : wf_address a → struct_from_rust (mkObjectId a) = Ok (id_value a).
Proof.
  intros Ha. unfold struct_from_rust, to_serde, MeowObjectId_type_names, object_id_to_serde.
  cbn -[address_to_serde serialize]. cbn [serialize]. by rewrite address_to_value.
Qed.

Lemma coin_to_value a n :
  wf_address a →
  struct_from_rust (coin_new a n) =
    Ok (Value.Struct MEOW_COIN_OBJECT_BYTECODE_TYPE_NAME
          [("id", id_value a); ("balance", Value.U64 n)]).
Proof.
  intros Ha. unfold struct_from_rust, to_serde, MeowCoin_type_names, object_id_to_serde, coin_new.
  cbn [serialize coin_id coin_balance inner]. by rewrite address_to_value.
Qed.

Section framework.
Context `{PrefixHexLaws, !Crypto, !Bcs, !CryptoLaws, !BcsLaws}.

Lemma object_id_roundtrip a :
  wf_address a → value_to_object_id (id_value a) = Ok (mkObjectId a).
Proof.
  intros Ha. unfold value_to_object_id, value_to_rust, id_value. simpl.
  by rewrite app_nil_r, bcs_address_roundtrip.
Qed.

Lemma object_address_head tn a fs :
  wf_address a →
  object_address (Value.Struct tn ((MEOW_OBJECT_ID_FIELD_NAME, id_value a) :: fs)) = Some a.
Proof. intros Ha. unfold object_address. simpl. by rewrite object_id_roundtrip. Qed.

Lemma object_address_wf v a : object_address v = Some a → wf_address a.
Proof.
  unfold object_address, value_to_object_id, value_to_rust. intros Hv.
  destruct (Value.field v _) as [w|]; simplify_eq/=.
  destruct (value_to_bytes w) as [bs| | |]; simplify_eq/=.
  destruct (bcs_address_decode bs) as [b|] eqn:Hb; simplify_eq/=.
  by eapply bcs_address_decode_wf.
Qed.

(** No field of an object's content is called [id]. *)
Definition no_id (fs : list (string * Value.t)) : Prop :=
  Forall (λ f, fst f ≠ MEOW_OBJECT_ID_FIELD_NAME) fs.

Lemma filter_no_id fs :
  no_id fs → filter (λ f : string * Value.t, fst f ≠ MEOW_OBJECT_ID_FIELD_NAME) fs = fs.
Proof.
  induction 1 as [|f fs Hf _ IH]; [done|]. rewrite filter_cons_True by done. by rewrite IH.
Qed.

(** An object as the adapter can hold it. *)
Record wf_object (o : Object) (decl : ObjectDeclRef) (fs : list (string * Value.t)) : Prop := {
  wo_address : wf_address (obj_address o);
  wo_type : obj_type o = TypeObject decl;
  wo_module : wf_address (decl_module decl);
  wo_name : is_valid_identifier (identifier_str (decl_name decl)) compiler_config = true;
  wo_content : bcs_fields_decode (obj_content o) = Some fs;
  wo_no_id : no_id fs;
}.

(** Object to value and back: the object with its fields re-encoded. *)
Lemma object_value_roundtrip o decl fs owner d ver :
  wf_object o decl fs →
  ∃ v, object_to_vm_object_value o = Ok v ∧
    vm_object_value_to_object v owner d ver =
      Ok (mkObject (obj_address o) owner d ver (obj_type o) (bcs_fields fs)).
Proof.
  intros [Ha Ht Hm Hn Hc Hid]. unfold object_to_vm_object_value. rewrite Ht, Hc.
  eexists. split; [reflexivity|]. unfold vm_object_value_to_object.
  rewrite parse_qualify by done. cbn [ok_or mbind outcome_bind].
  unfold identifier_new. rewrite Hn. cbn [ok_or mbind outcome_bind map_err].
  rewrite object_address_head by done. cbn [ok_or mbind outcome_bind].
  rewrite filter_cons_False by (by intros []). rewrite filter_no_id by done.
  by destruct decl as [m [n]].
Qed.

Lemma find_field_deduct spent fs fs' b :
  Value.find_field BALANCE_FIELD_NAME fs = Some b → deduct_balance spent fs = Some fs' →
  ∃ n, b = Value.U64 n ∧
    Value.find_field BALANCE_FIELD_NAME fs' = Some (Value.U64 (saturating_sub n spent)).
Proof.
  unfold Value.find_field. revert fs'. induction fs as [|[k v] fs IH]; intros fs' Hf Hd;
    simpl in *; [done|].
  destruct (String.eqb_spec k BALANCE_FIELD_NAME) as [->|Hk]; simplify_eq/=.
  - destruct b; simplify_eq/=. eauto.
  - destruct (deduct_balance spent fs) as [gs|] eqn:Hg; simplify_eq/=.
    rewrite (proj2 (String.eqb_neq k BALANCE_FIELD_NAME)) by done. by apply IH.
Qed.

(** Deducting changes the balance and no other field. *)
Lemma deduct_balance_other spent fs fs' name :
  name ≠ BALANCE_FIELD_NAME → deduct_balance spent fs = Some fs' →
  Value.find_field name fs' = Value.find_field name fs.
Proof.
  intros Hne. unfold Value.find_field. revert fs'. induction fs as [|[k v] fs IH]; intros fs' Hd;
    cbn [deduct_balance find_first fst] in *; [by simplify_eq|].
  destruct (String.eqb_spec k BALANCE_FIELD_NAME) as [->|Hk].
  - destruct (Value.as_u64 v) as [n|]; [|done]. injection Hd as <-. cbn [find_first fst].
    by rewrite (proj2 (String.eqb_neq BALANCE_FIELD_NAME name)) by done.
  - destruct (deduct_balance spent fs) as [gs|] eqn:Hg; simplify_eq/=.
    destruct (String.eqb k name); [done|]. by apply IH.
Qed.

Lemma deduct_balance_Some spent fs b n :
  Value.find_field BALANCE_FIELD_NAME fs = Some b → Value.as_u64 b = Some n →
  is_Some (deduct_balance spent fs).
Proof.
  unfold Value.find_field. induction fs as [|[k v] fs IH]; intros Hf Hb; simpl in *; [done|].
  destruct (String.eqb k BALANCE_FIELD_NAME); simplify_eq/=.
  - rewrite Hb. by eexists.
  - destruct IH as [? ->]; [done..|]. by eexists.
Qed.

Lemma deduct_balance_wf spent fs fs' :
  (0 ≤ spent)%Z → wf_fields fs = true → deduct_balance spent fs = Some fs' → wf_fields fs' = true.
Proof.
  intros Hs. revert fs'. induction fs as [|[k v] fs IH]; intros fs' Hw Hd; simplify_eq/=; [done|].
  unfold wf_fields in *. simpl in Hw. apply andb_true_iff in Hw as [Hv Hw].
  destruct (String.eqb k BALANCE_FIELD_NAME); simplify_eq/=.
  - destruct v; simplify_eq/=. rewrite Hw, andb_true_r. apply bool_decide_eq_true in Hv.
    apply bool_decide_eq_true. unfold in_u64, saturating_sub in *. lia.
  - destruct (deduct_balance spent fs) as [gs|]; simplify_eq/=. rewrite Hv. by apply IH.
Qed.

(** A coin whose balance can be read can be charged, and then holds the rest. *)
Lemma deduct_gas_balance coin n spent :
  (0 ≤ spent)%Z → balance_from_object coin = Some n →
  ∃ content, deduct_gas coin spent = Some content ∧
    ∀ c, obj_type c = obj_type coin → obj_content c = content →
      balance_from_object c = Some (saturating_sub n spent).
Proof.
  intros Hs. unfold balance_from_object, deduct_gas.
  destruct (is_meow_coin_object coin) eqn:Hc; simpl; [|done].
  destruct (bcs_fields_decode (obj_content coin)) as [fs|] eqn:Hd; simpl; [|done].
  destruct (Value.find_field BALANCE_FIELD_NAME fs) as [b|] eqn:Hb; simpl; [|done]. intros Hn.
  destruct (deduct_balance_Some spent _ _ _ Hb Hn) as [gs Hg]. rewrite Hg. eexists. split; [done|].
  intros c Ht ->. unfold is_meow_coin_object in *. rewrite Ht, Hc. simpl.
  rewrite bcs_fields_roundtrip
    by (eapply deduct_balance_wf; [done| |done]; by eapply bcs_fields_decode_wf).
  destruct (find_field_deduct _ _ _ _ Hb Hg) as (k & -> & Hk). simplify_eq/=. by rewrite Hk.
Qed.

Lemma balance_in_u64 coin n : balance_from_object coin = Some n → in_u64 n.
Proof.
  unfold balance_from_object. destruct (is_meow_coin_object coin); simpl; [|done].
  destruct (bcs_fields_decode (obj_content coin)) as [fs|] eqn:Hd; simpl; [|done].
  apply bcs_fields_decode_wf in Hd. unfold wf_fields in Hd. rewrite forallb_forall in Hd.
  unfold Value.find_field. destruct (find_first _ fs) as [[k v]|] eqn:Hf; simpl; [|done].
  apply find_first_Some in Hf as [Hin _]. apply list_elem_of_In, Hd in Hin. simpl in Hin.
  destruct v; simpl; intros ?; simplify_eq/=. by apply bool_decide_eq_true in Hin.
Qed.
End framework.
