(* ===== verification/Context.v ===== *)
(** * The execution context and the natives of the adapter

    Models [external_context.rs], [context.rs] and [natives.rs] of
    [meow-vm-adapter].  The closures of [build_natives] share the context
    through an [Rc<RefCell<_>>]; here each native is a function of it.  The
    generator [StdRng] of the crate [rand] is the class [Rng]. *)

From S2P Require Import Prelude Address VmTypes ChainTypes Convert Framework.

(** ** The crate [rand] *)
Class Rng := {
  StdRng : Type;
  rng_from_seed : list Z → StdRng;
  rng_next_u64 : StdRng → Z * StdRng;
}.

(** ** [ExternalContext]: the seed is the mining hash of the block *)
Record ExternalContext := mkContext { rand_seed : Digest; ctx_timestamp : Z }.
Definition DEFAULT_RAND_SEED : Digest := mkDigest (replicate 32 0%Z).
Definition ExternalContext_default : ExternalContext := mkContext DEFAULT_RAND_SEED 0.

(** ** [Context] *)
Record Context `{Rng} := mkCtx {
  cx_sender : Address;
  cx_tx_digest : Digest;
  cx_id_counter : Z;
  cx_fresh_ids : list Address;
  cx_transfers : list (Value.t * Address);
  cx_destroyed : list Address;
  cx_random_generator : StdRng;
  cx_timestamp : Z;
}.

Section context.
Context `{Crypto, Bcs, Rng}.

(** [create_random_generator]. *)
Definition create_random_generator (tx_digest rand_seed : Digest) : StdRng :=
  let signable := digest_bytes tx_digest ++ digest_bytes rand_seed in
  rng_from_seed (digest_bytes (digest_compute (SBytes signable))).

(** [Context::new]. *)
Definition context_new (sender : Address) (tx_digest rand_seed : Digest) (timestamp : Z) : Context :=
  mkCtx _ sender tx_digest 0 [] [] [] (create_random_generator tx_digest rand_seed) timestamp.

(** [Context::next_fresh_id].  The counter cannot overflow: a call of the
    native costs gas and 2^64 of them do not fit any run. *)
Definition next_fresh_id (c : Context) : Address * Context :=
  let address := address_derive (cx_tx_digest c) 0 (cx_id_counter c) in
  (address,
   mkCtx _ (cx_sender c) (cx_tx_digest c) (cx_id_counter c + 1) (cx_fresh_ids c ++ [address])
     (cx_transfers c) (cx_destroyed c) (cx_random_generator c) (cx_timestamp c)).

(** [Context::transfer], [Context::destroy], [Context::next_rand]. *)
Definition context_transfer (obj : Value.t) (new_owner : Address) (c : Context) : Context :=
  mkCtx _ (cx_sender c) (cx_tx_digest c) (cx_id_counter c) (cx_fresh_ids c)
    (cx_transfers c ++ [(obj, new_owner)]) (cx_destroyed c) (cx_random_generator c) (cx_timestamp c).
Definition context_destroy (id : Address) (c : Context) : Context :=
  mkCtx _ (cx_sender c) (cx_tx_digest c) (cx_id_counter c) (cx_fresh_ids c)
    (cx_transfers c) (cx_destroyed c ++ [id]) (cx_random_generator c) (cx_timestamp c).
Definition next_rand (c : Context) : Z * Context :=
  let '(n, g) := rng_next_u64 (cx_random_generator c) in
  (n, mkCtx _ (cx_sender c) (cx_tx_digest c) (cx_id_counter c) (cx_fresh_ids c)
        (cx_transfers c) (cx_destroyed c) g (cx_timestamp c)).

(** ** Natives *)
Definition id_type : Ty.t := Ty.Struct MEOW_OBJECT_ID_BYTECODE_TYPE_NAME.

(** The closures.  The VM passes as many arguments as the native declares;
    an [unwrap] on a missing one, which would panic, is an error here. *)
Definition missing_argument : NativeResult := NativeErr "missing argument".

Definition native_fresh_id (args : list Value.t) (c : Context) : NativeResult * Context :=
  let '(address, c) := next_fresh_id c in (NativeReturn (Some (id_value address)), c).

Definition native_transfer (args : list Value.t) (c : Context) : NativeResult * Context :=
  match args with
  | [obj_val; owner_val] =>
      match owner_val with
      | Value.Address owner =>
          match object_address obj_val with
          | None =>
              (NativeErr ("meow_vm_transfer: expected struct with id: meow_object::Id as first field, got " +:+
                          Value.type_name obj_val), c)
          | Some _ => (NativeReturn None, context_transfer obj_val owner c)
          end
      | other =>
          (NativeErr ("meow_vm_transfer: expected address for owner, got " +:+
                      Value.type_name other), c)
      end
  | _ => (missing_argument, c)
  end.

Definition native_destroy (args : list Value.t) (c : Context) : NativeResult * Context :=
  match args with
  | id_val :: _ =>
      match value_to_object_id id_val with
      | Ok id => (NativeReturn None, context_destroy (inner id) c)
      | _ =>
          (NativeErr ("meow_vm_destroy: expected meow_object::Id struct with inner: address, got " +:+
                      Value.type_name id_val), c)
      end
  | [] => (missing_argument, c)
  end.

Definition native_sender (args : list Value.t) (c : Context) : NativeResult * Context :=
  (NativeReturn (Some (Value.Address (cx_sender c))), c).
Definition native_rand (args : list Value.t) (c : Context) : NativeResult * Context :=
  let '(n, c) := next_rand c in (NativeReturn (Some (Value.U64 n)), c).
Definition native_timestamp (args : list Value.t) (c : Context) : NativeResult * Context :=
  (NativeReturn (Some (Value.U64 (cx_timestamp c))), c).

(** [build_natives]. *)
Definition build_natives : list (NativeFnEntry Context) :=
  [mkNative NATIVE_FN_FRESH_ID [] (Some id_type) 10 native_fresh_id;
   mkNative NATIVE_FN_TRANSFER [LocalStruct; Concrete Ty.Address] None 20 native_transfer;
   mkNative NATIVE_FN_DESTROY [Concrete id_type] None 10 native_destroy;
   mkNative NATIVE_FN_SENDER [] (Some Ty.Address) 1 native_sender;
   mkNative NATIVE_FN_RAND [] (Some Ty.U64) 10 native_rand;
   mkNative NATIVE_FN_TIMESTAMP [] (Some Ty.U64) 1 native_timestamp].
End context.

(** [native_sigs_with_id_type], [adapter_native_sigs],
    [adapter_native_sigs_for_compiler]. *)
Definition native_sigs_with_id_type (id_type_name : string) : list NativeSig :=
  let id_type := Ty.Struct id_type_name in
  [mkNativeSig NATIVE_FN_FRESH_ID [] (Some id_type);
   mkNativeSig NATIVE_FN_TRANSFER [LocalStruct; Concrete Ty.Address] None;
   mkNativeSig NATIVE_FN_DESTROY [Concrete id_type] None;
   mkNativeSig NATIVE_FN_SENDER [] (Some Ty.Address);
   mkNativeSig NATIVE_FN_RAND [] (Some Ty.U64);
   mkNativeSig NATIVE_FN_TIMESTAMP [] (Some Ty.U64)].
Definition adapter_native_sigs : list NativeSig :=
  native_sigs_with_id_type MEOW_OBJECT_ID_BYTECODE_TYPE_NAME.
Definition adapter_native_sigs_for_compiler : list NativeSig :=
  native_sigs_with_id_type "meow_object::Id".

(** ** The context invariant

    The fresh identifiers are the ones derived from the digest and the numbers
    below the counter; every transferred value carries an object identifier. *)
Section invariant.
Context `{Crypto, Bcs, Rng}.

Record wf_context (c : Context) : Prop := {
  wc_counter : (0 ≤ cx_id_counter c)%Z;
  wc_fresh : cx_fresh_ids c =
    (λ i, address_derive (cx_tx_digest c) 0 (Z.of_nat i)) <$> seq 0 (Z.to_nat (cx_id_counter c));
  wc_transfers : Forall (λ p, is_Some (object_address (fst p))) (cx_transfers c);
}.

Lemma context_new_wf sender d seed ts : wf_context (context_new sender d seed ts).
Proof. by split. Qed.

(** What the natives leave alone. *)
Definition same_transaction (c c' : Context) : Prop :=
  cx_sender c' = cx_sender c ∧ cx_tx_digest c' = cx_tx_digest c ∧
  cx_timestamp c' = cx_timestamp c.

Lemma native_wf entry args c r c' :
  entry ∈ build_natives → nat_func entry args c = (r, c') → wf_context c →
  wf_context c' ∧ same_transaction c c'.
Proof.
  intros He Hf [Hc Hi Ht].
  assert (Hsame : wf_context c ∧ same_transaction c c) by by split; [split|].
  repeat (apply elem_of_cons in He as [->|He]); [..|by apply not_elem_of_nil in He];
    simpl in Hf; unfold native_fresh_id, native_transfer, native_destroy, native_sender,
      native_rand, native_timestamp, next_fresh_id, next_rand, context_transfer in Hf;
    repeat case_match; simplify_eq/=; try done.
  - split; [|done]. split; simpl; [lia| |done]. rewrite Hi.
    replace (Z.to_nat (cx_id_counter c + 1)) with (Z.to_nat (cx_id_counter c) + 1) by lia.
    rewrite seq_app, fmap_app. simpl. by rewrite Z2Nat.id by done.
  - split; [|done]. split; simpl; [done..|]. apply Forall_app. split; [done|].
    constructor; [by eexists|done].
Qed.
End invariant.
