(* ===== verification/Worklist.v ===== *)
(** * Reachability and the cost of a work list

    Shared by the three searches of the adapter over the import graph: the
    addresses reachable from a list of roots, and the weight of the entries
    of a map that a search has not visited yet. *)

From S2P Require Import Prelude Address.

(** ** Reachability *)
Section reach.
Context (succ : Address → list Address) (roots : list Address).

Inductive reach : Address → Prop :=
  | reach_root a : a ∈ roots → reach a
  | reach_step a b : reach a → b ∈ succ a → reach b.

(** A set that contains the roots and is closed contains all that is reachable. *)
Lemma reach_closed (X : Address → Prop) :
  (∀ a, a ∈ roots → X a) → (∀ a b, X a → b ∈ succ a → X b) → ∀ a, reach a → X a.
Proof. intros Hr Hs. induction 1; eauto. Qed.
End reach.

Lemma reach_mono succ roots roots' a :
  roots ⊆ roots' → reach succ roots a → reach succ roots' a.
Proof. intros Hr. induction 1; [by apply reach_root, Hr|by eapply reach_step]. Qed.

(** Reachability through roots that are reachable themselves. *)
Lemma reach_trans succ roots roots' a :
  (∀ b, b ∈ roots' → reach succ roots b) → reach succ roots' a → reach succ roots a.
Proof. intros Hr. induction 1; [by apply Hr|by eapply reach_step]. Qed.

(** ** Weights *)
Section weight.
Context {A : Type} (w : A → nat).

Definition weight (m : gmap Address A) : nat := map_fold (λ _ x n, w x + n) 0 m.

Lemma weight_delete m a x : m !! a = Some x → weight m = w x + weight (delete a m).
Proof.
  intros Ha. unfold weight. apply (map_fold_delete_L (λ _ x n, w x + n) 0 a x m); [intros; lia|done].
Qed.

Lemma weight_delete_le m a : weight (delete a m) ≤ weight m.
Proof.
  destruct (m !! a) as [x|] eqn:Ha.
  - rewrite (weight_delete m a x) by done. lia.
  - by rewrite delete_id.
Qed.
End weight.

(** The entries of [m] outside [X]. *)
Definition unvisited {A} (m : gmap Address A) (X : gset Address) : gmap Address A :=
  filter (λ p, fst p ∉ X) m.

Lemma unvisited_insert {A} (m : gmap Address A) X a :
  unvisited m ({[a]} ∪ X) = delete a (unvisited m X).
Proof.
  apply map_eq. intros b. unfold unvisited. destruct (decide (a = b)) as [->|Hne].
  - rewrite lookup_delete_eq. apply map_lookup_filter_None_2. right. simpl. set_solver.
  - rewrite lookup_delete_ne by done. apply option_eq. intros x.
    rewrite !map_lookup_filter_Some. simpl. set_solver.
Qed.

Lemma unvisited_lookup {A} (m : gmap Address A) X a :
  a ∉ X → unvisited m X !! a = m !! a.
Proof.
  intros Ha. apply option_eq. intros x. unfold unvisited. rewrite map_lookup_filter_Some.
  simpl. naive_solver.
Qed.

Lemma unvisited_empty {A} (m : gmap Address A) : unvisited m ∅ = m.
Proof. apply map_filter_id. intros. set_solver. Qed.
