(* ===== verification/Resolvers.v ===== *)
(** * Resolution of a transaction's inputs

    Models [executor/resolvers.rs] and [executor/error.rs] of
    [meow-vm-adapter].  Errors that end up in the text of a failed execution
    are strings, as in the code.  The vector [queue] of [resolve_dep_modules]
    is a list whose head is the element popped next. *)

From S2P Require Import Prelude Address VmTypes ChainTypes Convert Framework Worklist.

Module ExecutorError.
Inductive t :=
  | GasCoinNotFound
  | InvalidGasCoin
  | InvalidGasCoinOwner
  | InvalidObjectDigest (address : Address) (expected found : Digest)
  | InvalidObjectVersion (address : Address) (expected found : ObjectVersion)
  | ObjectAtMaxVersion (a : Address)
  | ModulePublishNotAllowed.
End ExecutorError.

(** [inputs.iter().find(|o| o.address() == address)]. *)
Definition find_object (inputs : list Object) (address : Address) : option Object :=
  find_first (λ o, bool_decide (obj_address o = address)) inputs.

Section resolvers.
Context `{PrefixHex, Crypto, Bcs}.

(** [impl Display for Digest], [impl Display for ObjectVersion]. *)
Definition digest_to_string (d : Digest) : string := bs58_encode (digest_bytes d).
Definition version_to_string (v : ObjectVersion) : string := pretty (version_u64 v).

(** The object case of [resolve_arg]. *)
Definition resolve_object_arg (object_ref : ObjectRef) (sender : Address) (inputs : list Object)
  : outcome string Value.t :=
  obj ← ok_or (find_object inputs (ref_address object_ref))
          ("input object " +:+ address_to_string (ref_address object_ref) +:+ " not found");
  let addr := address_to_string (obj_address obj) in
  guard_err (bool_decide (obj_type obj = TypeModule))
    ("object " +:+ addr +:+ " is a module and cannot be used as a call argument") ;;
  guard_err (bool_decide (owner_address (obj_owner obj) ≠ Some sender))
    ("object " +:+ addr +:+ " is not owned by the sender") ;;
  guard_err (bool_decide (obj_version obj = version_MAX))
    ("object " +:+ addr +:+ " is at the maximum version and cannot be used as a call argument") ;;
  guard_err (bool_decide (obj_version obj ≠ ref_version object_ref))
    ("object " +:+ addr +:+ " has invalid version: expected " +:+
     version_to_string (ref_version object_ref) +:+ ", found " +:+
     version_to_string (obj_version obj)) ;;
  guard_err (bool_decide (object_digest obj ≠ ref_digest object_ref))
    ("object " +:+ addr +:+ " has invalid digest: expected " +:+
     digest_to_string (ref_digest object_ref) +:+ ", found " +:+
     digest_to_string (object_digest obj)) ;;
  map_err ObjectConversionError.to_string (object_to_vm_object_value obj).

(** The raw case of [resolve_arg]. *)
Definition resolve_raw_arg (bytes : list Z) (expected_type : Ty.t) : outcome string Value.t :=
  match expected_type with
  | Ty.U64 =>
      Value.U64 <$> ok_or (bcs_u64_decode bytes) ("u64 deserialization: " +:+ bcs_error BcsU64 bytes)
  | Ty.Bool =>
      Value.Bool <$> ok_or (bcs_bool_decode bytes)
                       ("bool deserialization: " +:+ bcs_error BcsBool bytes)
  | Ty.Address =>
      Value.Address <$> ok_or (bcs_address_decode bytes)
                          ("address deserialization: " +:+ bcs_error BcsAddress bytes)
  | Ty.Str =>
      Value.Str <$> ok_or (bcs_str_decode bytes)
                      ("string deserialization: " +:+ bcs_error BcsString bytes)
  | other => Err ("Raw input cannot be resolved to type '" +:+ Ty.name other +:+ "'")
  end.

(** [resolve_arg]. *)
Definition resolve_arg (input : Input) (expected_type : Ty.t) (sender : Address)
    (inputs : list Object) : outcome string Value.t :=
  match input with
  | InputObject object_ref => resolve_object_arg object_ref sender inputs
  | InputRaw bytes => resolve_raw_arg bytes expected_type
  end.

(** The loop of [resolve_args]; [i] counts the arguments. *)
Fixpoint resolve_args_loop (i : nat) (args : list Input) (params : list (string * Ty.t))
    (sender : Address) (inputs : list Object) : outcome string (list Value.t * list Object) :=
  match args, params with
  | input :: args, (_, param_type) :: params =>
      v ← map_err (λ e, "argument " +:+ pretty i +:+ ": " +:+ e)
            (resolve_arg input param_type sender inputs);
      '(vm_args, object_args) ← resolve_args_loop (S i) args params sender inputs;
      let found :=
        match input with
        | InputObject object_ref => find_object inputs (ref_address object_ref)
        | InputRaw _ => None
        end in
      Ok (v :: vm_args, match found with Some obj => obj :: object_args | None => object_args end)
  | _, _ => Ok ([], [])
  end.

(** [resolve_args]. *)
Definition resolve_args (c : Call) (func : Function) (sender : Address) (inputs : list Object)
  : outcome string (list Value.t * list Object) :=
  guard_err (bool_decide (length (call_arguments c) ≠ length (fn_params func)))
    ("argument count mismatch: expected " +:+ pretty (length (fn_params func)) +:+
     ", got " +:+ pretty (length (call_arguments c))) ;;
  resolve_args_loop 0 (call_arguments c) (fn_params func) sender inputs.

(** [resolve_gas_coin_object]. *)
Definition resolve_gas_coin_object (gas_coin_ref : ObjectRef) (sender : Address)
    (inputs : list Object) : outcome ExecutorError.t Object :=
  gas_coin ← ok_or (find_object inputs (ref_address gas_coin_ref)) ExecutorError.GasCoinNotFound;
  guard_err (negb (is_meow_coin_object gas_coin)) ExecutorError.InvalidGasCoin ;;
  guard_err (bool_decide (owner_address (obj_owner gas_coin) ≠ Some sender))
    ExecutorError.InvalidGasCoinOwner ;;
  guard_err (bool_decide (obj_version gas_coin = version_MAX))
    (ExecutorError.ObjectAtMaxVersion (ref_address gas_coin_ref)) ;;
  guard_err (bool_decide (obj_version gas_coin ≠ ref_version gas_coin_ref))
    (ExecutorError.InvalidObjectVersion (ref_address gas_coin_ref) (ref_version gas_coin_ref)
       (obj_version gas_coin)) ;;
  guard_err (bool_decide (object_digest gas_coin ≠ ref_digest gas_coin_ref))
    (ExecutorError.InvalidObjectDigest (ref_address gas_coin_ref) (ref_digest gas_coin_ref)
       (object_digest gas_coin)) ;;
  Ok gas_coin.

(** [resolve_module]. *)
Definition resolve_module (inputs : list Object) (module_address : Address)
  : outcome string VmModule :=
  let a := address_to_string module_address in
  module_obj ← ok_or
    (find_first (λ o, bool_decide (obj_type o = TypeModule) &&
                      bool_decide (obj_address o = module_address)) inputs)
    ("module object at address " +:+ a +:+ " not found in inputs");
  ok_or (bcs_module_decode (obj_content module_obj))
    ("failed to deserialize module at " +:+ a +:+ ": " +:+
     bcs_error BcsModule (obj_content module_obj)).

(** The index of [resolve_dep_modules]: a later module object wins. *)
Definition module_index (inputs : list Object) : gmap Address Object :=
  foldl (λ m o, <[obj_address o := o]> m) ∅ (filter (λ o, obj_type o = TypeModule) inputs).

(** One new module: its imports that are not resolved yet go on the queue. *)
Definition enqueue_imports {A} (done : gmap Address A) (imports queue : list Address)
  : list Address :=
  foldl (λ q a, if bool_decide (is_Some (done !! a)) then q else a :: q) queue imports.

(** The loop of [resolve_dep_modules]. *)
Fixpoint resolve_loop (fuel : nat) (index : gmap Address Object) (deps : gmap Address VmModule)
    (queue : list Address) : outcome string (gmap Address VmModule) :=
  match fuel with
  | O => NoFuel
  | S fuel =>
      match queue with
      | [] => Ok deps
      | addr :: queue =>
          if bool_decide (is_Some (deps !! addr)) then resolve_loop fuel index deps queue
          else
            let a := address_to_string addr in
            dep_obj ← ok_or (index !! addr) ("missing dependency module at address " +:+ a);
            dep ← ok_or (bcs_module_decode (obj_content dep_obj))
                    ("failed to deserialize dependency module at " +:+ a +:+ ": " +:+
                     bcs_error BcsModule (obj_content dep_obj));
            resolve_loop fuel index (<[addr := dep]> deps)
              (enqueue_imports deps (mod_imports dep) queue)
      end
  end.

(** The imports of a module object. *)
Definition object_imports (o : Object) : list Address :=
  match bcs_module_decode (obj_content o) with Some m => mod_imports m | None => [] end.

(** Enough iterations: the queue, and the imports of every module once. *)
Definition search_fuel (index : gmap Address Object) (queue : list Address) : nat :=
  length queue + weight (λ o, length (object_imports o)) index + 1.

(** [resolve_dep_modules]. *)
Definition resolve_dep_modules (inputs : list Object) (imports : list Address)
  : outcome string (gmap Address VmModule) :=
  let index := module_index inputs in
  resolve_loop (search_fuel index imports) index ∅ (reverse imports).
End resolvers.

(** ** What dependency resolution computes *)
Section resolution.
Context `{PrefixHex, Crypto, Bcs}.
Context (index : gmap Address Object) (roots : list Address).

(** The module at an address, and its imports. *)
Definition module_at (a : Address) : option VmModule :=
  o ← index !! a; bcs_module_decode (obj_content o).
Definition import_succ (a : Address) : list Address :=
  match index !! a with Some o => object_imports o | None => [] end.
Notation reachable := (reach import_succ roots).

Lemma elem_of_enqueue {A} (visited : gmap Address A) imports queue a :
  a ∈ enqueue_imports visited imports queue ↔ a ∈ queue ∨ (a ∈ imports ∧ visited !! a = None).
Proof.
  unfold enqueue_imports. revert queue. induction imports as [|b imports IH]; intros queue; simpl.
  { set_solver. }
  rewrite IH. case_bool_decide as Hb.
  - rewrite elem_of_cons. destruct Hb as [x Hb]. naive_solver congruence.
  - rewrite !elem_of_cons. apply eq_None_not_Some in Hb. naive_solver.
Qed.

Lemma length_enqueue {A} (visited : gmap Address A) imports queue :
  length (enqueue_imports visited imports queue) ≤ length queue + length imports.
Proof.
  unfold enqueue_imports. revert queue. induction imports as [|b imports IH]; intros queue; simpl;
    [lia|].
  etrans; [apply IH|]. case_bool_decide; simpl; lia.
Qed.

Lemma module_at_Some a m :
  module_at a = Some m →
  ∃ o, index !! a = Some o ∧ bcs_module_decode (obj_content o) = Some m ∧
    object_imports o = mod_imports m.
Proof.
  unfold module_at, object_imports. intros Ha. destruct (index !! a) as [o|]; simplify_eq/=.
  exists o. by rewrite Ha.
Qed.

Lemma resolve_loop_returns fuel deps queue :
  length queue + weight (λ o, length (object_imports o)) (unvisited index (dom deps)) < fuel →
  no_panic (resolve_loop fuel index deps queue).
Proof.
  revert deps queue. induction fuel as [|fuel IH]; intros deps queue Hf; [lia|].
  destruct queue as [|a queue]; simpl in *; [done|]. case_bool_decide as Ha.
  { apply IH. lia. }
  destruct (index !! a) as [o|] eqn:Ho; simpl; [|done].
  destruct (bcs_module_decode (obj_content o)) as [m|] eqn:Hm; simpl; [|done].
  apply IH. rewrite dom_insert_L, unvisited_insert.
  rewrite (weight_delete _ (unvisited index (dom deps)) a o) in Hf
    by (rewrite unvisited_lookup; [done|by rewrite elem_of_dom]).
  pose proof (length_enqueue deps (mod_imports m) queue).
  unfold object_imports in Hf at 1. rewrite Hm in Hf. lia.
Qed.

(** What the loop has found, and what it still has to do. *)
Record search_inv (deps : gmap Address VmModule) (queue : list Address) : Prop := {
  si_found a m : deps !! a = Some m → reachable a ∧ module_at a = Some m;
  si_queue a : a ∈ queue → reachable a;
  si_roots a : a ∈ roots → a ∈ dom deps ∨ a ∈ queue;
  si_closed a m b : deps !! a = Some m → b ∈ mod_imports m → b ∈ dom deps ∨ b ∈ queue;
}.

Lemma search_inv_skip deps a queue :
  is_Some (deps !! a) → search_inv deps (a :: queue) → search_inv deps queue.
Proof.
  intros Ha%elem_of_dom [Hf Hq Hr Hc]. split; [done| |intros b Hb|intros b m c Hb Hm].
  - intros b Hb. apply Hq. by right.
  - apply Hr in Hb as [?|[->|?]%elem_of_cons]; auto.
  - destruct (Hc _ _ _ Hb Hm) as [?|[->|?]%elem_of_cons]; auto.
Qed.

Lemma search_inv_visit deps a queue m :
  deps !! a = None → module_at a = Some m → search_inv deps (a :: queue) →
  search_inv (<[a := m]> deps) (enqueue_imports deps (mod_imports m) queue).
Proof.
  intros Hn Hm [Hf Hq Hr Hc]. assert (Ha : reachable a) by (apply Hq; by left).
  assert (Hkeep : ∀ b, b ∈ dom deps ∨ b ∈ a :: queue →
    b ∈ dom (<[a := m]> deps) ∨ b ∈ enqueue_imports deps (mod_imports m) queue).
  { intros b. rewrite elem_of_enqueue, dom_insert, elem_of_cons. set_solver. }
  split.
  - intros b k. rewrite lookup_insert_Some. naive_solver.
  - intros b. rewrite elem_of_enqueue. intros [Hb|[Hb _]]; [apply Hq; by right|].
    apply reach_step with a; [done|]. unfold import_succ.
    apply module_at_Some in Hm as (o & -> & _ & ->). done.
  - intros b Hb. by apply Hkeep, Hr.
  - intros b k c. rewrite lookup_insert_Some. intros [[<- <-]|[_ Hb]] Hk; [|by eapply Hkeep, Hc].
    rewrite elem_of_enqueue, dom_insert. destruct (decide (c ∈ dom deps)) as [|Hd]; [set_solver|].
    apply not_elem_of_dom in Hd. auto.
Qed.

Lemma resolve_loop_sound fuel deps queue :
  search_inv deps queue →
  match resolve_loop fuel index deps queue with
  | Ok deps' => ∀ a m, deps' !! a = Some m ↔ reachable a ∧ module_at a = Some m
  | Err _ => ∃ a, reachable a ∧ module_at a = None
  | _ => True
  end ∧
  (∀ deps', resolve_loop fuel index deps queue = Ok deps' → ∀ a, reachable a → is_Some (deps' !! a)).
Proof.
  revert deps queue. induction fuel as [|fuel IH]; intros deps queue Hinv; [done|].
  destruct queue as [|a queue]; cbn [resolve_loop].
  - destruct Hinv as [Hf _ Hr Hc].
    assert (Hall : ∀ a, reachable a → is_Some (deps !! a)).
    { intros a. setoid_rewrite <-elem_of_dom. revert a. apply reach_closed.
      - intros a Ha. by destruct (Hr a Ha) as [|?%not_elem_of_nil].
      - intros a b [m Ha]%elem_of_dom Hb. destruct (Hc a m b) as [|?%not_elem_of_nil]; [done| |done..].
        apply Hf in Ha as [_ (o & Ho & _ & <-)%module_at_Some]. unfold import_succ in Hb.
        by rewrite Ho in Hb. }
    split; [|by intros ? [= <-]]. intros a m. split; [apply Hf|]. intros [Ha Hm].
    destruct (Hall a Ha) as [k Hk]. destruct (Hf _ _ Hk). congruence.
  - case_bool_decide as Hd; [by apply IH, (search_inv_skip _ a)|].
    apply eq_None_not_Some in Hd.
    assert (Ha : reachable a) by (apply (si_queue _ _ Hinv); by left).
    destruct (index !! a) as [o|] eqn:Ho; simpl; [|split; [|done]; exists a; split; [done|]].
    2: { unfold module_at. by rewrite Ho. }
    destruct (bcs_module_decode (obj_content o)) as [m|] eqn:Hm; simpl.
    2: { split; [|done]. exists a. split; [done|]. unfold module_at. by rewrite Ho. }
    apply IH, search_inv_visit; [done| |done]. unfold module_at. by rewrite Ho.
Qed.

Lemma search_inv_init : search_inv ∅ (reverse roots).
Proof.
  split; try done.
  - intros a. rewrite elem_of_reverse. apply reach_root.
  - intros a Ha. right. by apply elem_of_reverse.
Qed.
End resolution.

Lemma resolve_dep_modules_returns `{PrefixHex, Crypto, Bcs} inputs imports :
  no_panic (resolve_dep_modules inputs imports).
Proof.
  apply resolve_loop_returns. unfold search_fuel. rewrite length_reverse, dom_empty_L, unvisited_empty.
  lia.
Qed.
