(* ===== verification/InputsResolver.v ===== *)
(** * Collecting the inputs of a transaction

    Models [inputs_resolver.rs] of [meow-vm-adapter].  The closure
    [get_object] of the callers looks an address up in a store, a cache or a
    node: it is given by the map it reads.  The recursion of
    [collect_dep_modules] has a depth bound; [collect_inputs] is total because
    the bound it uses is shown to suffice. *)

From S2P Require Import Prelude Address VmTypes ChainTypes Convert Framework Worklist Resolvers.

(** The vector [inputs] and the set [seen]. *)
Definition Collected : Type := list Object * gset Address.

Section collect.
Context `{PrefixHex, Crypto, Bcs} (m : gmap Address Object).

(** The body of the import loops: [collect] handles a new dependency. *)
Definition visit_import (collect : Object → Collected → option Collected) (st : Collected)
    (addr : Address) : option Collected :=
  let '(inputs, seen) := st in
  if bool_decide (addr ∈ seen) then Some st
  else
    match m !! addr with
    | None => Some (inputs, {[addr]} ∪ seen)
    | Some dep_obj =>
        '(inputs, seen) ← collect dep_obj (inputs, {[addr]} ∪ seen);
        Some (inputs ++ [dep_obj], seen)
    end.

(** [collect_dep_modules]. *)
Fixpoint collect_dep_modules (depth : nat) (root_obj : Object) (st : Collected)
  : option Collected :=
  match depth with
  | O => None
  | S depth =>
      match bcs_module_decode (obj_content root_obj) with
      | None => Some st
      | Some module => fold_opt (visit_import (collect_dep_modules depth)) st (mod_imports module)
      end
  end.

(** The object arguments that exist. *)
Definition argument_objects (args : list Input) : list Object :=
  omap (λ arg, match arg with
               | InputObject obj_ref => m !! ref_address obj_ref
               | InputRaw _ => None
               end) args.

(** [collect_inputs], with a bound on the depth. *)
Definition collect_inputs_depth (depth : nat) (t : Transaction) : option (list Object) :=
  let gas := option_list (m !! ref_address (tx_gas_coin t)) in
  match tx_type t with
  | MeowCall c =>
      inputs ← match m !! call_module c with
               | Some module_obj =>
                   '(inputs, _) ← collect_dep_modules depth module_obj (gas, {[call_module c]});
                   Some (inputs ++ [module_obj])
               | None => Some gas
               end;
      Some (inputs ++ argument_objects (call_arguments c))
  | MeowModulePublish module_bytes =>
      match bcs_module_decode module_bytes with
      | Some module =>
          '(inputs, _) ← fold_opt (visit_import (collect_dep_modules depth)) (gas, ∅)
                           (mod_imports module);
          Some inputs
      | None => Some gas
      end
  end.

(** ** The recursion ends, and what it collects *)
Lemma unvisited_size_mono X Y : X ⊆ Y → size (unvisited m Y) ≤ size (unvisited m X).
Proof.
  intros HXY. apply map_subseteq_size. apply map_subseteq_spec. intros a o.
  unfold unvisited. rewrite !map_lookup_filter_Some. simpl. set_solver.
Qed.

Section bounded.
Notation succs := (import_succ m).

(** A set of addresses that the search does not leave. *)
Context (X : Address → Prop) (HX : ∀ a b, X a → b ∈ succs a → X b).

(** What a part of the search adds: [st] before, [st'] after. *)
Record collects (st st' : Collected) : Prop := {
  co_inputs : fst st ⊆ fst st';
  co_seen : snd st ⊆ snd st';
  co_stored o : o ∈ fst st' → o ∈ fst st ∨ ∃ a, X a ∧ m !! a = Some o;
  co_closed a : a ∈ snd st' → a ∉ snd st →
    (∀ b, b ∈ succs a → b ∈ snd st') ∧ (∀ o, m !! a = Some o → o ∈ fst st');
}.

Lemma collects_refl st : collects st st.
Proof. split; auto; done. Qed.

Lemma collects_trans st1 st2 st3 : collects st1 st2 → collects st2 st3 → collects st1 st3.
Proof.
  intros [Hi Hs Ho Hc] [Hi' Hs' Ho' Hc']. split.
  - by etrans.
  - by etrans.
  - intros o [Hx|Hx]%Ho'; [by apply Ho|by right].
  - intros a Ha Hn. destruct (decide (a ∈ snd st2)) as [Ha2|Hn2]; [|by apply Hc'].
    destruct (Hc a) as [Hb Hx]; [done..|]. split; [intros b ?%Hb; by apply Hs'|].
    intros o ?%Hx. by apply Hi'.
Qed.

(** What a collector of a dependency does within a weight of unseen objects. *)
Definition collector_ok (collect : Object → Collected → option Collected) (n : nat) : Prop :=
  ∀ o st, (∀ b, b ∈ object_imports o → X b) → size (unvisited m (snd st)) < n →
    ∃ st', collect o st = Some st' ∧ collects st st' ∧
      ∀ b, b ∈ object_imports o → b ∈ snd st'.

Lemma visit_import_ok collect n st addr :
  collector_ok collect n → X addr → size (unvisited m (snd st)) < S n →
  ∃ st', visit_import collect st addr = Some st' ∧ collects st st' ∧ addr ∈ snd st'.
Proof.
  intros Hcol HXa Hn. destruct st as [inputs seen]. unfold visit_import. simpl in *.
  case_bool_decide as Ha; [eexists; split_and!; [done|apply collects_refl|done]|].
  destruct (m !! addr) as [o|] eqn:Ho.
  2: { eexists. split_and!; [done| |simpl; set_solver]. split; simpl; [done|set_solver|auto|].
       intros a Hin Hnin. assert (a = addr) as -> by set_solver. unfold import_succ.
       rewrite Ho. split; [by intros ? ?%not_elem_of_nil|done]. }
  destruct (Hcol o (inputs, {[addr]} ∪ seen)) as ([inputs' seen'] & Hx & [Hi Hs Hst Hc] & Hb).
  { intros b Hb. apply (HX addr); [done|]. unfold import_succ. by rewrite Ho. }
  { assert (Hu : unvisited m seen !! addr = Some o) by by rewrite unvisited_lookup.
    simpl. rewrite unvisited_insert, map_size_delete, Hu.
    pose proof (map_size_ne_0_lookup_2 (unvisited m seen) addr (mk_is_Some _ _ Hu)). lia. }
  rewrite Hx. simpl in *. eexists. split_and!; [done| |set_solver]. split; simpl.
  - set_solver.
  - set_solver.
  - intros o'. rewrite elem_of_app, list_elem_of_singleton. intros [?%Hst| ->]; eauto.
  - intros a Hin Hnin. destruct (decide (a = addr)) as [->|Hne].
    + split; [|intros; simplify_eq; set_solver]. unfold import_succ. by rewrite Ho.
    + destruct (Hc a) as [Hb' Ho']; [done|set_solver|]. split; [done|]. intros o' ?%Ho'. set_solver.
Qed.

Lemma visit_imports_ok collect n st addrs :
  collector_ok collect n → (∀ b, b ∈ addrs → X b) → size (unvisited m (snd st)) < S n →
  ∃ st', fold_opt (visit_import collect) st addrs = Some st' ∧ collects st st' ∧
    ∀ b, b ∈ addrs → b ∈ snd st'.
Proof.
  intros Hcol. revert st. induction addrs as [|a addrs IH]; intros st HXs Hn; simpl.
  { eexists. split_and!; [done|apply collects_refl|by intros ? ?%not_elem_of_nil]. }
  destruct (visit_import_ok _ _ _ a Hcol (HXs a (list_elem_of_here _ _)) Hn)
    as (st1 & -> & Hc1 & Ha). simpl.
  pose proof (unvisited_size_mono _ _ (co_seen _ _ Hc1)).
  destruct (IH st1) as (st2 & -> & Hc2 & Hb); [intros; apply HXs; by right|lia|]. eexists. split_and!; [done| |].
  - by eapply collects_trans.
  - intros b [->|?]%elem_of_cons; [by apply (co_seen _ _ Hc2)|auto].
Qed.

Lemma collect_dep_modules_ok depth : collector_ok (collect_dep_modules depth) depth.
Proof.
  induction depth as [|depth IH]; intros o st HXo Hn; [lia|]. simpl. unfold object_imports in *.
  destruct (bcs_module_decode (obj_content o)) as [mo|].
  - by apply (visit_imports_ok _ depth).
  - eexists. split_and!; [done|apply collects_refl|by intros ? ?%not_elem_of_nil].
Qed.

End bounded.

(** A depth that always suffices. *)
Definition collect_depth : nat := size m + 1.

Lemma unvisited_depth X : size (unvisited m X) < collect_depth.
Proof.
  pose proof (unvisited_size_mono ∅ X (empty_subseteq X)) as Hle. rewrite unvisited_empty in Hle.
  unfold collect_depth. lia.
Qed.

(** The addresses a transaction needs: its gas coin, the module it calls and
    what that imports, transitively, or what the published module imports, and
    its object arguments. *)
Definition needed (t : Transaction) (a : Address) : Prop :=
  a = ref_address (tx_gas_coin t) ∨
  match tx_type t with
  | MeowCall c =>
      reach (import_succ m) [call_module c] a ∨
      ∃ r, InputObject r ∈ call_arguments c ∧ a = ref_address r
  | MeowModulePublish bytes =>
      ∃ module, bcs_module_decode bytes = Some module ∧
        reach (import_succ m) (mod_imports module) a
  end.

Lemma elem_of_argument_objects args o :
  o ∈ argument_objects args ↔ ∃ r, InputObject r ∈ args ∧ m !! ref_address r = Some o.
Proof.
  unfold argument_objects. rewrite list_elem_of_omap. split.
  - intros ([r|bs] & Hr & Ho); [|done]. eauto.
  - intros (r & Hr & Ho). by exists (InputObject r).
Qed.

Lemma elem_of_option_list (a : Address) o : o ∈ option_list (m !! a) ↔ m !! a = Some o.
Proof. destruct (m !! a) as [x|]; simpl; set_solver. Qed.

Lemma reach_step_closed roots a b :
  reach (import_succ m) roots a → b ∈ import_succ m a → reach (import_succ m) roots b.
Proof. apply reach_step. Qed.

(** The module of a call with its dependencies. *)
Lemma collect_module_spec a mo gas :
  m !! a = Some mo →
  ∃ inputs seen, collect_dep_modules collect_depth mo (gas, {[a]}) = Some (inputs, seen) ∧
    ∀ o, o ∈ inputs ++ [mo] ↔ o ∈ gas ∨ ∃ b, reach (import_succ m) [a] b ∧ m !! b = Some o.
Proof.
  intros Ha. pose (X := reach (import_succ m) [a]).
  assert (HXa : X a) by (apply reach_root; by left).
  destruct (collect_dep_modules_ok X (reach_step_closed [a]) collect_depth mo (gas, {[a]}))
    as ([inputs seen] & Hc & [Hi Hs Hst Hcl] & Hb); simpl in *.
  { intros b Hb. apply (reach_step_closed [a] a); [done|]. unfold import_succ. by rewrite Ha. }
  { apply unvisited_depth. }
  exists inputs, seen. split; [done|]. intros o. rewrite elem_of_app, list_elem_of_singleton.
  assert (Hall : ∀ b, X b → b ∈ seen).
  { apply reach_closed.
    - intros b ->%list_elem_of_singleton. set_solver.
    - intros b c Hbs Hbc. destruct (decide (b = a)) as [->|Hne].
      + apply Hb. unfold import_succ in Hbc. by rewrite Ha in Hbc.
      + apply (Hcl b); [done|set_solver|done]. }
  split.
  - intros [Ho| ->]; [|eauto]. apply Hst in Ho as [?|(b & ? & ?)]; eauto.
  - intros [?|(b & HXb & Hbo)]; [auto|]. destruct (decide (b = a)) as [->|Hne];
      [right; congruence|]. left. apply (Hcl b); [auto|set_solver|done].
Qed.

(** The dependencies of a module to be published. *)
Lemma collect_imports_spec imports gas :
  ∃ inputs seen, fold_opt (visit_import (collect_dep_modules collect_depth)) (gas, ∅) imports =
      Some (inputs, seen) ∧
    ∀ o, o ∈ inputs ↔ o ∈ gas ∨ ∃ b, reach (import_succ m) imports b ∧ m !! b = Some o.
Proof.
  pose (X := reach (import_succ m) imports).
  destruct (visit_imports_ok X (reach_step_closed imports) (collect_dep_modules collect_depth)
    collect_depth (gas, ∅) imports) as ([inputs seen] & Hc & [Hi Hs Hst Hcl] & Hb); simpl in *.
  { apply collect_dep_modules_ok, reach_step_closed. }
  { intros b Hb. by apply reach_root. }
  { pose proof (unvisited_depth ∅). lia. }
  exists inputs, seen. split; [done|]. intros o.
  assert (Hall : ∀ b, X b → b ∈ seen).
  { apply reach_closed; [done|]. intros b c Hbs Hbc. apply (Hcl b); [done|set_solver|done]. }
  split.
  - intros [?|(b & ? & ?)]%Hst; eauto.
  - intros [?|(b & HXb & Hbo)]; [auto|]. apply (Hcl b); [auto|set_solver|done].
Qed.

Lemma collect_inputs_depth_spec t :
  ∃ l, collect_inputs_depth collect_depth t = Some l ∧
    ∀ o, o ∈ l ↔ ∃ a, needed t a ∧ m !! a = Some o.
Proof.
  unfold collect_inputs_depth, needed. destruct (tx_type t) as [c|bytes].
  - assert (∃ l, match m !! call_module c with
        | Some module_obj =>
            '(inputs, _) ← collect_dep_modules collect_depth module_obj
               (option_list (m !! ref_address (tx_gas_coin t)), {[call_module c]});
            Some (inputs ++ [module_obj])
        | None => Some (option_list (m !! ref_address (tx_gas_coin t)))
        end = Some l ∧ ∀ o, o ∈ l ↔ m !! ref_address (tx_gas_coin t) = Some o ∨
          ∃ b, reach (import_succ m) [call_module c] b ∧ m !! b = Some o) as (l & -> & Hl).
    { destruct (m !! call_module c) as [mo|] eqn:Hmo.
      - destruct (collect_module_spec _ mo (option_list (m !! ref_address (tx_gas_coin t))) Hmo)
          as (inputs & seen & -> & Hin). simpl. eexists. split; [done|]. intros o.
        by rewrite Hin, elem_of_option_list.
      - eexists. split; [done|]. intros o. rewrite elem_of_option_list. split; [auto|].
        intros [?|(b & Hb & Hbo)]; [done|]. exfalso.
        enough (b = call_module c) by congruence. revert b Hb Hbo. intros b Hb _. revert b Hb.
        apply reach_closed; [by intros b ->%list_elem_of_singleton|].
        intros b d ->. unfold import_succ. rewrite Hmo. by intros ?%not_elem_of_nil. }
    simpl. eexists. split; [done|]. intros o.
    rewrite elem_of_app, Hl, elem_of_argument_objects. naive_solver.
  - destruct (bcs_module_decode bytes) as [module|].
    + destruct (collect_imports_spec (mod_imports module)
        (option_list (m !! ref_address (tx_gas_coin t)))) as (inputs & seen & -> & Hin).
      simpl. eexists. split; [done|]. intros o. rewrite Hin, elem_of_option_list. naive_solver.
    + eexists. split; [done|]. intros o. rewrite elem_of_option_list. naive_solver.
Qed.

Lemma collect_inputs_total t : is_some (collect_inputs_depth collect_depth t) = true.
Proof. by destruct (collect_inputs_depth_spec t) as (l & -> & _). Qed.

(** [collect_inputs]. *)
Definition collect_inputs (t : Transaction) : list Object :=
  some_value (collect_inputs_depth collect_depth t) (collect_inputs_total t).

Lemma elem_of_collect_inputs t o :
  o ∈ collect_inputs t ↔ ∃ a, needed t a ∧ m !! a = Some o.
Proof.
  destruct (collect_inputs_depth_spec t) as (l & Hl & Ho).
  pose proof (some_value_eq _ (collect_inputs_total t)) as Heq. unfold collect_inputs.
  rewrite Hl in Heq at 1. injection Heq as Heq. by rewrite <-Heq.
Qed.
End collect.

(** ** The asynchronous variant *)
Section async.
Context `{PrefixHex, Crypto, Bcs} (m : gmap Address Object).

(** The loop of [bfs_fetch_modules]. *)
Fixpoint bfs_loop (fuel : nat) (queue : list Address) (seen : gset Address)
    (cache : gmap Address Object) : option (gmap Address Object) :=
  match fuel with
  | O => None
  | S fuel =>
      match queue with
      | [] => Some cache
      | addr :: queue =>
          if bool_decide (addr ∈ seen) then bfs_loop fuel queue seen cache
          else
            let seen := {[addr]} ∪ seen in
            match m !! addr with
            | Some obj =>
                bfs_loop fuel (foldl (λ q a, a :: q) queue (object_imports obj)) seen
                  (<[addr := obj]> cache)
            | None => bfs_loop fuel queue seen cache
            end
      end
  end.

Lemma elem_of_push (queue imports : list Address) a :
  a ∈ foldl (λ q a, a :: q) queue imports ↔ a ∈ queue ∨ a ∈ imports.
Proof.
  revert queue. induction imports as [|b imports IH]; intros queue; simpl; [set_solver|].
  rewrite IH. set_solver.
Qed.
Lemma length_push (queue imports : list Address) :
  length (foldl (λ q a, a :: q) queue imports) = length queue + length imports.
Proof.
  revert queue. induction imports as [|b imports IH]; intros queue; simpl; [lia|].
  rewrite IH. simpl. lia.
Qed.

(** The state of the search from [roots]. *)
Record bfs_inv (roots queue : list Address) (seen : gset Address) (cache : gmap Address Object)
  : Prop := {
  bi_cache : cache ⊆ m;
  bi_seen a : a ∈ seen → cache !! a = m !! a;
  bi_roots a : a ∈ roots → a ∈ seen ∨ a ∈ queue;
  bi_closed a b : a ∈ seen → b ∈ import_succ m a → b ∈ seen ∨ b ∈ queue;
}.

Lemma bfs_inv_visit roots a queue queue' seen cache cache' :
  bfs_inv roots (a :: queue) seen cache → cache ⊆ cache' → cache' ⊆ m → cache' !! a = m !! a →
  (∀ b, b ∈ queue' ↔ b ∈ queue ∨ b ∈ import_succ m a) →
  bfs_inv roots queue' ({[a]} ∪ seen) cache'.
Proof.
  intros [Hc Hs Hr Hcl] Hcc Hcm Ha Hq.
  assert (Hkeep : ∀ b, b ∈ seen ∨ b ∈ a :: queue → b ∈ {[a]} ∪ seen ∨ b ∈ queue').
  { intros b. rewrite Hq, elem_of_cons. set_solver. }
  split; [done| | |].
  - intros b [->%elem_of_singleton|Hb]%elem_of_union; [done|].
    destruct (m !! b) as [o|] eqn:Ho.
    + eapply lookup_weaken; [|done]. by rewrite Hs.
    + destruct (cache' !! b) as [o'|] eqn:Ho'; [|done].
      eapply lookup_weaken in Hcm; [|done]. congruence.
  - intros b Hb. by apply Hkeep, Hr.
  - intros b c [->%elem_of_singleton|Hb]%elem_of_union Hbc; [right; apply Hq; auto|].
    by eapply Hkeep, Hcl.
Qed.

Lemma bfs_loop_spec fuel roots queue seen cache :
  length queue + weight (λ o, length (object_imports o)) (unvisited m seen) < fuel →
  bfs_inv roots queue seen cache →
  ∃ cache', bfs_loop fuel queue seen cache = Some cache' ∧ cache ⊆ cache' ∧ cache' ⊆ m ∧
    ∀ a, reach (import_succ m) roots a → cache' !! a = m !! a.
Proof.
  revert queue seen cache. induction fuel as [|fuel IH]; intros queue seen cache Hf Hinv; [lia|].
  destruct queue as [|a queue]; simpl in *.
  { exists cache. destruct Hinv as [Hc Hs Hr Hcl]. split_and!; [done..|]. intros a Ha. apply Hs.
    revert a Ha. apply reach_closed.
    - intros a Ha. by destruct (Hr a Ha) as [|?%not_elem_of_nil].
    - intros a b Ha Hb. by destruct (Hcl a b Ha Hb) as [|?%not_elem_of_nil]. }
  case_bool_decide as Ha.
  { apply IH; [lia|]. destruct Hinv as [Hc Hs Hr Hcl]. split; [done..| |].
    - intros b Hb. destruct (Hr b Hb) as [|[->|]%elem_of_cons]; auto.
    - intros b c Hb Hbc. destruct (Hcl b c Hb Hbc) as [|[->|]%elem_of_cons]; auto. }
  destruct (m !! a) as [o|] eqn:Ho.
  - destruct (IH (foldl (λ q a, a :: q) queue (object_imports o)) ({[a]} ∪ seen)
      (<[a:=o]> cache)) as (cache' & ? & Hsub & ? & ?).
    { rewrite length_push, unvisited_insert.
      rewrite (weight_delete _ (unvisited m seen) a o) in Hf by by rewrite unvisited_lookup. lia. }
    { assert (Hcm : cache ⊆ m) by apply Hinv. assert (Hca : cache ⊆ <[a:=o]> cache).
      { apply map_subseteq_spec. intros b x Hb. destruct (decide (a = b)) as [->|];
          [rewrite lookup_insert_eq|by rewrite lookup_insert_ne].
        eapply lookup_weaken in Hcm; [|done]. congruence. }
      eapply bfs_inv_visit; [done|done| |by rewrite lookup_insert_eq|].
      - by apply insert_subseteq_l.
      - intros b. rewrite elem_of_push. unfold import_succ. by rewrite Ho. }
    exists cache'. split_and!; [done| |done..]. etrans; [|done].
    apply map_subseteq_spec. intros b x Hb. destruct (decide (a = b)) as [->|];
      [rewrite lookup_insert_eq|by rewrite lookup_insert_ne].
    pose proof (lookup_weaken _ _ _ _ Hb (bi_cache _ _ _ _ Hinv)). congruence.
  - apply IH.
    { rewrite unvisited_insert, delete_id by by rewrite unvisited_lookup. lia. }
    eapply bfs_inv_visit; [done|done|apply Hinv| |].
    + rewrite Ho. destruct (cache !! a) as [x|] eqn:Hx; [|done].
      pose proof (lookup_weaken _ _ _ _ Hx (bi_cache _ _ _ _ Hinv)). congruence.
    + intros b. unfold import_succ. rewrite Ho. set_solver.
Qed.

Lemma bfs_loop_returns fuel queue seen cache :
  length queue + weight (λ o, length (object_imports o)) (unvisited m seen) < fuel →
  is_some (bfs_loop fuel queue seen cache) = true.
Proof.
  revert queue seen cache. induction fuel as [|fuel IH]; intros queue seen cache Hf; [lia|].
  destruct queue as [|a queue]; simpl in *; [done|].
  case_bool_decide; [apply IH; lia|]. destruct (m !! a) as [o|] eqn:Ho; apply IH.
  - rewrite length_push, unvisited_insert.
    rewrite (weight_delete _ (unvisited m seen) a o) in Hf by by rewrite unvisited_lookup. lia.
  - rewrite unvisited_insert, delete_id by by rewrite unvisited_lookup. lia.
Qed.

Lemma bfs_total seeds cache :
  is_some (bfs_loop (search_fuel m seeds) (reverse seeds) ∅ cache) = true.
Proof.
  apply bfs_loop_returns. unfold search_fuel. rewrite length_reverse, unvisited_empty. lia.
Qed.

(** [bfs_fetch_modules]: the cache it leaves. *)
Definition bfs_fetch_modules (seeds : list Address) (cache : gmap Address Object)
  : gmap Address Object :=
  some_value (bfs_loop (search_fuel m seeds) (reverse seeds) ∅ cache) (bfs_total seeds cache).

Lemma bfs_fetch_modules_spec seeds cache :
  cache ⊆ m →
  cache ⊆ bfs_fetch_modules seeds cache ∧ bfs_fetch_modules seeds cache ⊆ m ∧
  ∀ a, reach (import_succ m) seeds a → bfs_fetch_modules seeds cache !! a = m !! a.
Proof.
  intros Hc. unfold bfs_fetch_modules.
  destruct (bfs_loop_spec (search_fuel m seeds) seeds (reverse seeds) ∅ cache)
    as (c & Heq & Hsub & Hm & Hr).
  - unfold search_fuel. rewrite length_reverse, unvisited_empty. lia.
  - split; [done|set_solver|intros a Ha; right; by apply elem_of_reverse|set_solver].
  - pose proof (some_value_eq _ (bfs_total seeds cache)) as Hv. rewrite Heq in Hv at 1.
    injection Hv as Hv. by rewrite <-Hv.
Qed.

(** Fetching one object into the cache. *)
Definition fetch (cache : gmap Address Object) (a : Address) : gmap Address Object :=
  match m !! a with Some obj => <[a := obj]> cache | None => cache end.

(** The cache of [collect_inputs_async] before its last call. *)
Definition async_cache (t : Transaction) : gmap Address Object :=
  let cache := fetch ∅ (ref_address (tx_gas_coin t)) in
  match tx_type t with
  | MeowCall c =>
      let cache := bfs_fetch_modules [call_module c] cache in
      foldl (λ cache arg, match arg with
                          | InputObject obj_ref => fetch cache (ref_address obj_ref)
                          | InputRaw _ => cache
                          end) cache (call_arguments c)
  | MeowModulePublish module_bytes =>
      match bcs_module_decode module_bytes with
      | Some module => bfs_fetch_modules (mod_imports module) cache
      | None => cache
      end
  end.

Lemma fetch_spec cache a :
  cache ⊆ m → cache ⊆ fetch cache a ∧ fetch cache a ⊆ m ∧ fetch cache a !! a = m !! a.
Proof.
  intros Hc. unfold fetch. destruct (m !! a) as [o|] eqn:Ho.
  - split_and!; [|by apply insert_subseteq_l|by rewrite lookup_insert_eq].
    apply map_subseteq_spec. intros b x Hb. destruct (decide (a = b)) as [->|];
      [rewrite lookup_insert_eq|by rewrite lookup_insert_ne].
    pose proof (lookup_weaken _ _ _ _ Hb Hc). congruence.
  - split_and!; [done..|]. destruct (cache !! a) as [x|] eqn:Hx; [|done].
    pose proof (lookup_weaken _ _ _ _ Hx Hc). congruence.
Qed.

(** Two maps between a smaller and a larger one, where they agree. *)
Lemma lookup_between (c c' : gmap Address Object) a :
  c ⊆ c' → c' ⊆ m → c !! a = m !! a → c' !! a = m !! a.
Proof.
  intros Hc Hm Ha. destruct (m !! a) as [o|] eqn:Ho; [by eapply lookup_weaken|].
  destruct (c' !! a) as [x|] eqn:Hx; [|done].
  pose proof (lookup_weaken _ _ _ _ Hx Hm). congruence.
Qed.

Lemma fetch_args_spec args cache :
  cache ⊆ m →
  let cache' := foldl (λ cache arg, match arg with
    | InputObject obj_ref => fetch cache (ref_address obj_ref) | InputRaw _ => cache end)
    cache args in
  cache ⊆ cache' ∧ cache' ⊆ m ∧
  ∀ r, InputObject r ∈ args → cache' !! ref_address r = m !! ref_address r.
Proof.
  revert cache. induction args as [|[r|bs] args IH]; intros cache Hc; simpl.
  - split_and!; [done..|]. by intros r ?%not_elem_of_nil.
  - destruct (fetch_spec cache (ref_address r) Hc) as (Hf1 & Hf2 & Hf3).
    destruct (IH _ Hf2) as (Hi1 & Hi2 & Hi3). split_and!; [by etrans|done|].
    intros r' [[= ->]|?]%elem_of_cons; [|auto]. by eapply lookup_between.
  - destruct (IH _ Hc) as (Hi1 & Hi2 & Hi3). split_and!; [done..|].
    intros r [?|?]%elem_of_cons; [done|auto].
Qed.

(** The cache is right about everything the transaction needs. *)
Lemma async_cache_needed t a : needed m t a → async_cache t !! a = m !! a.
Proof.
  unfold needed, async_cache.
  destruct (fetch_spec ∅ (ref_address (tx_gas_coin t)) (map_empty_subseteq m)) as (_ & Hg2 & Hg3).
  destruct (tx_type t) as [c|bytes].
  - destruct (bfs_fetch_modules_spec [call_module c] _ Hg2) as (Hb1 & Hb2 & Hb3).
    destruct (fetch_args_spec (call_arguments c) _ Hb2) as (Ha1 & Ha2 & Ha3).
    intros [->|[Hr|(r & Hr & ->)]]; [..|by apply Ha3].
    + eapply lookup_between; [|done|]; [|done]. by etrans.
    + eapply lookup_between; [done..|]. by apply Hb3.
  - destruct (bcs_module_decode bytes) as [module|].
    + destruct (bfs_fetch_modules_spec (mod_imports module) _ Hg2) as (Hb1 & Hb2 & Hb3).
      intros [->|(mo & [= <-] & Hr)]; [by eapply lookup_between|by apply Hb3].
    + intros [->|(mo & ? & _)]; done.
Qed.
End async.

(** [collect_inputs_async]. *)
Definition collect_inputs_async `{PrefixHex, Crypto, Bcs} (t : Transaction)
    (m : gmap Address Object) : list Object :=
  collect_inputs (async_cache m t) t.

(** ** Two maps that agree on what is needed collect the same inputs *)
Section agree.
Context `{PrefixHex, Crypto, Bcs}.

Lemma fold_opt_ext {A B} (f g : A → B → option A) l a :
  (∀ a b, b ∈ l → f a b = g a b) → fold_opt f a l = fold_opt g a l.
Proof.
  revert a. induction l as [|b l IH]; intros a Hfg; simpl; [done|].
  rewrite Hfg by by left. destruct (g a b) as [a'|]; simpl; [|done].
  apply IH. intros. apply Hfg. by right.
Qed.

Lemma fold_opt_mono {A B} (f g : A → B → option A) l a a' :
  (∀ a b a', f a b = Some a' → g a b = Some a') →
  fold_opt f a l = Some a' → fold_opt g a l = Some a'.
Proof.
  intros Hfg. revert a. induction l as [|b l IH]; intros a Hf; simpl in *; [done|].
  destruct (f a b) as [a1|] eqn:Ha; simplify_eq/=. rewrite (Hfg _ _ _ Ha). by apply IH.
Qed.

Lemma visit_import_mono m (f g : Object → Collected → option Collected) st a st' :
  (∀ o st st', f o st = Some st' → g o st = Some st') →
  visit_import m f st a = Some st' → visit_import m g st a = Some st'.
Proof.
  intros Hfg. unfold visit_import. destruct st as [inputs seen].
  case_bool_decide; [done|]. destruct (m !! a) as [o|]; [|done].
  destruct (f o _) as [st1|] eqn:Hf; simpl; [|done]. by rewrite (Hfg _ _ _ Hf).
Qed.

Lemma collect_dep_modules_mono m d d' o st st' :
  d ≤ d' → collect_dep_modules m d o st = Some st' → collect_dep_modules m d' o st = Some st'.
Proof.
  revert d' o st st'. induction d as [|d IH]; intros [|d'] o st st' Hle; simpl; try done; [lia|].
  destruct (bcs_module_decode (obj_content o)) as [mo|]; [|done].
  apply fold_opt_mono. intros ???. apply visit_import_mono. intros ???. apply IH. lia.
Qed.

Lemma collect_inputs_depth_mono m d d' t l :
  d ≤ d' → collect_inputs_depth m d t = Some l → collect_inputs_depth m d' t = Some l.
Proof.
  intros Hle. unfold collect_inputs_depth. destruct (tx_type t) as [c|bytes].
  - destruct (m !! call_module c) as [mo|]; [|done].
    destruct (collect_dep_modules m d mo _) as [[inputs seen]|] eqn:Hc; simpl; [|done].
    by rewrite (collect_dep_modules_mono _ _ _ _ _ _ Hle Hc).
  - destruct (bcs_module_decode bytes) as [mo|]; [|done].
    destruct (fold_opt (visit_import m (collect_dep_modules m d)) _ _) as [[??]|] eqn:Hf;
      simpl; [|done].
    rewrite (fold_opt_mono _ (visit_import m (collect_dep_modules m d')) _ _ _) with (2 := Hf);
      [done|].
    intros ???. apply visit_import_mono. intros ???. by apply collect_dep_modules_mono.
Qed.

Context (m m' : gmap Address Object) (X : Address → Prop).
Context (Hagree : ∀ a, X a → m !! a = m' !! a).

Lemma collect_agree (HX : ∀ a b, X a → b ∈ import_succ m a → X b) d o st :
  (∀ b, b ∈ object_imports o → X b) →
  collect_dep_modules m d o st = collect_dep_modules m' d o st.
Proof using Hagree.
  revert o st. induction d as [|d IH]; intros o st Ho; [done|]. simpl. unfold object_imports in Ho.
  destruct (bcs_module_decode (obj_content o)) as [mo|]; [|done].
  apply fold_opt_ext. intros [inputs seen] a Ha. unfold visit_import. rewrite <-Hagree by auto.
  case_bool_decide; [done|]. destruct (m !! a) as [o'|] eqn:Ho'; [|done]. rewrite IH; [done|].
  intros b Hb. apply (HX a); [auto|]. unfold import_succ. by rewrite Ho'.
Qed.
End agree.

Lemma collect_inputs_depth_agree `{PrefixHex, Crypto, Bcs} m m' d t :
  (∀ a, needed m t a → m !! a = m' !! a) →
  collect_inputs_depth m d t = collect_inputs_depth m' d t.
Proof.
  intros Hag. unfold collect_inputs_depth, needed in *. rewrite <-(Hag (ref_address _)) by by left.
  destruct (tx_type t) as [c|bytes].
  - assert (Hmod : ∀ a, reach (import_succ m) [call_module c] a → m !! a = m' !! a) by auto.
    rewrite <-Hmod by (apply reach_root; by left).
    assert (argument_objects m (call_arguments c) = argument_objects m' (call_arguments c)) as ->.
    { unfold argument_objects. apply list_omap_ext, Forall_Forall2_diag, list.Forall_forall.
      intros [r|bs] Hr; [|done]. apply Hag. eauto. }
    destruct (m !! call_module c) as [mo|] eqn:Hmo; [|done].
    rewrite (collect_agree m m' (reach (import_succ m) [call_module c])); [done|done| |].
    + intros a b. apply reach_step.
    + intros b Hb. apply reach_step with (call_module c); [apply reach_root; by left|].
      unfold import_succ. by rewrite Hmo.
  - destruct (bcs_module_decode bytes) as [mo|]; [|done].
    assert (Himp : ∀ a, reach (import_succ m) (mod_imports mo) a → m !! a = m' !! a)
      by (intros; apply Hag; eauto).
    f_equal. apply fold_opt_ext. intros [inputs seen] a Ha. unfold visit_import.
    rewrite <-Himp by by apply reach_root. case_bool_decide; [done|].
    destruct (m !! a) as [o'|] eqn:Ho'; [|done].
    rewrite (collect_agree m m' (reach (import_succ m) (mod_imports mo))); [done|done| |].
    + intros x y. apply reach_step.
    + intros b Hb. apply reach_step with a; [by apply reach_root|].
      unfold import_succ. by rewrite Ho'.
Qed.

Lemma collect_inputs_agree `{PrefixHex, Crypto, Bcs} m m' t :
  (∀ a, needed m t a → m !! a = m' !! a) → collect_inputs m t = collect_inputs m' t.
Proof.
  intros Hag.
  pose proof (some_value_eq _ (collect_inputs_total m t)) as H1'.
  pose proof (some_value_eq _ (collect_inputs_total m' t)) as H2'.
  apply (collect_inputs_depth_mono m _ (collect_depth m `max` collect_depth m')) in H1'; [|lia].
  apply (collect_inputs_depth_mono m' _ (collect_depth m `max` collect_depth m')) in H2'; [|lia].
  rewrite (collect_inputs_depth_agree m m') in H1' by done. rewrite H1' in H2'.
  injection H2' as Heq. exact Heq.
Qed.

(** ** Loading the dependencies of a source file *)
Section load_deps.
Context (m : gmap Address VmModule).

(** The loop of [load_deps_async]: an address without a module is skipped. *)
Fixpoint load_loop (fuel : nat) (queue : list Address) (loaded : gmap Address VmModule)
  : option (gmap Address VmModule) :=
  match fuel with
  | O => None
  | S fuel =>
      match queue with
      | [] => Some loaded
      | addr :: queue =>
          if bool_decide (is_Some (loaded !! addr)) then load_loop fuel queue loaded
          else
            match m !! addr with
            | Some module =>
                load_loop fuel (enqueue_imports loaded (mod_imports module) queue)
                  (<[addr := module]> loaded)
            | None => load_loop fuel queue loaded
            end
      end
  end.

Definition load_fuel (queue : list Address) : nat :=
  length queue + weight (λ mo, length (mod_imports mo)) m + 1.

Definition module_succ (a : Address) : list Address :=
  match m !! a with Some mo => mod_imports mo | None => [] end.

(** The state of the search from [roots]. *)
Record load_inv (roots queue : list Address) (loaded : gmap Address VmModule) : Prop := {
  li_found a mo : loaded !! a = Some mo → reach module_succ roots a ∧ m !! a = Some mo;
  li_queue a : a ∈ queue → reach module_succ roots a;
  li_roots a : a ∈ roots → m !! a = None ∨ a ∈ dom loaded ∨ a ∈ queue;
  li_closed a mo b : loaded !! a = Some mo → b ∈ mod_imports mo →
    m !! b = None ∨ b ∈ dom loaded ∨ b ∈ queue;
}.

Lemma load_loop_spec fuel roots queue loaded :
  length queue + weight (λ mo, length (mod_imports mo)) (unvisited m (dom loaded)) < fuel →
  load_inv roots queue loaded →
  ∃ loaded', load_loop fuel queue loaded = Some loaded' ∧
    ∀ a mo, loaded' !! a = Some mo ↔ reach module_succ roots a ∧ m !! a = Some mo.
Proof.
  revert queue loaded. induction fuel as [|fuel IH]; intros queue loaded Hf Hinv; [lia|].
  destruct queue as [|a queue]; simpl in *.
  { exists loaded. split; [done|]. destruct Hinv as [Hl _ Hr Hc]. intros a mo.
    split; [apply Hl|]. intros [Ha Hm].
    assert (Hall : ∀ a, reach module_succ roots a → m !! a = None ∨ a ∈ dom loaded).
    { apply reach_closed.
      - intros b [?|[?|?%not_elem_of_nil]]%Hr; auto; done.
      - intros b c [Hb|[k Hb]%elem_of_dom]; unfold module_succ.
        + rewrite Hb. by intros ?%not_elem_of_nil.
        + rewrite (proj2 (Hl _ _ Hb)). intros [?|[?|?%not_elem_of_nil]]%(Hc b k c Hb); auto; done. }
    destruct (Hall a Ha) as [?|[k Hk]%elem_of_dom]; [congruence|].
    destruct (Hl _ _ Hk). congruence. }
  case_bool_decide as Hd.
  { apply IH; [lia|]. apply elem_of_dom in Hd. destruct Hinv as [Hl Hq Hr Hc]. split; [done|..].
    - intros b Hb. apply Hq. by right.
    - intros b Hb. destruct (Hr b Hb) as [?|[?|[->|?]%elem_of_cons]]; auto.
    - intros b k c Hb Hk. destruct (Hc b k c Hb Hk) as [?|[?|[->|?]%elem_of_cons]]; auto. }
  assert (Ha : reach module_succ roots a) by (apply (li_queue _ _ _ Hinv); by left).
  apply eq_None_not_Some in Hd. destruct (m !! a) as [mo|] eqn:Hm.
  - apply IH.
    { rewrite dom_insert_L, unvisited_insert.
      rewrite (weight_delete _ (unvisited m (dom loaded)) a mo) in Hf
        by (rewrite unvisited_lookup; [done|by apply not_elem_of_dom]).
      pose proof (length_enqueue loaded (mod_imports mo) queue). lia. }
    destruct Hinv as [Hl Hq Hr Hc].
    assert (Hkeep : ∀ b, m !! b = None ∨ b ∈ dom loaded ∨ b ∈ a :: queue →
      m !! b = None ∨ b ∈ dom (<[a:=mo]> loaded) ∨ b ∈ enqueue_imports loaded (mod_imports mo) queue).
    { intros b. rewrite elem_of_enqueue, dom_insert, elem_of_cons. set_solver. }
    split.
    + intros b k. rewrite lookup_insert_Some. naive_solver.
    + intros b. rewrite elem_of_enqueue. intros [?|[Hb _]]; [apply Hq; by right|].
      apply reach_step with a; [done|]. unfold module_succ. by rewrite Hm.
    + intros b Hb. by apply Hkeep, Hr.
    + intros b k c. rewrite lookup_insert_Some. intros [[<- <-]|[_ Hb]] Hk; [|by eapply Hkeep, Hc].
      rewrite elem_of_enqueue, dom_insert. destruct (decide (c ∈ dom loaded)) as [|Hn]; [set_solver|].
      apply not_elem_of_dom in Hn. auto.
  - apply IH; [lia|]. destruct Hinv as [Hl Hq Hr Hc]. split; [done|..].
    + intros b Hb. apply Hq. by right.
    + intros b Hb. destruct (Hr b Hb) as [?|[?|[->|?]%elem_of_cons]]; auto.
    + intros b k c Hb Hk. destruct (Hc b k c Hb Hk) as [?|[?|[->|?]%elem_of_cons]]; auto.
Qed.

Lemma load_deps_spec deps :
  ∃ loaded, load_loop (load_fuel deps) (reverse deps) ∅ = Some loaded ∧
    ∀ a mo, loaded !! a = Some mo ↔ reach module_succ deps a ∧ m !! a = Some mo.
Proof.
  apply load_loop_spec.
  - unfold load_fuel. rewrite length_reverse, dom_empty_L, unvisited_empty. lia.
  - split; try done.
    + intros a. rewrite elem_of_reverse. apply reach_root.
    + intros a Ha. right. right. by apply elem_of_reverse.
Qed.

Lemma load_deps_total deps : is_some (load_loop (load_fuel deps) (reverse deps) ∅) = true.
Proof. by destruct (load_deps_spec deps) as (l & -> & _). Qed.

(** [load_deps_async]. *)
Definition load_deps_async (dep_addresses : list Address) : gmap Address VmModule :=
  some_value (load_loop (load_fuel dep_addresses) (reverse dep_addresses) ∅)
    (load_deps_total dep_addresses).
End load_deps.
