(* ===== verification/AdapterVerifier.v ===== *)
(** * The bytecode checks of the adapter

    Models [bytecode_verifier/mod.rs] and [error.rs] of [meow-vm-adapter]: the
    layout of objects, and one pass over every function that tracks fresh
    identifiers and the shapes of structs.  The shadow stack is a list whose
    head is the top; every check returns the errors it pushes. *)

From S2P Require Import Prelude Address VmTypes ChainTypes Convert Framework.

Module BytecodeVerifierError.
Inductive t :=
  | IdFieldNotFirst (struct_name field_name : string)
  | ObjectAsFieldType (struct_name field_name object_type : string)
  | ObjectIdNotFresh (function : string) (pc : nat) (object : string)
  | TransferNonObjectStruct (function : string) (pc : nat) (struct_name : string).

(** The [Display] of the error. *)
Definition to_string (e : t) : string :=
  match e with
  | IdFieldNotFirst s f =>
      "struct '" +:+ s +:+ "' field '" +:+ f +:+
      "' has type `meow_object::Id` but is not the first field — an `id: meow_object::Id` field is only allowed as the first field (which makes the struct an object)"
  | ObjectAsFieldType s f o =>
      "struct '" +:+ s +:+ "' field '" +:+ f +:+ "' has type '" +:+ o +:+
      "' which is an object type — objects cannot be nested as struct fields"
  | ObjectIdNotFresh f pc o =>
      "in '" +:+ f +:+ "' at pc " +:+ pretty pc +:+ ": object '" +:+ o +:+
      "' constructed with non-fresh id (id must originate directly from meow_vm_fresh_id)"
  | TransferNonObjectStruct f pc s =>
      "in '" +:+ f +:+ "' at pc " +:+ pretty pc +:+ ": meow_vm_transfer argument '" +:+ s +:+
      "' is not an on-chain object type — first field must be `id: meow_object::Id`"
  end.
End BytecodeVerifierError.
Notation BVError := BytecodeVerifierError.t.

(** ** Abstract values *)
Inductive Fresh := FreshId | FreshOther.
Global Instance Fresh_eq_dec : EqDecision Fresh.
Proof. solve_decision. Defined.

Inductive StructTag :=
  | TagObject
  | TagNonObject (name : string)
  | TagOther.
Global Instance StructTag_eq_dec : EqDecision StructTag.
Proof. solve_decision. Defined.

Record Slot := mkSlot {
  slot_fresh : Fresh;
  slot_tag : StructTag;
  slot_tuple : option (list StructTag);
}.

(** [Slot::scalar], [Slot::other]. *)
Definition slot_scalar (f : Fresh) (t : StructTag) : Slot := mkSlot f t None.
Definition slot_other : Slot := slot_scalar FreshOther TagOther.

Record VerifyState := mkVerify {
  vs_stack : list Slot;
  vs_locals : list Slot;
  vs_reachable : bool;
}.

(** [VerifyState::new], [pop], [push]. *)
Definition vs_new (local_count : nat) : VerifyState :=
  mkVerify [] (replicate local_count slot_other) true.
Definition vs_pop (st : VerifyState) : Slot * VerifyState :=
  match vs_stack st with
  | [] => (slot_other, st)
  | s :: stack => (s, mkVerify stack (vs_locals st) (vs_reachable st))
  end.
Definition vs_push (s : Slot) (st : VerifyState) : VerifyState :=
  mkVerify (s :: vs_stack st) (vs_locals st) (vs_reachable st).
Definition vs_unreachable (st : VerifyState) : VerifyState :=
  mkVerify (vs_stack st) (vs_locals st) false.

(** [n] pops: the popped slots, first popped first. *)
Fixpoint vs_pop_n (n : nat) (st : VerifyState) : list Slot * VerifyState :=
  match n with
  | O => ([], st)
  | S n =>
      let '(s, st) := vs_pop st in
      let '(slots, st) := vs_pop_n n st in (s :: slots, st)
  end.

(** [merge_slot]. *)
Definition merge_tag (a b : StructTag) : StructTag := if bool_decide (a = b) then a else TagOther.
Definition merge_slot (slot other : Slot) : Slot :=
  mkSlot (if bool_decide (slot_fresh other = FreshId) then slot_fresh slot else FreshOther)
    (merge_tag (slot_tag slot) (slot_tag other))
    (match slot_tuple slot, slot_tuple other with
     | Some a, Some b =>
         if bool_decide (length a = length b) then Some (zip_with merge_tag a b) else None
     | _, _ => None
     end).

(** The locals loop of [merge_from]. *)
Fixpoint merge_locals (locals others : list Slot) : list Slot :=
  match locals, others with
  | [], _ => []
  | s :: locals, o :: others => merge_slot s o :: merge_locals locals others
  | _ :: locals, [] => slot_other :: merge_locals locals []
  end.

(** [merge_from]: the stacks are aligned at the bottom. *)
Definition merge_from (st other : VerifyState) : VerifyState :=
  mkVerify (reverse (zip_with merge_slot (reverse (vs_stack st)) (reverse (vs_stack other))))
    (merge_locals (vs_locals st) (vs_locals other)) (vs_reachable st).

(** [stack.get(i)], counted from the bottom. *)
Definition stack_get (st : VerifyState) (i : nat) : option Slot := reverse (vs_stack st) !! i.

(** [local_struct_tag]. *)
Definition local_struct_tag (type_name : string) (object_types : list string) : StructTag :=
  if is_qualified type_name then TagOther
  else if bool_decide (type_name ∈ object_types) then TagObject
  else TagNonObject type_name.

Definition type_tag (object_types : list string) (ty : Ty.t) : StructTag :=
  match ty with Ty.Struct n => local_struct_tag n object_types | _ => TagOther end.

(** [return_slot]. *)
Definition return_slot (name : string) (module : VmModule) (object_types : list string)
    (fresh : Fresh) : Slot :=
  if is_qualified name then slot_scalar fresh TagOther
  else
    match get_function module name ≫= fn_return_type with
    | Some (Ty.Struct type_name) => slot_scalar fresh (local_struct_tag type_name object_types)
    | Some (Ty.Tuple types) => mkSlot fresh TagOther (Some (map (type_tag object_types) types))
    | _ => slot_scalar fresh TagOther
    end.

(** [jump_target]: an [isize] sum, reinterpreted as [usize]. *)
Definition adapter_jump_target (pc : nat) (offset : Z) : Z := (Z.of_nat pc + offset) mod 2 ^ 64.

(** [enqueue]. *)
Definition adapter_enqueue (pending : gmap Z VerifyState) (target : Z) (st : VerifyState)
  : gmap Z VerifyState :=
  <[target := match pending !! target with
              | Some existing => merge_from existing st
              | None => st
              end]> pending.

Section verifier.
Context `{PrefixHex}.
Context (module : VmModule) (deps : gmap Address VmModule) (natives : list NativeSig).

(** The object types of the module, in [verify]. *)
Definition object_types : list string :=
  map sd_name (List.filter is_object_struct (mod_structs module)).

(** The body of the field loop of [check_object_layouts]. *)
Definition check_field_layout (s : StructDef) (i : nat) (field : FieldDef) : list BVError :=
  (if bool_decide (fd_ty field = Ty.Struct MEOW_OBJECT_ID_BYTECODE_TYPE_NAME) && negb (Nat.eqb i 0)
   then [BytecodeVerifierError.IdFieldNotFirst (sd_name s) (fd_name field)] else []) ++
  match fd_ty field with
  | Ty.Struct field_type_name =>
      let is_obj :=
        match parse_module_ref field_type_name with
        | Some (dep_addr, type_name) =>
            match deps !! dep_addr ≫= (λ m, get_struct m type_name) with
            | Some def => is_object_struct def
            | None => false
            end
        | None => bool_decide (field_type_name ∈ object_types)
        end in
      if is_obj then
        [BytecodeVerifierError.ObjectAsFieldType (sd_name s) (fd_name field) field_type_name]
      else []
  | _ => []
  end.

(** [check_object_layouts]. *)
Definition check_object_layouts : list BVError :=
  mjoin (map (λ s, mjoin (imap (check_field_layout s) (sd_fields s))) (mod_structs module)).

(** [call_effect]. *)
Definition call_effect (name : string) : nat * bool :=
  match parse_module_ref name with
  | Some (dep_addr, fn_name) =>
      match deps !! dep_addr ≫= (λ m, get_function m fn_name) with
      | Some func => (length (fn_params func), is_some (fn_return_type func))
      | None => (0, false)
      end
  | None =>
      match find_first (λ s, String.eqb (sig_name s) name) natives with
      | Some sig => (length (sig_params sig), is_some (sig_return_type sig))
      | None =>
          match get_function module name with
          | Some func => (length (fn_params func), is_some (fn_return_type func))
          | None => (0, false)
          end
      end
  end.

Context (func : Function).

(** The tags of the fields pushed by [UnpackStruct]. *)
Definition field_tag (def : option StructDef) (fname : string) : StructTag :=
  match def ≫= (λ d, find_first (λ f, String.eqb (fd_name f) fname) (sd_fields d)) with
  | Some f => type_tag object_types (fd_ty f)
  | None => TagOther
  end.

(** The arm for [NewStruct]. *)
Definition shadow_new_struct (pc : nat) (type_name : string) (field_names : list string)
    (st : VerifyState) : VerifyState * list BVError :=
  let n := length field_names in
  let stale :=
    bool_decide (type_name ∈ object_types) && Nat.ltb 0 n &&
    bool_decide (slot_fresh <$> stack_get st (length (vs_stack st) - n) ≠ Some FreshId) in
  let '(_, st) := vs_pop_n n st in
  (vs_push (slot_scalar FreshOther (local_struct_tag type_name object_types)) st,
   if stale then [BytecodeVerifierError.ObjectIdNotFresh (fn_name func) pc type_name] else []).

(** The arm for [Call]. *)
Definition shadow_call (pc : nat) (name : string) (st : VerifyState) : VerifyState * list BVError :=
  let '(n_pops, has_return) := call_effect name in
  let errors :=
    if String.eqb name NATIVE_FN_TRANSFER then
      match slot_tag <$> stack_get st (length (vs_stack st) - n_pops) with
      | Some (TagNonObject struct_name) =>
          [BytecodeVerifierError.TransferNonObjectStruct (fn_name func) pc struct_name]
      | _ => []
      end
    else [] in
  let '(_, st) := vs_pop_n n_pops st in
  ((if has_return : bool then
      let fresh := if String.eqb name NATIVE_FN_FRESH_ID then FreshId else FreshOther in
      vs_push (return_slot name module object_types fresh) st
    else st), errors).

(** The arm for [UnpackTuple]. *)
Definition shadow_unpack_tuple (n : nat) (st : VerifyState) : VerifyState :=
  let '(slot, st) := vs_pop st in
  match slot_tuple slot with
  | Some elems =>
      if bool_decide (length elems = n) then
        foldl (λ st tag, vs_push (slot_scalar FreshOther tag) st) st (reverse elems)
      else Nat.iter n (vs_push slot_other) st
  | None => Nat.iter n (vs_push slot_other) st
  end.

(** The [match] of [check_function_body]: the new state, the snapshots and
    the errors. *)
Definition shadow_instr (pc : nat) (instr : Instruction.t) (st : VerifyState)
    (pending : gmap Z VerifyState) : VerifyState * gmap Z VerifyState * list BVError :=
  let pops n := snd (vs_pop_n n st) in
  match instr with
  | Instruction.PushBool _ | Instruction.PushU64 _ | Instruction.PushAddress _
  | Instruction.PushStr _ => (vs_push slot_other st, pending, [])
  | Instruction.Load s => (vs_push (default slot_other (vs_locals st !! s)) st, pending, [])
  | Instruction.Store s =>
      let '(slot, st) := vs_pop st in
      (mkVerify (vs_stack st) (<[s := slot]> (vs_locals st)) (vs_reachable st), pending, [])
  | Instruction.LoadField _ _ => (vs_push slot_other (pops 1), pending, [])
  | Instruction.StoreField _ _ => (pops 1, pending, [])
  | Instruction.Add | Instruction.Sub | Instruction.Mul | Instruction.Div | Instruction.Mod
  | Instruction.Eq | Instruction.Ne | Instruction.Lt | Instruction.Le | Instruction.Gt
  | Instruction.Ge | Instruction.And | Instruction.Or =>
      (vs_push slot_other (pops 2), pending, [])
  | Instruction.Not => (vs_push slot_other (pops 1), pending, [])
  | Instruction.NewStruct type_name field_names =>
      let '(st, errors) := shadow_new_struct pc type_name field_names st in (st, pending, errors)
  | Instruction.GetField _ => (vs_push slot_other (pops 1), pending, [])
  | Instruction.UnpackStruct type_name field_names =>
      let def := get_struct module type_name in
      (foldl (λ st fname, vs_push (slot_scalar FreshOther (field_tag def fname)) st) (pops 1)
         field_names, pending, [])
  | Instruction.Pop => (pops 1, pending, [])
  | Instruction.Dup => (vs_push (default slot_other (head (vs_stack st))) st, pending, [])
  | Instruction.Jump offset =>
      (vs_unreachable st, adapter_enqueue pending (adapter_jump_target pc offset) st, [])
  | Instruction.JumpIf offset | Instruction.JumpIfNot offset =>
      (pops 1, adapter_enqueue pending (adapter_jump_target pc offset) (pops 1), [])
  | Instruction.Return => (vs_unreachable (pops 1), pending, [])
  | Instruction.Call name =>
      let '(st, errors) := shadow_call pc name st in (st, pending, errors)
  | Instruction.MakeTuple n =>
      let '(slots, st) := vs_pop_n n st in
      (vs_push (mkSlot FreshOther TagOther (Some (reverse (map slot_tag slots)))) st, pending, [])
  | Instruction.UnpackTuple n => (shadow_unpack_tuple n st, pending, [])
  end.

(** The loop of [check_function_body]. *)
Fixpoint shadow_code (pc : nat) (code : list Instruction.t) (st : VerifyState)
    (pending : gmap Z VerifyState) : list BVError :=
  match code with
  | [] => []
  | instr :: code =>
      let st :=
        match pending !! Z.of_nat pc with
        | Some incoming => if vs_reachable st then merge_from st incoming else incoming
        | None => st
        end in
      let pending := delete (Z.of_nat pc) pending in
      if vs_reachable st then
        let '(st, pending, errors) := shadow_instr pc instr st pending in
        errors ++ shadow_code (S pc) code st pending
      else shadow_code (S pc) code st pending
  end.

(** The parameter loop of [check_function_body]. *)
Definition seed_param (locals : list Slot) (i : nat) (ty : Ty.t) : list Slot :=
  match ty, locals !! i with
  | Ty.Struct name, Some slot =>
      <[i := mkSlot (slot_fresh slot) (local_struct_tag name object_types) (slot_tuple slot)]> locals
  | _, _ => locals
  end.
Fixpoint seed_params (locals : list Slot) (i : nat) (params : list (string * Ty.t)) : list Slot :=
  match params with
  | [] => locals
  | (_, ty) :: params => seed_params (seed_param locals i ty) (S i) params
  end.

(** [check_function_body]. *)
Definition check_function_body : list BVError :=
  shadow_code 0 (fn_code func)
    (mkVerify [] (seed_params (vs_locals (vs_new (fn_local_count func))) 0 (fn_params func)) true)
    ∅.
End verifier.

(** [verify]. *)
Definition adapter_verify `{PrefixHex} (module : VmModule) (deps : gmap Address VmModule)
    (adapter_natives : list NativeSig) : outcome (list BVError) () :=
  let all_natives := builtin_natives ++ adapter_natives in
  let errors := check_object_layouts module deps ++
    mjoin (map (check_function_body module deps all_natives) (mod_functions module)) in
  match errors with [] => Ok () | _ => Err errors end.

(** ** What an accepted layout is *)
Section layout.
Context `{PrefixHex} (module : VmModule) (deps : gmap Address VmModule).

(** [ty] names an object type, of the module or of a dependency. *)
Definition names_object (ty : Ty.t) : Prop :=
  ∃ n def, ty = Ty.Struct n ∧ is_object_struct def = true ∧
    match parse_module_ref n with
    | Some (a, tn) => ∃ m, deps !! a = Some m ∧ get_struct m tn = Some def
    | None => sd_name def = n ∧ def ∈ mod_structs module
    end.

Lemma elem_of_object_types n :
  n ∈ object_types module ↔
  ∃ def, def ∈ mod_structs module ∧ is_object_struct def = true ∧ sd_name def = n.
Proof.
  unfold object_types. rewrite list_elem_of_fmap. setoid_rewrite list_elem_of_In.
  setoid_rewrite List.filter_In. split; [intros (d & -> & ? & ?)|intros (d & ? & ? & <-)]; eauto.
Qed.

Lemma check_field_layout_nil s i f :
  check_field_layout module deps s i f = [] ↔
  (fd_ty f = Ty.Struct MEOW_OBJECT_ID_BYTECODE_TYPE_NAME → i = 0) ∧ ¬ names_object (fd_ty f).
Proof.
  unfold check_field_layout. rewrite app_nil.
  assert (Hand : ∀ A B C D : Prop, (A ↔ C) → (B ↔ D) → (A ∧ B ↔ C ∧ D)) by tauto. apply Hand.
  - case_bool_decide; simpl; [|naive_solver]. destruct i; simpl; naive_solver.
  - unfold names_object. destruct (fd_ty f) as [| | | |n|]; try (split; [naive_solver|done]).
    destruct (parse_module_ref n) as [[a tn]|] eqn:Hp.
    + destruct (deps !! a ≫= λ m, get_struct m tn) as [def|] eqn:Hd.
      * apply bind_Some in Hd as (m & Hm & Hs). destruct (is_object_struct def) eqn:Ho.
        -- split; [done|]. intros Hn. destruct Hn. exists n, def. rewrite Hp. eauto.
        -- split; [|done]. intros _ (n' & def' & [= <-] & Ho' & Hx). rewrite Hp in Hx.
           destruct Hx as (m' & ? & ?). congruence.
      * split; [|done]. intros _ (n' & def' & [= <-] & Ho' & Hx). rewrite Hp in Hx.
        destruct Hx as (m' & Hm & Hs). rewrite Hm in Hd. simpl in Hd. congruence.
    + case_bool_decide as Hn.
      * split; [done|]. intros Hno. destruct Hno. apply elem_of_object_types in Hn as (d & ? & ? & ?).
        exists n, d. rewrite Hp. eauto.
      * split; [|done]. intros _ (n' & def' & [= <-] & Ho' & Hx). rewrite Hp in Hx.
        destruct Hn. apply elem_of_object_types. destruct Hx. eauto.
Qed.
End layout.
