(* ===== verification/ErrorText.v ===== *)
(** * The texts of errors

    The [Display] of [VmError] and of [VerificationError], which end up in the
    status of a failed execution and so in the results a block commits to. *)

From S2P Require Import Prelude Address VmTypes Gas VerifierStructural.

Definition quoted (s : string) : string := "'" +:+ s +:+ "'".

(** [impl Display for VmError]. *)
Definition vm_error_to_string (e : VmError.t) : string :=
  match e with
  | VmError.Aborted code message => "aborted with code " +:+ pretty code +:+ ": " +:+ message
  | VmError.ArithmeticOverflow => "arithmetic overflow"
  | VmError.ArityMismatch function got local_count =>
      "function " +:+ quoted function +:+ " received " +:+ pretty got +:+
      " arguments but declares only " +:+ pretty local_count +:+ " local slots"
  | VmError.CallStackOverflow max => "call stack overflow (max depth " +:+ pretty max +:+ ")"
  | VmError.DivisionByZero => "division by zero"
  | VmError.EqOnLinearType name =>
      quoted name +:+
      ": struct types and tuples containing structs cannot be compared with == or != — destructure and compare fields individually"
  | VmError.InvalidJumpTarget pc offset =>
      "invalid jump target: offset " +:+ pretty offset +:+ " from pc " +:+ pretty pc +:+
      " is out of range"
  | VmError.LinearFieldOverwrite field =>
      "store-field would overwrite live struct field " +:+ quoted field +:+
      "; consume it before storing"
  | VmError.NativeError msg => "native function error: " +:+ msg
  | VmError.NativeFunctionCallDirect name =>
      quoted name +:+ " is a native function and cannot be called directly from outside a contract"
  | VmError.OutOfGas spent limit =>
      "out of gas: spent " +:+ pretty spent +:+ ", limit " +:+ pretty limit
  | VmError.PrivateFunction name =>
      "function " +:+ quoted name +:+
      " is private — only `pub fn` can be called from outside the module"
  | VmError.SlotOverwrite slot =>
      "slot overwrite: slot " +:+ pretty slot +:+ " holds a live struct; consume it before storing"
  | VmError.StackUnderflow => "stack underflow"
  | VmError.TooManyDepModules max => "too many dependency modules (max " +:+ pretty max +:+ ")"
  | VmError.TypeError msg => "type error: " +:+ msg
  | VmError.UndefinedField type_name field =>
      "undefined field " +:+ quoted field +:+ " on struct " +:+ quoted type_name
  | VmError.UndefinedFunction name => "undefined function: " +:+ name
  | VmError.UndefinedStruct name => "undefined struct: " +:+ name
  | VmError.UndefinedVariable slot => "undefined variable at slot " +:+ pretty slot
  | VmError.UseAfterMove msg => "use after move: " +:+ msg
  end.

Definition in_function (f : string) : string := "function " +:+ quoted f.
Definition at_pc (f : string) (pc : nat) : string :=
  in_function f +:+ " at pc " +:+ pretty pc +:+ ": ".
Definition exceeding (limit : string) : string := ", exceeding the limit of " +:+ limit.

(** [impl Display for VerificationError]. *)
Definition verification_error_to_string (e : VerificationError.t) : string :=
  match e with
  | VerificationError.InvalidIdentifier name context =>
      "invalid identifier " +:+ quoted name +:+ " in " +:+ context
  | VerificationError.DuplicateFunctionName name => "duplicate function name " +:+ quoted name
  | VerificationError.DuplicateStructName name => "duplicate struct name " +:+ quoted name
  | VerificationError.TooManyStructs count limit =>
      "module has " +:+ pretty count +:+ " struct definitions" +:+ exceeding (pretty limit)
  | VerificationError.TooManyFunctions count limit =>
      "module has " +:+ pretty count +:+ " function definitions" +:+ exceeding (pretty limit)
  | VerificationError.TooManyImports count limit =>
      "module has " +:+ pretty count +:+ " imports" +:+ exceeding (pretty limit)
  | VerificationError.EmptyStruct s =>
      "struct " +:+ quoted s +:+ " has no fields — structs must have at least one field"
  | VerificationError.TooManyFields s count limit =>
      "struct " +:+ quoted s +:+ " has " +:+ pretty count +:+ " fields" +:+ exceeding (pretty limit)
  | VerificationError.CyclicStructDefinition s =>
      "struct " +:+ quoted s +:+ " is part of a cyclic field type definition"
  | VerificationError.TupleFieldType s f =>
      "field " +:+ quoted f +:+ " in struct " +:+ quoted s +:+
      " has a tuple type — only primitives and struct types are allowed as field types"
  | VerificationError.TupleTooLarge f size limit =>
      in_function f +:+ ": tuple has " +:+ pretty size +:+ " elements" +:+ exceeding (pretty limit)
  | VerificationError.LocalCountTooSmall f local_count param_count =>
      in_function f +:+ ": local_count " +:+ pretty local_count +:+ " < param count " +:+
      pretty param_count
  | VerificationError.TooManyParams f count limit =>
      in_function f +:+ " has " +:+ pretty count +:+ " parameters" +:+ exceeding (pretty limit)
  | VerificationError.FunctionTooLarge f count limit =>
      in_function f +:+ " has " +:+ pretty count +:+ " bytecode instructions" +:+
      exceeding (pretty limit)
  | VerificationError.TooManyLocals f count limit =>
      in_function f +:+ " has local_count " +:+ pretty count +:+ " exceeding the limit of " +:+
      pretty limit
  | VerificationError.BackwardJump f pc offset =>
      at_pc f pc +:+ "backward or zero jump offset " +:+ pretty offset +:+
      " — loops are not allowed"
  | VerificationError.JumpOutOfBounds f pc target code_len =>
      at_pc f pc +:+ "jump target " +:+ pretty target +:+ " is out of bounds (code length " +:+
      pretty code_len +:+ ")"
  | VerificationError.SlotOutOfRange f pc slot local_count =>
      at_pc f pc +:+ "local slot " +:+ pretty slot +:+ " is out of range (local_count is " +:+
      pretty local_count +:+ ")"
  | VerificationError.EmptyFieldPath f pc => at_pc f pc +:+ "field path must not be empty"
  | VerificationError.UnresolvedTypeReference context type_name =>
      "unresolved type " +:+ quoted type_name +:+ " in " +:+ context
  | VerificationError.UndefinedStructType f pc type_name =>
      at_pc f pc +:+ "NewStruct references unknown type " +:+ quoted type_name
  | VerificationError.StructFieldMismatch f pc type_name =>
      at_pc f pc +:+ "field list for " +:+ quoted type_name +:+ " does not match definition"
  | VerificationError.CrossModuleCallToPrivateFunction f pc callee =>
      at_pc f pc +:+ "call to " +:+ quoted callee +:+ " which is private"
  | VerificationError.CrossModuleStructAccess f pc type_name =>
      at_pc f pc +:+ "cross-module struct access for type " +:+ quoted type_name +:+ " is forbidden"
  | VerificationError.CrossModulePrivateStructReference context type_name =>
      "in " +:+ context +:+ ": type " +:+ quoted type_name +:+
      " refers to a private struct in another module — only `pub` structs are visible across modules"
  | VerificationError.CrossModulePrivateFieldRead f pc type_name field =>
      at_pc f pc +:+ "field " +:+ quoted field +:+ " on cross-module type " +:+ quoted type_name +:+
      " is private"
  | VerificationError.CrossModuleFieldWrite f pc type_name field =>
      at_pc f pc +:+ "cross-module field write to " +:+ quoted field +:+ " on " +:+
      quoted type_name +:+ " is forbidden"
  | VerificationError.StackUnderflow f pc expected =>
      at_pc f pc +:+ "stack underflow — expected " +:+ expected
  | VerificationError.TypeMismatch f pc expected found =>
      at_pc f pc +:+ "type mismatch — expected " +:+ expected +:+ ", found " +:+ found
  | VerificationError.StackMergeConflict f join_pc =>
      in_function f +:+ ": stack types at join point pc " +:+ pretty join_pc +:+
      " differ between branch paths"
  | VerificationError.LivenessMergeConflict f join_pc slot =>
      in_function f +:+ ": struct liveness at join point pc " +:+ pretty join_pc +:+
      " differs between branch paths (slot " +:+ pretty slot +:+ ")"
  | VerificationError.SlotTypeMergeConflict f join_pc slot =>
      in_function f +:+ ": local slot " +:+ pretty slot +:+
      " holds linear values of incompatible types at join point pc " +:+ pretty join_pc +:+
      " between branch paths"
  | VerificationError.ReturnTypeMismatch f declared found =>
      in_function f +:+ ": return type mismatch — declared " +:+ declared +:+ ", found " +:+ found
  | VerificationError.MissingReturn f => in_function f +:+ ": missing Return at end of function"
  | VerificationError.StructTypedFieldLoaded f pc field =>
      at_pc f pc +:+ "field " +:+ quoted field +:+
      " has struct type — LoadField on a struct-typed field is forbidden; use UnpackStruct to extract struct fields"
  | VerificationError.StructTypedFieldWritten f pc field =>
      at_pc f pc +:+ "field " +:+ quoted field +:+
      " has struct type — StoreField into a struct-typed field is forbidden; the old value would be implicitly dropped"
  | VerificationError.GetFieldDropsLinearField f pc type_name linear_field =>
      at_pc f pc +:+ "GetField on struct " +:+ quoted type_name +:+
      " would silently drop linear field " +:+ quoted linear_field +:+
      " — use UnpackStruct to consume all fields explicitly"
  | VerificationError.UseAfterMove f pc slot =>
      at_pc f pc +:+ "use-after-move of struct in slot " +:+ pretty slot
  | VerificationError.PopOnStruct f pc =>
      at_pc f pc +:+
      "Pop on struct value — structs have move semantics and must be explicitly consumed"
  | VerificationError.DupOnStruct f pc =>
      at_pc f pc +:+ "Dup on struct value — structs have move semantics"
  | VerificationError.EqOnLinearType f pc =>
      at_pc f pc +:+
      "struct types and tuples containing structs cannot be compared with == or != — destructure and compare fields individually"
  | VerificationError.SlotOverwrite f pc slot =>
      at_pc f pc +:+ "Store overwrites live struct in slot " +:+ pretty slot +:+
      " — consume the existing value first"
  | VerificationError.UnconsumedStruct f slot =>
      in_function f +:+ ": struct in slot " +:+ pretty slot +:+ " was not consumed before Return"
  | VerificationError.UnconsumedStructOnStack f =>
      in_function f +:+
      ": a linear value is left on the operand stack beneath the return value — it would be silently dropped at Return"
  | VerificationError.UndefinedFunction f pc callee =>
      at_pc f pc +:+ "call to undefined function " +:+ quoted callee
  | VerificationError.NativeArgCountMismatch f pc callee expected found =>
      at_pc f pc +:+ "native " +:+ quoted callee +:+ " expects " +:+ pretty expected +:+
      " args but " +:+ pretty found +:+ " were provided"
  | VerificationError.NativeArgTypeMismatch f pc callee arg_index expected found =>
      at_pc f pc +:+ "native " +:+ quoted callee +:+ " arg " +:+ pretty arg_index +:+ " expects " +:+
      expected +:+ ", found " +:+ found
  end.
