(* ===== verification/Ast.v ===== *)
(** * The syntax tree of the language

    Models [ast.rs] of [meow-vm-compiler]. *)

From S2P Require Import Prelude Address VmTypes.

Module UnaryOp.
Inductive t := Not.
End UnaryOp.

Module BinOp.
Inductive t := Add | Sub | Mul | Div | Mod | Eq | Ne | Lt | Le | Gt | Ge | And | Or.
End BinOp.

Module Expr.
Inductive t :=
  | Bool (b : bool)
  | Int (n : Z)
  | Address (a : Address)
  | Str (s : string)
  | Ident (name : string)
  | BinOp (left : t) (op : BinOp.t) (right : t)
  | FieldAccess (expr : t) (field : string)
  | StructLit (name : string) (fields : list (string * t))
  | Call (name : string) (args : list t)
  | Tuple (items : list t)
  | UnaryOp (op : UnaryOp.t) (expr : t).

Section ind.
Context (P : t → Prop).
Context (HBool : ∀ b, P (Bool b)) (HInt : ∀ n, P (Int n)) (HAddress : ∀ a, P (Address a)).
Context (HStr : ∀ s, P (Str s)) (HIdent : ∀ x, P (Ident x)).
Context (HBinOp : ∀ l op r, P l → P r → P (BinOp l op r)).
Context (HField : ∀ e f, P e → P (FieldAccess e f)).
Context (HStruct : ∀ n fs, Forall (λ f, P (snd f)) fs → P (StructLit n fs)).
Context (HCall : ∀ n args, Forall P args → P (Call n args)).
Context (HTuple : ∀ items, Forall P items → P (Tuple items)).
Context (HUnary : ∀ op e, P e → P (UnaryOp op e)).

Fixpoint ind' (e : t) : P e :=
  let go := fix go (l : list t) : Forall P l :=
    match l with
    | [] => list.Forall_nil_2 _
    | x :: l => list.Forall_cons_2 _ x l (ind' x) (go l)
    end in
  match e with
  | Bool b => HBool b
  | Int n => HInt n
  | Address a => HAddress a
  | Str s => HStr s
  | Ident x => HIdent x
  | BinOp l op r => HBinOp l op r (ind' l) (ind' r)
  | FieldAccess e f => HField e f (ind' e)
  | StructLit n fs =>
      HStruct n fs ((fix gof (fs : list (string * t)) : Forall (λ f, P (snd f)) fs :=
        match fs with
        | [] => list.Forall_nil_2 _
        | f :: fs => list.Forall_cons_2 _ f fs (ind' (snd f)) (gof fs)
        end) fs)
  | Call n args => HCall n args (go args)
  | Tuple items => HTuple items (go items)
  | UnaryOp op e => HUnary op e (ind' e)
  end.
End ind.
End Expr.

Module Stmt.
Inductive t :=
  | Let (name : string) (expr : Expr.t)
  | Reassign (name : string) (expr : Expr.t)
  | Return (expr : option Expr.t)
  | Expr (expr : Expr.t)
  | If (cond : Expr.t) (body : list t) (else_body : option (list t))
  | FieldAssign (obj_name : string) (field_path : list string) (expr : Expr.t)
  | LetTuple (names : list string) (expr : Expr.t)
  | LetStruct (type_name : string) (bindings : list (string * string)) (expr : Expr.t)
      (rest_discarded : bool).

Section ind.
Context (P : t → Prop).
Context (HLet : ∀ x e, P (Let x e)) (HReassign : ∀ x e, P (Reassign x e)).
Context (HReturn : ∀ e, P (Return e)) (HExpr : ∀ e, P (Expr e)).
Context (HIf : ∀ c body eb, Forall P body → Forall P (default [] eb) → P (If c body eb)).
Context (HField : ∀ x p e, P (FieldAssign x p e)) (HTuple : ∀ xs e, P (LetTuple xs e)).
Context (HStruct : ∀ n bs e r, P (LetStruct n bs e r)).

Fixpoint ind' (s : t) : P s :=
  let go := fix go (l : list t) : Forall P l :=
    match l with
    | [] => list.Forall_nil_2 _
    | x :: l => list.Forall_cons_2 _ x l (ind' x) (go l)
    end in
  match s with
  | Let x e => HLet x e
  | Reassign x e => HReassign x e
  | Return e => HReturn e
  | Expr e => HExpr e
  | If c body eb =>
      HIf c body eb (go body)
        match eb with Some l => go l | None => list.Forall_nil_2 _ end
  | FieldAssign x p e => HField x p e
  | LetTuple xs e => HTuple xs e
  | LetStruct n bs e r => HStruct n bs e r
  end.
End ind.
End Stmt.

Record AstFunction := mkAstFunction {
  af_is_public : bool;
  af_name : string;
  af_params : list (string * Ty.t);
  af_return_type : option Ty.t;
  af_body : list Stmt.t;
}.

Record AstStruct := mkAstStruct {
  as_is_public : bool;
  as_name : string;
  as_fields : list (string * Ty.t);
}.

Inductive AstItem :=
  | ItemModuleDecl (name : string)
  | ItemUse (name : string) (address : Address) (alias : option string)
  | ItemStruct (s : AstStruct)
  | ItemFn (f : AstFunction).

(** [CompilerError]. *)
Module CompilerError.
Inductive t := Message (msg : string).
End CompilerError.
Notation cerr s := (CompilerError.Message s).
