(* ===== verification/Chumsky.v ===== *)
(** * Parser combinators

    The crate [chumsky], with which [parser.rs] of [meow-vm-compiler] is
    written, is the class [Chumsky]: a type of parsers and one operation per
    combinator that the source uses.  [ChumskyLaws] says what the crate
    documents: how each combinator runs, given how its parts run.  A run takes a
    text and gives a value with the rest of the text, or fails.

    Loops need items that consume something, and recursion must consume before
    it recurs; [agree] states both, and compares two runs up to a length of
    text.  Its lemmas show that a grammar runs in the same way with every
    implementation of the class. *)

From S2P Require Import Prelude Text.

(** ** How the combinators run *)
Definition Run (A : Type) : Type := string → option (A * string).

Section runs.
Context {A B C : Type}.
Implicit Types (p : Run A) (q : Run B).

Definition map_run (f : A → B) p : Run B := λ s, '(x, r) ← p s; Some (f x, r).
Definition try_map_run (f : A → option B) p : Run B := λ s, '(x, r) ← p s; y ← f x; Some (y, r).
Definition padded_run p : Run A := λ s, '(x, r) ← p (skip_ws s); Some (x, skip_ws r).
Definition then_run p q : Run (A * B) := λ s, '(x, r) ← p s; '(y, r) ← q r; Some ((x, y), r).
Definition ignore_then_run p q : Run B := λ s, '(_, r) ← p s; q r.
Definition then_ignore_run p q : Run A := λ s, '(x, r) ← p s; '(_, r) ← q r; Some (x, r).
Definition or_not_run p : Run (option A) := λ s,
  match p s with Some (x, r) => Some (Some x, r) | None => Some (None, s) end.
Fixpoint choice_run (ps : list (Run A)) : Run A := λ s,
  match ps with
  | [] => None
  | p :: ps => match p s with Some res => Some res | None => choice_run ps s end
  end.

(** As many items as there are; the fuel bounds their number. *)
Fixpoint many p (fuel : nat) (s : string) : list A * string :=
  match fuel with
  | O => ([], s)
  | S fuel =>
      match p s with
      | None => ([], s)
      | Some (x, r) => let '(xs, r') := many p fuel r in (x :: xs, r')
      end
  end.
Definition many_run p (s : string) : list A * string := many p (S (String.length s)) s.
Definition at_least_run (n : nat) (res : list A * string) : option (list A * string) :=
  if bool_decide (n ≤ length (fst res)) then Some res else None.
Definition repeated_run (at_least : nat) p : Run (list A) := λ s, at_least_run at_least (many_run p s).
End runs.

(** Items with separators between them; a separator behind the last item is
    consumed only if it is allowed. *)
Definition separated_items {A B} (trailing : bool) (p : Run A) (sep : Run B) (s : string)
  : list A * string :=
  match p s with
  | None => ([], s)
  | Some (x, r) =>
      let '(xs, r') := many_run (ignore_then_run sep p) r in
      (x :: xs,
       if trailing then match sep r' with Some (_, r'') => r'' | None => r' end else r')
  end.
Definition separated_run {A B} (at_least : nat) (trailing : bool) (p : Run A) (sep : Run B)
  : Run (list A) := λ s, at_least_run at_least (separated_items trailing p sep s).

Definition just_run (t : string) : Run string := λ s, r ← strip_prefix t s; Some (t, r).
Definition none_of_run (c : ascii) : Run ascii := λ s,
  match s with
  | String d r => if Ascii.eqb d c then None else Some (d, r)
  | EmptyString => None
  end.
Definition ident_run : Run string := λ s,
  match s with
  | String c r => if is_ident_start c then Some (span is_ident_char s) else None
  | EmptyString => None
  end.
Definition keyword_run (k : string) : Run string := λ s,
  '(w, r) ← ident_run s; if String.eqb w k then Some (w, r) else None.
(** A number without leading zeros. *)
Definition int_run : Run string := λ s,
  match s with
  | String c r =>
      if Ascii.eqb c "0" then Some ("0", r)
      else if is_digit c then Some (span is_digit s) else None
  | EmptyString => None
  end.
Definition hex_run : Run string := λ s,
  match span is_hex_digit s with (EmptyString, _) => None | res => Some res end.

(** ** Runs that agree

    On texts of at most [n] characters the two runs give the same, and leave no
    more than they got: less, if [strict]. *)
Definition agree {A} (strict : bool) (n : nat) (p q : Run A) : Prop :=
  ∀ s, String.length s ≤ n →
    p s = q s ∧ ∀ x r, p s = Some (x, r) → String.length r + Nat.b2n strict ≤ String.length s.

(** ** The crate *)
Class Chumsky := {
  CParser : Type → Type;
  run : ∀ {A}, CParser A → Run A;
  (** The text of the errors of a failed parse. *)
  error_text : ∀ {A}, CParser A → string → string;

  just : string → CParser string;
  none_of : ascii → CParser ascii;
  empty_p : CParser ();
  ascii_ident : CParser string;
  ascii_keyword : string → CParser string;
  text_int : CParser string;
  text_digits16 : CParser string;

  padded : ∀ {A}, CParser A → CParser A;
  map_p : ∀ {A B}, (A → B) → CParser A → CParser B;
  to_p : ∀ {A B}, B → CParser A → CParser B;
  ignored : ∀ {A}, CParser A → CParser ();
  try_map : ∀ {A B}, (A → option B) → CParser A → CParser B;
  then_ : ∀ {A B}, CParser A → CParser B → CParser (A * B);
  ignore_then : ∀ {A B}, CParser A → CParser B → CParser B;
  then_ignore : ∀ {A B}, CParser A → CParser B → CParser A;
  delimited_by : ∀ {A B C}, CParser A → CParser B → CParser C → CParser A;
  or_not : ∀ {A}, CParser A → CParser (option A);
  or_p : ∀ {A}, CParser A → CParser A → CParser A;
  choice : ∀ {A}, list (CParser A) → CParser A;
  repeated : ∀ {A}, nat → CParser A → CParser (list A);
  separated_by : ∀ {A B}, nat → bool → CParser A → CParser B → CParser (list A);
  recursive : ∀ {A}, (CParser A → CParser A) → CParser A;
}.

Class ChumskyLaws `{Chumsky} := {
  run_just t s : run (just t) s = just_run t s;
  run_none_of c s : run (none_of c) s = none_of_run c s;
  run_empty s : run empty_p s = Some ((), s);
  run_ident s : run ascii_ident s = ident_run s;
  run_keyword k s : run (ascii_keyword k) s = keyword_run k s;
  run_int s : run text_int s = int_run s;
  run_digits16 s : run text_digits16 s = hex_run s;
  run_padded {A} (p : CParser A) s : run (padded p) s = padded_run (run p) s;
  run_map {A B} (f : A → B) (p : CParser A) s : run (map_p f p) s = map_run f (run p) s;
  run_to {A B} (b : B) (p : CParser A) s : run (to_p b p) s = map_run (λ _, b) (run p) s;
  run_ignored {A} (p : CParser A) s : run (ignored p) s = map_run (λ _, ()) (run p) s;
  run_try_map {A B} (f : A → option B) (p : CParser A) s :
    run (try_map f p) s = try_map_run f (run p) s;
  run_then {A B} (p : CParser A) (q : CParser B) s : run (then_ p q) s = then_run (run p) (run q) s;
  run_ignore_then {A B} (p : CParser A) (q : CParser B) s :
    run (ignore_then p q) s = ignore_then_run (run p) (run q) s;
  run_then_ignore {A B} (p : CParser A) (q : CParser B) s :
    run (then_ignore p q) s = then_ignore_run (run p) (run q) s;
  run_delimited_by {A B C} (p : CParser A) (l : CParser B) (r : CParser C) s :
    run (delimited_by p l r) s = ignore_then_run (run l) (then_ignore_run (run p) (run r)) s;
  run_or_not {A} (p : CParser A) s : run (or_not p) s = or_not_run (run p) s;
  run_or {A} (p q : CParser A) s : run (or_p p q) s = choice_run [run p; run q] s;
  run_choice {A} (ps : list (CParser A)) s : run (choice ps) s = choice_run (map run ps) s;
  run_repeated {A} n (p : CParser A) s :
    agree true (String.length s) (run p) (run p) → run (repeated n p) s = repeated_run n (run p) s;
  run_separated_by {A B} n trailing (p : CParser A) (sep : CParser B) s :
    agree true (String.length s) (run p) (run p) →
    agree true (String.length s) (run sep) (run sep) →
    run (separated_by n trailing p sep) s = separated_run n trailing (run p) (run sep) s;
  run_recursive {A} (f : CParser A → CParser A) s :
    (∀ n p q, (∀ m, m < n → agree true m (run p) (run q)) → agree true n (run (f p)) (run (f q))) →
    run (recursive f) s = run (f (recursive f)) s;
}.

(** ** Lemmas on runs that agree *)
Section agree.
Context {A B : Type}.
Implicit Types (p q : Run A).

Lemma agree_weaken b n p q : agree true n p q → agree b n p q.
Proof.
  intros Ha s Hs. destruct (Ha s Hs) as [He Hl]. split; [done|]. intros x r Hr.
  apply Hl in Hr. destruct b; simpl in *; lia.
Qed.
Lemma agree_any b n p q : agree b n p q → agree false n p q.
Proof. destruct b; [apply agree_weaken|done]. Qed.
Lemma agree_le b n m p q : m ≤ n → agree b n p q → agree b m p q.
Proof. intros Hm Ha s Hs. apply Ha. lia. Qed.
Lemma agree_ext b n p q p' q' : (∀ s, p s = p' s) → (∀ s, q s = q' s) →
  agree b n p q → agree b n p' q'.
Proof. intros Hp Hq Ha s Hs. rewrite <-Hp, <-Hq. by apply Ha. Qed.
Lemma agree_ext_le b n p q p' q' : (∀ s, String.length s ≤ n → p s = p' s) →
  (∀ s, String.length s ≤ n → q s = q' s) → agree b n p q → agree b n p' q'.
Proof. intros Hp Hq Ha s Hs. rewrite <-Hp, <-Hq by done. by apply Ha. Qed.
Lemma agree_sym b n p q : agree b n p q → agree b n q p.
Proof. intros Ha s Hs. destruct (Ha s Hs) as [<- Hl]. by split. Qed.
Lemma agree_refl_l b n p q : agree b n p q → agree b n p p.
Proof. intros Ha s Hs. split; [done|]. by apply Ha. Qed.
Lemma agree_trans b n p q r : agree b n p q → agree b n q r → agree b n p r.
Proof. intros H1 H2 s Hs. destruct (H1 s Hs) as [-> ?], (H2 s Hs) as [-> ?]. done. Qed.

Lemma map_run_agree b n (f : A → B) p q : agree b n p q → agree b n (map_run f p) (map_run f q).
Proof.
  intros Ha s Hs. destruct (Ha s Hs) as [He Hl]. unfold map_run. rewrite <-He. split; [done|].
  intros x r. destruct (p s) as [[y r']|]; intros; simplify_eq/=. by eapply Hl.
Qed.
Lemma try_map_run_agree b n (f : A → option B) p q :
  agree b n p q → agree b n (try_map_run f p) (try_map_run f q).
Proof.
  intros Ha s Hs. destruct (Ha s Hs) as [He Hl]. unfold try_map_run. rewrite <-He. split; [done|].
  intros x r. destruct (p s) as [[y r']|]; simpl; [|done].
  destruct (f y); intros; simplify_eq/=. by eapply Hl.
Qed.
Lemma padded_run_agree b n p q : agree b n p q → agree b n (padded_run p) (padded_run q).
Proof.
  intros Ha s Hs. pose proof (skip_ws_length s).
  destruct (Ha (skip_ws s)) as [He Hl]; [lia|]. unfold padded_run. rewrite <-He. split; [done|].
  intros x r. destruct (p (skip_ws s)) as [[y r']|]; intros; simplify_eq/=.
  pose proof (skip_ws_length r'). specialize (Hl _ _ eq_refl). lia.
Qed.
Lemma or_not_run_agree b n p q : agree b n p q → agree false n (or_not_run p) (or_not_run q).
Proof.
  intros Ha s Hs. destruct (Ha s Hs) as [He Hl]. unfold or_not_run. rewrite <-He. split; [done|].
  intros x r. destruct (p s) as [[y r']|]; intros; simplify_eq/=; [|lia].
  specialize (Hl _ _ eq_refl). lia.
Qed.
Lemma choice_run_agree b n (ps qs : list (Run A)) :
  Forall2 (agree b n) ps qs → agree b n (choice_run ps) (choice_run qs).
Proof.
  intros Ha s Hs. induction Ha as [|p q ps qs Hp _ IH]; simpl; [by split|].
  destruct (Hp s Hs) as [<- Hl]. by destruct (p s) as [[y r']|].
Qed.

(** A sequence consumes if one of its parts does; what comes behind a part that
    consumes is only run on shorter texts. *)
Context (p' q' : Run B).
Lemma then_run_agree b b' n p q : agree b n p q →
  (∀ m, m + Nat.b2n b ≤ n → agree b' m p' q') →
  agree (b || b') n (then_run p p') (then_run q q').
Proof.
  intros Ha Hb s Hs. destruct (Ha s Hs) as [He Hl]. unfold then_run. rewrite <-He.
  destruct (p s) as [[y r']|]; simpl; [|done]. specialize (Hl _ _ eq_refl).
  destruct (Hb (String.length r')) with (s := r') as [<- Hl']; [lia..|]. split; [done|].
  intros x r. destruct (p' r') as [[z r'']|]; intros; simplify_eq/=.
  specialize (Hl' _ _ eq_refl). destruct b, b'; simpl in *; lia.
Qed.
End agree.

Lemma ignore_then_run_agree {A B} b b' n (p q : Run A) (p' q' : Run B) : agree b n p q →
  (∀ m, m + Nat.b2n b ≤ n → agree b' m p' q') →
  agree (b || b') n (ignore_then_run p p') (ignore_then_run q q').
Proof.
  intros Ha Hb. eapply agree_ext, (map_run_agree _ _ snd), (then_run_agree _ _ _ _ _ _ _ Ha Hb);
    intros s; unfold map_run, then_run, ignore_then_run.
  - destruct (p s) as [[x r]|]; simpl; [|done]. by destruct (p' r) as [[y r']|].
  - destruct (q s) as [[x r]|]; simpl; [|done]. by destruct (q' r) as [[y r']|].
Qed.
Lemma then_ignore_run_agree {A B} b b' n (p q : Run A) (p' q' : Run B) : agree b n p q →
  (∀ m, m + Nat.b2n b ≤ n → agree b' m p' q') →
  agree (b || b') n (then_ignore_run p p') (then_ignore_run q q').
Proof.
  intros Ha Hb. eapply agree_ext, (map_run_agree _ _ fst), (then_run_agree _ _ _ _ _ _ _ Ha Hb);
    intros s; unfold map_run, then_run, then_ignore_run.
  - destruct (p s) as [[x r]|]; simpl; [|done]. by destruct (p' r) as [[y r']|].
  - destruct (q s) as [[x r]|]; simpl; [|done]. by destruct (q' r) as [[y r']|].
Qed.

(** Loops over items that consume. *)
Section loops.
Context {A : Type}.
Implicit Types (p q : Run A).

Lemma many_fuel p n : agree true n p p → ∀ k k' s, String.length s ≤ n →
  String.length s < k → String.length s < k' → many p k s = many p k' s.
Proof.
  intros Ha k. induction k as [|k IH]; intros k' s Hs Hk Hk'; [lia|]. destruct k' as [|k']; [lia|].
  simpl. destruct (Ha s Hs) as [_ Hl]. destruct (p s) as [[x r]|]; [|done].
  specialize (Hl _ _ eq_refl). simpl in Hl. by rewrite (IH k') by lia.
Qed.
Lemma many_run_unfold p s : agree true (String.length s) p p →
  many_run p s = match p s with
                 | None => ([], s)
                 | Some (x, r) => let '(xs, r') := many_run p r in (x :: xs, r')
                 end.
Proof.
  intros Ha. unfold many_run at 1. simpl. destruct (Ha s) as [_ Hl]; [done|].
  destruct (p s) as [[x r]|]; [|done]. specialize (Hl _ _ eq_refl). simpl in Hl.
  unfold many_run. by rewrite (many_fuel p (String.length s)) with (k' := S (String.length r)) by (done || lia).
Qed.
Lemma many_agree p q n k s : agree true n p q → String.length s ≤ n →
  many p k s = many q k s ∧ String.length (snd (many p k s)) ≤ String.length s.
Proof.
  intros Ha. revert s. induction k as [|k IH]; intros s Hs; [done|]. simpl.
  destruct (Ha s Hs) as [<- Hl]. destruct (p s) as [[x r]|]; [|done].
  specialize (Hl _ _ eq_refl). simpl in Hl. destruct (IH r) as [<- ?]; [lia|].
  destruct (many p k r). simpl in *. split; [done|lia].
Qed.
Lemma at_least_Some n (res : list A * string) x r :
  at_least_run n res = Some (x, r) ↔ res = (x, r) ∧ n ≤ length x.
Proof. unfold at_least_run. destruct res. case_bool_decide; naive_solver. Qed.
Lemma repeated_run_agree k n p q :
  agree true n p q → agree false n (repeated_run k p) (repeated_run k q).
Proof.
  intros Ha s Hs. unfold repeated_run, many_run.
  destruct (many_agree p q n (S (String.length s)) s Ha Hs) as [<- Hl]. split; [done|].
  intros x r [He _]%at_least_Some. rewrite He in Hl. simpl in *. lia.
Qed.
(** At least one item consumes something. *)
Lemma repeated_run_agree_1 k n p q :
  agree true n p q → agree true n (repeated_run (S k) p) (repeated_run (S k) q).
Proof.
  intros Ha s Hs. destruct (repeated_run_agree (S k) n p q Ha s Hs) as [He _]. split; [done|].
  intros x r [Hm Hx]%at_least_Some. unfold many_run in Hm. simpl in Hm.
  destruct (Ha s Hs) as [_ Hl]. destruct (p s) as [[y r']|]; [|by simplify_eq/=; simpl in Hx; lia].
  specialize (Hl _ _ eq_refl). apply agree_refl_l in Ha. simpl in Hl.
  destruct (many_agree p p n (String.length s) r' Ha) as [_ Hm']; [lia|].
  destruct (many p (String.length s) r'). simplify_eq/=. lia.
Qed.
Lemma separated_run_agree {B} k t n p q (sep sep' : Run B) :
  agree true n p q → agree true n sep sep' →
  agree (negb (k =? 0)) n (separated_run k t p sep) (separated_run k t q sep').
Proof.
  intros Ha Hb s Hs. unfold separated_run, separated_items.
  destruct (Ha s Hs) as [<- Hl]. destruct (p s) as [[x r]|].
  - specialize (Hl _ _ eq_refl). simpl in Hl.
    assert (agree true n (ignore_then_run sep p) (ignore_then_run sep' q)) as Hi.
    { apply (ignore_then_run_agree true true); [done|]. intros. eapply agree_le, Ha. lia. }
    unfold many_run. destruct (many_agree _ _ n (S (String.length r)) r Hi) as [<- Hm]; [lia|].
    destruct (many _ _ r) as [xs r']. simpl in Hm. destruct (Hb r') as [<- Hl']; [lia|].
    split; [done|]. intros y r'' [He _]%at_least_Some. simplify_eq/=.
    destruct t; [|destruct k; simpl; lia]. destruct (sep r') as [[? r0]|]; [|destruct k; simpl; lia].
    specialize (Hl' _ _ eq_refl). simpl in Hl'. destruct k; simpl; lia.
  - split; [done|]. intros y r'' [He Hk]%at_least_Some. simplify_eq/=. simpl in Hk.
    destruct k; simpl; lia.
Qed.
End loops.

(** ** The combinators of two implementations agree *)
Lemma just_run_agree n t : t ≠ "" → agree true n (just_run t) (just_run t).
Proof.
  intros Ht s _. split; [done|]. unfold just_run. intros x r Hr.
  destruct (strip_prefix t s) eqn:Hs; simplify_eq/=. apply strip_prefix_length in Hs.
  destruct x; simpl in *; [done|lia].
Qed.
Lemma none_of_run_agree n c : agree true n (none_of_run c) (none_of_run c).
Proof. intros [|d s] _; (split; [done|]); intros x r Hr; simpl in *; [done|]. case_match; simplify_eq. lia. Qed.
Lemma ident_run_agree n : agree true n ident_run ident_run.
Proof.
  intros [|c s] _; (split; [done|]); intros x r Hr; [done|]. unfold ident_run in Hr.
  destruct (is_ident_start c) eqn:Hc; [|done]. rewrite span_true in Hr.
  - simplify_eq. pose proof (span_length is_ident_char s). simpl. lia.
  - unfold is_ident_char. by rewrite Hc.
Qed.
Lemma keyword_run_agree n k : agree true n (keyword_run k) (keyword_run k).
Proof.
  intros s Hs. split; [done|]. unfold keyword_run. intros x r Hr.
  destruct (ident_run s) as [[w r']|] eqn:Hi; simplify_eq/=. case_match; simplify_eq.
  by apply (ident_run_agree n s Hs) in Hi.
Qed.
Lemma int_run_agree n : agree true n int_run int_run.
Proof.
  intros [|c s] _; (split; [done|]); intros x r Hr; [done|]. unfold int_run in Hr.
  case_match; simplify_eq/=; [lia|]. destruct (is_digit c) eqn:Hc; [|done].
  destruct (span is_digit s) eqn:He. pose proof (span_length is_digit s) as Hl. rewrite He in Hl.
  simplify_eq/=. lia.
Qed.
Lemma hex_run_agree n : agree true n hex_run hex_run.
Proof.
  intros [|c s] _; (split; [done|]); intros x r Hr; [done|]. unfold hex_run in Hr. simpl in *.
  destruct (is_hex_digit c); [|done]. destruct (span is_hex_digit s) eqn:He.
  pose proof (span_length is_hex_digit s) as Hl. rewrite He in Hl. simplify_eq/=. lia.
Qed.

Section two.
Context (C1 C2 : Chumsky) {L1 : @ChumskyLaws C1} {L2 : @ChumskyLaws C2}.
Notation "p ≈[ b , n ] q" := (agree b n (@run C1 _ p) (@run C2 _ q)) (at level 70).
Local Ltac by_law rule := eapply agree_ext; [intros s; symmetry; apply rule; assumption..|].

Lemma agree_just n t : t ≠ "" → @just C1 t ≈[true, n] @just C2 t.
Proof. intros. by_law @run_just. by apply just_run_agree. Qed.
Lemma agree_none_of n c : @none_of C1 c ≈[true, n] @none_of C2 c.
Proof. by_law @run_none_of. apply none_of_run_agree. Qed.
Lemma agree_empty n : @empty_p C1 ≈[false, n] @empty_p C2.
Proof. by_law @run_empty. intros s _. split; [done|]. intros; simplify_eq. simpl. lia. Qed.
Lemma agree_ident n : @ascii_ident C1 ≈[true, n] @ascii_ident C2.
Proof. by_law @run_ident. apply ident_run_agree. Qed.
Lemma agree_keyword n k : @ascii_keyword C1 k ≈[true, n] @ascii_keyword C2 k.
Proof. by_law @run_keyword. apply keyword_run_agree. Qed.
Lemma agree_int n : @text_int C1 ≈[true, n] @text_int C2.
Proof. by_law @run_int. apply int_run_agree. Qed.
Lemma agree_digits16 n : @text_digits16 C1 ≈[true, n] @text_digits16 C2.
Proof. by_law @run_digits16. apply hex_run_agree. Qed.

Section parts.
Context {A B C : Type} (b b' b'' : bool) (n : nat).
Context (p : @CParser C1 A) (q : @CParser C2 A) (Hpq : p ≈[b, n] q).

Lemma agree_padded : padded p ≈[b, n] padded q.
Proof using Hpq L1 L2. by_law @run_padded. by apply padded_run_agree. Qed.
Lemma agree_map (f : A → B) : map_p f p ≈[b, n] map_p f q.
Proof using Hpq L1 L2. by_law @run_map. by apply map_run_agree. Qed.
Lemma agree_to (x : B) : to_p x p ≈[b, n] to_p x q.
Proof using Hpq L1 L2. by_law @run_to. by apply map_run_agree. Qed.
Lemma agree_ignored : ignored p ≈[b, n] ignored q.
Proof using Hpq L1 L2. by_law @run_ignored. by apply map_run_agree. Qed.
Lemma agree_try_map (f : A → option B) : try_map f p ≈[b, n] try_map f q.
Proof using Hpq L1 L2. by_law @run_try_map. by apply try_map_run_agree. Qed.
Lemma agree_or_not : or_not p ≈[false, n] or_not q.
Proof using Hpq L1 L2. by_law @run_or_not. by eapply or_not_run_agree. Qed.
Lemma agree_or p' q' : p' ≈[b, n] q' → or_p p p' ≈[b, n] or_p q q'.
Proof using Hpq L1 L2. intros. by_law @run_or. apply choice_run_agree. by repeat (apply Forall2_cons_2 || apply Forall2_nil_2). Qed.

(** What follows is only run on what is left. *)
Context (p' : @CParser C1 B) (q' : @CParser C2 B).
Context (Hpq' : ∀ m, m + Nat.b2n b ≤ n → p' ≈[b', m] q').
Lemma agree_then : then_ p p' ≈[b || b', n] then_ q q'.
Proof using Hpq Hpq' L1 L2. by_law @run_then. by apply then_run_agree. Qed.
Lemma agree_ignore_then : ignore_then p p' ≈[b || b', n] ignore_then q q'.
Proof using Hpq Hpq' L1 L2. by_law @run_ignore_then. by apply ignore_then_run_agree. Qed.
Lemma agree_then_ignore : then_ignore p p' ≈[b || b', n] then_ignore q q'.
Proof using Hpq Hpq' L1 L2. by_law @run_then_ignore. by apply then_ignore_run_agree. Qed.
End parts.

Lemma agree_delimited_by {A B C} n (l : @CParser C1 B) (l' : @CParser C2 B) (p : @CParser C1 A) q
    (r : @CParser C1 C) (r' : @CParser C2 C) :
  l ≈[true, n] l' → (∀ m, m < n → p ≈[false, m] q) → (∀ m, m < n → r ≈[false, m] r') →
  delimited_by p l r ≈[true, n] delimited_by q l' r'.
Proof.
  intros Hl Hp Hr. by_law @run_delimited_by.
  apply (ignore_then_run_agree true false); [done|]. intros m Hm. simpl in Hm.
  apply (then_ignore_run_agree false false); [apply Hp; lia|]. intros m' Hm'. apply Hr. simpl in *. lia.
Qed.
Lemma agree_choice {A} b n (ps : list (@CParser C1 A)) (qs : list (@CParser C2 A)) :
  Forall2 (λ p q, p ≈[b, n] q) ps qs → choice ps ≈[b, n] choice qs.
Proof.
  intros Hps. by_law @run_choice. apply choice_run_agree. by apply Forall2_fmap.
Qed.
Lemma agree_repeated {A} k n (p : @CParser C1 A) (q : @CParser C2 A) :
  p ≈[true, n] q → repeated k p ≈[negb (k =? 0), n] repeated k q.
Proof.
  intros Ha. pose proof (agree_refl_l _ _ _ _ Ha) as Hp.
  pose proof (agree_refl_l _ _ _ _ (agree_sym _ _ _ _ Ha)) as Hq.
  eapply agree_ext_le; [intros s Hs; symmetry; apply run_repeated; by eapply agree_le..|].
  destruct k; [by apply repeated_run_agree|by apply repeated_run_agree_1].
Qed.
Lemma agree_separated_by {A B} k t n (p : @CParser C1 A) (q : @CParser C2 A)
    (sep : @CParser C1 B) (sep' : @CParser C2 B) :
  p ≈[true, n] q → sep ≈[true, n] sep' →
  separated_by k t p sep ≈[negb (k =? 0), n] separated_by k t q sep'.
Proof.
  intros Ha Hb. pose proof (agree_refl_l _ _ _ _ Ha) as Hp.
  pose proof (agree_refl_l _ _ _ _ (agree_sym _ _ _ _ Ha)) as Hq.
  pose proof (agree_refl_l _ _ _ _ Hb) as Hp'.
  pose proof (agree_refl_l _ _ _ _ (agree_sym _ _ _ _ Hb)) as Hq'.
  eapply agree_ext_le; [intros s Hs; symmetry; apply run_separated_by; by eapply agree_le..|].
  by apply separated_run_agree.
Qed.
Lemma agree_recursive {A} (f : @CParser C1 A → @CParser C1 A) (g : @CParser C2 A → @CParser C2 A) n :
  (∀ n p q, (∀ m, m < n → agree true m (run p) (run q)) → agree true n (run (f p)) (run (f q))) →
  (∀ n p q, (∀ m, m < n → agree true m (run p) (run q)) → agree true n (run (g p)) (run (g q))) →
  (∀ n p q, (∀ m, m < n → p ≈[true, m] q) → f p ≈[true, n] g q) →
  recursive f ≈[true, n] recursive g.
Proof.
  intros Hf Hg Hfg. induction (lt_wf n) as [n _ IH].
  eapply agree_ext; [intros s; symmetry; by apply run_recursive..|]. by apply Hfg.
Qed.
End two.

(** Show that two grammars of the same shape agree, following that shape. *)
Create HintDb chumsky.
#[export] Hint Resolve agree_none_of agree_empty agree_ident agree_keyword agree_int agree_digits16
  : chumsky.
Ltac agree_hyp :=
  match goal with
  | H : ∀ m, m < _ → agree _ m (run ?e) _ |- agree _ _ (run ?e) _ =>
      first [apply H | apply agree_weaken, H]; simpl in *; lia
  | H : ∀ m, agree _ m (run ?e) _ |- agree _ _ (run ?e) _ =>
      first [apply H | apply agree_weaken, H]
  end.
Ltac solve_agree :=
  lazymatch goal with
  | |- ChumskyLaws => assumption
  | |- ∀ _, _ => intros; solve_agree
  | |- Forall2 _ [] [] => apply Forall2_nil_2
  | |- Forall2 _ (_ :: _) (_ :: _) => apply Forall2_cons_2; solve_agree
  | |- agree true _ (run (just _)) _ => apply agree_just; [assumption..|done]
  | |- agree _ _ (run (padded _)) _ => apply agree_padded; solve_agree
  | |- agree _ _ (run (map_p _ _)) _ => apply agree_map; solve_agree
  | |- agree _ _ (run (to_p _ _)) _ => apply agree_to; solve_agree
  | |- agree _ _ (run (ignored _)) _ => apply agree_ignored; solve_agree
  | |- agree _ _ (run (try_map _ _)) _ => apply agree_try_map; solve_agree
  | |- agree _ _ (run (choice _)) _ => apply agree_choice; solve_agree
  | |- agree _ _ (run (or_p _ _)) _ => apply agree_or; solve_agree
  | |- agree false _ (run (or_not _)) _ =>
      first [apply (agree_or_not _ _ true); solve_agree|apply (agree_or_not _ _ false); solve_agree]
  | |- agree true _ (run (delimited_by _ _ _)) _ => apply agree_delimited_by; solve_agree
  | |- agree _ _ (run (repeated _ _)) _ =>
      first [apply agree_repeated|apply agree_weaken, agree_repeated]; solve_agree
  | |- agree _ _ (run (separated_by _ _ _ _)) _ =>
      first [apply agree_separated_by|apply agree_weaken, agree_separated_by]; solve_agree
  | |- agree true _ (run (then_ _ _)) _ =>
      first [apply (agree_then _ _ true false); solve_agree
            |apply (agree_then _ _ false true); solve_agree]
  | |- agree false _ (run (then_ _ _)) _ =>
      first [apply agree_weaken; solve_agree|apply (agree_then _ _ false false); solve_agree]
  | |- agree true _ (run (ignore_then _ _)) _ =>
      first [apply (agree_ignore_then _ _ true false); solve_agree
            |apply (agree_ignore_then _ _ false true); solve_agree]
  | |- agree false _ (run (ignore_then _ _)) _ =>
      first [apply agree_weaken; solve_agree|apply (agree_ignore_then _ _ false false); solve_agree]
  | |- agree true _ (run (then_ignore _ _)) _ =>
      first [apply (agree_then_ignore _ _ true false); solve_agree
            |apply (agree_then_ignore _ _ false true); solve_agree]
  | |- agree false _ (run (then_ignore _ _)) _ =>
      first [apply agree_weaken; solve_agree|apply (agree_then_ignore _ _ false false); solve_agree]
  | |- agree ?b _ _ _ =>
      first [agree_hyp | solve [eauto 4 with chumsky]
            |lazymatch b with false => apply agree_weaken; solve_agree end]
  end.
