(* ===== verification/ChumskyInstance.v ===== *)
(** * Concrete parser combinators

    An instance of the class [Chumsky] with its laws: a parser is how it runs,
    and a recursive parser is unfolded as often as the text is long.  The
    theorems hold for every implementation with the laws; the concrete examples
    use this one. *)

From S2P Require Import Prelude Chumsky.

Fixpoint unfold_run {A} (f : Run A → Run A) (n : nat) : Run A :=
  match n with
  | O => λ _, None
  | S n => λ s, f (unfold_run f n) s
  end.
Definition recursive_run {A} (f : Run A → Run A) : Run A :=
  λ s, unfold_run f (S (String.length s)) s.

Global Instance std_chumsky : Chumsky := {|
  CParser := Run;
  run A p := p;
  error_text A p s := "parse error";
  just := just_run;
  none_of := none_of_run;
  empty_p s := Some ((), s);
  ascii_ident := ident_run;
  ascii_keyword := keyword_run;
  text_int := int_run;
  text_digits16 := hex_run;
  padded A p := padded_run p;
  map_p A B f p := map_run f p;
  to_p A B b p := map_run (λ _, b) p;
  ignored A p := map_run (λ _, ()) p;
  try_map A B f p := try_map_run f p;
  then_ A B p q := then_run p q;
  ignore_then A B p q := ignore_then_run p q;
  then_ignore A B p q := then_ignore_run p q;
  delimited_by A B C p l r := ignore_then_run l (then_ignore_run p r);
  or_not A p := or_not_run p;
  or_p A p q := choice_run [p; q];
  choice A ps := choice_run ps;
  repeated A n p := repeated_run n p;
  separated_by A B n trailing p sep := separated_run n trailing p sep;
  recursive A f := recursive_run f;
|}.

Section recursion.
Context {A : Type} (f : Run A → Run A).
Context (Hf : ∀ n p q, (∀ m, m < n → agree true m p q) → agree true n (f p) (f q)).

Lemma unfold_run_agree m : ∀ k k', m < k → m < k' →
  agree true m (unfold_run f k) (unfold_run f k').
Proof using Hf.
  induction (lt_wf m) as [m _ IH]. intros [|k] [|k'] Hk Hk'; try lia. simpl.
  apply Hf. intros m' Hm'. apply IH; lia.
Qed.
Lemma recursive_run_unfold s : recursive_run f s = f (recursive_run f) s.
Proof using Hf.
  unfold recursive_run at 1. simpl.
  apply (Hf (String.length s)); [|done]. intros m Hm s' Hs'. unfold recursive_run.
  destruct (unfold_run_agree (String.length s') (String.length s) (S (String.length s')))
    with (s := s') as [-> _]; [lia..|]. split; [done|]. intros x r Hr.
  destruct (unfold_run_agree (String.length s') (S (String.length s')) (String.length s))
    with (s := s') as [_ Hl']; [lia..|]. by apply Hl' with x.
Qed.
End recursion.

Global Instance std_chumsky_laws : ChumskyLaws.
Proof.
  split; try done.
  - intros A ps s. simpl. by rewrite map_id.
  - intros A f s Hf. by apply recursive_run_unfold.
Qed.
