(* ===== verification/Grammar.v ===== *)
(** * The grammar of the language

    Models [parser] of [parser.rs] in [meow-vm-compiler], combinator by
    combinator, over the class [Chumsky].  Each [let] of the source is a
    definition here; a parser that occurs in a [recursive] is a function of the
    parser it stands for. *)

From S2P Require Import Prelude Text Address VmTypes Ast Chumsky.

(** [Result::ok]. *)
Definition ok {E A} (m : outcome E A) : option A := match m with Ok a => Some a | _ => None end.

Definition quote : ascii := Ascii.ascii_of_nat 34.

Section grammar.
Context `{PrefixHex, Chumsky}.

Definition ident : CParser string := padded ascii_ident.
Definition kw (s : string) : CParser () := ignored (padded (ascii_keyword s)).
Definition punct (s : string) : CParser string := padded (just s).

(** Types: a name or a qualified name. *)
Definition make_type (names : string * option string) : Ty.t :=
  match names with
  | (first, Some second) => Ty.Struct (first +:+ "::" +:+ second)
  | (first, None) => Ty.from_name first
  end.
Definition ty : CParser Ty.t :=
  padded (map_p make_type (then_ ascii_ident (or_not (ignore_then (just "::") ascii_ident)))).

Definition hex_digits : CParser string := padded text_digits16.
Definition make_address (hex : string) : option Address := ok (address_from_str ("0x" +:+ hex)).
Definition address_literal : CParser Address :=
  try_map make_address (ignore_then (padded (just "@0x")) hex_digits).

Definition tuple_ret : CParser Ty.t :=
  map_p (λ '(first, rest), Ty.Tuple (first :: rest))
    (delimited_by (then_ (then_ignore ty (punct ",")) (separated_by 0 true ty (punct ",")))
       (punct "(") (punct ")")).
Definition return_ty : CParser Ty.t := choice [tuple_ret; ty].

(** ** Expressions *)
Definition bool_lit : CParser Expr.t :=
  padded (choice [to_p (Expr.Bool true) (ascii_keyword "true");
                  to_p (Expr.Bool false) (ascii_keyword "false")]).
Definition int_lit : CParser Expr.t := padded (try_map (λ s, Expr.Int <$> parse_u64 s) text_int).
Definition str_lit : CParser Expr.t :=
  map_p Expr.Str (padded (then_ignore
    (ignore_then (just (String quote ""))
       (map_p String.string_of_list_ascii (repeated 0 (none_of quote))))
    (just (String quote "")))).
Definition addr_lit : CParser Expr.t := map_p Expr.Address address_literal.

Inductive IdentSuffix :=
  | Suffix_Call (args : list Expr.t)
  | Suffix_Struct (fields : list (string * Expr.t))
  | Suffix_None.
Definition make_name (names : string * option string) : string :=
  match names with (first, Some s) => first +:+ "::" +:+ s | (first, None) => first end.
Definition make_ident_expr (x : string * IdentSuffix) : Expr.t :=
  match x with
  | (name, Suffix_Call args) => Expr.Call name args
  | (name, Suffix_Struct fields) => Expr.StructLit name fields
  | (name, Suffix_None) => Expr.Ident name
  end.
Definition make_binops (x : Expr.t * list (BinOp.t * Expr.t)) : Expr.t :=
  fold_left (λ l '(op, r), Expr.BinOp l op r) (snd x) (fst x).

Definition mul_op : CParser BinOp.t :=
  choice [to_p BinOp.Mul (punct "*"); to_p BinOp.Div (punct "/"); to_p BinOp.Mod (punct "%")].
Definition add_op : CParser BinOp.t :=
  choice [to_p BinOp.Add (punct "+"); to_p BinOp.Sub (punct "-")].
Definition cmp_op : CParser BinOp.t :=
  choice [to_p BinOp.Eq (punct "=="); to_p BinOp.Ne (punct "!="); to_p BinOp.Le (punct "<=");
          to_p BinOp.Ge (punct ">="); to_p BinOp.Lt (punct "<"); to_p BinOp.Gt (punct ">")].
Definition and_op : CParser BinOp.t := to_p BinOp.And (punct "&&").
Definition or_op : CParser BinOp.t := to_p BinOp.Or (punct "||").

(** An operand, then operators with operands: the operators associate to the
    left. *)
Definition chain (operand : CParser Expr.t) (op : CParser BinOp.t) : CParser Expr.t :=
  map_p make_binops (then_ operand (repeated 0 (then_ op operand))).

Section expr.
Context (expr : CParser Expr.t).

Definition call_args : CParser (list Expr.t) :=
  delimited_by (separated_by 0 true expr (punct ",")) (punct "(") (punct ")").
Definition struct_fields : CParser (list (string * Expr.t)) :=
  delimited_by (separated_by 0 true (then_ (then_ignore (padded ascii_ident) (punct ":")) expr) (punct ","))
    (punct "{") (punct "}").
Definition ident_expr : CParser Expr.t :=
  map_p make_ident_expr
    (then_
       (map_p make_name
          (then_ (padded ascii_ident) (or_not (ignore_then (just "::") (padded ascii_ident)))))
       (choice [map_p Suffix_Call call_args; map_p Suffix_Struct struct_fields;
                map_p (λ _, Suffix_None) empty_p])).
Definition tuple_expr : CParser Expr.t :=
  map_p (λ '(first, rest), Expr.Tuple (first :: rest))
    (delimited_by (then_ (then_ignore expr (punct ",")) (separated_by 0 true expr (punct ",")))
       (punct "(") (punct ")")).
Definition grouped : CParser Expr.t := delimited_by expr (punct "(") (punct ")").
Definition primary : CParser Expr.t :=
  choice [bool_lit; str_lit; addr_lit; int_lit; ident_expr; tuple_expr; grouped].

Definition postfix_op : CParser string := ignore_then (punct ".") (padded ascii_ident).
Definition postfix : CParser Expr.t :=
  map_p (λ '(e, fields), fold_left Expr.FieldAccess fields e)
    (then_ primary (repeated 0 postfix_op)).
Definition unary : CParser Expr.t :=
  map_p (λ '(nots, base), fold_left (λ acc _, Expr.UnaryOp UnaryOp.Not acc) (rev nots) base)
    (then_ (repeated 0 (punct "!")) postfix).
Definition mul : CParser Expr.t := chain unary mul_op.
Definition add : CParser Expr.t := chain mul add_op.
Definition cmp : CParser Expr.t :=
  map_p (λ '(l, rhs), match rhs with Some (op, r) => Expr.BinOp l op r | None => l end)
    (then_ add (or_not (then_ cmp_op add))).
Definition and_ : CParser Expr.t := chain cmp and_op.
Definition or_ : CParser Expr.t := chain and_ or_op.
End expr.

Definition expr : CParser Expr.t := recursive or_.

(** ** Statements *)
Section stmt.
Context (stmt : CParser Stmt.t).

Definition let_stmt : CParser Stmt.t :=
  map_p (λ '(name, e), Stmt.Let name e)
    (then_ignore (then_ (then_ignore (ignore_then (kw "let") ident) (punct "=")) expr) (punct ";")).
Definition let_tuple_stmt : CParser Stmt.t :=
  map_p (λ '(names, e), Stmt.LetTuple names e)
    (then_ignore
       (then_ (then_ignore
                 (ignore_then (kw "let")
                    (delimited_by (separated_by 2 false ident (punct ",")) (punct "(") (punct ")")))
                 (punct "=")) expr)
       (punct ";")).
Definition return_stmt : CParser Stmt.t :=
  map_p Stmt.Return (then_ignore (ignore_then (kw "return") (or_not expr)) (punct ";")).
Definition block : CParser (list Stmt.t) :=
  delimited_by (repeated 0 stmt) (punct "{") (punct "}").
Definition if_stmt : CParser Stmt.t :=
  map_p (λ '(cond, body, else_body), Stmt.If cond body else_body)
    (then_ (then_ (ignore_then (kw "if") expr) block) (or_not (ignore_then (kw "else") block))).
Definition reassign : CParser Stmt.t :=
  map_p (λ '(name, e), Stmt.Reassign name e)
    (then_ignore (then_ (then_ignore ident (punct "=")) expr) (punct ";")).
Definition field_assign : CParser Stmt.t :=
  map_p (λ '(obj_name, field_path, e), Stmt.FieldAssign obj_name field_path e)
    (then_ignore
       (then_ (then_ignore (then_ ident (repeated 1 (ignore_then (punct ".") ident))) (punct "=")) expr)
       (punct ";")).
Definition struct_binding : CParser (string * string) :=
  map_p (λ '(field, rename), (field, default field rename))
    (then_ ident (or_not (ignore_then (punct ":") ident))).
Definition struct_bindings : CParser (list (string * string) * bool) :=
  or_p (to_p ([], true) (punct ".."))
    (map_p (λ '(bindings, rest), (bindings, is_some rest))
       (then_ (separated_by 1 false struct_binding (punct ","))
          (or_not (ignore_then (punct ",") (punct ".."))))).
Definition let_struct_stmt : CParser Stmt.t :=
  map_p (λ '(type_name, (bindings, rest_discarded), e),
           Stmt.LetStruct type_name bindings e rest_discarded)
    (then_ignore
       (then_ (then_ignore
                 (then_ (ignore_then (kw "let") ident)
                    (delimited_by struct_bindings (punct "{") (punct "}")))
                 (punct "=")) expr)
       (punct ";")).
Definition expr_stmt : CParser Stmt.t := map_p Stmt.Expr (then_ignore expr (punct ";")).

Definition stmt_choice : CParser Stmt.t :=
  choice [let_struct_stmt; let_tuple_stmt; let_stmt; return_stmt; if_stmt; field_assign; reassign;
          expr_stmt].
End stmt.

Definition stmt : CParser Stmt.t := recursive stmt_choice.

(** ** Items *)
Definition is_pub : CParser bool :=
  map_p (default false) (or_not (to_p true (padded (ascii_keyword "pub")))).
Definition struct_field : CParser (string * Ty.t) := then_ (then_ignore ident (punct ":")) ty.
Definition struct_body : CParser (list (string * Ty.t)) :=
  delimited_by (separated_by 0 true struct_field (punct ",")) (punct "{") (punct "}").
Definition struct_item : CParser AstItem :=
  map_p (λ '(is_public, name, fields), ItemStruct (mkAstStruct is_public name fields))
    (then_ (then_ (then_ignore is_pub (kw "struct")) ident) struct_body).

Definition param : CParser (string * Ty.t) := then_ (then_ignore ident (punct ":")) ty.
Definition make_body (x : list Stmt.t * option Expr.t) : list Stmt.t :=
  match x with (stmts, Some e) => stmts ++ [Stmt.Return (Some e)] | (stmts, None) => stmts end.
Definition fn_body : CParser (list Stmt.t) :=
  map_p make_body
    (delimited_by (then_ (repeated 0 stmt) (or_not expr)) (punct "{") (punct "}")).
Definition fn_item : CParser AstItem :=
  map_p (λ '(is_public, name, params, return_type, body),
           ItemFn (mkAstFunction is_public name params return_type body))
    (then_
       (then_
          (then_ (then_ (then_ignore is_pub (kw "fn")) ident)
             (delimited_by (separated_by 0 true param (punct ",")) (punct "(") (punct ")")))
          (or_not (ignore_then (punct "->") return_ty)))
       fn_body).

Definition module_decl : CParser AstItem :=
  map_p ItemModuleDecl (then_ignore (ignore_then (kw "mod") ident) (punct ";")).
Definition use_item : CParser AstItem :=
  map_p (λ '(name, address, alias), ItemUse name address alias)
    (then_ignore
       (then_
          (then_ (then_ignore (ignore_then (kw "use") ident) (punct "@"))
             (try_map make_address (ignore_then (punct "0x") hex_digits)))
          (or_not (ignore_then (kw "as") ident)))
       (punct ";")).
Definition item : CParser AstItem := choice [module_decl; use_item; struct_item; fn_item].
Definition parser : CParser (list AstItem) := padded (repeated 0 item).

(** [Parser::parse] wants the whole text. *)
Definition parse_items (source : string) : outcome string (list AstItem) :=
  match run parser source with
  | Some (items, EmptyString) => Ok items
  | _ => Err (error_text parser source)
  end.
End grammar.
