(* ===== verification/GrammarProps.v ===== *)
(** * The grammar consumes what it reads

    Every part of the grammar runs in the same way with two implementations of
    [Chumsky]; with one of them twice, this is what recursion and loops need to
    unfold.  Then the syntax trees that the grammar can produce. *)

From S2P Require Import Prelude Address VmTypes Ast Chumsky Grammar.
From S2P Require Import Text ChumskyInstance.

Section agree.
Context `{PrefixHex} (C1 C2 : Chumsky) {L1 : @ChumskyLaws C1} {L2 : @ChumskyLaws C2}.
Notation "p ≈[ n ] q" := (agree true n (@run C1 _ p) (@run C2 _ q)) (at level 70).

Lemma agree_ident_p n : ident ≈[n] ident.
Proof. unfold ident. solve_agree. Qed.
Lemma agree_kw n k : kw k ≈[n] kw k.
Proof. unfold kw. solve_agree. Qed.
Lemma agree_punct n t : t ≠ "" → punct t ≈[n] punct t.
Proof. intros. unfold punct. solve_agree. Qed.
Lemma agree_ty n : ty ≈[n] ty.
Proof. unfold ty. solve_agree. Qed.
Lemma agree_hex_digits n : hex_digits ≈[n] hex_digits.
Proof. unfold hex_digits. solve_agree. Qed.
End agree.
#[export] Hint Extern 1 (agree _ _ (run (punct _)) _) => (apply agree_punct; [assumption..|discriminate]) : chumsky.
#[export] Hint Resolve agree_ident_p agree_kw agree_ty agree_hex_digits : chumsky.

Section agree_expr.
Context `{PrefixHex} (C1 C2 : Chumsky) {L1 : @ChumskyLaws C1} {L2 : @ChumskyLaws C2}.
Notation "p ≈[ n ] q" := (agree true n (@run C1 _ p) (@run C2 _ q)) (at level 70).

Lemma agree_address_literal n : address_literal ≈[n] address_literal.
Proof. unfold address_literal. solve_agree. Qed.
Lemma agree_return_ty n : return_ty ≈[n] return_ty.
Proof. unfold return_ty, tuple_ret. solve_agree. Qed.
Lemma agree_bool_lit n : bool_lit ≈[n] bool_lit.
Proof. unfold bool_lit. solve_agree. Qed.
Lemma agree_int_lit n : int_lit ≈[n] int_lit.
Proof. unfold int_lit. solve_agree. Qed.
Lemma agree_str_lit n : str_lit ≈[n] str_lit.
Proof. unfold str_lit. solve_agree. Qed.
Lemma agree_addr_lit n : addr_lit ≈[n] addr_lit.
Proof. unfold addr_lit. pose proof agree_address_literal. solve_agree. Qed.
Lemma agree_postfix_op n : postfix_op ≈[n] postfix_op.
Proof. unfold postfix_op. solve_agree. Qed.
Lemma agree_mul_op n : mul_op ≈[n] mul_op.
Proof. unfold mul_op. solve_agree. Qed.
Lemma agree_add_op n : add_op ≈[n] add_op.
Proof. unfold add_op. solve_agree. Qed.
Lemma agree_cmp_op n : cmp_op ≈[n] cmp_op.
Proof. unfold cmp_op. solve_agree. Qed.
Lemma agree_and_op n : and_op ≈[n] and_op.
Proof. unfold and_op. solve_agree. Qed.
Lemma agree_or_op n : or_op ≈[n] or_op.
Proof. unfold or_op. solve_agree. Qed.

Lemma agree_chain n p p' q q' :
  (∀ m, m ≤ n → p ≈[m] p') → (∀ m, q ≈[m] q') → chain p q ≈[n] chain p' q'.
Proof.
  intros Hp Hq. assert (∀ m, m < S n → p ≈[m] p') by (intros; apply Hp; lia).
  unfold chain. solve_agree.
Qed.

(** One unfolding of the recursion over expressions. *)
Section guarded.
Context (e : @CParser C1 Expr.t) (e' : @CParser C2 Expr.t).

Lemma agree_call_args n : (∀ m, m < n → e ≈[m] e') → call_args e ≈[n] call_args e'.
Proof. intros. unfold call_args. solve_agree. Qed.
Lemma agree_struct_fields n : (∀ m, m < n → e ≈[m] e') → struct_fields e ≈[n] struct_fields e'.
Proof. intros. unfold struct_fields. solve_agree. Qed.
Lemma agree_ident_expr n : (∀ m, m < n → e ≈[m] e') → ident_expr e ≈[n] ident_expr e'.
Proof.
  intros He. assert (∀ m, m < n → call_args e ≈[m] call_args e') by
    (intros; apply agree_call_args; intros; apply He; lia).
  assert (∀ m, m < n → struct_fields e ≈[m] struct_fields e') by
    (intros; apply agree_struct_fields; intros; apply He; lia).
  unfold ident_expr. solve_agree.
Qed.
Lemma agree_tuple_expr n : (∀ m, m < n → e ≈[m] e') → tuple_expr e ≈[n] tuple_expr e'.
Proof. intros. unfold tuple_expr. solve_agree. Qed.
Lemma agree_grouped n : (∀ m, m < n → e ≈[m] e') → grouped e ≈[n] grouped e'.
Proof. intros. unfold grouped. solve_agree. Qed.
Lemma agree_primary n : (∀ m, m < n → e ≈[m] e') → primary e ≈[n] primary e'.
Proof.
  intros He. apply agree_choice; [done..|].
  repeat apply Forall2_cons_2; try apply Forall2_nil_2; eauto using agree_bool_lit, agree_str_lit,
    agree_addr_lit, agree_int_lit, agree_ident_expr, agree_tuple_expr, agree_grouped.
Qed.
Lemma agree_unary n : (∀ m, m < n → e ≈[m] e') → unary e ≈[n] unary e'.
Proof.
  intros He. assert (∀ m, m < S n → primary e ≈[m] primary e') by
    (intros; apply agree_primary; intros; apply He; lia).
  pose proof agree_postfix_op. assert (∀ m, m < S n → postfix e ≈[m] postfix e') by
    (unfold postfix; solve_agree).
  unfold unary. solve_agree.
Qed.
Lemma agree_mul n : (∀ m, m < n → e ≈[m] e') → mul e ≈[n] mul e'.
Proof.
  intros He. apply agree_chain; [|apply agree_mul_op]. intros k Hk. apply agree_unary.
  intros. apply He. lia.
Qed.
Lemma agree_add n : (∀ m, m < n → e ≈[m] e') → add e ≈[n] add e'.
Proof.
  intros He. apply agree_chain; [|apply agree_add_op]. intros k Hk. apply agree_mul.
  intros. apply He. lia.
Qed.
Lemma agree_cmp n : (∀ m, m < n → e ≈[m] e') → cmp e ≈[n] cmp e'.
Proof.
  intros He. assert (∀ m, m < S n → add e ≈[m] add e') by
    (intros; apply agree_add; intros; apply He; lia).
  pose proof agree_cmp_op. unfold cmp. solve_agree.
Qed.
Lemma agree_and_ n : (∀ m, m < n → e ≈[m] e') → and_ e ≈[n] and_ e'.
Proof.
  intros He. apply agree_chain; [|apply agree_and_op]. intros k Hk. apply agree_cmp.
  intros. apply He. lia.
Qed.
Lemma agree_or_ n : (∀ m, m < n → e ≈[m] e') → or_ e ≈[n] or_ e'.
Proof.
  intros He. apply agree_chain; [|apply agree_or_op]. intros k Hk. apply agree_and_.
  intros. apply He. lia.
Qed.
End guarded.
End agree_expr.

Lemma agree_expr `{PrefixHex} C1 C2 {L1 : @ChumskyLaws C1} {L2 : @ChumskyLaws C2} n :
  agree true n (@run C1 _ expr) (@run C2 _ expr).
Proof. apply agree_recursive; [done..| | |]; intros; by apply agree_or_. Qed.
#[export] Hint Resolve agree_expr : chumsky.

(** One unfolding of the recursion over statements. *)
Section agree_stmt.
Context `{PrefixHex} (C1 C2 : Chumsky) {L1 : @ChumskyLaws C1} {L2 : @ChumskyLaws C2}.
Notation "p ≈[ n ] q" := (agree true n (@run C1 _ p) (@run C2 _ q)) (at level 70).

Lemma agree_let_stmt n : let_stmt ≈[n] let_stmt.
Proof. unfold let_stmt. solve_agree. Qed.
Lemma agree_let_tuple_stmt n : let_tuple_stmt ≈[n] let_tuple_stmt.
Proof. unfold let_tuple_stmt. solve_agree. Qed.
Lemma agree_return_stmt n : return_stmt ≈[n] return_stmt.
Proof. unfold return_stmt. solve_agree. Qed.
Lemma agree_reassign n : reassign ≈[n] reassign.
Proof. unfold reassign. solve_agree. Qed.
Lemma agree_field_assign n : field_assign ≈[n] field_assign.
Proof. unfold field_assign. solve_agree. Qed.
Lemma agree_struct_binding n : struct_binding ≈[n] struct_binding.
Proof. unfold struct_binding. solve_agree. Qed.
Lemma agree_struct_bindings n : struct_bindings ≈[n] struct_bindings.
Proof. pose proof agree_struct_binding. unfold struct_bindings. solve_agree. Qed.
Lemma agree_let_struct_stmt n : let_struct_stmt ≈[n] let_struct_stmt.
Proof. pose proof agree_struct_bindings. unfold let_struct_stmt. solve_agree. Qed.
Lemma agree_expr_stmt n : expr_stmt ≈[n] expr_stmt.
Proof. unfold expr_stmt. solve_agree. Qed.

Context (t : @CParser C1 Stmt.t) (t' : @CParser C2 Stmt.t).
Lemma agree_block n : (∀ m, m < n → t ≈[m] t') → block t ≈[n] block t'.
Proof. intros. unfold block. solve_agree. Qed.
Lemma agree_if_stmt n : (∀ m, m < n → t ≈[m] t') → if_stmt t ≈[n] if_stmt t'.
Proof.
  intros Ht. assert (∀ m, m < n → block t ≈[m] block t') by
    (intros; apply agree_block; intros; apply Ht; lia).
  unfold if_stmt. solve_agree.
Qed.
Lemma agree_stmt_choice n : (∀ m, m < n → t ≈[m] t') → stmt_choice t ≈[n] stmt_choice t'.
Proof.
  intros Ht. apply agree_choice; [done..|].
  repeat apply Forall2_cons_2; try apply Forall2_nil_2; eauto using agree_let_struct_stmt,
    agree_let_tuple_stmt, agree_let_stmt, agree_return_stmt, agree_if_stmt, agree_field_assign,
    agree_reassign, agree_expr_stmt.
Qed.
End agree_stmt.

Lemma agree_stmt `{PrefixHex} C1 C2 {L1 : @ChumskyLaws C1} {L2 : @ChumskyLaws C2} n :
  agree true n (@run C1 _ stmt) (@run C2 _ stmt).
Proof. apply agree_recursive; [done..| | |]; intros; by apply agree_stmt_choice. Qed.
#[export] Hint Resolve agree_stmt : chumsky.

(** ** Items *)
Section agree_items.
Context `{PrefixHex} (C1 C2 : Chumsky) {L1 : @ChumskyLaws C1} {L2 : @ChumskyLaws C2}.
Notation "p ≈[ n ] q" := (agree true n (@run C1 _ p) (@run C2 _ q)) (at level 70).

Lemma agree_is_pub n : agree false n (@run C1 _ is_pub) (@run C2 _ is_pub).
Proof. unfold is_pub. solve_agree. Qed.
Lemma agree_param n : param ≈[n] param.
Proof. unfold param. solve_agree. Qed.
Lemma agree_struct_field n : struct_field ≈[n] struct_field.
Proof. unfold struct_field. solve_agree. Qed.
Lemma agree_fn_body n : fn_body ≈[n] fn_body.
Proof. unfold fn_body. solve_agree. Qed.
Lemma agree_struct_body n : struct_body ≈[n] struct_body.
Proof. pose proof agree_struct_field. unfold struct_body. solve_agree. Qed.
Lemma agree_struct_item n : struct_item ≈[n] struct_item.
Proof. pose proof agree_is_pub. pose proof agree_struct_body. unfold struct_item. solve_agree. Qed.
Lemma agree_fn_item n : fn_item ≈[n] fn_item.
Proof.
  pose proof agree_is_pub. pose proof agree_param. pose proof agree_fn_body.
  pose proof (agree_return_ty C1 C2). unfold fn_item. solve_agree.
Qed.
Lemma agree_item n : item ≈[n] item.
Proof.
  pose proof agree_struct_item. pose proof agree_fn_item.
  unfold item, module_decl, use_item. solve_agree.
Qed.

(** The laws fix what the grammar does with a text. *)
Lemma parser_unique source : @run C1 _ parser source = @run C2 _ parser source.
Proof.
  pose proof agree_item. assert (agree false (String.length source) (@run C1 _ parser) (@run C2 _ parser)) as Ha.
  { unfold parser. solve_agree. }
  by apply Ha.
Qed.
End agree_items.

(** ** Recursion unfolds *)
Section unfold.
Context `{PrefixHex, ChumskyLaws}.

Lemma run_expr s : run expr s = run (or_ expr) s.
Proof. apply run_recursive. intros. by apply agree_or_. Qed.
Lemma run_stmt s : run stmt s = run (stmt_choice stmt) s.
Proof. apply run_recursive. intros. by apply agree_stmt_choice. Qed.
End unfold.

(** * What the grammar can produce

    The syntax trees that have a text: names are identifiers, numbers fit
    [u64], strings have no quote, and so on.  Every tree that the parser returns
    is one of them. *)

(** ** Well-formed trees *)
Definition is_ident (s : string) : bool :=
  match s with
  | String c s => is_ident_start c && all_chars is_ident_char s
  | EmptyString => false
  end.

(** An identifier, or two of them with colons between. *)
Definition is_qualified_by (first : string → bool) (s : string) : bool :=
  match split_once s with
  | Some (a, b) => is_ident a && first a && is_ident b
  | None => is_ident s && first s
  end.
Definition is_literal_word (s : string) : bool := String.eqb s "true" || String.eqb s "false".
Definition wf_name (s : string) : bool := is_qualified_by (λ a, negb (is_literal_word a)) s.

Definition is_primitive (s : string) : bool :=
  String.eqb s "bool" || String.eqb s "u64" || String.eqb s "address" || String.eqb s "string".
Definition wf_ty (t : Ty.t) : bool :=
  match t with
  | Ty.Struct n => is_qualified_by (λ _, true) n && negb (is_primitive n)
  | Ty.Tuple _ => false
  | _ => true
  end.
Definition wf_return_ty (t : Ty.t) : bool :=
  match t with Ty.Tuple ts => negb (bool_decide (ts = [])) && forallb wf_ty ts | t => wf_ty t end.

Fixpoint wf_expr (e : Expr.t) : bool :=
  match e with
  | Expr.Bool _ => true
  | Expr.Int n => bool_decide (in_u64 n)
  | Expr.Address a => bool_decide (wf_address a)
  | Expr.Str s => all_chars (λ c, negb (Ascii.eqb c quote)) s
  | Expr.Ident name => wf_name name
  | Expr.BinOp l _ r => wf_expr l && wf_expr r
  | Expr.FieldAccess e f => wf_expr e && is_ident f
  | Expr.StructLit name fields =>
      wf_name name && forallb (λ f, is_ident (fst f) && wf_expr (snd f)) fields
  | Expr.Call name args => wf_name name && forallb wf_expr args
  | Expr.Tuple items => match items with [] => false | _ => forallb wf_expr items end
  | Expr.UnaryOp _ e => wf_expr e
  end.

Fixpoint wf_stmt (s : Stmt.t) : bool :=
  match s with
  | Stmt.Let x e | Stmt.Reassign x e => is_ident x && wf_expr e
  | Stmt.Return e => match e with Some e => wf_expr e | None => true end
  | Stmt.Expr e => wf_expr e
  | Stmt.If c body else_body =>
      wf_expr c && forallb wf_stmt body &&
      match else_body with Some l => forallb wf_stmt l | None => true end
  | Stmt.FieldAssign x path e =>
      is_ident x && negb (bool_decide (path = [])) && forallb is_ident path && wf_expr e
  | Stmt.LetTuple xs e => bool_decide (2 ≤ length xs) && forallb is_ident xs && wf_expr e
  | Stmt.LetStruct n bs e rest =>
      is_ident n && (rest || negb (bool_decide (bs = []))) &&
      forallb (λ b, is_ident (fst b) && is_ident (snd b)) bs && wf_expr e
  end.

Definition wf_fields (l : list (string * Ty.t)) : bool :=
  forallb (λ f, is_ident (fst f) && wf_ty (snd f)) l.
Definition wf_item (i : AstItem) : bool :=
  match i with
  | ItemModuleDecl name => is_ident name
  | ItemUse name addr alias =>
      is_ident name && bool_decide (wf_address addr) &&
      match alias with Some a => is_ident a | None => true end
  | ItemStruct s => is_ident (as_name s) && wf_fields (as_fields s)
  | ItemFn f =>
      is_ident (af_name f) && wf_fields (af_params f) &&
      match af_return_type f with Some t => wf_return_ty t | None => true end &&
      forallb wf_stmt (af_body f)
  end.

(** ** Successful runs *)
Lemma map_run_Some {A B} (f : A → B) p s y r :
  map_run f p s = Some (y, r) → ∃ x, p s = Some (x, r) ∧ y = f x.
Proof. unfold map_run. destruct (p s) as [[x r']|]; naive_solver. Qed.
Lemma padded_run_Some {A} (p : Run A) s x r :
  padded_run p s = Some (x, r) → ∃ r', p (skip_ws s) = Some (x, r') ∧ r = skip_ws r'.
Proof. unfold padded_run. destruct (p _) as [[y r']|]; naive_solver. Qed.
Lemma then_run_Some {A B} (p : Run A) (q : Run B) s z r :
  then_run p q s = Some (z, r) →
  ∃ r', p s = Some (fst z, r') ∧ q r' = Some (snd z, r).
Proof.
  unfold then_run. destruct (p s) as [[x r']|]; [|done]. simpl.
  destruct (q r') as [[y r'']|] eqn:?; [|done]. intros; simplify_eq/=. eauto.
Qed.

Lemma choice_run_Some {A} (p : Run A) ps s x :
  choice_run (p :: ps) s = Some x → p s = Some x ∨ (p s = None ∧ choice_run ps s = Some x).
Proof. simpl. destruct (p s); naive_solver. Qed.
Lemma choice_run_mono {A} (Q : A → Prop) (ps : list (Run A)) s x r :
  (∀ p, p ∈ ps → ∀ y r, p s = Some (y, r) → Q y) → choice_run ps s = Some (x, r) → Q x.
Proof.
  induction ps as [|p ps IH]; intros Hps Hr; [done|]. apply choice_run_Some in Hr as [Hr|[_ Hr]].
  - eapply Hps; [|done]. by left.
  - apply IH; [|done]. intros q Hq. apply Hps. by right.
Qed.

(** ** What runs yield *)
Definition yields {A} (Q : A → Prop) (p : Run A) : Prop := ∀ s x r, p s = Some (x, r) → Q x.

Section yields.
Context {A B : Type}.
Implicit Types (p : Run A) (q : Run B).

Lemma yields_mono (P Q : A → Prop) p : (∀ x, P x → Q x) → yields P p → yields Q p.
Proof. unfold yields. eauto. Qed.
Lemma yields_map (P : A → Prop) (Q : B → Prop) f p :
  yields P p → (∀ x, P x → Q (f x)) → yields Q (map_run f p).
Proof.
  intros Hp Hf s x r. unfold map_run. destruct (p s) as [[y r']|] eqn:Hy; intros; simplify_eq/=.
  eauto.
Qed.
Lemma yields_try_map (P : A → Prop) (Q : B → Prop) f p :
  yields P p → (∀ x y, P x → f x = Some y → Q y) → yields Q (try_map_run f p).
Proof.
  intros Hp Hf s x r. unfold try_map_run. destruct (p s) as [[y r']|] eqn:Hy; [|done]. simpl.
  destruct (f y) eqn:?; intros; simplify_eq/=. eauto.
Qed.
Lemma yields_padded (P : A → Prop) p : yields P p → yields P (padded_run p).
Proof.
  intros Hp s x r. unfold padded_run. destruct (p _) as [[y r']|] eqn:Hy; intros; simplify_eq/=. eauto.
Qed.
Lemma yields_then (P : A → Prop) (Q : B → Prop) p q :
  yields P p → yields Q q → yields (λ x, P (fst x) ∧ Q (snd x)) (then_run p q).
Proof.
  intros Hp Hq s x r. unfold then_run. destruct (p s) as [[y r']|] eqn:Hy; [|done]. simpl.
  destruct (q r') as [[z r'']|] eqn:?; intros; simplify_eq/=. eauto.
Qed.
Lemma yields_ignore_then (Q : B → Prop) p q : yields Q q → yields Q (ignore_then_run p q).
Proof.
  intros Hq s x r. unfold ignore_then_run. destruct (p s) as [[y r']|]; [|done]. simpl. eauto.
Qed.
Lemma yields_then_ignore (P : A → Prop) p q : yields P p → yields P (then_ignore_run p q).
Proof.
  intros Hp s x r. unfold then_ignore_run. destruct (p s) as [[y r']|] eqn:Hy; [|done]. simpl.
  destruct (q r') as [[z r'']|]; intros; simplify_eq/=. eauto.
Qed.
Lemma yields_or_not (P : A → Prop) p :
  yields P p → yields (λ o, match o with Some x => P x | None => True end) (or_not_run p).
Proof.
  intros Hp s x r. unfold or_not_run. destruct (p s) as [[y r']|] eqn:Hy; intros; simplify_eq/=; eauto.
Qed.
Lemma yields_choice (P : A → Prop) ps : Forall (yields P) ps → yields P (choice_run ps).
Proof.
  induction 1 as [|p ps Hp _ IH]; intros s x r; simpl; [done|].
  destruct (p s) as [[y r']|] eqn:Hy; intros; simplify_eq; eauto.
Qed.
Lemma yields_many (P : A → Prop) p n : yields P p → ∀ s, Forall P (fst (many p n s)).
Proof.
  intros Hp. induction n as [|n IH]; intros s; simpl; [constructor|].
  destruct (p s) as [[y r']|] eqn:Hy; [|constructor]. specialize (IH r').
  destruct (many p n r'). simpl in *. constructor; eauto.
Qed.
Lemma yields_repeated (P : A → Prop) k p :
  yields P p → yields (λ l, Forall P l ∧ k ≤ length l) (repeated_run k p).
Proof.
  intros Hp s x r [He ?]%at_least_Some. split; [|done]. unfold many_run in He.
  pose proof (yields_many P p (S (String.length s)) Hp s) as Hm. by rewrite He in Hm.
Qed.
Lemma yields_recursive (P : A → Prop) (f : Run A → Run A) :
  (∀ p, yields P p → yields P (f p)) → yields P (recursive_run f).
Proof.
  intros Hf. assert (∀ n, yields P (unfold_run f n)) as Hn; [|intros s; apply Hn].
  induction n as [|n IH]; simpl; [done|]. by apply Hf.
Qed.
Lemma yields_any p : yields (λ _, True) p.
Proof. done. Qed.
End yields.

Lemma yields_delimited {A B C} (P : A → Prop) (p : Run A) (l : Run B) (r : Run C) :
  yields P p → yields P (ignore_then_run l (then_ignore_run p r)).
Proof. intros Hp. by apply yields_ignore_then, yields_then_ignore. Qed.
Lemma yields_separated {A B} (P : A → Prop) k t (p : Run A) (q : Run B) :
  yields P p → yields (λ l, Forall P l ∧ k ≤ length l) (separated_run k t p q).
Proof.
  intros Hp s x r [He ?]%at_least_Some. split; [|done]. unfold separated_items in He.
  destruct (p s) as [[y r']|] eqn:Hy; [|simplify_eq; constructor].
  unfold many_run in He.
  pose proof (yields_many P _ (S (String.length r')) (yields_ignore_then P q p Hp) r') as Hm.
  destruct (many _ _ r') as [xs r''] eqn:Hxs. simplify_eq. simpl in Hm. constructor; eauto.
Qed.

(** ** Names *)
Lemma yields_ident : yields (λ x, is_ident x = true) ident_run.
Proof.
  intros [|c s] x r Hr; [done|]. unfold ident_run in Hr. destruct (is_ident_start c) eqn:Hc; [|done].
  rewrite span_true in Hr by (unfold is_ident_char; by rewrite Hc). simplify_eq. simpl.
  rewrite Hc. apply span_all.
Qed.

Lemma is_ident_no_colon x : is_ident x = true → ":"%char ∉ String.list_ascii_of_string x.
Proof.
  destruct x as [|c x]; [done|]. simpl. intros [Hc Hx]%andb_true_iff. rewrite not_elem_of_cons.
  split; [intros <-; vm_compute in Hc; done|by apply (all_chars_no is_ident_char)].
Qed.
Lemma qualified_simple first x : is_ident x = true → is_qualified_by first x = first x.
Proof.
  intros Hx. unfold is_qualified_by. rewrite split_once_no_colon by by apply is_ident_no_colon.
  by rewrite Hx.
Qed.
Lemma qualified_pair first a b : is_ident a = true → is_ident b = true →
  is_qualified_by first (a +:+ "::" +:+ b) = first a.
Proof.
  intros Ha Hb. unfold is_qualified_by. rewrite split_once_app by by apply is_ident_no_colon.
  rewrite Ha, Hb. by rewrite andb_true_r.
Qed.

(** ** Expressions *)
Section wf.
Context `{PrefixHexLaws}.

Lemma make_address_wf hex a : make_address hex = Some a → wf_address a.
Proof.
  unfold make_address, address_from_str. intros Ha.
  destruct (hex_decode _) as [bs|] eqn:Hd; [|done]. apply hex_decode_bytes in Hd. simpl in Ha.
  unfold address_try_from in Ha. repeat case_bool_decide; simplify_eq/=; split; try done.
  apply Forall_app. split; [|done]. apply list.Forall_replicate. done.
Qed.
Lemma yields_address_literal : yields wf_address address_literal.
Proof. eapply yields_try_map; [apply yields_any|]. intros x y _. apply make_address_wf. Qed.
Lemma yields_int_lit : yields (λ e, wf_expr e = true) int_lit.
Proof.
  apply yields_padded. eapply yields_try_map; [apply yields_any|]. intros x y _ Hy.
  destruct (parse_u64 x) eqn:Hx; simplify_eq/=. apply bool_decide_eq_true. by eapply parse_u64_range.
Qed.
Lemma yields_none_of c : yields (λ d, Ascii.eqb d c = false) (none_of_run c).
Proof. intros [|d s] x r; simpl; [done|]. destruct (Ascii.eqb d c) eqn:?; naive_solver. Qed.
Lemma yields_str_lit : yields (λ e, wf_expr e = true) str_lit.
Proof.
  eapply yields_map; [apply yields_padded, yields_then_ignore, yields_ignore_then|]; cycle 1.
  { intros x Hx. exact Hx. }
  eapply yields_map; [apply yields_repeated, yields_none_of|]. intros l [Hl _]. simpl.
  induction Hl as [|c l Hc _ IH]; simpl; [done|]. by rewrite Hc, IH.
Qed.

Definition wf_e (e : Expr.t) : Prop := wf_expr e = true.
Lemma wf_forall es : Forall wf_e es ↔ forallb wf_expr es = true.
Proof. rewrite forallb_forall. by rewrite List.Forall_forall. Qed.

Lemma yields_call_args e : yields wf_e e → yields (Forall wf_e) (call_args e).
Proof.
  intros He. apply yields_delimited. eapply yields_mono; [|by apply yields_separated]. naive_solver.
Qed.
Lemma yields_struct_fields e : yields wf_e e →
  yields (Forall (λ f, is_ident (fst f) = true ∧ wf_e (snd f))) (struct_fields e).
Proof.
  intros He. apply yields_delimited. eapply yields_mono; [|apply yields_separated].
  - intros l [Hl _]. exact Hl.
  - apply (yields_then (λ x, is_ident x = true) wf_e); [|done]. apply yields_then_ignore, yields_padded, yields_ident.
Qed.
Lemma wf_fields_forall fs :
  Forall (λ f, is_ident (fst f) = true ∧ wf_e (snd f)) fs →
  forallb (λ f, is_ident (fst f) && wf_expr (snd f)) fs = true.
Proof. induction 1 as [|f fs [Hi Hw] _ IH]; simpl; [done|]. rewrite Hi, Hw. done. Qed.

(** The words [true] and [false] are no names, since literals come first. *)
Lemma bool_lit_first s w r : run bool_lit s = None → ident_run (skip_ws s) = Some (w, r) →
  is_literal_word w = false.
Proof.
  unfold bool_lit. cbn -[skip_ws ident_run]. unfold padded_run, choice_run, map_run, keyword_run.
  intros Hb Hi. rewrite !Hi in Hb. simpl in Hb. unfold is_literal_word.
  destruct (String.eqb w "true"); [done|]. by destruct (String.eqb w "false").
Qed.
Lemma yields_ident_expr e s x r : yields wf_e e → run bool_lit s = None →
  run (ident_expr e) s = Some (x, r) → wf_e x.
Proof.
  intros He Hb ([name suffix] & (r0 & Hn & Hs)%then_run_Some & ->)%map_run_Some. simpl in Hn.
  apply map_run_Some in Hn as ([w o] & (r1 & Hw & Ho)%then_run_Some & ->).
  apply padded_run_Some in Hw as (r2 & Hw & ->). simpl in Hw, Ho.
  pose proof (bool_lit_first s w r2 Hb Hw) as Hlit. apply yields_ident in Hw.
  assert (wf_name (make_name (w, o)) = true) as Hname.
  { eapply (yields_or_not (λ x, is_ident x = true)) in Ho; [|apply yields_ignore_then, yields_padded, yields_ident].
    destruct o as [w'|]; simpl; unfold wf_name.
    - rewrite qualified_pair by done. by rewrite Hlit.
    - rewrite qualified_simple by done. by rewrite Hlit. }
  eapply (yields_choice (λ sfx, wf_e (make_ident_expr (make_name (w, o), sfx)))); [|exact Hs].
  repeat apply list.Forall_cons_2; try apply list.Forall_nil_2.
  - eapply yields_map; [by apply yields_call_args|]. intros args Ha. unfold wf_e. cbn [make_ident_expr wf_expr].
    rewrite Hname. by apply wf_forall.
  - eapply yields_map; [by apply yields_struct_fields|]. intros fs Hf. unfold wf_e. cbn [make_ident_expr wf_expr].
    rewrite Hname. by apply wf_fields_forall.
  - eapply yields_map; [apply yields_any|]. done.
Qed.
Lemma yields_comma_list e : yields wf_e e →
  yields (λ x, wf_e (fst x) ∧ Forall wf_e (snd x))
    (then_run (then_ignore_run e (punct ",")) (separated_run 0 true e (punct ","))).
Proof.
  intros He. eapply yields_mono; [|apply yields_then, yields_separated, He].
  - intros x [Hx [Hl _]]. split; [exact Hx|exact Hl].
  - by apply yields_then_ignore.
Qed.
Lemma yields_tuple_expr e : yields wf_e e → yields wf_e (tuple_expr e).
Proof.
  intros He. eapply yields_map; [apply yields_delimited, yields_comma_list, He|].
  intros [x l] [Hx Hl]. simpl in *. unfold wf_e. simpl. rewrite Hx. by apply wf_forall in Hl.
Qed.
Lemma yields_primary e : yields wf_e e → yields wf_e (primary e).
Proof.
  intros He s x r Hr. apply choice_run_Some in Hr as [Hb|[Hb Hr]].
  { revert Hb. apply (yields_padded wf_e), yields_choice.
    repeat apply list.Forall_cons_2; try apply list.Forall_nil_2;
      (eapply yields_map; [apply yields_any|done]). }
  revert Hr. apply choice_run_mono. intros p Hp.
  repeat (apply elem_of_cons in Hp as [->|Hp]); try by apply elem_of_nil in Hp.
  - apply yields_str_lit.
  - eapply yields_map; [apply yields_address_literal|]. intros a Ha. by apply bool_decide_eq_true.
  - apply yields_int_lit.
  - intros y r'. by apply yields_ident_expr.
  - by apply yields_tuple_expr.
  - by apply yields_delimited.
Qed.
Lemma yields_chain p q : yields wf_e p → yields wf_e (chain p q).
Proof.
  intros Hp. eapply yields_map; [eapply yields_then; [exact Hp|]|].
  { apply yields_repeated. apply (yields_then (λ _, True) wf_e); [apply yields_any|exact Hp]. }
  intros [e l] [He [Hl _]]. simpl in *. clear Hp. unfold make_binops. simpl. revert e He.
  induction Hl as [|[op r] l [_ Hr] _ IH]; intros e He; simpl; [done|]. apply IH.
  unfold wf_e in *. simpl in *. by rewrite He, Hr.
Qed.
Lemma yields_postfix e : yields wf_e e → yields wf_e (postfix e).
Proof.
  intros He. eapply yields_map; [eapply yields_then; [by apply yields_primary|]|].
  { apply yields_repeated. apply yields_ignore_then, yields_padded, yields_ident. }
  intros [b l] [Hb [Hl _]]. simpl in *. revert b Hb.
  induction Hl as [|f l Hf _ IH]; intros b Hb; simpl; [done|]. apply IH.
  unfold wf_e in *. simpl. by rewrite Hb, Hf.
Qed.
Lemma yields_unary e : yields wf_e e → yields wf_e (unary e).
Proof.
  intros He. eapply yields_map; [eapply yields_then; [apply yields_any|by apply yields_postfix]|].
  intros [nots b] [_ Hb]. simpl in *. revert b Hb.
  induction (rev nots) as [|? l IH]; intros b Hb; simpl; [done|]. by apply IH.
Qed.
Lemma yields_cmp e : yields wf_e e → yields wf_e (cmp e).
Proof.
  intros He. assert (yields wf_e (add e)) as Ha by by apply yields_chain, yields_chain, yields_unary.
  eapply yields_map; [eapply yields_then; [exact Ha|]|].
  { eapply yields_or_not. apply (yields_then (λ _, True) wf_e); [apply yields_any|exact Ha]. }
  intros [l [[op r]|]] [Hl Hr]; simpl in *; [|done]. destruct Hr as [_ Hr].
  unfold wf_e in *. simpl in *. by rewrite Hl, Hr.
Qed.
Lemma yields_expr : yields wf_e expr.
Proof. apply yields_recursive. intros e He. by apply yields_chain, yields_chain, yields_cmp. Qed.

(** ** Types *)
Lemma yields_ty : yields (λ t, wf_ty t = true) ty.
Proof.
  apply yields_padded. eapply yields_map; [eapply yields_then; [apply yields_ident|]|].
  { apply yields_or_not, yields_ignore_then, yields_ident. }
  intros [a [b|]] [Ha Hb]; simpl in Ha, Hb; cbn [make_type wf_ty].
  - rewrite qualified_pair by done. unfold is_primitive. apply negb_true_iff.
    assert (∀ w, ":"%char ∉ String.list_ascii_of_string w →
      String.eqb (a +:+ "::" +:+ b) w = false) as Hne.
    { intros w Hw. apply String.eqb_neq. intros Heq. apply split_once_no_colon in Hw.
      rewrite <-Heq, split_once_app in Hw; [done|]. by apply is_ident_no_colon. }
    rewrite !Hne; [done|..]; by apply (bool_decide_unpack _).
  - unfold Ty.from_name. destruct (String.eqb a "bool") eqn:E1; [done|].
    destruct (String.eqb a "u64") eqn:E2; [done|]. destruct (String.eqb a "address") eqn:E3; [done|].
    destruct (String.eqb a "string") eqn:E4; [done|]. cbn [wf_ty].
    rewrite qualified_simple by done. unfold is_primitive. by rewrite E1, E2, E3, E4.
Qed.
Definition wf_field (f : string * Ty.t) : Prop := is_ident (fst f) && wf_ty (snd f) = true.
Lemma yields_field : yields wf_field param.
Proof.
  eapply yields_mono; [|apply (yields_then (λ x, is_ident x = true) (λ t, wf_ty t = true))].
  - intros x [Hx Ht]. unfold wf_field. by rewrite Hx, Ht.
  - apply yields_then_ignore, yields_padded, yields_ident.
  - apply yields_ty.
Qed.
Lemma wf_fields_Forall l : Forall wf_field l → wf_fields l = true.
Proof. induction 1 as [|f l Hf _ IH]; simpl; [done|]. unfold wf_field in Hf. by rewrite Hf. Qed.
Lemma yields_return_ty : yields (λ t, wf_return_ty t = true) return_ty.
Proof.
  apply yields_choice. repeat apply list.Forall_cons_2; try apply list.Forall_nil_2.
  - eapply yields_map; [apply yields_delimited|].
    { eapply yields_then; [apply yields_then_ignore, yields_ty|apply yields_separated, yields_ty]. }
    intros [t ts] [Ht [Hts _]]. simpl in *. rewrite Ht. simpl.
    induction Hts as [|u us Hu _ IH]; simpl; [done|]. by rewrite Hu.
  - eapply yields_mono; [|apply yields_ty]. intros []; done.
Qed.

(** ** Statements and items *)
Definition wf_s (t : Stmt.t) : Prop := wf_stmt t = true.
Lemma wf_idents xs : Forall (λ x, is_ident x = true) xs → forallb is_ident xs = true.
Proof. induction 1 as [|x xs Hx _ IH]; simpl; [done|]. by rewrite Hx. Qed.
Lemma wf_stmts ts : Forall wf_s ts → forallb wf_stmt ts = true.
Proof. induction 1 as [|t ts Ht _ IH]; simpl; [done|]. unfold wf_s in Ht. by rewrite Ht. Qed.
Lemma wf_bindings bs : Forall (λ b, is_ident (fst b) = true ∧ is_ident (snd b) = true) bs →
  forallb (λ b, is_ident (fst b) && is_ident (snd b)) bs = true.
Proof. induction 1 as [|b bs [Hb Hc] _ IH]; simpl; [done|]. by rewrite Hb, Hc. Qed.

Lemma yields_ident_p : yields (λ x, is_ident x = true) ident.
Proof. apply yields_padded, yields_ident. Qed.
Lemma yields_let_stmt : yields wf_s let_stmt.
Proof.
  eapply yields_map; [apply yields_then_ignore; eapply yields_then;
    [apply yields_then_ignore, yields_ignore_then, yields_ident_p|apply yields_expr]|].
  intros [x e] [Hx He]. simpl in *. unfold wf_s, wf_e in *. simpl. by rewrite Hx.
Qed.
Lemma yields_reassign : yields wf_s reassign.
Proof.
  eapply yields_map; [apply yields_then_ignore; eapply yields_then;
    [apply yields_then_ignore, yields_ident_p|apply yields_expr]|].
  intros [x e] [Hx He]. simpl in *. unfold wf_s, wf_e in *. simpl. by rewrite Hx.
Qed.
Lemma yields_let_tuple_stmt : yields wf_s let_tuple_stmt.
Proof.
  eapply yields_map; [apply yields_then_ignore; eapply yields_then;
    [apply yields_then_ignore, yields_ignore_then, yields_delimited, yields_separated,
       yields_ident_p|apply yields_expr]|].
  intros [xs e] [[Hx Hl] He]. simpl in *. unfold wf_s, wf_e in *. simpl.
  rewrite bool_decide_true by done. rewrite wf_idents by done. done.
Qed.
Lemma yields_return_stmt : yields wf_s return_stmt.
Proof.
  eapply yields_map; [apply yields_then_ignore, yields_ignore_then, yields_or_not, yields_expr|].
  intros [e|] He; done.
Qed.
Lemma yields_field_assign : yields wf_s field_assign.
Proof.
  eapply yields_map; [apply yields_then_ignore; eapply yields_then;
    [apply yields_then_ignore; eapply yields_then; [apply yields_ident_p|]|apply yields_expr]|].
  { apply yields_repeated, yields_ignore_then, yields_ident_p. }
  intros [[x path] e] [[Hx [Hp Hl]] He]. simpl in *. unfold wf_s, wf_e in *. simpl.
  rewrite Hx, wf_idents by done. rewrite bool_decide_false; [done|]. by destruct path; simpl in Hl; [lia|].
Qed.
Lemma yields_struct_bindings :
  yields (λ b, Forall (λ b, is_ident (fst b) = true ∧ is_ident (snd b) = true) (fst b) ∧
    snd b || negb (bool_decide (fst b = [])) = true) struct_bindings.
Proof.
  apply yields_choice. repeat apply list.Forall_cons_2; try apply list.Forall_nil_2.
  - eapply yields_map; [apply yields_any|]. intros _ _. split; [constructor|done].
  - eapply yields_map; [eapply yields_then; [apply yields_separated|apply yields_any]|].
    + eapply yields_map; [eapply yields_then; [apply yields_ident_p|]|].
      { apply yields_or_not, yields_ignore_then, yields_ident_p. }
      intros [x o] [Hx Ho]. simpl in *.
      instantiate (1 := λ b, is_ident (fst b) = true ∧ is_ident (snd b) = true).
      by destruct o.
    + intros [bs o] [[Hb Hl] _]. simpl in *. split; [done|]. rewrite bool_decide_false; [by rewrite orb_true_r|].
      by destruct bs; simpl in Hl; [lia|].
Qed.
Lemma yields_let_struct_stmt : yields wf_s let_struct_stmt.
Proof.
  eapply yields_map; [apply yields_then_ignore; eapply yields_then;
    [apply yields_then_ignore; eapply yields_then;
       [apply yields_ignore_then, yields_ident_p|apply yields_delimited, yields_struct_bindings]
    |apply yields_expr]|].
  intros [[n [bs rest]] e] [[Hn [Hb Hr]] He]. simpl in *. unfold wf_s, wf_e in *. simpl.
  rewrite Hn, Hr, wf_bindings by done. done.
Qed.
Lemma yields_block t : yields wf_s t → yields (Forall wf_s) (block t).
Proof.
  intros Ht. apply yields_delimited. eapply yields_mono; [|by apply yields_repeated]. naive_solver.
Qed.
Lemma yields_if_stmt t : yields wf_s t → yields wf_s (if_stmt t).
Proof.
  intros Ht. eapply yields_map; [eapply yields_then;
    [eapply yields_then; [apply yields_ignore_then, yields_expr|by apply yields_block]|]|].
  { by apply yields_or_not, yields_ignore_then, yields_block. }
  intros [[c body] eb] [[Hc Hb] Heb]. simpl in *. unfold wf_s, wf_e in *. simpl.
  rewrite Hc, (wf_stmts body) by done. destruct eb; [by apply wf_stmts|done].
Qed.
Lemma yields_stmt : yields wf_s stmt.
Proof.
  apply yields_recursive. intros t Ht. apply yields_choice.
  repeat apply list.Forall_cons_2; try apply list.Forall_nil_2; eauto using yields_let_struct_stmt,
    yields_let_tuple_stmt, yields_let_stmt, yields_return_stmt, yields_if_stmt,
    yields_field_assign, yields_reassign.
  eapply yields_map; [apply yields_then_ignore, yields_expr|done].
Qed.

Definition wf_i (i : AstItem) : Prop := wf_item i = true.
Lemma yields_struct_item : yields wf_i struct_item.
Proof.
  eapply yields_map; [eapply yields_then; [eapply yields_then;
    [apply yields_then_ignore, yields_any|apply yields_ident_p]
    |apply yields_delimited, yields_separated, yields_field]|].
  intros [[b n] fs] [[_ Hn] [Hf _]]. simpl in *. unfold wf_i. simpl. rewrite Hn.
  by apply wf_fields_Forall.
Qed.
Lemma yields_fn_body : yields (Forall wf_s) fn_body.
Proof.
  eapply yields_map; [apply yields_delimited; eapply yields_then;
    [apply yields_repeated, yields_stmt|apply yields_or_not, yields_expr]|].
  intros [l [e|]] [[Hl _] He]; simpl in *; [|done].
  apply Forall_app. split; [done|]. apply list.Forall_singleton. exact He.
Qed.
Lemma yields_fn_item : yields wf_i fn_item.
Proof.
  eapply yields_map; [eapply yields_then; [eapply yields_then; [eapply yields_then; [eapply yields_then;
    [apply yields_then_ignore, yields_any|apply yields_ident_p]
    |apply yields_delimited, yields_separated, yields_field]
    |apply yields_or_not, yields_ignore_then, yields_return_ty]|apply yields_fn_body]|].
  intros [[[[b n] ps] rt] body] [[[[_ Hn] [Hp _]] Hr] Hb]. simpl in *. unfold wf_i. simpl.
  rewrite Hn, wf_fields_Forall, wf_stmts by done. destruct rt; [by rewrite Hr|done].
Qed.
Lemma yields_use_item : yields wf_i use_item.
Proof.
  eapply yields_map; [apply yields_then_ignore; eapply yields_then; [eapply yields_then;
    [apply yields_then_ignore, yields_ignore_then, yields_ident_p|]
    |apply yields_or_not, yields_ignore_then, yields_ident_p]|].
  { eapply yields_try_map; [apply yields_any|]. intros x y _. apply make_address_wf. }
  intros [[n a] o] [[Hn Ha] Ho]. simpl in *. unfold wf_i. simpl.
  rewrite Hn, bool_decide_true by done. by destruct o.
Qed.
Lemma yields_parser : yields (Forall wf_i) parser.
Proof.
  apply yields_padded. eapply yields_mono; [|apply yields_repeated].
  { intros l [Hl _]. exact Hl. }
  apply yields_choice. repeat apply list.Forall_cons_2; try apply list.Forall_nil_2;
    eauto using yields_use_item, yields_struct_item, yields_fn_item.
  eapply yields_map; [apply yields_then_ignore, yields_ignore_then, yields_ident_p|done].
Qed.
End wf.
