(* ===== verification/GrammarPrint.v ===== *)
(** * Printing syntax trees

    A printer for syntax trees with as few parentheses as the precedence and
    the associativity of the operators allow, and the proof that the grammar
    reads back what it prints.  The printer is not part of the program: it shows
    that every well-formed tree has a text, and what that text means.
    Expressions come first, then statements and items. *)

From S2P Require Import Prelude Text Address VmTypes Ast Chumsky ChumskyInstance Grammar.
From S2P Require Import GrammarProps.

(** ** The printer *)
Definition op_text (op : BinOp.t) : string :=
  match op with
  | BinOp.Add => "+" | BinOp.Sub => "-" | BinOp.Mul => "*" | BinOp.Div => "/" | BinOp.Mod => "%"
  | BinOp.Eq => "==" | BinOp.Ne => "!=" | BinOp.Lt => "<" | BinOp.Le => "<=" | BinOp.Gt => ">"
  | BinOp.Ge => ">=" | BinOp.And => "&&" | BinOp.Or => "||"
  end.
(** The higher the level, the tighter the operator binds. *)
Definition op_level (op : BinOp.t) : nat :=
  match op with
  | BinOp.Or => 0
  | BinOp.And => 1
  | BinOp.Eq | BinOp.Ne | BinOp.Lt | BinOp.Le | BinOp.Gt | BinOp.Ge => 2
  | BinOp.Add | BinOp.Sub => 3
  | BinOp.Mul | BinOp.Div | BinOp.Mod => 4
  end.
(** Comparisons do not associate. *)
Definition left_level (op : BinOp.t) : nat := if op_level op =? 2 then 3 else op_level op.
Definition level (e : Expr.t) : nat :=
  match e with
  | Expr.BinOp _ op _ => op_level op
  | Expr.UnaryOp _ _ => 5
  | Expr.FieldAccess _ _ => 6
  | _ => 7
  end.

Fixpoint commas (l : list string) : string :=
  match l with
  | [] => ""
  | [x] => x
  | x :: l => x +:+ "," +:+ commas l
  end.

Section print.
Context `{PrefixHex}.

Fixpoint print (k : nat) (e : Expr.t) : string :=
  let body :=
    match e with
    | Expr.Bool b => if b then "true" else "false"
    | Expr.Int n => pretty (Z.to_N n)
    | Expr.Address a => "@" +:+ address_to_string a
    | Expr.Str s => String quote (s +:+ String quote "")
    | Expr.Ident x => x
    | Expr.BinOp l op r => print (left_level op) l +:+ op_text op +:+ print (S (op_level op)) r
    | Expr.FieldAccess e f => print 6 e +:+ "." +:+ f
    | Expr.StructLit n fs => n +:+ "{" +:+ commas (map (λ f, fst f +:+ ":" +:+ print 0 (snd f)) fs) +:+ "}"
    | Expr.Call n args => n +:+ "(" +:+ commas (map (print 0) args) +:+ ")"
    | Expr.Tuple [] => ""
    | Expr.Tuple (e :: es) => "(" +:+ print 0 e +:+ "," +:+ commas (map (print 0) es) +:+ ")"
    | Expr.UnaryOp _ e => "!" +:+ print 5 e
    end in
  if level e <? k then "(" +:+ body +:+ ")" else body.

Definition print_binding (b : string * string) : string := fst b +:+ ":" +:+ snd b.
Definition print_bindings (bs : list (string * string)) (rest : bool) : string :=
  match bs with
  | [] => ".."
  | _ => commas (map print_binding bs) +:+ (if rest then ",.." else "")
  end.
Fixpoint print_stmt (s : Stmt.t) : string :=
  let block := fix block (l : list Stmt.t) : string :=
    match l with [] => "}" | s :: l => print_stmt s +:+ block l end in
  match s with
  | Stmt.Let x e => "let " +:+ x +:+ "=" +:+ print 0 e +:+ ";"
  | Stmt.Reassign x e => x +:+ "=" +:+ print 0 e +:+ ";"
  | Stmt.Return None => "return;"
  | Stmt.Return (Some e) => "return " +:+ print 0 e +:+ ";"
  | Stmt.Expr e => "(" +:+ print 0 e +:+ ");"
  | Stmt.If c body else_body =>
      "if(" +:+ print 0 c +:+ "){" +:+ block body +:+
      match else_body with Some l => "else{" +:+ block l | None => "" end
  | Stmt.FieldAssign x path e =>
      x +:+ foldr (λ f s, "." +:+ f +:+ s) "" path +:+ "=" +:+ print 0 e +:+ ";"
  | Stmt.LetTuple xs e => "let(" +:+ commas xs +:+ ")=" +:+ print 0 e +:+ ";"
  | Stmt.LetStruct n bs e rest =>
      "let " +:+ n +:+ "{" +:+ print_bindings bs rest +:+ "}=" +:+ print 0 e +:+ ";"
  end.
Fixpoint print_block (l : list Stmt.t) : string :=
  match l with [] => "}" | s :: l => print_stmt s +:+ print_block l end.

Definition print_field (f : string * Ty.t) : string := fst f +:+ ":" +:+ Ty.name (snd f).
Definition print_return_ty (t : Ty.t) : string :=
  match t with
  | Ty.Tuple (t :: ts) => "(" +:+ Ty.name t +:+ "," +:+ commas (map Ty.name ts) +:+ ")"
  | t => Ty.name t
  end.
Definition print_pub (b : bool) : string := if b then "pub " else "".
Definition print_item (i : AstItem) : string :=
  match i with
  | ItemModuleDecl n => "mod " +:+ n +:+ ";"
  | ItemUse n a alias =>
      "use " +:+ n +:+ "@" +:+ address_to_string a +:+
      match alias with Some x => " as " +:+ x | None => "" end +:+ ";"
  | ItemStruct s =>
      print_pub (as_is_public s) +:+ "struct " +:+ as_name s +:+ "{" +:+
      commas (map print_field (as_fields s)) +:+ "}"
  | ItemFn f =>
      print_pub (af_is_public f) +:+ "fn " +:+ af_name f +:+ "(" +:+
      commas (map print_field (af_params f)) +:+ ")" +:+
      match af_return_type f with Some t => "->" +:+ print_return_ty t | None => "" end +:+
      "{" +:+ print_block (af_body f)
  end.
Fixpoint print_items (l : list AstItem) : string :=
  match l with [] => "" | i :: l => print_item i +:+ print_items l end.
End print.

(** ** Runs forward *)
Section forward.
Context {A B : Type}.
Implicit Types (p : Run A) (q : Run B).

Lemma map_ok (f : A → B) p s x r : p s = Some (x, r) → map_run f p s = Some (f x, r).
Proof. unfold map_run. by intros ->. Qed.
Lemma map_to (f : A → B) p s x y r : p s = Some (x, r) → f x = y → map_run f p s = Some (y, r).
Proof. unfold map_run. by intros -> <-. Qed.
Lemma map_fail (f : A → B) p s : p s = None → map_run f p s = None.
Proof. unfold map_run. by intros ->. Qed.
Lemma try_map_ok (f : A → option B) p s x y r :
  p s = Some (x, r) → f x = Some y → try_map_run f p s = Some (y, r).
Proof. unfold try_map_run. intros ->. simpl. by intros ->. Qed.
Lemma then_ok p q s x y r r' :
  p s = Some (x, r) → q r = Some (y, r') → then_run p q s = Some ((x, y), r').
Proof. unfold then_run. intros ->. simpl. by intros ->. Qed.
Lemma then_fail p q s : p s = None → then_run p q s = None.
Proof. unfold then_run. by intros ->. Qed.
Lemma then_fail_2 p q s x r : p s = Some (x, r) → q r = None → then_run p q s = None.
Proof. unfold then_run. intros ->. simpl. by intros ->. Qed.
Lemma ignore_then_ok p q s x r res : p s = Some (x, r) → q r = res → ignore_then_run p q s = res.
Proof. unfold ignore_then_run. by intros ->. Qed.
Lemma ignore_then_fail p q s : p s = None → ignore_then_run p q s = None.
Proof. unfold ignore_then_run. by intros ->. Qed.
Lemma then_ignore_ok p q s x y r r' :
  p s = Some (x, r) → q r = Some (y, r') → then_ignore_run p q s = Some (x, r').
Proof. unfold then_ignore_run. intros ->. simpl. by intros ->. Qed.
Lemma then_ignore_fail p q s : p s = None → then_ignore_run p q s = None.
Proof. unfold then_ignore_run. by intros ->. Qed.
Lemma then_ignore_fail_2 p q s x r :
  p s = Some (x, r) → q r = None → then_ignore_run p q s = None.
Proof. unfold then_ignore_run. intros ->. simpl. by intros ->. Qed.
Lemma or_not_ok p s x r : p s = Some (x, r) → or_not_run p s = Some (Some x, r).
Proof. unfold or_not_run. by intros ->. Qed.
Lemma or_not_none p s : p s = None → or_not_run p s = Some (None, s).
Proof. unfold or_not_run. by intros ->. Qed.
Lemma choice_ok p ps s x : p s = Some x → choice_run (p :: ps) s = Some x.
Proof. simpl. by intros ->. Qed.
Lemma choice_next p ps s res : p s = None → choice_run ps s = res → choice_run (p :: ps) s = res.
Proof. simpl. by intros ->. Qed.
End forward.

(** ** Heads of texts *)
Definition no_ws (s : string) : Prop := skip_ws s = s.
Lemma no_ws_cons c s : is_ws c = false → no_ws (String c s).
Proof. unfold no_ws, skip_ws. simpl. by intros ->. Qed.
Lemma padded_ok {A} (p : Run A) s x r :
  no_ws s → no_ws r → p s = Some (x, r) → padded_run p s = Some (x, r).
Proof. unfold padded_run, no_ws. intros -> Hr ->. simpl. by rewrite Hr. Qed.
Lemma padded_fail {A} (p : Run A) s : no_ws s → p s = None → padded_run p s = None.
Proof. unfold padded_run, no_ws. by intros -> ->. Qed.

Definition head_in (f : ascii → bool) (s : string) : Prop :=
  match s with String c _ => f c = true | EmptyString => False end.

(** A text before a character that is not of its kind. *)

Definition ends_word (s : string) : Prop :=
  match s with String c _ => is_ident_char c = false | EmptyString => True end.
Lemma is_ident_all x : is_ident x = true → all_chars is_ident_char x = true.
Proof.
  destruct x as [|c x]; [done|]. simpl. intros [Hc Hx]%andb_true_iff. unfold is_ident_char at 1.
  by rewrite Hc.
Qed.
Lemma ident_run_ok x s : is_ident x = true → ends_word s → ident_run (x +:+ s) = Some (x, s).
Proof.
  intros Hx Hs. pose proof (is_ident_all x Hx) as Ha. destruct x as [|c x]; [done|].
  apply andb_true_iff in Hx as [Hc _]. change (ident_run (String c x +:+ s)) with
    (if is_ident_start c then Some (span is_ident_char (String c x +:+ s)) else None).
  by rewrite Hc, span_app.
Qed.
Lemma ident_start_no_ws c : is_ident_start c = true → is_ws c = false.
Proof.
  unfold is_ident_start, is_upper, is_lower, is_ws. intros Hc.
  rewrite !orb_true_iff, !andb_true_iff, !Nat.leb_le, Nat.eqb_eq in Hc.
  apply not_true_iff_false. rewrite orb_true_iff, andb_true_iff, !Nat.leb_le, Nat.eqb_eq. lia.
Qed.
Lemma ident_no_ws x s : is_ident x = true → no_ws (x +:+ s).
Proof.
  destruct x as [|c x]; [done|]. simpl. intros [Hc _]%andb_true_iff.
  by apply no_ws_cons, ident_start_no_ws.
Qed.
Lemma ident_ok x s : is_ident x = true → ends_word s → no_ws s → run ident (x +:+ s) = Some (x, s).
Proof. intros. apply padded_ok; [by apply ident_no_ws|done|by apply ident_run_ok]. Qed.
Lemma ident_fail c s : is_ws c = false → is_ident_start c = false → run ident (String c s) = None.
Proof. intros. apply padded_fail; [by apply no_ws_cons|]. simpl. by rewrite H0. Qed.

Lemma kw_run k x s : is_ident x = true → ends_word s →
  run (kw k) (x +:+ s) = if String.eqb x k then Some ((), skip_ws s) else None.
Proof.
  intros Hx Hs. unfold kw. simpl. unfold map_run, padded_run, keyword_run.
  rewrite (ident_no_ws x s Hx). rewrite ident_run_ok by done. simpl. by destruct (String.eqb x k).
Qed.
Lemma kw_fail k c s : is_ws c = false → is_ident_start c = false → run (kw k) (String c s) = None.
Proof.
  intros Hw Hc. unfold kw. simpl. unfold map_run, padded_run, keyword_run.
  rewrite (no_ws_cons c s Hw). simpl. by rewrite Hc.
Qed.

Lemma punct_ok c t s : is_ws c = false → no_ws s →
  run (punct (String c t)) (String c t +:+ s) = Some (String c t, s).
Proof.
  intros Hc Hs. apply padded_ok; [by apply no_ws_cons|done|].
  unfold just. simpl. unfold just_run. by rewrite strip_prefix_app.
Qed.
Lemma just_fail c t d s : c ≠ d → just_run (String c t) (String d s) = None.
Proof. intros Hne. unfold just_run. simpl. by rewrite (proj2 (Ascii.eqb_neq c d)). Qed.
Lemma punct_fail c t d s : is_ws d = false → c ≠ d → run (punct (String c t)) (String d s) = None.
Proof.
  intros Hd Hne. apply padded_fail; [by apply no_ws_cons|]. by apply just_fail.
Qed.

(** ** What may follow an expression

    The characters that can stand behind an expression of each level: those of
    the lower levels, and the operators of its own. *)
Definition stop_table : list (list ascii) :=
  [[")"; ","; ";"; "}"]; ["|"]; ["&"]; ["="; "!"; "<"; ">"]; ["+"; "-"]; ["*"; "/"; "%"]; []; ["."]]%char.
Definition stops (k : nat) : list ascii := concat (take (S k) stop_table).
Definition stopped (k : nat) (s : string) : Prop :=
  match s with String c _ => c ∈ stops k | EmptyString => False end.
(** A brace may follow a parenthesis. *)
Definition ended (k : nat) (s : string) : Prop :=
  match s with String c _ => c ∈ "{"%char :: stops k | EmptyString => False end.

Lemma stops_mono k k' c : k ≤ k' → c ∈ stops k → c ∈ stops k'.
Proof.
  unfold stops. rewrite !list_elem_of_In, !in_concat. intros Hk (l & Hl & Hc). exists l. split; [|done].
  rewrite <-list_elem_of_In in *. apply list_elem_of_lookup in Hl as [i Hi].
  apply lookup_take_Some in Hi as [Hi ?]. apply list_elem_of_lookup. exists i.
  apply lookup_take_Some. split; [done|lia].
Qed.
Lemma stopped_mono k k' s : k ≤ k' → stopped k s → stopped k' s.
Proof. destruct s; [done|]. apply stops_mono. Qed.
Lemma ended_mono k k' s : k ≤ k' → ended k s → ended k' s.
Proof.
  destruct s; [done|]. simpl. rewrite !elem_of_cons. intros Hk [->|?]; [by left|right].
  by eapply stops_mono.
Qed.
Lemma stopped_ended k s : stopped k s → ended k s.
Proof. destruct s; [done|]. by right. Qed.
Lemma stops_char k c : c ∈ "{"%char :: stops k →
  is_ws c = false ∧ is_ident_char c = false ∧ c ≠ ":"%char.
Proof.
  intros Hc. assert (c ∈ "{"%char :: stops 8) as H8.
  { revert Hc. rewrite !elem_of_cons. intros [->|Hc]; [by left|right].
    unfold stops in *. destruct (decide (k ≤ 8)); [by eapply stops_mono|].
    by rewrite take_ge in Hc |- * by (simpl; lia). }
  assert (forallb (λ c, negb (is_ws c) && (negb (is_ident_char c) && negb (Ascii.eqb c ":")))
    ("{"%char :: stops 8) = true) as Hall
    by reflexivity.
  rewrite forallb_forall in Hall. apply list_elem_of_In, Hall, andb_true_iff in H8.
  by rewrite andb_true_iff, !negb_true_iff, Ascii.eqb_neq in H8.
Qed.
Lemma ended_no_ws k s : ended k s → no_ws s.
Proof. destruct s; [done|]. intros Hc. by apply no_ws_cons, (stops_char k). Qed.
Lemma ended_word k s : ended k s → ends_word s.
Proof. destruct s; [done|]. intros Hc. by apply (stops_char k). Qed.
Lemma stopped_no_ws k s : stopped k s → no_ws s.
Proof. intros. by eapply ended_no_ws, stopped_ended. Qed.
Lemma stopped_word k s : stopped k s → ends_word s.
Proof. intros. by eapply ended_word, stopped_ended. Qed.

(** Case analysis on the character behind an expression. *)
Ltac stop_cases H :=
  let s := lazymatch type of H with ended _ ?s => s | stopped _ ?s => s end in
  destruct s as [|? ?]; [done|]; cbn in H;
  repeat (apply elem_of_cons in H as [->|H]); try by apply elem_of_nil in H.

Section levels.
Context `{HX : PrefixHex, HXL : !PrefixHexLaws}.

Definition lvl (k : nat) : CParser Expr.t :=
  match k with
  | 0 => or_ expr | 1 => and_ expr | 2 => cmp expr | 3 => add expr | 4 => mul expr
  | 5 => unary expr | 6 => postfix expr | _ => primary expr
  end.

(** No operator of its level follows. *)
Lemma or_op_stop s : ended 0 s → run or_op s = None.
Proof. intros Hs. stop_cases Hs; reflexivity. Qed.
Lemma and_op_stop s : ended 1 s → run and_op s = None.
Proof. intros Hs. stop_cases Hs; reflexivity. Qed.
Lemma cmp_op_stop s : ended 2 s → run cmp_op s = None.
Proof. intros Hs. stop_cases Hs; reflexivity. Qed.
Lemma add_op_stop s : ended 3 s → run add_op s = None.
Proof. intros Hs. stop_cases Hs; reflexivity. Qed.
Lemma mul_op_stop s : ended 4 s → run mul_op s = None.
Proof. intros Hs. stop_cases Hs; reflexivity. Qed.
Lemma postfix_op_stop s : ended 6 s → run postfix_op s = None.
Proof. intros Hs. stop_cases Hs; reflexivity. Qed.

Lemma many_stop {A} (p : Run A) s : p s = None → many_run p s = ([], s).
Proof. unfold many_run. simpl. by intros ->. Qed.
Lemma repeated_stop {A} (p : Run A) s : p s = None → repeated_run 0 p s = Some ([], s).
Proof. unfold repeated_run. by intros ->%many_stop. Qed.
Lemma chain_stop operand op s e r :
  run operand s = Some (e, r) → run op r = None → run (chain operand op) s = Some (e, r).
Proof.
  intros He Hop. change e with (make_binops (e, [])). apply map_ok. eapply then_ok; [exact He|].
  by apply repeated_stop, then_fail.
Qed.

Definition not_bang (s : string) : Prop := match s with String c _ => c ≠ "!"%char ∧ is_ws c = false | _ => False end.
Lemma bang_fail s : not_bang s → run (punct "!") s = None.
Proof. destruct s as [|c s]; [done|]. intros [Hc Hw]. by apply punct_fail. Qed.

Lemma lift_step k s e r :
  run (lvl (S k)) s = Some (e, r) → ended k r → (k = 5 → not_bang s) → run (lvl k) s = Some (e, r).
Proof.
  intros He Hr Hs. destruct k as [|[|[|[|[|[|[|k]]]]]]]; cbn [lvl] in *.
  - by apply chain_stop; [|apply or_op_stop].
  - by apply chain_stop; [|apply and_op_stop].
  - eapply (map_to _ _ _ (e, None)); [|done]. eapply then_ok; [exact He|].
    by apply or_not_none, then_fail, cmp_op_stop.
  - by apply chain_stop; [|apply add_op_stop].
  - by apply chain_stop; [|apply mul_op_stop].
  - eapply (map_to _ _ _ ([], e)); [|done]. eapply then_ok; [|exact He].
    by apply repeated_stop, bang_fail, Hs.
  - eapply (map_to _ _ _ (e, [])); [|done]. eapply then_ok; [exact He|].
    by apply repeated_stop, postfix_op_stop.
  - done.
Qed.
Lemma lift k j s e r : run (lvl (k + j)) s = Some (e, r) → ended k r → k + j ≤ 5 ∨ not_bang s →
  run (lvl k) s = Some (e, r).
Proof.
  intros He Hr Hs. induction j as [|j IH]; [by rewrite Nat.add_0_r in He|]. apply IH.
  - rewrite Nat.add_succ_r in He. apply lift_step; [done| |].
    + eapply ended_mono; [|done]. lia.
    + intros Hk. destruct Hs as [?|?]; [lia|done].
  - destruct Hs as [?|?]; [left; lia|by right].
Qed.
Lemma lift_to k k' s e r : run (lvl k') s = Some (e, r) → k ≤ k' → ended k r →
  k' ≤ 5 ∨ not_bang s → run (lvl k) s = Some (e, r).
Proof. intros He Hk Hr Hs. apply (lift k (k' - k)); replace (k + (k' - k)) with k' by lia; done. Qed.

(** ** What an expression starts with *)
Definition is_primary_start (c : ascii) : bool :=
  is_ident_start c || is_digit c || Ascii.eqb c quote || Ascii.eqb c "@" || Ascii.eqb c "(".
Definition is_expr_start (c : ascii) : bool := is_primary_start c || Ascii.eqb c "!".

Lemma bool_lit_fail c s : is_ws c = false → is_ident_start c = false → run bool_lit (String c s) = None.
Proof.
  intros Hw Hc. apply padded_fail; [by apply no_ws_cons|].
  unfold choice. simpl. unfold map_run, keyword_run. simpl. by rewrite Hc.
Qed.
Lemma str_lit_fail c s : is_ws c = false → c ≠ quote → run str_lit (String c s) = None.
Proof.
  intros Hw Hc. apply map_fail, padded_fail; [by apply no_ws_cons|].
  apply then_ignore_fail, ignore_then_fail. by apply just_fail.
Qed.
Lemma addr_lit_fail c s : is_ws c = false → c ≠ "@"%char → run addr_lit (String c s) = None.
Proof.
  intros Hw Hc. apply map_fail. simpl. unfold address_literal, try_map. simpl. unfold try_map_run.
  rewrite ignore_then_fail; [done|]. apply punct_fail; [done|congruence].
Qed.
Lemma int_lit_fail c s : is_ws c = false → is_digit c = false → run int_lit (String c s) = None.
Proof.
  intros Hw Hc. apply padded_fail; [by apply no_ws_cons|]. simpl. unfold try_map_run, int_run.
  rewrite Hc. destruct (Ascii.eqb_spec c "0") as [->|]; [done|]. done.
Qed.
Lemma ident_expr_fail e c s : is_ws c = false → is_ident_start c = false →
  run (ident_expr e) (String c s) = None.
Proof.
  intros Hw Hc. apply map_fail, then_fail, map_fail, then_fail. by apply ident_fail.
Qed.
Lemma tuple_expr_fail e c s : is_ws c = false → c ≠ "("%char → run (tuple_expr e) (String c s) = None.
Proof.
  intros Hw Hc. apply map_fail. apply ignore_then_fail. apply punct_fail; [done|congruence].
Qed.
Lemma grouped_fail e c s : is_ws c = false → c ≠ "("%char → run (grouped e) (String c s) = None.
Proof. intros Hw Hc. apply ignore_then_fail. apply punct_fail; [done|congruence]. Qed.

Lemma primary_fail e c s : is_ws c = false → is_primary_start c = false →
  run (primary e) (String c s) = None.
Proof.
  unfold is_primary_start. intros Hw Hc. rewrite !orb_false_iff in Hc.
  destruct Hc as [[[[Hi Hd] Hq%Ascii.eqb_neq] Ha%Ascii.eqb_neq] Hp%Ascii.eqb_neq].
  apply choice_next; [by apply bool_lit_fail|]. apply choice_next; [by apply str_lit_fail|].
  apply choice_next; [by apply addr_lit_fail|]. apply choice_next; [by apply int_lit_fail|].
  apply choice_next; [by apply ident_expr_fail|]. apply choice_next; [by apply tuple_expr_fail|].
  apply choice_next; [by apply grouped_fail|]. done.
Qed.
Lemma expr_fail c s : is_ws c = false → is_expr_start c = false → run expr (String c s) = None.
Proof.
  intros Hw [Hc Hb%Ascii.eqb_neq]%orb_false_iff. rewrite run_expr.
  do 2 (apply map_fail, then_fail). apply map_fail, then_fail. do 2 (apply map_fail, then_fail).
  apply map_fail. eapply then_fail_2.
  - by apply repeated_stop, bang_fail.
  - apply map_fail, then_fail. by apply primary_fail.
Qed.

(** ** Atoms *)
Lemma str_lit_ok x r : all_chars (λ c, negb (Ascii.eqb c quote)) x = true → no_ws r →
  run str_lit (String quote (x +:+ String quote r)) = Some (Expr.Str x, r).
Proof.
  intros Hx Hr. apply map_ok, padded_ok; [by apply no_ws_cons|done|].
  eapply then_ignore_ok; [eapply ignore_then_ok; [done|]|].
  - eapply (map_to _ _ _ (String.list_ascii_of_string x)); [|apply String.string_of_list_ascii_of_string].
    instantiate (1 := String quote r). unfold repeated. simpl. unfold repeated_run.
    assert (many_run (none_of_run quote) (x +:+ String quote r) =
      (String.list_ascii_of_string x, String quote r)) as ->; [|done].
    induction x as [|c x IH]; [by apply many_stop|]. simpl in Hx.
    apply andb_true_iff in Hx as [Hc%negb_true_iff Hx]. rewrite append_cons, many_run_unfold.
    + cbn [none_of_run]. rewrite Hc. by rewrite IH.
    + apply none_of_run_agree.
  - done.
Qed.
Lemma hex_ident_char c : is_hex_digit c = true → is_ident_char c = true.
Proof.
  unfold is_hex_digit, is_ident_char, is_ident_start, is_upper, is_lower, is_digit.
  rewrite !orb_true_iff, !andb_true_iff, !Nat.leb_le, Nat.eqb_eq. lia.
Qed.
Lemma digit_ident_char c : is_digit c = true → is_ident_char c = true.
Proof. unfold is_ident_char. intros ->. by rewrite orb_true_r. Qed.
Lemma digit_no_ws c : is_digit c = true → is_ws c = false.
Proof.
  unfold is_digit, is_ws. rewrite andb_true_iff, !Nat.leb_le. intros Hc.
  apply not_true_iff_false. rewrite orb_true_iff, andb_true_iff, !Nat.leb_le, Nat.eqb_eq. lia.
Qed.
Lemma hex_no_ws c : is_hex_digit c = true → is_ws c = false.
Proof.
  intros Hc%hex_ident_char. unfold is_ident_char in Hc. apply orb_true_iff in Hc as [?|?].
  - by apply ident_start_no_ws.
  - by apply digit_no_ws.
Qed.
Lemma hex_digits_ok ds r : all_chars is_hex_digit ds = true → ds ≠ "" → ends_word r → no_ws r →
  run hex_digits (ds +:+ r) = Some (ds, r).
Proof.
  intros Hds Hne Hw Hr. apply padded_ok; [|done|].
  - destruct ds as [|c ds]; [done|]. simpl in Hds. apply andb_true_iff in Hds as [Hc _].
    by apply no_ws_cons, hex_no_ws.
  - unfold text_digits16. simpl. unfold hex_run. rewrite span_app; [by destruct ds|done|].
    destruct r as [|c r]; [done|]. simpl in Hw. apply not_true_iff_false. intros Hc%hex_ident_char.
    congruence.
Qed.
(** What an address prints as. *)
Lemma address_text a : wf_address a → ∃ ds, address_to_string a = "0x" +:+ ds ∧
  all_chars is_hex_digit ds = true ∧ ds ≠ "" ∧ make_address ds = Some a.
Proof.
  intros Hwf. pose proof (address_from_to_string a Hwf) as Hrt. destruct Hwf as [Hlen Hb].
  unfold address_to_string in *. destruct (hex_encode_digits _ Hb) as (ds & Heq & Hds & Hl).
  exists ds. rewrite Heq in *. split_and!; [done|done| |].
  - intros ->. rewrite Hlen in Hl. done.
  - unfold make_address. by rewrite Hrt.
Qed.
Lemma addr_lit_ok a r : wf_address a → ends_word r → no_ws r →
  run addr_lit ("@" +:+ address_to_string a +:+ r) = Some (Expr.Address a, r).
Proof.
  intros (ds & -> & Hds & Hne & Ha)%address_text Hw Hr. apply map_ok. eapply try_map_ok; [|exact Ha].
  rewrite append_assoc. change ("@" +:+ "0x" +:+ ds +:+ r) with ("@0x" +:+ ds +:+ r).
  eapply ignore_then_ok; [|by apply hex_digits_ok].
  apply padded_ok; [done| |]; [|unfold just; simpl; unfold just_run; by rewrite strip_prefix_app].
  destruct ds as [|c ds]; [done|]. simpl in Hds. apply andb_true_iff in Hds as [Hc _].
  by apply no_ws_cons, hex_no_ws.
Qed.
Lemma int_text n : in_u64 n → ∃ c s, pretty (Z.to_N n) = String c s ∧ is_digit c = true ∧
  all_chars is_digit s = true ∧ (c = "0"%char → s = "").
Proof.
  intros Hn. unfold pretty, pretty_N. case_decide as Hz.
  - by exists "0"%char, "".
  - destruct (pretty_go_head (Z.to_N n)) with (s := "") as (c & s & Hp & Hc & Hne); [lia|].
    pose proof (pretty_go_digits (Z.to_N n) "" eq_refl) as Hd. rewrite Hp in *. simpl in Hd.
    apply andb_true_iff in Hd as [_ Hd]. by exists c, s.
Qed.
Lemma int_lit_ok n r : in_u64 n → ends_word r → no_ws r →
  run int_lit (pretty (Z.to_N n) +:+ r) = Some (Expr.Int n, r).
Proof.
  intros Hn Hw Hr. destruct (int_text n Hn) as (c & s & Hp & Hc & Hs & H0).
  apply padded_ok; [|done|].
  { rewrite Hp. by apply no_ws_cons, digit_no_ws. }
  apply (try_map_ok _ _ _ (pretty (Z.to_N n))); [|by rewrite parse_u64_pretty].
  rewrite Hp. change (int_run (String c (s +:+ r)) = Some (String c s, r)). unfold int_run.
  destruct (Ascii.eqb_spec c "0") as [->|Hne]; [by rewrite H0|]. rewrite Hc.
  change (String c (s +:+ r)) with (String c s +:+ r). rewrite span_app; [done|simpl; by rewrite Hc|].
  destruct r as [|d r]; [done|]. simpl in Hw. apply not_true_iff_false. intros Hd%digit_ident_char.
  congruence.
Qed.

(** ** Names *)
Lemma split_once_Some s a b : split_once s = Some (a, b) → s = a +:+ "::" +:+ b.
Proof.
  revert a. induction s as [|c s IH]; intros a; [done|]. destruct s as [|d s]; [done|].
  rewrite split_once_cons. case_match eqn:Hc.
  - apply andb_true_iff in Hc as [->%Ascii.eqb_eq ->%Ascii.eqb_eq]. by intros; simplify_eq.
  - destruct (split_once (String d s)) as [[a' b']|]; intros; simplify_eq/=.
    rewrite append_cons. f_equal. by apply IH.
Qed.
Lemma qualified_inv first n : is_qualified_by first n = true →
  (is_ident n = true ∧ first n = true) ∨
  ∃ a b, n = a +:+ "::" +:+ b ∧ is_ident a = true ∧ first a = true ∧ is_ident b = true.
Proof.
  unfold is_qualified_by. destruct (split_once n) as [[a b]|] eqn:Hs.
  - intros [[? ?]%andb_true_iff ?]%andb_true_iff. apply split_once_Some in Hs. right. by exists a, b.
  - intros [? ?]%andb_true_iff. by left.
Qed.
Definition no_colon (s : string) : Prop := match s with String c _ => c ≠ ":"%char | _ => True end.
Lemma double_colon_fail s : no_colon s → just_run "::" s = None.
Proof. destruct s as [|c s]; [done|]. intros Hc. apply just_fail. congruence. Qed.

Lemma name_ok n r : wf_name n = true → ends_word r → no_ws r → no_colon r →
  run (map_p make_name (then_ (padded ascii_ident)
    (or_not (ignore_then (just "::") (padded ascii_ident))))) (n +:+ r) = Some (n, r).
Proof.
  intros [[Hn _]|(a & b & -> & Ha & _ & Hb)]%qualified_inv Hw Hr Hc.
  - eapply (map_to _ _ _ (n, None)); [|done]. eapply then_ok; [by apply ident_ok|].
    apply or_not_none, ignore_then_fail. by apply double_colon_fail.
  - rewrite !append_assoc. eapply (map_to _ _ _ (a, Some b)); [|done].
    eapply then_ok; [by apply ident_ok|]. apply or_not_ok. eapply ignore_then_ok; [done|].
    by apply ident_ok.
Qed.
Lemma name_not_literal n r : wf_name n = true → ends_word r → run bool_lit (n +:+ r) = None.
Proof.
  intros Hn Hw. assert (∃ a s, n +:+ r = a +:+ s ∧ is_ident a = true ∧ ends_word s ∧
    is_literal_word a = false) as (a & s & -> & Ha & Hs & Hl).
  { apply qualified_inv in Hn as [[Hn Hl]|(a & b & -> & Ha & Hl & Hb)]; apply negb_true_iff in Hl.
    - by exists n, r.
    - exists a, ("::" +:+ b +:+ r). by rewrite !append_assoc. }
  apply padded_fail; [by apply ident_no_ws|]. apply orb_false_iff in Hl as [Ht Hf].
  apply choice_next; [|apply choice_next; [|done]]; apply map_fail; simpl; unfold keyword_run;
    rewrite ident_run_ok by done; simpl; [by rewrite Ht|by rewrite Hf].
Qed.
Lemma name_head n : wf_name n = true → head_in is_ident_start n.
Proof.
  intros [[Hn _]|(a & b & -> & Ha & _ & Hb)]%qualified_inv.
  - destruct n; [done|]. by apply andb_true_iff in Hn as [? _].
  - destruct a; [done|]. by apply andb_true_iff in Ha as [? _].
Qed.
Lemma head_in_app f s r : head_in f s → head_in f (s +:+ r).
Proof. by destruct s. Qed.
Lemma head_in_mono f g s : (∀ c, f c = true → g c = true) → head_in f s → head_in g s.
Proof. destruct s; simpl; auto. Qed.

(** The literals do not start like a name. *)
Lemma ident_start_other c : is_ident_start c = true →
  c ≠ quote ∧ c ≠ "@"%char ∧ c ≠ "("%char ∧ c ≠ "!"%char ∧ is_digit c = false ∧ is_ws c = false.
Proof.
  intros Hc. split_and!; try (by intros ->); [|by apply ident_start_no_ws].
  unfold is_ident_start, is_upper, is_lower, is_digit in *.
  rewrite !orb_true_iff, !andb_true_iff, !Nat.leb_le, Nat.eqb_eq in Hc.
  apply not_true_iff_false. rewrite andb_true_iff, !Nat.leb_le. lia.
Qed.
Lemma primary_ident n s res : wf_name n = true → ends_word s →
  run (ident_expr expr) (n +:+ s) = Some res → run (primary expr) (n +:+ s) = Some res.
Proof.
  intros Hn Hs He. pose proof (name_head n Hn) as Hh.
  assert (head_in is_ident_start (n +:+ s)) as Hh' by by apply head_in_app.
  apply choice_next; [by apply name_not_literal|].
  destruct (n +:+ s) as [|c t] eqn:Ht; [done|]. simpl in Hh'.
  destruct (ident_start_other c Hh') as (Hq & Ha & Hp & _ & Hd & Hw).
  apply choice_next; [by apply str_lit_fail|]. apply choice_next; [by apply addr_lit_fail|].
  apply choice_next; [by apply int_lit_fail|]. by apply choice_ok.
Qed.

(** ** Lists *)
Lemma commas_cons {A} (t : A → string) x l R :
  commas (map t (x :: l)) +:+ R = t x +:+ foldr (λ y s, "," +:+ t y +:+ s) R l.
Proof.
  revert x. induction l as [|y l IH]; intros x; [done|].
  change (commas (map t (x :: y :: l))) with (t x +:+ "," +:+ commas (map t (y :: l))).
  by rewrite !append_assoc, IH.
Qed.
Lemma separated_ok {A} (p : CParser A) (t : A → string) l k tr R :
  (∀ n, agree true n (run p) (run p)) →
  (∀ x s, x ∈ l → (∃ s', s = "," +:+ s') ∨ s = R → run p (t x +:+ s) = Some (x, s)) →
  (∀ x s, x ∈ l → no_ws (t x +:+ s)) →
  (l = [] → run p R = None) →
  ignore_then_run (run (punct ",")) (run p) R = None →
  (tr = true → run (punct ",") R = None) → k ≤ length l →
  run (separated_by k tr p (punct ",")) (commas (map t l) +:+ R) = Some (l, R).
Proof.
  intros Hag Hp Hws Hnil Hend Htr Hk.
  change (at_least_run k (separated_items tr (run p) (run (punct ",")) (commas (map t l) +:+ R)) = Some (l, R)).
  apply at_least_Some. split; [|done]. clear Hk. unfold separated_items.
  destruct l as [|x l].
  { change (commas (map t []) +:+ R) with R. by rewrite (Hnil eq_refl). }
  rewrite commas_cons.
  assert (many_run (ignore_then_run (run (punct ",")) (run p)) (foldr (λ y s, "," +:+ t y +:+ s) R l) =
    (l, R)) as Hm.
  { assert (∀ y, y ∈ l → y ∈ x :: l) as Hsub by (by right). clear Hnil. revert Hsub.
    induction l as [|y l IH]; intros Hsub; [by apply many_stop|]. cbn [foldr]. rewrite many_run_unfold.
    - assert (y ∈ x :: y :: l) as Hy by (apply Hsub; by left).
      rewrite (ignore_then_ok _ _ _ "," (t y +:+ foldr (λ y s, "," +:+ t y +:+ s) R l)
        (Some (y, foldr (λ y s, "," +:+ t y +:+ s) R l))).
      + rewrite IH; [done|..].
        * intros z s Hz. apply Hp. apply elem_of_cons in Hz as [->|Hz]; [by left|by right; right].
        * intros z s Hz. apply Hws. apply elem_of_cons in Hz as [->|Hz]; [by left|by right; right].
        * intros z Hz. by right.
      + apply punct_ok; [done|]. by apply Hws.
      + apply Hp; [done|]. destruct l as [|z l]; [by right|]. left. by eexists.
    - apply (ignore_then_run_agree true true); [|intros; apply Hag].
      by apply (agree_punct std_chumsky std_chumsky). }
  rewrite Hp; [| |]; [|by left|destruct l as [|z l]; [by right|left; by eexists]].
  rewrite Hm. destruct tr; [|done]. by rewrite Htr.
Qed.

(** ** Expressions *)
Lemma primary_no_bang s : head_in is_primary_start s → not_bang s ∧ no_ws s.
Proof.
  destruct s as [|c s]; [done|]. simpl. intros Hc.
  assert (is_ws c = false) as Hw.
  { unfold is_primary_start in Hc. rewrite !orb_true_iff, !Ascii.eqb_eq in Hc.
    destruct Hc as [[[[Hc|Hc]|Hc]|Hc]|Hc]; [by apply ident_start_no_ws|by apply digit_no_ws|by subst..]. }
  split_and!; [|done|by apply no_ws_cons]. by intros ->.
Qed.
Lemma expr_start_no_ws s : head_in is_expr_start s → no_ws s.
Proof.
  destruct s as [|c s]; [done|]. simpl. unfold is_expr_start. intros [Hc|Hc%Ascii.eqb_eq]%orb_true_iff.
  - by apply (primary_no_bang (String c s)).
  - subst. done.
Qed.

Lemma paren_ok b e r : head_in is_expr_start b → no_ws r →
  run expr (b +:+ ")" +:+ r) = Some (e, ")" +:+ r) →
  run (primary expr) ("(" +:+ b +:+ ")" +:+ r) = Some (e, r).
Proof.
  intros Hb Hr He. assert (no_ws (b +:+ ")" +:+ r)) as Hws by by apply expr_start_no_ws, head_in_app.
  apply choice_next; [by apply bool_lit_fail|]. apply choice_next; [by apply str_lit_fail|].
  apply choice_next; [by apply addr_lit_fail|]. apply choice_next; [by apply int_lit_fail|].
  apply choice_next; [by apply ident_expr_fail|]. apply choice_next.
  - apply map_fail. eapply ignore_then_ok; [by apply punct_ok|].
    apply then_ignore_fail, then_fail. eapply then_ignore_fail_2; [exact He|]. by apply punct_fail.
  - apply choice_ok. eapply ignore_then_ok; [by apply punct_ok|].
    eapply then_ignore_ok; [exact He|]. by apply punct_ok.
Qed.

(** From the text without parentheses, at its own level, to every level. *)
Definition reads (e : Expr.t) (k : nat) : Prop :=
  ∀ r, stopped k r → run (lvl k) (print k e +:+ r) = Some (e, r).
Definition body (e : Expr.t) : string := print 0 e.
Lemma print_body k e : print k e = if level e <? k then "(" +:+ body e +:+ ")" else body e.
Proof. unfold body. destruct e; cbn [print level]; try done; by destruct op. Qed.

Lemma reads_all e : head_in is_expr_start (body e) →
  (6 ≤ level e → head_in is_primary_start (body e)) →
  (∀ r, stopped (level e) r → run (lvl (level e)) (body e +:+ r) = Some (e, r)) →
  ∀ k, k ≤ 7 → reads e k.
Proof.
  intros Hh Hp Hown k Hk r Hr. rewrite print_body.
  assert (level e ≤ 7) as Hl by (destruct e; simpl; try lia; destruct op; simpl; lia).
  assert (∀ k' s, k' ≤ level e → stopped k' s → run (lvl k') (body e +:+ s) = Some (e, s)) as Hlow.
  { intros k' s Hk' Hs. apply (lift_to _ (level e)); [|done|by apply stopped_ended|].
    - apply Hown. by eapply stopped_mono.
    - destruct (decide (level e ≤ 5)); [by left|right].
      apply primary_no_bang, head_in_app, Hp. lia. }
  destruct (Nat.ltb_spec (level e) k) as [Hlt|Hge]; [|by apply Hlow].
  rewrite !append_assoc. apply (lift_to _ 7); [|lia|by apply stopped_ended|by right].
  apply paren_ok; [done|by eapply stopped_no_ws|]. rewrite run_expr. apply (Hlow 0); [lia|]. by left.
Qed.

Lemma body_binop l op r :
  body (Expr.BinOp l op r) = print (left_level op) l +:+ op_text op +:+ print (S (op_level op)) r.
Proof. reflexivity. Qed.

(** What the text of an expression starts with. *)
Lemma print_start k e : head_in is_expr_start (body e) → head_in is_expr_start (print k e).
Proof. intros Hb. rewrite print_body. by destruct (level e <? k). Qed.
Lemma body_start e : wf_expr e = true →
  head_in is_expr_start (body e) ∧ (6 ≤ level e → head_in is_primary_start (body e)).
Proof.
  assert (∀ n s, head_in is_primary_start s →
    head_in is_expr_start s ∧ (6 ≤ n → head_in is_primary_start s)) as Hprim.
  { intros n s Hs. split; [|done]. eapply head_in_mono, Hs. intros c Hc. unfold is_expr_start. by rewrite Hc. }
  assert (∀ n s, wf_name n = true → head_in is_primary_start (n +:+ s)) as Hname.
  { intros n s Hn. apply head_in_app. eapply head_in_mono, name_head, Hn.
    intros c Hc. unfold is_primary_start. by rewrite Hc. }
  induction e as [b|n|a|x|x|l op r IHl IHr|e f IHe|n fs IH|n args IH|items IH|op e IHe] using Expr.ind';
    intros Hwf; simpl in Hwf.
  - apply Hprim. by destruct b.
  - apply Hprim. apply bool_decide_eq_true in Hwf.
    destruct (int_text n Hwf) as (c & s & Hp & Hc & _). change (body (Expr.Int n)) with (pretty (Z.to_N n)).
    rewrite Hp. simpl. unfold is_primary_start. rewrite Hc. by rewrite orb_true_r.
  - by apply Hprim.
  - by apply Hprim.
  - apply Hprim. rewrite <-(append_nil (body _)). by apply Hname.
  - apply andb_true_iff in Hwf as [Hl Hr]. rewrite body_binop. split.
    + apply head_in_app, print_start. by apply IHl.
    + destruct op; simpl; lia.
  - apply andb_true_iff in Hwf as [He Hf]. apply Hprim.
    change (body (Expr.FieldAccess e f)) with (print 6 e +:+ "." +:+ f). apply head_in_app.
    rewrite print_body. destruct (Nat.ltb_spec (level e) 6); [done|].
    by apply IHe.
  - apply andb_true_iff in Hwf as [Hn _]. apply Hprim. by apply Hname.
  - apply andb_true_iff in Hwf as [Hn _]. apply Hprim. by apply Hname.
  - apply Hprim. by destruct items.
  - split; [done|]. simpl. lia.
Qed.
Lemma start_no_ws k e s : wf_expr e = true → no_ws (print k e +:+ s).
Proof. intros Hwf. apply expr_start_no_ws, head_in_app, print_start. by apply body_start. Qed.
Lemma start_not_eq k e s : wf_expr e = true → match print k e +:+ s with String c _ => c ≠ "="%char | _ => True end.
Proof.
  intros Hwf. assert (head_in is_expr_start (print k e +:+ s)) as Hh
    by by apply head_in_app, print_start, body_start.
  destruct (print k e +:+ s) as [|c t]; [done|]. simpl in Hh. by intros ->.
Qed.

(** ** Operators *)
Definition op_parser (k : nat) : CParser BinOp.t :=
  match k with 0 => or_op | 1 => and_op | 2 => cmp_op | 3 => add_op | _ => mul_op end.
Lemma op_ok op s : no_ws s → (match s with String c _ => c ≠ "="%char | _ => True end) →
  run (op_parser (op_level op)) (op_text op +:+ s) = Some (op, s).
Proof.
  intros Hs Hne. assert (∀ c, is_ws c = false →
    run (punct (String c "=")) (String c s) = None) as Heq.
  { intros c Hc. apply padded_fail; [by apply no_ws_cons|].
    change (just_run (String c "=") (String c s) = None). unfold just_run. cbn [strip_prefix].
    rewrite Ascii.eqb_refl. destruct s as [|d s]; [done|]. cbn [strip_prefix].
    by rewrite (proj2 (Ascii.eqb_neq "=" d)) by congruence. }
  destruct op; simpl op_level; simpl op_text; unfold op_parser;
    repeat (apply choice_next; [first [reflexivity|by apply map_fail, Heq]|]); try apply choice_ok;
    (eapply map_to; [by apply punct_ok|done]).
Qed.
Lemma op_stopped op s : stopped (S (op_level op)) (op_text op +:+ s).
Proof. destruct op; simpl; apply list_elem_of_In; vm_compute; tauto. Qed.

(** ** Chains of operators

    The operators that associate to the left: a text of level [k] starts with an
    operand, and the loop behind it reads the rest of the chain. *)
Definition chain_level (k : nat) : Prop := k ∈ [0; 1; 3; 4].
Lemma chain_level_le k : chain_level k → k ≤ 4 ∧ k ≠ 2.
Proof. intros Hk. repeat (apply elem_of_cons in Hk as [->|Hk]; [lia|]). by apply elem_of_nil in Hk. Qed.
Definition chain_item (k : nat) : CParser (BinOp.t * Expr.t) := then_ (op_parser k) (lvl (S k)).
Lemma lvl_chain k : chain_level k → lvl k = chain (lvl (S k)) (op_parser k).
Proof. intros Hk. repeat (apply elem_of_cons in Hk as [->|Hk]; [done|]). by apply elem_of_nil in Hk. Qed.
Lemma agree_chain_item k n : chain_level k → agree true n (run (chain_item k)) (run (chain_item k)).
Proof.
  intros Hk. assert (∀ m, agree true m (run (lvl (S k))) (run (lvl (S k)))) as Hop.
  { intros m. repeat (apply elem_of_cons in Hk as [->|Hk]); [..|by apply elem_of_nil in Hk].
    - apply (agree_and_ std_chumsky std_chumsky). intros. apply (agree_expr std_chumsky std_chumsky).
    - apply (agree_cmp std_chumsky std_chumsky). intros. apply (agree_expr std_chumsky std_chumsky).
    - apply (agree_mul std_chumsky std_chumsky). intros. apply (agree_expr std_chumsky std_chumsky).
    - apply (agree_unary std_chumsky std_chumsky). intros. apply (agree_expr std_chumsky std_chumsky). }
  apply (then_run_agree _ _ true true); [|intros; apply Hop].
  repeat (apply elem_of_cons in Hk as [->|Hk]); [..|by apply elem_of_nil in Hk].
  - by apply (agree_or_op std_chumsky std_chumsky).
  - by apply (agree_and_op std_chumsky std_chumsky).
  - by apply (agree_add_op std_chumsky std_chumsky).
  - by apply (agree_mul_op std_chumsky std_chumsky).
Qed.
Lemma chain_item_stop k s : chain_level k → stopped k s → run (chain_item k) s = None.
Proof.
  intros Hk Hs%stopped_ended. apply then_fail.
  repeat (apply elem_of_cons in Hk as [->|Hk]); [..|by apply elem_of_nil in Hk].
  - by apply or_op_stop.
  - by apply and_op_stop.
  - by apply add_op_stop.
  - by apply mul_op_stop.
Qed.

Definition opens (k : nat) (e : Expr.t) : Prop := ∀ r, stopped (S k) r →
  ∃ b r1, run (lvl (S k)) (print k e +:+ r) = Some (b, r1) ∧
    ∀ l r2, many_run (run (chain_item k)) r = (l, r2) →
      ∃ l', many_run (run (chain_item k)) r1 = (l' ++ l, r2) ∧ make_binops (b, l') = e.

(** An expression that is not such a chain is its own operand. *)
Lemma opens_operand k e : level e ≠ k → reads e (S k) → opens k e.
Proof.
  intros Hl Hr r Hs. exists e, r. split.
  - rewrite print_body. specialize (Hr r Hs). rewrite print_body in Hr.
    destruct (Nat.ltb_spec (level e) k), (Nat.ltb_spec (level e) (S k)); try lia; done.
  - intros l r2 Hm. exists []. done.
Qed.
Lemma opens_binop k l op x : chain_level k → op_level op = k → wf_expr x = true →
  opens k l → reads x (S k) → opens k (Expr.BinOp l op x).
Proof.
  intros Hk Hop Hwf Hl Hx r Hs.
  assert (left_level op = k) as Hll.
  { unfold left_level. rewrite Hop. destruct (Nat.eqb_spec k 2) as [->|]; [|done].
    apply chain_level_le in Hk. lia. }
  rewrite print_body. cbn [level]. rewrite Hop, Nat.ltb_irrefl, body_binop, Hll, Hop, !append_assoc.
  destruct (Hl (op_text op +:+ print (S k) x +:+ r)) as (b & r1 & Hb & Hm).
  { rewrite <-Hop. apply op_stopped. }
  exists b, r1. split; [done|]. intros l0 r2 Hl0.
  destruct (Hm ((op, x) :: l0) r2) as (l' & Hl' & Hf).
  - rewrite many_run_unfold by by apply agree_chain_item.
    assert (run (chain_item k) (op_text op +:+ print (S k) x +:+ r) = Some ((op, x), r)) as ->.
    { eapply then_ok; [|by apply Hx]. rewrite <-Hop at 1.
      apply op_ok; [by apply start_no_ws|by apply start_not_eq]. }
    by rewrite Hl0.
  - exists (l' ++ [(op, x)]). split; [by rewrite <-app_assoc|].
    unfold make_binops in *. cbn [fst snd] in *. rewrite fold_left_app. cbn [fold_left]. by rewrite Hf.
Qed.
Lemma opens_reads k e : chain_level k → opens k e → reads e k.
Proof.
  intros Hk Ho r Hs. destruct (Ho r) as (b & r1 & Hb & Hm); [by eapply stopped_mono; [|done]; lia|].
  destruct (Hm [] r) as (l' & Hl' & Hf); [by apply many_stop, chain_item_stop|].
  rewrite app_nil_r in Hl'. rewrite lvl_chain by done. unfold chain.
  eapply (map_to _ _ _ (b, l')); [|done]. eapply then_ok; [done|].
  change (repeated_run 0 (run (chain_item k)) r1 = Some (l', r)). unfold repeated_run. by rewrite Hl'.
Qed.

(** Field accesses, in the same way. *)
Definition opens_fields (e : Expr.t) : Prop := ∀ r, stopped 7 r →
  ∃ b r1, run (primary expr) (print 6 e +:+ r) = Some (b, r1) ∧
    ∀ l r2, many_run (run postfix_op) r = (l, r2) →
      ∃ l', many_run (run postfix_op) r1 = (l' ++ l, r2) ∧ fold_left Expr.FieldAccess l' b = e.
Lemma opens_primary e : level e ≠ 6 → reads e 7 → opens_fields e.
Proof.
  intros Hl Hr r Hs. exists e, r. split.
  - rewrite print_body. specialize (Hr r Hs). rewrite print_body in Hr.
    destruct (Nat.ltb_spec (level e) 6), (Nat.ltb_spec (level e) 7); try lia; done.
  - intros l r2 Hm. by exists [].
Qed.
Lemma opens_field e f : is_ident f = true → opens_fields e → opens_fields (Expr.FieldAccess e f).
Proof.
  intros Hf He r Hs. change (print 6 (Expr.FieldAccess e f)) with (print 6 e +:+ "." +:+ f).
  rewrite !append_assoc. destruct (He ("." +:+ f +:+ r)) as (b & r1 & Hb & Hm).
  { simpl. apply list_elem_of_In. vm_compute. tauto. }
  exists b, r1. split; [done|]. intros l0 r2 Hl0. destruct (Hm (f :: l0) r2) as (l' & Hl' & Hfold).
  - rewrite many_run_unfold by by apply (agree_postfix_op std_chumsky std_chumsky).
    assert (run postfix_op ("." +:+ f +:+ r) = Some (f, r)) as ->; [|by rewrite Hl0].
    eapply ignore_then_ok.
    + apply punct_ok; [done|]. by apply ident_no_ws.
    + apply ident_ok; [done|by eapply stopped_word|by eapply stopped_no_ws].
  - exists (l' ++ [f]). split; [by rewrite <-app_assoc|]. rewrite fold_left_app. cbn [fold_left]. by rewrite Hfold.
Qed.
Lemma opens_fields_reads e : opens_fields e → reads e 6.
Proof.
  intros Ho r Hs. destruct (Ho r) as (b & r1 & Hb & Hm); [by eapply stopped_mono; [|done]; lia|].
  destruct (Hm [] r) as (l' & Hl' & Hf); [by apply many_stop, postfix_op_stop, stopped_ended|].
  rewrite app_nil_r in Hl'. eapply (map_to _ _ _ (b, l')); [|done]. eapply then_ok; [done|].
  change (repeated_run 0 (run postfix_op) r1 = Some (l', r)). unfold repeated_run. by rewrite Hl'.
Qed.

(** ** The texts of expressions are read back *)
Lemma expr_ok e r : reads e 0 → stopped 0 r → run expr (print 0 e +:+ r) = Some (e, r).
Proof. intros He Hr. rewrite run_expr. by apply He. Qed.
Lemma comma_stop s : stopped 0 ("," +:+ s).
Proof. apply list_elem_of_In. vm_compute. tauto. Qed.
Lemma args_ok es c r : c ∈ [")"; "}"]%char → Forall (λ e, wf_expr e = true ∧ reads e 0) es →
  run (separated_by 0 true expr (punct ",")) (commas (map (print 0) es) +:+ String c r) =
    Some (es, String c r).
Proof.
  intros Hc Hes. rewrite list.Forall_forall in Hes.
  assert (stopped 0 (String c r)) as Hs.
  { repeat (apply elem_of_cons in Hc as [->|Hc]); [..|by apply elem_of_nil in Hc];
      apply list_elem_of_In; vm_compute; tauto. }
  assert (run (punct ",") (String c r) = None) as Hcomma.
  { repeat (apply elem_of_cons in Hc as [->|Hc]); [done..|by apply elem_of_nil in Hc]. }
  apply separated_ok; [..|lia].
  - intros n. apply (agree_expr std_chumsky std_chumsky).
  - intros e s He Hr. apply expr_ok; [by apply Hes|].
    destruct Hr as [[s' ->]| ->]; [apply comma_stop|done].
  - intros e s He. by apply start_no_ws, Hes.
  - intros _. repeat (apply elem_of_cons in Hc as [->|Hc]); [by apply expr_fail..|by apply elem_of_nil in Hc].
  - by apply ignore_then_fail.
  - done.
Qed.
Lemma call_args_ok es r : no_ws r → Forall (λ e, wf_expr e = true ∧ reads e 0) es →
  run (call_args expr) ("(" +:+ commas (map (print 0) es) +:+ ")" +:+ r) = Some (es, r).
Proof.
  intros Hr Hes. eapply ignore_then_ok; [apply punct_ok; [done|]|].
  - destruct es as [|e es]; [done|]. rewrite commas_cons. apply list.Forall_cons in Hes as [[He _] _].
    by apply start_no_ws.
  - eapply then_ignore_ok; [apply args_ok; [by left|done]|]. by apply punct_ok.
Qed.
Definition field_text (f : string * Expr.t) : string := fst f +:+ ":" +:+ print 0 (snd f).
Lemma struct_fields_ok fs r : no_ws r →
  Forall (λ f, is_ident (fst f) = true ∧ wf_expr (snd f) = true ∧ reads (snd f) 0) fs →
  run (struct_fields expr) ("{" +:+ commas (map field_text fs) +:+ "}" +:+ r) = Some (fs, r).
Proof.
  intros Hr Hfs. rewrite list.Forall_forall in Hfs.
  assert (∀ f s, f ∈ fs → no_ws (field_text f +:+ s)) as Hws.
  { intros f s Hf. unfold field_text. rewrite append_assoc. by apply ident_no_ws, Hfs. }
  eapply ignore_then_ok; [apply punct_ok; [done|]|].
  { destruct fs as [|f fs]; [done|]. rewrite commas_cons. apply Hws. by left. }
  eapply then_ignore_ok; [|by apply punct_ok]. apply separated_ok; [..|done|done|done|simpl; lia].
  - intros n. pose proof std_chumsky_laws. solve_agree.
  - intros [x e] s Hf Hs. destruct (Hfs _ Hf) as (Hx & He & Hread). cbn [fst snd] in *.
    unfold field_text. cbn [fst snd]. rewrite !append_assoc. eapply then_ok.
    + eapply then_ignore_ok; [by apply ident_ok|]. apply punct_ok; [done|]. by apply start_no_ws.
    + apply expr_ok; [done|]. destruct Hs as [[s' ->]| ->]; [apply comma_stop|].
      apply list_elem_of_In. vm_compute. tauto.
  - done.
Qed.

Lemma suffix_ok n sfx s r : wf_name n = true → ends_word s → no_ws s → no_colon s →
  run (choice [map_p Suffix_Call (call_args expr); map_p Suffix_Struct (struct_fields expr);
               map_p (λ _, Suffix_None) empty_p]) s = Some (sfx, r) →
  run (primary expr) (n +:+ s) = Some (make_ident_expr (n, sfx), r).
Proof.
  intros Hn Hw Hs Hc Hsfx. apply primary_ident; [done|done|]. apply map_ok. eapply then_ok; [|exact Hsfx].
  by apply name_ok.
Qed.
Lemma stopped_no_colon k s : stopped k s → no_colon s.
Proof.
  destruct s as [|c s]; [done|]. intros Hc. apply (stops_char k). by right.
Qed.

Lemma reads_atom e : level e = 7 → wf_expr e = true →
  (∀ r, stopped 7 r → run (primary expr) (body e +:+ r) = Some (e, r)) → ∀ k, k ≤ 7 → reads e k.
Proof.
  intros Hl Hwf Hown. destruct (body_start e Hwf) as [H1 H2]. apply reads_all; [done|done|].
  rewrite Hl. exact Hown.
Qed.

Lemma read_ident n : wf_name n = true → ∀ k, k ≤ 7 → reads (Expr.Ident n) k.
Proof.
  intros Hn. apply reads_atom; [done|done|]. intros r Hr.
  change (Expr.Ident n) with (make_ident_expr (n, Suffix_None)).
  change (body (make_ident_expr (n, Suffix_None))) with n.
  apply suffix_ok; [done|by eapply stopped_word|by eapply stopped_no_ws|by eapply stopped_no_colon|].
  stop_cases Hr; reflexivity.
Qed.
Lemma read_call n args : wf_name n = true → Forall (λ e, wf_expr e = true ∧ reads e 0) args →
  forallb wf_expr args = true → ∀ k, k ≤ 7 → reads (Expr.Call n args) k.
Proof.
  intros Hn Hargs Hwf. apply reads_atom; [done|by cbn; rewrite Hn|]. intros r Hr.
  change (Expr.Call n args) with (make_ident_expr (n, Suffix_Call args)).
  change (body (make_ident_expr (n, Suffix_Call args))) with (n +:+ "(" +:+ commas (map (print 0) args) +:+ ")").
  rewrite !append_assoc. apply suffix_ok; [done..|]. apply choice_ok, map_ok.
  apply call_args_ok; [by eapply stopped_no_ws|done].
Qed.
Lemma read_struct n fs : wf_name n = true →
  Forall (λ f, is_ident (fst f) = true ∧ wf_expr (snd f) = true ∧ reads (snd f) 0) fs →
  wf_expr (Expr.StructLit n fs) = true → ∀ k, k ≤ 7 → reads (Expr.StructLit n fs) k.
Proof.
  intros Hn Hfs Hwf. apply reads_atom; [done|done|]. intros r Hr.
  change (Expr.StructLit n fs) with (make_ident_expr (n, Suffix_Struct fs)).
  change (body (make_ident_expr (n, Suffix_Struct fs))) with (n +:+ "{" +:+ commas (map field_text fs) +:+ "}").
  rewrite !append_assoc. apply suffix_ok; [done..|]. apply choice_next; [|apply choice_ok, map_ok].
  - apply map_fail. apply ignore_then_fail. by apply punct_fail.
  - apply struct_fields_ok; [by eapply stopped_no_ws|done].
Qed.
Lemma read_tuple e es : wf_expr e = true → reads e 0 →
  Forall (λ e, wf_expr e = true ∧ reads e 0) es → wf_expr (Expr.Tuple (e :: es)) = true →
  ∀ k, k ≤ 7 → reads (Expr.Tuple (e :: es)) k.
Proof.
  intros He Hr0 Hes Hwf. apply reads_atom; [done|done|]. intros r Hr.
  change (body (Expr.Tuple (e :: es))) with ("(" +:+ print 0 e +:+ "," +:+ commas (map (print 0) es) +:+ ")").
  rewrite !append_assoc.
  apply choice_next; [by apply bool_lit_fail|]. apply choice_next; [by apply str_lit_fail|].
  apply choice_next; [by apply addr_lit_fail|]. apply choice_next; [by apply int_lit_fail|].
  apply choice_next; [by apply ident_expr_fail|]. apply choice_ok.
  eapply (map_to _ _ _ (e, es)); [|done]. eapply ignore_then_ok; [apply punct_ok; [done|by apply start_no_ws]|].
  eapply then_ignore_ok; [|apply punct_ok; [done|by eapply stopped_no_ws]]. eapply then_ok; [|apply args_ok; [by left|done]].
  eapply then_ignore_ok; [apply expr_ok; [done|apply comma_stop]|]. apply punct_ok; [done|].
  destruct es as [|x es]; [done|]. rewrite commas_cons. apply start_no_ws.
  by apply list.Forall_cons in Hes as [[? _] _].
Qed.
Lemma read_literal e : wf_expr e = true →
  match e with Expr.Bool _ | Expr.Int _ | Expr.Address _ | Expr.Str _ => True | _ => False end →
  ∀ k, k ≤ 7 → reads e k.
Proof.
  intros Hwf Hlit. apply reads_atom; [by destruct e|done|]. intros r Hr.
  pose proof (stopped_word _ _ Hr) as Hw. pose proof (stopped_no_ws _ _ Hr) as Hs.
  destruct e as [b|n|a|x| | | | | | |]; try done; simpl in Hwf.
  - apply choice_ok. destruct b.
    + change (body (Expr.Bool true)) with "true". apply padded_ok; [done|done|].
      apply choice_ok, (map_to _ _ _ "true"); [|done]. simpl. unfold keyword_run. by rewrite ident_run_ok.
    + change (body (Expr.Bool false)) with "false". apply padded_ok; [done|done|].
      apply choice_next; [apply map_fail; simpl; unfold keyword_run; by rewrite ident_run_ok|].
      apply choice_ok, (map_to _ _ _ "false"); [|done]. simpl. unfold keyword_run. by rewrite ident_run_ok.
  - apply bool_decide_eq_true in Hwf. change (body (Expr.Int n)) with (pretty (Z.to_N n)).
    pose proof (int_lit_ok n r Hwf Hw Hs) as Hi.
    destruct (int_text n Hwf) as (c & t & Hp & Hc & _). rewrite Hp in *.
    assert (is_ident_start c = false ∧ c ≠ quote ∧ c ≠ "@"%char) as (Hi1 & Hi2 & Hi3).
    { split_and!; try (by intros ->). destruct (is_ident_start c) eqn:Hst; [|done].
      apply ident_start_other in Hst as (_ & _ & _ & _ & Hd & _). congruence. }
    apply choice_next; [by apply bool_lit_fail; [apply digit_no_ws|]|].
    apply choice_next; [by apply str_lit_fail; [apply digit_no_ws|]|].
    apply choice_next; [by apply addr_lit_fail; [apply digit_no_ws|]|]. by apply choice_ok.
  - apply bool_decide_eq_true in Hwf.
    change (body (Expr.Address a)) with ("@" +:+ address_to_string a). rewrite append_assoc.
    apply choice_next; [by apply bool_lit_fail|]. apply choice_next; [by apply str_lit_fail|].
    apply choice_ok. by apply addr_lit_ok.
  - change (body (Expr.Str x) +:+ r) with (String quote ((x +:+ String quote "") +:+ r)).
    rewrite append_assoc. apply choice_next; [by apply bool_lit_fail|]. apply choice_ok.
    by apply str_lit_ok.
Qed.
Lemma read_not e : wf_expr e = true → reads e 5 → ∀ k, k ≤ 7 → reads (Expr.UnaryOp UnaryOp.Not e) k.
Proof.
  intros Hwf He. destruct (body_start (Expr.UnaryOp UnaryOp.Not e) Hwf) as [H1 H2].
  apply reads_all; [done|done|]. intros r Hr. specialize (He r Hr).
  change (body (Expr.UnaryOp UnaryOp.Not e)) with ("!" +:+ print 5 e). rewrite append_assoc.
  apply map_run_Some in He as ([nots b] & (r1 & Hn & Hb)%then_run_Some & He). cbn [fst snd] in *.
  apply at_least_Some in Hn as [Hn _].
  eapply (map_to _ _ _ ("!" :: nots, b)).
  - eapply then_ok; [|exact Hb].
    change (repeated_run 0 (run (punct "!")) ("!" +:+ print 5 e +:+ r) = Some ("!" :: nots, r1)).
    unfold repeated_run. rewrite many_run_unfold by by apply (agree_punct std_chumsky std_chumsky).
    rewrite punct_ok; [|done|by apply start_no_ws].
    change (many_run (run (punct "!")) (print 5 e +:+ r) = (nots, r1)) in Hn. by rewrite Hn.
  - cbn [rev]. rewrite fold_left_app. cbn [fold_left]. by rewrite He.
Qed.
Lemma read_cmp l op x : op_level op = 2 → wf_expr l = true → wf_expr x = true →
  reads l 3 → reads x 3 → ∀ k, k ≤ 7 → reads (Expr.BinOp l op x) k.
Proof.
  intros Hop Hl Hx Hrl Hrx. destruct (body_start (Expr.BinOp l op x)) as [H1 H2].
  { simpl. by rewrite Hl, Hx. }
  apply reads_all; [done|done|]. cbn [level]. rewrite Hop. intros r Hr.
  rewrite body_binop. unfold left_level. rewrite Hop. cbn [Nat.eqb]. rewrite !append_assoc.
  eapply (map_to _ _ _ (l, Some (op, x))); [|done]. eapply then_ok.
  - apply Hrl. replace 3 with (S (op_level op)) by lia. apply op_stopped.
  - pose proof (op_ok op (print 3 x +:+ r)) as Ho. rewrite Hop in Ho.
    apply or_not_ok. eapply then_ok; [apply Ho; [by apply start_no_ws|by apply start_not_eq]|].
    apply Hrx. by eapply stopped_mono; [|done]; lia.
Qed.

(** The grammar reads every printed expression back, at every level. *)
Lemma print_reads e : wf_expr e = true →
  (∀ k, k ≤ 7 → reads e k) ∧ (∀ k, chain_level k → opens k e) ∧ opens_fields e.
Proof.
  assert (∀ e, level e = 5 ∨ level e = 7 → (∀ k, k ≤ 7 → reads e k) →
    (∀ k, k ≤ 7 → reads e k) ∧ (∀ k, chain_level k → opens k e) ∧ opens_fields e) as Hbase.
  { intros x Hl Hr. split_and!; [done| |].
    - intros k Hk%chain_level_le. apply opens_operand; [lia|]. apply Hr. lia.
    - apply opens_primary; [lia|]. by apply Hr. }
  induction e as [b|n|a|x|x|l op r IHl IHr|e f IHe|n fs IH|n args IH|items IH|op e IHe] using Expr.ind';
    intros Hwf; cbn [wf_expr] in Hwf.
  1-4: (apply Hbase; [by right|]; by apply read_literal).
  - apply Hbase; [by right|]. by apply read_ident.
  - apply andb_true_iff in Hwf as [Hl Hr].
    destruct (IHl Hl) as (Hl1 & Hl2 & _), (IHr Hr) as (Hr1 & _).
    destruct (body_start (Expr.BinOp l op r)) as [H1 H2]; [simpl; by rewrite Hl, Hr|].
    assert (op_level op ≤ 4) as Hop by (destruct op; simpl; lia).
    assert (∀ k, k ≤ 7 → reads (Expr.BinOp l op r) k) as Hall.
    { destruct (decide (op_level op = 2)) as [H2'|Hne].
      - apply read_cmp; [done..|apply Hl1; lia|apply Hr1; lia].
      - assert (chain_level (op_level op)) as Hc 
          by (destruct op; try done; by apply (bool_decide_unpack _)).
        apply reads_all; [done|done|]. cbn [level]. intros s Hs.
        assert (reads (Expr.BinOp l op r) (op_level op)) as Hrd.
        { apply opens_reads; [done|]. apply opens_binop; [done..|by apply Hl2|apply Hr1; lia]. }
        specialize (Hrd s Hs). rewrite print_body in Hrd. cbn [level] in Hrd.
        by rewrite Nat.ltb_irrefl in Hrd. }
    split_and!; [done| |apply opens_primary; [cbn [level]; lia|by apply Hall]].
    intros k Hk. destruct (decide (op_level op = k)) as [<-|Hne].
    + apply opens_binop; [done..|by apply Hl2|apply Hr1; lia].
    + apply opens_operand; [done|]. apply Hall. apply chain_level_le in Hk. lia.
  - apply andb_true_iff in Hwf as [He Hf]. destruct (IHe He) as (_ & _ & Ho).
    pose proof (opens_field e f Hf Ho) as Hof.
    assert (∀ k, k ≤ 7 → reads (Expr.FieldAccess e f) k) as Hall.
    { destruct (body_start (Expr.FieldAccess e f)) as [H1 H2]; [simpl; by rewrite He|].
      apply reads_all; [done|done|]. intros s Hs. by apply (opens_fields_reads _ Hof). }
    split_and!; [done| |done]. intros k Hk%chain_level_le.
    apply opens_operand; [cbn [level]; lia|]. apply Hall. lia.
  - apply Hbase; [by right|]. pose proof Hwf as [Hn Hfs]%andb_true_iff. apply read_struct; [done| |done].
    clear Hwf. induction IH as [|f fs Hf _ IHfs]; [constructor|]. simpl in Hfs.
    apply andb_true_iff in Hfs as [[Hi Hw]%andb_true_iff Hfs]. constructor; [|by apply IHfs].
    split_and!; [done|done|]. apply Hf; [done|lia].
  - apply Hbase; [by right|]. pose proof Hwf as [Hn Hfs]%andb_true_iff. apply read_call; [done| |done].
    clear Hwf. induction IH as [|f fs Hf _ IHfs]; [constructor|]. simpl in Hfs.
    apply andb_true_iff in Hfs as [Hw Hfs]. constructor; [|by apply IHfs].
    split; [done|]. apply Hf; [done|lia].
  - apply Hbase; [by right|]. destruct items as [|e es]; [done|].
    pose proof Hwf as [He Hes]%andb_true_iff. apply list.Forall_cons in IH as [IHe IH].
    apply read_tuple; [done|by apply IHe; [|lia]| |done].
    clear Hwf. induction IH as [|f fs Hf _ IHfs]; [constructor|]. simpl in Hes.
    apply andb_true_iff in Hes as [Hw Hes]. constructor; [|by apply IHfs].
    split; [done|]. apply Hf; [done|lia].
  - apply Hbase; [by left|]. destruct op. apply read_not; [done|]. apply IHe; [done|lia].
Qed.
Lemma expr_reads e r : wf_expr e = true → stopped 0 r → run expr (print 0 e +:+ r) = Some (e, r).
Proof. intros Hwf Hr. apply expr_ok; [|done]. apply print_reads; [done|lia]. Qed.
End levels.

(** * Printed programs are read back

    The grammar reads the text of every well-formed statement and item back
    ([GrammarPrint.v] has the expressions), so a program is well-formed exactly
    if some text is parsed to it. *)

Section statements.
Context `{HX : PrefixHex, HXL : !PrefixHexLaws}.

(** ** The pieces of statements *)
Lemma semicolon_stop s : stopped 0 (";" +:+ s).
Proof. apply list_elem_of_In. vm_compute. tauto. Qed.
Lemma paren_stop s : stopped 0 (")" +:+ s).
Proof. apply list_elem_of_In. vm_compute. tauto. Qed.

(** [= e ;] at the end of a statement. *)
Lemma assign_ok {A} (p : CParser A) s x e r : no_ws r → wf_expr e = true →
  run p (s +:+ "=" +:+ print 0 e +:+ ";" +:+ r) = Some (x, "=" +:+ print 0 e +:+ ";" +:+ r) →
  run (then_ignore (then_ (then_ignore p (punct "=")) expr) (punct ";"))
    (s +:+ "=" +:+ print 0 e +:+ ";" +:+ r) = Some ((x, e), r).
Proof.
  intros Hr He Hp. eapply then_ignore_ok; [|by apply punct_ok]. eapply then_ok.
  - eapply then_ignore_ok; [exact Hp|]. apply punct_ok; [done|by apply start_no_ws].
  - apply expr_reads; [done|apply semicolon_stop].
Qed.

(** A statement that starts with another word. *)
Lemma kw_other k x s : is_ident x = true → ends_word s → x ≠ k → run (kw k) (x +:+ s) = None.
Proof. intros. rewrite kw_run by done. by rewrite (proj2 (String.eqb_neq x k)). Qed.
Lemma kw_ok k s : is_ident k = true → ends_word s → run (kw k) (k +:+ s) = Some ((), skip_ws s).
Proof. intros. rewrite kw_run by done. by rewrite String.eqb_refl. Qed.

(** The statements with a keyword fail on a text that has none behind its
    first word. *)
Section first_word.
Context (x s : string) (Hx : is_ident x = true) (Hs : ends_word s).

Lemma let_struct_other : x ≠ "let" → run let_struct_stmt (x +:+ s) = None.
Proof using Hx Hs.
  intros Hne. apply map_fail, then_ignore_fail, then_fail, then_ignore_fail, then_fail, ignore_then_fail.
  by apply kw_other.
Qed.
Lemma let_tuple_other : x ≠ "let" → run let_tuple_stmt (x +:+ s) = None.
Proof using Hx Hs.
  intros Hne. apply map_fail, then_ignore_fail, then_fail, then_ignore_fail, ignore_then_fail.
  by apply kw_other.
Qed.
Lemma let_other : x ≠ "let" → run let_stmt (x +:+ s) = None.
Proof using Hx Hs.
  intros Hne. apply map_fail, then_ignore_fail, then_fail, then_ignore_fail, ignore_then_fail.
  by apply kw_other.
Qed.
Lemma return_other : x ≠ "return" → run return_stmt (x +:+ s) = None.
Proof using Hx Hs.
  intros Hne. apply map_fail, then_ignore_fail, ignore_then_fail. by apply kw_other.
Qed.
Lemma if_other : x ≠ "if" → run (if_stmt stmt) (x +:+ s) = None.
Proof using Hx Hs.
  intros Hne. apply map_fail, then_fail, then_fail, ignore_then_fail. by apply kw_other.
Qed.
End first_word.

(** A name is assigned to, even if it is spelled like a keyword. *)
Lemma keywords_before_assign x c s : is_ident x = true → c = "="%char ∨ c = "."%char →
  run let_struct_stmt (x +:+ String c s) = None ∧ run let_tuple_stmt (x +:+ String c s) = None ∧
  run let_stmt (x +:+ String c s) = None ∧ run return_stmt (x +:+ String c s) = None ∧
  run (if_stmt stmt) (x +:+ String c s) = None.
Proof.
  intros Hx Hc.
  assert (ends_word (String c s) ∧ no_ws (String c s) ∧ is_ws c = false ∧ is_ident_start c = false ∧
    is_expr_start c = false ∧ c ≠ "("%char ∧ c ≠ ";"%char) as (Hw & Hs & Hws & Hi & He & Hp & Hsc)
    by (destruct Hc as [->| ->]; done).
  assert (∀ k, x = k → run (kw k) (x +:+ String c s) = Some ((), String c s)) as Hkw.
  { intros k <-. rewrite kw_ok by done. by rewrite Hs. }
  split_and!.
  - destruct (decide (x = "let")) as [Hl|]; [|by apply let_struct_other].
    apply map_fail, then_ignore_fail, then_fail, then_ignore_fail, then_fail.
    eapply ignore_then_ok; [by apply Hkw|]. by apply ident_fail.
  - destruct (decide (x = "let")) as [Hl|]; [|by apply let_tuple_other].
    apply map_fail, then_ignore_fail, then_fail, then_ignore_fail.
    eapply ignore_then_ok; [by apply Hkw|]. apply ignore_then_fail, punct_fail; congruence.
  - destruct (decide (x = "let")) as [Hl|]; [|by apply let_other].
    apply map_fail, then_ignore_fail, then_fail, then_ignore_fail.
    eapply ignore_then_ok; [by apply Hkw|]. by apply ident_fail.
  - destruct (decide (x = "return")) as [Hl|]; [|by apply return_other].
    apply map_fail. eapply then_ignore_fail_2.
    + eapply ignore_then_ok; [by apply Hkw|]. apply or_not_none. by apply expr_fail.
    + apply punct_fail; congruence.
  - destruct (decide (x = "if")) as [Hl|]; [|by apply if_other].
    apply map_fail, then_fail, then_fail. eapply ignore_then_ok; [by apply Hkw|]. by apply expr_fail.
Qed.

(** ** Statements *)
Definition no_else (r : string) : Prop := run (ignore_then (kw "else") (block stmt)) r = None.
Definition reads_stmt (t : Stmt.t) : Prop :=
  ∀ r, no_ws r → no_else r → run stmt (print_stmt t +:+ r) = Some (t, r).

Lemma skip_space s : skip_ws (" " +:+ s) = skip_ws s.
Proof. change (snd (let '(w, r) := span is_ws s in (String " " w, r)) = snd (span is_ws s)). by destruct (span is_ws s). Qed.
Lemma kw_space k s : is_ident k = true → no_ws s → run (kw k) (k +:+ " " +:+ s) = Some ((), s).
Proof. intros Hk Hs. rewrite kw_ok by done. by rewrite skip_space, Hs. Qed.
Lemma read_let x e : is_ident x = true → wf_expr e = true → reads_stmt (Stmt.Let x e).
Proof.
  intros Hx He r Hr _. rewrite run_stmt. cbn [print_stmt].
  change ("let " +:+ x +:+ "=" +:+ print 0 e +:+ ";") with ("let" +:+ " " +:+ x +:+ "=" +:+ print 0 e +:+ ";").
  rewrite !append_assoc. pose proof (ident_no_ws x ("=" +:+ print 0 e +:+ ";" +:+ r) Hx) as Hws.
  assert (run (ignore_then (kw "let") ident) ("let" +:+ " " +:+ x +:+ "=" +:+ print 0 e +:+ ";" +:+ r) =
    Some (x, "=" +:+ print 0 e +:+ ";" +:+ r)) as Hlet.
  { eapply ignore_then_ok; [by apply kw_space|]. by apply ident_ok. }
  apply choice_next; [|apply choice_next; [|apply choice_ok]].
  - apply map_fail, then_ignore_fail, then_fail, then_ignore_fail.
    eapply then_fail_2; [exact Hlet|]. apply ignore_then_fail. by apply punct_fail.
  - apply map_fail, then_ignore_fail, then_fail, then_ignore_fail.
    eapply ignore_then_ok; [by apply kw_space|]. apply ignore_then_fail. destruct x as [|c x]; [done|].
    apply andb_true_iff in Hx as [Hc _]. apply ident_start_other in Hc as (_ & _ & Hp & _ & _ & Hw).
    apply punct_fail; congruence.
  - eapply (map_to _ _ _ (x, e)); [|done]. 
    apply (assign_ok _ ("let" +:+ " " +:+ x)); [done|done|exact Hlet].
Qed.

Lemma idents_ok xs k tr R : is_ident <$> xs = (λ _, true) <$> xs → no_ws R → ends_word R →
  run ident R = None → run (punct ",") R = None → k ≤ length xs →
  run (separated_by k tr ident (punct ",")) (commas xs +:+ R) = Some (xs, R).
Proof.
  intros Hxs HR Hw Hi Hc Hk. assert (∀ x, x ∈ xs → is_ident x = true) as Hall.
  { intros x Hx. apply list_elem_of_lookup in Hx as [i Hi']. apply (f_equal (.!! i)) in Hxs.
    rewrite !list_lookup_fmap, Hi' in Hxs. simpl in Hxs. congruence. }
  rewrite <-(map_id xs) at 1. apply (separated_ok ident id); [| | |done| |done|done].
  - intros n. apply (agree_ident_p std_chumsky std_chumsky).
  - intros x s Hx Hs. apply ident_ok; [by apply Hall|..]; destruct Hs as [[s' ->]| ->]; done.
  - intros x s Hx. by apply ident_no_ws, Hall.
  - by apply ignore_then_fail.
Qed.
Lemma forallb_fmap {A} (f : A → bool) l : forallb f l = true → f <$> l = (λ _, true) <$> l.
Proof. induction l as [|x l IH]; simpl; [done|]. intros [-> Hl]%andb_true_iff. f_equal. by apply IH. Qed.

Lemma read_let_tuple xs e : 2 ≤ length xs → forallb is_ident xs = true → wf_expr e = true →
  reads_stmt (Stmt.LetTuple xs e).
Proof.
  intros Hl Hxs He r Hr _. rewrite run_stmt. cbn [print_stmt].
  change ("let(" +:+ commas xs +:+ ")=" +:+ print 0 e +:+ ";")
    with ("let" +:+ "(" +:+ commas xs +:+ ")" +:+ "=" +:+ print 0 e +:+ ";").
  rewrite !append_assoc. apply choice_next; [|apply choice_ok].
  - apply map_fail, then_ignore_fail, then_fail, then_ignore_fail, then_fail.
    eapply ignore_then_ok; [by apply kw_ok|]. by apply ident_fail.
  - eapply (map_to _ _ _ (xs, e)); [|done].
    replace ("let" +:+ "(" +:+ commas xs +:+ ")" +:+ "=" +:+ print 0 e +:+ ";" +:+ r) with
      (("let" +:+ "(" +:+ commas xs +:+ ")") +:+ "=" +:+ print 0 e +:+ ";" +:+ r) by by rewrite !append_assoc.
    apply assign_ok; [done|done|]. rewrite !append_assoc. eapply ignore_then_ok; [by apply kw_ok|].
    eapply ignore_then_ok; [apply punct_ok; [done|]|].
    { destruct xs as [|x xs]; [simpl in Hl; lia|]. rewrite <-(map_id (x :: xs)), commas_cons.
      apply ident_no_ws. by apply andb_true_iff in Hxs as [? _]. }
    eapply then_ignore_ok; [apply idents_ok; [by apply forallb_fmap|done..]|]. by apply punct_ok.
Qed.

Lemma path_ok path s : forallb is_ident path = true →
  many_run (run (ignore_then (punct ".") ident)) (foldr (λ f s, "." +:+ f +:+ s) "" path +:+ "=" +:+ s) =
    (path, "=" +:+ s).
Proof.
  induction path as [|f path IH]; cbn [forallb foldr]; [intros _; by apply many_stop|].
  intros [Hf Hp]%andb_true_iff. rewrite !append_assoc, many_run_unfold.
  - assert (run (ignore_then (punct ".") ident)
      ("." +:+ f +:+ foldr (λ f s, "." +:+ f +:+ s) "" path +:+ "=" +:+ s) =
      Some (f, foldr (λ f s, "." +:+ f +:+ s) "" path +:+ "=" +:+ s)) as ->; [|by rewrite IH].
    eapply ignore_then_ok; [apply punct_ok; [done|by apply ident_no_ws]|].
    apply ident_ok; [done|..]; by destruct path.
  - pose proof std_chumsky_laws. solve_agree.
Qed.
Lemma read_field_assign x path e : is_ident x = true → path ≠ [] → forallb is_ident path = true →
  wf_expr e = true → reads_stmt (Stmt.FieldAssign x path e).
Proof.
  intros Hx Hne Hp He r Hr _. rewrite run_stmt. cbn [print_stmt]. rewrite !append_assoc.
  assert (∃ s, foldr (λ f s, "." +:+ f +:+ s) "" path +:+ "=" +:+ print 0 e +:+ ";" +:+ r = "." +:+ s)
    as [s Hs] by (destruct path; [done|by eexists]).
  destruct (keywords_before_assign x "." s Hx) as (K1 & K2 & K3 & K4 & K5); [by right|].
  pose proof (path_ok path (print 0 e +:+ ";" +:+ r) Hp) as Hpath.
  rewrite Hs in *. do 5 (apply choice_next; [done|]). apply choice_ok.
  eapply (map_to _ _ _ ((x, path), e)); [|done].
  eapply then_ignore_ok; [|by apply punct_ok]. eapply then_ok; [|apply expr_reads; [done|apply semicolon_stop]].
  eapply then_ignore_ok; [|apply punct_ok; [done|by apply start_no_ws]].
  eapply then_ok; [by apply ident_ok|]. apply at_least_Some. split; [exact Hpath|].
  destruct path; [done|]. simpl. lia.
Qed.
Lemma read_reassign x e : is_ident x = true → wf_expr e = true → reads_stmt (Stmt.Reassign x e).
Proof.
  intros Hx He r Hr _. rewrite run_stmt. cbn [print_stmt]. rewrite !append_assoc.
  destruct (keywords_before_assign x "=" (print 0 e +:+ ";" +:+ r) Hx) as (K1 & K2 & K3 & K4 & K5); [by left|].
  do 5 (apply choice_next; [done|]). apply choice_next; [|apply choice_ok].
  - apply map_fail, then_ignore_fail, then_fail, then_ignore_fail.
    eapply then_fail_2; [by apply ident_ok|]. done.
  - eapply (map_to _ _ _ (x, e)); [|done]. apply assign_ok; [done|done|]. by apply ident_ok.
Qed.
Lemma read_return oe : match oe with Some e => wf_expr e = true | None => True end →
  reads_stmt (Stmt.Return oe).
Proof.
  intros He r Hr _. rewrite run_stmt.
  assert (∃ s, print_stmt (Stmt.Return oe) +:+ r = "return" +:+ s ∧ ends_word s ∧
    run return_stmt ("return" +:+ s) = Some (Stmt.Return oe, r)) as (s & -> & Hw & Hret).
  { destruct oe as [e|].
    - exists (" " +:+ print 0 e +:+ ";" +:+ r). split_and!; [|done|].
      + cbn [print_stmt]. by rewrite append_assoc, append_assoc.
      + apply map_ok. eapply then_ignore_ok; [|by apply punct_ok].
        eapply ignore_then_ok; [apply kw_space; [done|by apply start_no_ws]|].
        apply or_not_ok. apply expr_reads; [done|apply semicolon_stop].
    - exists (";" +:+ r). split_and!; [done|done|]. apply map_ok.
      eapply then_ignore_ok; [|by apply punct_ok]. eapply ignore_then_ok; [by apply kw_ok|].
      apply or_not_none. by apply expr_fail. }
  apply choice_next; [by apply let_struct_other|]. apply choice_next; [by apply let_tuple_other|].
  apply choice_next; [by apply let_other|]. by apply choice_ok.
Qed.

(** A parenthesis starts no statement but an expression. *)
Lemma paren_expr e s : wf_expr e = true → ended 0 s →
  run expr ("(" +:+ print 0 e +:+ ")" +:+ s) = Some (e, s).
Proof.
  intros He Hs. rewrite run_expr. change (or_ expr) with (lvl 0).
  apply (lift_to _ 7); [|lia|exact Hs|right; by split]. change (lvl 7) with (primary expr).
  apply (paren_ok (print 0 e)); [by apply print_start, body_start|by eapply ended_no_ws|].
  apply expr_reads; [done|apply paren_stop].
Qed.
Lemma read_expr_stmt e : wf_expr e = true → reads_stmt (Stmt.Expr e).
Proof.
  intros He r Hr _. rewrite run_stmt. cbn [print_stmt].
  change ("(" +:+ print 0 e +:+ ");") with ("(" +:+ print 0 e +:+ ")" +:+ ";"). rewrite !append_assoc.
  do 7 (apply choice_next; [reflexivity|]). apply choice_ok, map_ok.
  eapply then_ignore_ok; [|by apply punct_ok]. apply paren_expr; [done|]. apply stopped_ended, semicolon_stop.
Qed.

(** Destructuring. *)
Lemma binding_ok b s : is_ident (fst b) = true → is_ident (snd b) = true → ends_word s → no_ws s →
  run struct_binding (print_binding b +:+ s) = Some (b, s).
Proof.
  destruct b as [f x]. intros Hf Hx Hw Hs. unfold print_binding. cbn [fst snd] in *. rewrite !append_assoc.
  eapply (map_to _ _ _ (f, Some x)); [|done]. eapply then_ok; [by apply ident_ok|].
  apply or_not_ok. eapply ignore_then_ok; [apply punct_ok; [done|by apply ident_no_ws]|]. by apply ident_ok.
Qed.
Lemma bindings_ok bs rest r : no_ws r → rest || negb (bool_decide (bs = [])) = true →
  forallb (λ b, is_ident (fst b) && is_ident (snd b)) bs = true →
  run struct_bindings (print_bindings bs rest +:+ "}" +:+ r) = Some ((bs, rest), "}" +:+ r) ∧
  no_ws (print_bindings bs rest +:+ "}" +:+ r).
Proof.
  intros Hr Hne Hbs. destruct bs as [|b bs].
  - destruct rest; [|done]. split; [|done]. apply choice_ok.
    eapply map_to; [by apply punct_ok|done].
  - assert (∀ c, c ∈ b :: bs → is_ident (fst c) = true ∧ is_ident (snd c) = true) as Hall.
    { intros c Hc. rewrite forallb_forall in Hbs. apply list_elem_of_In, Hbs, andb_true_iff in Hc. done. }
    assert (∀ c s, c ∈ b :: bs → no_ws (print_binding c +:+ s)) as Hws.
    { intros c s Hc. unfold print_binding. rewrite append_assoc. by apply ident_no_ws, Hall. }
    cbn [print_bindings]. rewrite append_assoc. split.
    2:{ rewrite commas_cons. apply Hws. by left. }
    set (R := (if rest then ",.." else "") +:+ "}" +:+ r).
    assert (run (separated_by 1 false struct_binding (punct ","))
      (commas (map print_binding (b :: bs)) +:+ R) = Some (b :: bs, R)) as Hsep.
    { apply separated_ok; [| |done|done| |done|simpl; lia].
      - intros n. apply (agree_struct_binding std_chumsky std_chumsky).
      - intros c s Hc Hs. destruct (Hall c Hc) as [H1 H2].
        apply binding_ok; [done|done|..]; destruct Hs as [[s' ->]| ->]; unfold R; by destruct rest.
      - unfold R. destruct rest; [|done].
        eapply ignore_then_ok; [apply (punct_ok "," "" ("..}" +:+ r)); done|done]. }
    apply choice_next.
    + apply map_fail. rewrite commas_cons. unfold print_binding. rewrite append_assoc.
      destruct (Hall b) as [Hb _]; [by left|]. destruct (fst b) as [|c x]; [done|].
      apply andb_true_iff in Hb as [Hc _].
      apply punct_fail; [by apply ident_start_no_ws|]. by intros <-.
    + apply choice_ok. unfold R in *. destruct rest.
      * eapply (map_to _ _ _ (b :: bs, Some "..")); [|done]. eapply then_ok; [exact Hsep|].
        apply or_not_ok. eapply ignore_then_ok; [by apply (punct_ok "," "" ("..}" +:+ r))|].
        by apply (punct_ok "." "." ("}" +:+ r)).
      * eapply (map_to _ _ _ (b :: bs, None)); [|done]. eapply then_ok; [exact Hsep|]. done.
Qed.
Lemma read_let_struct n bs e rest : is_ident n = true → rest || negb (bool_decide (bs = [])) = true →
  forallb (λ b, is_ident (fst b) && is_ident (snd b)) bs = true → wf_expr e = true →
  reads_stmt (Stmt.LetStruct n bs e rest).
Proof.
  intros Hn Hne Hbs He r Hr _. rewrite run_stmt. cbn [print_stmt].
  change ("let " +:+ n +:+ "{" +:+ print_bindings bs rest +:+ "}=" +:+ print 0 e +:+ ";") with
    ("let" +:+ " " +:+ n +:+ "{" +:+ print_bindings bs rest +:+ "}" +:+ "=" +:+ print 0 e +:+ ";").
  apply choice_ok. eapply (map_to _ _ _ ((n, (bs, rest)), e)); [|done].
  replace (("let" +:+ " " +:+ n +:+ "{" +:+ print_bindings bs rest +:+ "}" +:+ "=" +:+ print 0 e +:+ ";") +:+ r)
    with (("let" +:+ " " +:+ n +:+ "{" +:+ print_bindings bs rest +:+ "}") +:+ "=" +:+ print 0 e +:+ ";" +:+ r)
    by by rewrite !append_assoc.
  apply assign_ok; [done|done|]. rewrite !append_assoc.
  destruct (bindings_ok bs rest ("=" +:+ print 0 e +:+ ";" +:+ r)) as [Hb Hws]; [done..|].
  eapply then_ok.
  - eapply ignore_then_ok; [apply kw_space; [done|by apply ident_no_ws]|]. by apply ident_ok.
  - eapply ignore_then_ok; [by apply punct_ok|]. eapply then_ignore_ok; [exact Hb|]. by apply punct_ok.
Qed.

(** ** Blocks *)
Lemma block_cons t l : print_block (t :: l) = print_stmt t +:+ print_block l.
Proof. done. Qed.
Lemma no_else_word x s : is_ident x = true → ends_word s → x ≠ "else" → no_else (x +:+ s).
Proof. intros. by apply ignore_then_fail, kw_other. Qed.
(** Nothing that a statement or the end of a block starts with is an [else]. *)
Lemma no_else_assign x c s : is_ident x = true → c = "="%char ∨ c = "."%char → no_else (x +:+ String c s).
Proof.
  intros Hx Hc. destruct (decide (x = "else")) as [->|Hne].
  - unfold no_else. destruct Hc as [->| ->]; (eapply ignore_then_ok; [by apply kw_ok|]); reflexivity.
  - apply no_else_word; [done| |done]. by destruct Hc as [->| ->].
Qed.
Lemma stmt_start t s : wf_stmt t = true → no_ws (print_stmt t +:+ s) ∧ no_else (print_stmt t +:+ s).
Proof.
  intros Hwf. destruct t as [x e|x e|oe|e|c b eb|x path e|xs e|n bs e rest]; cbn [wf_stmt print_stmt] in *.
  - split; [done|]. by apply (no_else_word "let").
  - apply andb_true_iff in Hwf as [Hx _]. rewrite !append_assoc. split; [by apply ident_no_ws|].
    apply no_else_assign; [done|by left].
  - destruct oe; (split; [done|]); by apply (no_else_word "return").
  - split; [done|]. by apply ignore_then_fail, kw_fail.
  - split; [done|]. by apply (no_else_word "if").
  - apply andb_true_iff in Hwf as [[[Hx Hne]%andb_true_iff _]%andb_true_iff _]. rewrite !append_assoc.
    split; [by apply ident_no_ws|]. destruct path as [|f path]; [done|]. cbn [foldr]. rewrite !append_assoc.
    apply no_else_assign; [done|by right].
  - split; [done|]. by apply (no_else_word "let").
  - split; [done|]. by apply (no_else_word "let").
Qed.
Lemma block_start l s : Forall (λ t, wf_stmt t = true) l →
  no_ws (print_block l +:+ s) ∧ no_else (print_block l +:+ s).
Proof.
  intros [|t l' Ht Hl].
  - split; [done|]. by apply ignore_then_fail, kw_fail.
  - rewrite block_cons, append_assoc. by apply stmt_start.
Qed.
Lemma stmt_fail_brace s : run stmt ("}" +:+ s) = None.
Proof.
  rewrite run_stmt. do 7 (apply choice_next; [reflexivity|]). apply choice_next; [|done].
  apply map_fail, then_ignore_fail. by apply expr_fail.
Qed.
Lemma stmts_ok l s : Forall (λ t, wf_stmt t = true ∧ reads_stmt t) l →
  many_run (run stmt) (print_block l +:+ s) = (l, "}" +:+ s).
Proof.
  induction 1 as [|t l [Hwf Ht] Hl IH]; [apply many_stop, stmt_fail_brace|].
  rewrite block_cons, append_assoc, many_run_unfold by apply (agree_stmt std_chumsky std_chumsky).
  assert (Forall (λ t, wf_stmt t = true) l) as Hwfs by (eapply list.Forall_impl; [exact Hl|naive_solver]).
  destruct (block_start l s Hwfs) as [H1 H2]. by rewrite Ht, IH.
Qed.
Lemma block_ok l s : no_ws s → Forall (λ t, wf_stmt t = true ∧ reads_stmt t) l →
  run (block stmt) ("{" +:+ print_block l +:+ s) = Some (l, s).
Proof.
  intros Hs Hl. assert (Forall (λ t, wf_stmt t = true) l) as Hwfs by (eapply list.Forall_impl; [exact Hl|naive_solver]).
  eapply ignore_then_ok; [apply punct_ok; [done|by apply block_start]|].
  eapply then_ignore_ok; [|by apply punct_ok]. apply at_least_Some. split; [by apply stmts_ok|lia].
Qed.
Lemma print_if c b eb : print_stmt (Stmt.If c b eb) =
  "if" +:+ "(" +:+ print 0 c +:+ ")" +:+ "{" +:+ print_block b +:+
    match eb with Some l => "else" +:+ "{" +:+ print_block l | None => "" end.
Proof. reflexivity. Qed.
Lemma read_if c b eb : wf_expr c = true → Forall (λ t, wf_stmt t = true ∧ reads_stmt t) b →
  match eb with Some l => Forall (λ t, wf_stmt t = true ∧ reads_stmt t) l | None => True end →
  reads_stmt (Stmt.If c b eb).
Proof.
  intros Hc Hb Heb r Hr Hel. rewrite run_stmt, print_if, !append_assoc.
  apply choice_next; [by apply let_struct_other|]. apply choice_next; [by apply let_tuple_other|].
  apply choice_next; [by apply let_other|]. apply choice_next; [by apply return_other|]. apply choice_ok.
  eapply (map_to _ _ _ ((c, b), eb)); [|done]. eapply then_ok; [eapply then_ok|].
  - eapply ignore_then_ok; [by apply kw_ok|]. apply paren_expr; [done|]. by left.
  - apply block_ok; [|done]. by destruct eb.
  - destruct eb as [l|]; [|by apply or_not_none].
    rewrite !append_assoc. apply or_not_ok. eapply ignore_then_ok; [by apply kw_ok|]. by apply block_ok.
Qed.

Lemma stmt_reads t : wf_stmt t = true → reads_stmt t.
Proof.
  assert (∀ l, Forall (λ t, wf_stmt t = true → reads_stmt t) l → forallb wf_stmt l = true →
    Forall (λ t, wf_stmt t = true ∧ reads_stmt t) l) as Hlist.
  { induction 1 as [|t' l Ht _ IH]; [constructor|]. cbn [forallb]. intros [? ?]%andb_true_iff.
    constructor; [auto|]. by apply IH. }
  induction t as [x e|x e|oe|e|c b eb IHb IHeb|x path e|xs e|n bs e rest] using Stmt.ind';
    intros Hwf; cbn [wf_stmt] in Hwf.
  - apply andb_true_iff in Hwf as [? ?]. by apply read_let.
  - apply andb_true_iff in Hwf as [? ?]. by apply read_reassign.
  - apply read_return. by destruct oe.
  - by apply read_expr_stmt.
  - apply andb_true_iff in Hwf as [[Hc Hb]%andb_true_iff Heb]. apply read_if; [done|by apply Hlist|].
    destruct eb; [|done]. by apply Hlist.
  - apply andb_true_iff in Hwf as [[[Hx Hne%negb_true_iff]%andb_true_iff Hp]%andb_true_iff He].
    apply bool_decide_eq_false in Hne. by apply read_field_assign.
  - apply andb_true_iff in Hwf as [[Hl%bool_decide_eq_true Hx]%andb_true_iff He]. by apply read_let_tuple.
  - apply andb_true_iff in Hwf as [[[Hn Hne]%andb_true_iff Hb]%andb_true_iff He]. by apply read_let_struct.
Qed.
Lemma body_reads l : forallb wf_stmt l = true → Forall (λ t, wf_stmt t = true ∧ reads_stmt t) l.
Proof.
  induction l as [|t l IH]; [constructor|]. cbn [forallb]. intros [Ht Hl]%andb_true_iff.
  constructor; [by split; [|apply stmt_reads]|by apply IH].
Qed.
End statements.

Section items.
Context `{HX : PrefixHex, HXL : !PrefixHexLaws}.

(** ** Types *)
Definition after_type (s : string) : Prop := ends_word s ∧ no_ws s ∧ no_colon s.
Lemma type_text t : wf_ty t = true → ∃ a o, is_ident a = true ∧ Ty.name t = make_name (a, o) ∧
  make_type (a, o) = t ∧ match o with Some b => is_ident b = true | None => True end.
Proof.
  destruct t as [| | | |n|ts]; intros Hwf; try done.
  - by exists "bool", None.
  - by exists "u64", None.
  - by exists "address", None.
  - by exists "string", None.
  - cbn [wf_ty] in Hwf. apply andb_true_iff in Hwf as [Hq Hp%negb_true_iff].
    apply qualified_inv in Hq as [[Hn _]|(a & b & -> & Ha & _ & Hb)].
    + exists n, None. split_and!; [done|done| |done]. unfold is_primitive in Hp.
      rewrite !orb_false_iff in Hp. destruct Hp as [[[H1 H2] H3] H4].
      unfold make_type, Ty.from_name. by rewrite H1, H2, H3, H4.
    + by exists a, (Some b).
Qed.
Lemma ty_ok t s : wf_ty t = true → after_type s → run ty (Ty.name t +:+ s) = Some (t, s).
Proof.
  intros (a & o & Ha & -> & <- & Ho)%type_text (Hw & Hs & Hc).
  apply padded_ok; [|done|].
  - destruct o; unfold make_name; rewrite ?append_assoc; by apply ident_no_ws.
  - apply map_ok. destruct o as [b|]; unfold make_name; rewrite ?append_assoc.
    + eapply then_ok; [by apply ident_run_ok|]. apply or_not_ok. eapply ignore_then_ok; [done|].
      by apply ident_run_ok.
    + eapply then_ok; [by apply ident_run_ok|]. apply or_not_none, ignore_then_fail.
      by apply double_colon_fail.
Qed.
Lemma ty_start t : wf_ty t = true → head_in is_ident_start (Ty.name t).
Proof.
  intros (a & o & Ha & -> & _)%type_text. assert (head_in is_ident_start a) as Hh.
  { destruct a; [done|]. by apply andb_true_iff in Ha as [? _]. }
  destruct o; [|done]. by apply head_in_app.
Qed.
Lemma ty_no_ws t s : wf_ty t = true → no_ws (Ty.name t +:+ s).
Proof.
  intros Hh%ty_start. destruct (Ty.name t); [done|]. by apply no_ws_cons, ident_start_no_ws.
Qed.

(** A list of types or of fields ends with a bracket. *)
Definition closing (s : string) : Prop :=
  match s with String c _ => c = ")"%char ∨ c = "}"%char | EmptyString => False end.
Lemma closing_facts s : closing s → after_type s ∧ run ident s = None ∧ run ty s = None ∧
  run (punct ",") s = None.
Proof. destruct s as [|c s]; [done|]. by intros [->| ->]. Qed.
Lemma after_comma s : after_type ("," +:+ s).
Proof. done. Qed.
Lemma types_ok ts s : Forall (λ t, wf_ty t = true) ts → closing s →
  run (separated_by 0 true ty (punct ",")) (commas (map Ty.name ts) +:+ s) = Some (ts, s).
Proof.
  intros Hts (Ha & _ & Ht & Hc)%closing_facts. rewrite list.Forall_forall in Hts.
  apply separated_ok; [| | |done| |done|lia].
  - intros n. apply (agree_ty std_chumsky std_chumsky).
  - intros t r Hin Hr. apply ty_ok; [by apply Hts|]. by destruct Hr as [[r' ->]| ->].
  - intros t r Hin. by apply ty_no_ws, Hts.
  - by apply ignore_then_fail.
Qed.
Lemma fields_ok fs s : wf_fields fs = true → closing s →
  run (separated_by 0 true param (punct ",")) (commas (map print_field fs) +:+ s) = Some (fs, s) ∧
  no_ws (commas (map print_field fs) +:+ s).
Proof.
  intros Hfs (Ha & Hi & Ht & Hc)%closing_facts.
  assert (∀ f, f ∈ fs → is_ident (fst f) = true ∧ wf_ty (snd f) = true) as Hall.
  { intros f Hf. unfold wf_fields in Hfs. rewrite forallb_forall in Hfs.
    by apply list_elem_of_In, Hfs, andb_true_iff in Hf. }
  assert (∀ f r, f ∈ fs → no_ws (print_field f +:+ r)) as Hws.
  { intros f r Hf. unfold print_field. rewrite append_assoc. by apply ident_no_ws, Hall. }
  split.
  - apply separated_ok; [| |done| | |done|lia].
    + intros n. apply (agree_param std_chumsky std_chumsky).
    + intros [x t] r Hf Hr. destruct (Hall _ Hf) as [Hx Hty]. unfold print_field. cbn [fst snd] in *.
      rewrite !append_assoc. eapply then_ok.
      * eapply then_ignore_ok; [by apply ident_ok|]. apply punct_ok; [done|by apply ty_no_ws].
      * apply ty_ok; [done|]. by destruct Hr as [[r' ->]| ->].
    + intros _. by apply then_fail, then_ignore_fail.
    + by apply ignore_then_fail.
  - destruct fs as [|f fs]; [apply Ha|]. rewrite commas_cons. apply Hws. by left.
Qed.
Lemma return_ty_ok t s : wf_return_ty t = true → after_type s →
  run return_ty (print_return_ty t +:+ s) = Some (t, s) ∧ no_ws (print_return_ty t +:+ s).
Proof.
  intros Hwf Hs. assert (wf_ty t = true → run return_ty (Ty.name t +:+ s) = Some (t, s) ∧
    no_ws (Ty.name t +:+ s)) as Hsimple.
  { intros Ht. split; [|by apply ty_no_ws]. apply choice_next; [|apply choice_ok; by apply ty_ok].
    apply map_fail, ignore_then_fail. pose proof (ty_start t Ht) as Hh.
    destruct (Ty.name t) as [|c n]; [done|]. simpl in Hh.
    apply ident_start_other in Hh as (_ & _ & Hp & _ & _ & Hw). apply punct_fail; congruence. }
  destruct t as [| | | |n|ts]; try (by apply Hsimple). cbn [wf_return_ty] in Hwf.
  apply andb_true_iff in Hwf as [Hne%negb_true_iff Hts]. apply bool_decide_eq_false in Hne.
  destruct ts as [|t ts]; [done|]. cbn [print_return_ty]. split; [|done].
  cbn [forallb] in Hts. apply andb_true_iff in Hts as [Ht Hts].
  assert (Forall (λ t, wf_ty t = true) ts) as Hall by (by apply List.Forall_forall, forallb_forall).
  rewrite !append_assoc. apply choice_ok. eapply (map_to _ _ _ (t, ts)); [|done].
  eapply ignore_then_ok; [apply punct_ok; [done|by apply ty_no_ws]|].
  eapply then_ignore_ok; [|apply punct_ok; [done|apply Hs]]. eapply then_ok; [|apply types_ok; [done|by left]].
  eapply then_ignore_ok; [by apply ty_ok|]. apply punct_ok; [done|].
  destruct ts as [|u ts]; [done|]. rewrite commas_cons. apply list.Forall_cons in Hall as [? _]. by apply ty_no_ws.
Qed.

(** ** Items *)
Definition reads_item (i : AstItem) : Prop :=
  ∀ r, no_ws r → run item (print_item i +:+ r) = Some (i, r).

Lemma read_module n : is_ident n = true → reads_item (ItemModuleDecl n).
Proof.
  intros Hn r Hr. change (print_item (ItemModuleDecl n)) with ("mod" +:+ " " +:+ n +:+ ";").
  rewrite !append_assoc. apply choice_ok, map_ok. eapply then_ignore_ok; [|by apply punct_ok].
  eapply ignore_then_ok; [apply kw_space; [done|by apply ident_no_ws]|]. by apply ident_ok.
Qed.
Lemma module_other x s : is_ident x = true → ends_word s → x ≠ "mod" → run module_decl (x +:+ s) = None.
Proof. intros. apply map_fail, then_ignore_fail, ignore_then_fail. by apply kw_other. Qed.
Lemma use_other x s : is_ident x = true → ends_word s → x ≠ "use" → run use_item (x +:+ s) = None.
Proof.
  intros. apply map_fail, then_ignore_fail, then_fail, then_fail, then_ignore_fail, ignore_then_fail.
  by apply kw_other.
Qed.
Lemma read_use n a alias : is_ident n = true → wf_address a →
  match alias with Some x => is_ident x = true | None => True end → reads_item (ItemUse n a alias).
Proof.
  intros Hn (ds & Hds & Hhex & Hne & Ha)%address_text Hal r Hr.
  assert (print_item (ItemUse n a alias) = "use" +:+ " " +:+ n +:+ "@" +:+ "0x" +:+ ds +:+
    match alias with Some x => " " +:+ "as" +:+ " " +:+ x | None => "" end +:+ ";") as ->.
  { cbn [print_item]. rewrite Hds. by destruct alias. }
  rewrite !append_assoc. apply choice_next; [by apply module_other|]. apply choice_ok.
  eapply (map_to _ _ _ ((n, a), alias)); [|done].
  set (R := match alias with Some x => " " +:+ "as" +:+ " " +:+ x | None => "" end +:+ ";" +:+ r).
  assert (ends_word R) as HRw by (unfold R; by destruct alias).
  assert (run (then_ (then_ignore (ignore_then (kw "use") ident) (punct "@"))
    (try_map make_address (ignore_then (punct "0x") hex_digits)))
    ("use" +:+ " " +:+ n +:+ "@" +:+ "0x" +:+ ds +:+ R) = Some ((n, a), skip_ws R)) as Hhead.
  { eapply then_ok.
    - eapply then_ignore_ok; [|by apply (punct_ok "@" "" ("0x" +:+ ds +:+ R))].
      eapply ignore_then_ok; [apply kw_space; [done|by apply ident_no_ws]|]. by apply ident_ok.
    - eapply try_map_ok; [|exact Ha]. eapply ignore_then_ok; [apply punct_ok; [done|]|].
      + destruct ds as [|c ds]; [done|]. apply andb_true_iff in Hhex as [Hc _]. by apply no_ws_cons, hex_no_ws.
      + change (padded_run hex_run (ds +:+ R) = Some (ds, skip_ws R)). unfold padded_run.
        assert (no_ws (ds +:+ R)) as ->.
        { destruct ds as [|c ds]; [done|]. apply andb_true_iff in Hhex as [Hc _]. by apply no_ws_cons, hex_no_ws. }
        unfold hex_run. rewrite span_app; [by destruct ds|done|].
        destruct R as [|c R']; [done|]. simpl in HRw. apply not_true_iff_false. intros Hc%hex_ident_char. congruence. }
  eapply then_ignore_ok; [eapply then_ok; [exact Hhead|]|by apply punct_ok]. unfold R.
  destruct alias as [x|].
  - rewrite !append_assoc, skip_space. assert (no_ws ("as" +:+ " " +:+ x +:+ ";" +:+ r)) as -> by done.
    apply or_not_ok. eapply ignore_then_ok; [apply kw_space; [done|by apply ident_no_ws]|]. by apply ident_ok.
  - assert (no_ws ("" +:+ ";" +:+ r)) as -> by done. apply or_not_none, ignore_then_fail. by apply kw_fail.
Qed.

(** The optional [pub] in front of a keyword. *)
Lemma is_pub_ok b k s : is_ident k = true → k ≠ "pub" →
  run is_pub (print_pub b +:+ k +:+ " " +:+ s) = Some (b, k +:+ " " +:+ s).
Proof.
  intros Hk Hne. destruct b.
  - change (print_pub true +:+ k +:+ " " +:+ s) with ("pub" +:+ " " +:+ k +:+ " " +:+ s).
    eapply (map_to _ _ _ (Some true)); [|done]. apply or_not_ok. eapply (map_to _ _ _ "pub"); [|done].
    change (padded_run (keyword_run "pub") ("pub" +:+ " " +:+ k +:+ " " +:+ s) = Some ("pub", k +:+ " " +:+ s)).
    unfold padded_run, keyword_run. rewrite (ident_no_ws "pub") by done. rewrite ident_run_ok by done. simpl.
    by rewrite skip_space, (ident_no_ws k).
  - eapply (map_to _ _ _ None); [|done]. apply or_not_none, map_fail, padded_fail; [by apply ident_no_ws|].
    simpl. unfold keyword_run. rewrite ident_run_ok by done. simpl. by rewrite (proj2 (String.eqb_neq k "pub")).
Qed.
Lemma pub_ok b k s : is_ident k = true → k ≠ "pub" → no_ws s →
  run (then_ignore is_pub (kw k)) (print_pub b +:+ k +:+ " " +:+ s) = Some (b, s).
Proof. intros Hk Hne Hs. eapply then_ignore_ok; [by apply is_pub_ok|by apply kw_space]. Qed.
Lemma pub_word b k s : ∃ x s', print_pub b +:+ k +:+ " " +:+ s = x +:+ s' ∧ (x = "pub" ∨ x = k) ∧ ends_word s'.
Proof.
  destruct b; [exists "pub", (" " +:+ k +:+ " " +:+ s)|exists k, (" " +:+ s)]; split_and!; auto; done.
Qed.
Lemma declarations_other b k s : is_ident k = true → k ≠ "mod" → k ≠ "use" →
  run module_decl (print_pub b +:+ k +:+ " " +:+ s) = None ∧
  run use_item (print_pub b +:+ k +:+ " " +:+ s) = None.
Proof.
  intros Hk Hm Hu. destruct (pub_word b k s) as (x & s' & -> & Hx & Hw).
  assert (is_ident x = true ∧ x ≠ "mod" ∧ x ≠ "use") as (H1 & H2 & H3) by (by destruct Hx as [->| ->]).
  split; [by apply module_other|by apply use_other].
Qed.
Lemma read_struct_item st : is_ident (as_name st) = true → wf_fields (as_fields st) = true →
  reads_item (ItemStruct st).
Proof.
  destruct st as [b n fs]. cbn [as_name as_fields]. intros Hn Hfs r Hr.
  change (print_item (ItemStruct (mkAstStruct b n fs))) with
    (print_pub b +:+ "struct" +:+ " " +:+ n +:+ "{" +:+ commas (map print_field fs) +:+ "}").
  rewrite !append_assoc. destruct (declarations_other b "struct" (n +:+ "{" +:+
    commas (map print_field fs) +:+ "}" +:+ r)) as [H1 H2]; [done..|].
  apply choice_next; [done|]. apply choice_next; [done|]. apply choice_ok.
  destruct (fields_ok fs ("}" +:+ r)) as [Hf Hws]; [done|by right|].
  eapply (map_to _ _ _ ((b, n), fs)); [|done]. eapply then_ok; [eapply then_ok|].
  - apply pub_ok; [done|done|by apply ident_no_ws].
  - by apply ident_ok.
  - eapply ignore_then_ok; [by apply punct_ok|]. eapply then_ignore_ok; [exact Hf|]. by apply punct_ok.
Qed.
Lemma struct_other b s : run struct_item (print_pub b +:+ "fn" +:+ " " +:+ s) = None.
Proof.
  apply map_fail, then_fail, then_fail. eapply then_ignore_fail_2; [by apply is_pub_ok|].
  by apply kw_other.
Qed.
Lemma read_fn f : wf_item (ItemFn f) = true → reads_item (ItemFn f).
Proof.
  destruct f as [b n ps rt body]. cbn [wf_item af_name af_params af_return_type af_body].
  intros [[[Hn Hps]%andb_true_iff Hrt]%andb_true_iff Hbody]%andb_true_iff r Hr.
  change (print_item (ItemFn (mkAstFunction b n ps rt body))) with
    (print_pub b +:+ "fn" +:+ " " +:+ n +:+ "(" +:+ commas (map print_field ps) +:+ ")" +:+
     match rt with Some t => "->" +:+ print_return_ty t | None => "" end +:+ "{" +:+ print_block body).
  rewrite !append_assoc.
  set (R := match rt with Some t => "->" +:+ print_return_ty t | None => "" end +:+
            "{" +:+ print_block body +:+ r).
  destruct (declarations_other b "fn" (n +:+ "(" +:+ commas (map print_field ps) +:+ ")" +:+ R))
    as [H1 H2]; [done..|].
  apply choice_next; [done|]. apply choice_next; [done|].
  apply choice_next; [by apply struct_other|]. apply choice_ok.
  destruct (fields_ok ps (")" +:+ R)) as [Hf Hws]; [done|by left|].
  assert (no_ws R) as HR by (unfold R; by destruct rt).
  pose proof (body_reads body Hbody) as Hb.
  assert (Forall (λ t, wf_stmt t = true) body) as Hwfs by (eapply list.Forall_impl; [exact Hb|naive_solver]).
  eapply (map_to _ _ _ ((((b, n), ps), rt), body)); [|done]. eapply then_ok; [eapply then_ok; [eapply then_ok; [eapply then_ok|]|]|].
  - apply pub_ok; [done|done|by apply ident_no_ws].
  - by apply ident_ok.
  - eapply ignore_then_ok; [by apply punct_ok|]. eapply then_ignore_ok; [exact Hf|]. by apply punct_ok.
  - unfold R. destruct rt as [t|]; [|by apply or_not_none].
    rewrite append_assoc. destruct (return_ty_ok t ("{" +:+ print_block body +:+ r)) as [Ht Htw]; [done|done|].
    apply or_not_ok. eapply ignore_then_ok; [by apply punct_ok|exact Ht].
  - eapply (map_to _ _ _ (body, None)); [|done].
    eapply ignore_then_ok; [apply (punct_ok "{" ""); [done|by apply block_start]|].
    eapply then_ignore_ok; [|by apply (punct_ok "}" "" r)]. eapply then_ok.
    + apply at_least_Some. split; [exact (stmts_ok body r Hb)|lia].
    + apply or_not_none. by apply expr_fail.
Qed.
Lemma item_reads i : wf_item i = true → reads_item i.
Proof.
  destruct i as [n|n a alias|st|f]; intros Hwf; cbn [wf_item] in Hwf.
  - by apply read_module.
  - apply andb_true_iff in Hwf as [[Hn Ha%bool_decide_eq_true]%andb_true_iff Hal].
    apply read_use; [done|done|]. by destruct alias.
  - apply andb_true_iff in Hwf as [? ?]. by apply read_struct_item.
  - by apply read_fn.
Qed.
Lemma item_start i s : wf_item i = true → no_ws (print_item i +:+ s).
Proof.
  destruct i as [n|n a alias|st|f]; intros Hwf; try done.
  - destruct st as [[] n fs]; done.
  - destruct f as [[] n ps rt body]; done.
Qed.
Lemma items_start l : Forall (λ i, wf_item i = true) l → no_ws (print_items l).
Proof. intros [|i l' Hi _]; [done|]. by apply item_start. Qed.
Lemma items_read l : Forall (λ i, wf_item i = true) l →
  run parser (print_items l) = Some (l, "").
Proof.
  intros Hl. assert (many_run (run item) (print_items l) = (l, "")) as Hm.
  { induction Hl as [|i l Hi Hl IH]; [apply many_stop; vm_compute; reflexivity|]. cbn [print_items].
    rewrite many_run_unfold by apply (agree_item std_chumsky std_chumsky).
    rewrite (item_reads i Hi) by by apply items_start. by rewrite IH. }
  apply padded_ok; [by apply items_start|done|].
  change (at_least_run 0 (many_run (run item) (print_items l)) = Some (l, "")). by rewrite Hm.
Qed.
End items.

(** ** Parsing *)
Section parse.
Context `{HX : PrefixHex, HXL : !PrefixHexLaws, C : Chumsky, CL : !ChumskyLaws}.

Lemma parse_items_std source items :
  parse_items source = Ok items ↔ @run std_chumsky _ parser source = Some (items, "").
Proof.
  unfold parse_items. rewrite (parser_unique C std_chumsky).
  destruct (run parser source) as [[items' [|c r]]|]; naive_solver.
Qed.
Lemma parse_wf source items : parse_items source = Ok items → forallb wf_item items = true.
Proof.
  intros Hp%parse_items_std%yields_parser. apply forallb_forall.
  intros i Hi%list_elem_of_In. rewrite list.Forall_forall in Hp. by apply Hp.
Qed.
Lemma parse_print items : forallb wf_item items = true → parse_items (print_items items) = Ok items.
Proof.
  intros Hwf. apply parse_items_std, items_read. apply List.Forall_forall. by apply forallb_forall.
Qed.
End parse.
