(* ===== verification/Dfs.v ===== *)
(** * A depth-first search for a cycle

    The compiler searches for cycles twice, among modules and among structs,
    with the same recursion: [dfs_module_cycle] and [dfs_cycle] of
    [validator.rs].  The search stops at the first node it meets again on its
    path.  It always ends, a node it returns lies on a cycle, and if it
    returns none then no path from a node it visited is infinite. *)

From S2P Require Import Prelude.

Section dfs.
Context {A : Type} `{Countable A} (succs : A → list A).

(** [visited] and [in_stack]. *)
Definition DfsState : Type := gset A * gset A.

(** The loop over the successors; [rec] is the recursive call. *)
Fixpoint dfs_succs (rec : A → DfsState → option (option A * DfsState)) (l : list A)
    (st : DfsState) : option (option A * DfsState) :=
  match l with
  | [] => Some (None, st)
  | y :: l =>
      if bool_decide (y ∉ fst st) then
        '(c, st) ← rec y st;
        match c with
        | Some c => Some (Some c, st)
        | None => dfs_succs rec l st
        end
      else if bool_decide (y ∈ snd st) then Some (Some y, st)
      else dfs_succs rec l st
  end.

(** The recursion, on fuel; [None] when it runs out. *)
Fixpoint dfs_from (fuel : nat) (x : A) (st : DfsState) : option (option A * DfsState) :=
  match fuel with
  | O => None
  | S fuel =>
      let st := ({[x]} ∪ fst st, {[x]} ∪ snd st) in
      '(c, st) ← dfs_succs (dfs_from fuel) (succs x) st;
      match c with
      | Some c => Some (Some c, st)
      | None => Some (None, (fst st, snd st ∖ {[x]}))
      end
  end.

(** The loop over the starting points, each with an empty path. *)
Fixpoint dfs_all (fuel : nat) (starts : list A) (visited : gset A) : option (option A) :=
  match starts with
  | [] => Some None
  | x :: starts =>
      if bool_decide (x ∈ visited) then dfs_all fuel starts visited
      else
        '(c, st) ← dfs_from fuel x (visited, ∅);
        match c with
        | Some c => Some (Some c)
        | None => dfs_all fuel starts (fst st)
        end
  end.

(** ** Correctness *)
Definition edge (x y : A) : Prop := y ∈ succs x.
Notation grounded := (set_Forall (Acc (flip edge))).

(** All nodes, and the ones the search has not entered. *)
Context (U : gset A) (HU : ∀ x y, x ∈ U → y ∈ succs x → y ∈ U).
Definition dfs_left (st : DfsState) : nat := size (U ∖ fst st).

(** What a part of the search below [x] leaves behind. *)
Record dfs_post (x : A) (st : DfsState) (c : option A) (st' : DfsState) : Prop := {
  dp_visited : fst st ⊆ fst st';
  dp_stack : c = None → snd st' = snd st;
  dp_grounded : c = None → grounded (fst st ∖ snd st) → grounded (fst st' ∖ snd st');
  dp_cycle y : c = Some y → set_Forall (λ z, rtc edge z x) (snd st) → tc edge y y;
}.

Definition rec_ok (n : nat) (rec : A → DfsState → option (option A * DfsState)) : Prop :=
  ∀ x st, x ∈ U → x ∉ fst st → snd st ⊆ fst st → dfs_left st ≤ n →
    ∃ c st', rec x st = Some (c, st') ∧ dfs_post x st c st' ∧ x ∈ fst st'.

Lemma dfs_left_mono st st' : fst st ⊆ fst st' → dfs_left st' ≤ dfs_left st.
Proof. intros Hs. unfold dfs_left. apply subseteq_size. set_solver. Qed.

Lemma dfs_succs_ok n rec x l st :
  rec_ok n rec → snd st ⊆ fst st → dfs_left st ≤ n → x ∈ U → (∀ y, y ∈ l → edge x y) →
  ∃ c st', dfs_succs rec l st = Some (c, st') ∧ dfs_post x st c st' ∧
    (c = None → ∀ y, y ∈ l → y ∈ fst st' ∧ y ∉ snd st).
Proof using HU.
  intros Hrec. revert st. induction l as [|y l IH]; intros st Hs Hn Hx Hl; simpl.
  { exists None, st. split_and!; [done| |by intros _ y ?%not_elem_of_nil]. by split. }
  assert (Hxy : edge x y) by (apply Hl; by left).
  assert (Hl' : ∀ z, z ∈ l → edge x z) by (intros; apply Hl; by right).
  case_bool_decide as Hv.
  - destruct (Hrec y st) as (c & st1 & -> & [V1 S1 G1 C1] & Hy); [by apply (HU x)|done..|]. simpl.
    destruct c as [c|].
    + exists (Some c), st1. split_and!; [done| |done]. split; [done..|]. intros z [= ->] Hz.
      apply (C1 z); [done|]. intros w Hw. etrans; [by apply Hz|by apply rtc_once].
    + destruct (IH st1) as (c & st2 & -> & [V2 S2 G2 C2] & Hin).
      { rewrite S1 by done. set_solver. }
      { pose proof (dfs_left_mono st st1 V1). lia. }
      { done. } { done. }
      exists c, st2. split_and!; [done| |].
      * split; [set_solver|intros Hc; rewrite S2, S1; done|auto|]. intros z Hz Hst. apply (C2 z); [done|].
        by rewrite S1.
      * intros Hc z [->|Hz]%elem_of_cons; [split; [set_solver|]|].
        -- intros Hst. set_solver.
        -- destruct (Hin Hc z Hz). rewrite S1 in * by done. done.
  - case_bool_decide as Hst.
    + exists (Some y), st. split_and!; [done| |done]. split; [done..|]. intros z [= <-] Hz.
      apply tc_rtc_l with x; [by apply Hz|by apply tc_once].
    + destruct (IH st) as (c & st' & -> & [V2 S2 G2 C2] & Hin); [done..|].
      exists c, st'. split_and!; [done|by split|].
      intros Hc z [->|Hz]%elem_of_cons; [split; [set_solver|done]|by apply Hin].
Qed.

Lemma dfs_from_ok n : rec_ok n (dfs_from n).
Proof using HU.
  induction n as [|n IH]; intros x [v s] Hx Hv Hs Hn; simpl in *.
  { exfalso. unfold dfs_left in Hn. simpl in Hn. assert (size (U ∖ v) = 0) as Hz by lia.
    apply size_empty_inv in Hz. set_solver. }
  destruct (dfs_succs_ok n (dfs_from n) x (succs x) ({[x]} ∪ v, {[x]} ∪ s))
    as (c & st & -> & [V1 S1 G1 C1] & Hin); simpl in *; [done|set_solver| |done|done|].
  { unfold dfs_left in *. simpl in *.
    enough (size (U ∖ ({[x]} ∪ v)) < size (U ∖ v)) by lia. apply subset_size. set_solver. }
  destruct c as [c|].
  - exists (Some c), st. split_and!; [done| |set_solver]. split; [simpl; set_solver|done..|].
    intros y [= ->] Hst. simpl in *. apply (C1 y); [done|].
    intros z [->%elem_of_singleton|Hz]%elem_of_union; [done|by apply Hst].
  - assert (Hst : snd st ∖ {[x]} = s) by (rewrite S1 by done; set_solver).
    exists None, (fst st, snd st ∖ {[x]}). split_and!; [done| |simpl; set_solver]. split; simpl.
    + set_solver.
    + done.
    + intros _ Hg. rewrite Hst. rewrite S1 in G1 by done.
      assert (Hg1 : grounded (fst st ∖ ({[x]} ∪ s))).
      { apply G1; [done|]. intros y Hy. apply Hg. set_solver. }
      intros y Hy. destruct (decide (y = x)) as [->|Hne]; [|apply Hg1; set_solver].
      constructor. intros z Hz. apply Hg1. destruct (Hin eq_refl z Hz) as [Hz1 Hz2]. set_solver.
    + done.
Qed.

Lemma dfs_all_ok fuel starts v :
  size U ≤ fuel → (∀ x, x ∈ starts → x ∈ U) → grounded v →
  ∃ c, dfs_all fuel starts v = Some c ∧
    match c with
    | None => ∀ x, x ∈ starts → Acc (flip edge) x
    | Some y => tc edge y y
    end.
Proof using HU.
  intros Hf. revert v. induction starts as [|x starts IH]; intros v HUs Hg; simpl.
  { exists None. split; [done|]. by intros ? ?%not_elem_of_nil. }
  assert (HUs' : ∀ y, y ∈ starts → y ∈ U) by (intros; apply HUs; by right).
  case_bool_decide as Hv.
  - destruct (IH v) as (c & -> & Hc); [done..|]. exists c. split; [done|]. destruct c; [done|].
    intros y [->|?]%elem_of_cons; auto.
  - destruct (dfs_from_ok fuel x (v, ∅)) as (c & st & -> & [V1 S1 G1 C1] & Hin);
      [apply HUs; by left|done|simpl; set_solver| |].
    { unfold dfs_left. simpl. etrans; [|exact Hf]. apply subseteq_size. set_solver. }
    destruct c as [c|]; simpl in *.
    + exists (Some c). split; [done|]. by apply C1.
    + assert (Hg1 : grounded (fst st)).
      { specialize (G1 eq_refl). rewrite S1, !difference_empty_L in G1 by done. by apply G1. }
      destruct (IH (fst st)) as (c & -> & Hc); [done..|]. exists c. split; [done|].
      destruct c; [done|]. intros y [->|?]%elem_of_cons; auto.
Qed.

End dfs.
