(* ===== verification/CompilerValidator.v ===== *)
(** * Semantic checks of the compiler

    Models [validator.rs] of [meow-vm-compiler].  All errors are messages;
    [HashSet]s of names are finite sets. *)

From S2P Require Import Prelude Address VmTypes ErrorText Ast Dfs.

Notation CResult A := (outcome CompilerError.t A).

(** A loop that stops at the first error. *)
Fixpoint for_each {A} (f : A → CResult ()) (l : list A) : CResult () :=
  match l with
  | [] => Ok ()
  | x :: l => f x ;; for_each f l
  end.

(** [validate_identifier]. *)
Definition validate_identifier (name context : string) (config : CompilerConfig) : CResult () :=
  guard_err (negb (is_valid_identifier name config))
    (cerr (context +:+ ": " +:+ quoted name +:+ " is not a valid identifier (must start with a letter or underscore, followed by letters, digits, or underscores; max " +:+
           pretty (max_identifier_len config) +:+ " characters)")).

(** [validate_function_name]. *)
Definition validate_function_name (name : string) (config : CompilerConfig) : CResult () :=
  validate_identifier name "function name" config ;;
  guard_err (bool_decide (name ∈ RESERVED_FUNCTION_NAMES) ||
             bool_decide (name ∈ reserved_function_names config))
    (cerr ("function name " +:+ quoted name +:+ " is reserved for a built-in native function")).

(** [validate_struct_def]. *)
Definition validate_struct_def (def : AstStruct) (config : CompilerConfig) : CResult () :=
  validate_identifier (as_name def) "struct name" config ;;
  guard_err (bool_decide (as_fields def = []))
    (cerr ("struct " +:+ quoted (as_name def) +:+ ": must have at least one field")) ;;
  guard_err (bool_decide (max_fields config < length (as_fields def)))
    (cerr ("struct " +:+ quoted (as_name def) +:+ ": too many fields (" +:+
           pretty (length (as_fields def)) +:+ " > limit of " +:+ pretty (max_fields config) +:+ ")")) ;;
  for_each (λ '(field_name, ty),
    validate_identifier field_name ("field in struct " +:+ quoted (as_name def)) config ;;
    guard_err (negb (Ty.is_valid_field_type ty))
      (cerr ("struct " +:+ quoted (as_name def) +:+ ": field " +:+ quoted field_name +:+
             " has type " +:+ quoted (Ty.name ty) +:+
             " which is not allowed as a field type — only primitives (bool, u64, address, string) and structs are allowed")))
    (as_fields def).

(** [ast_fields_to_field_defs]. *)
Definition ast_fields_to_field_defs (fields : list (string * Ty.t)) : list FieldDef :=
  map (λ '(name, ty), mkFieldDef name ty) fields.

Section translate.
Context `{PrefixHex} (dep_addresses : gmap string Address).

(** [translate_type]: unlike the code generator's, it leaves a name with an
    undeclared module alone. *)
Fixpoint translate_field_type (ty : Ty.t) : Ty.t :=
  match ty with
  | Ty.Struct name =>
      match split_once name with
      | Some (mod_name, type_name) =>
          match dep_addresses !! mod_name with
          | Some addr => Ty.Struct (qualify addr type_name)
          | None => ty
          end
      | None => ty
      end
  | Ty.Tuple types => Ty.Tuple (map translate_field_type types)
  | _ => ty
  end.

(** [translate_struct_field_types]. *)
Definition translate_struct_field_types (structs : list StructDef) : list StructDef :=
  map (λ def, mkStructDef (sd_name def)
                (map (λ f, mkFieldDef (fd_name f) (translate_field_type (fd_ty f)))
                   (sd_fields def)) (sd_is_public def)) structs.
End translate.

(** ** Module cycles *)
Section module_cycles.
Context `{PrefixHex} (deps : list (Address * VmModule)).

Definition dep_map : gmap Address VmModule := foldl (λ m p, <[fst p := snd p]> m) ∅ deps.

(** The imports that [dfs_module_cycle] follows. *)
Definition known_imports (a : Address) : list Address :=
  match dep_map !! a with
  | Some m => filter (λ b, is_Some (dep_map !! b)) (mod_imports m)
  | None => []
  end.

(** [dfs_module_cycle] and the loop of [detect_module_dep_cycles]; the path is
    new for every starting point. *)
Definition module_cycle : option (option Address) :=
  dfs_all known_imports (length deps) (map fst deps) ∅.

(** [detect_module_dep_cycles]. *)
Definition detect_module_dep_cycles : CResult () :=
  match module_cycle with
  | None => NoFuel
  | Some None => Ok ()
  | Some (Some addr) =>
      let name := match dep_map !! addr with Some m => mod_name m | None => "<unknown>" end in
      Err (cerr ("circular module dependency detected: module " +:+ quoted name +:+ " at " +:+
                 address_to_string addr +:+ " is part of a recursive import chain"))
  end.
End module_cycles.

(** ** Struct references and cycles *)
Section structs.
Context (local_structs dep_structs : list StructDef).
Definition all_defs : list StructDef := local_structs ++ dep_structs.
Definition known_struct_names : gset string := list_to_set (map sd_name all_defs).

(** [check_type_ref_known]. *)
Fixpoint check_type_ref_known (context : string) (ty : Ty.t) : CResult () :=
  match ty with
  | Ty.Struct name =>
      guard_err (bool_decide (name ∉ known_struct_names))
        (cerr (context +:+ " references unknown struct " +:+ quoted name))
  | Ty.Tuple types =>
      (fix go types := match types with
       | [] => Ok ()
       | t :: types => check_type_ref_known context t ;; go types
       end) types
  | _ => Ok ()
  end.

(** [validate_function_type_refs]. *)
Definition validate_function_type_refs (functions : list AstFunction) : CResult () :=
  for_each (λ f,
    for_each (λ '(param_name, ty),
      check_type_ref_known ("function " +:+ quoted (af_name f) +:+ " parameter " +:+
                            quoted param_name) ty) (af_params f) ;;
    match af_return_type f with
    | Some ty => check_type_ref_known ("function " +:+ quoted (af_name f) +:+ " return type") ty
    | None => Ok ()
    end) functions.

(** The structs that [dfs_cycle] follows from a name. *)
Definition struct_refs (def : StructDef) : list string :=
  omap (λ f, match fd_ty f with Ty.Struct n => Some n | _ => None end) (sd_fields def).
Definition referenced (name : string) : list string :=
  match find_first (λ s, String.eqb (sd_name s) name) all_defs with
  | Some def => struct_refs def
  | None => []
  end.

(** [dfs_cycle] and the loop of [detect_struct_cycles].  The path is shared by
    the starting points; a search that finds no cycle leaves it empty. *)
Definition struct_cycle_fuel : nat :=
  length (map sd_name all_defs ++ (all_defs ≫= struct_refs)).
Definition struct_cycle : option (option string) :=
  dfs_all referenced struct_cycle_fuel (map sd_name local_structs) ∅.

(** [detect_struct_cycles]. *)
Definition detect_struct_cycles : CResult () :=
  match struct_cycle with
  | None => NoFuel
  | Some None => Ok ()
  | Some (Some name) =>
      Err (cerr ("struct cycle detected: " +:+ quoted name +:+
                 " is part of a recursive struct definition"))
  end.

(** [validate_struct_refs]. *)
Definition validate_struct_refs : CResult () :=
  for_each (λ def,
    for_each (λ field,
      match fd_ty field with
      | Ty.Struct sname =>
          guard_err (bool_decide (sname ∉ known_struct_names))
            (cerr ("struct " +:+ quoted (sd_name def) +:+ ": field " +:+ quoted (fd_name field) +:+
                   " references unknown struct " +:+ quoted sname))
      | _ => Ok ()
      end) (sd_fields def)) local_structs ;;
  detect_struct_cycles.
End structs.

(** ** The searches are exact *)
Section cycles_exact.

Lemma size_list_to_set_le {A} `{Countable A} (l : list A) :
  size (list_to_set l : gset A) ≤ length l.
Proof.
  induction l as [|x l IH]; [done|]. rewrite list_to_set_cons; cbn [length].
  rewrite size_union_alt, size_singleton.
  assert (list_to_set l ∖ {[x]} ⊆ (list_to_set l : gset A)) as ?%subseteq_size by set_solver. lia.
Qed.

Lemma dep_map_dom deps a : is_Some (dep_map deps !! a) → a ∈ map fst deps.
Proof.
  unfold dep_map. enough (∀ m : gmap Address VmModule,
    is_Some (foldl (λ m p, <[fst p := snd p]> m) m deps !! a) → is_Some (m !! a) ∨ a ∈ map fst deps)
    as Hgen.
  { intros Ha. destruct (Hgen ∅ Ha) as [[? Hx]|?]; [by rewrite lookup_empty in Hx|done]. }
  induction deps as [|[b m'] deps IH]; intros m; simpl; [by left|]. intros Ha.
  destruct (IH _ Ha) as [Hx|Hx]; [|right; by right].
  destruct (decide (b = a)) as [->|Hne]; [right; by left|]. left.
  by rewrite lookup_insert_ne in Hx.
Qed.

Notation import_edge deps := (edge (known_imports deps)).

Lemma known_imports_in deps a b :
  b ∈ known_imports deps a → is_Some (dep_map deps !! a) ∧ is_Some (dep_map deps !! b).
Proof.
  unfold known_imports. destruct (dep_map deps !! a) as [m|]; [|by intros ?%not_elem_of_nil].
  rewrite list_elem_of_filter. intros [? _]. split; [by eexists|done].
Qed.

Lemma module_cycle_spec deps :
  ∃ c, module_cycle deps = Some c ∧
    match c with
    | None => well_founded (flip (import_edge deps))
    | Some a => tc (import_edge deps) a a
    end.
Proof.
  destruct (dfs_all_ok (known_imports deps) (list_to_set (map fst deps)))
    with (fuel := length deps) (starts := map fst deps) (v := ∅ : gset Address)
    as (c & Hc & Hspec).
  - intros a b _ [_ Hb]%known_imports_in. apply elem_of_list_to_set. by apply dep_map_dom.
  - rewrite <-(length_fmap fst deps). apply size_list_to_set_le.
  - intros x. by rewrite elem_of_list_to_set.
  - by intros ? ?%not_elem_of_empty.
  - exists c. split; [done|]. destruct c as [a|]; [done|]. intros x.
    destruct (decide (x ∈ map fst deps)) as [?|Hn]; [by apply Hspec|]. constructor.
    intros y [Hx _]%known_imports_in. by apply dep_map_dom in Hx.
Qed.

Lemma detect_module_cycles_exact `{PrefixHex} deps :
  (detect_module_dep_cycles deps = Ok () ∧ well_founded (flip (import_edge deps))) ∨
  (∃ e a, detect_module_dep_cycles deps = Err e ∧ tc (import_edge deps) a a).
Proof.
  unfold detect_module_dep_cycles. destruct (module_cycle_spec deps) as ([a|] & -> & Hc); [right|by left].
  eauto.
Qed.

Lemma referenced_in local_structs dep_structs x y :
  y ∈ referenced local_structs dep_structs x →
  x ∈ map sd_name (all_defs local_structs dep_structs) ∧
  y ∈ (all_defs local_structs dep_structs ≫= struct_refs).
Proof.
  unfold referenced. destruct (find_first _ _) as [def|] eqn:Hf; [|by intros ?%not_elem_of_nil].
  apply find_first_Some in Hf as [Hd Hx%String.eqb_eq]. intros Hy. split.
  - apply list_elem_of_fmap. eauto.
  - apply list_elem_of_bind. eauto.
Qed.

Lemma struct_cycle_spec local_structs dep_structs :
  ∃ c, struct_cycle local_structs dep_structs = Some c ∧
    match c with
    | None => ∀ s, s ∈ local_structs →
        Acc (flip (edge (referenced local_structs dep_structs))) (sd_name s)
    | Some x => tc (edge (referenced local_structs dep_structs)) x x
    end.
Proof.
  set (U := map sd_name (all_defs local_structs dep_structs) ++
    (all_defs local_structs dep_structs ≫= struct_refs)).
  destruct (dfs_all_ok (referenced local_structs dep_structs) (list_to_set U))
    with (fuel := struct_cycle_fuel local_structs dep_structs)
      (starts := map sd_name local_structs) (v := ∅ : gset string) as (c & Hc & Hspec).
  - intros x y _ [_ Hy]%referenced_in. apply elem_of_list_to_set, elem_of_app. by right.
  - apply size_list_to_set_le.
  - intros x Hx. apply elem_of_list_to_set, elem_of_app. left. unfold all_defs.
    rewrite map_app. apply elem_of_app. by left.
  - by intros ? ?%not_elem_of_empty.
  - exists c. split; [done|]. destruct c; [done|]. intros s Hs. apply Hspec, list_elem_of_fmap. eauto.
Qed.

Lemma detect_struct_cycles_returns l d : no_panic (detect_struct_cycles l d).
Proof.
  unfold detect_struct_cycles. by destruct (struct_cycle_spec l d) as ([|] & -> & _).
Qed.
End cycles_exact.
