(* ===== verification/TypeChecker.v ===== *)
(** * The type checker of the compiler

    Models [type_checker.rs] of [meow-vm-compiler].  Locals are a finite map;
    a call in a nested position is typed where it stands, so the types of the
    fields of a struct literal are computed once and looked up by name. *)

From S2P Require Import Prelude Address VmTypes ErrorText Ast CompilerValidator.

(** The order in which a [HashMap] of declared modules is iterated, which the
    standard library leaves open. *)
Class HashOrder := { hash_iter : gmap string Address → list (string * Address) }.
Class HashOrderLaws `{HashOrder} := { hash_iter_perm m : hash_iter m ≡ₚ map_to_list m }.

(** [HashMap::from_iter], [collect]: a later entry wins. *)
Definition collect_map {A} (l : list (string * A)) : gmap string A :=
  foldl (λ m p, <[fst p := snd p]> m) ∅ l.

(** [StructInfo]: the fields of a struct with their source-level types. *)
Definition StructInfo : Type := list (string * Ty.t).
Definition field_type (info : StructInfo) (field : string) : option Ty.t :=
  snd <$> find_first (λ f, String.eqb (fst f) field) info.

Record TypeChecker := mkChecker {
  source_structs : gmap string StructInfo;
  source_fns : gmap string (list Ty.t * option Ty.t);
  native_fns : gmap string (list NativeParam * option Ty.t);
}.

(** [type_display]. *)
Fixpoint type_display (ty : Ty.t) : string :=
  match ty with
  | Ty.Bool => "bool"
  | Ty.U64 => "u64"
  | Ty.Address => "address"
  | Ty.Str => "string"
  | Ty.Struct name => name
  | Ty.Tuple types => "(" +:+ Ty.join ", " (map type_display types) +:+ ")"
  end.

Section checker.
Context (tc : TypeChecker) (fn_name : string) (return_type : option Ty.t).
Notation Locals := (gmap string Ty.t).

(** [type_err]. *)
Definition type_err (msg : string) : CompilerError.t :=
  cerr ("in function " +:+ quoted fn_name +:+ ": " +:+ msg).

(** [expect_type]. *)
Definition expect_type (actual expected : Ty.t) (context : string) : CResult () :=
  guard_err (bool_decide (actual ≠ expected))
    (type_err (context +:+ ": expected " +:+ type_display expected +:+ ", found " +:+
               type_display actual)).

(** [require_typed], given what [expr_type] returned. *)
Definition require_value (r : CResult (option Ty.t)) (context : string) : CResult Ty.t :=
  ty ← r;
  ok_or ty (type_err (context +:+ ": void expression cannot be used as a value")).

(** [check_binop], from the types of the operands. *)
Definition binop_type (op : BinOp.t) (lty rty : Ty.t) : CResult Ty.t :=
  match op with
  | BinOp.Add | BinOp.Sub | BinOp.Mul | BinOp.Div | BinOp.Mod =>
      expect_type lty Ty.U64 "left operand of arithmetic op" ;;
      expect_type rty Ty.U64 "right operand of arithmetic op" ;;
      Ok Ty.U64
  | BinOp.Lt | BinOp.Le | BinOp.Gt | BinOp.Ge =>
      expect_type lty Ty.U64 "left operand of comparison" ;;
      expect_type rty Ty.U64 "right operand of comparison" ;;
      Ok Ty.Bool
  | BinOp.Eq | BinOp.Ne =>
      guard_err (Ty.is_linear lty || Ty.is_linear rty)
        (type_err (quoted (Ty.name (if Ty.is_linear lty then lty else rty)) +:+
                   ": struct types and tuples containing structs cannot be compared with == or != — destructure and compare fields individually")) ;;
      expect_type rty lty "right operand of equality" ;;
      Ok Ty.Bool
  | BinOp.And | BinOp.Or =>
      expect_type lty Ty.Bool "left operand of logical op" ;;
      expect_type rty Ty.Bool "right operand of logical op" ;;
      Ok Ty.Bool
  end.

(** One argument of a native. *)
Definition check_native_arg (name : string) (i : nat) (actual : Ty.t) (param : NativeParam)
  : CResult () :=
  let arg := "argument " +:+ pretty (i + 1) +:+ " of " +:+ quoted name in
  match param with
  | Concrete expected => expect_type actual expected arg
  | AnyStruct =>
      match actual with
      | Ty.Struct _ => Ok ()
      | other => Err (type_err (arg +:+ ": expected a struct, found " +:+ type_display other))
      end
  | LocalStruct =>
      match actual with
      | Ty.Struct n =>
          guard_err (is_qualified n)
            (type_err (arg +:+ ": expected a struct defined in this module, found " +:+
                       type_display actual))
      | other =>
          Err (type_err (arg +:+ ": expected a struct defined in this module, found " +:+
                         type_display other))
      end
  end.

(** The argument loops, over the shorter of the two lists. *)
Fixpoint check_native_args (name : string) (i : nat) (args : list Ty.t)
    (params : list NativeParam) : CResult () :=
  match args, params with
  | a :: args, p :: params =>
      check_native_arg name i a p ;; check_native_args name (S i) args params
  | _, _ => Ok ()
  end.
Fixpoint check_fn_args (name : string) (i : nat) (args params : list Ty.t) : CResult () :=
  match args, params with
  | a :: args, p :: params =>
      expect_type a p ("argument " +:+ pretty (i + 1) +:+ " of " +:+ quoted name) ;;
      check_fn_args name (S i) args params
  | _, _ => Ok ()
  end.

Definition check_arg_count (name : string) (expected found : nat) : CResult () :=
  guard_err (bool_decide (found ≠ expected))
    (type_err ("call to " +:+ quoted name +:+ ": expected " +:+ pretty expected +:+
               " argument(s), found " +:+ pretty found)).

(** [check_call], from the types of the arguments. *)
Definition call_type (name : string) (arg_types : list Ty.t) : CResult (option Ty.t) :=
  match native_fns tc !! name with
  | Some (params, ret) =>
      check_arg_count name (length params) (length arg_types) ;;
      check_native_args name 0 arg_types params ;;
      Ok ret
  | None =>
      match source_fns tc !! name with
      | Some (params, ret) =>
          check_arg_count name (length params) (length arg_types) ;;
          check_fn_args name 0 arg_types params ;;
          Ok ret
      | None => Ok None
      end
  end.

(** The field loop of a struct literal; [lit] has the typed expressions. *)
Fixpoint check_lit_fields (name : string) (lit : gmap string (CResult (option Ty.t)))
    (def_fields : StructInfo) : CResult () :=
  match def_fields with
  | [] => Ok ()
  | (field_name, field_ty) :: def_fields =>
      let what := "field " +:+ quoted field_name +:+ " in " +:+ quoted name in
      r ← ok_or (lit !! field_name)
            (type_err ("missing field " +:+ quoted field_name +:+ " in struct literal " +:+
                       quoted name));
      actual ← require_value r what;
      expect_type actual field_ty what ;;
      check_lit_fields name lit def_fields
  end.

(** [expr_type]. *)
Fixpoint expr_type (e : Expr.t) (locals : Locals) : CResult (option Ty.t) :=
  match e with
  | Expr.Bool _ => Ok (Some Ty.Bool)
  | Expr.Int _ => Ok (Some Ty.U64)
  | Expr.Address _ => Ok (Some Ty.Address)
  | Expr.Str _ => Ok (Some Ty.Str)
  | Expr.Ident name =>
      ty ← ok_or (locals !! name) (type_err ("undefined variable " +:+ quoted name));
      Ok (Some ty)
  | Expr.UnaryOp UnaryOp.Not e =>
      ty ← require_value (expr_type e locals) "unary '!'";
      expect_type ty Ty.Bool "operand of '!'" ;;
      Ok (Some Ty.Bool)
  | Expr.BinOp l op r =>
      lty ← require_value (expr_type l locals) "left operand";
      rty ← require_value (expr_type r locals) "right operand";
      Some <$> binop_type op lty rty
  | Expr.StructLit name fields =>
      if is_qualified name then Ok (Some (Ty.Struct name))
      else
        def_fields ← ok_or (source_structs tc !! name) (type_err ("unknown struct " +:+ quoted name));
        check_lit_fields name (collect_map (map (λ f, (fst f, expr_type (snd f) locals)) fields))
          def_fields ;;
        for_each (λ f : string * Expr.t,
          guard_err (negb (existsb (λ d, String.eqb (fst d) (fst f)) def_fields))
            (type_err ("unknown field " +:+ quoted (fst f) +:+ " in struct literal " +:+
                       quoted name))) fields ;;
        Ok (Some (Ty.Struct name))
  | Expr.FieldAccess base field =>
      base_ty ← require_value (expr_type base locals) "field access base";
      match base_ty with
      | Ty.Struct struct_name =>
          guard_err (is_qualified struct_name)
            (type_err ("fields of " +:+ quoted struct_name +:+
                       " are private — use a public getter function to access them")) ;;
          info ← ok_or (source_structs tc !! struct_name)
                   (type_err ("unknown struct " +:+ quoted struct_name));
          ty ← ok_or (field_type info field)
                 (type_err ("no field " +:+ quoted field +:+ " on struct " +:+ quoted struct_name));
          Ok (Some ty)
      | other =>
          Err (type_err ("field access '." +:+ field +:+ "' requires a struct, found " +:+
                         type_display other))
      end
  | Expr.Call name args =>
      arg_types ← (fix go args := match args with
                   | [] => Ok []
                   | a :: args =>
                       ty ← require_value (expr_type a locals) ("argument to " +:+ quoted name);
                       tys ← go args; Ok (ty :: tys)
                   end) args;
      call_type name arg_types
  | Expr.Tuple items =>
      types ← (fix go items := match items with
               | [] => Ok []
               | a :: items =>
                   ty ← require_value (expr_type a locals) "tuple element";
                   tys ← go items; Ok (ty :: tys)
               end) items;
      Ok (Some (Ty.Tuple types))
  end.

(** The path loop of a field assignment. *)
Fixpoint check_field_path (path_display : string) (expr : Expr.t) (locals : Locals)
    (current_ty : Ty.t) (path : list string) : CResult () :=
  match path with
  | [] => Ok ()
  | field_name :: path =>
      match current_ty with
      | Ty.Struct struct_name =>
          if is_qualified struct_name then expr_type expr locals ;; Ok ()
          else
            info ← ok_or (source_structs tc !! struct_name)
                     (type_err ("unknown struct " +:+ quoted struct_name));
            field_ty ← ok_or (field_type info field_name)
                         (type_err ("no field " +:+ quoted field_name +:+ " on struct " +:+
                                    quoted struct_name));
            match path with
            | [] =>
                r ← expr_type expr locals;
                match r with
                | Some actual =>
                    expect_type actual field_ty ("assignment to " +:+ quoted path_display)
                | None => Ok ()
                end
            | _ => check_field_path path_display expr locals field_ty path
            end
      | other =>
          Err (type_err ("field access on non-struct type " +:+ type_display other +:+ " in " +:+
                         quoted path_display))
      end
  end.

(** The bindings of the two destructuring statements; [_] binds nothing. *)
Fixpoint bind_tuple (names : list string) (types : list Ty.t) (locals : Locals) : Locals :=
  match names, types with
  | name :: names, ty :: types =>
      bind_tuple names types (if String.eqb name "_" then locals else <[name := ty]> locals)
  | _, _ => locals
  end.
Fixpoint bind_struct (type_name : string) (fields : StructInfo) (bindings : list (string * string))
    (locals : Locals) : CResult Locals :=
  match bindings with
  | [] => Ok locals
  | (field_name, binding_name) :: bindings =>
      if String.eqb binding_name "_" then bind_struct type_name fields bindings locals
      else
        ty ← ok_or (field_type fields field_name)
               (type_err ("struct destructuring of " +:+ quoted type_name +:+ ": unknown field " +:+
                          quoted field_name));
        bind_struct type_name fields bindings (<[binding_name := ty]> locals)
  end.

(** [check_stmt]: the locals after the statement. *)
Fixpoint check_stmt (s : Stmt.t) (locals : Locals) : CResult Locals :=
  match s with
  | Stmt.Let name expr =>
      r ← expr_type expr locals;
      ty ← ok_or r (type_err ("let binding " +:+ quoted name +:+
                              ": void expression cannot be used as a value"));
      Ok (<[name := ty]> locals)
  | Stmt.Reassign name expr =>
      expected ← ok_or (locals !! name)
                   (type_err ("assignment to undefined variable " +:+ quoted name));
      r ← expr_type expr locals;
      match r with
      | Some actual => expect_type actual expected ("assignment to " +:+ quoted name)
      | None => Ok ()
      end ;;
      Ok locals
  | Stmt.Return opt_expr =>
      match return_type, opt_expr with
      | None, None => Ok ()
      | None, Some e => expr_type e locals ;; Ok ()
      | Some ret_ty, None =>
          Err (type_err ("return without value in function that returns " +:+ type_display ret_ty))
      | Some ret_ty, Some e =>
          r ← expr_type e locals;
          match r with
          | Some actual => expect_type actual ret_ty "return value"
          | None => Ok ()
          end
      end ;;
      Ok locals
  | Stmt.Expr expr => expr_type expr locals ;; Ok locals
  | Stmt.If cond body else_body =>
      let go := fix go stmts (locals : Locals) : CResult Locals :=
        match stmts with
        | [] => Ok locals
        | s :: stmts => locals ← check_stmt s locals; go stmts locals
        end in
      cond_ty ← require_value (expr_type cond locals) "if condition";
      expect_type cond_ty Ty.Bool "if condition" ;;
      go body locals ;;
      match else_body with Some else_stmts => go else_stmts locals ;; Ok () | None => Ok () end ;;
      Ok locals
  | Stmt.FieldAssign obj_name field_path expr =>
      obj_ty ← ok_or (locals !! obj_name) (type_err ("undefined variable " +:+ quoted obj_name));
      check_field_path (obj_name +:+ "." +:+ Ty.join "." field_path) expr locals obj_ty field_path ;;
      Ok locals
  | Stmt.LetTuple names expr =>
      ty ← require_value (expr_type expr locals) "tuple destructuring";
      match ty with
      | Ty.Tuple types =>
          guard_err (bool_decide (length names ≠ length types))
            (type_err ("let tuple: " +:+ pretty (length names) +:+ " names but tuple has " +:+
                       pretty (length types) +:+ " elements")) ;;
          Ok (bind_tuple names types locals)
      | other =>
          Err (type_err ("let tuple destructuring: expected a tuple, found " +:+ type_display other))
      end
  | Stmt.LetStruct type_name bindings expr _ =>
      ty ← require_value (expr_type expr locals) "struct destructuring";
      (if is_qualified type_name then Ok ()
       else expect_type ty (Ty.Struct type_name)
              ("struct destructuring of " +:+ quoted type_name)) ;;
      match source_structs tc !! type_name with
      | Some fields => bind_struct type_name fields bindings locals
      | None => Ok locals
      end
  end.

Fixpoint check_stmts (stmts : list Stmt.t) (locals : Locals) : CResult Locals :=
  match stmts with
  | [] => Ok locals
  | s :: stmts => locals ← check_stmt s locals; check_stmts stmts locals
  end.
End checker.

(** [check_function]. *)
Definition check_source_function (tc : TypeChecker) (func : AstFunction) : CResult () :=
  check_stmts tc (af_name func) (af_return_type func) (af_body func)
    (collect_map (af_params func)) ;;
  Ok ().

(** ** Source-level names of the types of dependencies *)
Section names.
Context `{PrefixHex}.

(** [reverse_translate_type]. *)
Fixpoint reverse_translate_type (addr_to_dep : gmap Address string) (ty : Ty.t) : Ty.t :=
  match ty with
  | Ty.Struct name =>
      match parse_module_ref name with
      | Some (addr, rest) =>
          match addr_to_dep !! addr with
          | Some dep_name => Ty.Struct (dep_name +:+ "::" +:+ rest)
          | None => ty
          end
      | None => ty
      end
  | Ty.Tuple types => Ty.Tuple (map (reverse_translate_type addr_to_dep) types)
  | _ => ty
  end.

(** [qualify_dep_local_type]. *)
Definition starts_with_at (s : string) : bool :=
  match s with String c _ => Ascii.eqb c "@" | EmptyString => false end.
Fixpoint qualify_dep_local_type (dep_name : string) (dep_struct_names : list string) (ty : Ty.t)
  : Ty.t :=
  match ty with
  | Ty.Struct name =>
      if negb (is_qualified name) && negb (starts_with_at name) &&
         bool_decide (name ∈ dep_struct_names)
      then Ty.Struct (dep_name +:+ "::" +:+ name) else ty
  | Ty.Tuple types => Ty.Tuple (map (qualify_dep_local_type dep_name dep_struct_names) types)
  | _ => ty
  end.

(** The maps that [check] builds: [addr_to_dep] in iteration order. *)
Context `{HashOrder} (dep_addresses : gmap string Address) (dep_modules : gmap Address VmModule).
Definition addr_to_dep : gmap Address string :=
  foldl (λ m p, <[snd p := fst p]> m) ∅ (hash_iter dep_addresses).

(** The type of a dependency, as the caller writes it. *)
Definition caller_type (dep_name : string) (dep : VmModule) (ty : Ty.t) : Ty.t :=
  qualify_dep_local_type dep_name (map sd_name (mod_structs dep))
    (reverse_translate_type addr_to_dep ty).

(** A loop over the declared dependencies. *)
Definition for_deps {A} (f : string → VmModule → gmap string A → gmap string A)
    (m : gmap string A) : gmap string A :=
  foldl (λ m p, match addr_to_dep !! fst p with
                | Some dep_name => f dep_name (snd p) m
                | None => m
                end) m (map_to_list dep_modules).

Definition dep_struct_infos (dep_name : string) (dep : VmModule) (m : gmap string StructInfo)
  : gmap string StructInfo :=
  foldl (λ m s, if sd_is_public s
                then <[dep_name +:+ "::" +:+ sd_name s :=
                        map (λ f, (fd_name f, caller_type dep_name dep (fd_ty f))) (sd_fields s)]> m
                else m) m (mod_structs dep).
Definition dep_fn_sigs (dep_name : string) (dep : VmModule)
    (m : gmap string (list Ty.t * option Ty.t)) : gmap string (list Ty.t * option Ty.t) :=
  foldl (λ m f, if fn_is_public f
                then <[dep_name +:+ "::" +:+ fn_name f :=
                        (map (λ p, caller_type dep_name dep (snd p)) (fn_params f),
                         caller_type dep_name dep <$> fn_return_type f)]> m
                else m) m (mod_functions dep).

(** [check]. *)
Definition build_checker (ast_structs : list AstStruct) (native_sigs : list NativeSig)
    (local_fn_param_types : gmap string (list Ty.t))
    (local_fn_return_types : gmap string (option Ty.t)) : TypeChecker :=
  mkChecker
    (for_deps dep_struct_infos (collect_map (map (λ s, (as_name s, as_fields s)) ast_structs)))
    (for_deps dep_fn_sigs
       (map_imap (λ name params, Some (params, mjoin (local_fn_return_types !! name)))
          local_fn_param_types))
    (collect_map (map (λ s, (sig_name s, (sig_params s, sig_return_type s))) native_sigs)).
Definition check (ast_structs : list AstStruct) (native_sigs : list NativeSig)
    (local_fn_param_types : gmap string (list Ty.t))
    (local_fn_return_types : gmap string (option Ty.t)) (ast_fns : list AstFunction) : CResult () :=
  for_each (check_source_function
    (build_checker ast_structs native_sigs local_fn_param_types local_fn_return_types)) ast_fns.
End names.
