(* ===== verification/Codegen.v ===== *)
(** * The code generator of the compiler

    Models [codegen.rs] of [meow-vm-compiler].  The fields of [Codegen] that
    change are the record [Codegen]; the ones that do not are arguments of the
    section.  A method on [&mut self] that returns a [Result] is a function to
    the new state. *)

From S2P Require Import Prelude Address VmTypes ErrorText Ast CompilerValidator TypeChecker.

(** [as i32] of a length. *)
Definition as_i32 (n : Z) : Z := ((n + 2 ^ 31) mod 2 ^ 32 - 2 ^ 31)%Z.

(** Slots are [u8] in the source; [alloc_local] keeps them below [max_locals]. *)
Record Codegen := mkCodegen {
  cg_locals : gmap string (nat * nat);
  cg_types : gmap nat Ty.t;
  cg_moved : gset nat;
  cg_next_slot : nat;
  cg_scope_depth : nat;
  cg_code : list Instruction.t;
}.

(** [Codegen::new]. *)
Definition codegen_new : Codegen := mkCodegen ∅ ∅ ∅ 0 0 [].

Definition set_locals (l : gmap string (nat * nat)) (st : Codegen) : Codegen :=
  mkCodegen l (cg_types st) (cg_moved st) (cg_next_slot st) (cg_scope_depth st) (cg_code st).
Definition set_tracking (types : gmap nat Ty.t) (moved : gset nat) (st : Codegen) : Codegen :=
  mkCodegen (cg_locals st) types moved (cg_next_slot st) (cg_scope_depth st) (cg_code st).
Definition set_depth (d : nat) (st : Codegen) : Codegen :=
  mkCodegen (cg_locals st) (cg_types st) (cg_moved st) (cg_next_slot st) d (cg_code st).
Definition set_code (c : list Instruction.t) (st : Codegen) : Codegen :=
  mkCodegen (cg_locals st) (cg_types st) (cg_moved st) (cg_next_slot st) (cg_scope_depth st) c.

(** The expressions that can panic: [v[i]], [opt.unwrap()] and [map[&key]]. *)
Definition index {A} (l : list A) (i : nat) : CResult A :=
  expect (l !! i) ("index out of bounds: the len is " +:+ pretty (length l) +:+
                   " but the index is " +:+ pretty i).
Definition unwrap {A} (o : option A) : CResult A :=
  expect o "called `Option::unwrap()` on a `None` value".
Definition map_index {A} (m : gmap nat A) (k : nat) : CResult A :=
  expect (m !! k) "no entry found for key".

(** [emit]; inserting into [local_types]. *)
Definition emit (i : Instruction.t) (st : Codegen) : Codegen := set_code (cg_code st ++ [i]) st.
Definition set_type (slot : nat) (ty : Ty.t) (st : Codegen) : Codegen :=
  set_tracking (<[slot := ty]> (cg_types st)) (cg_moved st) st.

(** [matches!(local_types.get(&slot), Some(ty) if !ty.is_primitive())]. *)
Definition holds_struct (st : Codegen) (slot : nat) : bool :=
  match cg_types st !! slot with Some ty => negb (Ty.is_primitive ty) | None => false end.
Definition local_slot (st : Codegen) (name : string) : option nat := fst <$> cg_locals st !! name.

Definition is_struct_type (ty : Ty.t) : bool :=
  match ty with Ty.Struct _ => true | _ => false end.

(** A struct definition by name, and a field of it. *)
Definition find_def (structs : list StructDef) (name : string) : option StructDef :=
  find_first (λ s, String.eqb (sd_name s) name) structs.
Definition find_field_def (def : StructDef) (field : string) : option FieldDef :=
  find_first (λ f, String.eqb (fd_name f) field) (sd_fields def).

(** The instruction of a binary operator. *)
Definition binop_instr (op : BinOp.t) : Instruction.t :=
  match op with
  | BinOp.Add => Instruction.Add
  | BinOp.Sub => Instruction.Sub
  | BinOp.Mul => Instruction.Mul
  | BinOp.Div => Instruction.Div
  | BinOp.Mod => Instruction.Mod
  | BinOp.Eq => Instruction.Eq
  | BinOp.Ne => Instruction.Ne
  | BinOp.Lt => Instruction.Lt
  | BinOp.Le => Instruction.Le
  | BinOp.Gt => Instruction.Gt
  | BinOp.Ge => Instruction.Ge
  | BinOp.And => Instruction.And
  | BinOp.Or => Instruction.Or
  end.

(** [literal_map.remove(field)] on the fields of a literal: of two entries for
    a field the later one is in the map. *)
Definition last_entry {A} (l : list (string * A)) (name : string) : option A :=
  collect_map l !! name.
Definition remove_entry {A} (l : list (string * A)) (name : string) : list (string * A) :=
  filter (λ p, fst p ≠ name) l.

Section codegen.
Context `{PrefixHex} (config : CompilerConfig) (structs : list StructDef).
Context (dep_addresses : gmap string Address) (dep_modules : gmap Address VmModule).
Context (local_fn_return_types : gmap string (option Ty.t)).

(** [alloc_local]. *)
Definition alloc_local (name : string) (st : Codegen) : CResult (nat * Codegen) :=
  validate_identifier name "variable" config ;;
  let fresh :=
    guard_err (bool_decide (max_locals config ≤ cg_next_slot st))
      (cerr ("too many local variables: limit is " +:+ pretty (max_locals config))) ;;
    let slot := cg_next_slot st in
    Ok (slot, mkCodegen (<[name := (slot, cg_scope_depth st)]> (cg_locals st)) (cg_types st)
                (cg_moved st) (slot + 1) (cg_scope_depth st) (cg_code st)) in
  match cg_locals st !! name with
  | Some (existing_slot, existing_depth) =>
      if bool_decide (existing_depth = cg_scope_depth st) then
        guard_err (holds_struct st existing_slot)
          (cerr ("cannot shadow " +:+ quoted name +:+
                 ": the binding still holds a struct value — consume or destructure it first")) ;;
        Ok (existing_slot, set_tracking (cg_types st) (cg_moved st ∖ {[existing_slot]}) st)
      else fresh
  | None => fresh
  end.

(** [translate_name], [translate_type]. *)
Definition translate_name (name : string) : CResult string :=
  match split_once name with
  | Some (mod_name, rest) =>
      match dep_addresses !! mod_name with
      | Some addr => Ok (qualify addr rest)
      | None =>
          Err (cerr ("reference to undeclared module " +:+ quoted mod_name +:+ " — add `use " +:+
                     mod_name +:+ ";` at the top of the file"))
      end
  | None => Ok name
  end.
Fixpoint translate_type (ty : Ty.t) : CResult Ty.t :=
  match ty with
  | Ty.Struct name => Ty.Struct <$> translate_name name
  | Ty.Tuple types =>
      Ty.Tuple <$> (fix go types := match types with
                    | [] => Ok []
                    | t :: types => t ← translate_type t; ts ← go types; Ok (t :: ts)
                    end) types
  | _ => Ok ty
  end.

(** The return type of a cross-module function, as [infer_type] gives it. *)
Definition dep_return_type (dep_name fn_local_name : string) : option Ty.t :=
  dep_addr ← dep_addresses !! dep_name;
  dep_module ← dep_modules !! dep_addr;
  func ← get_function dep_module fn_local_name;
  match fn_return_type func with
  | Some (Ty.Struct local_name) => Some (Ty.Struct (dep_name +:+ "::" +:+ local_name))
  | other => other
  end.

(** [infer_type]. *)
Fixpoint infer_type (st : Codegen) (e : Expr.t) : option Ty.t :=
  match e with
  | Expr.Bool _ => Some Ty.Bool
  | Expr.Int _ => Some Ty.U64
  | Expr.Address _ => Some Ty.Address
  | Expr.Str _ => Some Ty.Str
  | Expr.Ident name => slot ← local_slot st name; cg_types st !! slot
  | Expr.StructLit name _ => Some (Ty.Struct name)
  | Expr.FieldAccess base field =>
      base_type ← infer_type st base;
      def ← find_def structs (Ty.name base_type);
      fd_ty <$> find_field_def def field
  | Expr.Call name _ =>
      match split_once name with
      | Some (dep_name, fn_local_name) => dep_return_type dep_name fn_local_name
      | None => mjoin (local_fn_return_types !! name)
      end
  | Expr.BinOp _ op _ =>
      Some match op with
           | BinOp.Add | BinOp.Sub | BinOp.Mul | BinOp.Div | BinOp.Mod => Ty.U64
           | _ => Ty.Bool
           end
  | Expr.Tuple items =>
      Ty.Tuple <$> (fix go items := match items with
                    | [] => Some []
                    | a :: items => ty ← infer_type st a; tys ← go items; Some (ty :: tys)
                    end) items
  | Expr.UnaryOp _ _ => Some Ty.Bool
  end.

(** [check_fn_visibility]. *)
Definition check_fn_visibility (name : string) : CResult () :=
  match split_once name with
  | None => Ok ()
  | Some (dep_name, fn_local_name) =>
      dep_addr ← ok_or (dep_addresses !! dep_name)
                   (cerr ("reference to undeclared module " +:+ quoted dep_name));
      dep_module ← ok_or (dep_modules !! dep_addr)
                     (cerr ("dependency module " +:+ quoted dep_name +:+ " not found"));
      func ← ok_or (get_function dep_module fn_local_name)
               (cerr ("function " +:+ quoted fn_local_name +:+ " not found in module " +:+
                      quoted dep_name));
      guard_err (negb (fn_is_public func))
        (cerr ("function " +:+ quoted name +:+
               " is private — only `pub fn` can be called from other modules"))
  end.

(** [check_field_read], [check_field_write]. *)
Definition check_field_read (ty : Ty.t) : CResult () :=
  guard_err (Ty.is_cross_module ty)
    (cerr ("fields of " +:+ quoted (Ty.name ty) +:+
           " are private — use a public getter function to access them")).
Definition check_field_write (ty : Ty.t) (field : string) : CResult () :=
  guard_err (Ty.is_cross_module ty)
    (cerr ("field " +:+ quoted field +:+ " of " +:+ quoted (Ty.name ty) +:+
           " cannot be written from outside the declaring module")).

(** [field_path_type]. *)
Fixpoint field_path_type (current : Ty.t) (path : list string) : option Ty.t :=
  match path with
  | [] => Some current
  | field_name :: path =>
      def ← find_def structs (Ty.name current);
      field_def ← find_field_def def field_name;
      field_path_type (fd_ty field_def) path
  end.

(** Whether the path on the local is known to end at a struct. *)
Definition path_is_struct (st : Codegen) (slot : nat) (path : list string) : bool :=
  match cg_types st !! slot with
  | Some root_ty =>
      match field_path_type root_ty path with
      | Some final_ty => is_struct_type final_ty
      | None => false
      end
  | None => false
  end.

(** [check_getfield_on_struct]. *)
Definition check_getfield_on_struct (struct_ty : Ty.t) (field : string) : CResult () :=
  match find_def structs (Ty.name struct_ty) with
  | None => Ok ()
  | Some def =>
      guard_err (match find_field_def def field with
                 | Some f => is_struct_type (fd_ty f)
                 | None => false
                 end)
        (cerr ("field " +:+ quoted field +:+
               " has struct type and cannot be accessed directly — structs have move semantics; use destructuring `let " +:+
               Ty.name struct_ty +:+ " { " +:+ field +:+ ", .. } = expr;`")) ;;
      match find_first (λ f, negb (String.eqb (fd_name f) field) && is_struct_type (fd_ty f))
              (sd_fields def) with
      | Some linear =>
          Err (cerr ("cannot access field " +:+ quoted field +:+ " on " +:+
                     quoted (Ty.name struct_ty) +:+ " — struct-typed field " +:+
                     quoted (fd_name linear) +:+
                     " would be silently dropped; use destructuring `let " +:+
                     Ty.name struct_ty +:+ " { " +:+ field +:+ ", .. } = expr;`"))
      | None => Ok ()
      end
  end.

(** [Expr::Ident]: load a local, which moves a struct out of its slot. *)
Definition compile_ident (name : string) (st : Codegen) : CResult Codegen :=
  slot ← ok_or (local_slot st name) (cerr ("undefined variable " +:+ quoted name));
  guard_err (bool_decide (slot ∈ cg_moved st))
    (cerr ("use of " +:+ quoted name +:+
           " after it was moved — structs have move semantics; rebind it before using it again")) ;;
  let st := if holds_struct st slot
            then set_tracking (delete slot (cg_types st)) ({[slot]} ∪ cg_moved st) st else st in
  Ok (emit (Instruction.Load slot) st).

(** A field path on a local. *)
Definition compile_load_field (slot : nat) (path : list string) (st : Codegen) : CResult Codegen :=
  match cg_types st !! slot with
  | Some ty => index path 0 ;; check_field_read ty
  | None => Ok ()
  end ;;
  (if path_is_struct st slot path then
     field ← unwrap (list.last path);
     Err (cerr ("field " +:+ quoted field +:+
            " has struct type and cannot be accessed directly — structs have move semantics; use destructuring `let TypeName { " +:+
            field +:+ ", .. } = expr;`"))
   else Ok ()) ;;
  Ok (emit (Instruction.LoadField slot path) st).

(** The checks before a field path on another expression. *)
Definition check_get_field (root_ty : option Ty.t) (path : list string) : CResult () :=
  match root_ty with
  | Some ty =>
      field ← index path 0;
      check_field_read ty ;;
      check_getfield_on_struct ty field
  | None => Ok ()
  end.

(** The field loop of a struct literal; [literal_map] has the compiled
    expressions. *)
Fixpoint compile_fields (name : string) (literal_map : list (string * (Codegen → CResult Codegen)))
    (field_names : list string) (st : Codegen) : CResult Codegen :=
  match field_names with
  | [] => Ok st
  | field_name :: field_names =>
      compile ← ok_or (last_entry literal_map field_name)
                  (cerr ("missing field " +:+ quoted field_name +:+ " in struct literal " +:+
                         quoted name));
      st ← compile st;
      compile_fields name (remove_entry literal_map field_name) field_names st
  end.

(** The slot of a local that a path starts at. *)
Definition path_local (st : Codegen) (e : Expr.t) (path : list string) : option nat :=
  match e, path with Expr.Ident name, _ :: _ => local_slot st name | _, _ => None end.

(** [compile_expr] of [e], and of the chain of field accesses [path] on it:
    [compile_expr(FieldAccess { expr, field })] flattens the chain first, so
    that its root is met with the whole path.  The case without a path is
    [compile_expr]. *)
Fixpoint compile_path (e : Expr.t) (path : list string) (st : Codegen) : CResult Codegen :=
  match e with
  | Expr.FieldAccess e field => compile_path e (field :: path) st
  | _ =>
      match path_local st e path with
      | Some slot => compile_load_field slot path st
      | None =>
          match path with [] => Ok () | _ => check_get_field (infer_type st e) path end ;;
          st ← match e with
               | Expr.Bool v => Ok (emit (Instruction.PushBool v) st)
               | Expr.Int v => Ok (emit (Instruction.PushU64 v) st)
               | Expr.Address addr => Ok (emit (Instruction.PushAddress addr) st)
               | Expr.Str s => Ok (emit (Instruction.PushStr s) st)
               | Expr.Ident name => compile_ident name st
               | Expr.BinOp l op r =>
                   st ← compile_path l [] st;
                   st ← compile_path r [] st;
                   Ok (emit (binop_instr op) st)
               | Expr.FieldAccess _ _ => Ok st
               | Expr.StructLit name fields =>
                   guard_err (is_qualified name)
                     (cerr ("cannot construct " +:+ quoted name +:+
                            " outside its declaring module — structs can only be created where they are defined")) ;;
                   def ← ok_or (find_def structs name) (cerr ("unknown struct " +:+ quoted name));
                   let field_names := map fd_name (sd_fields def) in
                   st ← compile_fields name (map (λ f, (fst f, compile_path (snd f) [])) fields)
                          field_names st;
                   type_name ← translate_name name;
                   Ok (emit (Instruction.NewStruct type_name field_names) st)
               | Expr.UnaryOp UnaryOp.Not e =>
                   st ← compile_path e [] st;
                   Ok (emit Instruction.Not st)
               | Expr.Tuple items =>
                   guard_err (bool_decide (max_tuple_elements config < length items))
                     (cerr ("tuple literal has " +:+ pretty (length items) +:+
                            " elements, exceeding the limit of " +:+
                            pretty (max_tuple_elements config))) ;;
                   st ← (fix go items (st : Codegen) : CResult Codegen := match items with
                         | [] => Ok st
                         | a :: items => st ← compile_path a [] st; go items st
                         end) items st;
                   Ok (emit (Instruction.MakeTuple (length items)) st)
               | Expr.Call name args =>
                   check_fn_visibility name ;;
                   st ← (fix go args (st : Codegen) : CResult Codegen := match args with
                         | [] => Ok st
                         | a :: args => st ← compile_path a [] st; go args st
                         end) args st;
                   translated ← translate_name name;
                   Ok (emit (Instruction.Call translated) st)
               end;
          Ok (foldl (λ st step, emit (Instruction.GetField step) st) st path)
      end
  end.
Definition compile_expr (e : Expr.t) (st : Codegen) : CResult Codegen := compile_path e [] st.

(** ** Statements *)

(** The leaked binding with the smallest slot, of those that [leaks]. *)
Definition first_leak (leaks : string → nat → bool) (st : Codegen) : option (string * nat) :=
  let offenders := filter (λ p, leaks (fst p) (snd p) && holds_struct st (snd p))
                     (map (λ p, (fst p, fst (snd p))) (map_to_list (cg_locals st))) in
  find_first (λ p, forallb (λ q, Nat.leb (snd p) (snd q)) offenders) offenders.

(** [check_all_structs_consumed], [check_branch_structs_consumed]. *)
Definition check_all_structs_consumed (name : string) (st : Codegen) : CResult () :=
  match first_leak (λ _ _, true) st with
  | Some (local, slot) =>
      ty ← map_index (cg_types st) slot;
      Err (cerr ("in function " +:+ quoted name +:+ ": " +:+ quoted local +:+ " of type " +:+
                 quoted (Ty.name ty) +:+ " must be consumed before the function returns"))
  | None => Ok ()
  end.
Definition check_branch_structs_consumed (outer_locals : gmap string (nat * nat)) (branch : string)
    (st : Codegen) : CResult () :=
  match first_leak (λ name slot, bool_decide (fst <$> outer_locals !! name ≠ Some slot)) st with
  | Some (name, _) =>
      Err (cerr ("struct " +:+ quoted name +:+ " introduced in " +:+ branch +:+
                 " body must be consumed before the branch ends"))
  | None => Ok ()
  end.

(** The binding loops of the two destructuring statements; the first counts
    from [i]. *)
Fixpoint bind_elements (i : nat) (names : list string) (types : option (list Ty.t)) (st : Codegen)
  : CResult Codegen :=
  match names with
  | [] => Ok st
  | name :: names =>
      '(slot, st) ← alloc_local name st;
      st ← match types with
           | Some types => ty ← index types i; Ok (set_type slot ty st)
           | None => Ok st
           end;
      bind_elements (i + 1) names types (emit (Instruction.Store slot) st)
  end.
Fixpoint bind_fields (def : StructDef) (type_name : string) (binding_map : gmap string string)
    (field_names : list string) (st : Codegen) : CResult Codegen :=
  match field_names with
  | [] => Ok st
  | field_name :: field_names =>
      field_ty ← fd_ty <$> unwrap (find_field_def def field_name);
      st ← match binding_map !! field_name with
           | Some binding_name =>
               '(slot, st) ← alloc_local binding_name st;
               Ok (emit (Instruction.Store slot) (set_type slot field_ty st))
           | None =>
               guard_err (is_struct_type field_ty)
                 (cerr ("struct destructuring of " +:+ quoted type_name +:+
                        ": cannot discard linear field " +:+ quoted field_name +:+
                        " with `..`; bind it explicitly")) ;;
               Ok (emit Instruction.Pop st)
           end;
      bind_fields def type_name binding_map field_names st
  end.

(** [matches!(stmts.last(), Some(Stmt::Return(_)))]. *)
Definition ends_with_return (stmts : list Stmt.t) : bool :=
  match list.last stmts with Some (Stmt.Return _) => true | _ => false end.

(** The state at the join of two branches. *)
Definition join_branches (then_terminates else_terminates : bool) (then_types : gmap nat Ty.t)
    (then_moved : gset nat) (st : Codegen) : Codegen :=
  if then_terminates then st
  else if else_terminates then set_tracking then_types then_moved st
  else set_tracking (filter (λ p, then_types !! fst p = Some (snd p)) (cg_types st))
         (then_moved ∪ cg_moved st) st.

(** [self.code[at] = instr], with the element in range. *)
Definition patched (at_ : nat) (instr : Instruction.t) (st : Codegen) : Codegen :=
  set_code (<[at_ := instr]> (cg_code st)) st.
Definition patch (at_ : nat) (instr : Instruction.t) (st : Codegen) : CResult Codegen :=
  index (cg_code st) at_ ;; Ok (patched at_ instr st).
(** [(self.code.len() - at) as i32]; the difference is used to patch an element
    that is in range, where it does not underflow. *)
Definition offset_from (at_ : nat) (st : Codegen) : Z :=
  as_i32 (Z.of_nat (length (cg_code st)) - Z.of_nat at_).

(** [compile_stmt]. *)
Fixpoint compile_stmt (s : Stmt.t) (st : Codegen) : CResult Codegen :=
  match s with
  | Stmt.Let name expr =>
      let inferred_type := infer_type st expr in
      st ← compile_expr expr st;
      '(slot, st) ← alloc_local name st;
      let st := emit (Instruction.Store slot) st in
      Ok (match inferred_type with Some ty => set_type slot ty st | None => st end)
  | Stmt.Reassign name expr =>
      slot ← ok_or (local_slot st name) (cerr ("undefined variable " +:+ quoted name));
      guard_err (holds_struct st slot)
        (cerr ("cannot reassign " +:+ quoted name +:+
               ": it still holds a struct value — consume or destructure it first")) ;;
      let inferred_type := infer_type st expr in
      st ← compile_expr expr st;
      let st := emit (Instruction.Store slot) st in
      let st := set_tracking (cg_types st) (cg_moved st ∖ {[slot]}) st in
      Ok (match inferred_type with
          | Some ty => set_type slot ty st
          | None => set_tracking (delete slot (cg_types st)) (cg_moved st) st
          end)
  | Stmt.Return expr =>
      st ← match expr with Some e => compile_expr e st | None => Ok st end;
      Ok (emit Instruction.Return st)
  | Stmt.Expr expr =>
      match infer_type st expr with
      | Some ty =>
          guard_err (negb (Ty.is_primitive ty))
            (cerr ("expression of type " +:+ quoted (Ty.name ty) +:+
                   " cannot be discarded as a statement — structs have move semantics; bind or consume the value"))
      | None => Ok ()
      end ;;
      st ← compile_expr expr st;
      Ok (emit Instruction.Pop st)
  | Stmt.If cond body else_body =>
      let go := fix go stmts (st : Codegen) : CResult Codegen :=
        match stmts with
        | [] => Ok st
        | s :: stmts => st ← compile_stmt s st; go stmts st
        end in
      let scoped branch stmts (st : Codegen) :=
        let outer_locals := cg_locals st in
        st ← go stmts (set_depth (cg_scope_depth st + 1) st);
        let st := set_depth (cg_scope_depth st - 1) st in
        check_branch_structs_consumed outer_locals branch st ;;
        Ok (set_locals outer_locals st) in
      st ← compile_expr cond st;
      let patch_cond := length (cg_code st) in
      let st := emit (Instruction.JumpIfNot 0) st in
      let pre_types := cg_types st in
      let pre_moved := cg_moved st in
      st ← scoped "if" body st;
      let then_types := cg_types st in
      let then_moved := cg_moved st in
      let st := set_tracking pre_types pre_moved st in
      st ← match else_body with
           | Some else_stmts =>
               let patch_jump := length (cg_code st) in
               let st := emit (Instruction.Jump 0) st in
               st ← patch patch_cond (Instruction.JumpIfNot (offset_from patch_cond st)) st;
               st ← scoped "else" else_stmts st;
               patch patch_jump (Instruction.Jump (offset_from patch_jump st)) st
           | None => patch patch_cond (Instruction.JumpIfNot (offset_from patch_cond st)) st
           end;
      Ok (join_branches (ends_with_return body)
            match else_body with Some stmts => ends_with_return stmts | None => false end
            then_types then_moved st)
  | Stmt.LetTuple names expr =>
      let n := length names in
      guard_err (bool_decide (max_tuple_elements config < n))
        (cerr ("tuple destructuring has " +:+ pretty n +:+ " elements, exceeding the limit of " +:+
               pretty (max_tuple_elements config))) ;;
      let elem_types := match infer_type st expr with
                        | Some (Ty.Tuple types) =>
                            if bool_decide (length types = n) then Some types else None
                        | _ => None
                        end in
      st ← compile_expr expr st;
      bind_elements 0 names elem_types (emit (Instruction.UnpackTuple n) st)
  | Stmt.LetStruct type_name bindings expr rest_discarded =>
      def ← ok_or (find_def structs type_name) (cerr ("unknown struct " +:+ quoted type_name));
      let def_field_names := map fd_name (sd_fields def) in
      for_each (λ b : string * string,
        guard_err (bool_decide (fst b ∉ def_field_names))
          (cerr ("struct destructuring of " +:+ quoted type_name +:+ ": unknown field " +:+
                 quoted (fst b)))) bindings ;;
      let binding_map := collect_map bindings in
      (if rest_discarded then Ok ()
       else for_each (λ field_name,
              guard_err (negb (is_some (binding_map !! field_name)))
                (cerr ("struct destructuring of " +:+ quoted type_name +:+
                       ": missing binding for field " +:+ quoted field_name +:+
                       " (use `..` to discard remaining fields)"))) def_field_names) ;;
      st ← compile_expr expr st;
      translated_type ← translate_name type_name;
      bind_fields def type_name binding_map def_field_names
        (emit (Instruction.UnpackStruct translated_type def_field_names) st)
  | Stmt.FieldAssign obj_name field_path expr =>
      slot ← ok_or (local_slot st obj_name) (cerr ("undefined variable " +:+ quoted obj_name));
      first_field ← index field_path 0;
      match cg_types st !! slot with
      | Some ty => check_field_write ty first_field
      | None => Ok ()
      end ;;
      (if path_is_struct st slot field_path then
         field ← unwrap (list.last field_path);
         Err (cerr ("cannot assign to struct-typed field " +:+ quoted field +:+
                    " — structs have move semantics"))
       else Ok ()) ;;
      st ← compile_expr expr st;
      Ok (emit (Instruction.StoreField slot field_path) st)
  end.

Fixpoint compile_stmts (stmts : list Stmt.t) (st : Codegen) : CResult Codegen :=
  match stmts with
  | [] => Ok st
  | s :: stmts => st ← compile_stmt s st; compile_stmts stmts st
  end.

(** ** Functions *)

(** The parameter loop. *)
Fixpoint compile_params (fn : string) (params : list (string * Ty.t)) (st : Codegen)
  : CResult (list (string * Ty.t) * Codegen) :=
  match params with
  | [] => Ok ([], st)
  | (name, ty) :: params =>
      validate_identifier name ("parameter in function " +:+ quoted fn) config ;;
      '(slot, st) ← alloc_local name st;
      ty ← translate_type ty;
      '(params, st) ← compile_params fn params (set_type slot ty st);
      Ok ((name, ty) :: params, st)
  end.

(** [compile_function] up to the end of the body: parameters, return type and
    the state of the generator. *)
Definition compile_body (ast_fn : AstFunction)
  : CResult (list (string * Ty.t) * option Ty.t * Codegen) :=
  validate_function_name (af_name ast_fn) config ;;
  guard_err (bool_decide (max_params config < length (af_params ast_fn)))
    (cerr ("function " +:+ quoted (af_name ast_fn) +:+ ": too many parameters (" +:+
           pretty (length (af_params ast_fn)) +:+ " > limit of " +:+ pretty (max_params config) +:+
           ")")) ;;
  '(params, st) ← compile_params (af_name ast_fn) (af_params ast_fn) codegen_new;
  return_type ← match af_return_type ast_fn with
                | Some rt => Some <$> translate_type rt
                | None => Ok None
                end;
  st ← compile_stmts (af_body ast_fn) st;
  check_all_structs_consumed (af_name ast_fn) st ;;
  Ok (params, return_type, st).

(** The function always ends with [Return]. *)
Definition ensure_return (st : Codegen) : Codegen :=
  match list.last (cg_code st) with
  | Some Instruction.Return => st
  | _ => emit Instruction.Return st
  end.

(** [compile_function]. *)
Definition compile_function (ast_fn : AstFunction) : CResult Function :=
  '(params, return_type, st) ← compile_body ast_fn;
  let st := ensure_return st in
  let len := length (cg_code st) in
  guard_err (bool_decide (max_fun_code_size config < Z.of_nat len)%Z)
    (cerr ("function " +:+ quoted (af_name ast_fn) +:+ ": bytecode too large (" +:+ pretty len +:+
           " instructions > limit of " +:+ pretty (max_fun_code_size config) +:+ ")")) ;;
  Ok (mkFunction (af_name ast_fn) (af_is_public ast_fn) params return_type (cg_next_slot st)
        (cg_code st)).
End codegen.
