(* ===== verification/CodegenProps.v ===== *)
(** * What the code generator keeps

    The shape of the code it emits (slots in range, jumps forward and inside),
    and its tracking of structs: a slot that holds a live struct is bound by a
    name in scope, or belongs to an enclosing scope. *)

From S2P Require Import Prelude Address VmTypes ErrorText Ast CompilerValidator TypeChecker Codegen.

(** ** Code fragments *)

(** An instruction at [i] of a fragment of length [len], with [slots] slots. *)
Definition instr_wf (slots len i : nat) (ins : Instruction.t) : Prop :=
  match ins with
  | Instruction.Load s | Instruction.Store s | Instruction.LoadField s _
  | Instruction.StoreField s _ => s < slots
  | Instruction.Jump o | Instruction.JumpIf o | Instruction.JumpIfNot o =>
      ∃ d, o = as_i32 (Z.of_nat d) ∧ 0 < d ∧ i + d ≤ len
  | _ => True
  end.
Definition frag_ok (slots : nat) (c : list Instruction.t) : Prop :=
  ∀ i ins, c !! i = Some ins → instr_wf slots (length c) i ins.

Lemma instr_wf_mono slots slots' len len' i k ins :
  instr_wf slots len i ins → slots ≤ slots' → k + len ≤ len' → instr_wf slots' len' (k + i) ins.
Proof.
  intros Hi Hs Hl. destruct ins; simpl in *; try done; try lia;
    destruct Hi as (d & -> & ? & ?); exists d; split_and!; solve [done|lia].
Qed.

Lemma frag_ok_app slots slots' c c' :
  frag_ok slots c → frag_ok slots' c' → slots ≤ slots' → frag_ok slots' (c ++ c').
Proof.
  intros H1 H2 Hs i ins Hi. apply lookup_app_Some in Hi as [Hi|[Hl Hi]].
  - apply H1 in Hi. apply (instr_wf_mono _ _ _ _ i 0 _ Hi Hs). rewrite length_app. lia.
  - apply H2 in Hi. replace i with (length c + (i - length c)) by lia.
    eapply instr_wf_mono; [done|lia|]. rewrite length_app. lia.
Qed.
Lemma frag_ok_single slots ins : instr_wf slots 1 0 ins → frag_ok slots [ins].
Proof. intros Hi [|i] x Hx; simplify_eq/=. done. Qed.
Lemma frag_ok_nil slots : frag_ok slots [].
Proof. done. Qed.

(** [st'] has the code of [st] and more. *)
Definition extends (st st' : Codegen) : Prop :=
  ∃ new, cg_code st' = cg_code st ++ new ∧ frag_ok (cg_next_slot st') new.

Lemma extends_refl st : extends st st.
Proof. exists []. by rewrite app_nil_r. Qed.
Lemma extends_trans st1 st2 st3 :
  cg_next_slot st2 ≤ cg_next_slot st3 → extends st1 st2 → extends st2 st3 → extends st1 st3.
Proof.
  intros Hn (n1 & H1 & F1) (n2 & H2 & F2). exists (n1 ++ n2). split.
  - by rewrite H2, H1, app_assoc.
  - by eapply frag_ok_app.
Qed.
Lemma extends_emit st st' i :
  extends st st' → instr_wf (cg_next_slot st') 1 0 i → extends st (emit i st').
Proof.
  intros (n & Hn & Hf) Hi. exists (n ++ [i]). unfold emit. simpl. split; [by rewrite Hn, app_assoc|].
  eapply frag_ok_app; [done|by apply frag_ok_single|done].
Qed.

(** An instruction after which the next one runs. *)
Definition falls_through (i : Instruction.t) : bool :=
  match i with
  | Instruction.Return | Instruction.Jump _ | Instruction.JumpIf _ | Instruction.JumpIfNot _ => false
  | _ => true
  end.
(** [st'] has the code of [st] and such instructions. *)
Definition extends_plain (st st' : Codegen) : Prop :=
  ∃ new, cg_code st' = cg_code st ++ new ∧ Forall (λ i, falls_through i = true) new.
Lemma extends_plain_refl st : extends_plain st st.
Proof. exists []. by rewrite app_nil_r. Qed.
Lemma extends_plain_trans st1 st2 st3 :
  extends_plain st1 st2 → extends_plain st2 st3 → extends_plain st1 st3.
Proof.
  intros (n1 & H1 & F1) (n2 & H2 & F2). exists (n1 ++ n2).
  split; [by rewrite H2, H1, app_assoc|by apply Forall_app].
Qed.
Lemma extends_plain_emit st st' i :
  extends_plain st st' → falls_through i = true → extends_plain st (emit i st').
Proof.
  intros Hp Hi. eapply extends_plain_trans; [done|]. exists [i]. by repeat constructor.
Qed.

(** ** Expressions *)
Section codegen.
Context `{PrefixHex} (config : CompilerConfig) (structs : list StructDef).
Context (dep_addresses : gmap string Address) (dep_modules : gmap Address VmModule).
Context (local_fn_return_types : gmap string (option Ty.t)).
Notation compile_path :=
  (compile_path config structs dep_addresses dep_modules local_fn_return_types).
Notation compile_expr :=
  (compile_expr config structs dep_addresses dep_modules local_fn_return_types).
Notation compile_stmt :=
  (compile_stmt config structs dep_addresses dep_modules local_fn_return_types).
Notation compile_stmts :=
  (compile_stmts config structs dep_addresses dep_modules local_fn_return_types).

(** The bindings of a state are slots that exist. *)
Record cg_ok (st : Codegen) : Prop := {
  ok_locals x s d : cg_locals st !! x = Some (s, d) → s < cg_next_slot st;
  ok_max : cg_next_slot st ≤ max_locals config;
}.

Lemma local_slot_ok st x s : cg_ok st → local_slot st x = Some s → s < cg_next_slot st.
Proof.
  intros Hok. unfold local_slot. destruct (cg_locals st !! x) as [[s' d]|] eqn:Hx; [|done].
  intros [= ->]. by eapply ok_locals.
Qed.

(** An expression extends the code and may move structs out of slots. *)
Record expr_effect (st st' : Codegen) : Prop := {
  ee_locals : cg_locals st' = cg_locals st;
  ee_next : cg_next_slot st' = cg_next_slot st;
  ee_depth : cg_scope_depth st' = cg_scope_depth st;
  ee_types : cg_types st' ⊆ cg_types st;
  ee_code : extends st st';
  ee_plain : extends_plain st st';
}.

Lemma expr_effect_refl st : expr_effect st st.
Proof. split; try done; [apply extends_refl|apply extends_plain_refl]. Qed.
Lemma expr_effect_trans st1 st2 st3 :
  expr_effect st1 st2 → expr_effect st2 st3 → expr_effect st1 st3.
Proof.
  intros [L1 N1 D1 T1 C1 P1] [L2 N2 D2 T2 C2 P2].
  split; [congruence..|by etrans| |by eapply extends_plain_trans].
  eapply extends_trans; [|done..]. by rewrite N2.
Qed.
Lemma expr_effect_ok st st' : expr_effect st st' → cg_ok st → cg_ok st'.
Proof. intros [L N _ _ _ _] [Hl Hm]. split; [|by rewrite N]. intros x s d. rewrite L, N. apply Hl. Qed.
Lemma expr_effect_emit st st' i :
  expr_effect st st' → instr_wf (cg_next_slot st') 1 0 i ∧ falls_through i = true →
  expr_effect st (emit i st').
Proof.
  intros [L N D T C P] [Hi Hp]. split; try done; [by apply extends_emit|by apply extends_plain_emit].
Qed.
Lemma expr_effect_fields st st' path :
  expr_effect st st' →
  expr_effect st (foldl (λ st step, emit (Instruction.GetField step) st) st' path).
Proof.
  revert st'. induction path as [|f path IH]; intros st' He; simpl; [done|].
  by apply IH, expr_effect_emit.
Qed.

Lemma compile_ident_effect x st st' :
  cg_ok st → compile_ident x st = Ok st' → expr_effect st st'.
Proof.
  intros Hok Hc. unfold compile_ident in Hc. apply bind_Ok in Hc as (slot & Hs%ok_or_Ok & Hc).
  apply bind_Ok in Hc as ([] & _ & Hc). pose proof (local_slot_ok _ _ _ Hok Hs).
  simplify_eq. destruct (holds_struct st slot).
  - apply expr_effect_emit; [|done]. split; try done; [apply delete_subseteq|..]; exists []; by rewrite app_nil_r.
  - by apply expr_effect_emit; [apply expr_effect_refl|].
Qed.
Lemma compile_load_field_effect slot path st st' :
  slot < cg_next_slot st → compile_load_field structs slot path st = Ok st' → expr_effect st st'.
Proof.
  intros Hs Hc. unfold compile_load_field in Hc.
  apply bind_Ok in Hc as ([] & _ & Hc). apply bind_Ok in Hc as ([] & _ & Hc). simplify_eq.
  by apply expr_effect_emit; [apply expr_effect_refl|].
Qed.

(** A compiler of a part does what [compile_path] does. *)
Definition effect_ok (f : Codegen → CResult Codegen) : Prop :=
  ∀ st st', cg_ok st → f st = Ok st' → expr_effect st st'.

Lemma compile_list_effect {A} (f : A → Codegen → CResult Codegen) (l : list A) st st' :
  Forall (λ a, effect_ok (f a)) l → cg_ok st →
  (fix go l (st : Codegen) : CResult Codegen := match l with
   | [] => Ok st
   | a :: l => st ← f a st; go l st
   end) l st = Ok st' → expr_effect st st'.
Proof.
  intros Hl. revert st. induction Hl as [|a l Ha _ IH]; intros st Hok Hc.
  { simplify_eq. apply expr_effect_refl. }
  apply bind_Ok in Hc as (st1 & H1 & Hc). apply Ha in H1; [|done].
  eapply expr_effect_trans; [done|]. apply IH; [by eapply expr_effect_ok|done].
Qed.

Lemma collect_map_elem {A} (l : list (string * A)) x a :
  collect_map l !! x = Some a → (x, a) ∈ l.
Proof.
  unfold collect_map. enough (∀ m : gmap string A,
    foldl (λ m p, <[fst p := snd p]> m) m l !! x = Some a → m !! x = Some a ∨ (x, a) ∈ l) as Hgen.
  { intros Ha. by destruct (Hgen ∅ Ha). }
  induction l as [|[y b] l IH]; intros m; simpl; [by left|]. intros Ha.
  destruct (IH _ Ha) as [Hx|?]; [|right; by right].
  apply lookup_insert_Some in Hx as [[<- <-]|[_ ?]]; [right; by left|by left].
Qed.

Lemma compile_fields_effect name lit names st st' :
  Forall (λ p, effect_ok (snd p)) lit → cg_ok st →
  compile_fields name lit names st = Ok st' → expr_effect st st'.
Proof.
  revert lit st. induction names as [|x names IH]; intros lit st Hlit Hok Hc; simpl in Hc.
  { simplify_eq. apply expr_effect_refl. }
  apply bind_Ok in Hc as (f & Hf%ok_or_Ok & Hc). apply bind_Ok in Hc as (st1 & H1 & Hc).
  apply collect_map_elem in Hf. rewrite list.Forall_forall in Hlit. apply Hlit in Hf as Heff.
  apply Heff in H1; [|done]. eapply expr_effect_trans; [done|].
  eapply IH; [|by eapply expr_effect_ok|exact Hc].
  apply list.Forall_forall. intros p [_ Hp]%list_elem_of_filter. by apply Hlit.
Qed.

Lemma compile_path_effect e path : effect_ok (compile_path e path).
Proof.
  revert path. induction e as [b|n|a|s|x|l op r IHl IHr|e f IH|n fs IH|n args IH|items IH|[] e IH]
    using Expr.ind'; intros path st st' Hok Hc; [..|apply (IH (f :: path)); done| | | |];
    cbn [Codegen.compile_path] in Hc.
  all: match type of Hc with context [path_local ?s ?e ?p] =>
    destruct (path_local s e p) as [slot|] eqn:Hp end.
  all: try by (apply compile_load_field_effect in Hc; [done|];
    destruct path; try done; by eapply local_slot_ok).
  all: apply bind_Ok in Hc as ([] & _ & Hc); apply bind_Ok in Hc as (st1 & H1 & Hc);
    injection Hc as <-; apply expr_effect_fields.
  - simplify_eq. by apply expr_effect_emit; [apply expr_effect_refl|].
  - simplify_eq. by apply expr_effect_emit; [apply expr_effect_refl|].
  - simplify_eq. by apply expr_effect_emit; [apply expr_effect_refl|].
  - simplify_eq. by apply expr_effect_emit; [apply expr_effect_refl|].
  - by eapply compile_ident_effect.
  - apply bind_Ok in H1 as (st2 & H2 & H1). apply bind_Ok in H1 as (st3 & H3 & H1). simplify_eq.
    apply IHl in H2; [|done]. apply IHr in H3; [|by eapply expr_effect_ok].
    apply expr_effect_emit; [by eapply expr_effect_trans|by destruct op].
  - apply bind_Ok in H1 as ([] & _ & H1). apply bind_Ok in H1 as (def & _ & H1).
    apply bind_Ok in H1 as (st2 & H2 & H1). apply bind_Ok in H1 as (tn & _ & H1). simplify_eq.
    apply expr_effect_emit; [|done]. eapply compile_fields_effect; [|done|exact H2].
    apply list.Forall_forall. intros p (f & -> & Hf)%list_elem_of_fmap. simpl.
    rewrite list.Forall_forall in IH. by apply IH.
  - apply bind_Ok in H1 as ([] & _ & H1). apply bind_Ok in H1 as (st2 & H2 & H1).
    apply bind_Ok in H1 as (tn & _ & H1). simplify_eq. apply expr_effect_emit; [|done].
    eapply (compile_list_effect (λ a, compile_path a [])); [|done|exact H2].
    eapply list.Forall_impl; [done|]. auto.
  - apply bind_Ok in H1 as ([] & _ & H1). apply bind_Ok in H1 as (st2 & H2 & H1). simplify_eq.
    apply expr_effect_emit; [|done].
    eapply (compile_list_effect (λ a, compile_path a [])); [|done|exact H2].
    eapply list.Forall_impl; [done|]. auto.
  - apply bind_Ok in H1 as (st2 & H2 & H1). simplify_eq. apply expr_effect_emit; [|done].
    by eapply IH.
Qed.

Lemma compile_expr_effect e : effect_ok (compile_expr e).
Proof. apply compile_path_effect. Qed.

(** ** Statements *)

(** A statement extends the code and may allocate slots. *)
Record stmt_effect (st st' : Codegen) : Prop := {
  se_ok : cg_ok st';
  se_next : cg_next_slot st ≤ cg_next_slot st';
  se_depth : cg_scope_depth st' = cg_scope_depth st;
  se_code : extends st st';
}.
Definition stmt_ok (f : Codegen → CResult Codegen) : Prop :=
  ∀ st st', cg_ok st → f st = Ok st' → stmt_effect st st'.

Lemma stmt_effect_refl st : cg_ok st → stmt_effect st st.
Proof. split; try done. apply extends_refl. Qed.
Lemma stmt_effect_trans st1 st2 st3 :
  stmt_effect st1 st2 → stmt_effect st2 st3 → stmt_effect st1 st3.
Proof.
  intros [K1 N1 D1 C1] [K2 N2 D2 C2]. split; [done|lia|congruence|].
  by eapply extends_trans.
Qed.
Lemma expr_stmt_effect st st' : cg_ok st → expr_effect st st' → stmt_effect st st'.
Proof.
  intros Hok He. pose proof (expr_effect_ok _ _ He Hok). destruct He as [L N D T C _].
  split; [done|by rewrite N|done|done].
Qed.
Lemma stmt_effect_emit st st' i :
  stmt_effect st st' → instr_wf (cg_next_slot st') 1 0 i → stmt_effect st (emit i st').
Proof.
  intros [[Hl Hm] N D C] Hi. split; [by split|done|done|by apply extends_emit].
Qed.
Lemma stmt_effect_tracking st st' types moved :
  stmt_effect st st' → stmt_effect st (set_tracking types moved st').
Proof. intros [[Hl Hm] N D C]. by split; [split|..]. Qed.

(** [alloc_local] reuses the slot of a binding of the same scope, or takes the
    next slot. *)
Lemma alloc_local_inv x st slot st' :
  alloc_local config x st = Ok (slot, st') →
  (cg_locals st !! x = Some (slot, cg_scope_depth st) ∧
   ∃ moved, st' = set_tracking (cg_types st) moved st) ∨
  ((∀ s, cg_locals st !! x ≠ Some (s, cg_scope_depth st)) ∧ slot = cg_next_slot st ∧
   slot < max_locals config ∧
   st' = mkCodegen (<[x := (slot, cg_scope_depth st)]> (cg_locals st)) (cg_types st)
           (cg_moved st) (slot + 1) (cg_scope_depth st) (cg_code st)).
Proof.
  unfold alloc_local. intros Ha. apply bind_Ok in Ha as ([] & _ & Ha).
  destruct (cg_locals st !! x) as [[s d]|] eqn:Hx.
  - destruct (bool_decide (d = cg_scope_depth st)) eqn:Hd.
    + apply bind_Ok in Ha as ([] & _ & Ha). apply bool_decide_eq_true in Hd. simplify_eq.
      left. split; [done|by eexists].
    + apply bind_Ok in Ha as ([] & Hg%guard_err_Ok & Ha).
      apply bool_decide_eq_false in Hg, Hd. simplify_eq. right.
      split_and!; [|done|lia|done]. intros s' Hs'. by simplify_eq.
  - apply bind_Ok in Ha as ([] & Hg%guard_err_Ok & Ha).
    apply bool_decide_eq_false in Hg. simplify_eq. right. by split_and!; [|done|lia|].
Qed.

Lemma alloc_local_ok x st slot st' :
  cg_ok st → alloc_local config x st = Ok (slot, st') →
  stmt_effect st st' ∧ slot < cg_next_slot st' ∧ cg_code st' = cg_code st.
Proof.
  intros Hok Ha. apply alloc_local_inv in Ha as [[Hx [moved ->]]|(_ & -> & Hm & ->)].
  - split_and!; [by apply stmt_effect_tracking, stmt_effect_refl| |done].
    exact (ok_locals _ Hok _ _ _ Hx).
  - destruct Hok as [Hl _]. split_and!; simpl; [|lia|done].
    split; simpl; [|lia|done|exists []; by rewrite app_nil_r]. split; simpl; [|lia].
    intros y s d Hy. apply lookup_insert_Some in Hy as [[_ ?]|[_ Hy%Hl]]; simplify_eq; lia.
Qed.
Lemma set_type_tracking slot ty st : ∃ types, set_type slot ty st = set_tracking types (cg_moved st) st.
Proof. by eexists. Qed.

(** The type of an element only changes the tracking. *)
Lemma bind_type_inv (types : option (list Ty.t)) i slot st st' :
  match types with
  | Some types => ty ← index types i; Ok (set_type slot ty st)
  | None => Ok st
  end = Ok st' →
  ∃ types' moved, st' = set_tracking types' moved st.
Proof.
  destruct types as [types|]; intros Hc.
  - apply bind_Ok in Hc as (ty & _ & [= <-]). by do 2 eexists.
  - injection Hc as <-. exists (cg_types st), (cg_moved st). by destruct st.
Qed.
Lemma bind_elements_ok i names types : stmt_ok (bind_elements config i names types).
Proof.
  revert i. induction names as [|x names IH]; intros i st st' Hok Hc; simpl in Hc.
  { simplify_eq. by apply stmt_effect_refl. }
  apply bind_Ok in Hc as ([slot st1] & Ha & Hc). apply bind_Ok in Hc as (st2 & Ht & Hc).
  apply alloc_local_ok in Ha as (He & Hs & _); [|done].
  apply bind_type_inv in Ht as (types' & moved & ->).
  assert (stmt_effect st (emit (Instruction.Store slot) (set_tracking types' moved st1))) as He'.
  { apply stmt_effect_emit; [by apply stmt_effect_tracking|done]. }
  eapply stmt_effect_trans; [exact He'|]. eapply IH; [by eapply se_ok|exact Hc].
Qed.
Lemma bind_fields_ok def tn bm names : stmt_ok (bind_fields config def tn bm names).
Proof.
  induction names as [|f names IH]; intros st st' Hok Hc; simpl in Hc.
  { simplify_eq. by apply stmt_effect_refl. }
  apply bind_Ok in Hc as (ty & _ & Hc). apply bind_Ok in Hc as (st1 & H1 & Hc).
  assert (stmt_effect st st1) as He; [|eapply stmt_effect_trans; [done|];
    eapply IH; [by eapply se_ok|done]].
  destruct (bm !! f).
  - apply bind_Ok in H1 as ([slot st2] & Ha & H1). simplify_eq.
    apply alloc_local_ok in Ha as (He & Hs & _); [|done].
    apply stmt_effect_emit; [|done]. by apply stmt_effect_tracking.
  - apply bind_Ok in H1 as ([] & _ & H1). simplify_eq.
    apply stmt_effect_emit; [by apply stmt_effect_refl|done].
Qed.

(** *** Branches *)

(** A branch starts and ends: its scope, and the bindings outside it. *)
Definition enter_scope (st : Codegen) : Codegen := set_depth (cg_scope_depth st + 1) st.
Definition leave_scope (outer : gmap string (nat * nat)) (st : Codegen) : Codegen :=
  Codegen.set_locals outer (set_depth (cg_scope_depth st - 1) st).

(** The shape of a compiled [If], without its checks: the state at the start
    of a branch, and the final state up to the tracking. *)
Definition then_start (st1 : Codegen) : Codegen := emit (Instruction.JumpIfNot 0) st1.
Definition then_end (st1 st2 : Codegen) : Codegen :=
  set_tracking (cg_types st1) (cg_moved st1) (leave_scope (cg_locals st1) st2).
Definition else_start (st1 st2 : Codegen) : Codegen :=
  let st := emit (Instruction.Jump 0) (then_end st1 st2) in
  let at_ := length (cg_code st1) in
  patched at_ (Instruction.JumpIfNot (offset_from at_ st)) st.
Definition if_end (st1 st2 : Codegen) : Codegen :=
  let at_ := length (cg_code st1) in
  patched at_ (Instruction.JumpIfNot (offset_from at_ (then_end st1 st2))) (then_end st1 st2).
Definition else_end (st1 st2 st3 : Codegen) : Codegen :=
  let at_ := length (cg_code (then_end st1 st2)) in
  let st := leave_scope (cg_locals (else_start st1 st2)) st3 in
  patched at_ (Instruction.Jump (offset_from at_ st)) st.

Lemma compile_stmts_go stmts st :
  (fix go stmts (st : Codegen) : CResult Codegen :=
     match stmts with
     | [] => Ok st
     | s :: stmts => st ← compile_stmt s st; go stmts st
     end) stmts st = compile_stmts stmts st.
Proof.
  revert st. induction stmts as [|s stmts IH]; intros st; simpl; [done|].
  destruct (compile_stmt s st); simpl; [apply IH|done..].
Qed.

Lemma join_branches_tracking t e types moved st :
  ∃ types' moved', join_branches t e types moved st = set_tracking types' moved' st.
Proof.
  unfold join_branches. destruct t; [|destruct e; by do 2 eexists].
  exists (cg_types st), (cg_moved st). by destruct st.
Qed.

Lemma patch_Ok at_ i st st' : patch at_ i st = Ok st' → st' = patched at_ i st.
Proof. unfold patch. intros Hc. by apply bind_Ok in Hc as (? & _ & [= <-]). Qed.

Lemma compile_if_inv c body eb st st' :
  compile_stmt (Stmt.If c body eb) st = Ok st' →
  ∃ st1 st2 types moved,
    compile_expr c st = Ok st1 ∧
    compile_stmts body (enter_scope (then_start st1)) = Ok st2 ∧
    match eb with
    | None => st' = set_tracking types moved (if_end st1 st2)
    | Some es =>
        ∃ st3, compile_stmts es (enter_scope (else_start st1 st2)) = Ok st3 ∧
               st' = set_tracking types moved (else_end st1 st2 st3)
    end.
Proof.
  intros Hc. cbn [Codegen.compile_stmt] in Hc. apply bind_Ok in Hc as (st1 & H1 & Hc).
  apply bind_Ok in Hc as (st2' & H2 & Hc). apply bind_Ok in H2 as (st2 & H2 & H2').
  apply bind_Ok in H2' as ([] & _ & H2'). injection H2' as <-. rewrite compile_stmts_go in H2.
  apply bind_Ok in Hc as (st3' & H3 & Hc). exists st1, st2. destruct eb as [es|].
  - apply bind_Ok in H3 as (st2'' & Hp%patch_Ok & H3). subst st2''.
    apply bind_Ok in H3 as (st3'' & H3 & ->%patch_Ok).
    apply bind_Ok in H3 as (st3 & H3 & H3'). apply bind_Ok in H3' as ([] & _ & H3').
    injection H3' as <-. rewrite compile_stmts_go in H3. injection Hc as <-.
    edestruct join_branches_tracking as (types & moved & ->). exists types, moved.
    split_and!; [done..|]. by exists st3.
  - apply patch_Ok in H3 as ->. injection Hc as <-.
    edestruct join_branches_tracking as (types & moved & ->). by exists types, moved.
Qed.

(** Arithmetic on the lengths of concatenations. *)
Ltac list_len := repeat (rewrite length_app || cbn [length]); lia.

(** The code of a compiled [If]. *)
Definition jump_over (n : nat) : Z := as_i32 (Z.of_nat n).
Definition if_code (nc nb : list Instruction.t) (ne : option (list Instruction.t))
  : list Instruction.t :=
  match ne with
  | None => nc ++ Instruction.JumpIfNot (jump_over (length nb + 1)) :: nb
  | Some ne =>
      nc ++ Instruction.JumpIfNot (jump_over (length nb + 2)) ::
      nb ++ Instruction.Jump (jump_over (length ne + 1)) :: ne
  end.

Lemma insert_middle {A} (l1 l2 : list A) x y : <[length l1 := y]> (l1 ++ x :: l2) = l1 ++ y :: l2.
Proof. rewrite insert_app_r_alt, Nat.sub_diag by done. done. Qed.

Lemma if_end_code st st1 st2 nc nb :
  cg_code st1 = cg_code st ++ nc → cg_code st2 = cg_code (then_start st1) ++ nb →
  cg_code (if_end st1 st2) = cg_code st ++ if_code nc nb None.
Proof.
  intros H1 H2. unfold if_end, patched, offset_from. simpl. rewrite H2. simpl.
  rewrite <-app_assoc. simpl. rewrite insert_middle, H1, <-app_assoc. do 4 f_equal.
  unfold jump_over. f_equal. list_len.
Qed.
Lemma else_start_code st st1 st2 nc nb :
  cg_code st1 = cg_code st ++ nc → cg_code st2 = cg_code (then_start st1) ++ nb →
  cg_code (else_start st1 st2) =
  cg_code st ++ (nc ++ Instruction.JumpIfNot (jump_over (length nb + 2)) :: nb) ++ [Instruction.Jump 0].
Proof.
  intros H1 H2. unfold else_start, patched, offset_from. simpl. rewrite H2. simpl.
  rewrite <-!app_assoc. simpl. rewrite insert_middle, H1, <-!app_assoc. do 3 f_equal. simpl. f_equal.
  unfold jump_over. do 2 f_equal. list_len.
Qed.
Lemma else_end_code st st1 st2 st3 nc nb ne :
  cg_code st1 = cg_code st ++ nc → cg_code st2 = cg_code (then_start st1) ++ nb →
  cg_code st3 = cg_code (else_start st1 st2) ++ ne →
  cg_code (else_end st1 st2 st3) = cg_code st ++ if_code nc nb (Some ne).
Proof.
  intros H1 H2 H3. unfold else_end, patched, offset_from. simpl. rewrite H3.
  rewrite (else_start_code _ _ _ _ _ H1 H2).
  set (c := cg_code st ++ nc ++ Instruction.JumpIfNot (jump_over (length nb + 2)) :: nb).
  assert (length (cg_code st2) = length c) as ->.
  { unfold c. rewrite H2. simpl. rewrite H1. list_len. }
  replace ((cg_code st ++ (nc ++ Instruction.JumpIfNot (jump_over (length nb + 2)) :: nb) ++
    [Instruction.Jump 0]) ++ ne) with (c ++ Instruction.Jump 0 :: ne)
    by (unfold c; by repeat (rewrite <-app_assoc; simpl)).
  rewrite insert_middle. unfold c, if_code, jump_over. rewrite <-!app_assoc. simpl. do 6 f_equal.
  f_equal. list_len.
Qed.

(** *** The shape of the code *)
Lemma frag_ok_cons slots i c :
  instr_wf slots (length c + 1) 0 i → frag_ok slots c → frag_ok slots (i :: c).
Proof.
  intros Hi Hc [|n] ins Hn; simplify_eq/=; [by rewrite Nat.add_1_r in Hi|].
  apply Hc in Hn. apply (instr_wf_mono _ slots _ (S (length c)) n 1 _ Hn); lia.
Qed.
Lemma jump_wf slots len n : 0 < n ≤ len → instr_wf slots len 0 (Instruction.Jump (jump_over n)).
Proof. intros. exists n. split_and!; [done|lia|lia]. Qed.
Lemma jump_if_not_wf slots len n :
  0 < n ≤ len → instr_wf slots len 0 (Instruction.JumpIfNot (jump_over n)).
Proof. intros. exists n. split_and!; [done|lia|lia]. Qed.
Lemma if_code_ok slots nc nb ne :
  frag_ok slots nc → frag_ok slots nb → frag_ok slots (default [] ne) →
  frag_ok slots (if_code nc nb ne).
Proof.
  intros Hc Hb He. destruct ne as [ne|]; simpl in *; (eapply frag_ok_app; [done| |done]).
  - apply frag_ok_cons; [apply jump_if_not_wf; list_len|].
    eapply frag_ok_app; [done| |done]. apply frag_ok_cons; [apply jump_wf; lia|done].
  - apply frag_ok_cons; [apply jump_if_not_wf; lia|done].
Qed.

Lemma frag_ok_mono slots slots' c : frag_ok slots c → slots ≤ slots' → frag_ok slots' c.
Proof.
  intros Hc Hs i ins Hi. apply Hc in Hi. apply (instr_wf_mono _ slots' _ (length c) i 0 _ Hi Hs). lia.
Qed.

(** A branch keeps what its outside relies on. *)
Lemma leave_scope_ok st st' :
  stmt_effect (enter_scope st) st' → cg_ok st →
  cg_ok (leave_scope (cg_locals st) st') ∧ cg_next_slot st ≤ cg_next_slot st' ∧
  cg_scope_depth st' - 1 = cg_scope_depth st.
Proof.
  intros [[_ Hm] N D _] [Hl _]. simpl in *. split_and!; [|done|rewrite D; lia].
  split; simpl; [|done]. intros x s d Hx%Hl. lia.
Qed.

Lemma compile_stmts_ok stmts : Forall (λ s, stmt_ok (compile_stmt s)) stmts → stmt_ok (compile_stmts stmts).
Proof.
  induction 1 as [|s stmts Hs _ IH]; intros st st' Hok Hc; simpl in Hc.
  { simplify_eq. by apply stmt_effect_refl. }
  apply bind_Ok in Hc as (st1 & H1 & Hc). apply Hs in H1; [|done].
  eapply stmt_effect_trans; [done|]. eapply IH; [by eapply se_ok|done].
Qed.

Lemma compile_if_ok c body eb :
  Forall (λ s, stmt_ok (compile_stmt s)) body →
  Forall (λ s, stmt_ok (compile_stmt s)) (default [] eb) →
  stmt_ok (compile_stmt (Stmt.If c body eb)).
Proof.
  intros Hb He st st' Hok Hc.
  apply compile_if_inv in Hc as (st1 & st2 & types & moved & H1 & H2 & H3).
  apply compile_expr_effect in H1; [|done]. pose proof (expr_effect_ok _ _ H1 Hok) as Hok1.
  destruct H1 as [L1 N1 D1 _ (nc & C1 & F1) _].
  apply compile_stmts_ok in H2; [|done|by split; apply Hok1].
  destruct (leave_scope_ok (then_start st1) st2 H2) as (K2 & N2 & D2); [by split; apply Hok1|].
  destruct H2 as [_ _ _ (nb & C2 & F2)]. destruct eb as [es|].
  - destruct H3 as (st3 & H3 & ->).
    apply compile_stmts_ok in H3; [|done|by split; apply K2].
    destruct (leave_scope_ok (else_start st1 st2) st3 H3) as (K3 & N3 & D3);
      [by split; apply K2|].
    destruct H3 as [_ _ _ (ne & C3 & F3)]. simpl in *.
    split; [by split; apply K3|simpl; lia|simpl; congruence|].
    exists (if_code nc nb (Some ne)). split; [by eapply (else_end_code st)|].
    apply if_code_ok; simpl; [|eapply frag_ok_mono; [done|lia]|done].
    eapply frag_ok_mono; [done|lia].
  - subst st'. simpl in *. split; [by split; apply K2|simpl; lia|simpl; congruence|].
    exists (if_code nc nb None). split; [by eapply (if_end_code st)|].
    apply if_code_ok; simpl; [|done|done]. eapply frag_ok_mono; [done|lia].
Qed.

Lemma compile_stmt_ok s : stmt_ok (compile_stmt s).
Proof.
  induction s as [x e|x e|e|e|c body eb Hb He|x p e|xs e|n bs e r] using Stmt.ind';
    [..|by apply compile_if_ok| | |]; intros st st' Hok Hc; cbn [Codegen.compile_stmt] in Hc.
  - apply bind_Ok in Hc as (st1 & H1 & Hc). apply bind_Ok in Hc as ([slot st2] & H2 & Hc).
    apply compile_expr_effect in H1; [|done]. pose proof (expr_effect_ok _ _ H1 Hok).
    apply alloc_local_ok in H2 as (He & Hs & _); [|done].
    assert (stmt_effect st (emit (Instruction.Store slot) st2)) as Hst.
    { apply stmt_effect_emit; [|done]. eapply stmt_effect_trans; [by apply expr_stmt_effect|done]. }
    injection Hc as <-. destruct (infer_type _ _ _ _ _ _); [by apply stmt_effect_tracking|done].
  - apply bind_Ok in Hc as (slot & Hs%ok_or_Ok & Hc). apply bind_Ok in Hc as ([] & _ & Hc).
    apply bind_Ok in Hc as (st1 & H1 & Hc). apply compile_expr_effect in H1; [|done].
    assert (stmt_effect st (emit (Instruction.Store slot) st1)) as Hst.
    { apply stmt_effect_emit; [by apply expr_stmt_effect|]. simpl. rewrite (ee_next _ _ H1).
      by eapply local_slot_ok. }
    injection Hc as <-. by destruct (infer_type _ _ _ _ _ _); repeat apply stmt_effect_tracking.
  - apply bind_Ok in Hc as (st1 & H1 & Hc). injection Hc as <-.
    apply stmt_effect_emit; [|done]. destruct e as [e|].
    + apply expr_stmt_effect; [done|]. by eapply compile_expr_effect.
    + injection H1 as <-. by apply stmt_effect_refl.
  - apply bind_Ok in Hc as ([] & _ & Hc). apply bind_Ok in Hc as (st1 & H1 & Hc). injection Hc as <-.
    apply stmt_effect_emit; [|done]. apply expr_stmt_effect; [done|]. by eapply compile_expr_effect.
  - apply bind_Ok in Hc as (slot & Hs%ok_or_Ok & Hc). apply bind_Ok in Hc as (first & _ & Hc).
    apply bind_Ok in Hc as ([] & _ & Hc). apply bind_Ok in Hc as ([] & _ & Hc).
    apply bind_Ok in Hc as (st1 & H1 & Hc). injection Hc as <-.
    apply compile_expr_effect in H1; [|done].
    apply stmt_effect_emit; [by apply expr_stmt_effect|]. simpl. rewrite (ee_next _ _ H1).
    by eapply local_slot_ok.
  - apply bind_Ok in Hc as ([] & _ & Hc). apply bind_Ok in Hc as (st1 & H1 & Hc).
    apply compile_expr_effect, expr_stmt_effect in H1; [|done..].
    assert (stmt_effect st (emit (Instruction.UnpackTuple (length xs)) st1)) as Hst
      by by apply stmt_effect_emit.
    eapply stmt_effect_trans; [done|]. eapply bind_elements_ok; [by eapply se_ok|done].
  - apply bind_Ok in Hc as (def & _ & Hc). apply bind_Ok in Hc as ([] & _ & Hc).
    apply bind_Ok in Hc as ([] & _ & Hc). apply bind_Ok in Hc as (st1 & H1 & Hc).
    apply bind_Ok in Hc as (tn & _ & Hc).
    apply compile_expr_effect, expr_stmt_effect in H1; [|done..].
    assert (stmt_effect st (emit (Instruction.UnpackStruct tn (map fd_name (sd_fields def))) st1))
      as Hst by by apply stmt_effect_emit.
    eapply stmt_effect_trans; [done|]. eapply bind_fields_ok; [by eapply se_ok|done].
Qed.

Lemma compile_stmts_shape stmts : stmt_ok (compile_stmts stmts).
Proof. apply compile_stmts_ok, list.Forall_forall. intros s _. apply compile_stmt_ok. Qed.

(** ** Functions *)
Lemma codegen_new_ok : cg_ok codegen_new.
Proof. split; [by intros x s d|simpl; lia]. Qed.

Lemma compile_params_ok fn params st params' st' :
  cg_ok st → compile_params config dep_addresses fn params st = Ok (params', st') →
  stmt_effect st st' ∧ cg_code st' = cg_code st ∧ map fst params' = map fst params.
Proof.
  revert st params'. induction params as [|[x ty] params IH]; intros st params' Hok Hc; simpl in Hc.
  { simplify_eq. split_and!; [by apply stmt_effect_refl|done..]. }
  apply bind_Ok in Hc as ([] & _ & Hc). apply bind_Ok in Hc as ([slot st1] & Ha & Hc).
  apply bind_Ok in Hc as (ty' & _ & Hc). apply bind_Ok in Hc as ([ps st2] & Hp & Hc). simplify_eq.
  apply alloc_local_ok in Ha as (He & _ & Hcode); [|done].
  apply (stmt_effect_tracking _ _ (<[slot := ty']> (cg_types st1)) (cg_moved st1)) in He.
  apply IH in Hp as (He' & Hcode' & Hnames); [|by eapply se_ok].
  split_and!; [by eapply stmt_effect_trans|by rewrite Hcode', <-Hcode|simpl; by rewrite Hnames].
Qed.

Lemma ensure_return_last st : list.last (cg_code (ensure_return st)) = Some Instruction.Return.
Proof.
  unfold ensure_return. destruct (list.last (cg_code st)) as [[]|] eqn:Hl; simpl;
    by rewrite ?last_snoc.
Qed.
Lemma ensure_return_slots st : cg_next_slot (ensure_return st) = cg_next_slot st.
Proof. unfold ensure_return. by repeat case_match. Qed.
Lemma ensure_return_effect st st' : stmt_effect st st' → stmt_effect st (ensure_return st').
Proof.
  intros He. unfold ensure_return. destruct (list.last (cg_code st')) as [[]|]; try done;
    by apply stmt_effect_emit.
Qed.

Lemma compile_body_ok ast_fn params rt st :
  compile_body config structs dep_addresses dep_modules local_fn_return_types ast_fn
    = Ok (params, rt, st) →
  stmt_effect codegen_new st ∧ map fst params = map fst (af_params ast_fn).
Proof.
  unfold compile_body. intros Hc.
  apply bind_Ok in Hc as ([] & _ & Hc). apply bind_Ok in Hc as ([] & _ & Hc).
  apply bind_Ok in Hc as ([ps st1] & H1 & Hc). apply bind_Ok in Hc as (rt' & _ & Hc).
  apply bind_Ok in Hc as (st2 & H2 & Hc). apply bind_Ok in Hc as ([] & _ & Hc). simplify_eq.
  apply compile_params_ok in H1 as (He1 & _ & Hp); [|apply codegen_new_ok].
  apply compile_stmts_shape in H2; [|by eapply se_ok]. split; [by eapply stmt_effect_trans|done].
Qed.

Lemma compile_function_inv ast_fn f :
  compile_function config structs dep_addresses dep_modules local_fn_return_types ast_fn = Ok f →
  ∃ params rt st,
    compile_body config structs dep_addresses dep_modules local_fn_return_types ast_fn
      = Ok (params, rt, st) ∧
    f = mkFunction (af_name ast_fn) (af_is_public ast_fn) params rt (cg_next_slot st)
          (cg_code (ensure_return st)) ∧
    (Z.of_nat (length (fn_code f)) ≤ max_fun_code_size config)%Z.
Proof.
  unfold compile_function. intros Hc. apply bind_Ok in Hc as ([[params rt] st] & Hb & Hc).
  apply bind_Ok in Hc as ([] & Hl%guard_err_Ok & Hc). apply bool_decide_eq_false in Hl.
  simplify_eq. exists params, rt, st.
  split_and!; [done|by rewrite ensure_return_slots|simpl; lia].
Qed.
End codegen.
