(* ===== verification/SourceSemantics.v ===== *)
(** * A reference semantics of the source language

    An interpreter of the syntax tree of [ast.rs] after [docs/language.md],
    written without slots, jumps or an operand stack.  Variables live in a stack of scopes, one per branch
    that is open; using a variable that holds a struct moves the value out of
    it.  An expression yields a value, a statement continues or returns.  Gas
    is charged per construct.  A call is the machine's: its meaning is what
    [exec_call] makes of the argument values.

    [CodegenSim.v] proves that compiled functions behave like this. *)

From S2P Require Import Prelude Address VmTypes Gas Vm ErrorText Ast CompilerValidator.
From S2P Require Import TypeChecker Codegen.

(** ** Variables *)

(** A variable without a value has been moved out of. *)
Notation Scope := (gmap string (option Value.t)).
Notation Env := (list Scope).

Fixpoint read_var (x : string) (env : Env) : option (option Value.t) :=
  match env with
  | [] => None
  | γ :: env => match γ !! x with Some c => Some c | None => read_var x env end
  end.
Fixpoint write_var (x : string) (c : option Value.t) (env : Env) : Env :=
  match env with
  | [] => []
  | γ :: env =>
      match γ !! x with Some _ => <[x := c]> γ :: env | None => γ :: write_var x c env end
  end.

(** A struct is never overwritten. *)
Definition overwrites (c : option (option Value.t)) : bool :=
  match c with Some (Some v) => Value.is_linear v | _ => false end.

(** Use, declare and assign a variable. *)
Definition use_var (x : string) (env : Env) : outcome VmError.t (Value.t * Env) :=
  match read_var x env with
  | Some (Some v) => Ok (v, if Value.is_linear v then write_var x None env else env)
  | _ => Err (moved_slot 0)
  end.
Definition declare (x : string) (v : Value.t) (env : Env) : outcome VmError.t Env :=
  match env with
  | [] => Ok [{[x := Some v]}]
  | γ :: env =>
      guard_err (overwrites (γ !! x)) (VmError.SlotOverwrite 0) ;;
      Ok (<[x := Some v]> γ :: env)
  end.
Definition assign (x : string) (v : Value.t) (env : Env) : outcome VmError.t Env :=
  guard_err (overwrites (read_var x env)) (VmError.SlotOverwrite 0) ;;
  Ok (write_var x (Some v) env).

(** ** Operators *)
Definition eval_binop (op : BinOp.t) (l r : Value.t) : outcome VmError.t Value.t :=
  let divide f := guard_err (bool_decide (Value.as_u64 r = Some 0%Z)) VmError.DivisionByZero ;;
                  arith_op l r f in
  let equal := if Value.is_linear l || Value.is_linear r
               then name ← linear_type_name l r; Err (VmError.EqOnLinearType name)
               else Ok (bool_decide (l = r)) in
  let logic f := a ← ok_or (Value.as_bool l) (expected_bool l);
                 b ← ok_or (Value.as_bool r) (expected_bool r);
                 Ok (Value.Bool (f a b)) in
  match op with
  | BinOp.Add => arith_op l r checked_add
  | BinOp.Sub => arith_op l r checked_sub
  | BinOp.Mul => arith_op l r checked_mul
  | BinOp.Div => divide checked_div
  | BinOp.Mod => divide checked_rem
  | BinOp.Eq => Value.Bool <$> equal
  | BinOp.Ne => (λ b, Value.Bool (negb b)) <$> equal
  | BinOp.Lt => Value.Bool <$> cmp_values l r
  | BinOp.Le => (λ b, Value.Bool (negb b)) <$> cmp_values r l
  | BinOp.Gt => Value.Bool <$> cmp_values r l
  | BinOp.Ge => (λ b, Value.Bool (negb b)) <$> cmp_values l r
  | BinOp.And => logic andb
  | BinOp.Or => logic orb
  end.
Definition eval_not (v : Value.t) : outcome VmError.t Value.t :=
  b ← ok_or (Value.as_bool v) (expected_bool v);
  Ok (Value.Bool (negb b)).
Definition get_field (field : string) (v : Value.t) : outcome VmError.t Value.t :=
  match v with
  | Value.Struct type_name fields =>
      ok_or (Value.find_field field fields) (VmError.UndefinedField type_name field)
  | other => Err (VmError.TypeError ("expected struct, got " +:+ Value.type_name other))
  end.
Definition tuple_values (n : nat) (v : Value.t) : outcome VmError.t (list Value.t) :=
  match v with
  | Value.Tuple values =>
      if bool_decide (length values = n) then Ok values
      else Err (VmError.TypeError ("UnpackTuple: expected tuple of size " +:+ pretty n +:+
                  ", got size " +:+ pretty (length values)))
  | other =>
      Err (VmError.TypeError ("UnpackTuple: expected tuple, got " +:+ Value.type_name other))
  end.

(** A frame that holds some operands and nothing else. *)
Definition operands (vs : list Value.t) : Frame := mkFrame [] vs 0 [].
Definition struct_values (names : list string) (v : Value.t) : outcome VmError.t (list Value.t) :=
  stack <$> exec_unpack_struct names (operands [v]).

(** ** Expressions and statements *)
Inductive Flow := Next (env : Env) | Returned (v : option Value.t).

Section semantics.
Context {S : Type} `{PrefixHex} (vm : Vm S) (structs : list StructDef).
Context (dep_addresses : gmap string Address).
Context (context_module : VmModule) (context_module_addr : Address) (depth call_fuel : nat).

(** The price of an instruction. *)
Definition tick (i : Instruction.t) : VmM S () := vm_charge (cost_of (vm_gas_schedule vm) i).

(** The name the machine knows something by. *)
Definition resolved (name : string) : string :=
  match translate_name dep_addresses name with Ok n => n | _ => name end.

(** The qualified type of a new struct. *)
Definition struct_type (name : string) : outcome VmError.t string :=
  match parse_module_ref name with
  | Some (dep_addr, struct_name) =>
      ok_or (vm_deps vm !! dep_addr ≫= λ m, get_struct m struct_name)
        (VmError.UndefinedStruct name) ;;
      Ok name
  | None =>
      ok_or (get_struct context_module name) (VmError.UndefinedStruct name) ;;
      Ok (qualify context_module_addr name)
  end.

Definition eval_call (name : string) (args : list Value.t) : VmM S Value.t :=
  fr ← exec_call vm (run vm call_fuel) context_module context_module_addr depth name
         (operands (reverse args));
  lift (peek fr).

Fixpoint eval_steps (path : list string) (v : Value.t) : VmM S Value.t :=
  match path with
  | [] => mret v
  | field :: path =>
      tick (Instruction.GetField field) ;;
      v ← lift (get_field field v);
      eval_steps path v
  end.

(** Expressions from left to right. *)
Definition Eval : Type := Env → VmM S (Value.t * Env).
Fixpoint eval_seq (evals : list Eval) (env : Env) : VmM S (list Value.t * Env) :=
  match evals with
  | [] => mret ([], env)
  | eval :: evals =>
      '(v, env) ← eval env;
      '(vs, env) ← eval_seq evals env;
      mret (v :: vs, env)
  end.

(** The fields of a struct literal, in the order of the definition. *)
Definition field_evals (literal : list (string * Eval)) (names : list string) : list Eval :=
  omap (last_entry literal) names.

(** [e], then the field accesses of [path]: a path on a variable reads through
    it and moves nothing. *)
Fixpoint eval_path (e : Expr.t) (path : list string) (env : Env) : VmM S (Value.t * Env) :=
  match e with
  | Expr.FieldAccess e field => eval_path e (field :: path) env
  | _ =>
      match e, path with
      | Expr.Ident x, _ :: _ =>
          tick (Instruction.LoadField 0 path) ;;
          root ← lift (ok_or (mjoin (read_var x env)) (moved_slot 0));
          v ← lift (read_field_path 0 root path);
          mret (v, env)
      | _, _ =>
          '(v, env) ←
            match e with
            | Expr.Bool b => tick (Instruction.PushBool b) ;; mret (Value.Bool b, env)
            | Expr.Int n => tick (Instruction.PushU64 n) ;; mret (Value.U64 n, env)
            | Expr.Address a => tick (Instruction.PushAddress a) ;; mret (Value.Address a, env)
            | Expr.Str s => tick (Instruction.PushStr s) ;; mret (Value.Str s, env)
            | Expr.Ident x => tick (Instruction.Load 0) ;; lift (use_var x env)
            | Expr.BinOp l op r =>
                '(a, env) ← eval_path l [] env;
                '(b, env) ← eval_path r [] env;
                tick (binop_instr op) ;;
                v ← lift (eval_binop op a b);
                mret (v, env)
            | Expr.FieldAccess _ _ => mret (Value.Void, env)
            | Expr.StructLit name fields =>
                let names := match find_def structs name with
                             | Some def => map fd_name (sd_fields def)
                             | None => []
                             end in
                '(vs, env) ← eval_seq
                  (field_evals (map (λ f, (fst f, eval_path (snd f) [])) fields) names) env;
                tick (Instruction.NewStruct name names) ;;
                type_name ← lift (struct_type (resolved name));
                mret (Value.Struct type_name (zip names vs), env)
            | Expr.Call name args =>
                '(vs, env) ← eval_seq (map (λ a, eval_path a []) args) env;
                tick (Instruction.Call name) ;;
                v ← eval_call (resolved name) vs;
                mret (v, env)
            | Expr.Tuple items =>
                '(vs, env) ← eval_seq (map (λ a, eval_path a []) items) env;
                tick (Instruction.MakeTuple (length items)) ;;
                mret (Value.Tuple vs, env)
            | Expr.UnaryOp UnaryOp.Not e =>
                '(v, env) ← eval_path e [] env;
                tick Instruction.Not ;;
                v ← lift (eval_not v);
                mret (v, env)
            end;
          v ← eval_steps path v;
          mret (v, env)
      end
  end.
Definition eval_expr (e : Expr.t) (env : Env) : VmM S (Value.t * Env) := eval_path e [] env.

(** Bind the elements of a tuple; bind or discard the fields of a struct. *)
Fixpoint declare_all (names : list string) (vs : list Value.t) (env : Env) : VmM S Env :=
  match names, vs with
  | name :: names, v :: vs =>
      tick (Instruction.Store 0) ;;
      env ← lift (declare name v env);
      declare_all names vs env
  | _, _ => mret env
  end.
Fixpoint declare_fields (binding_map : gmap string string) (fields : list string)
    (vs : list Value.t) (env : Env) : VmM S Env :=
  match fields, vs with
  | field :: fields, v :: vs =>
      env ← match binding_map !! field with
            | Some name => tick (Instruction.Store 0) ;; lift (declare name v env)
            | None => tick Instruction.Pop ;; mret env
            end;
      declare_fields binding_map fields vs env
  | _, _ => mret env
  end.

(** A branch ends: its scope is dropped. *)
Definition leave (flow : Flow) : Flow :=
  match flow with Next env => Next (tail env) | Returned v => Returned v end.

Fixpoint eval_stmt (s : Stmt.t) (env : Env) : VmM S Flow :=
  match s with
  | Stmt.Let name e =>
      '(v, env) ← eval_expr e env;
      tick (Instruction.Store 0) ;;
      env ← lift (declare name v env);
      mret (Next env)
  | Stmt.Reassign name e =>
      '(v, env) ← eval_expr e env;
      tick (Instruction.Store 0) ;;
      env ← lift (assign name v env);
      mret (Next env)
  | Stmt.Return None => mret (Returned None)
  | Stmt.Return (Some e) =>
      '(v, _) ← eval_expr e env;
      mret (Returned (Some v))
  | Stmt.Expr e =>
      '(_, env) ← eval_expr e env;
      tick Instruction.Pop ;;
      mret (Next env)
  | Stmt.If cond body else_body =>
      let go := fix go stmts (env : Env) : VmM S Flow :=
        match stmts with
        | [] => mret (Next env)
        | s :: stmts =>
            flow ← eval_stmt s env;
            match flow with Next env => go stmts env | Returned v => mret (Returned v) end
        end in
      '(v, env) ← eval_expr cond env;
      tick (Instruction.JumpIfNot 0) ;;
      b ← lift (ok_or (Value.as_bool v) (expected_bool v));
      if b : bool then
        flow ← go body (∅ :: env);
        match flow, else_body with
        | Next _, Some _ => tick (Instruction.Jump 0) ;; mret (leave flow)
        | _, _ => mret (leave flow)
        end
      else
        match else_body with
        | Some stmts => flow ← go stmts (∅ :: env); mret (leave flow)
        | None => mret (Next env)
        end
  | Stmt.FieldAssign name path e =>
      '(v, env) ← eval_expr e env;
      tick (Instruction.StoreField 0 path) ;;
      root ← lift (ok_or (mjoin (read_var name env)) (moved_slot 0));
      root ← lift (write_field_path 0 root path v);
      mret (Next (write_var name (Some root) env))
  | Stmt.LetTuple names e =>
      '(v, env) ← eval_expr e env;
      tick (Instruction.UnpackTuple (length names)) ;;
      vs ← lift (tuple_values (length names) v);
      env ← declare_all names vs env;
      mret (Next env)
  | Stmt.LetStruct type_name bindings e _ =>
      let fields := match find_def structs type_name with
                    | Some def => map fd_name (sd_fields def)
                    | None => []
                    end in
      '(v, env) ← eval_expr e env;
      tick (Instruction.UnpackStruct type_name fields) ;;
      vs ← lift (struct_values fields v);
      env ← declare_fields (collect_map bindings) fields vs env;
      mret (Next env)
  end.
Fixpoint eval_stmts (stmts : list Stmt.t) (env : Env) : VmM S Flow :=
  match stmts with
  | [] => mret (Next env)
  | s :: stmts =>
      flow ← eval_stmt s env;
      match flow with Next env => eval_stmts stmts env | Returned v => mret (Returned v) end
  end.

(** ** Functions *)

(** The code of a statement ends with a [Return]. *)
Fixpoint ends_in_return (s : Stmt.t) : bool :=
  let go := fix go stmts :=
    match stmts with [] => false | [s] => ends_in_return s | _ :: stmts => go stmts end in
  match s with
  | Stmt.Return _ => true
  | Stmt.If _ body None => go body
  | Stmt.If _ _ (Some stmts) => go stmts
  | _ => false
  end.

Definition params_scope (fn : AstFunction) (args : list Value.t) : Scope :=
  list_to_map (zip (map fst (af_params fn)) (Some <$> args)).

(** A function that runs to its end returns nothing; the generator gives it a
    [Return] of its own when its code does not end with one. *)
Definition eval_function (fn : AstFunction) (args : list Value.t) : VmM S (option Value.t) :=
  flow ← eval_stmts (af_body fn) [params_scope fn args];
  match flow with
  | Returned v => tick Instruction.Return ;; mret v
  | Next _ =>
      match list.last (af_body fn) with
      | Some s => if ends_in_return s then mret () else tick Instruction.Return
      | None => tick Instruction.Return
      end ;;
      mret None
  end.

(** ** Calls with the right number of arguments *)

(** How many operands the machine takes for a call. *)
Definition callee_arity (name : string) : option nat :=
  match parse_module_ref name with
  | Some (dep_addr, fn_name) =>
      length ∘ fn_params <$> (vm_deps vm !! dep_addr ≫= λ m, get_function m fn_name)
  | None =>
      match get_function context_module name with
      | Some f => Some (length (fn_params f))
      | None => length ∘ nat_params <$> vm_natives vm !! name
      end
  end.
Fixpoint arity_ok (e : Expr.t) : bool :=
  match e with
  | Expr.BinOp l _ r => arity_ok l && arity_ok r
  | Expr.FieldAccess e _ | Expr.UnaryOp _ e => arity_ok e
  | Expr.StructLit _ fields => forallb (λ f, arity_ok (snd f)) fields
  | Expr.Call name args =>
      forallb arity_ok args &&
      match callee_arity (resolved name) with
      | Some n => Nat.eqb n (length args)
      | None => true
      end
  | Expr.Tuple items => forallb arity_ok items
  | _ => true
  end.
Fixpoint arity_ok_stmt (s : Stmt.t) : bool :=
  match s with
  | Stmt.Let _ e | Stmt.Reassign _ e | Stmt.Return (Some e) | Stmt.Expr e
  | Stmt.FieldAssign _ _ e | Stmt.LetTuple _ e | Stmt.LetStruct _ _ e _ => arity_ok e
  | Stmt.Return None => true
  | Stmt.If c body else_body =>
      arity_ok c && forallb arity_ok_stmt body &&
      match else_body with Some stmts => forallb arity_ok_stmt stmts | None => true end
  end.
End semantics.
