(* ===== verification/CodegenSim.v ===== *)
(** * Compiled code behaves like its source

    The machine on the code that [codegen.rs] emits against the interpreter of
    [SourceSemantics.v]: same values, same errors, same gas, same state of the
    natives, for every program that compiles.  Errors agree up to the number of
    the slot they mention.  Expressions come first, then statements and
    functions. *)

From S2P Require Import Prelude Address VmTypes Gas Vm VmProps ErrorText Ast CompilerValidator.
From S2P Require Import TypeChecker Codegen CodegenProps SourceSemantics.

(** ** Errors without slot numbers *)
Definition erase_slot (e : VmError.t) : VmError.t :=
  match e with
  | VmError.SlotOverwrite _ => VmError.SlotOverwrite 0
  | VmError.UseAfterMove _ => VmError.UseAfterMove ""
  | e => e
  end.
Definition erased {A} (r : outcome VmError.t A) : outcome VmError.t A := map_err erase_slot r.

(** Both sides fail with the same error, up to the slot. *)
Ltac same_error := eexists; (split; [|reflexivity]; reflexivity).

(** The instructions [frag] are in the code [c] at [p]. *)
Definition code_at (c : list Instruction.t) (p : nat) (frag : list Instruction.t) : Prop :=
  ∀ i ins, frag !! i = Some ins → c !! (p + i) = Some ins.

Lemma code_at_app c p f1 f2 :
  code_at c p (f1 ++ f2) ↔ code_at c p f1 ∧ code_at c (p + length f1) f2.
Proof.
  split.
  - intros Hc. split; intros i ins Hi; [by apply Hc, lookup_app_l_Some|].
    rewrite <-Nat.add_assoc. apply Hc. rewrite lookup_app_r by lia. by rewrite Nat.add_comm, Nat.add_sub.
  - intros [H1 H2] i ins [Hi|[Hl Hi]]%lookup_app_Some; [by apply H1|].
    apply H2 in Hi. by replace (p + i) with (p + length f1 + (i - length f1)) by lia.
Qed.
Lemma code_at_cons c p i f : code_at c p (i :: f) ↔ c !! p = Some i ∧ code_at c (p + 1) f.
Proof.
  rewrite (code_at_app c p [i] f). simpl. split; intros [H1 H2]; (split; [|done]).
  - rewrite <-(Nat.add_0_r p). by apply H1.
  - intros [|n] ins ?; simplify_eq/=. by rewrite Nat.add_0_r.
Qed.

Lemma Forall_forallb {A} (f : A → bool) (P : A → Prop) l :
  Forall (λ a, f a = true → P a) l → forallb f l = true → Forall P l.
Proof.
  induction 1 as [|a l Ha _ IH]; simpl; [done|]. intros [??]%andb_true_iff. constructor; auto.
Qed.

(** ** Struct literals *)
Lemma collect_map_snoc {A} (l : list (string * A)) x a :
  collect_map (l ++ [(x, a)]) = <[x := a]> (collect_map l).
Proof. unfold collect_map. by rewrite foldl_app. Qed.
Lemma last_entry_map {A B} (g : A → B) (l : list (string * A)) x :
  last_entry (map (λ f, (fst f, g (snd f))) l) x = g <$> last_entry l x.
Proof.
  unfold last_entry. induction l as [|[y a] l IH] using rev_ind; [done|].
  rewrite map_app. simpl. rewrite !collect_map_snoc. destruct (decide (y = x)) as [->|].
  - by rewrite !lookup_insert_eq.
  - by rewrite !lookup_insert_ne.
Qed.
Lemma last_entry_remove {A} (l : list (string * A)) x y a :
  last_entry (remove_entry l x) y = Some a → last_entry l y = Some a.
Proof.
  unfold last_entry, remove_entry. induction l as [|[z b] l IH] using rev_ind; [done|].
  rewrite list.filter_app, filter_cons, filter_nil. rewrite collect_map_snoc. simpl.
  case_decide as Hz; [|subst z; rewrite app_nil_r; intros Hl].
  - rewrite collect_map_snoc. destruct (decide (z = y)) as [->|].
    + by rewrite !lookup_insert_eq.
    + rewrite !lookup_insert_ne by done. apply IH.
  - rewrite lookup_insert_ne; [by apply IH|]. intros ->.
    apply collect_map_elem, list_elem_of_filter in Hl as [? _]. done.
Qed.
Lemma remove_entry_map {A B} (g : A → B) (l : list (string * A)) x :
  remove_entry (map (λ f, (fst f, g (snd f))) l) x = map (λ f, (fst f, g (snd f))) (remove_entry l x).
Proof.
  unfold remove_entry. induction l as [|[y a] l IH]; simpl; [done|].
  rewrite !filter_cons. simpl. case_decide; simpl; by rewrite IH.
Qed.

(** A struct literal compiles the expressions of its fields in order. *)
Lemma compile_fields_seq {A} (f : A → Codegen → CResult Codegen) name (fields lit : list (string * A))
    names st st' :
  (∀ y a, last_entry lit y = Some a → last_entry fields y = Some a) →
  compile_fields name (map (λ x, (fst x, f (snd x))) lit) names st = Ok st' →
  ∃ es, Forall2 (λ n a, last_entry fields n = Some a) names es ∧
    (fix go l (st : Codegen) : CResult Codegen := match l with
     | [] => Ok st
     | a :: l => st ← f a st; go l st
     end) es st = Ok st'.
Proof.
  revert lit st. induction names as [|n names IH]; intros lit st Hlit Hc; simpl in Hc.
  { exists []. split; [constructor|done]. }
  apply bind_Ok in Hc as (g & Hg%ok_or_Ok & Hc). apply bind_Ok in Hc as (st1 & H1 & Hc).
  rewrite last_entry_map in Hg. apply fmap_Some in Hg as (a & Ha & ->).
  rewrite remove_entry_map in Hc. apply IH in Hc as (es & Hes & Hgo).
  - exists (a :: es). split; [constructor; auto|]. by rewrite H1.
  - intros y b Hb. by apply Hlit, (last_entry_remove _ n).
Qed.

(** ** Slots and variables *)

(** The slots of the variables of each scope, innermost first. *)
Notation Slots := (list (gmap string nat)).
Fixpoint resolve (σs : Slots) (x : string) : option (nat * nat) :=
  match σs with
  | [] => None
  | γ :: σs => match γ !! x with Some s => Some (s, length σs) | None => resolve σs x end
  end.
Definition owns (σs : Slots) (s : nat) : Prop := Exists (λ γ, ∃ x : string, γ !! x = Some s) σs.
Fixpoint distinct (σs : Slots) : Prop :=
  match σs with
  | [] => True
  | γ :: σs =>
      (∀ x y s, γ !! x = Some s → γ !! y = Some s → x = y) ∧
      (∀ x s, γ !! x = Some s → ¬ owns σs s) ∧ distinct σs
  end.

(** The slots the generator has given out. *)
Record slots_ok (σs : Slots) (st : Codegen) : Prop := {
  sl_locals x : cg_locals st !! x = resolve σs x;
  sl_depth : length σs = cg_scope_depth st + 1;
  sl_next s : owns σs s → s < cg_next_slot st;
  sl_distinct : distinct σs;
}.

(** The cells of the variables are the slots of the frame; the slots from [n]
    on are free. *)
Definition scope_match (ls : list (option Value.t)) (γ : gmap string nat) (ε : Scope) : Prop :=
  ∀ x, option_Forall2 (λ s c, ls !! s = Some c) (γ !! x) (ε !! x).
Record env_ok (σs : Slots) (n : nat) (env : Env) (ls : list (option Value.t)) : Prop := {
  env_match : Forall2 (scope_match ls) σs env;
  env_free s : n ≤ s → mjoin (ls !! s) = None;
}.

Lemma resolve_read σs env ls x s d :
  Forall2 (scope_match ls) σs env → resolve σs x = Some (s, d) →
  ∃ c, read_var x env = Some c ∧ ls !! s = Some c ∧ owns σs s.
Proof.
  induction 1 as [|γ ε σs env Hm _ IH]; simpl; [done|]. intros Hr. specialize (Hm x).
  destruct (γ !! x) eqn:Hg; inversion Hm as [? c Hc E1 E2|E1 E2]; simplify_eq.
  - exists c. split_and!; [done..|]. left. by eexists.
  - apply IH in Hr as (c & ? & ? & ?). exists c. split_and!; [done..|by right].
Qed.

(** Writing a slot that no variable of the scopes owns changes nothing. *)
Lemma match_insert_other ls s c σs env :
  ¬ owns σs s → Forall2 (scope_match ls) σs env → Forall2 (scope_match (<[s := c]> ls)) σs env.
Proof.
  intros Ho. induction 1 as [|γ ε σs env Hm _ IH]; [done|]. constructor.
  - intros x. specialize (Hm x). inversion Hm as [s' c' Hc E1 E2|E1 E2]; constructor.
    rewrite list_lookup_insert_ne; [done|]. intros <-. apply Ho. left. exists x. by rewrite <-E1.
  - apply IH. intros Hs. apply Ho. by right.
Qed.
Lemma match_insert_scope ls s c x γ ε :
  (∀ x y s, γ !! x = Some s → γ !! y = Some s → x = y) → γ !! x = Some s → s < length ls →
  scope_match ls γ ε → scope_match (<[s := c]> ls) γ (<[x := c]> ε).
Proof.
  intros Hinj Hx Hl Hm y. specialize (Hm y). destruct (decide (x = y)) as [<-|Hne].
  - rewrite Hx, lookup_insert_eq. constructor. by apply list_lookup_insert_eq.
  - rewrite lookup_insert_ne by done. inversion Hm as [s' c' Hc E1 E2|E1 E2]; constructor.
    rewrite list_lookup_insert_ne; [done|]. intros <-. by apply Hne, (Hinj _ _ s).
Qed.

(** Writing the slot of a variable writes the variable. *)
Lemma match_write σs env ls x s d c :
  Forall2 (scope_match ls) σs env → distinct σs → resolve σs x = Some (s, d) →
  Forall2 (scope_match (<[s := c]> ls)) σs (write_var x c env).
Proof.
  intros Hm Hd Hr.
  assert (s < length ls) as Hl.
  { eapply resolve_read in Hr as (? & _ & Hs & _); [|done]. by eapply lookup_lt_Some. }
  induction Hm as [|γ ε σs env Hm Hms IH]; simpl in *; [done|].
  destruct Hd as (Hinj & Hno & Hd). pose proof (Hm x) as Hx.
  destruct (γ !! x) as [s'|] eqn:Hg; inversion Hx as [? c' Hc E1 E2|E1 E2]; simplify_eq.
  - constructor; [by apply match_insert_scope|]. apply match_insert_other; [|done]. by eapply Hno.
  - constructor; [|by apply IH]. intros y. specialize (Hm y).
    inversion Hm as [s' c' Hc E1' E2'|E1' E2']; constructor.
    rewrite list_lookup_insert_ne; [done|]. intros <-. symmetry in E1'. apply (Hno _ _ E1').
    by eapply resolve_read in Hr as (? & _ & _ & ?).
Qed.

Lemma env_write σs n env ls x s d c :
  env_ok σs n env ls → distinct σs → resolve σs x = Some (s, d) → s < n →
  env_ok σs n (write_var x c env) (<[s := c]> ls).
Proof.
  intros [Hm Hf] Hd Hr Hs. split; [by eapply match_write|]. intros s' Hs'.
  rewrite list_lookup_insert_ne by lia. by apply Hf.
Qed.

(** ** Declaring a variable *)
Lemma resolve_depth σs x s d : resolve σs x = Some (s, d) → d < length σs ∧ owns σs s.
Proof.
  induction σs as [|γ σs IH]; simpl; [done|]. destruct (γ !! x) eqn:Hg.
  - intros ?. simplify_eq. split; [lia|]. left. by eexists.
  - intros [??]%IH. split; [lia|by right].
Qed.

(** The slot that [alloc_local] gives to a variable of the innermost scope. *)
Definition slot_for (γ : gmap string nat) (n : nat) (x : string) (slot n' : nat) : Prop :=
  (γ !! x = Some slot ∧ n' = n) ∨ (γ !! x = None ∧ slot = n ∧ n' = n + 1).

Lemma slots_insert_fresh γ σs st x :
  slots_ok (γ :: σs) st → γ !! x = None →
  slots_ok (<[x := cg_next_slot st]> γ :: σs)
    (mkCodegen (<[x := (cg_next_slot st, cg_scope_depth st)]> (cg_locals st)) (cg_types st)
       (cg_moved st) (cg_next_slot st + 1) (cg_scope_depth st) (cg_code st)).
Proof.
  intros [Hl Hd Hn (Hinj & Hno & Hdis)] Hx.
  assert (∀ y s, γ !! y = Some s → s < cg_next_slot st) as Hlt
    by (intros y s Hy; apply Hn; left; by eexists).
  split; simpl in *.
  - intros y. destruct (decide (x = y)) as [<-|Hne].
    + rewrite !lookup_insert_eq. repeat f_equal; lia.
    + rewrite !lookup_insert_ne by done. apply Hl.
  - lia.
  - intros s [[y Hy]|Hs]%List.Exists_cons.
    + apply lookup_insert_Some in Hy as [[_ <-]|[_ Hy%Hlt]]; lia.
    + assert (s < cg_next_slot st); [|lia]. apply Hn. by right.
  - split_and!; [..|done].
    + intros y z s Hy Hz.
      apply lookup_insert_Some in Hy as [[? ?]|[? Hy]];
        apply lookup_insert_Some in Hz as [[? ?]|[? Hz]]; simplify_eq; [done|..|by eapply Hinj].
      * apply Hlt in Hz. lia.
      * apply Hlt in Hy. lia.
    + intros y s Hy Hs. apply lookup_insert_Some in Hy as [[_ <-]|[_ Hy]]; [|by eapply Hno].
      assert (cg_next_slot st < cg_next_slot st); [|lia]. apply Hn. by right.
Qed.

Lemma slots_tracking σs st types moved : slots_ok σs st → slots_ok σs (set_tracking types moved st).
Proof. by intros [Hl Hd Hn Hdis]; split. Qed.
Lemma slots_code σs st c : slots_ok σs st → slots_ok σs (set_code c st).
Proof. by intros [Hl Hd Hn Hdis]; split. Qed.

Lemma alloc_slots config γ σs st x slot st' :
  slots_ok (γ :: σs) st → alloc_local config x st = Ok (slot, st') →
  slots_ok (<[x := slot]> γ :: σs) st' ∧
  slot_for γ (cg_next_slot st) x slot (cg_next_slot st') ∧ cg_code st' = cg_code st.
Proof.
  intros Hok Ha. pose proof (sl_depth _ _ Hok) as Hd. simpl in Hd.
  pose proof (sl_locals _ _ Hok x) as Hx. simpl in Hx.
  apply alloc_local_inv in Ha as [[Hl [moved ->]]|(Hl & -> & _ & ->)].
  - assert (γ !! x = Some slot) as Hg.
    { destruct (γ !! x); [by simplify_eq|]. rewrite Hx in Hl. apply resolve_depth in Hl. lia. }
    rewrite (insert_id γ) by done. split_and!; [by apply slots_tracking|by left|done].
  - assert (γ !! x = None) as Hg.
    { destruct (γ !! x) as [s|]; [|done]. exfalso. apply (Hl s). rewrite Hx. repeat f_equal. lia. }
    split_and!; [by apply slots_insert_fresh|by right|done].
Qed.

(** Growing the locals to hold a slot. *)
Lemma resize_lookup slot ls s c : ls !! s = Some c → resize_locals slot ls !! s = Some c.
Proof.
  intros Hs. unfold resize_locals. case_bool_decide; [|done]. by apply lookup_app_l_Some.
Qed.
Lemma resize_slot slot ls : mjoin (ls !! slot) = None → resize_locals slot ls !! slot = Some None.
Proof.
  intros Hs. unfold resize_locals. case_bool_decide as Hl.
  - rewrite lookup_app_r by done. apply lookup_replicate_2. lia.
  - destruct (lookup_lt_is_Some_2 ls slot) as [[v|] Hv]; [lia|by rewrite Hv in Hs|done].
Qed.
Lemma resize_free slot ls s : mjoin (ls !! s) = None → mjoin (resize_locals slot ls !! s) = None.
Proof.
  intros Hs. unfold resize_locals. case_bool_decide as Hl; [|done].
  destruct (decide (s < length ls)); [by rewrite lookup_app_l|]. rewrite lookup_app_r by lia.
  destruct (replicate _ _ !! _) as [c|] eqn:Hc; [|done]. by apply lookup_replicate in Hc as [-> _].
Qed.
Lemma scope_match_mono ls ls' γ ε :
  (∀ s c, ls !! s = Some c → ls' !! s = Some c) → scope_match ls γ ε → scope_match ls' γ ε.
Proof. intros Hls Hm x. specialize (Hm x). inversion Hm; constructor; auto. Qed.

Lemma env_resize σs n env ls slot :
  env_ok σs n env ls → env_ok σs n env (resize_locals slot ls).
Proof.
  intros [Hm Hf]. split; [|by auto using resize_free].
  eapply list.Forall2_impl; [exact Hm|]. intros. eapply scope_match_mono; [|done]. by apply resize_lookup.
Qed.

(** Storing into that slot declares the variable. *)
Lemma env_declare γ σs n env ls x slot n' v :
  env_ok (γ :: σs) n env ls → distinct (γ :: σs) → (∀ s, owns (γ :: σs) s → s < n) →
  slot_for γ n x slot n' →
  ∃ ε env0, env = ε :: env0 ∧
    (overwrites (ε !! x) = true ∧ (∃ w, ls !! slot = Some (Some w) ∧ Value.is_linear w = true) ∨
     overwrites (ε !! x) = false ∧
       env_ok (<[x := slot]> γ :: σs) n' (<[x := Some v]> ε :: env0)
         (<[slot := Some v]> (resize_locals slot ls)) ∧
       match resize_locals slot ls !! slot with
       | Some (Some w) => Value.is_linear w = false
       | _ => True
       end).
Proof.
  intros Hok [Hinj [Hno Hdis]] Hn Hs. pose proof (env_resize _ _ _ _ slot Hok) as [Hm' Hf'].
  destruct Hok as [Hm Hf].
  inversion Hm as [|? ε ? env0 Hh Ht]; subst. inversion Hm' as [|? ? ? ? Hh' Ht']; subst.
  exists ε, env0. split; [done|]. pose proof (Hh x) as Hx.
  destruct Hs as [[Hg ->]|(Hg & -> & ->)].
  - rewrite Hg in Hx. inversion Hx as [? c Hc E1 E2|]. simplify_eq. simpl.
    assert (slot < n) by (apply Hn; left; by eexists).
    destruct (overwrites (Some c)) eqn:Ho; [left|right]; (split; [done|]).
    + destruct c as [w|]; [|done]. by exists w.
    + rewrite (resize_lookup _ _ _ _ Hc). split; [|by destruct c].
      rewrite (insert_id γ) by done. apply resize_lookup with (slot := slot) in Hc as Hc'.
      split; [constructor|].
      * apply match_insert_scope; [done..|by eapply lookup_lt_Some|done].
      * apply match_insert_other; [by eapply Hno|done].
      * intros s Hsn. rewrite list_lookup_insert_ne by lia. by apply Hf'.
  - right. rewrite Hg in Hx. inversion Hx as [|E1 E2]. split; [done|].
    rewrite resize_slot by (by apply Hf). split; [|done].
    assert (¬ owns (γ :: σs) n) as Hno' by (intros ?%Hn; lia).
    pose proof (resize_slot n ls (Hf n ltac:(done))) as Hl%lookup_lt_Some.
    split; [constructor|].
    + intros y. destruct (decide (x = y)) as [<-|Hne].
      * rewrite !lookup_insert_eq. constructor. by apply list_lookup_insert_eq.
      * rewrite !lookup_insert_ne by done. specialize (Hh' y).
        inversion Hh' as [s' c' Hc E1' E2'|E1' E2']; constructor.
        rewrite list_lookup_insert_ne; [done|]. intros <-. apply Hno'. left. exists y. by rewrite <-E1'.
    + apply match_insert_other; [|done]. intros ?. apply Hno'. by right.
    + intros s Hsn. rewrite list_lookup_insert_ne by lia. apply Hf'. lia.
Qed.

(** ** Runs of the machine *)
Section sim.
Context {S : Type} `{PrefixHex} (vm : Vm S) (ctx : VmModule) (addr : Address) (depth F : nat).
Notation R fuel fr := (run vm fuel ctx addr depth fr).

(** The run from [fr] and [ω], with at least [F] fuel to spare after [k] steps. *)
Definition goes (k : nat) (fr : Frame) (ω : GasMeter * S) (P : nat →
    outcome VmError.t (option Value.t) * (GasMeter * S) → Prop) : Prop :=
  ∀ fuel, F ≤ fuel → P fuel (R (k + fuel) fr ω).

(** A computation of the interpreter against at most [n] steps of the machine
    from [fr]: on success the machine is in a frame that satisfies [Q]. *)
Definition sim {A} (n : nat) (fr : Frame) (m : VmM S A) (Q : A → Frame → Prop) : Prop :=
  ∀ ω, match m ω with
  | (Ok a, ω') => ∃ k fr', k ≤ n ∧ Q a fr' ∧ goes k fr ω (λ fuel r, r = R fuel fr' ω')
  | (Err e, ω') =>
      ∃ k, k ≤ n ∧ goes k fr ω (λ _ r, ∃ e', erase_slot e' = erase_slot e ∧ r = (Err e', ω'))
  | (Panic msg, ω') => ∃ k, k ≤ n ∧ goes k fr ω (λ _ r, r = (Panic msg, ω'))
  | (NoFuel, _) => True
  end.

Lemma sim_ret {A} (a : A) fr (Q : A → Frame → Prop) : Q a fr → sim 0 fr (mret a) Q.
Proof. intros HQ ω. exists 0, fr. split_and!; [done..|]. by intros fuel _. Qed.
Lemma sim_mono {A} n n' fr (m : VmM S A) (Q Q' : A → Frame → Prop) :
  sim n fr m Q → n ≤ n' → (∀ a fr', Q a fr' → Q' a fr') → sim n' fr m Q'.
Proof.
  intros Hs Hn HQ ω. specialize (Hs ω). destruct (m ω) as [[a|e|msg|] ω'].
  - destruct Hs as (k & fr' & Hk & HQ' & Hg). exists k, fr'. split_and!; [lia|auto|done].
  - destruct Hs as (k & Hk & Hg). exists k. split; [lia|done].
  - destruct Hs as (k & Hk & Hg). exists k. split; [lia|done].
  - done.
Qed.
Lemma goes_trans k k' fr fr' ω ω' P :
  goes k fr ω (λ fuel r, r = R fuel fr' ω') → goes k' fr' ω' P → goes (k + k') fr ω P.
Proof.
  intros H1 H2 fuel Hf. specialize (H1 (k' + fuel) ltac:(lia)).
  rewrite <-Nat.add_assoc, H1. by apply H2.
Qed.
Lemma sim_bind {A B} n n' fr (m : VmM S A) (f : A → VmM S B) Q Q' :
  sim n fr m Q → (∀ a fr', Q a fr' → sim n' fr' (f a) Q') → sim (n + n') fr (m ≫= f) Q'.
Proof.
  intros Hm Hf ω. specialize (Hm ω). unfold mbind, VmM_bind. destruct (m ω) as [[a|e|msg|] ω'].
  - destruct Hm as (k & fr' & Hk & HQ & Hg). specialize (Hf a fr' HQ ω').
    destruct (f a ω') as [[b|e|msg|] ω''].
    + destruct Hf as (k' & fr'' & Hk' & HQ' & Hg'). exists (k + k'), fr''.
      split_and!; [lia|done|]. by eapply goes_trans.
    + destruct Hf as (k' & Hk' & Hg'). exists (k + k'). split; [lia|]. by eapply goes_trans.
    + destruct Hf as (k' & Hk' & Hg'). exists (k + k'). split; [lia|]. by eapply goes_trans.
    + done.
  - destruct Hm as (k & Hk & Hg). exists k. split; [lia|done].
  - destruct Hm as (k & Hk & Hg). exists k. split; [lia|done].
  - done.
Qed.

(** [m] against an instruction. *)
Definition instr_sim {A} (m : outcome VmError.t A) (r : outcome VmError.t Frame)
    (Q : A → Frame → Prop) : Prop :=
  match m with
  | Ok a => ∃ fr', r = Ok fr' ∧ Q a fr'
  | Err e => ∃ e', erase_slot e' = erase_slot e ∧ r = Err e'
  | Panic msg => r = Panic msg
  | NoFuel => True
  end.

Definition plain (i : Instruction.t) : bool :=
  match i with Instruction.Call _ | Instruction.Return => false | _ => true end.
Notation advance fr := (set_pc fr (pc fr + 1)).

Lemma run_plain fuel fr i ω :
  code fr !! pc fr = Some i → plain i = true →
  R (Datatypes.S fuel) fr ω =
  (vm_charge (cost_of (vm_gas_schedule vm) i) ;;
   fr' ← lift (exec_instr vm ctx addr i (advance fr)); R fuel fr') ω.
Proof. intros Hc Hi. simpl. rewrite Hc. by destruct i. Qed.

Lemma sim_instr {A} fr i i' (m : outcome VmError.t A) (Q : A → Frame → Prop) :
  code fr !! pc fr = Some i → plain i = true →
  cost_of (vm_gas_schedule vm) i' = cost_of (vm_gas_schedule vm) i →
  instr_sim m (exec_instr vm ctx addr i (advance fr)) Q →
  sim 1 fr (tick vm i' ;; lift m) Q.
Proof.
  intros Hc Hi Hcost Hm ω. unfold tick. rewrite Hcost.
  assert (∀ fuel, R (1 + fuel) fr ω = (vm_charge (cost_of (vm_gas_schedule vm) i) ;;
    fr' ← lift (exec_instr vm ctx addr i (advance fr)); R fuel fr') ω) as Hrun
    by (intros; by apply run_plain).
  unfold goes. unfold mbind, VmM_bind in *.
  destruct (vm_charge _ ω) as [[[]|e|msg|] ω'].
  - unfold lift in *. destruct m as [a|e|msg|].
    + destruct Hm as (fr' & He & HQ). exists 1, fr'. split_and!; [done..|].
      intros fuel _. by rewrite (Hrun fuel), He.
    + destruct Hm as (e' & He' & He). exists 1. split; [done|]. intros fuel _. exists e'.
      split; [done|]. by rewrite (Hrun fuel), He.
    + exists 1. split; [done|]. intros fuel _. simpl in Hm. by rewrite (Hrun fuel), Hm.
    + done.
  - exists 1. split; [done|]. intros fuel _. exists e. by rewrite (Hrun fuel).
  - exists 1. split; [done|]. intros fuel _. by rewrite (Hrun fuel).
  - done.
Qed.

(** A call with the right number of arguments. *)
Lemma pop_args_exact vs st fr :
  stack fr = reverse vs ++ st →
  pop_args (length vs) fr = Ok (vs, Vm.set_stack fr st).
Proof.
  intros Hst. unfold pop_args. rewrite Hst, <-(length_reverse vs), pop_n_take_drop.
  - by rewrite take_app_length, drop_app_length, reverse_involutive.
  - rewrite length_app. lia.
Qed.

(** The result of [exec_call] on the operands alone, put onto a frame. *)
Definition returns_to (fr : Frame) (st : list Value.t)
    (r : outcome VmError.t Frame * (GasMeter * S)) : outcome VmError.t Frame * (GasMeter * S) :=
  match r with
  | (Ok fr0, ω) => (Ok (Vm.set_stack fr (stack fr0 ++ st)), ω)
  | (Err e, ω) => (Err e, ω)
  | (Panic msg, ω) => (Panic msg, ω)
  | (NoFuel, ω) => (NoFuel, ω)
  end.

Lemma exec_call_frame_stack rec name vs fr st ω :
  match callee_arity vm ctx name with Some n => n = length vs | None => True end →
  stack fr = reverse vs ++ st →
  exec_call vm rec ctx addr depth name fr ω =
  returns_to fr st (exec_call vm rec ctx addr depth name (operands (reverse vs)) ω) ∧
  ∀ fr0 ω', exec_call vm rec ctx addr depth name (operands (reverse vs)) ω = (Ok fr0, ω') →
    ∃ v, stack fr0 = [v].
Proof.
  intros Ha Hst. unfold callee_arity in Ha. unfold exec_call, mbind, VmM_bind, lift, mret, VmM_ret in *.
  assert (∀ n, n = length vs → pop_args n fr = Ok (vs, Vm.set_stack fr st) ∧
    pop_args n (operands (reverse vs)) = Ok (vs, operands [])) as Hpop.
  { intros n ->. split; [by apply pop_args_exact|]. apply pop_args_exact. simpl. by rewrite app_nil_r. }
  destruct (parse_module_ref name) as [[da fname]|].
  - destruct (vm_deps vm !! da) as [m|]; [|done]. simpl in *.
    destruct (get_function m fname) as [f|]; [|done]. simpl in *.
    destruct (Hpop _ Ha) as [Hp1 Hp2]. destruct (guard_err _ _) as [[]|e|msg|]; try done. rewrite Hp1, Hp2.
    destruct (enter _ _ _ _ _ _ _ _) as [[ret|e|msg|] ω']; try done.
    split; [done|]. intros fr0 ω'' ?. simplify_eq. by eexists.
  - destruct (get_function ctx name) as [f|].
    + destruct (Hpop _ Ha) as [Hp1 Hp2]. rewrite Hp1, Hp2.
      destruct (enter _ _ _ _ _ _ _ _) as [[ret|e|msg|] ω']; try done.
      split; [done|]. intros fr0 ω'' ?. simplify_eq. by eexists.
    + destruct (vm_natives vm !! name) as [nat|]; [|done]. simpl in *.
      destruct (Hpop _ Ha) as [Hp1 Hp2].
      destruct (vm_charge _ _) as [[[]|e|msg|] ω']; try done. rewrite Hp1, Hp2.
      destruct (run_native _ _ _) as [[[v|c m|e]|e|msg|] ω'']; try done.
      destruct (rust_assert _ _) as [[]|e|msg|]; try done.
      split; [done|]. intros fr0 ω3 ?. simplify_eq. by eexists.
Qed.

Lemma sim_call fr name name' vs st :
  code fr !! pc fr = Some (Instruction.Call name) →
  match callee_arity vm ctx name with Some n => n = length vs | None => True end →
  stack fr = reverse vs ++ st →
  sim 1 fr (tick vm (Instruction.Call name') ;; eval_call vm ctx addr depth F name vs)
    (λ v fr', fr' = Vm.set_stack (advance fr) (v :: st)).
Proof.
  intros Hc Ha Hst ω.
  assert (∀ fuel, R (1 + fuel) fr ω = (tick vm (Instruction.Call name') ;;
    fr' ← exec_call vm (run vm fuel) ctx addr depth name (advance fr); R fuel fr') ω) as Hrun
    by (intros; simpl; by rewrite Hc).
  unfold goes, eval_call. unfold mbind, VmM_bind in *.
  destruct (tick _ _ _) as [[[]|e|msg|] ω1].
  - pose proof (exec_call_frame_stack (run vm F) name vs (advance fr) st ω1 Ha Hst) as [_ Hv].
    destruct (exec_call vm (run vm F) _ _ _ _ _ _) as [r ω2] eqn:E.
    assert (r ≠ NoFuel → ∀ fuel, F ≤ fuel →
      exec_call vm (run vm fuel) ctx addr depth name (advance fr) ω1 =
      returns_to (advance fr) st (r, ω2)) as Heq.
    { intros Hr fuel Hf.
      pose proof (exec_call_frame_stack (run vm fuel) name vs (advance fr) st ω1 Ha Hst) as [-> _].
      destruct (exec_call_fuel_le vm (run vm F) (run vm fuel) ctx addr depth name
        (operands (reverse vs))) with ω1 as [Hn|<-]; [by intros; apply run_fuel_le|..].
      - by rewrite E in Hn.
      - by rewrite E. }
    destruct r as [fr0|e|msg|]; [..|done];
      [destruct (Hv _ _ eq_refl) as [v Hst0]; unfold lift, peek; rewrite Hst0; simpl;
        exists 1, (Vm.set_stack (advance fr) (v :: st)); split_and!; [done..|]|exists 1..];
      try (split; [done|]); intros fuel Hf; rewrite (Hrun fuel), Heq by done; simpl.
    + by rewrite Hst0.
    + by exists e.
    + done.
  - exists 1. split; [done|]. intros fuel _. exists e. by rewrite (Hrun fuel).
  - exists 1. split; [done|]. intros fuel _. by rewrite (Hrun fuel).
  - done.
Qed.

(** Composition with one instruction. *)
Lemma sim_ext {A} n fr (m m' : VmM S A) Q : (∀ ω, m' ω = m ω) → sim n fr m Q → sim n fr m' Q.
Proof. intros Hm Hs ω. rewrite Hm. apply Hs. Qed.
Lemma vm_bind_assoc {A B C} (m : VmM S A) (f : A → VmM S B) (g : B → VmM S C) ω :
  (m ≫= λ a, f a ≫= g) ω = ((m ≫= f) ≫= g) ω.
Proof. unfold mbind, VmM_bind. by destruct (m ω) as [[] ?]. Qed.

Lemma sim_instr_bind {A B} n fr i i' (m : outcome VmError.t A) (k : A → VmM S B) Q Q' :
  code fr !! pc fr = Some i → plain i = true →
  cost_of (vm_gas_schedule vm) i' = cost_of (vm_gas_schedule vm) i →
  instr_sim m (exec_instr vm ctx addr i (advance fr)) Q →
  (∀ a fr', Q a fr' → sim n fr' (k a) Q') →
  sim (1 + n) fr (tick vm i' ;; lift m ≫= k) Q'.
Proof.
  intros Hc Hi Hcost Hm Hk. eapply sim_ext; [intros ω; apply (vm_bind_assoc (tick vm i') (λ _, lift m) k)|].
  eapply sim_bind; [by eapply sim_instr|done].
Qed.
Lemma sim_tick {B} n fr fr' i i' (m : VmM S B) Q :
  code fr !! pc fr = Some i → plain i = true →
  cost_of (vm_gas_schedule vm) i' = cost_of (vm_gas_schedule vm) i →
  exec_instr vm ctx addr i (advance fr) = Ok fr' → sim n fr' m Q →
  sim (1 + n) fr (tick vm i' ;; m) Q.
Proof.
  intros Hc Hi Hcost He Hm.
  apply (sim_ext _ _ (tick vm i' ;; lift (Ok ()) ≫= λ _, m)); [done|].
  eapply (sim_instr_bind n fr i i' (Ok ()) (λ _, m) (λ _ fr0, fr0 = fr')); [done..| |].
  - by exists fr'.
  - by intros _ ? ->.
Qed.

(** ** Operators *)
Lemma binop_sim op a b ls stk p c :
  instr_sim (eval_binop op a b) (exec_instr vm ctx addr (binop_instr op) (mkFrame ls (b :: a :: stk) p c))
    (λ v fr', fr' = mkFrame ls (v :: stk) p c).
Proof.
  destruct op; simpl; unfold exec_arith, exec_div, exec_eq, exec_cmp, exec_logic; simpl.
  all: repeat match goal with
  | |- context [arith_op ?l ?r ?f] => destruct (arith_op l r f) eqn:?
  | |- context [cmp_values ?l ?r] => destruct (cmp_values l r) eqn:?
  | |- context [bool_decide (Value.as_u64 ?r = ?x)] => destruct (bool_decide (Value.as_u64 r = x))
  | |- context [Value.is_linear ?l || Value.is_linear ?r] =>
      destruct (Value.is_linear l || Value.is_linear r)
  | |- context [linear_type_name ?l ?r] => destruct (linear_type_name l r)
  | |- context [ok_or ?o ?e] => destruct (ok_or o e)
  end; simpl; try (by eauto); same_error.
Qed.
Lemma not_sim v ls stk p c :
  instr_sim (eval_not v) (exec_instr vm ctx addr Instruction.Not (mkFrame ls (v :: stk) p c))
    (λ v fr', fr' = mkFrame ls (v :: stk) p c).
Proof. simpl. unfold exec_not, eval_not. simpl. destruct (ok_or _ _); simpl; eauto. Qed.
Lemma get_field_sim f v ls stk p c :
  instr_sim (get_field f v) (exec_instr vm ctx addr (Instruction.GetField f) (mkFrame ls (v :: stk) p c))
    (λ v fr', fr' = mkFrame ls (v :: stk) p c).
Proof.
  simpl. unfold exec_get_field, get_field. destruct v; simpl; try same_error.
  destruct (Value.find_field _ _); simpl; [by eauto|same_error].
Qed.
Lemma new_struct_sim name names vs ls stk p c :
  length vs = length names →
  instr_sim (struct_type vm ctx addr name)
    (exec_instr vm ctx addr (Instruction.NewStruct name names) (mkFrame ls (reverse vs ++ stk) p c))
    (λ tn fr', fr' = mkFrame ls (Value.Struct tn (zip names vs) :: stk) p c).
Proof.
  intros Hl. simpl. unfold exec_new_struct, struct_type. rewrite <-Hl.
  rewrite (pop_args_exact vs stk) by done.
  destruct (parse_module_ref name) as [[da sn]|]; destruct (ok_or _ _); simpl; eauto.
Qed.
Lemma make_tuple_sim vs ls stk p c :
  exec_instr vm ctx addr (Instruction.MakeTuple (length vs)) (mkFrame ls (reverse vs ++ stk) p c)
  = Ok (mkFrame ls (Value.Tuple vs :: stk) p c).
Proof. simpl. unfold exec_make_tuple. by rewrite (pop_args_exact vs stk). Qed.

Lemma steps_sim path v ls stk p c :
  code_at c p (map Instruction.GetField path) →
  sim (length path) (mkFrame ls (v :: stk) p c) (eval_steps vm path v)
    (λ v' fr', fr' = mkFrame ls (v' :: stk) (p + length path) c).
Proof.
  revert v p. induction path as [|f path IH]; intros v p Hc; simpl.
  { apply sim_ret. by rewrite Nat.add_0_r. }
  simpl in Hc. apply code_at_cons in Hc as [Hi Hc].
  eapply (sim_instr_bind (length path)); [exact Hi|done|done|apply get_field_sim|].
  intros v' fr' ->. eapply sim_mono; [by apply IH|done|]. intros v'' fr'' ->. simpl. f_equal. lia.
Qed.

(** ** Variables *)

(** The machine after an expression: its value on the stack. *)
Definition after (σs : Slots) (n : nat) (stk : list Value.t) (p : nat) (c : list Instruction.t)
    (r : Value.t * Env) (fr : Frame) : Prop :=
  ∃ ls, env_ok σs n (snd r) ls ∧ fr = mkFrame ls (fst r :: stk) p c.

Lemma use_var_sim σs n env ls x s d stk p c :
  env_ok σs n env ls → distinct σs → resolve σs x = Some (s, d) → s < n →
  instr_sim (use_var x env) (exec_instr vm ctx addr (Instruction.Load s) (mkFrame ls stk p c))
    (after σs n stk p c).
Proof.
  intros Hok Hd Hr Hn. pose proof Hr as (cell & Hrv & Hls & _)%(resolve_read _ _ _ _ _ _ (env_match _ _ _ _ Hok)).
  simpl. unfold use_var, exec_load. simpl. rewrite Hrv, Hls. destruct cell as [v|]; [|same_error].
  simpl. destruct (Value.is_linear v); simpl.
  - eexists. split; [done|]. exists (<[s := None]> ls). split; [|done]. by eapply env_write.
  - eexists. split; [done|]. by exists ls.
Qed.

Lemma load_field_sim σs n env ls x s d path stk p c :
  env_ok σs n env ls → resolve σs x = Some (s, d) →
  instr_sim (root ← ok_or (mjoin (read_var x env)) (moved_slot 0); read_field_path 0 root path)
    (exec_instr vm ctx addr (Instruction.LoadField s path) (mkFrame ls stk p c))
    (λ v fr, fr = mkFrame ls (v :: stk) p c).
Proof.
  intros Hok Hr. eapply resolve_read in Hr as (cell & Hrv & Hls & _); [|by eapply env_match].
  simpl. unfold exec_load_field. simpl. rewrite Hrv, Hls. destruct cell as [v|]; [|same_error].
  simpl. destruct (read_field_path 0 v path); simpl; by eauto.
Qed.

(** ** Expressions *)
Context (config : CompilerConfig) (structs : list StructDef).
Context (dep_addresses : gmap string Address) (dep_modules : gmap Address VmModule).
Context (local_fn_return_types : gmap string (option Ty.t)).
Notation compile_path :=
  (compile_path config structs dep_addresses dep_modules local_fn_return_types).
Notation eval_path := (eval_path vm structs dep_addresses ctx addr depth F).
Notation arity_ok := (arity_ok vm dep_addresses ctx).
Notation effect_ok := (effect_ok config).

(** A part of the generator against a part of the interpreter. *)
Definition expr_sim (f : Codegen → CResult Codegen) (ev : Env → VmM S (Value.t * Env)) : Prop :=
  ∀ st st' new σs env ls stk p c,
    cg_ok config st → slots_ok σs st → f st = Ok st' → cg_code st' = cg_code st ++ new →
    code_at c p new → env_ok σs (cg_next_slot st) env ls →
    sim (length new) (mkFrame ls stk p c) (ev env)
      (after σs (cg_next_slot st) stk (p + length new) c).

Lemma slots_effect σs st st' : expr_effect st st' → slots_ok σs st → slots_ok σs st'.
Proof.
  intros [L N D _ _] [Hl Hd Hn Hdis]. split; [|by rewrite D|by rewrite N|done].
  intros x. by rewrite L.
Qed.
Lemma extends_split st st1 st2 n1 new :
  cg_code st1 = cg_code st ++ n1 → extends st1 st2 → cg_code st2 = cg_code st ++ new →
  ∃ n2, cg_code st2 = cg_code st1 ++ n2 ∧ new = n1 ++ n2.
Proof.
  intros H1 (n2 & H2 & _) H3. exists n2. split; [done|].
  rewrite H2, H1, <-app_assoc in H3. by apply app_inv_head in H3.
Qed.

(** Several expressions. *)
Lemma seq_sim {A} (f : A → Codegen → CResult Codegen) (ev : A → Env → VmM S (Value.t * Env)) l :
  Forall (λ a, effect_ok (f a) ∧ expr_sim (f a) (ev a)) l →
  ∀ st st' new σs env ls stk p c,
    cg_ok config st → slots_ok σs st →
    (fix go l (st : Codegen) : CResult Codegen := match l with
     | [] => Ok st
     | a :: l => st ← f a st; go l st
     end) l st = Ok st' →
    cg_code st' = cg_code st ++ new → code_at c p new → env_ok σs (cg_next_slot st) env ls →
    sim (length new) (mkFrame ls stk p c) (eval_seq (map ev l) env)
      (λ r fr, length (fst r) = length l ∧ ∃ ls', env_ok σs (cg_next_slot st) (snd r) ls' ∧
        fr = mkFrame ls' (reverse (fst r) ++ stk) (p + length new) c).
Proof.
  induction 1 as [|a l [Heff Ha] Hl IH]; intros st st' new σs env ls stk p c Hok Hs Hc Hnew Hat Henv.
  { injection Hc as <-. rewrite <-(app_nil_r (cg_code st)) in Hnew at 1.
    apply app_inv_head in Hnew as <-. apply sim_ret. split; [done|]. exists ls. by rewrite Nat.add_0_r. }
  apply bind_Ok in Hc as (st1 & H1 & Hc). pose proof (Heff _ _ Hok H1) as He1.
  pose proof (expr_effect_ok _ _ _ He1 Hok) as Hok1.
  assert (extends st1 st') as Hext.
  { apply (ee_code _ _ (compile_list_effect config f l st1 st'
      ltac:(eapply list.Forall_impl; [exact Hl|]; by intros ? []) Hok1 Hc)). }
  destruct (ee_code _ _ He1) as (n1 & C1 & _).
  destruct (extends_split _ _ _ _ _ C1 Hext Hnew) as (n2 & C2 & ->).
  apply code_at_app in Hat as [Hat1 Hat2]. rewrite length_app. simpl.
  eapply sim_bind; [by eapply (Ha st st1)|]. intros [v env1] fr1 (ls1 & Henv1 & ->). simpl in *.
  rewrite <-(Nat.add_0_r (length n2)). eapply sim_bind.
  { rewrite <-(ee_next _ _ He1) in Henv1. eapply (IH st1); [done|by eapply slots_effect|done..]. }
  intros [vs env2] fr2 (Hlen & ls2 & Henv2 & ->). simpl in *. apply sim_ret. simpl.
  split; [by rewrite Hlen|]. exists ls2. rewrite <-(ee_next _ _ He1). split; [done|].
  rewrite reverse_cons, <-app_assoc. simpl. f_equal. lia.
Qed.

Lemma field_evals_map (ev : Expr.t → Env → VmM S (Value.t * Env)) fields names es :
  Forall2 (λ n e, last_entry fields n = Some e) names es →
  field_evals (map (λ f, (fst f, ev (snd f))) fields) names = map ev es.
Proof.
  induction 1 as [|n e names es Hn _ IH]; [done|]. unfold field_evals in *. csimpl.
  rewrite last_entry_map, Hn. csimpl. by rewrite IH.
Qed.

(** Field accesses on the value of an expression. *)
Lemma get_fields_code st path :
  cg_code (foldl (λ st step, emit (Instruction.GetField step) st) st path) =
  cg_code st ++ map Instruction.GetField path.
Proof.
  revert st. induction path as [|f path IH]; intros st; simpl; [by rewrite app_nil_r|].
  rewrite IH. simpl. by rewrite <-app_assoc.
Qed.
Lemma path_tail_sim (m : VmM S (Value.t * Env)) path n σs k fr stk p c :
  sim n fr m (after σs k stk p c) → code_at c p (map Instruction.GetField path) →
  sim (n + length path) fr ('(v, env) ← m; v ← eval_steps vm path v; mret (v, env))
    (after σs k stk (p + length path) c).
Proof.
  intros Hm Hc. eapply sim_bind; [done|]. intros [v env] fr' (ls & Henv & ->). simpl.
  rewrite <-(Nat.add_0_r (length path)) at 1. eapply sim_bind; [by apply steps_sim|].
  intros v' fr' ->. apply sim_ret. by exists ls.
Qed.

(** An expression that is no variable and no field access is met with an empty
    path first. *)
Definition is_root (e : Expr.t) : bool :=
  match e with Expr.FieldAccess _ _ | Expr.Ident _ => false | _ => true end.
Lemma compile_root_inv e path st st' :
  is_root e = true → compile_path e path st = Ok st' →
  ∃ st1, compile_path e [] st = Ok st1 ∧
    st' = foldl (λ st step, emit (Instruction.GetField step) st) st1 path.
Proof.
  intros He Hc. destruct e; try done; cbn [Codegen.compile_path path_local] in *;
    apply bind_Ok in Hc as ([] & _ & Hc); apply bind_Ok in Hc as (st1 & H1 & Hc);
    injection Hc as <-; exists st1; (split; [|done]); cbn; cbn in H1; by rewrite H1.
Qed.
Lemma root_steps (m : VmM S (Value.t * Env)) path ω :
  ('(v, env) ← m; v ← eval_steps vm path v; mret (v, env)) ω =
  ('(v, env) ← ('(v, env) ← m; v ← eval_steps vm [] v; mret (v, env));
   v ← eval_steps vm path v; mret (v, env)) ω.
Proof. unfold mbind, VmM_bind. by destruct (m ω) as [[[]| | |] ?]. Qed.
Lemma eval_root e path env ω :
  is_root e = true →
  eval_path e path env ω = ('(v, env) ← eval_path e [] env; v ← eval_steps vm path v; mret (v, env)) ω.
Proof. intros He. destruct e; try done; apply root_steps. Qed.
Lemma path_of_root e :
  is_root e = true → expr_sim (compile_path e []) (eval_path e []) →
  ∀ path, expr_sim (compile_path e path) (eval_path e path).
Proof.
  intros He Hsim path st st' new σs env ls stk p c Hok Hs Hc Hnew Hat Henv.
  apply compile_root_inv in Hc as (st1 & H1 & ->); [|done].
  destruct (ee_code _ _ (compile_path_effect _ _ _ _ _ _ _ _ _ Hok H1)) as (n1 & C1 & _).
  rewrite get_fields_code, C1, <-app_assoc in Hnew. apply app_inv_head in Hnew as <-.
  apply code_at_app in Hat as [Hat1 Hat2]. rewrite length_app, length_map, Nat.add_assoc.
  eapply sim_ext; [intros ω; by apply eval_root|]. apply path_tail_sim; [|done].
  by eapply (Hsim st st1).
Qed.
Lemma path_nil_sim (m : VmM S (Value.t * Env)) n σs k fr stk p c :
  sim n fr m (after σs k stk p c) →
  sim n fr ('(v, env) ← m; v ← eval_steps vm [] v; mret (v, env)) (after σs k stk p c).
Proof.
  intros Hm. rewrite <-(Nat.add_0_r n), <-(Nat.add_0_r p). by apply path_tail_sim.
Qed.

(** One instruction that pushes a value. *)
Lemma push_sim i v σs n env ls stk p c :
  code_at c p [i] → plain i = true → env_ok σs n env ls →
  exec_instr vm ctx addr i (mkFrame ls stk (p + 1) c) = Ok (mkFrame ls (v :: stk) (p + 1) c) →
  sim 1 (mkFrame ls stk p c) (tick vm i ;; mret (v, env)) (after σs n stk (p + 1) c).
Proof.
  intros [Hi _]%code_at_cons Hp Henv He.
  eapply (sim_tick 0); [exact Hi|done|done|exact He|]. apply sim_ret. by exists ls.
Qed.

Lemma emit_code_inv st i new : cg_code (emit i st) = cg_code st ++ new → new = [i].
Proof. by intros ?%app_inv_head. Qed.
Lemma local_slot_resolve σs st x s :
  slots_ok σs st → local_slot st x = Some s → ∃ d, resolve σs x = Some (s, d) ∧ s < cg_next_slot st.
Proof.
  intros Hs Hl. unfold local_slot in Hl. rewrite (sl_locals _ _ Hs) in Hl.
  destruct (resolve σs x) as [[s' d]|] eqn:Hr; simplify_eq/=. exists d. split; [done|].
  eapply sl_next; [done|]. by eapply resolve_depth.
Qed.

Lemma ident_sim x path : expr_sim (compile_path (Expr.Ident x) path) (eval_path (Expr.Ident x) path).
Proof.
  intros st st' new σs env ls stk p c Hok Hs Hc Hnew Hat Henv. cbn [Codegen.compile_path] in Hc.
  destruct path as [|f path].
  - cbn in Hc. apply bind_Ok in Hc as (st1 & H1 & Hc). injection Hc as ->.
    unfold compile_ident in H1. apply bind_Ok in H1 as (slot & Hl%ok_or_Ok & H1).
    apply bind_Ok in H1 as ([] & _ & H1). injection H1 as <-.
    assert (new = [Instruction.Load slot]) as ->
      by (destruct (holds_struct st slot); by apply app_inv_head in Hnew).
    destruct (local_slot_resolve _ _ _ _ Hs Hl) as (d & Hr & Hlt).
    apply code_at_cons in Hat as [Hi _]. apply path_nil_sim. eapply sim_instr; [exact Hi|done..|].
    eapply use_var_sim; [done|by eapply sl_distinct|done..].
  - cbn [path_local] in Hc. destruct (local_slot st x) as [slot|] eqn:Hl.
    + unfold compile_load_field in Hc. apply bind_Ok in Hc as ([] & _ & Hc).
      apply bind_Ok in Hc as ([] & _ & Hc). injection Hc as <-.
      apply emit_code_inv in Hnew as ->. apply code_at_cons in Hat as [Hi _].
      destruct (local_slot_resolve _ _ _ _ Hs Hl) as (d & Hr & Hlt).
      apply (sim_ext _ _ (tick vm (Instruction.LoadField 0 (f :: path)) ;;
        v ← lift (root ← ok_or (mjoin (read_var x env)) (moved_slot 0);
                  read_field_path 0 root (f :: path)); mret (v, env))).
      { intros ω. cbn [SourceSemantics.eval_path]. unfold mbind, VmM_bind, lift.
        destruct (tick _ _ _) as [[[]| | |] ?]; try done. by destruct (ok_or _ _). }
      eapply (sim_instr_bind 0); [exact Hi|done|done|by eapply load_field_sim|].
      intros v fr ->. apply sim_ret. by exists ls.
    + apply bind_Ok in Hc as ([] & _ & Hc). apply bind_Ok in Hc as (st1 & H1 & _).
      unfold compile_ident in H1. by rewrite Hl in H1.
Qed.

(** What a part of the generator leaves. *)
Lemma part_step f st st1 σs :
  cg_ok config st → slots_ok σs st → effect_ok f → f st = Ok st1 →
  ∃ n1, cg_code st1 = cg_code st ++ n1 ∧ cg_ok config st1 ∧ slots_ok σs st1 ∧
    cg_next_slot st1 = cg_next_slot st.
Proof.
  intros Hok Hs Hf H1. pose proof (Hf _ _ Hok H1) as He.
  destruct (ee_code _ _ He) as (n1 & C1 & _).
  exists n1. split_and!; [done|by eapply expr_effect_ok|by eapply slots_effect|by apply ee_next].
Qed.
Lemma emit_after st st1 n1 i new :
  cg_code st1 = cg_code st ++ n1 → cg_code (emit i st1) = cg_code st ++ new → new = n1 ++ [i].
Proof. intros C1 Hnew. cbn in Hnew. rewrite C1, <-app_assoc in Hnew. by apply app_inv_head in Hnew. Qed.

Lemma binop_expr_sim l op r :
  expr_sim (compile_path l []) (eval_path l []) → expr_sim (compile_path r []) (eval_path r []) →
  expr_sim (compile_path (Expr.BinOp l op r) []) (eval_path (Expr.BinOp l op r) []).
Proof.
  intros Hl Hr st st' new σs env ls stk p c Hok Hs Hc Hnew Hat Henv. cbn in Hc.
  apply bind_Ok in Hc as (st0 & Hc & H0). injection H0 as <-.
  apply bind_Ok in Hc as (st1 & H1 & Hc). apply bind_Ok in Hc as (st2 & H2 & Hc). injection Hc as <-.
  destruct (part_step _ _ _ σs Hok Hs (compile_path_effect _ _ _ _ _ _ _) H1)
    as (n1 & C1 & Hok1 & Hs1 & N1).
  destruct (part_step _ _ _ σs Hok1 Hs1 (compile_path_effect _ _ _ _ _ _ _) H2)
    as (n2 & C2 & Hok2 & Hs2 & N2).
  rewrite C1, <-app_assoc in C2. apply (emit_after st) with (n1 := n1 ++ n2) in Hnew as ->; [|done].
  rewrite <-app_assoc in Hat. apply code_at_app in Hat as [Hat1 Hat]. apply code_at_app in Hat as [Hat2 Hat].
  apply code_at_cons in Hat as [Hi _]. apply path_nil_sim.
  rewrite !length_app. rewrite <-Nat.add_assoc.
  eapply sim_bind; [by eapply (Hl st st1)|]. intros [a env1] fr1 (ls1 & Henv1 & ->). simpl in Henv1 |- *.
  eapply sim_bind.
  { rewrite <-N1 in Henv1. eapply (Hr st1 st2); [done..| |done|done].
    rewrite C1, <-app_assoc. done. }
  intros [b env2] fr2 (ls2 & Henv2 & ->). simpl in Henv2 |- *.
  eapply (sim_instr_bind 0); [exact Hi|by destruct op|done|apply binop_sim|].
  intros v fr ->. apply sim_ret. exists ls2. rewrite <-N1. split; [done|]. simpl. f_equal. lia.
Qed.

Lemma not_expr_sim e :
  expr_sim (compile_path e []) (eval_path e []) →
  expr_sim (compile_path (Expr.UnaryOp UnaryOp.Not e) []) (eval_path (Expr.UnaryOp UnaryOp.Not e) []).
Proof.
  intros He st st' new σs env ls stk p c Hok Hs Hc Hnew Hat Henv. cbn in Hc.
  apply bind_Ok in Hc as (st0 & Hc & H0). injection H0 as <-.
  apply bind_Ok in Hc as (st1 & H1 & Hc). injection Hc as <-.
  destruct (part_step _ _ _ σs Hok Hs (compile_path_effect _ _ _ _ _ _ _) H1)
    as (n1 & C1 & Hok1 & Hs1 & N1).
  apply (emit_after st) with (n1 := n1) in Hnew as ->; [|done].
  apply code_at_app in Hat as [Hat1 Hat]. apply code_at_cons in Hat as [Hi _]. apply path_nil_sim.
  rewrite length_app. eapply sim_bind; [by eapply (He st st1)|].
  intros [a env1] fr1 (ls1 & Henv1 & ->). simpl in Henv1 |- *.
  eapply (sim_instr_bind 0); [exact Hi|done|done|apply not_sim|].
  intros v fr ->. apply sim_ret. exists ls1. split; [done|]. simpl. f_equal. lia.
Qed.

(** A list of subexpressions, then one instruction. *)
Notation compile_all := (fix go l (st : Codegen) : CResult Codegen :=
  match l with [] => Ok st | a :: l => st ← compile_path a [] st; go l st end).
Lemma all_sim es st st' σs env ls stk p c :
  Forall (λ e, expr_sim (compile_path e []) (eval_path e [])) es →
  cg_ok config st → slots_ok σs st → compile_all es st = Ok st' →
  ∃ n1, cg_code st' = cg_code st ++ n1 ∧
    (code_at c p n1 → env_ok σs (cg_next_slot st) env ls →
     sim (length n1) (mkFrame ls stk p c) (eval_seq (map (λ a, eval_path a []) es) env)
       (λ r fr, length (fst r) = length es ∧ ∃ ls', env_ok σs (cg_next_slot st) (snd r) ls' ∧
         fr = mkFrame ls' (reverse (fst r) ++ stk) (p + length n1) c)).
Proof.
  intros Hes Hok Hs Hc.
  destruct (part_step (compile_all es) st st' σs Hok Hs) as (n1 & C1 & _); [|done|].
  { intros s s' Hs1 Hc1. eapply (compile_list_effect config (λ a, compile_path a [])); [|done|exact Hc1].
    apply list.Forall_forall. intros e _. apply compile_path_effect. }
  exists n1. split; [done|]. intros Hat Henv.
  eapply (seq_sim (λ a, compile_path a []) (λ a, eval_path a []) es); [|done..].
  eapply list.Forall_impl; [exact Hes|]. intros e He. split; [apply compile_path_effect|done].
Qed.

Lemma tuple_expr_sim items :
  Forall (λ e, expr_sim (compile_path e []) (eval_path e [])) items →
  expr_sim (compile_path (Expr.Tuple items) []) (eval_path (Expr.Tuple items) []).
Proof.
  intros Hit st st' new σs env ls stk p c Hok Hs Hc Hnew Hat Henv. cbn in Hc.
  apply bind_Ok in Hc as (st0 & Hc & H0). injection H0 as <-.
  apply bind_Ok in Hc as ([] & _ & Hc). apply bind_Ok in Hc as (st1 & H1 & Hc). injection Hc as <-.
  destruct (all_sim items st st1 σs env ls stk p c Hit Hok Hs H1) as (n1 & C1 & Hsim).
  apply (emit_after st) with (n1 := n1) in Hnew as ->; [|done].
  apply code_at_app in Hat as [Hat1 Hat]. apply code_at_cons in Hat as [Hi _]. apply path_nil_sim.
  rewrite length_app. eapply sim_bind; [by apply Hsim|].
  intros [vs env1] fr1 (Hlen & ls1 & Henv1 & ->). simpl in Hlen, Henv1 |- *. rewrite <-Hlen in Hi |- *.
  eapply (sim_tick 0); [exact Hi|done|done|apply make_tuple_sim|].
  apply sim_ret. exists ls1. split; [done|]. simpl. f_equal. lia.
Qed.

Lemma call_expr_sim name args :
  Forall (λ e, expr_sim (compile_path e []) (eval_path e [])) args →
  match callee_arity vm ctx (resolved dep_addresses name) with
  | Some n => Nat.eqb n (length args) | None => true end = true →
  expr_sim (compile_path (Expr.Call name args) []) (eval_path (Expr.Call name args) []).
Proof.
  intros Hargs Har st st' new σs env ls stk p c Hok Hs Hc Hnew Hat Henv. cbn in Hc.
  apply bind_Ok in Hc as (st0 & Hc & H0). injection H0 as <-.
  apply bind_Ok in Hc as ([] & _ & Hc). apply bind_Ok in Hc as (st1 & H1 & Hc).
  apply bind_Ok in Hc as (tn & Ht & Hc). injection Hc as <-.
  destruct (all_sim args st st1 σs env ls stk p c Hargs Hok Hs H1) as (n1 & C1 & Hsim).
  apply (emit_after st) with (n1 := n1) in Hnew as ->; [|done].
  apply code_at_app in Hat as [Hat1 Hat]. apply code_at_cons in Hat as [Hi _]. apply path_nil_sim.
  rewrite length_app. eapply sim_bind; [by apply Hsim|].
  intros [vs env1] fr1 (Hlen & ls1 & Henv1 & ->). simpl in Hlen, Henv1 |- *.
  assert (resolved dep_addresses name = tn) as Hres by (unfold resolved; by rewrite Ht).
  rewrite Hres in Har |- *.
  eapply sim_ext; [intros ω; apply (vm_bind_assoc (tick vm (Instruction.Call name))
    (λ _, eval_call vm ctx addr depth F tn vs) (λ v, mret (v, env1)))|].
  eapply (sim_bind 1 0).
  - eapply (sim_call _ tn name vs stk); [exact Hi| |done].
    destruct (callee_arity vm ctx tn); [|done]. apply Nat.eqb_eq in Har. congruence.
  - intros v fr ->. apply sim_ret. exists ls1. split; [done|]. simpl. unfold Vm.set_stack. simpl.
    f_equal. lia.
Qed.

Lemma struct_expr_sim name fields :
  Forall (λ f, expr_sim (compile_path (snd f) []) (eval_path (snd f) [])) fields →
  expr_sim (compile_path (Expr.StructLit name fields) []) (eval_path (Expr.StructLit name fields) []).
Proof.
  intros Hf st st' new σs env ls stk p c Hok Hs Hc Hnew Hat Henv. cbn in Hc.
  apply bind_Ok in Hc as (st0 & Hc & H0). injection H0 as <-.
  apply bind_Ok in Hc as ([] & _ & Hc). apply bind_Ok in Hc as (def & Hdef%ok_or_Ok & Hc).
  apply bind_Ok in Hc as (st1 & H1 & Hc). apply bind_Ok in Hc as (tn & Ht & Hc). injection Hc as <-.
  apply (compile_fields_seq (λ e, compile_path e []) name fields) in H1 as (es & Hes & H1); [|done].
  assert (Forall (λ e, expr_sim (compile_path e []) (eval_path e [])) es) as Hsims.
  { apply list.Forall_forall. intros e (i & He)%list_elem_of_lookup.
    destruct (Forall2_lookup_r _ _ _ _ _ Hes He) as (n & _ & Hn).
    apply collect_map_elem in Hn. rewrite list.Forall_forall in Hf. by apply (Hf _ Hn). }
  destruct (all_sim es st st1 σs env ls stk p c Hsims Hok Hs H1) as (n1 & C1 & Hsim).
  apply (emit_after st) with (n1 := n1) in Hnew as ->; [|done].
  apply code_at_app in Hat as [Hat1 Hat]. apply code_at_cons in Hat as [Hi _].
  cbn [SourceSemantics.eval_path]. apply path_nil_sim. rewrite Hdef, (field_evals_map (λ e, eval_path e []) _ _ _ Hes).
  rewrite length_app. eapply sim_bind; [by apply Hsim|].
  intros [vs env1] fr1 (Hlen & ls1 & Henv1 & ->). simpl in Hlen, Henv1 |- *.
  assert (resolved dep_addresses name = tn) as -> by (unfold resolved; by rewrite Ht).
  eapply (sim_instr_bind 0); [exact Hi|done|done|apply new_struct_sim|].
  - rewrite Hlen. symmetry. by eapply Forall2_length.
  - intros ty fr ->. apply sim_ret. exists ls1. split; [done|]. simpl. f_equal. lia.
Qed.

Lemma path_sim e path :
  arity_ok e = true → expr_sim (compile_path e path) (eval_path e path).
Proof.
  revert path. induction e as [b|n|a|s|x|l op r IHl IHr|e f IH|n fs IH|n args IH|items IH|[] e IH]
    using Expr.ind'; intros path Ha; cbn [SourceSemantics.arity_ok] in Ha;
    [..|apply ident_sim| |by apply (IH (f :: path))| | | |]; apply path_of_root; try done.
  1-4: intros st st' new σs env ls stk p c Hok Hs Hc Hnew Hat Henv; cbn in Hc; injection Hc as <-;
    apply emit_code_inv in Hnew as ->; apply path_nil_sim; by eapply push_sim.
  - apply andb_true_iff in Ha as [H1 H2]. apply binop_expr_sim; auto.
  - apply struct_expr_sim. eapply Forall_forallb; [|exact Ha].
    eapply list.Forall_impl; [exact IH|]. auto.
  - apply andb_true_iff in Ha as [H1 H2]. apply call_expr_sim; [|done].
    eapply Forall_forallb; [|exact H1]. eapply list.Forall_impl; [exact IH|]. auto.
  - apply tuple_expr_sim. eapply Forall_forallb; [|exact Ha].
    eapply list.Forall_impl; [exact IH|]. auto.
  - apply not_expr_sim. auto.
Qed.
End sim.

(** * Compiled statements and functions behave like their source

    Continues [CodegenSim.v]: statements, branches with their scopes and
    jumps, and whole functions. *)

(** ** Jumps *)
Lemma jump_over_eq n : (Z.of_nat n < 2 ^ 31)%Z → jump_over n = Z.of_nat n.
Proof. intros Hn. unfold jump_over, as_i32. rewrite Z.mod_small by lia. lia. Qed.
Lemma jump_target_over p n :
  (Z.of_nat n < 2 ^ 31)%Z → jump_target (p + 1) (jump_over n) = Ok (p + n).
Proof.
  intros Hn. unfold jump_target. rewrite jump_over_eq by done.
  destruct (Z.ltb_spec (Z.of_nat (p + 1) - 1 + Z.of_nat n) 0); [lia|]. f_equal. lia.
Qed.

(** ** Scopes *)
Lemma env_mono σs n n' env ls : env_ok σs n env ls → n ≤ n' → env_ok σs n' env ls.
Proof. intros [Hm Hf] Hn. split; [done|]. intros s Hs. apply Hf. lia. Qed.
Lemma env_enter σs n env ls : env_ok σs n env ls → env_ok (∅ :: σs) n (∅ :: env) ls.
Proof. intros [Hm Hf]. split; [|done]. constructor; [|done]. intros x. rewrite !lookup_empty. constructor. Qed.
Lemma env_leave γ σs n env ls : env_ok (γ :: σs) n env ls → env_ok σs n (tail env) ls.
Proof. intros [Hm Hf]. split; [|done]. by inversion Hm. Qed.
Lemma slots_enter σs st : slots_ok σs st → slots_ok (∅ :: σs) (enter_scope st).
Proof.
  intros [Hl Hd Hn Hdis]. split; simpl.
  - intros x. rewrite lookup_empty. apply Hl.
  - lia.
  - intros s [[x Hx]|Hs]%List.Exists_cons; [by rewrite lookup_empty in Hx|]. by apply Hn.
  - split_and!; [by intros ???; rewrite lookup_empty|by intros ??; rewrite lookup_empty|done].
Qed.
Lemma slots_leave σs st st' :
  slots_ok σs st → cg_next_slot st ≤ cg_next_slot st' → cg_scope_depth st' = cg_scope_depth st + 1 →
  slots_ok σs (leave_scope (cg_locals st) st').
Proof.
  intros [Hl Hd Hn Hdis] Hle Hdep. split; simpl; [done|lia| |done]. intros s Hs%Hn. lia.
Qed.

(** ** Unpacking a struct *)
Lemma unpack_fields_operands tn names fm ls stk stk' p c :
  unpack_fields tn names fm (mkFrame ls (stk ++ stk') p c) =
  (λ fr0, mkFrame ls (stack fr0 ++ stk') p c) <$> unpack_fields tn names fm (operands stk).
Proof.
  revert fm stk. induction names as [|n names IH]; intros fm stk; [done|]. simpl.
  destruct (fm !! n) as [v|]; [|done]. simpl. apply (IH (delete n fm) (v :: stk)).
Qed.
Lemma unpack_fields_length tn names fm stk fr :
  unpack_fields tn names fm (operands stk) = Ok fr → length (stack fr) = length names + length stk.
Proof.
  revert fm stk. induction names as [|n names IH]; intros fm stk Hu; simpl in Hu; [by simplify_eq|].
  destruct (fm !! n) as [v|]; [|done]. simpl in Hu. apply (IH (delete n fm) (v :: stk)) in Hu.
  rewrite Hu. simpl. lia.
Qed.

Section sim.
Context {S : Type} `{PrefixHex} (vm : Vm S) (ctx : VmModule) (addr : Address) (depth F : nat).
Context (config : CompilerConfig) (structs : list StructDef).
Context (dep_addresses : gmap string Address) (dep_modules : gmap Address VmModule).
Context (local_fn_return_types : gmap string (option Ty.t)).
Notation compile_expr :=
  (compile_expr config structs dep_addresses dep_modules local_fn_return_types).
Notation compile_stmt :=
  (compile_stmt config structs dep_addresses dep_modules local_fn_return_types).
Notation compile_stmts :=
  (compile_stmts config structs dep_addresses dep_modules local_fn_return_types).
Notation eval_expr := (eval_expr vm structs dep_addresses ctx addr depth F).
Notation eval_stmt := (eval_stmt vm structs dep_addresses ctx addr depth F).
Notation eval_stmts := (eval_stmts vm structs dep_addresses ctx addr depth F).
Notation arity_ok := (arity_ok vm dep_addresses ctx).
Notation arity_ok_stmt := (arity_ok_stmt vm dep_addresses ctx).
Notation sim := (sim vm ctx addr depth F).
Notation cg_ok := (cg_ok config).
Notation stmt_effect := (stmt_effect config).

Lemma unpack_struct_sim tn names v ls stk p c :
  instr_sim (struct_values names v)
    (exec_instr vm ctx addr (Instruction.UnpackStruct tn names) (mkFrame ls (v :: stk) p c))
    (λ vs fr, length vs = length names ∧ fr = mkFrame ls (vs ++ stk) p c).
Proof.
  simpl. unfold struct_values, exec_unpack_struct. destruct v as [| | | | |ty fs|]; simpl; try same_error.
  unfold set_stack. simpl. change (mkFrame [] [] 0 []) with (operands []).
  change stk with ([] ++ stk) at 1. rewrite unpack_fields_operands.
  destruct (unpack_fields ty (reverse names) _ (operands [])) as [fr|e|msg|] eqn:Hu; simpl; try done; [|same_error].
  eexists. split; [done|]. split; [|done].
  apply unpack_fields_length in Hu. rewrite Hu, length_reverse. simpl. lia.
Qed.
Lemma unpack_tuple_sim n v ls stk p c :
  instr_sim (tuple_values n v)
    (exec_instr vm ctx addr (Instruction.UnpackTuple n) (mkFrame ls (v :: stk) p c))
    (λ vs fr, length vs = n ∧ fr = mkFrame ls (vs ++ stk) p c).
Proof.
  simpl. unfold tuple_values, exec_unpack_tuple. destruct v as [| | | | | |vs]; simpl; try same_error.
  case_bool_decide; simpl; [|same_error]. eexists. split; [done|]. done.
Qed.

(** ** Declarations *)
Lemma store_sim γ σs st st' x slot env ls v stk p c :
  slots_ok (γ :: σs) st → alloc_local config x st = Ok (slot, st') →
  env_ok (γ :: σs) (cg_next_slot st) env ls →
  instr_sim (declare x v env)
    (exec_instr vm ctx addr (Instruction.Store slot) (mkFrame ls (v :: stk) p c))
    (λ env' fr, ∃ ls', env_ok (<[x := slot]> γ :: σs) (cg_next_slot st') env' ls' ∧
      fr = mkFrame ls' stk p c).
Proof.
  intros Hs Ha Henv. apply (alloc_slots _ _ _ _ _ _ _ Hs) in Ha as (_ & Hfor & _).
  destruct (env_declare _ _ _ _ _ _ _ _ v Henv (sl_distinct _ _ Hs) (sl_next _ _ Hs) Hfor)
    as (ε & env0 & -> & [[Ho (w & Hw & Hlin)]|(Ho & Henv' & Hnl)]); simpl; rewrite Ho; simpl;
    unfold exec_store; simpl.
  - rewrite (resize_lookup _ _ _ _ Hw), Hlin. same_error.
  - destruct (resize_locals slot ls !! slot) as [[w|]|]; rewrite ?Hnl;
      (eexists; split; [done|]; by eexists).
Qed.

Lemma assign_sim σs n env ls x s d v stk p c :
  env_ok σs n env ls → distinct σs → resolve σs x = Some (s, d) → s < n →
  instr_sim (assign x v env)
    (exec_instr vm ctx addr (Instruction.Store s) (mkFrame ls (v :: stk) p c))
    (λ env' fr, ∃ ls', env_ok σs n env' ls' ∧ fr = mkFrame ls' stk p c).
Proof.
  intros Henv Hd Hr Hn.
  pose proof Hr as (cell & Hrv & Hls & _)%(resolve_read _ _ _ _ _ _ (env_match _ _ _ _ Henv)).
  assert (resize_locals s ls = ls) as Hres.
  { unfold resize_locals. apply lookup_lt_Some in Hls. case_bool_decide; [lia|done]. }
  pose proof (env_write _ _ _ _ _ _ _ (Some v) Henv Hd Hr Hn) as Henv'.
  unfold assign. simpl. unfold exec_store. simpl. rewrite Hrv, Hres, Hls.
  destruct cell as [w|]; simpl; [destruct (Value.is_linear w); simpl; [same_error|]|];
    (eexists; split; [done|]; by eexists).
Qed.
Lemma store_field_sim σs n env ls x s d path v stk p c :
  env_ok σs n env ls → distinct σs → resolve σs x = Some (s, d) → s < n →
  instr_sim (root ← ok_or (mjoin (read_var x env)) (moved_slot 0); write_field_path 0 root path v)
    (exec_instr vm ctx addr (Instruction.StoreField s path) (mkFrame ls (v :: stk) p c))
    (λ root fr, ∃ ls', env_ok σs n (write_var x (Some root) env) ls' ∧ fr = mkFrame ls' stk p c).
Proof.
  intros Henv Hd Hr Hn.
  pose proof Hr as (cell & Hrv & Hls & _)%(resolve_read _ _ _ _ _ _ (env_match _ _ _ _ Henv)).
  simpl. unfold exec_store_field. simpl. rewrite Hrv, Hls. destruct cell as [root|]; simpl; [|same_error].
  destruct (write_field_path 0 root path v) as [root'|e|msg|]; simpl; try done; [|same_error].
  eexists. split; [done|]. eexists. split; [by eapply env_write|done].
Qed.

(** The machine after a declaration: the operands below it are left. *)
Definition declared (σs : Slots) (n : nat) (stk : list Value.t) (p : nat) (c : list Instruction.t)
    (env : Env) (fr : Frame) : Prop :=
  ∃ ls, env_ok σs n env ls ∧ fr = mkFrame ls stk p c.

(** Allocating a slot and storing into it. *)
Lemma alloc_store γ σs st x slot st1 st2 :
  cg_ok st → slots_ok (γ :: σs) st → alloc_local config x st = Ok (slot, st1) →
  (∃ types moved, st2 = set_tracking types moved (emit (Instruction.Store slot) st1)) →
  cg_ok st2 ∧ slots_ok (<[x := slot]> γ :: σs) st2 ∧
  cg_code st2 = cg_code st ++ [Instruction.Store slot] ∧ cg_next_slot st2 = cg_next_slot st1.
Proof.
  intros Hok Hs Ha (types & moved & ->).
  pose proof (alloc_slots _ _ _ _ _ _ _ Hs Ha) as (Hs1 & _ & Hc1).
  apply alloc_local_ok in Ha as ([Hok1 _ _ _] & _ & _); [|done].
  split_and!; [by split; apply Hok1|by apply slots_tracking, slots_code|by simpl; rewrite Hc1|done].
Qed.

Lemma declare_all_sim i names types st st' γ σs new :
  cg_ok st → slots_ok (γ :: σs) st → bind_elements config i names types st = Ok st' →
  cg_code st' = cg_code st ++ new →
  ∃ γ', slots_ok (γ' :: σs) st' ∧ ∀ vs env ls stk p c,
    length vs = length names → code_at c p new → env_ok (γ :: σs) (cg_next_slot st) env ls →
    sim (length new) (mkFrame ls (vs ++ stk) p c) (declare_all vm names vs env)
      (declared (γ' :: σs) (cg_next_slot st') stk (p + length new) c).
Proof.
  revert i st γ new. induction names as [|x names IH]; intros i st γ new Hok Hs Hb Hnew; simpl in Hb.
  { injection Hb as <-. rewrite <-(app_nil_r (cg_code st)) in Hnew at 1.
    apply app_inv_head in Hnew as <-. exists γ. split; [done|]. intros [|v vs] env ls stk p c Hl _ Henv; [|done].
    apply sim_ret. exists ls. by rewrite Nat.add_0_r. }
  apply bind_Ok in Hb as ([slot st1] & Ha & Hb). apply bind_Ok in Hb as (st1' & Ht & Hb).
  apply bind_type_inv in Ht as (types' & moved' & ->).
  match type of Hb with bind_elements _ _ _ _ ?s = _ => remember s as st2 eqn:E2 end.
  destruct (alloc_store γ σs st x slot st1 st2 Hok Hs Ha) as (Hok2 & Hs2 & C2 & N2);
    [by exists types', moved'|].
  destruct (se_code _ _ _ (bind_elements_ok config _ _ _ _ _ Hok2 Hb)) as (n2 & C3 & _).
  destruct (IH _ _ _ _ Hok2 Hs2 Hb C3) as (γ' & Hs' & Hsim). exists γ'. split; [done|].
  rewrite C3, C2, <-app_assoc in Hnew. apply app_inv_head in Hnew as <-.
  intros [|v vs] env ls stk p c Hl Hat Henv; [done|]. injection Hl as Hl. simpl in Hat |- *.
  apply code_at_cons in Hat as [Hi Hat].
  eapply (sim_instr_bind _ _ _ _ _ (length n2)); [exact Hi|done|done|by eapply (store_sim γ σs st)|].
  intros env' fr (ls' & Henv' & ->). simpl. rewrite <-N2 in Henv'.
  eapply sim_mono; [by apply Hsim|done|]. intros env'' fr (ls'' & Henv'' & ->). exists ls''.
  split; [done|]. f_equal. lia.
Qed.

Lemma declare_fields_sim def tn bm fields st st' γ σs new :
  cg_ok st → slots_ok (γ :: σs) st → bind_fields config def tn bm fields st = Ok st' →
  cg_code st' = cg_code st ++ new →
  ∃ γ', slots_ok (γ' :: σs) st' ∧ ∀ vs env ls stk p c,
    length vs = length fields → code_at c p new → env_ok (γ :: σs) (cg_next_slot st) env ls →
    sim (length new) (mkFrame ls (vs ++ stk) p c) (declare_fields vm bm fields vs env)
      (declared (γ' :: σs) (cg_next_slot st') stk (p + length new) c).
Proof.
  revert st γ new. induction fields as [|f fields IH]; intros st γ new Hok Hs Hb Hnew; simpl in Hb.
  { injection Hb as <-. rewrite <-(app_nil_r (cg_code st)) in Hnew at 1.
    apply app_inv_head in Hnew as <-. exists γ. split; [done|]. intros [|v vs] env ls stk p c Hl _ Henv; [|done].
    apply sim_ret. exists ls. by rewrite Nat.add_0_r. }
  apply bind_Ok in Hb as (ty & _ & Hb). apply bind_Ok in Hb as (st2 & H2 & Hb).
  assert (∃ i γ1, cg_ok st2 ∧ slots_ok (γ1 :: σs) st2 ∧ cg_code st2 = cg_code st ++ [i] ∧
    ∀ v env ls stk p c, c !! p = Some i → env_ok (γ :: σs) (cg_next_slot st) env ls →
      sim 1 (mkFrame ls (v :: stk) p c)
        match bm !! f with
        | Some name => tick vm (Instruction.Store 0) ;; lift (declare name v env)
        | None => tick vm Instruction.Pop ;; mret env
        end (declared (γ1 :: σs) (cg_next_slot st2) stk (p + 1) c))
    as (i & γ1 & Hok2 & Hs2 & C2 & Hsim1).
  { destruct (bm !! f) as [x|].
    - apply bind_Ok in H2 as ([slot st1] & Ha & H2). injection H2 as <-.
      destruct (alloc_store γ σs st x slot st1
        (emit (Instruction.Store slot) (set_type slot ty st1)) Hok Hs Ha)
        as (Hok2 & Hs2 & C2 & N2); [by do 2 eexists|].
      exists (Instruction.Store slot), (<[x := slot]> γ). split_and!; [done..|].
      intros v env ls stk p c Hi Henv. eapply sim_instr; [exact Hi|done|done|].
      exact (store_sim γ σs st st1 x slot env ls v stk (p + 1) c Hs Ha Henv).
    - apply bind_Ok in H2 as ([] & _ & H2). injection H2 as <-. exists Instruction.Pop, γ.
      split_and!; [by split; apply Hok|by apply slots_code|done|].
      intros v env ls stk p c Hi Henv. eapply (sim_tick _ _ _ _ _ 0); [exact Hi|done|done|done|].
      apply sim_ret. by exists ls. }
  destruct (se_code _ _ _ (bind_fields_ok config _ _ _ _ _ _ Hok2 Hb)) as (n2 & C3 & _).
  destruct (IH _ _ _ Hok2 Hs2 Hb C3) as (γ' & Hs' & Hsim). exists γ'. split; [done|].
  rewrite C3, C2, <-app_assoc in Hnew. apply app_inv_head in Hnew as <-.
  intros [|v vs] env ls stk p c Hl Hat Henv; [done|]. injection Hl as Hl. simpl in Hat |- *.
  apply code_at_cons in Hat as [Hi Hat]. eapply (sim_bind _ _ _ _ _ 1 (length n2)); [by apply Hsim1|].
  intros env' fr (ls' & Henv' & ->).
  eapply sim_mono; [by apply Hsim|done|]. intros env'' fr (ls'' & Henv'' & ->). exists ls''.
  split; [done|]. f_equal. lia.
Qed.

(** ** Statements *)

(** The machine after a statement: at the end of its code with an empty stack,
    or at a [Return] with the result on the stack. *)
Definition flow_after (σs : Slots) (n p : nat) (c : list Instruction.t) (flow : Flow) (fr : Frame) : Prop :=
  match flow with
  | Next env => declared σs n [] p c env fr
  | Returned v => code fr !! pc fr = Some Instruction.Return ∧ head (stack fr) = v
  end.
Definition stmt_sim (f : Codegen → CResult Codegen) (ev : Env → VmM S Flow) : Prop :=
  ∀ st st' new γ σs,
    cg_ok st → slots_ok (γ :: σs) st → f st = Ok st' → cg_code st' = cg_code st ++ new →
    (Z.of_nat (length (cg_code st')) < 2 ^ 31)%Z →
    ∃ γ', slots_ok (γ' :: σs) st' ∧ ∀ env ls p c,
      code_at c p new → env_ok (γ :: σs) (cg_next_slot st) env ls →
      sim (length new) (mkFrame ls [] p c) (ev env)
        (flow_after (γ' :: σs) (cg_next_slot st') (p + length new) c).

(** An expression that is evaluated first. *)
Lemma expr_first e st st1 σs :
  arity_ok e = true → cg_ok st → slots_ok σs st → compile_expr e st = Ok st1 →
  ∃ n1, cg_code st1 = cg_code st ++ n1 ∧ cg_ok st1 ∧ slots_ok σs st1 ∧
    cg_next_slot st1 = cg_next_slot st ∧
    ∀ env ls p c, code_at c p n1 → env_ok σs (cg_next_slot st) env ls →
      sim (length n1) (mkFrame ls [] p c) (eval_expr e env)
        (after σs (cg_next_slot st1) [] (p + length n1) c).
Proof.
  intros Ha Hok Hs H1.
  destruct (part_step config _ _ _ σs Hok Hs (compile_expr_effect _ _ _ _ _ _) H1)
    as (n1 & C1 & Hok1 & Hs1 & N1).
  exists n1. split_and!; [done..|]. intros env ls p c Hat Henv. rewrite N1.
  by eapply (path_sim vm ctx addr depth F config structs dep_addresses dep_modules
    local_fn_return_types e [] Ha st st1).
Qed.

Lemma let_sim x e : arity_ok e = true →
  stmt_sim (compile_stmt (Stmt.Let x e)) (eval_stmt (Stmt.Let x e)).
Proof.
  intros Har st st' new γ σs Hok Hs Hc Hnew _. cbn [Codegen.compile_stmt] in Hc.
  apply bind_Ok in Hc as (st1 & H1 & Hc). apply bind_Ok in Hc as ([slot st2] & Ha & Hc).
  destruct (expr_first e st st1 _ Har Hok Hs H1) as (n1 & C1 & Hok1 & Hs1 & N1 & Hsim).
  destruct (alloc_store γ σs st1 x slot st2 st' Hok1 Hs1 Ha) as (_ & Hs' & C' & N').
  { injection Hc as <-. destruct (infer_type _ _ _ _ _ _); [by do 2 eexists|].
    exists (cg_types st2), (cg_moved st2). by destruct st2. }
  exists (<[x := slot]> γ). split; [done|]. intros env ls p c Hat Henv.
  rewrite C1, <-app_assoc in C'. rewrite C' in Hnew. apply app_inv_head in Hnew as <-.
  apply code_at_app in Hat as [Hat1 Hat2]. apply code_at_cons in Hat2 as [Hi _].
  rewrite length_app. cbn [SourceSemantics.eval_stmt].
  eapply sim_bind; [by apply Hsim|]. intros [v env1] fr (ls1 & Henv1 & ->).
  eapply (sim_instr_bind _ _ _ _ _ 0); [exact Hi|done|done|by eapply (store_sim γ σs st1)|].
  intros env2 fr (ls2 & Henv2 & ->). apply sim_ret. exists ls2. rewrite N'. split; [done|].
  simpl. f_equal. lia.
Qed.

Lemma reassign_sim x e : arity_ok e = true →
  stmt_sim (compile_stmt (Stmt.Reassign x e)) (eval_stmt (Stmt.Reassign x e)).
Proof.
  intros Har st st' new γ σs Hok Hs Hc Hnew _. cbn [Codegen.compile_stmt] in Hc.
  apply bind_Ok in Hc as (slot & Hl%ok_or_Ok & Hc). apply bind_Ok in Hc as ([] & _ & Hc).
  apply bind_Ok in Hc as (st1 & H1 & Hc).
  destruct (expr_first e st st1 _ Har Hok Hs H1) as (n1 & C1 & Hok1 & Hs1 & N1 & Hsim).
  assert (∃ types moved, st' = set_tracking types moved (emit (Instruction.Store slot) st1))
    as (types & moved & ->).
  { injection Hc as <-. destruct (infer_type _ _ _ _ _ _); by do 2 eexists. }
  exists γ. split; [by apply slots_tracking, slots_code|]. intros env ls p c Hat Henv.
  apply (emit_after st) with (n1 := n1) in Hnew as ->; [|done].
  apply code_at_app in Hat as [Hat1 Hat2]. apply code_at_cons in Hat2 as [Hi _].
  destruct (local_slot_resolve _ _ _ _ Hs Hl) as (d & Hr & Hlt).
  rewrite length_app. cbn [SourceSemantics.eval_stmt].
  eapply sim_bind; [by apply Hsim|]. intros [v env1] fr (ls1 & Henv1 & ->).
  eapply (sim_instr_bind _ _ _ _ _ 0); [exact Hi|done|done| |].
  { eapply assign_sim; [exact Henv1|by eapply sl_distinct|done|by rewrite N1]. }
  intros env2 fr (ls2 & Henv2 & ->). apply sim_ret. exists ls2. split; [done|]. simpl. f_equal. lia.
Qed.

Lemma field_assign_sim x path e : arity_ok e = true →
  stmt_sim (compile_stmt (Stmt.FieldAssign x path e)) (eval_stmt (Stmt.FieldAssign x path e)).
Proof.
  intros Har st st' new γ σs Hok Hs Hc Hnew _. cbn [Codegen.compile_stmt] in Hc.
  apply bind_Ok in Hc as (slot & Hl%ok_or_Ok & Hc). apply bind_Ok in Hc as (first & _ & Hc).
  apply bind_Ok in Hc as ([] & _ & Hc). apply bind_Ok in Hc as ([] & _ & Hc).
  apply bind_Ok in Hc as (st1 & H1 & Hc). injection Hc as <-.
  destruct (expr_first e st st1 _ Har Hok Hs H1) as (n1 & C1 & Hok1 & Hs1 & N1 & Hsim).
  exists γ. split; [by apply slots_code|]. intros env ls p c Hat Henv.
  apply (emit_after st) with (n1 := n1) in Hnew as ->; [|done].
  apply code_at_app in Hat as [Hat1 Hat2]. apply code_at_cons in Hat2 as [Hi _].
  destruct (local_slot_resolve _ _ _ _ Hs Hl) as (d & Hr & Hlt).
  rewrite length_app. cbn [SourceSemantics.eval_stmt].
  eapply sim_bind; [by apply Hsim|]. intros [v env1] fr (ls1 & Henv1 & ->).
  apply (sim_ext _ _ _ _ _ _ _ (tick vm (Instruction.StoreField 0 path) ;;
    root ← lift (root ← ok_or (mjoin (read_var x env1)) (moved_slot 0);
                 write_field_path 0 root path v); mret (Next (write_var x (Some root) env1)))).
  { intros ω. unfold mbind, VmM_bind, lift.
    destruct (tick _ _ _) as [[[]| | |] ?]; try done. by destruct (ok_or _ _). }
  eapply (sim_instr_bind _ _ _ _ _ 0); [exact Hi|done|done| |].
  { eapply store_field_sim; [exact Henv1|by eapply sl_distinct|done|by rewrite N1]. }
  intros root fr (ls2 & Henv2 & ->). apply sim_ret. exists ls2. split; [done|]. simpl. f_equal. lia.
Qed.

Lemma return_sim oe : match oe with Some e => arity_ok e | None => true end = true →
  stmt_sim (compile_stmt (Stmt.Return oe)) (eval_stmt (Stmt.Return oe)).
Proof.
  intros Har st st' new γ σs Hok Hs Hc Hnew _. cbn [Codegen.compile_stmt] in Hc.
  apply bind_Ok in Hc as (st1 & H1 & Hc). injection Hc as <-. destruct oe as [e|].
  - destruct (expr_first e st st1 _ Har Hok Hs H1) as (n1 & C1 & Hok1 & Hs1 & N1 & Hsim).
    exists γ. split; [by apply slots_code|]. intros env ls p c Hat Henv.
    apply (emit_after st) with (n1 := n1) in Hnew as ->; [|done].
    apply code_at_app in Hat as [Hat1 Hat2]. apply code_at_cons in Hat2 as [Hi _].
    rewrite length_app. cbn [SourceSemantics.eval_stmt].
    eapply sim_mono; [|exact (Nat.le_add_r _ 1)|done]. rewrite <-(Nat.add_0_r (length n1)) at 1.
    eapply sim_bind; [by apply Hsim|]. intros [v env1] fr (ls1 & Henv1 & ->).
    by apply sim_ret.
  - injection H1 as <-. exists γ. split; [by apply slots_code|]. intros env ls p c Hat Henv.
    apply emit_code_inv in Hnew as ->. apply code_at_cons in Hat as [Hi _].
    eapply sim_mono; [|exact (Nat.le_0_l 1)|done]. by apply sim_ret.
Qed.

Lemma expr_stmt_sim e : arity_ok e = true →
  stmt_sim (compile_stmt (Stmt.Expr e)) (eval_stmt (Stmt.Expr e)).
Proof.
  intros Har st st' new γ σs Hok Hs Hc Hnew _. cbn [Codegen.compile_stmt] in Hc.
  apply bind_Ok in Hc as ([] & _ & Hc). apply bind_Ok in Hc as (st1 & H1 & Hc). injection Hc as <-.
  destruct (expr_first e st st1 _ Har Hok Hs H1) as (n1 & C1 & Hok1 & Hs1 & N1 & Hsim).
  exists γ. split; [by apply slots_code|]. intros env ls p c Hat Henv.
  apply (emit_after st) with (n1 := n1) in Hnew as ->; [|done].
  apply code_at_app in Hat as [Hat1 Hat2]. apply code_at_cons in Hat2 as [Hi _].
  rewrite length_app. cbn [SourceSemantics.eval_stmt].
  eapply sim_bind; [by apply Hsim|]. intros [v env1] fr (ls1 & Henv1 & ->).
  eapply (sim_tick _ _ _ _ _ 0); [exact Hi|done|done|done|].
  apply sim_ret. exists ls1. split; [done|]. unfold set_stack, set_pc. simpl. f_equal. lia.
Qed.

Lemma slots_emit σs st i : slots_ok σs st → slots_ok σs (emit i st).
Proof. apply slots_code. Qed.
Lemma cg_ok_emit st i : cg_ok st → cg_ok (emit i st).
Proof. intros [Hl Hm]. by split. Qed.

Lemma let_tuple_sim xs e : arity_ok e = true →
  stmt_sim (compile_stmt (Stmt.LetTuple xs e)) (eval_stmt (Stmt.LetTuple xs e)).
Proof.
  intros Har st st' new γ σs Hok Hs Hc Hnew _. cbn [Codegen.compile_stmt] in Hc.
  apply bind_Ok in Hc as ([] & _ & Hc). apply bind_Ok in Hc as (st1 & H1 & Hc).
  destruct (expr_first e st st1 _ Har Hok Hs H1) as (n1 & C1 & Hok1 & Hs1 & N1 & Hsim).
  set (i := Instruction.UnpackTuple (length xs)) in *.
  destruct (se_code _ _ _ (bind_elements_ok config _ _ _ _ _ (cg_ok_emit st1 i Hok1) Hc)) as (n2 & C2 & _).
  destruct (declare_all_sim _ _ _ _ _ γ σs n2 (cg_ok_emit st1 i Hok1) (slots_emit _ _ _ Hs1) Hc C2)
    as (γ' & Hs' & Hsim').
  exists γ'. split; [done|]. intros env ls p c Hat Henv. cbn in C2.
  rewrite C2, C1, <-!app_assoc in Hnew. apply app_inv_head in Hnew as <-.
  apply code_at_app in Hat as [Hat1 Hat]. apply code_at_cons in Hat as [Hi Hat2].
  rewrite !length_app. cbn [SourceSemantics.eval_stmt].
  eapply sim_bind; [by apply Hsim|]. intros [v env1] fr (ls1 & Henv1 & ->).
  eapply (sim_instr_bind _ _ _ _ _ (length n2)); [exact Hi|done|done|apply unpack_tuple_sim|].
  intros vs fr (Hlen & ->). rewrite <-(Nat.add_0_r (length n2)) at 1.
  eapply sim_bind; [by apply Hsim'|]. intros env2 fr (ls2 & Henv2 & ->). apply sim_ret.
  exists ls2. split; [done|]. simpl. f_equal. lia.
Qed.

Lemma let_struct_sim tn bs e rest : arity_ok e = true →
  stmt_sim (compile_stmt (Stmt.LetStruct tn bs e rest)) (eval_stmt (Stmt.LetStruct tn bs e rest)).
Proof.
  intros Har st st' new γ σs Hok Hs Hc Hnew _. cbn [Codegen.compile_stmt] in Hc.
  apply bind_Ok in Hc as (def & Hdef%ok_or_Ok & Hc). apply bind_Ok in Hc as ([] & _ & Hc).
  apply bind_Ok in Hc as ([] & _ & Hc). apply bind_Ok in Hc as (st1 & H1 & Hc).
  apply bind_Ok in Hc as (tn' & _ & Hc).
  destruct (expr_first e st st1 _ Har Hok Hs H1) as (n1 & C1 & Hok1 & Hs1 & N1 & Hsim).
  set (i := Instruction.UnpackStruct tn' (map fd_name (sd_fields def))) in *.
  destruct (se_code _ _ _ (bind_fields_ok config _ _ _ _ _ _ (cg_ok_emit st1 i Hok1) Hc)) as (n2 & C2 & _).
  destruct (declare_fields_sim _ _ _ _ _ _ γ σs n2 (cg_ok_emit st1 i Hok1) (slots_emit _ _ _ Hs1) Hc C2)
    as (γ' & Hs' & Hsim').
  exists γ'. split; [done|]. intros env ls p c Hat Henv. cbn in C2.
  rewrite C2, C1, <-!app_assoc in Hnew. apply app_inv_head in Hnew as <-.
  apply code_at_app in Hat as [Hat1 Hat]. apply code_at_cons in Hat as [Hi Hat2].
  rewrite !length_app. cbn [SourceSemantics.eval_stmt]. rewrite Hdef.
  eapply sim_bind; [by apply Hsim|]. intros [v env1] fr (ls1 & Henv1 & ->).
  eapply (sim_instr_bind _ _ _ _ _ (length n2)); [exact Hi|done|done|apply unpack_struct_sim|].
  intros vs fr (Hlen & ->). rewrite <-(Nat.add_0_r (length n2)) at 1.
  eapply sim_bind; [by apply Hsim'|]. intros env2 fr (ls2 & Henv2 & ->). apply sim_ret.
  exists ls2. split; [done|]. simpl. f_equal. lia.
Qed.

(** *** Sequences *)
Lemma compile_stmts_cons_sim stmts :
  Forall (λ s, stmt_sim (compile_stmt s) (eval_stmt s)) stmts →
  stmt_sim (compile_stmts stmts) (eval_stmts stmts).
Proof.
  induction 1 as [|s stmts Hs1 _ IH]; intros st st' new γ σs Hok Hs Hc Hnew Hlen; simpl in Hc.
  { injection Hc as <-. rewrite <-(app_nil_r (cg_code st)) in Hnew at 1.
    apply app_inv_head in Hnew as <-. exists γ. split; [done|]. intros env ls p c _ Henv.
    apply sim_ret. exists ls. by rewrite Nat.add_0_r. }
  apply bind_Ok in Hc as (st1 & H1 & Hc).
  destruct (compile_stmt_ok _ _ _ _ _ _ _ _ Hok H1) as [Hok1 _ _ (n1 & C1 & _)].
  destruct (compile_stmts_shape _ _ _ _ _ _ _ _ Hok1 Hc) as [_ _ _ (n2 & C2 & _)].
  rewrite C2 in Hlen. rewrite length_app in Hlen.
  destruct (Hs1 st st1 n1 γ σs Hok Hs H1 C1) as (γ1 & Hs2 & Hsim1); [lia|].
  destruct (IH st1 st' n2 γ1 σs Hok1 Hs2 Hc C2) as (γ2 & Hs3 & Hsim2); [rewrite C2, length_app; lia|].
  exists γ2. split; [done|]. intros env ls p c Hat Henv.
  rewrite C2, C1, <-app_assoc in Hnew. apply app_inv_head in Hnew as <-.
  apply code_at_app in Hat as [Hat1 Hat2]. rewrite length_app. simpl.
  eapply sim_bind; [by apply Hsim1|]. intros [env1|v] fr Hfr; simpl in Hfr.
  - destruct Hfr as (ls1 & Henv1 & ->). eapply sim_mono; [by apply Hsim2|done|]. intros flow fr Hfl.
    by rewrite Nat.add_assoc.
  - eapply sim_mono; [|exact (Nat.le_0_l _)|done]. by apply sim_ret.
Qed.

(** *** Branches *)
Lemma branch_sim stmts st st' nb γ σs :
  stmt_sim (compile_stmts stmts) (eval_stmts stmts) →
  cg_ok st → slots_ok (γ :: σs) st → compile_stmts stmts (enter_scope st) = Ok st' →
  cg_code st' = cg_code st ++ nb → (Z.of_nat (length (cg_code st')) < 2 ^ 31)%Z →
  slots_ok (γ :: σs) (leave_scope (cg_locals st) st') ∧
  ∀ env ls p c, code_at c p nb → env_ok (γ :: σs) (cg_next_slot st) env ls →
    sim (length nb) (mkFrame ls [] p c) (eval_stmts stmts (∅ :: env))
      (λ flow fr, flow_after (γ :: σs) (cg_next_slot st') (p + length nb) c (leave flow) fr).
Proof.
  intros Hsim Hok Hs Hc Hcode Hlen.
  assert (cg_ok (enter_scope st)) as Hok' by (split; apply Hok).
  pose proof (compile_stmts_shape _ _ _ _ _ _ _ _ Hok' Hc) as [_ N D _].
  split; [by apply slots_leave|]. intros env ls p c Hat Henv.
  destruct (Hsim _ _ nb ∅ (γ :: σs) Hok' (slots_enter _ _ Hs) Hc Hcode Hlen) as (γ' & Hs' & Hrun).
  eapply sim_mono; [by apply Hrun, env_enter|done|].
  intros [env'|v] fr Hfr; [|done]. destruct Hfr as (ls' & Henv' & ->). exists ls'.
  split; [by eapply env_leave|done].
Qed.

(** The conditional jump of an [If]. *)
Lemma jump_if_not_sim v ls p c n :
  (Z.of_nat n < 2 ^ 31)%Z →
  instr_sim (ok_or (Value.as_bool v) (expected_bool v))
    (exec_instr vm ctx addr (Instruction.JumpIfNot (jump_over n)) (mkFrame ls [v] (p + 1) c))
    (λ b fr, fr = mkFrame ls [] (if b : bool then p + 1 else p + n) c).
Proof.
  intros Hn. simpl. unfold exec_jump_if. simpl. destruct (Value.as_bool v) as [[]|]; simpl;
    [by eexists| |same_error].
  unfold exec_jump. simpl. rewrite jump_target_over by done. by eexists.
Qed.

(** The start of an [If]: its condition and its first branch. *)
Lemma then_end_ok cnd body st st1 st2 :
  cg_ok st → compile_expr cnd st = Ok st1 →
  compile_stmts body (enter_scope (then_start st1)) = Ok st2 → cg_ok (then_end st1 st2).
Proof.
  intros Hok H1 H2. apply compile_expr_effect in H1; [|done].
  pose proof (cg_ok_emit st1 (Instruction.JumpIfNot 0) (expr_effect_ok _ _ _ H1 Hok)) as Hok1.
  apply compile_stmts_shape in H2; [|by split; apply Hok1].
  destruct (leave_scope_ok _ _ _ H2 Hok1) as (K2 & _). by split; apply K2.
Qed.
Lemma then_sim cnd body st st1 st2 γ σs :
  arity_ok cnd = true → stmt_sim (compile_stmts body) (eval_stmts body) →
  cg_ok st → slots_ok (γ :: σs) st → compile_expr cnd st = Ok st1 →
  compile_stmts body (enter_scope (then_start st1)) = Ok st2 →
  (Z.of_nat (length (cg_code st2)) < 2 ^ 31)%Z →
  ∃ nc nb, cg_code st1 = cg_code st ++ nc ∧ cg_code st2 = cg_code (then_start st1) ++ nb ∧
    cg_ok (then_end st1 st2) ∧ slots_ok (γ :: σs) (then_end st1 st2) ∧
    cg_next_slot st ≤ cg_next_slot st2 ∧
    (∀ env ls p c, code_at c p nc → env_ok (γ :: σs) (cg_next_slot st) env ls →
      sim (length nc) (mkFrame ls [] p c) (eval_expr cnd env)
        (after (γ :: σs) (cg_next_slot st) [] (p + length nc) c)) ∧
    (∀ env ls p c, code_at c p nb → env_ok (γ :: σs) (cg_next_slot st) env ls →
      sim (length nb) (mkFrame ls [] p c) (eval_stmts body (∅ :: env))
        (λ flow fr, flow_after (γ :: σs) (cg_next_slot st2) (p + length nb) c (leave flow) fr)).
Proof.
  intros Har Hbody Hok Hs H1 H2 Hlen.
  destruct (expr_first cnd st st1 _ Har Hok Hs H1) as (nc & C1 & Hok1 & Hs1 & N1 & Hcond).
  pose proof (cg_ok_emit st1 (Instruction.JumpIfNot 0) Hok1) as Hok1'.
  assert (cg_ok (enter_scope (then_start st1))) as Hok1'' by (split; apply Hok1').
  pose proof (compile_stmts_shape _ _ _ _ _ _ _ _ Hok1'' H2) as Heff.
  destruct (leave_scope_ok _ _ _ Heff Hok1') as (K2 & N2 & _).
  destruct Heff as [_ _ _ (nb & C2 & _)].
  destruct (branch_sim body (then_start st1) st2 nb γ σs Hbody Hok1' (slots_emit _ _ _ Hs1) H2 C2 Hlen)
    as (Hs2 & Hthen).
  simpl in N2. rewrite N1 in N2, Hcond. exists nc, nb. split_and!; try done.
  - by split; apply K2.
  - by apply slots_tracking.
  - intros env ls p c Hat Henv. apply Hthen; [done|]. simpl. by rewrite N1.
Qed.

(** Evaluating an [If], with its branches as sequences of statements. *)
Lemma eval_if_eq cnd body eb env ω :
  eval_stmt (Stmt.If cnd body eb) env ω =
  ('(v, env) ← eval_expr cnd env;
   tick vm (Instruction.JumpIfNot 0) ;;
   b ← lift (ok_or (Value.as_bool v) (expected_bool v));
   if b : bool then
     flow ← eval_stmts body (∅ :: env);
     match flow, eb with
     | Next _, Some _ => tick vm (Instruction.Jump 0) ;; mret (leave flow)
     | _, _ => mret (leave flow)
     end
   else
     match eb with
     | Some stmts => flow ← eval_stmts stmts (∅ :: env); mret (leave flow)
     | None => mret (Next env)
     end) ω.
Proof. reflexivity. Qed.

Lemma if_none_sim cnd body :
  arity_ok cnd = true → stmt_sim (compile_stmts body) (eval_stmts body) →
  stmt_sim (compile_stmt (Stmt.If cnd body None)) (eval_stmt (Stmt.If cnd body None)).
Proof.
  intros Har Hbody st st' new γ σs Hok Hs Hc Hnew Hlen.
  apply compile_if_inv in Hc as (st1 & st2 & types & moved & H1 & H2 & ->).
  assert (length (cg_code (if_end st1 st2)) = length (cg_code st2)) as Hl
    by (simpl; apply length_insert).
  simpl in Hlen. rewrite length_insert in Hlen.
  destruct (then_sim cnd body st st1 st2 γ σs Har Hbody Hok Hs H1 H2 Hlen)
    as (nc & nb & C1 & C2 & Hok2 & Hs2 & N & Hcond & Hthen).
  exists γ. split; [by apply slots_tracking, slots_code|]. intros env ls p c Hat Henv.
  change (cg_code (if_end st1 st2) = cg_code st ++ new) in Hnew.
  rewrite (if_end_code st st1 st2 nc nb C1 C2) in Hnew. apply app_inv_head in Hnew as <-.
  assert (Z.of_nat (length nb + 1) < 2 ^ 31)%Z as Hn.
  { rewrite C2, length_app in Hlen. simpl in Hlen. rewrite length_app in Hlen. simpl in Hlen. lia. }
  apply code_at_app in Hat as [Hat1 Hat]. apply code_at_cons in Hat as [Hi Hat2].
  eapply sim_ext; [intros ω; apply eval_if_eq|]. simpl. rewrite length_app. simpl.
  eapply sim_bind; [by apply Hcond|]. intros [v env1] fr (ls1 & Henv1 & ->).
  eapply (sim_instr_bind _ _ _ _ _ (length nb)); [exact Hi|done|done|by apply jump_if_not_sim|].
  intros [] fr ->.
  - rewrite <-(Nat.add_0_r (length nb)) at 1. eapply sim_bind; [by apply Hthen|].
    intros flow fr Hfl. apply (sim_ext _ _ _ _ _ _ _ (mret (leave flow))); [by destruct flow|].
    apply sim_ret. replace (p + (length nc + Datatypes.S (length nb)))
      with (p + length nc + 1 + length nb) by lia. done.
  - eapply sim_mono; [|exact (Nat.le_0_l _)|done]. apply sim_ret. exists ls1.
    split; [by eapply env_mono|]. simpl. f_equal. lia.
Qed.

Lemma if_else_sim cnd body es :
  arity_ok cnd = true → stmt_sim (compile_stmts body) (eval_stmts body) →
  stmt_sim (compile_stmts es) (eval_stmts es) →
  stmt_sim (compile_stmt (Stmt.If cnd body (Some es))) (eval_stmt (Stmt.If cnd body (Some es))).
Proof.
  intros Har Hbody Helse st st' new γ σs Hok Hs Hc Hnew Hlen.
  apply compile_if_inv in Hc as (st1 & st2 & types & moved & H1 & H2 & st3 & H3 & ->).
  simpl in Hlen. rewrite length_insert in Hlen.
  assert (Z.of_nat (length (cg_code st2)) < 2 ^ 31)%Z as Hlen2.
  { pose proof (then_end_ok _ _ _ _ _ Hok H1 H2) as Hok2.
    pose proof (compile_stmts_shape _ _ _ _ _ _ (enter_scope (else_start st1 st2)) _
      ltac:(split; apply Hok2) H3) as [_ _ _ (ne & C3 & _)].
    rewrite C3 in Hlen. simpl in Hlen. rewrite length_app, length_insert, length_app in Hlen. lia. }
  destruct (then_sim cnd body st st1 st2 γ σs Har Hbody Hok Hs H1 H2 Hlen2)
    as (nc & nb & C1 & C2 & Hok2 & Hs2 & N & Hcond & Hthen).
  assert (cg_ok (else_start st1 st2)) as Hok2' by (split; apply Hok2).
  assert (slots_ok (γ :: σs) (else_start st1 st2)) as Hs2' by by apply slots_code, slots_code.
  assert (cg_ok (enter_scope (else_start st1 st2))) as Hok2'' by (split; apply Hok2).
  pose proof (compile_stmts_shape _ _ _ _ _ _ _ _ Hok2'' H3) as [_ N3 _ (ne & C3 & _)].
  change (cg_code st3 = cg_code (else_start st1 st2) ++ ne) in C3.
  destruct (branch_sim es (else_start st1 st2) st3 ne γ σs Helse Hok2' Hs2' H3 C3 Hlen)
    as (Hs3 & Hels).
  exists γ. split; [by apply slots_tracking, slots_code|]. intros env ls p c Hat Henv.
  change (cg_code (else_end st1 st2 st3) = cg_code st ++ new) in Hnew.
  rewrite (else_end_code st st1 st2 st3 nc nb ne C1 C2 C3) in Hnew. apply app_inv_head in Hnew as <-.
  assert (Z.of_nat (length nb + 2) < 2 ^ 31 ∧ Z.of_nat (length ne + 1) < 2 ^ 31)%Z as [Hn1 Hn2].
  { rewrite C3, (else_start_code st st1 st2 nc nb C1 C2) in Hlen. revert Hlen. clear.
    repeat (rewrite length_app || cbn [length]). lia. }
  simpl in N3.
  apply code_at_app in Hat as [Hat1 Hat]. apply code_at_cons in Hat as [Hi Hat].
  apply code_at_app in Hat as [Hat2 Hat]. apply code_at_cons in Hat as [Hj Hat3].
  eapply sim_ext; [intros ω; apply eval_if_eq|]. simpl. rewrite length_app. simpl. rewrite length_app. simpl.
  eapply sim_bind; [by apply Hcond|]. intros [v env1] fr (ls1 & Henv1 & ->).
  eapply (sim_instr_bind _ _ _ _ _ (length nb + Datatypes.S (length ne)));
    [exact Hi|done|done|by apply jump_if_not_sim|].
  intros [] fr ->.
  - eapply sim_bind; [by apply Hthen|]. intros [env2|v2] fr Hfl; simpl in Hfl.
    + destruct Hfl as (ls2 & Henv2 & ->).
      eapply sim_mono; [eapply (sim_tick _ _ _ _ _ 0); [exact Hj|done|done| |]|lia|done].
      { simpl. unfold exec_jump. simpl. by rewrite jump_target_over. }
      apply sim_ret. exists ls2. split; [by eapply env_mono|]. unfold set_pc. simpl. f_equal. lia.
    + eapply sim_mono; [|exact (Nat.le_0_l _)|done]. by apply sim_ret.
  - eapply (sim_mono _ _ _ _ _ (length ne + 0)); [|lia|done]. eapply sim_bind.
    + apply (Hels _ _ (p + length nc + (length nb + 2))); [|by eapply env_mono]. replace (p + length nc + (length nb + 2))
        with (p + length nc + 1 + length nb + 1) by lia. done.
    + intros flow fr Hfl. apply sim_ret. simpl in Hfl.
      replace (p + length nc + (length nb + 2) + length ne)
        with (p + (length nc + Datatypes.S (length nb + Datatypes.S (length ne)))) in Hfl by lia. done.
Qed.

Lemma stmt_simulates s :
  arity_ok_stmt s = true → stmt_sim (compile_stmt s) (eval_stmt s).
Proof.
  induction s as [x e|x e|e|e|c body eb Hb He|x p e|xs e|n bs e r] using Stmt.ind'; intros Ha;
    cbn [SourceSemantics.arity_ok_stmt] in Ha.
  - by apply let_sim.
  - by apply reassign_sim.
  - by apply return_sim; destruct e.
  - by apply expr_stmt_sim.
  - apply andb_true_iff in Ha as [[Hc Ha]%andb_true_iff Hel].
    pose proof (compile_stmts_cons_sim body (Forall_forallb _ _ _ Hb Ha)) as Hbody.
    destruct eb as [es|]; [|by apply if_none_sim]. apply if_else_sim; [done..|].
    apply compile_stmts_cons_sim. by eapply Forall_forallb.
  - by apply field_assign_sim.
  - by apply let_tuple_sim.
  - by apply let_struct_sim.
Qed.
Lemma stmts_simulate stmts :
  forallb arity_ok_stmt stmts = true → stmt_sim (compile_stmts stmts) (eval_stmts stmts).
Proof.
  intros Ha. apply compile_stmts_cons_sim. eapply Forall_forallb; [|exact Ha].
  apply list.Forall_forall. intros s _. apply stmt_simulates.
Qed.

(** ** Functions *)

(** *** The last instruction *)
Definition last_ret (c : list Instruction.t) : bool :=
  match list.last c with Some Instruction.Return => true | _ => false end.
Definition stmts_end (stmts : list Stmt.t) : bool :=
  match list.last stmts with Some s => ends_in_return s | None => false end.

Lemma last_ret_app c1 c2 : c2 ≠ [] → last_ret (c1 ++ c2) = last_ret c2.
Proof.
  intros Hc. unfold last_ret. rewrite last_app. destruct (list.last c2) eqn:Hl; [done|].
  by apply last_None in Hl.
Qed.
Lemma last_ret_cons i c : i ≠ Instruction.Return → last_ret (i :: c) = last_ret c.
Proof.
  intros Hi. destruct c as [|j c]; [by destruct i|]. by apply (last_ret_app [i]).
Qed.
Lemma last_ret_none c : Forall (λ i, falls_through i = true) c → last_ret c = false.
Proof.
  intros Hc. unfold last_ret. destruct (list.last c) as [i|] eqn:Hl; [|done].
  apply last_Some_elem_of in Hl. rewrite list.Forall_forall in Hc. apply Hc in Hl. by destruct i.
Qed.

(** The code of bindings is plain. *)
Lemma extends_plain_step st st1 st2 i :
  cg_code st1 = cg_code st ++ [i] → falls_through i = true → extends_plain st1 st2 → extends_plain st st2.
Proof.
  intros H1 Hi (new & H2 & Hn). exists (i :: new). split; [|by constructor].
  by rewrite H2, H1, <-app_assoc.
Qed.
Lemma alloc_code x st slot st' : alloc_local config x st = Ok (slot, st') → cg_code st' = cg_code st.
Proof. by intros [[_ [moved ->]]|(_ & _ & _ & ->)]%alloc_local_inv. Qed.
Lemma bind_elements_plain i names types st st' :
  bind_elements config i names types st = Ok st' → extends_plain st st'.
Proof.
  revert i st. induction names as [|x names IH]; intros i st Hb; simpl in Hb.
  { injection Hb as <-. apply extends_plain_refl. }
  apply bind_Ok in Hb as ([slot st1] & Ha%alloc_code & Hb).
  apply bind_Ok in Hb as (st2 & (types' & moved & ->)%bind_type_inv & Hb). apply IH in Hb.
  eapply (extends_plain_step _ _ _ (Instruction.Store slot)); [|done|exact Hb]. simpl. by rewrite Ha.
Qed.
Lemma bind_fields_plain def tn bm fields st st' :
  bind_fields config def tn bm fields st = Ok st' → extends_plain st st'.
Proof.
  revert st. induction fields as [|f fields IH]; intros st Hb; simpl in Hb.
  { injection Hb as <-. apply extends_plain_refl. }
  apply bind_Ok in Hb as (ty & _ & Hb). apply bind_Ok in Hb as (st1 & H1 & Hb). apply IH in Hb.
  destruct (bm !! f).
  - apply bind_Ok in H1 as ([slot st2] & Ha%alloc_code & H1). injection H1 as <-.
    eapply (extends_plain_step _ _ _ (Instruction.Store slot)); [|done|exact Hb]. simpl. by rewrite Ha.
  - apply bind_Ok in H1 as ([] & _ & H1). injection H1 as <-.
    by eapply (extends_plain_step _ _ _ Instruction.Pop); [|done|exact Hb].
Qed.

(** The last instruction of a statement or of a body. *)
Definition ends_as (b : bool) (st st' : Codegen) : Prop :=
  ∃ new, cg_code st' = cg_code st ++ new ∧ last_ret new = b ∧ new ≠ [].
Lemma ends_emit e st st1 st' i :
  cg_ok st → compile_expr e st = Ok st1 → cg_code st' = cg_code st1 ++ [i] →
  ends_as (last_ret [i]) st st'.
Proof.
  intros Hok H1 C2. destruct (ee_code _ _ (compile_expr_effect _ _ _ _ _ _ _ _ Hok H1)) as (n1 & C1 & _).
  exists (n1 ++ [i]). split_and!; [by rewrite C2, C1, app_assoc|by apply last_ret_app|by destruct n1].
Qed.
Lemma ends_no_return e st st1 i st' :
  cg_ok st → compile_expr e st = Ok st1 → falls_through i = true → extends_plain (emit i st1) st' →
  ends_as false st st'.
Proof.
  intros Hok H1 Hi (n2 & C2 & Hn). destruct (ends_emit e st st1 (emit i st1) i Hok H1 eq_refl) as (n1 & C1 & L1 & Hne).
  destruct n2 as [|j n2].
  - exists n1. rewrite app_nil_r in C2. split_and!; [by rewrite C2|..|done].
    rewrite L1. by destruct i.
  - exists (n1 ++ j :: n2). split_and!; [by rewrite C2, C1, app_assoc| |by destruct n1].
    rewrite last_ret_app by done. by apply last_ret_none.
Qed.

Definition stmts_end_as (stmts : list Stmt.t) (st st' : Codegen) : Prop :=
  ∃ new, cg_code st' = cg_code st ++ new ∧ last_ret new = stmts_end stmts ∧ (new = [] ↔ stmts = []).
Lemma compile_stmts_end stmts st st' :
  Forall (λ s, ∀ st st', cg_ok st → compile_stmt s st = Ok st' → ends_as (ends_in_return s) st st') stmts →
  cg_ok st → compile_stmts stmts st = Ok st' → stmts_end_as stmts st st'.
Proof.
  intros Hf. revert st. induction Hf as [|s stmts Hs _ IH]; intros st Hok Hc; simpl in Hc.
  { injection Hc as <-. exists []. by rewrite app_nil_r. }
  apply bind_Ok in Hc as (st1 & H1 & Hc).
  pose proof (se_ok _ _ _ (compile_stmt_ok _ _ _ _ _ _ _ _ Hok H1)) as Hok1.
  apply IH in Hc as (n2 & C2 & L2 & E2); [|done]. apply Hs in H1 as (n1 & C1 & L1 & Hne); [|done].
  exists (n1 ++ n2). split_and!; [by rewrite C2, C1, app_assoc| |].
  - destruct (decide (n2 = [])) as [->|Hn2].
    + rewrite app_nil_r, L1. by rewrite (proj1 E2 eq_refl).
    + rewrite last_ret_app, L2 by done. destruct stmts; [by destruct Hn2; apply E2|done].
  - split; [|done]. by intros [-> _]%app_nil.
Qed.

Lemma ends_go stmts :
  (fix go stmts := match stmts with [] => false | [s] => ends_in_return s | _ :: stmts => go stmts end)
    stmts = stmts_end stmts.
Proof.
  induction stmts as [|s [|s' stmts] IH]; [done|done|]. by rewrite IH.
Qed.

Lemma compile_if_end c body eb st st' :
  (∀ st st', cg_ok st → compile_stmts body st = Ok st' → stmts_end_as body st st') →
  (∀ st st', cg_ok st → compile_stmts (default [] eb) st = Ok st' → stmts_end_as (default [] eb) st st') →
  cg_ok st → compile_stmt (Stmt.If c body eb) st = Ok st' →
  ends_as (match eb with Some es => stmts_end es | None => stmts_end body end) st st'.
Proof.
  intros Hb He Hok Hc. apply compile_if_inv in Hc as (st1 & st2 & types & moved & H1 & H2 & H3).
  pose proof (then_end_ok _ _ _ _ _ Hok H1 H2) as Hok2.
  pose proof (compile_expr_effect _ _ _ _ _ _ _ _ Hok H1) as Heff.
  destruct (ee_code _ _ Heff) as (nc & C1 & _).
  apply Hb in H2 as (nb & C2 & L2 & _); [|by split; apply (expr_effect_ok _ _ _ Heff Hok)].
  change (cg_code st2 = cg_code (then_start st1) ++ nb) in C2. destruct eb as [es|].
  - destruct H3 as (st3 & H3 & ->). apply He in H3 as (ne & C3 & L3 & _); [|by split; apply Hok2].
    change (cg_code st3 = cg_code (else_start st1 st2) ++ ne) in C3.
    exists (if_code nc nb (Some ne)). split_and!; [exact (else_end_code st _ _ _ _ _ _ C1 C2 C3)| |by destruct nc].
    simpl. rewrite last_ret_app, last_ret_cons, last_ret_app, last_ret_cons by done. done.
  - subst st'. exists (if_code nc nb None).
    split_and!; [exact (if_end_code st _ _ _ _ C1 C2)| |by destruct nc].
    simpl. rewrite last_ret_app, last_ret_cons by done. done.
Qed.

Lemma compile_stmt_end s st st' :
  cg_ok st → compile_stmt s st = Ok st' → ends_as (ends_in_return s) st st'.
Proof.
  revert st st'. induction s as [x e|x e|e|e|c body eb Hb He|x p e|xs e|n bs e r] using Stmt.ind';
    intros st st' Hok Hc.
  - cbn [Codegen.compile_stmt] in Hc.
    apply bind_Ok in Hc as (st1 & H1 & Hc). apply bind_Ok in Hc as ([slot st2] & Ha%alloc_code & Hc).
    eapply (ends_emit e st st1 _ (Instruction.Store slot) Hok H1). injection Hc as <-.
    destruct (infer_type _ _ _ _ _ _); simpl; by rewrite Ha.
  - cbn [Codegen.compile_stmt] in Hc. apply bind_Ok in Hc as (slot & _ & Hc).
    apply bind_Ok in Hc as ([] & _ & Hc). apply bind_Ok in Hc as (st1 & H1 & Hc).
    eapply (ends_emit e st st1 _ (Instruction.Store slot) Hok H1). injection Hc as <-.
    by destruct (infer_type _ _ _ _ _ _).
  - cbn [Codegen.compile_stmt] in Hc. apply bind_Ok in Hc as (st1 & H1 & Hc). injection Hc as <-.
    destruct e as [e|]; [by eapply (ends_emit e st st1 _ Instruction.Return Hok H1)|].
    injection H1 as <-. by exists [Instruction.Return].
  - cbn [Codegen.compile_stmt] in Hc. apply bind_Ok in Hc as ([] & _ & Hc).
    apply bind_Ok in Hc as (st1 & H1 & Hc). injection Hc as <-.
    by eapply (ends_emit e st st1 _ Instruction.Pop Hok H1).
  - apply compile_if_end in Hc; [|by intros; apply compile_stmts_end..|done].
    destruct eb as [es|]; cbn [ends_in_return]; by rewrite ends_go.
  - cbn [Codegen.compile_stmt] in Hc. apply bind_Ok in Hc as (slot & _ & Hc).
    apply bind_Ok in Hc as (first & _ & Hc). apply bind_Ok in Hc as ([] & _ & Hc).
    apply bind_Ok in Hc as ([] & _ & Hc). apply bind_Ok in Hc as (st1 & H1 & Hc). injection Hc as <-.
    by eapply (ends_emit e st st1 _ (Instruction.StoreField slot p) Hok H1).
  - cbn [Codegen.compile_stmt] in Hc. apply bind_Ok in Hc as ([] & _ & Hc).
    apply bind_Ok in Hc as (st1 & H1 & Hc). apply bind_elements_plain in Hc.
    by eapply (ends_no_return e st st1 _ _ Hok H1); [|exact Hc].
  - cbn [Codegen.compile_stmt] in Hc. apply bind_Ok in Hc as (def & _ & Hc).
    apply bind_Ok in Hc as ([] & _ & Hc). apply bind_Ok in Hc as ([] & _ & Hc).
    apply bind_Ok in Hc as (st1 & H1 & Hc). apply bind_Ok in Hc as (tn & _ & Hc).
    apply bind_fields_plain in Hc. by eapply (ends_no_return e st st1 _ _ Hok H1); [|exact Hc].
Qed.

(** *** Parameters *)
Lemma codegen_new_slots : slots_ok [∅] codegen_new.
Proof.
  split; simpl; [done|done| |by split_and!; intros; rewrite ?lookup_empty in *].
  intros s [[x Hx]|Hs]%List.Exists_cons; [by rewrite lookup_empty in Hx|by inversion Hs].
Qed.

Lemma params_slots fn params st ps st' γ args ls ε :
  cg_ok st → slots_ok [γ] st → compile_params config dep_addresses fn params st = Ok (ps, st') →
  NoDup (map fst params) → (∀ x, x ∈ map fst params → γ !! x = None) →
  length args = length params →
  (∀ i v, args !! i = Some v → ls !! (cg_next_slot st + i) = Some (Some v)) →
  scope_match ls γ ε →
  ∃ γ', slots_ok [γ'] st' ∧ cg_next_slot st' = cg_next_slot st + length params ∧
    scope_match ls γ' (list_to_map (zip (map fst params) (Some <$> args)) ∪ ε).
Proof.
  revert st ps γ args ε.
  induction params as [|[x ty] params IH]; intros st ps γ args ε Hok Hs Hc Hnd Hg Hlen Hls Hm; simpl in Hc.
  { injection Hc as <- <-. exists γ. split_and!; [done|simpl; lia|]. simpl. by rewrite (left_id_L ∅ (∪)). }
  destruct args as [|v args]; [done|]. injection Hlen as Hlen.
  apply list.NoDup_cons in Hnd as [Hx Hnd].
  apply bind_Ok in Hc as ([] & _ & Hc). apply bind_Ok in Hc as ([slot st1] & Ha & Hc).
  apply bind_Ok in Hc as (ty' & _ & Hc). apply bind_Ok in Hc as ([ps' st2] & Hp & Hc). injection Hc as <- <-.
  pose proof (alloc_slots _ _ _ _ _ _ _ Hs Ha) as (Hs1 & Hfor & _).
  apply alloc_local_ok in Ha as ([Hok1 _ _ _] & _ & _); [|done].
  assert (γ !! x = None) as Hgx by (apply Hg; by left).
  destruct Hfor as [[??]|(_ & -> & N1)]; [by simplify_eq|].
  edestruct (IH (set_type (cg_next_slot st) ty' st1) ps' (<[x := cg_next_slot st]> γ) args
    (<[x := Some v]> ε)) as (γ' & Hs' & N' & Hm').
  - by split; apply Hok1.
  - by apply slots_tracking.
  - done.
  - done.
  - intros y Hy. rewrite lookup_insert_ne; [by apply Hg; right|]. by intros <-.
  - done.
  - intros i w Hi. simpl. rewrite N1, <-Nat.add_assoc. by apply (Hls (1 + i)).
  - intros y. destruct (decide (x = y)) as [<-|Hne].
    + rewrite !lookup_insert_eq. constructor. specialize (Hls 0 v eq_refl). by rewrite Nat.add_0_r in Hls.
    + rewrite !lookup_insert_ne by done. apply Hm.
  - exists γ'. split_and!; [done|simpl in *; lia|]. simpl.
    rewrite <-insert_union_l.
    rewrite <-insert_union_r in Hm'; [done|].
    apply not_elem_of_list_to_map_1. intros ([y c] & -> & Hy)%list_elem_of_fmap.
    apply Hx. by apply elem_of_zip_l in Hy.
Qed.

Lemma frame_new_env fn args n γ :
  length args = length (af_params fn) → length (af_params fn) ≤ n →
  scope_match (locals (frame_new [] args n)) γ (params_scope fn args) →
  env_ok [γ] (length (af_params fn)) [params_scope fn args] (locals (frame_new [] args n)).
Proof.
  intros Hlen Hn Hm. split; [by constructor|]. intros s Hs. simpl.
  rewrite lookup_app_r by (rewrite length_fmap; lia).
  destruct (replicate _ _ !! _) as [c|] eqn:Hc; [|done]. by apply lookup_replicate in Hc as [-> _].
Qed.

(** *** The end of a function *)
Notation R fuel fr := (run vm fuel ctx addr depth fr).

(** A result without slot numbers. *)
Definition erased_result (r : outcome VmError.t (option Value.t) * (GasMeter * S))
  : outcome VmError.t (option Value.t) * (GasMeter * S) := (erased (fst r), snd r).

Lemma run_return fuel fr ω :
  code fr !! pc fr = Some Instruction.Return →
  R (Datatypes.S fuel) fr ω = (tick vm Instruction.Return ;; mret (head (stack fr))) ω.
Proof. intros Hc. simpl. by rewrite Hc. Qed.
Lemma run_past_end fuel fr ω :
  code fr !! pc fr = None → R (Datatypes.S fuel) fr ω = (Ok (head (stack fr)), ω).
Proof. intros Hc. simpl. by rewrite Hc. Qed.

(** The interpreter's run of a body, and the machine's run to the end. *)
Lemma sim_to_end {A} n fr (m : VmM S A) (k : A → VmM S (option Value.t)) Q fuel ω :
  sim n fr m Q → n + 1 + F ≤ fuel →
  (∀ a fr' fuel ω, Q a fr' → R (Datatypes.S fuel) fr' ω = k a ω) →
  fst ((m ≫= k) ω) ≠ NoFuel →
  erased_result (R fuel fr ω) = erased_result ((m ≫= k) ω).
Proof.
  intros Hsim Hf Hk. specialize (Hsim ω). unfold mbind, VmM_bind.
  destruct (m ω) as [[a|e|msg|] ω1]; simpl; intros Hno.
  - destruct Hsim as (k0 & fr' & Hk0 & HQ & Hg). specialize (Hg (fuel - k0) ltac:(lia)). simpl in Hg.
    replace (k0 + (fuel - k0)) with fuel in Hg by lia. rewrite Hg.
    destruct (fuel - k0) as [|f] eqn:E; [lia|]. by rewrite (Hk _ _ f ω1 HQ).
  - destruct Hsim as (k0 & Hk0 & Hg). destruct (Hg (fuel - k0) ltac:(lia)) as (e' & He & Hr).
    replace (k0 + (fuel - k0)) with fuel in Hr by lia. rewrite Hr. unfold erased_result. simpl.
    by rewrite He.
  - destruct Hsim as (k0 & Hk0 & Hg). specialize (Hg (fuel - k0) ltac:(lia)). simpl in Hg.
    replace (k0 + (fuel - k0)) with fuel in Hg by lia. by rewrite Hg.
  - done.
Qed.

Lemma compile_body_inv fn params rt st :
  compile_body config structs dep_addresses dep_modules local_fn_return_types fn = Ok (params, rt, st) →
  ∃ st1, compile_params config dep_addresses (af_name fn) (af_params fn) codegen_new = Ok (params, st1) ∧
    compile_stmts (af_body fn) st1 = Ok st.
Proof.
  unfold compile_body. intros Hc. apply bind_Ok in Hc as ([] & _ & Hc).
  apply bind_Ok in Hc as ([] & _ & Hc). apply bind_Ok in Hc as ([ps st1] & H1 & Hc).
  apply bind_Ok in Hc as (rt' & _ & Hc). apply bind_Ok in Hc as (st2 & H2 & Hc).
  apply bind_Ok in Hc as ([] & _ & Hc). simplify_eq. by exists st1.
Qed.
Lemma ensure_return_code st :
  cg_code (ensure_return st) =
  if last_ret (cg_code st) then cg_code st else cg_code st ++ [Instruction.Return].
Proof. unfold ensure_return, last_ret. by destruct (list.last (cg_code st)) as [[]|]. Qed.

Lemma function_sim fn f args fuel ω :
  compile_function config structs dep_addresses dep_modules local_fn_return_types fn = Ok f →
  (max_fun_code_size config < 2 ^ 31)%Z →
  NoDup (map fst (af_params fn)) → forallb arity_ok_stmt (af_body fn) = true →
  length args = length (af_params fn) → length (fn_code f) + 1 + F ≤ fuel →
  fst (eval_function vm structs dep_addresses ctx addr depth F fn args ω) ≠ NoFuel →
  erased_result (R fuel (frame_new (fn_code f) args (fn_local_count f)) ω) =
  erased_result (eval_function vm structs dep_addresses ctx addr depth F fn args ω).
Proof.
  intros Hc Hmax Hnd Har Hlen Hfuel Hno.
  apply compile_function_inv in Hc as (params & rt & st & Hb & -> & Hsize). simpl in *.
  apply compile_body_inv in Hb as (st1 & H1 & H2).
  pose proof (compile_params_ok _ _ _ _ _ _ _ (codegen_new_ok config) H1) as ([Hok1 _ _ _] & C1 & _).
  pose proof (compile_stmts_shape _ _ _ _ _ _ _ _ Hok1 H2) as [_ N2 _ _].
  set (ls := locals (frame_new [] args (cg_next_slot st))).
  destruct (params_slots _ _ _ _ _ ∅ args ls ∅ (codegen_new_ok config) codegen_new_slots H1 Hnd)
    as (γ & Hs1 & N1 & Hm); [done|done|..].
  { intros i v Hi. simpl. apply lookup_app_l_Some. by rewrite list_lookup_fmap, Hi. }
  { intros x. rewrite !lookup_empty. constructor. }
  simpl in N1. rewrite (right_id_L ∅ (∪)) in Hm.
  assert (cg_code st = cg_code st1 ++ cg_code st) as Hcode by by rewrite C1.
  pose proof (ensure_return_code st) as Hcr.
  assert (length (cg_code st) ≤ length (cg_code (ensure_return st))) as Hle
    by (rewrite Hcr; destruct (last_ret _); [done|rewrite length_app; lia]).
  destruct (stmts_simulate _ Har st1 st (cg_code st) γ [] Hok1 Hs1 H2 Hcode) as (γ' & _ & Hsim); [lia|].
  eapply sim_to_end; [apply (Hsim _ ls 0 (cg_code (ensure_return st)))|lia| |exact Hno].
  - intros i ins Hi. rewrite Hcr. destruct (last_ret _); [done|]. by apply lookup_app_l_Some.
  - rewrite N1. apply frame_new_env; [done|lia|done].
  - intros [env|v] fr' fuel' ω' HQ; simpl in HQ.
    + destruct HQ as (ls' & _ & ->).
      destruct (compile_stmts_end (af_body fn) st1 st) as (new & Cn & Ln & _); [|done|done|].
      { apply list.Forall_forall. intros s _ s1 s2. apply compile_stmt_end. }
      rewrite C1 in Cn. simpl in Cn. subst new. unfold stmts_end in Ln.
      destruct (last_ret (cg_code st)) eqn:Hl.
      * rewrite run_past_end by (simpl; rewrite Hcr; by apply lookup_ge_None).
        destruct (list.last (af_body fn)) as [s|]; [|done]. by rewrite <-Ln.
      * rewrite run_return by (simpl; rewrite Hcr; by apply list_lookup_middle).
        destruct (list.last (af_body fn)) as [s|]; [|done]. by rewrite <-Ln.
    + destruct HQ as [Hi Hv]. rewrite run_return by done. by rewrite Hv.
Qed.

(** The parameters are the first locals. *)
Lemma params_local_count fn params rt st :
  compile_body config structs dep_addresses dep_modules local_fn_return_types fn = Ok (params, rt, st) →
  NoDup (map fst (af_params fn)) → length (af_params fn) ≤ cg_next_slot st.
Proof.
  intros Hb Hnd. apply compile_body_inv in Hb as (st1 & H1 & H2).
  pose proof (compile_params_ok _ _ _ _ _ _ _ (codegen_new_ok config) H1) as ([Hok1 _ _ _] & _ & _).
  pose proof (compile_stmts_shape _ _ _ _ _ _ _ _ Hok1 H2) as [_ N2 _ _].
  destruct (params_slots _ _ _ _ _ ∅ (replicate (length (af_params fn)) Value.Void)
    (replicate (length (af_params fn)) (Some Value.Void)) ∅ (codegen_new_ok config) codegen_new_slots H1 Hnd)
    as (γ & _ & N1 & _).
  - done.
  - by rewrite length_replicate.
  - intros i v [-> Hi]%lookup_replicate. simpl. by apply lookup_replicate_2.
  - intros x. rewrite !lookup_empty. constructor.
  - simpl in N1. lia.
Qed.
End sim.
