(* ===== verification/Compiler.v ===== *)
(** * The compiler's entry points

    Models [lib.rs] and [strip_line_comments] of [parser.rs] in
    [meow-vm-compiler].  The parser is [Grammar.parse_items]. *)

From S2P Require Import Prelude Address VmTypes ErrorText Ast Dfs CompilerValidator.
From S2P Require Import Chumsky Grammar TypeChecker Codegen Worklist.

(** ** Comments *)

(** [strip_line_comments]: in a string, in a comment, or in neither.  One
    [ascii] stands for one [char]. *)
Inductive StripMode := InCode | InString | InComment.
Definition blank : ascii := " ".
Definition newline : ascii := Ascii.ascii_of_nat 10.
Definition string_quote : ascii := Ascii.ascii_of_nat 34.
Fixpoint strip (mode : StripMode) (s : string) : string :=
  match s with
  | EmptyString => EmptyString
  | String ch rest =>
      match mode with
      | InString =>
          String ch (strip (if Ascii.eqb ch string_quote then InCode else InString) rest)
      | InComment =>
          if Ascii.eqb ch newline then String ch (strip InCode rest)
          else String blank (strip InComment rest)
      | InCode =>
          if Ascii.eqb ch string_quote then String ch (strip InString rest)
          else
            match rest with
            | String ch2 rest' =>
                if Ascii.eqb ch "/" && Ascii.eqb ch2 "/"
                then String blank (String blank (strip InComment rest'))
                else String ch (strip InCode rest)
            | EmptyString => String ch EmptyString
            end
      end
  end.
Definition strip_line_comments (source : string) : string := strip InCode source.

(** A declared dependency: name, alias, address. *)
Definition UseDecl : Type := string * option string * Address.
Definition local_name (u : UseDecl) : string := default (fst (fst u)) (snd (fst u)).

Section extract.
Context `{PrefixHex, Chumsky}.

(** The loop over the [use] declarations. *)
Fixpoint collect_uses (items : list AstItem) (use_decls : list UseDecl) : CResult (list UseDecl) :=
  match items with
  | [] => Ok use_decls
  | ItemUse dep_name dep_addr alias :: items =>
      let u := (dep_name, alias, dep_addr) in
      guard_err (existsb (λ v, String.eqb (local_name v) (local_name u)) use_decls)
        (cerr ("duplicate use declaration: " +:+ quoted (local_name u) +:+
               " is already used as an alias")) ;;
      collect_uses items (use_decls ++ [u])
  | _ :: items => collect_uses items use_decls
  end.

Definition is_module_decl (i : AstItem) : bool :=
  match i with ItemModuleDecl _ => true | _ => false end.

(** [parse_and_extract], [extract_deps]. *)
Definition parse_and_extract (source : string)
  : CResult (list AstItem * string * list UseDecl) :=
  items ← map_err (λ msg, cerr msg) (parse_items (strip_line_comments source));
  module_name ← match items with
                | ItemModuleDecl name :: _ => Ok name
                | _ => Err (cerr "source must begin with 'mod NAME;' declaration")
                end;
  rest ← match items with
         | _ :: rest => Ok rest
         | [] => Panic "range start index 1 out of range for slice of length 0"
         end;
  guard_err (existsb is_module_decl rest)
    (cerr "duplicate 'mod NAME;' declaration: only one is allowed per file") ;;
  use_decls ← collect_uses items [];
  Ok (items, module_name, use_decls).
Definition extract_deps (source : string) : CResult (list UseDecl) :=
  snd <$> parse_and_extract source.
End extract.

(** ** Compilation *)
Definition item_structs (items : list AstItem) : list AstStruct :=
  omap (λ i, match i with ItemStruct s => Some s | _ => None end) items.
Definition item_fns (items : list AstItem) : list AstFunction :=
  omap (λ i, match i with ItemFn f => Some f | _ => None end) items.

(** [count > limit]. *)
Definition check_limit (what : string) (count limit : nat) : CResult () :=
  guard_err (bool_decide (limit < count))
    (cerr ("too many " +:+ what +:+ ": " +:+ pretty count +:+ " > limit of " +:+ pretty limit)).

Section compile.
Context `{PrefixHex, HashOrder} (deps : list (Address * VmModule)) (config : CompilerConfig).

(** The first duplicate address. *)
Fixpoint check_dep_addresses (seen : gset Address) (l : list (Address * VmModule)) : CResult () :=
  match l with
  | [] => Ok ()
  | (addr, _) :: l =>
      guard_err (bool_decide (addr ∈ seen))
        (cerr ("duplicate dep address: " +:+ address_to_string addr)) ;;
      check_dep_addresses ({[addr]} ∪ seen) l
  end.

(** The declared imports: the names of the modules, and their addresses. *)
Fixpoint resolve_uses (use_decls : list UseDecl) (dep_addresses : gmap string Address)
    (imports : list Address) : CResult (gmap string Address * list Address) :=
  match use_decls with
  | [] => Ok (dep_addresses, imports)
  | u :: use_decls =>
      let '(dep_name, _, dep_addr) := u in
      guard_err (negb (existsb (λ p, bool_decide (fst p = dep_addr) &&
                                     String.eqb (mod_name (snd p)) dep_name) deps))
        (cerr ("unknown dependency '" +:+ dep_name +:+ "@" +:+ address_to_string dep_addr +:+
               "': no provided dep module matches that name and address")) ;;
      validate_identifier (local_name u) "use alias" config ;;
      resolve_uses use_decls (<[local_name u := dep_addr]> dep_addresses) (imports ++ [dep_addr])
  end.

(** The closure loop: every import of a module that is reached was provided. *)
Definition push_unvisited (visited : gset Address) (queue imports : list Address) : list Address :=
  queue ++ filter (λ a, a ∉ visited) imports.
Fixpoint closure_loop (fuel : nat) (visited : gset Address) (queue : list Address) : CResult () :=
  match fuel with
  | O => NoFuel
  | S fuel =>
      match queue with
      | [] => Ok ()
      | addr :: queue =>
          if bool_decide (addr ∈ visited) then closure_loop fuel visited queue
          else
            let visited := {[addr]} ∪ visited in
            dep_module ← ok_or (dep_map deps !! addr)
              (cerr ("transitive dependency at " +:+ address_to_string addr +:+
                     " is required but was not provided"));
            closure_loop fuel visited (push_unvisited visited queue (mod_imports dep_module))
      end
  end.
Definition closure_fuel (queue : list Address) : nat :=
  length queue + weight (λ m, length (mod_imports m)) (dep_map deps) + 1.
Definition check_closure (imports : list Address) : CResult () :=
  closure_loop (closure_fuel imports) ∅ imports.

(** The public structs of the declared dependencies, under source-level names;
    of two aliases for one address the first in iteration order is taken. *)
Definition dep_alias (dep_addresses : gmap string Address) (addr : Address) : option string :=
  fst <$> find_first (λ p, bool_decide (snd p = addr)) (hash_iter dep_addresses).
Definition dep_structs (dep_addresses : gmap string Address) : list StructDef :=
  mjoin (map (λ p, match dep_alias dep_addresses (fst p) with
                   | Some dep_name =>
                       map (λ s, mkStructDef (dep_name +:+ "::" +:+ sd_name s) (sd_fields s) true)
                         (List.filter sd_is_public (mod_structs (snd p)))
                   | None => []
                   end) deps).

(** The first pass over the structs. *)
Definition struct_defs (structs : list AstStruct) : list StructDef :=
  map (λ s, mkStructDef (as_name s) (ast_fields_to_field_defs (as_fields s)) (as_is_public s)) structs.

(** The second pass: all functions. *)
Fixpoint compile_functions (compile : AstFunction → CResult Function) (fns : list AstFunction)
  : CResult (list Function) :=
  match fns with
  | [] => Ok []
  | f :: fns => f ← compile f; fs ← compile_functions compile fns; Ok (f :: fs)
  end.

(** [compile] on the parsed items. *)
Definition compile_items (items : list AstItem) (module_name : string) (use_decls : list UseDecl)
    (native_sigs : list NativeSig) : CResult VmModule :=
  validate_identifier module_name "module name" config ;;
  let ast_structs := item_structs items in
  let ast_fns := item_fns items in
  check_limit "struct definitions" (length ast_structs) (max_structs config) ;;
  check_limit "functions" (length ast_fns) (max_functions config) ;;
  check_limit "use declarations" (length use_decls) (max_imports config) ;;
  check_limit "dependency modules" (length deps) (compiler_max_dep_modules config) ;;
  check_dep_addresses ∅ deps ;;
  '(dep_addresses, imports) ← resolve_uses use_decls ∅ [];
  check_closure imports ;;
  detect_module_dep_cycles deps ;;
  for_each (λ s, validate_struct_def s config) ast_structs ;;
  let local_structs := struct_defs ast_structs in
  let dep_structs := dep_structs dep_addresses in
  validate_struct_refs local_structs dep_structs ;;
  validate_function_type_refs local_structs dep_structs ast_fns ;;
  let structs := translate_struct_field_types dep_addresses local_structs in
  let dep_modules := dep_map deps in
  let local_fn_return_types := collect_map (map (λ f, (af_name f, af_return_type f)) ast_fns) in
  let local_fn_param_types := collect_map (map (λ f, (af_name f, map snd (af_params f))) ast_fns) in
  check dep_addresses dep_modules ast_structs (meow_vm_abort_sig :: native_sigs)
    local_fn_param_types local_fn_return_types ast_fns ;;
  functions ← compile_functions
                (compile_function config (structs ++ dep_structs) dep_addresses dep_modules
                   local_fn_return_types) ast_fns;
  Ok (mkModule module_name imports structs functions).

(** [compile]. *)
Definition compile `{Chumsky} (source : string) (native_sigs : list NativeSig) : CResult VmModule :=
  '(items, module_name, use_decls) ← parse_and_extract source;
  compile_items items module_name use_decls native_sigs.
End compile.
