(* ===== verification/CompilerProps.v ===== *)
(** * What a successful compilation has checked

    The search for missing transitive dependencies is exact, the stripped
    source has the shape of the original, and what [compile] rules out; and compilation
    returns on every source text. *)

From S2P Require Import Prelude Address VmTypes ErrorText Ast Dfs CompilerValidator.
From S2P Require Import TypeChecker Codegen CodegenProps Worklist Compiler.
From S2P Require Import Text Chumsky Grammar.
From S2P Require Import GrammarProps GrammarPrint.

(** ** The closure of the imports *)
Section closure.
Context `{PrefixHex} (deps : list (Address * VmModule)).

(** The imports of a dependency. *)
Definition imports_of (a : Address) : list Address :=
  match dep_map deps !! a with Some m => mod_imports m | None => [] end.
Notation to_visit visited := (unvisited (dep_map deps) visited).

Lemma push_unvisited_length visited queue imports :
  length (push_unvisited visited queue imports) ≤ length queue + length imports.
Proof. unfold push_unvisited. rewrite length_app. pose proof (length_filter (λ a, a ∉ visited) imports). lia. Qed.
Lemma push_unvisited_elem visited queue imports a :
  a ∈ push_unvisited visited queue imports ↔ a ∈ queue ∨ (a ∈ imports ∧ a ∉ visited).
Proof. unfold push_unvisited. rewrite elem_of_app, list_elem_of_filter. naive_solver. Qed.

Lemma closure_loop_returns fuel visited queue :
  length queue + weight (λ m, length (mod_imports m)) (to_visit visited) < fuel →
  no_panic (closure_loop deps fuel visited queue).
Proof.
  revert visited queue. induction fuel as [|fuel IH]; intros visited queue Hf; [lia|].
  destruct queue as [|a queue]; simpl in *; [done|]. case_bool_decide as Ha; [apply IH; lia|].
  destruct (dep_map deps !! a) as [m|] eqn:Hm; simpl; [|done]. apply IH.
  rewrite unvisited_insert.
  rewrite (weight_delete _ (to_visit visited) a m) in Hf by (by rewrite unvisited_lookup).
  pose proof (push_unvisited_length ({[a]} ∪ visited) queue (mod_imports m)). lia.
Qed.

(** Everything reachable from the queue was provided, if the visited part was
    and only leads to the queue. *)
Definition frontier (visited : gset Address) (queue : list Address) : Prop :=
  ∀ a, a ∈ visited → is_Some (dep_map deps !! a) ∧ ∀ b, b ∈ imports_of a → b ∈ visited ∨ b ∈ queue.

Lemma closure_loop_sound fuel visited queue :
  frontier visited queue → closure_loop deps fuel visited queue = Ok () →
  ∃ V : gset Address, visited ⊆ V ∧ (∀ a, a ∈ queue → a ∈ V) ∧ frontier V [].
Proof.
  revert visited queue. induction fuel as [|fuel IH]; intros visited queue Hfr Hc; [done|].
  destruct queue as [|a queue]; simpl in Hc.
  { exists visited. split_and!; [done|by intros ? ?%not_elem_of_nil|done]. }
  case_bool_decide as Ha.
  - apply IH in Hc as (V & HV & HQ & Hfr').
    + exists V. split_and!; [done| |done]. intros b [->|Hb]%elem_of_cons; auto.
    + intros b Hb. destruct (Hfr b Hb) as [? Hi]. split; [done|]. intros c Hc'.
      destruct (Hi c Hc') as [?|[->|?]%elem_of_cons]; auto.
  - apply bind_Ok in Hc as (m & Hm%ok_or_Ok & Hc). apply IH in Hc as (V & HV & HQ & Hfr').
    + exists V. split_and!; [set_solver| |done]. intros b [->|Hb]%elem_of_cons; [set_solver|].
      apply HQ, push_unvisited_elem. by left.
    + intros b Hb. setoid_rewrite push_unvisited_elem.
      apply elem_of_union in Hb as [->%elem_of_singleton|Hb].
      * split; [by eexists|]. unfold imports_of. rewrite Hm. intros c Hc'.
        destruct (decide (c ∈ {[a]} ∪ visited)); auto.
      * destruct (Hfr b Hb) as [? Hi]. split; [done|]. intros c Hc'.
        destruct (Hi c Hc') as [?|[->|?]%elem_of_cons]; [left; set_solver|left; set_solver|auto].
Qed.

(** A failure names an address that is reachable and missing. *)
Lemma closure_loop_fails fuel visited queue roots e :
  (∀ a, a ∈ queue → reach imports_of roots a) → closure_loop deps fuel visited queue = Err e →
  ∃ a, reach imports_of roots a ∧ dep_map deps !! a = None.
Proof.
  revert visited queue. induction fuel as [|fuel IH]; intros visited queue Hq Hc; [done|].
  destruct queue as [|a queue]; simpl in Hc; [done|].
  assert (∀ b, b ∈ queue → reach imports_of roots b) as Hq' by (intros; apply Hq; by right).
  assert (reach imports_of roots a) as Ha by (apply Hq; by left).
  case_bool_decide; [by eapply IH|].
  destruct (dep_map deps !! a) as [m|] eqn:Hm; simpl in Hc; [|by exists a].
  eapply IH; [|exact Hc]. intros b [?|[Hb _]]%push_unvisited_elem; [auto|].
  eapply reach_step; [exact Ha|]. unfold imports_of. by rewrite Hm.
Qed.

Lemma check_closure_exact imports :
  (check_closure deps imports = Ok () ∧
   ∀ a, reach imports_of imports a → is_Some (dep_map deps !! a)) ∨
  (∃ e, check_closure deps imports = Err e ∧
   ∃ a, reach imports_of imports a ∧ dep_map deps !! a = None).
Proof.
  pose proof (closure_loop_returns (closure_fuel deps imports) ∅ imports) as Hret.
  unfold check_closure in *. rewrite unvisited_empty in Hret.
  destruct (closure_loop _ _ _ _) as [[]|e|msg|] eqn:Hc.
  - left. split; [done|]. apply closure_loop_sound in Hc as (V & _ & HV & Hfr); [|by intros ? ?%not_elem_of_empty].
    assert (∀ a, reach imports_of imports a → a ∈ V) as Hin.
    { apply reach_closed; [done|]. intros a b Ha Hb.
      destruct (Hfr a Ha) as [_ Hi]. by destruct (Hi b Hb) as [?|?%not_elem_of_nil]. }
    intros a Ha. by apply Hfr, Hin.
  - right. exists e. split; [done|]. eapply closure_loop_fails; [|exact Hc]. by apply reach_root.
  - exfalso. by apply Hret; unfold closure_fuel; lia.
  - exfalso. by apply Hret; unfold closure_fuel; lia.
Qed.
End closure.

(** ** Comments *)

(** What [strip_line_comments] means, as rules: a comment starts at two slashes
    outside a string and ends before the line break. *)
Definition starts_comment (s : string) : bool :=
  match s with String a (String b _) => Ascii.eqb a "/" && Ascii.eqb b "/" | _ => false end.
Inductive strips : StripMode → string → string → Prop :=
  | strips_nil m : strips m EmptyString EmptyString
  | strips_start rest out :
      strips InComment rest out →
      strips InCode (String "/" (String "/" rest)) (String blank (String blank out))
  | strips_code ch rest out :
      starts_comment (String ch rest) = false →
      strips (if Ascii.eqb ch string_quote then InString else InCode) rest out →
      strips InCode (String ch rest) (String ch out)
  | strips_string ch rest out :
      strips (if Ascii.eqb ch string_quote then InCode else InString) rest out →
      strips InString (String ch rest) (String ch out)
  | strips_newline rest out :
      strips InCode rest out → strips InComment (String newline rest) (String newline out)
  | strips_comment ch rest out :
      Ascii.eqb ch newline = false → strips InComment rest out →
      strips InComment (String ch rest) (String blank out).

Lemma strips_strip m s out : strips m s out → strip m s = out.
Proof.
  induction 1 as [m|rest out _ IH|ch rest out Hs _ IH|ch rest out _ IH|rest out _ IH|ch rest out Hn _ IH];
    cbn [strip].
  - by destruct m.
  - by rewrite IH.
  - destruct (Ascii.eqb ch string_quote); [by rewrite IH|]. destruct rest as [|ch2 rest].
    + by rewrite <-IH.
    + cbn [starts_comment] in Hs. by rewrite Hs, IH.
  - by rewrite IH.
  - by rewrite IH.
  - by rewrite Hn, IH.
Qed.
Lemma strip_strips m s : strips m s (strip m s).
Proof.
  enough (∀ n m s, String.length s ≤ n → ∃ out, strips m s out) as Hgen.
  { destruct (Hgen _ m s (le_n _)) as (out & Hout). by rewrite (strips_strip _ _ _ Hout). }
  clear. intros n. induction n as [|n IH]; intros m [|ch rest] Hn; simpl in Hn;
    [eexists; constructor|lia|eexists; constructor|].
  destruct (starts_comment (String ch rest)) eqn:Hs; destruct m.
  - destruct rest as [|ch2 rest]; [done|]. apply andb_true_iff in Hs as [->%Ascii.eqb_eq ->%Ascii.eqb_eq].
    simpl in Hn. destruct (IH InComment rest) as (out & Hout); [lia|]. eexists. by constructor.
  - destruct (IH (if Ascii.eqb ch string_quote then InCode else InString) rest) as (out & Hout); [lia|].
    eexists. by constructor.
  - destruct (Ascii.eqb_spec ch newline) as [->|Hne].
    + destruct (IH InCode rest) as (out & Hout); [lia|]. eexists. by constructor.
    + destruct (IH InComment rest) as (out & Hout); [lia|]. eexists. constructor; [|done].
      by apply Ascii.eqb_neq.
  - destruct (IH (if Ascii.eqb ch string_quote then InString else InCode) rest) as (out & Hout); [lia|].
    eexists. by constructor.
  - destruct (IH (if Ascii.eqb ch string_quote then InCode else InString) rest) as (out & Hout); [lia|].
    eexists. by constructor.
  - destruct (Ascii.eqb_spec ch newline) as [->|Hne].
    + destruct (IH InCode rest) as (out & Hout); [lia|]. eexists. by constructor.
    + destruct (IH InComment rest) as (out & Hout); [lia|]. eexists. constructor; [|done].
      by apply Ascii.eqb_neq.
Qed.

(** Every position keeps its character or turns blank; line breaks stay. *)
Lemma strips_positions m s out :
  strips m s out → String.length out = String.length s ∧
  ∀ i, String.get i out = String.get i s ∨
    (String.get i out = Some blank ∧ String.get i s ≠ Some newline).
Proof.
  induction 1 as [m|rest out _ [IHl IH]|ch rest out _ _ [IHl IH]|ch rest out _ [IHl IH]
    |rest out _ [IHl IH]|ch rest out Hn _ [IHl IH]]; simpl; (split; [congruence|]).
  - by left.
  - intros [|[|i]]; [by right|by right|apply IH].
  - intros [|i]; [by left|apply IH].
  - intros [|i]; [by left|apply IH].
  - intros [|i]; [by left|apply IH].
  - intros [|i]; [|apply IH]. right. split; [done|]. intros [= ->]. by rewrite Ascii.eqb_refl in Hn.
Qed.
Lemma strips_again m s out :
  strips m s out → strips m out out ∧ (m = InComment → strips InCode out out).
Proof.
  induction 1 as [m|rest out _ [IH1 IH2]|ch rest out Hs Hr [IH1 IH2]|ch rest out _ [IH1 IH2]
    |rest out _ [IH1 IH2]|ch rest out Hn _ [IH1 IH2]]; (split; [|try done]); try by repeat constructor.
  - constructor; [done|]. constructor; [by destruct out|]. by apply IH2.
  - constructor; [|done]. destruct out as [|ch2 out]; [done|]. simpl in Hs |- *.
    destruct (Ascii.eqb ch "/") eqn:Hc; [|done]. simpl in *. apply Ascii.eqb_eq in Hc as ->.
    destruct (Ascii.eqb_spec ch2 "/") as [->|]; [|done]. inversion Hr; by simplify_eq.
  - constructor; [by destruct out|done].
  - intros _. constructor; [by destruct out|]. by apply IH2.
Qed.

(** ** A compiled module *)

(** The names and addresses of the declared dependencies. *)
Definition declared_addresses (uses : list UseDecl) : gmap string Address :=
  foldl (λ m u, <[local_name u := snd u]> m) ∅ uses.

Section compiled.
Context `{PrefixHex, HashOrder} (deps : list (Address * VmModule)) (config : CompilerConfig).

Lemma resolve_uses_inv uses addrs imports addrs' imports' :
  resolve_uses deps config uses addrs imports = Ok (addrs', imports') →
  addrs' = foldl (λ m u, <[local_name u := snd u]> m) addrs uses ∧
  imports' = imports ++ map snd uses ∧
  ∀ u, u ∈ uses → ∃ d, (snd u, d) ∈ deps ∧ mod_name d = fst (fst u).
Proof.
  revert addrs imports. induction uses as [|[[name alias] a] uses IH]; intros addrs imports Hr; simpl in Hr.
  { simplify_eq. split_and!; [done|by rewrite app_nil_r|by intros ? ?%not_elem_of_nil]. }
  apply bind_Ok in Hr as ([] & Hg%guard_err_Ok & Hr). apply bind_Ok in Hr as ([] & _ & Hr).
  apply IH in Hr as (-> & -> & Hu). split_and!; [done|by rewrite <-app_assoc|].
  intros u [->|Hin]%elem_of_cons; [|by apply Hu]. simpl.
  apply negb_false_iff, existsb_exists in Hg as ([b d] & Hin & Hd). apply andb_true_iff in Hd as [Hb Hn].
  apply bool_decide_eq_true in Hb. apply String.eqb_eq in Hn. simpl in *. subst.
  exists d. split; [|done]. by apply list_elem_of_In.
Qed.

Lemma compile_functions_inv compile fns fs :
  compile_functions compile fns = Ok fs → Forall2 (λ fn f, compile fn = Ok f) fns fs.
Proof.
  revert fs. induction fns as [|fn fns IH]; intros fs Hc; simpl in Hc; [simplify_eq; constructor|].
  apply bind_Ok in Hc as (f & Hf & Hc). apply bind_Ok in Hc as (fs' & Hfs & Hc). simplify_eq.
  constructor; auto.
Qed.

Record compiled_from (items : list AstItem) (uses : list UseDecl) (m : VmModule) : Prop := {
  cf_uses u : u ∈ uses → ∃ d, (snd u, d) ∈ deps ∧ mod_name d = fst (fst u);
  cf_imports : mod_imports m = map snd uses;
  cf_closure : check_closure deps (mod_imports m) = Ok ();
  cf_cycles : detect_module_dep_cycles deps = Ok ();
  cf_structs : mod_structs m =
    translate_struct_field_types (declared_addresses uses) (struct_defs (item_structs items));
  cf_refs : validate_struct_refs (struct_defs (item_structs items))
              (dep_structs deps (declared_addresses uses)) = Ok ();
  cf_functions : Forall2 (λ fn f,
    compile_function config (mod_structs m ++ dep_structs deps (declared_addresses uses))
      (declared_addresses uses) (dep_map deps)
      (collect_map (map (λ f, (af_name f, af_return_type f)) (item_fns items))) fn = Ok f)
    (item_fns items) (mod_functions m);
}.

Lemma compile_items_inv items name uses sigs m :
  compile_items deps config items name uses sigs = Ok m → compiled_from items uses m.
Proof.
  unfold compile_items. intros Hc. apply bind_Ok in Hc as ([] & _ & Hc).
  do 5 apply bind_Ok in Hc as ([] & _ & Hc).
  apply bind_Ok in Hc as ([addrs imports] & Hr & Hc). apply bind_Ok in Hc as ([] & Hclo & Hc).
  apply bind_Ok in Hc as ([] & Hcyc & Hc). apply bind_Ok in Hc as ([] & _ & Hc).
  apply bind_Ok in Hc as ([] & Hrefs & Hc). apply bind_Ok in Hc as ([] & _ & Hc).
  apply bind_Ok in Hc as ([] & _ & Hc). apply bind_Ok in Hc as (fs & Hfs & Hc). simplify_eq.
  apply resolve_uses_inv in Hr as (-> & -> & Hu). simpl in *.
  apply compile_functions_inv in Hfs. by split.
Qed.

Lemma compiled_get_function items uses m fn :
  compiled_from items uses m → NoDup (map af_name (item_fns items)) → fn ∈ item_fns items →
  ∃ f, get_function m (af_name fn) = Some f ∧
    compile_function config (mod_structs m ++ dep_structs deps (declared_addresses uses))
      (declared_addresses uses) (dep_map deps)
      (collect_map (map (λ f, (af_name f, af_return_type f)) (item_fns items))) fn = Ok f.
Proof.
  intros Hm. pose proof (cf_functions _ _ _ Hm) as Hf. unfold get_function.
  revert Hf. generalize (mod_functions m) as fs. generalize (item_fns items) at 2 3 4 as fns.
  intros fns fs Hf Hnd Hin. induction Hf as [|fn' f fns fs Hc Hf IH]; [by apply not_elem_of_nil in Hin|].
  simpl in Hnd. apply list.NoDup_cons in Hnd as [Hni Hnd]. simpl.
  assert (fn_name f = af_name fn') as Hname
    by (by apply compile_function_inv in Hc as (? & ? & ? & _ & -> & _)).
  apply elem_of_cons in Hin as [->|Hin].
  - exists f. rewrite Hname, String.eqb_refl. done.
  - rewrite Hname. destruct (String.eqb_spec (af_name fn') (af_name fn)) as [He|]; [|by apply IH].
    exfalso. apply Hni. rewrite He. by apply list_elem_of_fmap_2.
Qed.
End compiled.

(** * Compilation returns on every source text

    The compiler, composed with its parser, never panics and needs no fuel of
    its caller: the two places of the code generator that index or unwrap are
    safe, because the parser only builds field paths that are not empty and the
    destructuring loop runs over the fields of the definition itself. *)

Lemma no_panic_for_each {A} (f : A → CResult ()) l :
  (∀ x, x ∈ l → no_panic (f x)) → no_panic (for_each f l).
Proof.
  induction l as [|x l IH]; intros Hf; simpl; [done|]. apply no_panic_bind; [by apply Hf; left|].
  intros _ _. apply IH. intros y Hy. apply Hf. by right.
Qed.

Create HintDb returns.
#[export] Hint Resolve no_panic_guard no_panic_ok_or no_panic_ok : returns.

(** Follow a computation; what it calls returns by the lemmas of the database. *)
Ltac returns :=
  repeat first
    [ done
    | progress intros
    | solve [auto 3 with returns]
    | apply no_panic_for_each; intros ? ?
    | apply no_panic_map_err
    | apply no_panic_fmap
    | apply no_panic_bind; [|intros ? ?]
    | progress simpl
    | case_match ].

(** ** The validator *)
Lemma validate_identifier_returns n c config : no_panic (validate_identifier n c config).
Proof. apply no_panic_guard. Qed.
#[export] Hint Resolve validate_identifier_returns : returns.
Lemma validate_function_name_returns n config : no_panic (validate_function_name n config).
Proof. unfold validate_function_name. returns. Qed.
Lemma validate_struct_def_returns s config : no_panic (validate_struct_def s config).
Proof. unfold validate_struct_def. returns. Qed.
Lemma check_type_ref_known_returns l d c ty : no_panic (check_type_ref_known l d c ty).
Proof.
  revert ty. fix IH 1. intros [| | | |n|types]; simpl; try done; [apply no_panic_guard|].
  induction types as [|t types IHt]; [done|]. apply no_panic_bind; [apply IH|intros _ _; apply IHt].
Qed.
#[export] Hint Resolve validate_function_name_returns validate_struct_def_returns
  check_type_ref_known_returns detect_struct_cycles_returns : returns.
Lemma validate_function_type_refs_returns l d fns : no_panic (validate_function_type_refs l d fns).
Proof. unfold validate_function_type_refs. returns. Qed.
Lemma validate_struct_refs_returns l d : no_panic (validate_struct_refs l d).
Proof. unfold validate_struct_refs. returns. Qed.
Lemma detect_module_dep_cycles_returns `{PrefixHex} deps : no_panic (detect_module_dep_cycles deps).
Proof. by destruct (detect_module_cycles_exact deps) as [[-> _]|(e & a & -> & _)]. Qed.
Lemma check_closure_returns `{PrefixHex} deps imports : no_panic (check_closure deps imports).
Proof. by destruct (check_closure_exact deps imports) as [[-> _]|(e & -> & _)]. Qed.
#[export] Hint Resolve validate_function_type_refs_returns validate_struct_refs_returns
  detect_module_dep_cycles_returns check_closure_returns : returns.

(** ** The type checker *)
Section checker.
Context (tc : TypeChecker) (fn : string) (ret : option Ty.t).

Lemma expect_type_returns a e c : no_panic (expect_type fn a e c).
Proof. apply no_panic_guard. Qed.
Lemma require_value_returns r c : no_panic r → no_panic (require_value fn r c).
Proof. intros. unfold require_value. returns. Qed.
Hint Resolve expect_type_returns require_value_returns : returns.
Lemma binop_type_returns op l r : no_panic (binop_type fn op l r).
Proof. unfold binop_type. returns. Qed.
Lemma check_native_args_returns name i args params :
  no_panic (check_native_args fn name i args params).
Proof.
  revert i params. induction args as [|a args IH]; intros i [|p params]; simpl; try done.
  apply no_panic_bind; [unfold check_native_arg; returns|auto].
Qed.
Lemma check_fn_args_returns name i args params : no_panic (check_fn_args fn name i args params).
Proof.
  revert i params. induction args as [|a args IH]; intros i [|p params]; simpl; try done.
  apply no_panic_bind; auto with returns.
Qed.
Hint Resolve check_native_args_returns check_fn_args_returns : returns.
Lemma call_type_returns name args : no_panic (call_type tc fn name args).
Proof. unfold call_type, check_arg_count. returns. Qed.
Lemma check_lit_fields_returns name lit fields :
  (∀ f r, lit !! f = Some r → no_panic r) → no_panic (check_lit_fields fn name lit fields).
Proof.
  intros Hl. induction fields as [|[f ty] fields IH]; simpl; [done|].
  apply no_panic_bind; [apply no_panic_ok_or|intros r Hr%ok_or_Ok].
  apply no_panic_bind; [eauto with returns|intros]. apply no_panic_bind; auto with returns.
Qed.
Hint Resolve binop_type_returns call_type_returns : returns.

Lemma expr_type_returns e locals : no_panic (expr_type tc fn e locals).
Proof.
  induction e as [b|n|a|s|x|l op r IHl IHr|e f IHe|n fs IH|n args IH|items IH|[] e IHe]
    using Expr.ind'; simpl; try done; try solve [returns].
  - case_match; [done|]. apply no_panic_bind; [apply no_panic_ok_or|intros info _].
    apply no_panic_bind; [|returns]. apply check_lit_fields_returns. intros f r Hr%collect_map_elem.
    apply list_elem_of_fmap in Hr as (g & [= -> ->] & Hg). by eapply list.Forall_forall in IH.
  - apply no_panic_bind; [|auto with returns]. induction IH; returns.
  - apply no_panic_bind; [|done]. induction IH; returns.
Qed.
Hint Resolve expr_type_returns : returns.

Lemma check_field_path_returns disp e locals ty path :
  no_panic (check_field_path tc fn disp e locals ty path).
Proof. revert ty. induction path; intros ty; simpl; returns. Qed.
Lemma bind_struct_returns n fields bs locals : no_panic (bind_struct fn n fields bs locals).
Proof. revert locals. induction bs as [|[]]; intros; simpl; returns. Qed.
Hint Resolve check_field_path_returns bind_struct_returns : returns.

Lemma check_stmt_returns s locals : no_panic (check_stmt tc fn ret s locals).
Proof.
  revert locals. induction s as [x e|x e|e|e|c body eb IHb IHe|x p e|xs e|n bs e r] using Stmt.ind';
    intros locals; simpl; try solve [returns].
  match goal with |- context [?f body locals] => set (go := f) end.
  assert (∀ l, Forall (λ s, ∀ locals, no_panic (check_stmt tc fn ret s locals)) l →
    ∀ locals, no_panic (go l locals)) as Hgo.
  { induction 1; intros; simpl; returns. }
  destruct eb; returns.
Qed.
Lemma check_stmts_returns l locals : no_panic (check_stmts tc fn ret l locals).
Proof.
  revert locals. induction l as [|s l IH]; intros; simpl; [done|].
  apply no_panic_bind; [apply check_stmt_returns|auto].
Qed.
End checker.

Lemma check_returns `{PrefixHex, HashOrder} da dm structs sigs params rets fns :
  no_panic (check da dm structs sigs params rets fns).
Proof.
  unfold check, check_source_function. apply no_panic_for_each. intros f _.
  apply no_panic_bind; [apply check_stmts_returns|done].
Qed.

(** ** The code generator *)

Section codegen.
Context `{PrefixHex} (config : CompilerConfig) (structs : list StructDef).
Context (da : gmap string Address) (dm : gmap Address VmModule) (rets : gmap string (option Ty.t)).

Lemma alloc_local_returns name st : no_panic (alloc_local config name st).
Proof. unfold alloc_local. returns. Qed.
Lemma translate_name_returns name : no_panic (translate_name da name).
Proof. unfold translate_name. returns. Qed.
Hint Resolve alloc_local_returns translate_name_returns : returns.
Lemma translate_type_returns ty : no_panic (translate_type da ty).
Proof.
  revert ty. fix IH 1. intros [| | | |n|types]; simpl; try done; [returns|].
  apply no_panic_fmap. induction types as [|t types IHt]; [done|].
  apply no_panic_bind; [apply IH|intros]. by apply no_panic_bind; [apply IHt|].
Qed.
Lemma check_fn_visibility_returns name : no_panic (check_fn_visibility da dm name).
Proof. unfold check_fn_visibility. returns. Qed.
(** *** Indexing and unwrapping *)
Lemma index_returns {A} (l : list A) i : i < length l → no_panic (index l i).
Proof. unfold index. intros [x ->]%lookup_lt_is_Some. done. Qed.
Lemma unwrap_returns {A} (o : option A) : is_Some o → no_panic (unwrap o).
Proof. by intros [x ->]. Qed.
Lemma map_index_returns {A} (m : gmap nat A) k : is_Some (m !! k) → no_panic (map_index m k).
Proof. unfold map_index. by intros [x ->]. Qed.
Lemma index_cons_returns {A} (x : A) l : no_panic (index (x :: l) 0).
Proof. done. Qed.
Lemma unwrap_last_returns {A} (x : A) l : no_panic (unwrap (list.last (x :: l))).
Proof. apply unwrap_returns, last_is_Some. done. Qed.
Hint Resolve index_cons_returns unwrap_last_returns : returns.
#[local] Arguments index : simpl never.
#[local] Arguments unwrap : simpl never.

Lemma check_get_field_returns ty f path : no_panic (check_get_field structs ty (f :: path)).
Proof. unfold check_get_field, check_field_read, check_getfield_on_struct. returns. Qed.
Lemma compile_ident_returns name st : no_panic (compile_ident name st).
Proof. unfold compile_ident. returns. Qed.
Lemma compile_load_field_returns slot f path st :
  no_panic (compile_load_field structs slot (f :: path) st).
Proof. unfold compile_load_field, check_field_read. returns. Qed.
Lemma compile_fields_returns name lit names st :
  (∀ f c, (f, c) ∈ lit → ∀ st, no_panic (c st)) → no_panic (compile_fields name lit names st).
Proof.
  revert lit st. induction names as [|f names IH]; intros lit st Hl; simpl; [done|].
  apply no_panic_bind; [apply no_panic_ok_or|intros c Hc%ok_or_Ok%collect_map_elem].
  apply no_panic_bind; [by eapply Hl|intros]. apply IH. intros g d [_ Hd]%list_elem_of_filter. eauto.
Qed.
Hint Resolve translate_type_returns check_fn_visibility_returns check_get_field_returns
  compile_ident_returns compile_load_field_returns : returns.

#[local] Arguments check_get_field : simpl never.
#[local] Arguments infer_type : simpl never.
Notation compile_path := (compile_path config structs da dm rets).
Lemma compile_path_returns e path st : no_panic (compile_path e path st).
Proof.
  revert path st.
  induction e as [b|n|a|s|x|l op r IHl IHr|e f IHe|n fs IH|n args IH|items IH|[] e IHe]
    using Expr.ind'; intros path st; simpl; try apply IHe;
    try solve [destruct path; returns];
    (apply no_panic_bind; [destruct path; returns|intros _ _]); (apply no_panic_bind; [|done]);
    try solve [returns].
  - apply no_panic_bind; [returns|intros _ _].
    apply no_panic_bind; [returns|intros def _]. apply no_panic_bind; [|returns].
    apply compile_fields_returns. intros f c Hc.
    apply list_elem_of_fmap in Hc as (g & [= -> ->] & Hg). by eapply list.Forall_forall in IH.
  - apply no_panic_bind; [returns|intros _ _]. apply no_panic_bind; [|returns].
    revert st. induction IH; intros; returns.
  - apply no_panic_bind; [returns|intros _ _]. apply no_panic_bind; [|returns].
    revert st. induction IH; intros; returns.
Qed.
Lemma compile_expr_returns e st : no_panic (compile_expr config structs da dm rets e st).
Proof. apply compile_path_returns. Qed.

(** The binding that is reported holds a struct. *)
Lemma first_leak_type leaks st x slot :
  first_leak leaks st = Some (x, slot) → is_Some (cg_types st !! slot).
Proof.
  intros [Hx _]%find_first_Some. apply list_elem_of_filter in Hx as [Hx _].
  simpl in Hx. apply Is_true_true, andb_prop in Hx as [_ Hx]. unfold holds_struct in Hx.
  by destruct (cg_types st !! slot).
Qed.
Lemma consumed_returns name st : no_panic (check_all_structs_consumed name st).
Proof.
  unfold check_all_structs_consumed. destruct (first_leak _ st) as [[x slot]|] eqn:Hl; [|done].
  apply no_panic_bind; [|done]. by eapply map_index_returns, first_leak_type.
Qed.
Lemma branch_consumed_returns outer branch st :
  no_panic (check_branch_structs_consumed outer branch st).
Proof. unfold check_branch_structs_consumed. returns. Qed.
Lemma bind_elements_returns i names types st :
  (∀ l, types = Some l → i + length names = length l) →
  no_panic (bind_elements config i names types st).
Proof.
  revert i st. induction names as [|x names IH]; intros i st Hl; simpl in *; [done|].
  apply no_panic_bind; [returns|intros [slot st1] _]. apply no_panic_bind.
  - destruct types as [l|]; [|done]. apply no_panic_bind; [|done]. apply index_returns.
    specialize (Hl l eq_refl). lia.
  - intros st2 _. apply IH. intros l Ht. specialize (Hl l Ht). lia.
Qed.

(** The unwrap of the field definition. *)
Lemma find_field_def_Some def f : f ∈ map fd_name (sd_fields def) → is_Some (find_field_def def f).
Proof.
  unfold find_field_def. intros (d & -> & Hd)%list_elem_of_fmap.
  induction (sd_fields def) as [|d' l IH]; [by apply not_elem_of_nil in Hd|]. simpl.
  destruct (String.eqb _ _) eqn:Heq; [by eexists|]. apply elem_of_cons in Hd as [->|Hd]; [|auto].
  by rewrite String.eqb_refl in Heq.
Qed.
Lemma bind_fields_returns def n m names st :
  (∀ f, f ∈ names → f ∈ map fd_name (sd_fields def)) → no_panic (bind_fields config def n m names st).
Proof.
  revert st. induction names as [|f names IH]; intros st Hn; simpl; [done|].
  destruct (find_field_def_Some def f) as [d ->]; [apply Hn; by left|]. simpl.
  apply no_panic_bind; [returns|]. intros. apply IH. intros g Hg. apply Hn. by right.
Qed.
Hint Resolve compile_expr_returns consumed_returns branch_consumed_returns : returns.

Notation compile_stmt := (compile_stmt config structs da dm rets).
Notation compile_stmts := (compile_stmts config structs da dm rets).
Notation cg_ok := (cg_ok config).

(** Patching an instruction that was emitted before the code grew. *)
Lemma patch_returns at_ i st : at_ < length (cg_code st) → no_panic (patch at_ i st).
Proof. intros Hat. unfold patch. apply no_panic_bind; [by apply index_returns|done]. Qed.
Lemma compile_stmts_grows l st st' :
  cg_ok st → compile_stmts l st = Ok st' → length (cg_code st) ≤ length (cg_code st').
Proof.
  intros Hok Hc. apply compile_stmts_shape in Hc; [|done].
  destruct (se_code _ _ _ Hc) as (new & -> & _). rewrite length_app. lia.
Qed.

(** A statement, or a list of them, whose compilation does not panic. *)
Definition stmt_returns (f : Codegen → CResult Codegen) : Prop := ∀ st, cg_ok st → no_panic (f st).
Lemma compile_stmts_returns_all l :
  Forall (λ s, stmt_returns (compile_stmt s)) l → stmt_returns (compile_stmts l).
Proof.
  induction 1 as [|s l Hs _ IH]; intros st Hok; simpl; [done|].
  apply no_panic_bind; [auto|]. intros st1 H1. apply IH. by eapply se_ok, compile_stmt_ok.
Qed.

Lemma if_returns c body eb :
  stmt_returns (compile_stmts body) → stmt_returns (compile_stmts (default [] eb)) →
  stmt_returns (compile_stmt (Stmt.If c body eb)).
Proof.
  intros Hb He st Hok. cbn [Codegen.compile_stmt].
  apply no_panic_bind; [returns|]. intros st1 H1. apply compile_expr_effect in H1; [|done].
  pose proof (expr_effect_ok config _ _ H1 Hok) as Hok1.
  assert (cg_ok (enter_scope (then_start st1))) as Hok1' by (split; apply Hok1).
  apply no_panic_bind.
  { apply no_panic_bind; [rewrite compile_stmts_go; by apply Hb|returns]. }
  intros st2' H2. apply bind_Ok in H2 as (st2 & H2 & H2'). rewrite compile_stmts_go in H2.
  apply bind_Ok in H2' as ([] & _ & [= <-]). pose proof (compile_stmts_grows _ _ _ Hok1' H2) as Hlen.
  simpl in Hlen. rewrite length_app in Hlen. simpl in Hlen.
  apply compile_stmts_shape in H2; [|done].
  destruct (leave_scope_ok config (then_start st1) st2 H2) as (Hok2 & _); [by split; apply Hok1|].
  apply no_panic_bind; [|done]. destruct eb as [es|]; [|apply patch_returns; simpl; lia].
  apply no_panic_bind; [apply patch_returns; simpl; rewrite length_app; simpl; lia|].
  intros st2' ->%patch_Ok.
  assert (cg_ok (enter_scope (else_start st1 st2))) as Hok2' by (split; apply Hok2).
  apply no_panic_bind.
  { apply no_panic_bind; [rewrite compile_stmts_go; by apply He|returns]. }
  intros st3' H3. apply bind_Ok in H3 as (st3 & H3 & H3'). rewrite compile_stmts_go in H3.
  apply bind_Ok in H3' as ([] & _ & [= <-]). pose proof (compile_stmts_grows _ _ _ Hok2' H3) as Hlen3.
  simpl in Hlen3. rewrite length_insert, length_app in Hlen3. simpl in Hlen3.
  apply patch_returns. simpl. lia.
Qed.

Lemma compile_stmt_returns s : wf_stmt s = true → stmt_returns (compile_stmt s).
Proof.
  induction s as [x e|x e|e|e|c body eb IHb IHe|x p e|xs e|n bs e r] using Stmt.ind';
    intros Hwf st Hok; cbn [Codegen.compile_stmt]; try solve [returns].
  - simpl in Hwf. apply andb_prop in Hwf as [[_ Hb]%andb_prop Heb].
    apply if_returns; [| |done]; apply compile_stmts_returns_all, list.Forall_forall.
    + intros s Hs. rewrite list.Forall_forall in IHb. apply IHb; [done|].
      eapply forallb_forall in Hb; [done|by apply list_elem_of_In].
    + intros s Hs. rewrite list.Forall_forall in IHe. apply IHe; [done|].
      destruct eb as [es|]; [|by apply not_elem_of_nil in Hs].
      eapply forallb_forall in Heb; [done|by apply list_elem_of_In].
  - destruct p as [|f p]; simpl in Hwf; [by rewrite andb_false_r in Hwf|].
    unfold check_field_write. returns.
  - apply no_panic_bind; [returns|intros _ _]. apply no_panic_bind; [returns|intros st1 _].
    apply bind_elements_returns. intros l Hl. repeat case_match; simplify_eq. by rewrite bool_decide_eq_true in *.
  - apply no_panic_bind; [returns|intros def _]. apply no_panic_bind; [returns|intros _ _].
    apply no_panic_bind; [returns|intros _ _]. apply no_panic_bind; [returns|intros st' _].
    apply no_panic_bind; [returns|intros tn _]. by apply bind_fields_returns.
Qed.
Lemma compile_stmts_returns l : forallb wf_stmt l = true → stmt_returns (compile_stmts l).
Proof.
  intros Hl. apply compile_stmts_returns_all, list.Forall_forall. intros s Hs.
  apply compile_stmt_returns. eapply forallb_forall in Hl; [done|by apply list_elem_of_In].
Qed.
Lemma compile_params_returns fn params st : no_panic (compile_params config da fn params st).
Proof. revert st. induction params as [|[]]; intros; simpl; returns. Qed.
Lemma compile_function_returns f :
  forallb wf_stmt (af_body f) = true → no_panic (compile_function config structs da dm rets f).
Proof.
  intros Hf. unfold compile_function, compile_body. pose proof compile_params_returns.
  apply no_panic_bind; [|returns].
  apply no_panic_bind; [returns|intros _ _]. apply no_panic_bind; [returns|intros _ _].
  apply no_panic_bind; [auto|intros [params st] Hp]. apply no_panic_bind; [returns|intros rt _].
  apply no_panic_bind; [|returns]. apply compile_stmts_returns; [done|].
  apply compile_params_ok in Hp as (He & _); [by eapply se_ok|apply codegen_new_ok].
Qed.
End codegen.

(** ** The entry point *)
Section compile.
Context `{PrefixHexLaws, HashOrder, ChumskyLaws} (deps : list (Address * VmModule)).
Context (config : CompilerConfig).

Lemma collect_uses_returns items us : no_panic (collect_uses items us).
Proof. revert us. induction items as [|[]]; intros; simpl; returns. Qed.
Lemma check_dep_addresses_returns seen l : no_panic (check_dep_addresses seen l).
Proof. revert seen. induction l as [|[]]; intros; simpl; returns. Qed.
Lemma resolve_uses_returns us m l : no_panic (resolve_uses deps config us m l).
Proof. revert m l. induction us as [|[[]]]; intros; simpl; returns. Qed.
Lemma compile_functions_returns compile fns :
  (∀ f, f ∈ fns → no_panic (compile f)) → no_panic (compile_functions compile fns).
Proof.
  induction fns as [|f fns IH]; intros Hf; simpl; [done|].
  apply no_panic_bind; [by apply Hf; left|intros].
  apply no_panic_bind; [|done]. apply IH. intros g Hg. apply Hf. by right.
Qed.
Hint Resolve collect_uses_returns check_dep_addresses_returns resolve_uses_returns check_returns
  : returns.

Lemma item_fns_wf items f :
  forallb wf_item items = true → f ∈ item_fns items → forallb wf_stmt (af_body f) = true.
Proof.
  intros Hwf Hf. apply list_elem_of_omap in Hf as ([| | |g] & Hi & [= ->]).
  eapply forallb_forall in Hwf; [|by apply list_elem_of_In].
  simpl in Hwf. by apply andb_prop in Hwf as [_ ?].
Qed.
Lemma compile_items_returns items name us sigs :
  forallb wf_item items = true → no_panic (compile_items deps config items name us sigs).
Proof.
  intros Hwf. unfold compile_items, check_limit.
  repeat first [apply no_panic_bind; [solve [returns]|intros ? ?]|case_match].
  apply no_panic_bind; [|done]. apply compile_functions_returns.
  intros f Hf. apply compile_function_returns. by eapply item_fns_wf.
Qed.
Lemma parse_items_returns source : no_panic (parse_items source).
Proof. unfold parse_items. returns. Qed.
Hint Resolve parse_items_returns : returns.

Lemma compile_returns source sigs : no_panic (compile deps config source sigs).
Proof.
  unfold compile. apply no_panic_bind; [unfold parse_and_extract; simpl; returns|].
  intros [[items name] us] Hp. apply compile_items_returns.
  unfold parse_and_extract in Hp. simpl in Hp. inv_outcome Hp.
  apply map_err_Ok in Hp0. by eapply parse_wf.
Qed.
End compile.
