(* ===== verification/Builder.v ===== *)
(** * The module builder

    Models [builder/mod.rs] and [builder/error.rs] of [meow-vm-adapter]: the
    compiler with the chain's configuration, behind limits on the size of the
    source and of the serialized module.  The size that [bcs] gives a module
    and the content of files are parameters.  Sources are ASCII: the length of a
    text is its size in bytes. *)

From S2P Require Import Prelude Address VmTypes Ast ChainTypes Context.
From S2P Require Import Chumsky TypeChecker Compiler.

Module BuilderError.
Inductive t :=
  | CompileError (e : CompilerError.t)
  | IoError (msg : string)
  | ModuleTooLarge (size limit : Z)
  | SourceTooLarge (size limit : Z).
End BuilderError.
Notation BResult A := (outcome BuilderError.t A).

Definition MAX_SOURCE_SIZE : Z := 64 * 1024.

Section builder.
Context `{PrefixHex, HashOrder, Chumsky} (module_size : VmModule → Z).

Definition check_source_size (size : Z) : BResult () :=
  guard_err (bool_decide (MAX_SOURCE_SIZE < size)%Z)
    (BuilderError.SourceTooLarge size MAX_SOURCE_SIZE).
Definition source_size (source : string) : Z := Z.of_nat (String.length source).

(** [extract_module_deps]. *)
Definition extract_module_deps (source : string) : BResult (list UseDecl) :=
  check_source_size (source_size source) ;;
  map_err BuilderError.CompileError (extract_deps source).

(** [compile]. *)
Definition compile_with_limit (source : string) (deps : list (Address * VmModule))
  : BResult VmModule :=
  module ← map_err BuilderError.CompileError
             (compile deps compiler_config source adapter_native_sigs_for_compiler);
  guard_err (bool_decide (MAX_BCS_SERIALIZED_MODULE_SIZE < module_size module)%Z)
    (BuilderError.ModuleTooLarge (module_size module) MAX_BCS_SERIALIZED_MODULE_SIZE) ;;
  Ok module.

(** [build]. *)
Definition build (source : string) (deps : list (Address * VmModule)) : BResult VmModule :=
  check_source_size (source_size source) ;;
  compile_with_limit source deps.

(** [read_source_file], [build_from_file]: a file is its size and its text. *)
Definition SourceFile : Type := outcome string (Z * outcome string string).
Definition read_source_file (file : SourceFile) : BResult string :=
  '(file_size, content) ← map_err BuilderError.IoError file;
  check_source_size file_size ;;
  map_err BuilderError.IoError content.
Definition build_from_file (file : SourceFile) (deps : list (Address * VmModule))
  : BResult VmModule :=
  source ← read_source_file file;
  build source deps.
End builder.
