(* ===== verification/FrameworkModules.v ===== *)
(** * The framework modules

    Models [meow-framework]: the sources of the two modules of the system, as
    the crate embeds them, and the functions that build them and wrap them as
    objects.  A quotation mark in a source is spliced in as a character. *)

From S2P Require Import Prelude Address VmTypes ChainTypes Convert Framework Context.
From S2P Require Import Text Chumsky Grammar TypeChecker Compiler Builder Resolvers.

(** [modules/meow_object.meow]. *)
Definition MEOW_OBJECT_SOURCE : string :=
  "//! meow_object — The built-in object identity module.
//!
//! Published at the fixed address 0x10.
//!
//! Every on-chain object must have an `id: meow_object::Id` field as its
//! first field. The adapter uses this layout to identify structs that are
//! objects vs plain data structs.
//!
//! Object IDs are opaque wrappers around a 32-byte address. They are created
//! exclusively by `meow_vm_fresh_id()` — no other way to construct one is
//! available — which guarantees that every object gets a unique, unforgeable
//! identity derived from the transaction digest.

mod meow_object;

/// The unique identity of an on-chain object.
///
/// Wrap an `address` produced by `meow_vm_fresh_id()`. Treat this as an
/// opaque token: the inner address is not meant to be read or manipulated
/// directly by user code.
pub struct Id {
    inner: address
}
".

(** [modules/meow_coin.meow]. *)
Definition MEOW_COIN_SOURCE : string :=
  "//! meow_coin — The built-in Meow Coin module.
//!
//! Meow Coin is the native coin of MEOW. It is defined here and published at genesis
//! at the fixed address 0x20. Every genesis allocation creates one MeowCoin object
//! whose balance equals the allocated amount.
//!
//! All functions except mint are public and callable from transactions.
//! mint is private: it can only be invoked at genesis to create the initial supply.

mod meow_coin;

use meow_object@0x10;

/// A single Meow Coin.
pub struct MeowCoin {
    id: meow_object::Id,
    balance: u64
}

/// A bare coin amount that can be embedded as a field in other on-chain objects.
pub struct MeowCoinBalance {
    amount: u64
}

/// Creates a new `MeowCoin` with the given `balance` and transfers it to `owner`.
/// Private: callable only at genesis, not from user transactions.
fn mint(balance: u64, owner: address) {
    let coin = MeowCoin {
        id: meow_vm_fresh_id(),
        balance: balance
    };
    meow_vm_transfer(coin, owner);
}

/// Returns the `coin` and its balance.
/// Use this to read the balance without consuming the coin.
pub fn balance(coin: MeowCoin) -> (MeowCoin, u64) {
    let b = coin.balance;
    (coin, b)
}

/// Permanently destroys `coin`, removing it from chain state.
/// The balance is irrecoverably lost.
pub fn burn(coin: MeowCoin) {
    let MeowCoin { id, .. } = coin;
    meow_vm_destroy(id);
}

/// Transfers the whole `coin` to a new owner.
pub fn transfer(coin: MeowCoin, to: address) {
    meow_vm_transfer(coin, to);
}

/// Merges `from` into `to`: adds `from.balance` to `to.balance`, destroys `from`,
/// then transfers `to` to `recipient`.
pub fn merge_and_transfer(from: MeowCoin, to: MeowCoin, recipient: address) {
    to.balance = to.balance + from.balance;

    let MeowCoin { id, .. } = from;

    meow_vm_destroy(id);
    meow_vm_transfer(to, recipient);
}

/// Merges `from` into `to` and sends the result to the transaction sender.
/// Both coins must be owned by the transaction sender.
pub fn merge(from: MeowCoin, to: MeowCoin) {
    merge_and_transfer(from, to, meow_vm_sender());
}

/// Splits `amount` out of `from` and sends the new coin to `to`.
/// `from` is returned to the transaction sender with its balance reduced by `amount`.
/// Aborts with code `1` if `from.balance` < `amount`.
pub fn split_and_transfer(from: MeowCoin, amount: u64, to: address) {
    meow_vm_abort(from.balance >= amount, 1, " +:+ String quote (
  "The balance is insufficient" +:+ String quote (
  ");

    from.balance = from.balance - amount;

    let coin = MeowCoin {
        id: meow_vm_fresh_id(),
        balance: amount
    };

    meow_vm_transfer(coin, to);
    meow_vm_transfer(from, meow_vm_sender());
}

/// Splits `amount` out of `from` and sends the new coin to the transaction sender.
/// `from` is also returned to the transaction sender with its balance reduced by `amount`.
/// Aborts with code `1` if `from.balance` < `amount`.
pub fn split(from: MeowCoin, amount: u64) {
    split_and_transfer(from, amount, meow_vm_sender());
}

/// Converts `coin` to a `MeowCoinBalance` instance.
pub fn to_balance(coin: MeowCoin) -> MeowCoinBalance {
    let MeowCoin { id, balance } = coin;
    meow_vm_destroy(id);

    MeowCoinBalance { amount: balance }
}

/// Converts `balance` to a `MeowCoin` instance.
pub fn from_balance(balance: MeowCoinBalance) -> MeowCoin {
    let MeowCoinBalance { amount } = balance;

    MeowCoin {
        id: meow_vm_fresh_id(),
        balance: amount
    }
}
")).

(** ** Building ([lib.rs]) *)

(** [bcs::to_bytes] and [bcs::serialized_size] of a module. *)
Class ModuleBytes := { bcs_module : VmModule → list Z }.
Definition module_size `{ModuleBytes} (m : VmModule) : Z := Z.of_nat (length (bcs_module m)).

Section framework.
Context `{PrefixHex, HashOrder, Chumsky, ModuleBytes}.

(** [Result::expect]. *)
Definition expect_built {E} (r : BResult VmModule) (msg : string) : outcome E VmModule :=
  match r with Ok m => Ok m | Err _ | Panic _ => Panic msg | NoFuel => NoFuel end.

(** [meow_object_module], [build_meow_coin], [meow_coin_module]. *)
Definition meow_object_module {E} : outcome E VmModule :=
  expect_built (build module_size MEOW_OBJECT_SOURCE []) "meow_object source must compile".
Definition build_meow_coin {E} (meow_object : VmModule) : outcome E VmModule :=
  expect_built (build module_size MEOW_COIN_SOURCE [(MEOW_OBJECT_MODULE_ADDRESS, meow_object)])
    "meow_coin source must compile".
Definition meow_coin_module {E} : outcome E VmModule :=
  meow_object ← meow_object_module;
  build_meow_coin meow_object.

(** [module_object]: no transaction published it. *)
Definition module_object (address : Address) (module : VmModule) : Object :=
  fresh_module address digest_ZERO (bcs_module module).

(** [meow_object_module_object], [meow_coin_module_object]; the entries pair
    them with their addresses. *)
Definition meow_object_module_object {E} : outcome E Object :=
  module_object MEOW_OBJECT_MODULE_ADDRESS <$> meow_object_module.
Definition meow_coin_module_object {E} : outcome E Object :=
  module_object MEOW_COIN_MODULE_ADDRESS <$> meow_coin_module.
Definition meow_object_module_entry {E} : outcome E (Address * Object) :=
  module ← meow_object_module;
  Ok (MEOW_OBJECT_MODULE_ADDRESS, module_object MEOW_OBJECT_MODULE_ADDRESS module).
Definition meow_coin_module_entry {E} : outcome E (Address * Object) :=
  module ← meow_coin_module;
  Ok (MEOW_COIN_MODULE_ADDRESS, module_object MEOW_COIN_MODULE_ADDRESS module).

(** [framework_module_entries], [framework_module_objects]. *)
Definition framework_module_entries {E} : outcome E (list (Address * Object)) :=
  meow_object ← meow_object_module;
  meow_coin ← build_meow_coin meow_object;
  Ok [(MEOW_OBJECT_MODULE_ADDRESS, module_object MEOW_OBJECT_MODULE_ADDRESS meow_object);
      (MEOW_COIN_MODULE_ADDRESS, module_object MEOW_COIN_MODULE_ADDRESS meow_coin)].
Definition framework_module_objects {E} : outcome E (list Object) :=
  map snd <$> framework_module_entries.
End framework.
