(* ===== verification/CompilerExamples.v ===== *)
(** * Sources that the compiler is run on

    The module [bank] defines a struct with [mint] and [burn]; [main] uses it
    across the module boundary, after a branch.  The syntax trees compile, the
    modules pass the bytecode verifier and run on the machine.  Five more
    functions compile, but to code that the verifier rejects; a module fails to
    compile because of the name of its struct. *)

From S2P Require Import Prelude Address HexInstance VmTypes Gas Vm VmProps VerifierStructural.
From S2P Require Import VerifierAbstract VmExamples Ast CompilerValidator TypeChecker Compiler.
From S2P Require Import Context SourceSemantics.

(** One order of iteration. *)
Global Instance std_hash_order : HashOrder := {| hash_iter m := map_to_list m |}.
Global Instance std_hash_order_laws : HashOrderLaws.
Proof. by split. Qed.

Notation ast_fn name params ret body := (mkAstFunction true name params ret body).

Definition mint_ast : AstFunction :=
  ast_fn "mint" [("v", Ty.U64)] (Some (Ty.Struct "Coin"))
    [Stmt.Return (Some (Expr.StructLit "Coin" [("value", Expr.Ident "v")]))].
Definition burn_ast : AstFunction :=
  ast_fn "burn" [("c", Ty.Struct "Coin")] (Some Ty.U64)
    [Stmt.LetStruct "Coin" [("value", "value")] (Expr.Ident "c") false;
     Stmt.Return (Some (Expr.Ident "value"))].
Definition bank_items : list AstItem :=
  [ItemModuleDecl "bank"; ItemStruct (mkAstStruct true "Coin" [("value", Ty.U64)]);
   ItemFn mint_ast; ItemFn burn_ast].

(** [let m = x; if x < y { m = y; } else { let z = m; m = z; }
     let c = bank::mint(m); return bank::burn(c);] *)
Definition max_burn_ast : AstFunction :=
  ast_fn "max_burn" [("x", Ty.U64); ("y", Ty.U64)] (Some Ty.U64)
    [Stmt.Let "m" (Expr.Ident "x");
     Stmt.If (Expr.BinOp (Expr.Ident "x") BinOp.Lt (Expr.Ident "y"))
       [Stmt.Reassign "m" (Expr.Ident "y")]
       (Some [Stmt.Let "z" (Expr.Ident "m"); Stmt.Reassign "m" (Expr.Ident "z")]);
     Stmt.Let "c" (Expr.Call "bank::mint" [Expr.Ident "m"]);
     Stmt.Return (Some (Expr.Call "bank::burn" [Expr.Ident "c"]))].
Definition main_uses : list UseDecl := [("bank", None, bank_addr)].
Definition main_items : list AstItem :=
  [ItemModuleDecl "main"; ItemUse "bank" bank_addr None; ItemFn max_burn_ast].

Definition compiled_bank : VmModule :=
  Eval vm_compute in
    match compile_items [] CompilerConfig_default bank_items "bank" [] [] with
    | Ok m => m
    | _ => bank
    end.
Definition compiled_main : VmModule :=
  Eval vm_compute in
    match compile_items [(bank_addr, compiled_bank)] CompilerConfig_default main_items "main"
            main_uses [] with
    | Ok m => m
    | _ => bank
    end.

Lemma bank_compiles :
  compile_items [] CompilerConfig_default bank_items "bank" [] [] = Ok compiled_bank.
Proof. vm_compute. reflexivity. Qed.
Lemma main_compiles :
  compile_items [(bank_addr, compiled_bank)] CompilerConfig_default main_items "main" main_uses []
  = Ok compiled_main.
Proof. vm_compute. reflexivity. Qed.

Definition compiled_deps : gmap Address VmModule := {[ bank_addr := compiled_bank ]}.
Definition compiled_vm : Vm () :=
  mkVm compiled_main main_addr compiled_deps {[ MEOW_VM_ABORT := meow_vm_abort_entry ]}
    GasSchedule_default VmConfig_default.
Lemma compiled_vm_wf : wf_vm compiled_vm.
Proof. split; [apply GasSchedule_default_wf|]. by apply map_Forall_singleton. Qed.
Lemma compiled_verified :
  verify compiled_bank ∅ [] CompilerConfig_default = Ok () ∧
  verify compiled_main compiled_deps [] CompilerConfig_default = Ok ().
Proof. by vm_compute. Qed.
Lemma compiled_max_burn :
  fst (call compiled_vm 60 "max_burn" [Value.U64 3; Value.U64 7] (gas_new 1000, tt)) =
  Ok (Some (Value.U64 7)).
Proof. vm_compute. reflexivity. Qed.

(** ** Functions that compile but do not verify *)

(** A lone function, with the natives of the adapter. *)
Definition compile_alone (fn : AstFunction) : outcome CompilerError.t VmModule :=
  compile_items [] CompilerConfig_default [ItemModuleDecl "m"; ItemFn fn] "m" []
    adapter_native_sigs_for_compiler.
Definition verify_alone (m : VmModule) : outcome (list VerificationError.t) () :=
  verify m ∅ adapter_native_sigs CompilerConfig_default.

(** [fn guard(x: bool) { if x { return; } }] *)
Definition guard_ast : AstFunction :=
  ast_fn "guard" [("x", Ty.Bool)] None [Stmt.If (Expr.Ident "x") [Stmt.Return None] None].
(** [fn f() { nope(); }] *)
Definition unknown_call_ast : AstFunction := ast_fn "f" [] None [Stmt.Expr (Expr.Call "nope" [])].
(** [fn f() -> u64 { }] *)
Definition no_result_ast : AstFunction := ast_fn "f" [] (Some Ty.U64) [].
(** [fn f(a: u64, a: u64) { }] *)
Definition twice_ast : AstFunction := ast_fn "f" [("a", Ty.U64); ("a", Ty.U64)] None [].

(** [fn f() { let id = meow_vm_fresh_id(); }] *)
Definition leak_ast : AstFunction :=
  ast_fn "f" [] None [Stmt.Let "id" (Expr.Call "meow_vm_fresh_id" [])].

(** What the verifier says of the compiled function. *)
Definition compile_then_verify (fn : AstFunction) : option (outcome (list VerificationError.t) ()) :=
  match compile_alone fn with Ok m => Some (verify_alone m) | _ => None end.

(** ** A name that clashes *)

(** The module [lib] has structs [A { x: B }] and [B { n: u64 }].  A struct with
    one field of type [lib::A], in a module that uses [lib]. *)
Definition lib : VmModule :=
  mkModule "lib" [] [mkStructDef "A" [mkFieldDef "x" (Ty.Struct "B")] true;
                     mkStructDef "B" [mkFieldDef "n" Ty.U64] true] [].
Definition wrapper_items (name : string) : list AstItem :=
  [ItemModuleDecl "m"; ItemUse "lib" bank_addr None;
   ItemStruct (mkAstStruct true name [("a", Ty.Struct "lib::A")])].
Definition compile_wrapper (name : string) : outcome CompilerError.t VmModule :=
  compile_items [(bank_addr, lib)] CompilerConfig_default (wrapper_items name) "m"
    [("lib", None, bank_addr)] [].
