(* ===== verification/CompilerCorrect.v ===== *)
(** * Correctness of the compiler

    The main theorems about [meow-vm-compiler], each with a concrete instance:
    compiled functions behave like their source, the shape of the code and what
    it guarantees on the machine, the dependencies of a compiled module,
    comments, functions that compile although they cannot be published, and
    structs that do not compile although they could. *)

From S2P Require Import Prelude Address HexInstance VmTypes Gas Vm VmProps VerifierStructural.
From S2P Require Import VerifierAbstract VerifierTyping VerifierSound.
From S2P Require Import Ast Dfs Worklist CompilerValidator TypeChecker Codegen.
From S2P Require Import CodegenProps SourceSemantics CodegenSim.
From S2P Require Import Compiler CompilerProps VmExamples CompilerExamples.

(** ** Semantics *)

(** C3: The compiler preserves meaning.  A call of a function of a compiled
    module gives what the reference interpreter gives on its syntax tree: the
    same result or error, the same gas and the same state of the natives
    (errors up to the slot number in their text).  The function has distinct
    parameter names and calls others with as many arguments as they take; the
    functions of the module have distinct names. *)
Theorem compiled_function_simulates {S} `{PrefixHex, HashOrder} deps config items name uses sigs m
    (vm : Vm S) addr depth F fuel fn args ω :
  compile_items deps config items name uses sigs = Ok m →
  (max_fun_code_size config < 2 ^ 31)%Z →
  NoDup (map af_name (item_fns items)) → fn ∈ item_fns items →
  NoDup (map fst (af_params fn)) →
  forallb (arity_ok_stmt vm (declared_addresses uses) m) (af_body fn) = true →
  length args = length (af_params fn) → depth < max_call_depth (vm_config vm) →
  Z.to_nat (max_fun_code_size config) + 1 + F ≤ fuel →
  let source_run :=
    eval_function vm (mod_structs m ++ dep_structs deps (declared_addresses uses))
      (declared_addresses uses) m addr depth F fn args ω in
  fst source_run ≠ NoFuel →
  erased_result (call_inner vm fuel (af_name fn) m addr args depth ω) = erased_result source_run.
Proof.
  intros Hc Hmax Hfns Hfn Hps Har Hlen Hd Hfuel source_run Hno.
  apply compile_items_inv in Hc.
  destruct (compiled_get_function _ _ _ _ _ _ Hc Hfns Hfn) as (f & Hget & Hf).
  pose proof Hf as (ps & rt & st & Hb & Hfeq & Hsize)%compile_function_inv.
  assert (length args ≤ fn_local_count f) as Hargs.
  { rewrite Hlen, Hfeq. by eapply params_local_count. }
  unfold call_inner, enter. rewrite bool_decide_eq_false_2 by lia. rewrite Hget. simpl.
  unfold mbind, VmM_bind, lift. rewrite bool_decide_eq_false_2 by lia.
  eapply function_sim; [exact Hf|done|done|done|done| |done]. lia.
Qed.

Definition max_burn_run : outcome VmError.t (option Value.t) * (GasMeter * ()) :=
  eval_function compiled_vm
    (mod_structs compiled_main ++
     dep_structs [(bank_addr, compiled_bank)] (declared_addresses main_uses))
    (declared_addresses main_uses) compiled_main main_addr 0 60 max_burn_ast
    [Value.U64 3; Value.U64 7] (gas_new 1000, tt).

Lemma compiled_function_simulates_witness :
  fst max_burn_run = Ok (Some (Value.U64 7)) ∧
  erased_result (call_inner compiled_vm
    (Z.to_nat (max_fun_code_size CompilerConfig_default) + 1 + 60) "max_burn" compiled_main
    main_addr [Value.U64 3; Value.U64 7] 0 (gas_new 1000, tt)) = erased_result max_burn_run.
Proof.
  split; [vm_compute; reflexivity|].
  apply (compiled_function_simulates [(bank_addr, compiled_bank)] CompilerConfig_default main_items
    "main" main_uses [] compiled_main compiled_vm main_addr 0 60 _ max_burn_ast
    [Value.U64 3; Value.U64 7] (gas_new 1000, tt)).
  - apply main_compiles.
  - reflexivity.
  - by apply (bool_decide_unpack _).
  - by left.
  - by apply (bool_decide_unpack _).
  - vm_compute. reflexivity.
  - reflexivity.
  - apply Nat.ltb_lt. reflexivity.
  - apply Nat.le_refl.
  - vm_compute. discriminate.
Defined.

(** ** The shape of the code *)

(** A compiled function is well-formed: it has at most [max_locals] slots
    and [max_fun_code_size] instructions, the last of which is a [Return];
    every slot that the code names exists; every jump goes forward and stays
    within the code or ends just behind it. *)
Lemma compiled_function_shape `{PrefixHex} config structs dep_addresses dep_modules returns fn f :
  compile_function config structs dep_addresses dep_modules returns fn = Ok f →
  (max_fun_code_size config < 2 ^ 31)%Z →
  fn_local_count f ≤ max_locals config ∧
  (Z.of_nat (length (fn_code f)) ≤ max_fun_code_size config)%Z ∧
  list.last (fn_code f) = Some Instruction.Return ∧
  ∀ i ins, fn_code f !! i = Some ins →
    match ins with
    | Instruction.Load s | Instruction.Store s | Instruction.LoadField s _
    | Instruction.StoreField s _ => s < fn_local_count f
    | Instruction.Jump o | Instruction.JumpIf o | Instruction.JumpIfNot o =>
        (0 < o)%Z ∧ (Z.of_nat i + o ≤ Z.of_nat (length (fn_code f)))%Z
    | _ => True
    end.
Proof.
  intros Hc Hmax. apply compile_function_inv in Hc as (ps & rt & st & Hb & -> & Hsize).
  apply compile_body_ok in Hb as [Heff _]. apply ensure_return_effect in Heff.
  pose proof (ensure_return_last st) as Hlast. pose proof (ensure_return_slots st) as Hslots.
  destruct Heff as [[_ Hm] _ _ (new & Hcode & Hf)]. simpl in *. rewrite Hslots in Hm, Hf.
  split_and!; [done..|]. intros i ins Hi. rewrite Hcode in Hi, Hsize |- *. apply Hf in Hi.
  destruct ins; try done; destruct Hi as (d & -> & Hd & Hle); fold (jump_over d);
    rewrite jump_over_eq by lia; lia.
Qed.

(** ** Termination *)

(** A module that came out of the compiler. *)
Definition compiled `{PrefixHex, HashOrder} (config : CompilerConfig) (m : VmModule) : Prop :=
  ∃ deps items name uses sigs, compile_items deps config items name uses sigs = Ok m.

Lemma compiled_code `{PrefixHex, HashOrder} config m :
  (max_fun_code_size config < 2 ^ 31)%Z → compiled config m →
  module_ok (λ c, code_at_most (Z.to_nat (max_fun_code_size config)) c ∧ forward_only c) m.
Proof.
  intros Hmax (deps & items & name & uses & sigs & Hc). apply compile_items_inv, cf_functions in Hc.
  apply list.Forall_forall. intros f [i Hf]%list_elem_of_lookup.
  destruct (Forall2_lookup_r _ _ _ _ _ Hc Hf) as (fn & _ & Hfn).
  apply compile_function_inv in Hfn as (ps & rt & st & Hb & -> & Hsize).
  apply compile_body_ok in Hb as [Heff _]. apply ensure_return_effect in Heff.
  destruct Heff as [_ _ _ (new & Hcode & Hfrag)]. simpl in *. split.
  - unfold code_at_most. lia.
  - rewrite Hcode in Hsize |- *. apply list.Forall_forall. intros ins [j Hj]%list_elem_of_lookup.
    apply Hfrag in Hj. destruct ins; try done; destruct Hj as (d & -> & Hd & Hle);
      fold (jump_over d); rewrite jump_over_eq by lia; lia.
Qed.

(** C28: Compiled code always terminates, without a gas limit and without the
    verifier: on a machine whose modules came out of the compiler, every call
    ends, because compiled jumps only go forward and calls are bounded by the
    call depth. *)
Theorem compiled_call_terminates {S} `{PrefixHex, HashOrder} config (vm : Vm S) fn args g s :
  wf_vm vm → (max_fun_code_size config < 2 ^ 31)%Z → compiled config (vm_module vm) →
  map_Forall (λ _, compiled config) (vm_deps vm) → wf_gas g →
  fst (call vm (fuel_by_depth (Z.to_nat (max_fun_code_size config)) (vm_config vm)) fn args (g, s))
  ≠ NoFuel.
Proof.
  intros Hvm Hmax Hm Hd Hg. apply call_finishes_by_depth; [done|by apply compiled_code| |done].
  intros a d Ha. apply compiled_code; [done|]. by apply (Hd a).
Qed.

Lemma compiled_call_terminates_witness :
  fst (call compiled_vm (fuel_by_depth (Z.to_nat (max_fun_code_size CompilerConfig_default))
    (vm_config compiled_vm)) "max_burn" [Value.U64 3; Value.U64 7] (gas_unlimited, tt)) ≠ NoFuel.
Proof.
  apply (compiled_call_terminates CompilerConfig_default compiled_vm).
  - apply compiled_vm_wf.
  - reflexivity.
  - do 5 eexists. apply main_compiles.
  - apply map_Forall_singleton. do 5 eexists. apply bank_compiles.
  - by apply gas_new_wf.
Defined.

(** ** Dependencies *)

Lemma compiled_structs_grounded `{PrefixHex, HashOrder} deps config items name uses sigs m s :
  compile_items deps config items name uses sigs = Ok m →
  s ∈ struct_defs (item_structs items) →
  Acc (flip (edge (referenced (struct_defs (item_structs items))
    (dep_structs deps (declared_addresses uses))))) (sd_name s).
Proof.
  intros [_ _ _ _ _ Hrefs _]%compile_items_inv. revert s.
  apply bind_Ok in Hrefs as ([] & _ & Hrefs). unfold detect_struct_cycles in Hrefs.
  destruct (struct_cycle_spec (struct_defs (item_structs items))
    (dep_structs deps (declared_addresses uses))) as ([x|] & He & Hs); rewrite He in Hrefs; done.
Qed.



(** ** Comments *)

(** Stripping comments keeps every position: the result has the length of
    the source, each character is kept or replaced by a blank, line breaks are
    kept, the result is what the rules for comments and strings say, and it has
    no comment left. *)
Lemma strip_line_comments_correct source :
  String.length (strip_line_comments source) = String.length source ∧
  (∀ i, String.get i (strip_line_comments source) = String.get i source ∨
    (String.get i (strip_line_comments source) = Some blank ∧
     String.get i source ≠ Some newline)) ∧
  (∀ out, strips InCode source out ↔ out = strip_line_comments source) ∧
  strip_line_comments (strip_line_comments source) = strip_line_comments source.
Proof.
  pose proof (strip_strips InCode source) as Hs.
  destruct (strips_positions _ _ _ Hs) as [Hl Hp]. split_and!; [done|done| |].
  - intros out. split; [by intros <-%strips_strip|by intros ->].
  - apply strips_strip. by apply strips_again in Hs as [? _].
Qed.

(** ** Code that cannot be published *)

(** *** An [if] at the end of a function *)

(** The verifier follows code that falls through, and never forgets a jump to
    the end. *)
Section follows.
Context `{PrefixHex} (func : Function) (m : VmModule).
Context (deps : gmap Address VmModule) (natives : list NativeSig).
Notation check_code := (check_code func m deps natives).
Notation check_instr := (check_instr func m deps natives).

Lemma check_instr_falls pc i st pending st' pending' e :
  falls_through i = true → check_instr pc i st pending = (st', pending', e) →
  reachable st' = reachable st ∧ pending' = pending.
Proof.
  intros Hi Hc. unfold VerifierAbstract.check_instr in Hc.
  assert (∃ e', check_simple func m deps natives pc i st = (st', e') ∧ pending' = pending)
    as (e' & Hs & ->).
  { destruct i; try done; destruct (check_simple _ _ _ _ _ _ _) as [st1 e1];
      injection Hc as -> -> ->; eauto. }
  apply check_simple_shape in Hs as [_ ?]; [done|by intros ->].
Qed.
Lemma check_code_falls pc c1 c2 st :
  Forall (λ i, falls_through i = true) c1 → reachable st = true →
  ∃ st1 e1, reachable st1 = true ∧
    check_code pc (c1 ++ c2) st ∅ =
    let '(st2, pending, e2) := check_code (pc + length c1) c2 st1 ∅ in (st2, pending, e1 ++ e2).
Proof.
  intros Hc. revert pc st. induction Hc as [|i c1 Hi _ IH]; intros pc st Hr.
  { exists st, []. rewrite Nat.add_0_r. split; [done|]. simpl. by destruct (check_code pc c2 st ∅) as [[]]. }
  cbn [app VerifierAbstract.check_code]. unfold apply_pending. rewrite lookup_empty, Hr.
  rewrite (delete_empty pc). destruct (check_instr pc i st ∅) as [[st1 p1] e1] eqn:Hin.
  apply check_instr_falls in Hin as [Hr1 ->]; [|done].
  destruct (IH (S pc) st1) as (st2 & e2 & Hr2 & ->); [congruence|].
  exists st2, (e1 ++ e2). split; [done|]. cbn [length]. rewrite Nat.add_succ_r, Nat.add_succ_l.
  destruct (check_code _ c2 st2 ∅) as [[st3 p3] e3]. by rewrite app_assoc.
Qed.

Lemma merge_at_keeps pending target st fn pending' e t :
  merge_at pending target st fn = (pending', e) → is_Some (pending !! t) → is_Some (pending' !! t).
Proof.
  unfold merge_at. intros Hm Ht.
  repeat case_match; simplify_eq; try done; rewrite lookup_insert_is_Some'; by right.
Qed.
Lemma check_instr_keeps pc i st pending st' pending' e t :
  check_instr pc i st pending = (st', pending', e) → is_Some (pending !! t) → is_Some (pending' !! t).
Proof.
  unfold VerifierAbstract.check_instr, schedule_jump. intros Hc Ht.
  repeat case_match; simplify_eq; try done; by eapply merge_at_keeps.
Qed.
Lemma check_code_keeps pc c st pending st' pending' e t :
  check_code pc c st pending = (st', pending', e) → pc + length c ≤ t →
  is_Some (pending !! t) → is_Some (pending' !! t).
Proof.
  revert pc st pending e. induction c as [|i c IH]; intros pc st pending e Hc Hle Ht; simpl in *.
  { by simplify_eq. }
  assert (is_Some (delete pc pending !! t)) as Ht' by (rewrite lookup_delete_ne by lia; done).
  destruct (apply_pending _ _ _ _) as [st1|err]; [|by simplify_eq].
  destruct (reachable st1); [|eapply IH; [exact Hc|lia|done]].
  destruct (check_instr pc i st1 (delete pc pending)) as [[st2 p2] e2] eqn:Hi.
  destruct (check_code (S pc) c st2 p2) as [[st3 p3] e3] eqn:Hc3. simplify_eq.
  eapply IH; [exact Hc3|lia|by eapply check_instr_keeps].
Qed.

(** A jump to the end that can be reached. *)
Lemma escaping_jump_reported pre off post :
  fn_code func = pre ++ Instruction.JumpIfNot off :: post → Forall (λ i, falls_through i = true) pre →
  (0 < off)%Z → (Z.of_nat (length pre) + off = Z.of_nat (length (fn_code func)))%Z →
  length (fn_params func) ≤ fn_local_count func →
  VerificationError.MissingReturn (fn_name func) ∈ check_function func m deps natives.
Proof.
  intros Hcode Hpre Hoff Hend Hlc. unfold check_function. rewrite bool_decide_false by lia.
  rewrite Hcode at 1.
  destruct (check_code_falls 0 pre (Instruction.JumpIfNot off :: post) (initial_state func))
    as (st1 & e1 & Hr & ->); [done..|].
  cbn [VerifierAbstract.check_code Nat.add]. unfold apply_pending. rewrite lookup_empty, Hr, delete_empty.
  cbn [VerifierAbstract.check_instr]. destruct (pop_expect _ _ _ _ _) as [st2 e2].
  unfold schedule_jump. rewrite bool_decide_true by done. rewrite Hend, Nat2Z.id.
  unfold merge_at. rewrite lookup_empty.
  destruct (check_code _ post st2 _) as [[st3 p3] e3] eqn:Hc.
  assert (is_Some (p3 !! length (fn_code func))) as Hp.
  { eapply check_code_keeps; [exact Hc| |by rewrite lookup_insert_eq].
    rewrite Hcode, length_app. simpl. lia. }
  apply elem_of_app. right. unfold check_end. rewrite (bool_decide_true _ Hp), orb_true_r. by left.
Qed.
End follows.

(** The code of a statement without a branch falls through. *)
Definition straight (s : Stmt.t) : bool :=
  match s with Stmt.If _ _ _ | Stmt.Return _ => false | _ => true end.

Section straight.
Context `{PrefixHex} (config : CompilerConfig) (structs : list StructDef).
Context (da : gmap string Address) (dm : gmap Address VmModule) (rets : gmap string (option Ty.t)).
Notation compile_expr := (compile_expr config structs da dm rets).
Notation compile_stmt := (compile_stmt config structs da dm rets).
Notation compile_stmts := (compile_stmts config structs da dm rets).
Notation cg_ok := (cg_ok config).

Lemma expr_then_plain e st st1 st2 i :
  cg_ok st → compile_expr e st = Ok st1 → cg_code st2 = cg_code st1 ++ [i] →
  falls_through i = true → extends_plain st st2.
Proof.
  intros Hok He Hc Hi. eapply extends_plain_trans; [by eapply ee_plain, compile_expr_effect|].
  exists [i]. by repeat constructor.
Qed.
Lemma compile_stmt_straight s st st' :
  straight s = true → cg_ok st → compile_stmt s st = Ok st' → extends_plain st st'.
Proof.
  intros Hs Hok Hc. destruct s as [x e|x e|e|e|c body eb|x p e|xs e|n bs e r]; try done;
    cbn [Codegen.compile_stmt] in Hc.
  - apply bind_Ok in Hc as (st1 & H1 & Hc). apply bind_Ok in Hc as ([slot st2] & Ha%alloc_code & Hc).
    eapply (expr_then_plain e st st1 _ (Instruction.Store slot) Hok H1); [|done]. injection Hc as <-.
    destruct (infer_type _ _ _ _ _ _); simpl; by rewrite Ha.
  - apply bind_Ok in Hc as (slot & _ & Hc). apply bind_Ok in Hc as ([] & _ & Hc).
    apply bind_Ok in Hc as (st1 & H1 & Hc).
    eapply (expr_then_plain e st st1 _ (Instruction.Store slot) Hok H1); [|done]. injection Hc as <-.
    by destruct (infer_type _ _ _ _ _ _).
  - apply bind_Ok in Hc as ([] & _ & Hc). apply bind_Ok in Hc as (st1 & H1 & Hc). injection Hc as <-.
    by eapply (expr_then_plain e st st1 _ Instruction.Pop Hok H1).
  - apply bind_Ok in Hc as (slot & _ & Hc). apply bind_Ok in Hc as (first & _ & Hc).
    apply bind_Ok in Hc as ([] & _ & Hc). apply bind_Ok in Hc as ([] & _ & Hc).
    apply bind_Ok in Hc as (st1 & H1 & Hc). injection Hc as <-.
    by eapply (expr_then_plain e st st1 _ (Instruction.StoreField slot p) Hok H1).
  - apply bind_Ok in Hc as ([] & _ & Hc). apply bind_Ok in Hc as (st1 & H1 & Hc).
    eapply extends_plain_trans; [|by eapply bind_elements_plain].
    by eapply (expr_then_plain e st st1 _ (Instruction.UnpackTuple (length xs)) Hok H1).
  - apply bind_Ok in Hc as (def & _ & Hc). apply bind_Ok in Hc as ([] & _ & Hc).
    apply bind_Ok in Hc as ([] & _ & Hc). apply bind_Ok in Hc as (st1 & H1 & Hc).
    apply bind_Ok in Hc as (tn & _ & Hc). eapply extends_plain_trans; [|by eapply bind_fields_plain].
    by eapply (expr_then_plain e st st1 _ (Instruction.UnpackStruct tn (map fd_name (sd_fields def))) Hok H1).
Qed.
Lemma compile_stmts_straight pre rest st st' :
  forallb straight pre = true → cg_ok st → compile_stmts (pre ++ rest) st = Ok st' →
  ∃ st1, extends_plain st st1 ∧ cg_ok st1 ∧ compile_stmts rest st1 = Ok st'.
Proof.
  revert st. induction pre as [|s pre IH]; intros st Hs Hok Hc; simpl in *.
  { exists st. split_and!; [apply extends_plain_refl|done..]. }
  apply andb_true_iff in Hs as [Hs Hpre]. apply bind_Ok in Hc as (st1 & H1 & Hc).
  destruct (IH st1 Hpre) as (st2 & He & Hok2 & Hc2); [by eapply se_ok, compile_stmt_ok|done|].
  exists st2. split_and!; [|done..]. eapply extends_plain_trans; [by eapply compile_stmt_straight|done].
Qed.

(** The code of a function whose last statement is an [if] that ends in
    [return]: the jump over the branch goes to the end of the code. *)
Lemma if_return_code fn f pre c body :
  af_body fn = pre ++ [Stmt.If c body None] → forallb straight pre = true →
  ends_with_return body = true → (max_fun_code_size config < 2 ^ 31)%Z →
  compile_function config structs da dm rets fn = Ok f →
  ∃ code off post, fn_code f = code ++ Instruction.JumpIfNot off :: post ∧
    Forall (λ i, falls_through i = true) code ∧ (0 < off)%Z ∧
    (Z.of_nat (length code) + off = Z.of_nat (length (fn_code f)))%Z.
Proof.
  intros Hbody Hpre Hret Hmax (ps & rt & st & Hb & Hf & Hsize)%compile_function_inv.
  unfold compile_body in Hb. rewrite Hbody in Hb.
  do 2 apply bind_Ok in Hb as ([] & _ & Hb). apply bind_Ok in Hb as ([ps' st0] & Hp & Hb).
  apply bind_Ok in Hb as (rt' & _ & Hb). apply bind_Ok in Hb as (st' & Hs & Hb).
  apply bind_Ok in Hb as ([] & _ & Hb). simplify_eq.
  apply compile_params_ok in Hp as (He0 & C0 & _); [|apply codegen_new_ok].
  apply compile_stmts_straight in Hs as (st1 & (n0 & C1 & F1) & Hok1 & Hs); [|done|by eapply se_ok].
  cbn [Codegen.compile_stmts] in Hs. apply bind_Ok in Hs as (st2 & Hs & [= <-]).
  pose proof Hs as (sc & sb & types & moved & H1 & H2 & ->)%compile_if_inv.
  pose proof (compile_expr_effect _ _ _ _ _ _ _ _ Hok1 H1) as Heff.
  destruct (ee_plain _ _ Heff) as (nc & C2 & F2).
  assert (cg_ok (enter_scope (then_start sc))) as Hoks
    by (split; apply (expr_effect_ok _ _ _ Heff Hok1)).
  pose proof (compile_stmts_end config structs da dm rets body (enter_scope (then_start sc)) sb) as Hend.
  destruct Hend as (nb & C3 & L3 & _); [|done|done|].
  { apply list.Forall_forall. intros s _ sta stb. apply compile_stmt_end. }
  change (cg_code sb = cg_code (then_start sc) ++ nb) in C3.
  assert (last_ret nb = true) as Hl.
  { rewrite L3. unfold stmts_end. unfold ends_with_return in Hret.
    by destruct (list.last body) as [[]|]. }
  assert (cg_code (ensure_return (set_tracking types moved (if_end sc sb))) =
    (n0 ++ nc) ++ Instruction.JumpIfNot (jump_over (length nb + 1)) :: nb) as Hcode.
  { pose proof (if_end_code st1 sc sb nc nb C2 C3) as Ci. rewrite C1, C0 in Ci. simpl in Ci.
    unfold ensure_return. simpl. rewrite Ci. rewrite <-app_assoc. unfold last_ret in Hl.
    rewrite app_assoc, last_app. simpl. destruct nb as [|i nb]; [done|].
    rewrite last_cons_cons. destruct (list.last (i :: nb)) as [[]|]; try done. simpl. by rewrite Ci, <-app_assoc. }
  simpl in *. rewrite Hcode in Hsize |- *. do 3 eexists. split; [done|].
  rewrite !length_app in Hsize |- *. simpl in *. rewrite jump_over_eq by lia.
  split_and!; [by apply Forall_app|lia|rewrite !length_app; lia].
Qed.
End straight.



(** The compiler accepts functions that the bytecode verifier always
    rejects.  [fn guard(x: bool) { if x { return; } }] compiles to code whose
    jump goes behind the last instruction, since a [Return] is only added when
    the last instruction is another one; a call of an unknown function, a
    function without the result it declares, a function with two parameters of
    one name and one that drops the struct that a native returned compile as
    well. *)
Lemma compiled_but_rejected :
  fn_code <$> (compile_alone guard_ast ≫= λ m, ok_or (get_function m "guard") (cerr "")) =
    Ok [Instruction.Load 0; Instruction.JumpIfNot 2; Instruction.Return] ∧
  compile_then_verify guard_ast = Some (Err [VerificationError.MissingReturn "guard"]) ∧
  compile_then_verify unknown_call_ast =
    Some (Err [VerificationError.UndefinedFunction "f" 0 "nope";
               VerificationError.StackUnderflow "f" 1 "any"]) ∧
  compile_then_verify no_result_ast =
    Some (Err [VerificationError.ReturnTypeMismatch "f" "u64" "empty stack"]) ∧
  compile_then_verify twice_ast = Some (Err [VerificationError.LocalCountTooSmall "f" 1 2]) ∧
  compile_then_verify leak_ast = Some (Err [VerificationError.UnconsumedStruct "f" 0]).
Proof. split_and!; vm_compute; reflexivity. Qed.

(** *** A name that clashes *)

Lemma find_first_name (defs : list StructDef) d :
  NoDup (map sd_name defs) → d ∈ defs →
  find_first (λ s, String.eqb (sd_name s) (sd_name d)) defs = Some d.
Proof.
  intros Hn Hd. destruct (find_first _ defs) as [d'|] eqn:Hf.
  - apply find_first_Some in Hf as [Hd' Hs%String.eqb_eq].
    apply list_elem_of_lookup in Hd as [i Hi], Hd' as [j Hj].
    assert (i = j) as <-; [|congruence].
    eapply (NoDup_lookup (map sd_name defs)); [done|by rewrite list_lookup_fmap, Hi|].
    by rewrite list_lookup_fmap, Hj, <-Hs.
  - apply find_first_None with (x := d) in Hf; [|done]. by rewrite String.eqb_refl in Hf.
Qed.
Lemma referenced_edge local_structs dep_structs d n :
  NoDup (map sd_name (all_defs local_structs dep_structs)) →
  d ∈ all_defs local_structs dep_structs → Ty.Struct n ∈ map fd_ty (sd_fields d) →
  edge (referenced local_structs dep_structs) (sd_name d) n.
Proof.
  intros Hn Hd (f & Hf & Hin)%list_elem_of_fmap. unfold edge, referenced.
  rewrite (find_first_name _ d) by done. apply list_elem_of_omap. exists f. by rewrite <-Hf.
Qed.

(** C39: The fields of a dependency's structs keep their own module's names,
    and the search for cyclic structs takes such a name for a local struct: a
    module with a struct [s] that has a field of type [alias::a], where [a] is a
    public struct of the dependency [alias] with a field of a type called like
    [s] in its own module, never compiles, although the two types are different
    and no struct contains itself.  (All struct names in scope are distinct.) *)
Theorem foreign_field_type_clashes `{PrefixHex, HashOrder} deps config items name uses sigs
    addr alias lib a s m :
  (addr, lib) ∈ deps → dep_alias (declared_addresses uses) addr = Some alias →
  a ∈ mod_structs lib → sd_is_public a = true → s ∈ item_structs items →
  Ty.Struct (alias +:+ "::" +:+ sd_name a) ∈ map snd (as_fields s) →
  Ty.Struct (as_name s) ∈ map fd_ty (sd_fields a) →
  NoDup (map sd_name (all_defs (struct_defs (item_structs items))
    (dep_structs deps (declared_addresses uses)))) →
  compile_items deps config items name uses sigs ≠ Ok m.
Proof.
  intros Hdep Halias Ha Hpub Hs Hsa Has Hn Hc.
  set (d := mkStructDef (as_name s) (ast_fields_to_field_defs (as_fields s)) (as_is_public s)).
  set (d' := mkStructDef (alias +:+ "::" +:+ sd_name a) (sd_fields a) true).
  assert (d ∈ struct_defs (item_structs items)) as Hd by (apply list_elem_of_fmap; eauto).
  apply (compiled_structs_grounded _ _ _ _ _ _ _ d) in Hc; [|done].
  eapply (grounded_no_cycle _ (sd_name d) Hc). eapply tc_l; [|apply tc_once].
  - apply (referenced_edge _ _ d (sd_name d')); [done|apply elem_of_app; by left|].
    unfold d, ast_fields_to_field_defs. simpl. rewrite map_map.
    apply list_elem_of_fmap in Hsa as ([n ty] & Hty & Hin). apply list_elem_of_fmap.
    by exists (n, ty).
  - apply (referenced_edge _ _ d'); [done|apply elem_of_app; right|done].
    apply list_elem_of_join. eexists. split; [|apply list_elem_of_fmap; by exists (addr, lib)].
    simpl. rewrite Halias. apply list_elem_of_fmap. exists a. split; [done|].
    apply list_elem_of_In, filter_In. split; [by apply list_elem_of_In|done].
Qed.

Lemma foreign_field_type_clashes_witness :
  ¬ (∃ m, compile_wrapper "B" = Ok m) ∧ ∃ m, compile_wrapper "C" = Ok m.
Proof.
  split; [|eexists; vm_compute; reflexivity]. intros [m Hm]. revert Hm.
  apply (foreign_field_type_clashes [(bank_addr, lib)] CompilerConfig_default (wrapper_items "B") "m"
    [("lib", None, bank_addr)] [] bank_addr "lib" lib
    (mkStructDef "A" [mkFieldDef "x" (Ty.Struct "B")] true)
    (mkAstStruct true "B" [("a", Ty.Struct "lib::A")])); try reflexivity; try by left.
  apply (bool_decide_unpack _). vm_compute. exact I.
Defined.


(** Whether a module compiles can depend on the name of its struct.  The
    fields of a dependency's structs keep their own module's names, so the
    search for cyclic structs takes the field type [B] of [lib::A] for a local
    struct [B]: a struct with one field of type [lib::A] compiles, and is
    verified, under every other name, but is reported as recursive when it is
    called [B]. *)
Lemma wrapper_compiles_as_C :
  compile_wrapper "B" =
    Err (cerr "struct cycle detected: 'B' is part of a recursive struct definition") ∧
  ∃ m, compile_wrapper "C" = Ok m ∧
    verify m {[ bank_addr := lib ]} [] CompilerConfig_default = Ok () ∧
    verify (mkModule "m" (mod_imports m)
      (map (λ s, mkStructDef "B" (sd_fields s) (sd_is_public s)) (mod_structs m)) [])
      {[ bank_addr := lib ]} [] CompilerConfig_default = Ok ().
Proof.
  split; [vm_compute; reflexivity|].
  eexists. split_and!; [vm_compute; reflexivity|vm_compute; reflexivity|vm_compute; reflexivity].
Qed.
