(* ===== verification/GrammarCorrect.v ===== *)
(** * Properties of the parser and of the compiler on text

    For every implementation of the parser combinators with the documented
    behaviour: what the parser accepts is exactly what the printer writes, and
    the compiler returns on every text. *)

From S2P Require Import Prelude Text Address HexInstance VmTypes Ast Chumsky ChumskyInstance.
From S2P Require Import Grammar GrammarProps GrammarPrint.
From S2P Require Import CompilerValidator TypeChecker Compiler CompilerProps CompilerExamples.

(** C5: the parser and the printer are inverse to each other on what the
    parser can produce: printing the result of any successful parse and parsing
    it again gives the same items, with operators grouped as before; and the
    items that come back are exactly the well-formed ones (identifiers that are
    no keywords, numbers of 64 bits, strings without quotes, tuples and field
    paths that are not empty). *)
Theorem parse_print_exact `{PrefixHexLaws, ChumskyLaws} :
  (∀ source items, parse_items source = Ok items → parse_items (print_items items) = Ok items) ∧
  (∀ items, parse_items (print_items items) = Ok items ↔ forallb wf_item items = true).
Proof.
  split; [intros source items Hp%parse_wf; by apply parse_print|].
  intros items. split; [apply parse_wf|apply parse_print].
Qed.

Lemma parse_print_exact_witness :
  parse_items (print_items main_items) = Ok main_items.
Proof. apply parse_print_exact. vm_compute. reflexivity. Defined.

(** C25: the compiler returns on every source text, with any dependencies, limits
    and native signatures: it gives a module or an error.  The places where the
    code generator indexes the element types of a tuple, the types of the slots
    or the code to patch, or takes the first or last step of a field path or a
    field definition, are never reached with nothing there. *)
Theorem compile_total `{PrefixHexLaws, HashOrder, ChumskyLaws} deps config source sigs :
  (∃ m, compile deps config source sigs = Ok m) ∨ (∃ e, compile deps config source sigs = Err e).
Proof.
  pose proof (compile_returns deps config source sigs) as Hr.
  destruct (compile deps config source sigs); eauto; done.
Qed.
Lemma compile_total_witness :
  (∃ m, compile [] CompilerConfig_default "mod m; pub fn f(x: u64) -> u64 { return x + 1; }" [] = Ok m) ∨
  (∃ e, compile [] CompilerConfig_default "mod m; pub fn f(x: u64) -> u64 { return x + 1; }" [] = Err e).
Proof. apply compile_total. Defined.

(** One function after the module declaration. *)
Definition fn_source (fn : string) : string := "mod m; " +:+ fn.
Definition if_empty : string := fn_source "fn f(x: bool) { if x { } }".
Definition if_grouped : string := fn_source "fn f(x: bool) { if (x) { } }".
Definition if_items : list AstItem :=
  [ItemModuleDecl "m";
   ItemFn (mkAstFunction false "f" [("x", Ty.Bool)] None [Stmt.If (Expr.Ident "x") [] None])].
Definition one_tuple : string := fn_source "fn f(x: bool) -> (bool,) { return (x,); }".
Definition one_tuple_items : list AstItem :=
  [ItemModuleDecl "m";
   ItemFn (mkAstFunction false "f" [("x", Ty.Bool)] (Some (Ty.Tuple [Ty.Bool]))
             [Stmt.Return (Some (Expr.Tuple [Expr.Ident "x"]))])].

(** Two surprises of the grammar, whatever implements the combinators.  An
    [if] with a variable as its condition and an empty body does not parse,
    because the variable and the braces are read as a struct literal; with the
    condition in parentheses it does.  A tuple type and a tuple expression of one
    element parse, although the comments in the parser ask for two. *)
Lemma grammar_surprises `{PrefixHex, !PrefixHexLaws, Chumsky, !ChumskyLaws} :
  is_ok (parse_items if_empty) = false ∧
  parse_items if_grouped = Ok if_items ∧
  parse_items one_tuple = Ok one_tuple_items.
Proof.
  split_and!.
  - unfold parse_items. rewrite (parser_unique _ std_chumsky). vm_compute. reflexivity.
  - apply parse_items_std. vm_compute. reflexivity.
  - apply parse_items_std. vm_compute. reflexivity.
Qed.
