(* ===== verification/Execute.v ===== *)
(** * The transaction executor

    Models [executor/mod.rs], [executor/effects.rs], [executor/gas.rs],
    [executor/versioning.rs] and [runner.rs] of [meow-vm-adapter].  The meter
    is passed through; [fuel] bounds the machine.  A function that returns a
    bare [ExecutionResult] in Rust has no [Err] here: it may panic. *)

From S2P Require Import Prelude Address VmTypes Gas Vm VerifierStructural VerifierAbstract.
From S2P Require Import ChainTypes Convert Framework Context Worklist Resolvers.
From S2P Require Import InputsResolver AdapterVerifier ErrorText.

Definition GAS_PER_MODULE_BYTE : Z := 10.
Definition BASE_TRANSACTION_GAS_COST : Z := 1000.

(** [versioning::bump_version]. *)
Definition bump_version {E} (obj : Object) : outcome E ObjectVersion :=
  expect (version_next (obj_version obj))
    "version must increment; object version should never be MAX".

(** [return_type_contains_struct]. *)
Fixpoint return_type_contains_struct (ty : Ty.t) : bool :=
  match ty with
  | Ty.Struct _ => true
  | Ty.Tuple types => existsb return_type_contains_struct types
  | _ => false
  end.

Section gas.
Context `{Bcs}.

(** [apply_gas_spending]. *)
Definition apply_gas_spending {E} (result : ExecutionResult) (gas_coin : Object) (gas_spent : Z)
    (tx_digest : Digest) : outcome E ExecutionResult :=
  updated_content ← expect (deduct_gas gas_coin gas_spent) "gas coin content must be deductible";
  new_version ← bump_version gas_coin;
  let updated_gas_coin :=
    mkObject (obj_address gas_coin) (obj_owner gas_coin) tx_digest new_version (obj_type gas_coin)
      updated_content in
  Ok (with_gas_used
        (result_new (res_status result) (res_transaction_digest result) (res_created result)
           (res_changed result ++ [updated_gas_coin]) (res_destroyed result)) gas_spent).
End gas.

(** ** Effects ([effects.rs]) *)
Definition ObjectEffects : Type := list Object * list Object * list Object.

Section effects.
Context `{PrefixHex, Crypto, Bcs, Rng}.

(** [input_by_addr]: a later argument wins. *)
Definition input_by_addr (object_args : list Object) : gmap Address Object :=
  foldl (λ m o, <[obj_address o := o]> m) ∅ object_args.

(** The assertions on the object arguments. *)
Fixpoint assert_object_args (object_args : list Object) : outcome string () :=
  match object_args with
  | [] => Ok ()
  | obj :: object_args =>
      rust_assert (is_address_owned (obj_owner obj))
        "only address-owned objects can be used as call arguments" ;;
      rust_assert (bool_decide (obj_type obj ≠ TypeModule))
        "module objects cannot be used as call arguments" ;;
      rust_assert (bool_decide (obj_version obj ≠ version_MAX))
        "objects at max version cannot be used as call arguments" ;;
      assert_object_args object_args
  end.

(** [transferred_ids]. *)
Definition transferred_ids (c : Context) : gset Address :=
  list_to_set (omap (λ p, object_address (fst p)) (cx_transfers c)).

(** The loop over the fresh identifiers, and the one over the inputs. *)
Fixpoint check_fresh (consumed : gset Address) (ids : list Address) : outcome string () :=
  match ids with
  | [] => Ok ()
  | id :: ids =>
      guard_err (bool_decide (id ∉ consumed))
        ("created object not consumed: " +:+ address_to_string id) ;;
      check_fresh consumed ids
  end.
Fixpoint check_inputs (consumed : gset Address) (object_args : list Object) : outcome string () :=
  match object_args with
  | [] => Ok ()
  | obj :: object_args =>
      guard_err (bool_decide (obj_address obj ∉ consumed))
        ("input object not accounted for: " +:+ address_to_string (obj_address obj)) ;;
      check_inputs consumed object_args
  end.

(** The loop over the transfers: created and changed objects. *)
Fixpoint collect_transfers (fresh_ids : gset Address) (by_addr : gmap Address Object)
    (tx_digest : Digest) (transfers : list (Value.t * Address))
  : outcome string (list Object * list Object) :=
  match transfers with
  | [] => Ok ([], [])
  | (obj_val, owner) :: transfers =>
      id ← expect (object_address obj_val) "transferred object must have an address";
      let is_fresh := bool_decide (id ∈ fresh_ids) in
      version ← (if is_fresh then Ok version_ONE
                 else original ← expect (by_addr !! id)
                        "all transferred objects must be found in inputs";
                      bump_version original);
      obj ← match vm_object_value_to_object obj_val (OwnerAddress owner) tx_digest version with
            | Ok obj => Ok obj
            | _ => Panic "failed to convert VM object value to object"
            end;
      '(created, changed) ← collect_transfers fresh_ids by_addr tx_digest transfers;
      Ok (if is_fresh then (obj :: created, changed) else (created, obj :: changed))
  end.

(** The loop over the destroyed identifiers. *)
Fixpoint collect_destroyed (fresh_ids : gset Address) (by_addr : gmap Address Object)
    (tx_digest : Digest) (ids : list Address) : outcome string (list Object) :=
  match ids with
  | [] => Ok []
  | id :: ids =>
      if bool_decide (id ∈ fresh_ids) then collect_destroyed fresh_ids by_addr tx_digest ids
      else
        original ← expect (by_addr !! id) "destroyed object must be found in inputs";
        version ← bump_version original;
        destroyed ← collect_destroyed fresh_ids by_addr tx_digest ids;
        Ok (mkObject (obj_address original) (obj_owner original) tx_digest version
              (obj_type original) (obj_content original) :: destroyed)
  end.

(** [collect_object_effects]. *)
Definition collect_object_effects (c : Context) (object_args : list Object) (tx_digest : Digest)
  : outcome string ObjectEffects :=
  let by_addr := input_by_addr object_args in
  assert_object_args object_args ;;
  let consumed := transferred_ids c ∪ list_to_set (cx_destroyed c) in
  let fresh_ids := list_to_set (cx_fresh_ids c) in
  check_fresh consumed (cx_fresh_ids c) ;;
  check_inputs consumed object_args ;;
  '(created, changed) ← collect_transfers fresh_ids by_addr tx_digest (cx_transfers c);
  destroyed ← collect_destroyed fresh_ids by_addr tx_digest (cx_destroyed c);
  Ok (created, changed, destroyed).
End effects.

(** ** The executor ([mod.rs]) *)
Section executor.
Context `{PrefixHex, Crypto, Bcs, Rng}.
Context (fuel : nat).
Notation R := (outcome ExecutorError.t (ExecutionResult * GasMeter)).

(** [match m { Ok(a) => k(a), Err(e) => return ExecutionResult::failure(e, ..) }]. *)
Definition or_failure {A} (m : outcome string A) (tx_digest : Digest) (gas : GasMeter)
    (k : A → R) : R :=
  match m with
  | Ok a => k a
  | Err e => Ok (result_failure e tx_digest, gas)
  | Panic s => Panic s
  | NoFuel => NoFuel
  end.

(** The text of a failed VM call. *)
Definition call_error_text (e : VmError.t) : string :=
  match e with VmError.Aborted _ message => message | _ => vm_error_to_string e end.

(** [execute_meow_call] from the built context on: the machine runs and its
    effects are collected. *)
Definition run_call (vm : Vm Context) (fn_name : string) (vm_args : list Value.t)
    (object_args : list Object) (c : Context) (tx_digest : Digest) (gas : GasMeter) : R :=
  let '(r, (gas, c)) := call vm fuel fn_name vm_args (gas, c) in
  match r with
  | Err e => Ok (result_failure (call_error_text e) tx_digest, gas)
  | Panic s => Panic s
  | NoFuel => NoFuel
  | Ok _ =>
      match collect_object_effects c object_args tx_digest with
      | Ok (created, changed, destroyed) =>
          Ok (result_new Success tx_digest created changed destroyed, gas)
      | Err e => Ok (result_new (Failure e) tx_digest [] [] [], gas)
      | Panic s => Panic s
      | NoFuel => NoFuel
      end
  end.

(** [execute_meow_call]. *)
Definition execute_meow_call (sender : Address) (tx_digest : Digest) (c : Call)
    (inputs : list Object) (gas : GasMeter) (vm_config : VmConfig)
    (external_context : ExternalContext) : R :=
  or_failure (resolve_module inputs (call_module c)) tx_digest gas (λ module,
  or_failure (resolve_dep_modules inputs (mod_imports module)) tx_digest gas (λ deps,
  let fn_name := identifier_str (call_function c) in
  or_failure (ok_or (get_function module fn_name)
                ("function '" +:+ fn_name +:+ "' not found in module")) tx_digest gas (λ func,
  or_failure (guard_err (match fn_return_type func with
                         | Some ty => return_type_contains_struct ty
                         | None => false
                         end)
                ("function '" +:+ fn_name +:+ "' returns a struct and cannot be called directly from a transaction — structs must be consumed within the call"))
    tx_digest gas (λ _,
  or_failure (resolve_args c func sender inputs) tx_digest gas (λ '(vm_args, object_args),
  let ctx := context_new sender tx_digest (rand_seed external_context)
               (ctx_timestamp external_context) in
  match vm_new (call_module c, module) build_natives GasSchedule_default deps vm_config with
  | Ok vm => run_call vm fn_name vm_args object_args ctx tx_digest gas
  | Err _ => Panic "unreachable: the constructor returns no error"
  | Panic s => Panic s
  | NoFuel => NoFuel
  end))))).

(** The checks of [execute_meow_module_publish] on a decoded module. *)
Definition verify_published (module : VmModule) (deps : gmap Address VmModule)
  : outcome string () :=
  map_err (λ errors, "bytecode verification failed: " +:+
                     Ty.join "; " (map verification_error_to_string errors))
    (verify module deps adapter_native_sigs compiler_config) ;;
  map_err (λ errors, "adapter bytecode verification failed: " +:+
                     Ty.join "; " (map BytecodeVerifierError.to_string errors))
    (adapter_verify module deps adapter_native_sigs).

(** [execute_meow_module_publish]. *)
Definition execute_meow_module_publish (tx_digest : Digest) (module : list Z)
    (inputs : list Object) (gas : GasMeter) : R :=
  let module_size := Z.of_nat (length module) in
  or_failure (guard_err (bool_decide (MAX_BCS_SERIALIZED_MODULE_SIZE < module_size)%Z)
                ("module size " +:+ pretty module_size +:+ " bytes exceeds maximum of " +:+
                 pretty MAX_BCS_SERIALIZED_MODULE_SIZE +:+ " bytes")) tx_digest gas (λ _,
  or_failure (ok_or (bcs_module_decode module)
                ("failed to deserialize module: " +:+ bcs_error BcsModule module))
    tx_digest gas (λ module_val,
  or_failure (map_err (λ e, "dep resolution: " +:+ e)
                (resolve_dep_modules inputs (mod_imports module_val))) tx_digest gas (λ deps,
  or_failure (verify_published module_val deps) tx_digest gas (λ _,
  let '(charged, gas) := charge gas (module_size * GAS_PER_MODULE_BYTE) in
  or_failure (map_err vm_error_to_string charged) tx_digest gas (λ _,
  let module_address := address_derive tx_digest 0 0 in
  let created := [fresh_module module_address tx_digest module] in
  Ok (result_new Success tx_digest created [] [], gas)))))).

(** [execute]. *)
Definition execute (t : Transaction) (inputs : list Object) (external_context : ExternalContext)
  : outcome ExecutorError.t ExecutionResult :=
  let sender := tx_sender t in
  let d := tx_digest t in
  gas_coin ← resolve_gas_coin_object (tx_gas_coin t) sender inputs;
  gas_budget ← expect (balance_from_object gas_coin)
    "it is expected to have a valid balance field in the gas coin object";
  let '(charged, gas) := charge (gas_new gas_budget) BASE_TRANSACTION_GAS_COST in
  '(result, gas) ← or_failure (map_err vm_error_to_string charged) d gas (λ _,
    match tx_type t with
    | MeowCall c => execute_meow_call sender d c inputs gas vm_config external_context
    | MeowModulePublish module => execute_meow_module_publish d module inputs gas
    end);
  apply_gas_spending result gas_coin (spent gas) d.

(** [execute_system_transaction]. *)
Definition execute_system_transaction (t : Transaction) (inputs : list Object)
  : outcome ExecutorError.t ExecutionResult :=
  match tx_type t with
  | MeowCall c =>
      fst <$> execute_meow_call (tx_sender t) (tx_digest t) c inputs gas_unlimited
                vm_config_privileged ExternalContext_default
  | MeowModulePublish _ => Err ExecutorError.ModulePublishNotAllowed
  end.

(** [execute_genesis_transaction]. *)
Definition execute_genesis_transaction (t : Transaction) (inputs : list Object)
  : outcome ExecutorError.t ExecutionResult :=
  match tx_type t with
  | MeowCall c =>
      fst <$> execute_meow_call (tx_sender t) (tx_digest t) c inputs gas_unlimited
                vm_config_privileged ExternalContext_default
  | MeowModulePublish module =>
      fst <$> execute_meow_module_publish (tx_digest t) module inputs gas_unlimited
  end.

(** ** The runner for tests ([runner.rs]) *)
Record RunResult := mkRunResult {
  rr_return_value : option Value.t;
  rr_transfers : list (Value.t * Address);
  rr_destroyed : list Address;
  rr_gas_spent : Z;
}.

(** [run_inner], [run], [run_privileged]. *)
Definition run_inner (module : Address * VmModule) (fn_name : Identifier) (args : list Value.t)
    (deps : gmap Address VmModule) (gas : GasMeter) (vm_config : VmConfig)
    (external_context : ExternalContext) : outcome VmError.t RunResult :=
  let ctx := context_new address_ZERO digest_ZERO (rand_seed external_context)
               (ctx_timestamp external_context) in
  vm ← vm_new module build_natives GasSchedule_default deps vm_config;
  let '(r, (gas, ctx)) := call vm fuel (identifier_str fn_name) args (gas, ctx) in
  ret ← r;
  Ok (mkRunResult ret (cx_transfers ctx) (cx_destroyed ctx) (spent gas)).
Definition run (module : Address * VmModule) (fn_name : Identifier) (args : list Value.t)
    (deps : gmap Address VmModule) (external_context : ExternalContext)
  : outcome VmError.t RunResult :=
  run_inner module fn_name args deps gas_unlimited vm_config external_context.
Definition run_privileged (module : Address * VmModule) (fn_name : Identifier)
    (args : list Value.t) (deps : gmap Address VmModule) (external_context : ExternalContext)
  : outcome VmError.t RunResult :=
  run_inner module fn_name args deps gas_unlimited vm_config_privileged external_context.
End executor.
