(* ===== verification/Genesis.v ===== *)
(** * The genesis state

    Models [meow-genesis]: the framework modules and one coin per allocation,
    each minted by a transaction of its own. *)

From S2P Require Import Prelude Address VmTypes ChainTypes Convert Framework Context.
From S2P Require Import Chumsky TypeChecker Resolvers Execute FrameworkModules.

Module GenesisError.
Inductive t :=
  | ExecutorError (e : ExecutorError.t)
  | MeowCoinMintFailed (msg : string).
End GenesisError.

Record Genesis := mkGenesis { genesis_objects : list Object }.

Section genesis.
Context `{PrefixHex, HashOrder, Chumsky, ModuleBytes, Crypto, Bcs, Rng} (fuel : nat).

(** The text [{:?}] gives the type of an object. *)
Context (object_type_debug : ObjectType → string).

(** [Digest::compute(&index)]. *)
Definition index_digest (index : nat) : Digest := mkDigest (blake2b (bcs_u64 (Z.of_nat index))).

(** The transaction of one allocation. *)
Definition mint_transaction (index : nat) (address : Address) (amount : Z) : Transaction :=
  mkTransaction MEOW_SYSTEM_ADDRESS
    (mkObjectRef address_ZERO version_ZERO (index_digest index))
    (MeowCall (mkCall MEOW_COIN_MODULE_ADDRESS (mkIdentifier MEOW_COIN_MINT_FUNCTION_NAME)
                 [InputRaw (bcs_u64 amount); InputRaw (bcs_address address)])).

(** What is made of its result. *)
Definition minted_coin (r : ExecutionResult) : outcome GenesisError.t Object :=
  match res_status r with
  | Success =>
      match res_created r with
      | [meow_coin] =>
          if is_meow_coin_object meow_coin then Ok meow_coin
          else Err (GenesisError.MeowCoinMintFailed
                 ("expected a MEOW coin created, but found an object of type " +:+
                  object_type_debug (obj_type meow_coin)))
      | created =>
          Err (GenesisError.MeowCoinMintFailed
                 ("expected 1 created object, but found " +:+ pretty (length created)))
      end
  | Failure message => Err (GenesisError.MeowCoinMintFailed message)
  end.

(** [mint_meow_coins]; [index] counts the allocations. *)
Fixpoint mint_from (index : nat) (allocations : list (Address * Z)) (framework_modules : list Object)
  : outcome GenesisError.t (list Object) :=
  match allocations with
  | [] => Ok []
  | (address, amount) :: allocations =>
      r ← map_err GenesisError.ExecutorError
            (execute_genesis_transaction fuel (mint_transaction index address amount)
               framework_modules);
      coin ← minted_coin r;
      coins ← mint_from (S index) allocations framework_modules;
      Ok (coin :: coins)
  end.
Definition mint_meow_coins (allocations : list (Address * Z)) (framework_modules : list Object)
  : outcome GenesisError.t (list Object) := mint_from 0 allocations framework_modules.

(** [Genesis::build]. *)
Definition genesis_build (allocations : list (Address * Z)) : outcome GenesisError.t Genesis :=
  framework_modules ← framework_module_objects;
  meow_coins ← mint_meow_coins allocations framework_modules;
  Ok (mkGenesis (framework_modules ++ meow_coins)).
End genesis.
