(* ===== verification/GenesisProps.v ===== *)
(** * The framework builds

    The embedded sources go through the parser, the compiler and both verifiers,
    whatever implements the crates; then the minting function runs on the modules
    they compile to. *)

From S2P Require Import Prelude Text Ast Chumsky ChumskyInstance Grammar GrammarProps GrammarPrint.
From S2P Require Import Address HexInstance VmTypes Gas Vm VerifierAbstract.
From S2P Require Import CompilerValidator TypeChecker Codegen Compiler.
From S2P Require Import ChainTypes Convert Framework Context Worklist Resolvers AdapterVerifier Builder.
From S2P Require Import FrameworkModules CompilerExamples.
From S2P Require Import Execute Genesis.

(** ** The order of a hash map with one entry does not matter *)
Section hash_order.
Context `{PrefixHex} (h1 h2 : HashOrder) (deps : list (Address * VmModule)).

Lemma check_hash_ext da dm structs sigs params rets fns :
  @hash_iter h1 da = @hash_iter h2 da →
  @check _ h1 da dm structs sigs params rets fns = @check _ h2 da dm structs sigs params rets fns.
Proof.
  intros Hda. unfold check, build_checker, for_deps, dep_struct_infos, dep_fn_sigs, caller_type,
    addr_to_dep. by rewrite Hda.
Qed.
Lemma dep_structs_hash_ext da :
  @hash_iter h1 da = @hash_iter h2 da → @dep_structs h1 deps da = @dep_structs h2 deps da.
Proof. intros Hda. unfold dep_structs, dep_alias. by rewrite Hda. Qed.

Lemma compile_items_hash_ext config items name uses sigs :
  (∀ da imports, resolve_uses deps config uses ∅ [] = Ok (da, imports) →
    @hash_iter h1 da = @hash_iter h2 da) →
  @compile_items _ h1 deps config items name uses sigs =
  @compile_items _ h2 deps config items name uses sigs.
Proof.
  intros Hda. unfold compile_items.
  destruct (resolve_uses deps config uses ∅ []) as [[da imports]| | |]; simpl; [|done..].
  specialize (Hda _ _ eq_refl). by rewrite (dep_structs_hash_ext da Hda), !(check_hash_ext da) by done.
Qed.
End hash_order.

Lemma hash_iter_singleton `{HashOrderLaws} x a : hash_iter {[ x := a ]} = [(x, a)].
Proof.
  pose proof (hash_iter_perm {[ x := a ]}) as Hp. rewrite map_to_list_singleton in Hp.
  by apply Permutation_singleton_r in Hp.
Qed.
Lemma hash_iter_nil `{HashOrderLaws} : hash_iter ∅ = [].
Proof.
  pose proof (hash_iter_perm ∅) as Hp. rewrite map_to_list_empty in Hp.
  by apply Permutation_nil_r in Hp.
Qed.

(** One declared dependency. *)
Lemma resolve_uses_one `{PrefixHex} deps config n alias a da imports :
  resolve_uses deps config [(n, alias, a)] ∅ [] = Ok (da, imports) → da = {[ default n alias := a ]}.
Proof. simpl. intros Hr. inv_outcome Hr. by rewrite insert_empty. Qed.

(** ** Compiling with other implementations of the crates *)
Section std.
Context `{HX : PrefixHex, HXL : !PrefixHexLaws, HO : HashOrder, HOL : !HashOrderLaws}.
Context `{C : Chumsky, CL : !ChumskyLaws}.

Lemma parse_and_extract_std source x :
  @parse_and_extract _ std_chumsky source = Ok x → parse_and_extract source = Ok x.
Proof.
  unfold parse_and_extract. intros Hx. apply bind_Ok in Hx as (items & Hp & Hx).
  apply map_err_Ok in Hp. pose proof std_chumsky_laws.
  apply (parse_items_std (C:=std_chumsky)) in Hp. apply (parse_items_std (C:=C)) in Hp.
  rewrite Hp. exact Hx.
Qed.

Lemma build_std (size : VmModule → Z) source deps items name uses m :
  (source_size source ≤ MAX_SOURCE_SIZE)%Z →
  @parse_and_extract _ std_chumsky source = Ok (items, name, uses) →
  (∀ da imports, resolve_uses deps compiler_config uses ∅ [] = Ok (da, imports) →
    hash_iter da = map_to_list da) →
  @compile_items _ std_hash_order deps compiler_config items name uses
    adapter_native_sigs_for_compiler = Ok m →
  (size m ≤ MAX_BCS_SERIALIZED_MODULE_SIZE)%Z →
  build size source deps = Ok m.
Proof.
  intros Hs Hp Hda Hc Hm. unfold build, compile_with_limit, compile, check_source_size.
  rewrite bool_decide_eq_false_2 by lia. rewrite (parse_and_extract_std _ _ Hp). cbn [mbind outcome_bind guard_err].
  rewrite (compile_items_hash_ext HO std_hash_order), Hc by done. cbn [mbind outcome_bind map_err].
  by rewrite bool_decide_eq_false_2 by lia.
Qed.
End std.

(** ** The framework modules *)

(** What the sources parse to. *)
Definition or_nothing (r : CResult (list AstItem * string * list UseDecl)) :=
  match r with Ok x => x | _ => ([], "", []) end.
Definition object_parsed : list AstItem * string * list UseDecl :=
  Eval vm_compute in or_nothing (@parse_and_extract _ std_chumsky MEOW_OBJECT_SOURCE).
Definition coin_parsed : list AstItem * string * list UseDecl :=
  Eval vm_compute in or_nothing (@parse_and_extract _ std_chumsky MEOW_COIN_SOURCE).
Lemma object_parses :
  @parse_and_extract _ std_chumsky MEOW_OBJECT_SOURCE =
  Ok (fst (fst object_parsed), snd (fst object_parsed), snd object_parsed).
Proof. vm_compute. reflexivity. Qed.
Lemma coin_parses :
  @parse_and_extract _ std_chumsky MEOW_COIN_SOURCE =
  Ok (fst (fst coin_parsed), snd (fst coin_parsed), snd coin_parsed).
Proof. vm_compute. reflexivity. Qed.

(** What they compile to. *)
Definition or_empty {E} (r : outcome E VmModule) : VmModule :=
  match r with Ok m => m | _ => mkModule "" [] [] [] end.
Definition compile_parsed (deps : list (Address * VmModule))
    (p : list AstItem * string * list UseDecl) : CResult VmModule :=
  compile_items deps compiler_config (fst (fst p)) (snd (fst p)) (snd p)
    adapter_native_sigs_for_compiler.
Definition meow_object_compiled : VmModule :=
  Eval vm_compute in or_empty (compile_parsed [] object_parsed).
Definition coin_deps : list (Address * VmModule) :=
  [(MEOW_OBJECT_MODULE_ADDRESS, meow_object_compiled)].
Definition meow_coin_compiled : VmModule :=
  Eval vm_compute in or_empty (compile_parsed coin_deps coin_parsed).
Lemma object_compiles : compile_parsed [] object_parsed = Ok meow_object_compiled.
Proof. vm_compute. reflexivity. Qed.
Lemma coin_compiles : compile_parsed coin_deps coin_parsed = Ok meow_coin_compiled.
Proof. vm_compute. reflexivity. Qed.

Section framework.
Context `{HO : HashOrder, HOL : !HashOrderLaws, C : Chumsky, CL : !ChumskyLaws, MB : ModuleBytes}.

Lemma meow_object_module_built {E} :
  (module_size meow_object_compiled ≤ MAX_BCS_SERIALIZED_MODULE_SIZE)%Z →
  meow_object_module (E:=E) = Ok meow_object_compiled.
Proof.
  intros Hm. unfold meow_object_module.
  rewrite (build_std _ _ _ (fst (fst object_parsed)) (snd (fst object_parsed)) (snd object_parsed)
    meow_object_compiled); [done|done|exact object_parses| | |done].
  - intros da imports [= <- <-]. by rewrite hash_iter_nil, map_to_list_empty.
  - exact object_compiles.
Qed.
Lemma meow_coin_module_built {E} :
  (module_size meow_coin_compiled ≤ MAX_BCS_SERIALIZED_MODULE_SIZE)%Z →
  build_meow_coin (E:=E) meow_object_compiled = Ok meow_coin_compiled.
Proof.
  intros Hm. unfold build_meow_coin. fold coin_deps.
  rewrite (build_std _ _ _ (fst (fst coin_parsed)) (snd (fst coin_parsed)) (snd coin_parsed)
    meow_coin_compiled); [done|done|exact coin_parses| | |done].
  - intros da imports ->%resolve_uses_one. by rewrite hash_iter_singleton, map_to_list_singleton.
  - exact coin_compiles.
Qed.
End framework.

Definition framework_map : gmap Address VmModule :=
  {[ MEOW_OBJECT_MODULE_ADDRESS := meow_object_compiled ]}.
Lemma framework_verified :
  verify meow_object_compiled ∅ adapter_native_sigs compiler_config = Ok () ∧
  adapter_verify meow_object_compiled ∅ adapter_native_sigs = Ok () ∧
  verify meow_coin_compiled framework_map adapter_native_sigs compiler_config = Ok () ∧
  adapter_verify meow_coin_compiled framework_map adapter_native_sigs = Ok ().
Proof. vm_compute. by split_and!. Qed.

(** * Minting makes coins

    [mint] runs on the compiled coin module and creates one coin, so that the
    genesis state has one coin per allocation. *)

(** ** Running [mint] *)

(** The natives with their closures left open. *)
Definition natives_with {S} (fresh transfer destroy sender rand timestamp :
    list Value.t → S → NativeResult * S) : list (NativeFnEntry S) :=
  [mkNative NATIVE_FN_FRESH_ID [] (Some id_type) 10 fresh;
   mkNative NATIVE_FN_TRANSFER [LocalStruct; Concrete Ty.Address] None 20 transfer;
   mkNative NATIVE_FN_DESTROY [Concrete id_type] None 10 destroy;
   mkNative NATIVE_FN_SENDER [] (Some Ty.Address) 1 sender;
   mkNative NATIVE_FN_RAND [] (Some Ty.U64) 10 rand;
   mkNative NATIVE_FN_TIMESTAMP [] (Some Ty.U64) 1 timestamp].
Definition coin_value (id : Address) (balance : Z) : Value.t :=
  Value.Struct MEOW_COIN_OBJECT_BYTECODE_TYPE_NAME
    [("id", id_value id); ("balance", Value.U64 balance)].

(** Two ways for the machine to go on. *)
Section steps.
Context {St : Type} `{PrefixHex} (vm : Vm St).

Lemma run_instr k m a d fr i fr' g g' s :
  code fr !! pc fr = Some i →
  match i with Instruction.Call _ | Instruction.Return => False | _ => True end →
  charge g (cost_of (vm_gas_schedule vm) i) = (Ok (), g') →
  exec_instr vm m a i (set_pc fr (pc fr + 1)) = Ok fr' →
  Vm.run vm (S k) m a d fr (g, s) = Vm.run vm k m a d fr' (g', s).
Proof.
  intros Hi Hk Hg He. cbn [Vm.run]. rewrite Hi. cbv [mbind VmM_bind vm_charge lift fst snd].
  rewrite Hg. destruct i; try done; by rewrite He.
Qed.

Lemma run_return_value k m a d fr g g' s :
  code fr !! pc fr = Some Instruction.Return →
  charge g (cost_of (vm_gas_schedule vm) Instruction.Return) = (Ok (), g') →
  Vm.run vm (S k) m a d fr (g, s) = (Ok (head (stack fr)), (g', s)).
Proof.
  intros Hi Hg. cbn [Vm.run]. rewrite Hi. cbv [mbind VmM_bind vm_charge lift fst snd].
  by rewrite Hg.
Qed.

Lemma run_native_call k m a d fr name entry args st r g g' g'' s s' :
  code fr !! pc fr = Some (Instruction.Call name) →
  charge g (cost_of (vm_gas_schedule vm) (Instruction.Call name)) = (Ok (), g') →
  parse_module_ref name = None → get_function m name = None →
  vm_natives vm !! name = Some entry →
  charge g' (nat_gas_cost entry) = (Ok (), g'') →
  pop_args (length (nat_params entry)) (set_pc fr (pc fr + 1)) =
    Ok (args, set_stack (set_pc fr (pc fr + 1)) st) →
  nat_func entry args s = (NativeReturn r, s') →
  match r with Some v => check_struct_qualified v | None => true end = true →
  Vm.run vm (S k) m a d fr (g, s) =
  Vm.run vm k m a d (push (default Value.Void r) (set_stack (set_pc fr (pc fr + 1)) st)) (g'', s').
Proof.
  intros Hi Hg Hp Hf Hn Hg' Ha Hr Hq. cbn [Vm.run]. rewrite Hi.
  cbv [mbind VmM_bind vm_charge lift fst snd]. rewrite Hg. unfold exec_call. rewrite Hp, Hf, Hn.
  cbv [mbind VmM_bind vm_charge lift fst snd run_native mret VmM_ret]. rewrite Hg', Ha, Hr. simpl. by rewrite Hq.
Qed.
End steps.

(** The machine of a call to the coin module. *)
Section mint.
Context {St : Type} (vm : Vm St).
Context (fresh transfer : list Value.t → St → NativeResult * St).
Context (Hmod : vm_module vm = meow_coin_compiled) (Haddr : vm_module_addr vm = MEOW_COIN_MODULE_ADDRESS).
Context (Hsched : vm_gas_schedule vm = GasSchedule_default).
Context (Hconf : Vm.vm_config vm = vm_config_privileged) (Hdeps : vm_deps vm = framework_map).
Context (Hfresh : vm_natives vm !! NATIVE_FN_FRESH_ID =
  Some (mkNative NATIVE_FN_FRESH_ID [] (Some id_type) 10 fresh)).
Context (Htransfer : vm_natives vm !! NATIVE_FN_TRANSFER =
  Some (mkNative NATIVE_FN_TRANSFER [LocalStruct; Concrete Ty.Address] None 20 transfer)).
Context (Hmint : vm_natives vm !! MEOW_COIN_MINT_FUNCTION_NAME = None).

Definition mint_code : list Instruction.t :=
  Eval vm_compute in
    match get_function meow_coin_compiled MEOW_COIN_MINT_FUNCTION_NAME with
    | Some f => fn_code f
    | None => []
    end.

(** [call] up to the first instruction. *)
Lemma mint_enters fuel n owner ω :
  call vm fuel MEOW_COIN_MINT_FUNCTION_NAME [Value.U64 n; Value.Address owner] ω =
  Vm.run vm fuel meow_coin_compiled MEOW_COIN_MODULE_ADDRESS 0
    (frame_new mint_code [Value.U64 n; Value.Address owner] 3) ω.
Proof.
  unfold call, call_inner, enter. rewrite Hmod, Hconf, Hdeps, Hmint, Haddr.
  cbv [mbind VmM_bind lift].
  replace (guard_err _ _) with (Ok (E:=VmError.t) ()) by by vm_compute. reflexivity.
Qed.

Ltac run_step :=
  erewrite run_instr;
    [|reflexivity|exact I|rewrite Hsched; vm_compute; reflexivity|reflexivity].

Lemma mint_runs k n owner id s s1 s2 :
  fresh [] s = (NativeReturn (Some (id_value id)), s1) →
  transfer [coin_value id n; Value.Address owner] s1 = (NativeReturn None, s2) →
  ∃ g, call vm (9 + k) MEOW_COIN_MINT_FUNCTION_NAME [Value.U64 n; Value.Address owner]
         (gas_unlimited, s) = (Ok None, (g, s2)).
Proof.
  intros Hf Ht. eexists. rewrite mint_enters.
  change (9 + k) with (S (S (S (S (S (S (S (S (S k))))))))).
  erewrite run_native_call; [|reflexivity|rewrite Hsched; vm_compute; reflexivity|reflexivity|
    reflexivity|exact Hfresh|vm_compute; reflexivity|reflexivity|exact Hf|vm_compute; reflexivity].
  do 5 run_step.
  erewrite run_native_call; [|reflexivity|rewrite Hsched; vm_compute; reflexivity|reflexivity|
    reflexivity|exact Htransfer|vm_compute; reflexivity|reflexivity|exact Ht|reflexivity].
  run_step. by erewrite run_return_value; [|reflexivity|rewrite Hsched; vm_compute; reflexivity].
Qed.
End mint.

(** The machine that the executor builds is one of these. *)
Lemma coin_machine {St} (fresh transfer destroy sender rand timestamp :
    list Value.t → St → NativeResult * St) :
  ∃ vm, vm_new (MEOW_COIN_MODULE_ADDRESS, meow_coin_compiled)
      (natives_with fresh transfer destroy sender rand timestamp) GasSchedule_default framework_map
      vm_config_privileged = Ok vm ∧
    vm_module vm = meow_coin_compiled ∧ vm_module_addr vm = MEOW_COIN_MODULE_ADDRESS ∧
    vm_gas_schedule vm = GasSchedule_default ∧ Vm.vm_config vm = vm_config_privileged ∧
    vm_deps vm = framework_map ∧
    vm_natives vm !! NATIVE_FN_FRESH_ID =
      Some (mkNative NATIVE_FN_FRESH_ID [] (Some id_type) 10 fresh) ∧
    vm_natives vm !! NATIVE_FN_TRANSFER =
      Some (mkNative NATIVE_FN_TRANSFER [LocalStruct; Concrete Ty.Address] None 20 transfer) ∧
    vm_natives vm !! MEOW_COIN_MINT_FUNCTION_NAME = None.
Proof. eexists. split; [reflexivity|]. split_and!; vm_compute; reflexivity. Qed.

(** ** The transaction of an allocation *)
Section transaction.
Context `{HO : HashOrder, HOL : !HashOrderLaws, C : Chumsky, CL : !ChumskyLaws, MB : ModuleBytes}.
Context `{Crypto, Bcs, Rng, !CryptoLaws, !BcsLaws}.

(** Documented behaviour of the crates: a [blake2b] hash has 32 bytes, and
    [bcs] reads the framework modules back. *)
Class GenesisLaws := {
  blake2b_32 bs : wf_address (mkAddress (blake2b bs));
  object_module_roundtrip :
    bcs_module_decode (bcs_module meow_object_compiled) = Some meow_object_compiled;
  coin_module_roundtrip :
    bcs_module_decode (bcs_module meow_coin_compiled) = Some meow_coin_compiled;
  object_module_fits : (module_size meow_object_compiled ≤ MAX_BCS_SERIALIZED_MODULE_SIZE)%Z;
  coin_module_fits : (module_size meow_coin_compiled ≤ MAX_BCS_SERIALIZED_MODULE_SIZE)%Z;
}.
Context `{!GenesisLaws}.

Definition framework_objects : list Object :=
  [module_object MEOW_OBJECT_MODULE_ADDRESS meow_object_compiled;
   module_object MEOW_COIN_MODULE_ADDRESS meow_coin_compiled].

Lemma framework_objects_built {E} : framework_module_objects (E:=E) = Ok framework_objects.
Proof.
  unfold framework_module_objects, framework_module_entries.
  rewrite meow_object_module_built by apply object_module_fits. cbn [mbind outcome_bind].
  by rewrite meow_coin_module_built by apply coin_module_fits.
Qed.

(** The coin it makes. *)
Definition genesis_coin (d : Digest) (owner : Address) (amount : Z) : Object :=
  fresh_object (address_derive d 0 0) owner d
    (mkDeclRef MEOW_COIN_MODULE_ADDRESS (mkIdentifier MEOW_COIN_OBJECT_NAME))
    (bcs_fields [("balance", Value.U64 amount)]).

Lemma resolve_coin_module :
  resolve_module framework_objects MEOW_COIN_MODULE_ADDRESS = Ok meow_coin_compiled.
Proof.
  unfold resolve_module. 
  change (find_first _ framework_objects) with
    (Some (module_object MEOW_COIN_MODULE_ADDRESS meow_coin_compiled)).
  cbn [ok_or mbind outcome_bind]. cbn. by rewrite coin_module_roundtrip.
Qed.

Lemma resolve_coin_deps :
  resolve_dep_modules framework_objects (mod_imports meow_coin_compiled) = Ok framework_map.
Proof.
  unfold resolve_dep_modules, search_fuel.
  change (length (mod_imports meow_coin_compiled)) with 1.
  set (w := weight _ _). replace (1 + w + 1) with (S (S w)) by lia.
  set (index := module_index _).
  assert (index !! MEOW_OBJECT_MODULE_ADDRESS =
    Some (module_object MEOW_OBJECT_MODULE_ADDRESS meow_object_compiled)) as Hi
    by (vm_compute; reflexivity).
  change (reverse (mod_imports meow_coin_compiled)) with [MEOW_OBJECT_MODULE_ADDRESS].
  cbn [resolve_loop]. rewrite lookup_empty, Hi. cbn [ok_or mbind outcome_bind].
  change (obj_content (module_object MEOW_OBJECT_MODULE_ADDRESS meow_object_compiled))
    with (bcs_module meow_object_compiled).
  rewrite object_module_roundtrip. cbn [ok_or mbind outcome_bind]. by rewrite insert_empty.
Qed.

Lemma resolve_mint_args sender n owner :
  in_u64 n → wf_address owner →
  match get_function meow_coin_compiled MEOW_COIN_MINT_FUNCTION_NAME with
  | Some f =>
      fn_return_type f = None ∧
      resolve_args (mkCall MEOW_COIN_MODULE_ADDRESS (mkIdentifier MEOW_COIN_MINT_FUNCTION_NAME)
                      [InputRaw (bcs_u64 n); InputRaw (bcs_address owner)]) f sender framework_objects
        = Ok ([Value.U64 n; Value.Address owner], [])
  | None => False
  end.
Proof.
  intros Hn Ho. cbn. split; [done|]. unfold resolve_args. cbn.
  by rewrite bcs_u64_roundtrip, bcs_address_roundtrip.
Qed.

(** The value of a coin as an object. *)
Lemma coin_to_object id n owner d ver :
  wf_address id →
  vm_object_value_to_object (coin_value id n) (OwnerAddress owner) d ver =
  Ok (mkObject id (OwnerAddress owner) d ver
        (TypeObject (mkDeclRef MEOW_COIN_MODULE_ADDRESS (mkIdentifier MEOW_COIN_OBJECT_NAME)))
        (bcs_fields [("balance", Value.U64 n)])).
Proof.
  intros Hid. unfold vm_object_value_to_object.
  assert (Ha : object_address (coin_value id n) = Some id) by by apply object_address_head.
  unfold coin_value in *.
  replace (parse_module_ref _) with (Some (MEOW_COIN_MODULE_ADDRESS, MEOW_COIN_OBJECT_NAME))
    by (vm_compute; reflexivity).
  cbn [ok_or mbind outcome_bind]. rewrite Ha. reflexivity.
Qed.

(** The effects of a run that made one coin. *)
Lemma mint_effects sender d seed ts n owner :
  let id := address_derive d 0 0 in
  let c := context_transfer (coin_value id n) owner
             (snd (next_fresh_id (context_new sender d seed ts))) in
  collect_object_effects c [] d = Ok ([genesis_coin d owner n], [], []).
Proof.
  intros id c. assert (Ha : object_address (coin_value id n) = Some id)
    by (apply object_address_head, blake2b_32).
  unfold collect_object_effects, transferred_ids. cbn -[object_address coin_value address_derive].
  rewrite Ha. cbn -[object_address coin_value address_derive vm_object_value_to_object guard_err].
  fold id. clearbody c.
  rewrite (bool_decide_eq_true_2 (id ∈ _)) by by apply elem_of_union_l, elem_of_singleton.
  rewrite (bool_decide_eq_false_2 (id ∉ _))
    by (intros Hn; apply Hn; by apply elem_of_union_l, elem_of_union_l, elem_of_singleton).
  cbn [guard_err mbind outcome_bind]. rewrite coin_to_object by apply blake2b_32. reflexivity.
Qed.

Lemma mint_executes k index owner n :
  in_u64 n → wf_address owner →
  let t := mint_transaction index owner n in
  ∃ r, execute_genesis_transaction (9 + k) t framework_objects = Ok r ∧
    res_status r = Success ∧ res_created r = [genesis_coin (tx_digest t) owner n].
Proof.
  intros Hn Ho t. unfold execute_genesis_transaction. cbn [tx_type t mint_transaction].
  set (d := tx_digest t). unfold execute_meow_call. cbn [call_module call_function identifier_str].
  rewrite resolve_coin_module. cbn [or_failure]. rewrite resolve_coin_deps. cbn [or_failure].
  pose proof (resolve_mint_args (tx_sender t) n owner Hn Ho) as Hargs.
  destruct (get_function meow_coin_compiled MEOW_COIN_MINT_FUNCTION_NAME) as [f|]; [|done].
  destruct Hargs as [Hret Hargs]. cbn [or_failure ok_or]. rewrite Hret. cbn [or_failure guard_err].
  rewrite Hargs. cbn [or_failure].
  destruct (coin_machine (St:=Context) native_fresh_id native_transfer native_destroy native_sender
    native_rand native_timestamp) as (vm & Hvm & Hm & Hma & Hs & Hc & Hd & Hnf & Hnt & Hnm).
  change build_natives with (natives_with (S:=Context) native_fresh_id native_transfer native_destroy
    native_sender native_rand native_timestamp).
  rewrite Hvm. unfold run_call. set (c := context_new _ _ _ _).
  destruct (mint_runs vm native_fresh_id native_transfer Hm Hma Hs Hc Hd Hnf Hnt Hnm k n owner
    (address_derive d 0 0) c (snd (next_fresh_id c))
    (context_transfer (coin_value (address_derive d 0 0) n) owner (snd (next_fresh_id c))))
    as [g ->]; [done| |].
  - unfold native_transfer, coin_value. rewrite object_address_head by apply blake2b_32. done.
  - unfold c, d. rewrite (mint_effects (tx_sender t) (tx_digest t)). cbn. eauto.
Qed.

Lemma mint_from_coins debug k index allocations :
  Forall (λ p, wf_address (fst p) ∧ in_u64 (snd p)) allocations →
  mint_from (9 + k) debug index allocations framework_objects =
  Ok (imap (λ i p, genesis_coin (tx_digest (mint_transaction (index + i) (fst p) (snd p)))
                     (fst p) (snd p)) allocations).
Proof.
  intros Hall. revert index. induction Hall as [|[owner n] l [Ho Hn] _ IH]; intros index; [done|].
  cbn [mint_from]. destruct (mint_executes k index owner n Hn Ho) as (r & -> & Hs & Hc).
  cbn [map_err mbind outcome_bind]. unfold minted_coin. rewrite Hs, Hc. cbn [mbind outcome_bind].
  replace (is_meow_coin_object _) with true by reflexivity. cbn [mbind outcome_bind].
  rewrite IH. cbn [mbind outcome_bind imap fst snd]. rewrite Nat.add_0_r. do 2 f_equal.
  apply imap_ext. intros i p _. simpl. by rewrite Nat.add_succ_r.
Qed.

(** The coins of the allocations. *)
Definition genesis_coins (allocations : list (Address * Z)) : list Object :=
  imap (λ i p, genesis_coin (tx_digest (mint_transaction i (fst p) (snd p))) (fst p) (snd p))
    allocations.
Lemma genesis_built debug k allocations :
  Forall (λ p, wf_address (fst p) ∧ in_u64 (snd p)) allocations →
  genesis_build (9 + k) debug allocations =
  Ok (mkGenesis (framework_objects ++ genesis_coins allocations)).
Proof.
  intros Hall. unfold genesis_build, mint_meow_coins. rewrite framework_objects_built.
  cbn [mbind outcome_bind]. by rewrite mint_from_coins.
Qed.
Lemma genesis_coin_balance d owner n :
  in_u64 n → balance_from_object (genesis_coin d owner n) = Some n.
Proof.
  intros Hn. unfold balance_from_object. cbn. rewrite bcs_fields_roundtrip; [done|].
  unfold wf_fields. simpl. by rewrite bool_decide_eq_true_2.
Qed.
End transaction.
