(* ===== verification/AdapterProps.v ===== *)
(** * What the executor does with a transaction

    The machine the adapter builds, the state its natives leave, the effects
    collected from it, gas, and the objects the executor can work with.  Then the executor on
    two lists of inputs that agree on what a transaction needs. *)

From S2P Require Import Prelude Address VmTypes Gas Vm VmProps VerifierStructural VerifierAbstract.
From S2P Require Import VerifierTyping VerifierSound ChainTypes Convert Framework.
From S2P Require Import Context Worklist Resolvers InputsResolver AdapterVerifier ErrorText Execute.

Section machine.
Context `{PrefixHex, Crypto, Bcs, Rng}.

(** The machine that [execute_meow_call] builds. *)
Definition adapter_natives : gmap string (NativeFnEntry Context) :=
  <[MEOW_VM_ABORT := meow_vm_abort_entry]>
    (foldl (λ m e, <[nat_name e := e]> m) ∅ build_natives).
Definition adapter_vm (a : Address) (module : VmModule) (deps : gmap Address VmModule)
    (cfg : VmConfig) : Vm Context :=
  mkVm module a deps adapter_natives GasSchedule_default cfg.

Lemma vm_new_adapter a module deps cfg :
  vm_new (a, module) build_natives GasSchedule_default deps cfg = Ok (adapter_vm a module deps cfg).
Proof. reflexivity. Qed.

Lemma adapter_natives_lookup name e :
  adapter_natives !! name = Some e →
  (name = MEOW_VM_ABORT ∧ e = meow_vm_abort_entry) ∨ (e ∈ build_natives ∧ nat_name e = name).
Proof.
  unfold adapter_natives. rewrite lookup_insert_Some. intros [[<- <-]|[_ He]]; [by left|right].
  unfold build_natives in He |- *. cbn [foldl nat_name] in He.
  repeat (apply lookup_insert_Some in He as [[<- <-]|[_ He]]; [split; [set_solver|done]|]).
  by rewrite lookup_empty in He.
Qed.

Lemma adapter_vm_wf a module deps cfg : wf_vm (adapter_vm a module deps cfg).
Proof.
  split; [apply GasSchedule_default_wf|]. intros name e He.
  apply adapter_natives_lookup in He as [[_ ->]|[He _]]; [done|].
  repeat (apply elem_of_cons in He as [->|He]; [done|]). by apply not_elem_of_nil in He.
Qed.

(** The context after a call. *)
Definition context_ok (c0 c : Context) : Prop := wf_context c ∧ same_transaction c0 c.

Lemma same_transaction_trans c1 c2 c3 :
  same_transaction c1 c2 → same_transaction c2 c3 → same_transaction c1 c3.
Proof. unfold same_transaction. intuition congruence. Qed.

Lemma adapter_call_context fuel a module deps cfg fn args gas c r gas' c' :
  wf_context c →
  call (adapter_vm a module deps cfg) fuel fn args (gas, c) = (r, (gas', c')) →
  context_ok c c'.
Proof.
  intros Hc Hr.
  enough (Hk : context_ok c (snd (snd (call (adapter_vm a module deps cfg) fuel fn args (gas, c)))))
    by by rewrite Hr in Hk.
  apply (call_keeps _ (context_ok c)); [|by split].
  intros name e He args' s [Hs1 Hs2]. destruct (nat_func e args' s) as [res s'] eqn:Hf. simpl.
  apply adapter_natives_lookup in He as [[_ ->]|[He _]].
  - simpl in Hf. by simplify_eq.
  - destruct (native_wf _ _ _ _ _ He Hf Hs1). split; [done|]. by eapply same_transaction_trans.
Qed.

Lemma adapter_call_gas fuel a module deps cfg fn args gas c r gas' c' :
  wf_gas gas → call (adapter_vm a module deps cfg) fuel fn args (gas, c) = (r, (gas', c')) →
  gas_le gas gas'.
Proof. intros Hg Hr. by apply (call_gas_mono _ _ _ _ (adapter_vm_wf _ _ _ _) _ _ _ Hr). Qed.
End machine.

(** ** Effects *)

(** The guards a computation has passed. *)
Ltac inv_guards H :=
  repeat (let Hg := fresh "Hg" in apply bind_Ok in H as ([] & Hg%guard_err_Ok & H);
          try (apply bool_decide_eq_false in Hg; try apply dec_stable in Hg)).

(** [o] is [i] after a transaction: the same object, one version later. *)
Record touched (d : Digest) (i o : Object) : Prop := {
  to_address : obj_address o = obj_address i;
  to_version : version_next (obj_version i) = Some (obj_version o);
  to_digest : obj_transaction o = d;
}.

(** An object that a transaction of [sender] may change. *)
Record usable (sender : Address) (i : Object) : Prop := {
  us_owner : obj_owner i = OwnerAddress sender;
  us_type : obj_type i ≠ TypeModule;
  us_version : obj_version i ≠ version_MAX;
}.

(** An object that a transaction creates. *)
Record created_by `{Crypto} (d : Digest) (o : Object) : Prop := {
  cr_version : obj_version o = version_ONE;
  cr_digest : obj_transaction o = d;
  cr_address : ∃ k : nat, obj_address o = address_derive d 0 (Z.of_nat k);
}.

Lemma bump_version_Ok {E} i v : bump_version (E:=E) i = Ok v ↔ version_next (obj_version i) = Some v.
Proof. apply expect_Ok. Qed.

Lemma input_by_addr_Some l a o :
  input_by_addr l !! a = Some o → o ∈ l ∧ obj_address o = a.
Proof.
  unfold input_by_addr.
  enough (∀ m : gmap Address Object, foldl (λ m o, <[obj_address o := o]> m) m l !! a = Some o →
    (o ∈ l ∧ obj_address o = a) ∨ m !! a = Some o) as Hgen.
  { intros Ho. destruct (Hgen ∅ Ho) as [?|?]; [done|]. by rewrite lookup_empty in *. }
  induction l as [|x l IH]; intros m; simpl; [auto|]. intros Ho.
  destruct (IH _ Ho) as [[??]|Hx]; [left; split; [by right|done]|].
  apply lookup_insert_Some in Hx as [[<- <-]|[_ ?]]; [left; split; [by left|done]|auto].
Qed.

Lemma find_object_Some l a o : find_object l a = Some o → o ∈ l ∧ obj_address o = a.
Proof. intros [? ?%bool_decide_eq_true]%find_first_Some. done. Qed.

Section effects_props.
Context `{PrefixHex, Crypto, Bcs, Rng}.

Lemma value_to_object_inv v owner d ver o :
  vm_object_value_to_object v owner d ver = Ok o →
  object_address v = Some (obj_address o) ∧ obj_owner o = owner ∧ obj_transaction o = d ∧
  obj_version o = ver ∧ obj_type o ≠ TypeModule.
Proof.
  unfold vm_object_value_to_object. destruct v as [| | | | |tn fs|]; try done. intros Ho.
  apply bind_Ok in Ho as ([a n] & _ & Ho). apply bind_Ok in Ho as (id & _ & Ho).
  apply bind_Ok in Ho as (addr & Ha%ok_or_Ok & Ho). by simplify_eq/=.
Qed.

Lemma collect_transfers_Ok fresh by_addr d transfers created changed :
  collect_transfers fresh by_addr d transfers = Ok (created, changed) →
  Forall (λ o, obj_address o ∈ fresh ∧ obj_version o = version_ONE ∧ obj_transaction o = d ∧
    obj_type o ≠ TypeModule) created ∧
  Forall (λ o, obj_type o ≠ TypeModule ∧
    ∃ i, by_addr !! obj_address o = Some i ∧ version_next (obj_version i) = Some (obj_version o) ∧
      obj_transaction o = d) changed.
Proof.
  revert created changed. induction transfers as [|[v owner] l IH]; intros created changed Hc;
    simpl in Hc; [by simplify_eq|].
  apply bind_Ok in Hc as (id & Hid%expect_Ok & Hc). apply bind_Ok in Hc as (ver & Hver & Hc).
  apply bind_Ok in Hc as (o & Ho & Hc). apply bind_Ok in Hc as ([cr ch] & Hrec & Hc).
  destruct (vm_object_value_to_object v _ d ver) as [o'| | |] eqn:Hv; simplify_eq/=.
  apply value_to_object_inv in Hv as (Ha & Hw & Hd & Hvv & Ht).
  destruct (IH _ _ Hrec) as [Hcr Hch]. rewrite Hid in Ha. simplify_eq.
  case_bool_decide as Hf; simplify_eq/=.
  - split; [|done]. by constructor.
  - split; [done|]. constructor; [|done]. split; [done|].
    apply bind_Ok in Hver as (i & Hi%expect_Ok & Hb%bump_version_Ok). eauto.
Qed.

Lemma collect_destroyed_Ok fresh by_addr d ids destroyed :
  collect_destroyed fresh by_addr d ids = Ok destroyed →
  Forall (λ o, ∃ id i, by_addr !! id = Some i ∧ touched d i o) destroyed.
Proof.
  revert destroyed. induction ids as [|id ids IH]; intros destroyed Hc; simpl in Hc;
    [by simplify_eq|].
  case_bool_decide; [by apply IH|].
  apply bind_Ok in Hc as (i & Hi%expect_Ok & Hc).
  apply bind_Ok in Hc as (ver & Hver%bump_version_Ok & Hc).
  apply bind_Ok in Hc as (ds & Hrec & Hc). simplify_eq. constructor; [|by apply IH].
  exists id, i. split; [done|by split].
Qed.

(** The objects a call may touch, and what it does to them. *)
Lemma collect_object_effects_Ok c sender object_args d created changed destroyed :
  wf_context c → cx_tx_digest c = d → Forall (usable sender) object_args →
  collect_object_effects c object_args d = Ok (created, changed, destroyed) →
  Forall (created_by d) created ∧ Forall (λ o, obj_type o ≠ TypeModule) (created ++ changed) ∧
  Forall (λ o, ∃ i, i ∈ object_args ∧ touched d i o ∧ usable sender i) (changed ++ destroyed).
Proof.
  intros [Hcnt Hfresh _] Hd Hargs Hc. unfold collect_object_effects in Hc.
  apply bind_Ok in Hc as ([] & _ & Hc). apply bind_Ok in Hc as ([] & _ & Hc).
  apply bind_Ok in Hc as ([] & _ & Hc). apply bind_Ok in Hc as ([cr ch] & Htr & Hc).
  apply bind_Ok in Hc as (ds & Hds & Hc). simplify_eq.
  rewrite !list.Forall_forall in *.
  apply collect_transfers_Ok in Htr as [Hcr Hch]. rewrite !list.Forall_forall in Hcr, Hch.
  apply collect_destroyed_Ok in Hds. rewrite list.Forall_forall in Hds. split_and!.
  - intros o Ho. destruct (Hcr o Ho) as (Hin & Hv & Hdig & _). split; [done..|].
    rewrite elem_of_list_to_set, Hfresh, list_elem_of_fmap in Hin.
    destruct Hin as (k & Hk & _). eauto.
  - intros o. rewrite elem_of_app. intros [?%Hcr|?%Hch]; naive_solver.
  - intros o. rewrite elem_of_app. intros [(_ & i & Hi & Hv & Hdig)%Hch|(id & i & Hi & Ht)%Hds].
    + apply input_by_addr_Some in Hi as [Hin Ha]. exists i. split_and!; [done|by split|auto].
    + apply input_by_addr_Some in Hi as [Hin _]. eauto.
Qed.

(** ** Arguments *)
Lemma resolve_object_arg_Ok r sender inputs v :
  resolve_object_arg r sender inputs = Ok v →
  ∃ o, find_object inputs (ref_address r) = Some o ∧ usable sender o ∧ object_ref o = r ∧
    object_to_vm_object_value o = Ok v.
Proof.
  unfold resolve_object_arg. intros Hr.
  apply bind_Ok in Hr as (o & Ho%ok_or_Ok & Hr). exists o. split; [done|]. inv_guards Hr.
  apply map_err_Ok in Hr. apply find_object_Some in Ho as [_ Ha].
  split_and!; [|by destruct r; unfold object_ref; simpl in *; congruence|done].
  split; [|done..]. destruct (obj_owner o); simpl in *; congruence.
Qed.

Lemma resolve_args_loop_Ok i args params sender inputs vs os :
  resolve_args_loop i args params sender inputs = Ok (vs, os) →
  Forall (λ o, o ∈ inputs ∧ usable sender o) os.
Proof.
  revert i params vs os. induction args as [|arg args IH]; intros i [|[n ty] params] vs os Hr;
    simpl in Hr; try by simplify_eq.
  apply bind_Ok in Hr as (v & Hv%map_err_Ok & Hr). apply bind_Ok in Hr as ([vs' os'] & Hrec & Hr).
  apply IH in Hrec. destruct arg as [r|bs]; simplify_eq/=; [|done].
  apply resolve_object_arg_Ok in Hv as (o & Ho & Hu & _ & _). rewrite Ho. constructor; [|done].
  apply find_object_Some in Ho as [? _]. done.
Qed.

Lemma resolve_args_Ok c f sender inputs vs os :
  resolve_args c f sender inputs = Ok (vs, os) →
  Forall (λ o, o ∈ inputs ∧ usable sender o) os.
Proof.
  unfold resolve_args. intros Hr. inv_guards Hr. by eapply resolve_args_loop_Ok.
Qed.

(** The value of a raw argument: its bytes read at the declared type. *)
Definition raw_value (ty : Ty.t) (bytes : list Z) (v : Value.t) : Prop :=
  match ty with
  | Ty.U64 => ∃ n, bcs_u64_decode bytes = Some n ∧ v = Value.U64 n
  | Ty.Bool => ∃ b, bcs_bool_decode bytes = Some b ∧ v = Value.Bool b
  | Ty.Address => ∃ a, bcs_address_decode bytes = Some a ∧ v = Value.Address a
  | Ty.Str => ∃ x, bcs_str_decode bytes = Some x ∧ v = Value.Str x
  | Ty.Struct _ | Ty.Tuple _ => False
  end.
(** An object argument that is accepted: the current version of an object of
    the sender, with readable content. *)
Record object_value (sender : Address) (inputs : list Object) (r : ObjectRef) (o : Object)
    (v : Value.t) : Prop := {
  ov_found : find_object inputs (ref_address r) = Some o;
  ov_usable : usable sender o;
  ov_ref : object_ref o = r;
  ov_value : object_to_vm_object_value o = Ok v;
}.
(** Arguments, parameters, their values, and the objects among them. *)
Inductive resolved (sender : Address) (inputs : list Object)
  : list Input → list (string * Ty.t) → list Value.t → list Object → Prop :=
  | resolved_nil : resolved sender inputs [] [] [] []
  | resolved_object r o v p args params vs os :
      object_value sender inputs r o v → resolved sender inputs args params vs os →
      resolved sender inputs (InputObject r :: args) (p :: params) (v :: vs) (o :: os)
  | resolved_raw bytes v p args params vs os :
      raw_value (snd p) bytes v → resolved sender inputs args params vs os →
      resolved sender inputs (InputRaw bytes :: args) (p :: params) (v :: vs) os.

Lemma resolve_raw_arg_exact bytes ty v : resolve_raw_arg bytes ty = Ok v ↔ raw_value ty bytes v.
Proof.
  destruct ty; simpl; try naive_solver;
    rewrite fmap_Ok; setoid_rewrite ok_or_Ok; naive_solver.
Qed.
Lemma resolve_object_arg_exact r sender inputs v :
  resolve_object_arg r sender inputs = Ok v ↔ ∃ o, object_value sender inputs r o v.
Proof.
  split; [intros (o & ? & ? & ? & ?)%resolve_object_arg_Ok; by exists o|].
  intros (o & [Hf [Ho Ht Hm] Hr Hv]). subst r. unfold resolve_object_arg. rewrite Hf. simpl.
  rewrite Ho. simpl. rewrite !bool_decide_eq_false_2 by (done || by intros []). simpl.
  by rewrite Hv.
Qed.
Lemma resolve_args_loop_exact i args params sender inputs vs os :
  length args = length params →
  resolve_args_loop i args params sender inputs = Ok (vs, os) ↔
  resolved sender inputs args params vs os.
Proof.
  revert i params vs os. induction args as [|arg args IH]; intros i [|[x ty] params] vs os Hl;
    simplify_eq/=; [split; [intros; simplify_eq; constructor|by inversion 1]|].
  rewrite bind_Ok. setoid_rewrite map_err_Ok. setoid_rewrite bind_Ok. split.
  - intros (v & Hv & [vs' os'] & Hrec%IH & Heq); [|done].
    destruct arg as [r|bytes]; simpl in *; simplify_eq.
    + apply resolve_object_arg_exact in Hv as [o Ho]. rewrite (ov_found _ _ _ _ _ Ho). by constructor.
    + apply resolve_raw_arg_exact in Hv. by constructor.
  - inversion 1 as [|r o v p ? ? ws qs Hv Hrec|bytes v p ? ? ws qs Hv Hrec]; simplify_eq; exists v;
      (split; [|eexists (ws, _); split; [by apply IH|]]).
    + apply resolve_object_arg_exact. eauto.
    + simpl. by rewrite (ov_found _ _ _ _ _ Hv).
    + by apply resolve_raw_arg_exact.
    + done.
Qed.

(** Parameters that differ only where an object is passed. *)
Definition same_raw_params (args : list Input) (ps ps' : list (string * Ty.t)) : Prop :=
  length ps = length ps' ∧
  ∀ i bytes p p', args !! i = Some (InputRaw bytes) → ps !! i = Some p → ps' !! i = Some p' →
    snd p = snd p'.
Lemma resolve_args_loop_params i args ps ps' sender inputs :
  same_raw_params args ps ps' →
  resolve_args_loop i args ps sender inputs = resolve_args_loop i args ps' sender inputs.
Proof.
  revert i ps ps'. induction args as [|arg args IH]; intros i [|[x ty] ps] [|[x' ty'] ps'] [Hl Hs];
    simplify_eq/=; try done.
  rewrite (IH _ ps ps'); [|split; [done|intros j; apply (Hs (S j))]].
  destruct arg as [r|bytes]; [done|]. by pose proof (Hs 0 bytes (x, ty) (x', ty') eq_refl eq_refl eq_refl)
    as Heq; simpl in Heq; subst.
Qed.

Lemma resolve_gas_coin_Ok r sender inputs coin :
  resolve_gas_coin_object r sender inputs = Ok coin →
  coin ∈ inputs ∧ obj_address coin = ref_address r ∧ usable sender coin ∧
  is_meow_coin_object coin = true ∧ object_ref coin = r.
Proof.
  unfold resolve_gas_coin_object. intros Hr.
  apply bind_Ok in Hr as (o & Ho%ok_or_Ok & Hr). inv_guards Hr. simplify_eq.
  apply find_object_Some in Ho as [? Ha].
  assert (Hm : is_meow_coin_object coin = true) by by apply negb_false_iff.
  split_and!; [done..| |done|by destruct r; unfold object_ref; simpl in *; congruence].
  split; [|by unfold is_meow_coin_object in Hm; intros Ht; rewrite Ht in Hm|done].
  destruct (obj_owner coin); simpl in *; congruence.
Qed.
End effects_props.

(** ** The executor *)
Section executor_props.
Context `{PrefixHex, Crypto, Bcs, Rng}.

Lemma or_failure_Ok {A} (m : outcome string A) d gas k r gas' :
  or_failure m d gas k = Ok (r, gas') →
  (∃ e, m = Err e ∧ r = result_failure e d ∧ gas' = gas) ∨ (∃ a, m = Ok a ∧ k a = Ok (r, gas')).
Proof. destruct m; naive_solver. Qed.

(** The effects of a transaction of [sender] on [inputs]. *)
Record effects_ok (sender : Address) (d : Digest) (inputs : list Object) (r : ExecutionResult)
  : Prop := {
  eo_digest : res_transaction_digest r = d;
  eo_failure : res_status r ≠ Success →
    res_created r = [] ∧ res_changed r = [] ∧ res_destroyed r = [];
  eo_created : Forall (created_by d) (res_created r);
  eo_touched : Forall (λ o, ∃ i, i ∈ inputs ∧ touched d i o ∧ usable sender i)
    (res_changed r ++ res_destroyed r);
}.

Lemma effects_ok_failure sender d inputs e : effects_ok sender d inputs (result_failure e d).
Proof. by split; simpl; auto. Qed.

(** A created or changed object is no module, or a verified one. *)
Definition verified_module_object (inputs : list Object) (o : Object) : Prop :=
  ∃ m deps, bcs_module_decode (obj_content o) = Some m ∧
    resolve_dep_modules inputs (mod_imports m) = Ok deps ∧
    verify m deps adapter_native_sigs compiler_config = Ok () ∧
    adapter_verify m deps adapter_native_sigs = Ok ().
Definition output_ok (inputs : list Object) (o : Object) : Prop :=
  obj_type o = TypeModule → verified_module_object inputs o.

Lemma run_call_Ok fuel a module deps cfg fn args sender os c d inputs gas r gas' :
  wf_context c → cx_tx_digest c = d → wf_gas gas →
  Forall (λ o, o ∈ inputs ∧ usable sender o) os →
  run_call fuel (adapter_vm a module deps cfg) fn args os c d gas = Ok (r, gas') →
  effects_ok sender d inputs r ∧ gas_le gas gas' ∧
  Forall (output_ok inputs) (res_created r ++ res_changed r).
Proof.
  intros Hc Hd Hg Hos Hr. unfold run_call in Hr.
  destruct (call _ fuel fn args (gas, c)) as [res [g1 c1]] eqn:Hcall.
  pose proof (adapter_call_gas _ _ _ _ _ _ _ _ _ _ _ _ Hg Hcall) as Hgas.
  destruct (adapter_call_context _ _ _ _ _ _ _ _ _ _ _ _ Hc Hcall) as [Hc1 (_ & Hd1 & _)].
  destruct res as [ret|e|s|]; simplify_eq/=.
  2: { split_and!; [apply effects_ok_failure|done|by constructor]. }
  destruct (collect_object_effects c1 os (cx_tx_digest c)) as [[[cr ch] ds]|e|s|] eqn:He;
    simplify_eq/=.
  2: { split_and!; [by split; simpl; auto|done|by constructor]. }
  apply (collect_object_effects_Ok c1 sender) in He as (Hcr & Hty & Hto); [|done|congruence|].
  2: { eapply list.Forall_impl; [done|]. by intros o [_ ?]. }
  split_and!; [|done|].
  - split; simpl; [done..| |].
    + done.
    + eapply list.Forall_impl; [done|]. intros o (i & Hi & ? & ?). exists i. split_and!; [|done..].
      rewrite list.Forall_forall in Hos. by apply Hos.
  - eapply list.Forall_impl; [done|]. by intros o Ho Ht.
Qed.

Lemma execute_meow_call_Ok fuel sender d c inputs gas cfg ctx r gas' :
  wf_gas gas → execute_meow_call fuel sender d c inputs gas cfg ctx = Ok (r, gas') →
  effects_ok sender d inputs r ∧ gas_le gas gas' ∧
  Forall (output_ok inputs) (res_created r ++ res_changed r).
Proof.
  intros Hg Hr. unfold execute_meow_call in Hr.
  assert (Hfail : ∀ e, effects_ok sender d inputs (result_failure e d) ∧ gas_le gas gas ∧
    Forall (output_ok inputs) []) by (intros; split_and!; [apply effects_ok_failure|done..]).
  apply or_failure_Ok in Hr as [(e & _ & -> & ->)|(module & Hm & Hr)]; [apply Hfail|].
  apply or_failure_Ok in Hr as [(e & _ & -> & ->)|(deps & Hdeps & Hr)]; [apply Hfail|].
  apply or_failure_Ok in Hr as [(e & _ & -> & ->)|(func & Hf & Hr)]; [apply Hfail|].
  apply or_failure_Ok in Hr as [(e & _ & -> & ->)|([] & _ & Hr)]; [apply Hfail|].
  apply or_failure_Ok in Hr as [(e & _ & -> & ->)|([vs os] & Hargs & Hr)]; [apply Hfail|].
  rewrite vm_new_adapter in Hr. eapply run_call_Ok; [..|exact Hr]; [|done..|].
  - apply context_new_wf.
  - by eapply resolve_args_Ok.
Qed.

Lemma execute_publish_Ok d module inputs gas r gas' sender :
  wf_gas gas → execute_meow_module_publish d module inputs gas = Ok (r, gas') →
  effects_ok sender d inputs r ∧ gas_le gas gas' ∧
  Forall (output_ok inputs) (res_created r ++ res_changed r).
Proof.
  intros Hg Hr. unfold execute_meow_module_publish in Hr.
  assert (Hfail : ∀ e g, gas_le gas g → effects_ok sender d inputs (result_failure e d) ∧
    gas_le gas g ∧ Forall (output_ok inputs) [])
    by (intros; split_and!; [apply effects_ok_failure|done..]).
  apply or_failure_Ok in Hr as [(e & _ & -> & ->)|([] & _ & Hr)]; [by apply Hfail|].
  apply or_failure_Ok in Hr as [(e & _ & -> & ->)|(m & Hm%ok_or_Ok & Hr)]; [by apply Hfail|].
  apply or_failure_Ok in Hr as [(e & _ & -> & ->)|(deps & Hdeps%map_err_Ok & Hr)];
    [by apply Hfail|].
  apply or_failure_Ok in Hr as [(e & _ & -> & ->)|([] & Hv & Hr)]; [by apply Hfail|].
  destruct (charge gas _) as [charged g] eqn:Hch.
  apply charge_le in Hch as Hle; [|unfold GAS_PER_MODULE_BYTE; lia|done].
  apply or_failure_Ok in Hr as [(e & _ & -> & ->)|([] & _ & Hr)]; [by apply Hfail|].
  simplify_eq. split_and!; [|done|].
  - split; simpl; [done..| |done]. constructor; [|done]. split; [done..|]. by exists 0.
  - constructor; [|done]. intros _. exists m, deps. unfold verify_published in Hv.
    apply bind_Ok in Hv as ([] & Hv1%map_err_Ok & Hv2%map_err_Ok). by split_and!.
Qed.

(** A successful run of [execute], taken apart. *)
Lemma execute_inv fuel t inputs ctx r :
  execute fuel t inputs ctx = Ok r →
  ∃ coin b r0 gas, resolve_gas_coin_object (tx_gas_coin t) (tx_sender t) inputs = Ok coin ∧
    balance_from_object coin = Some b ∧
    (in_u64 b → (Z.min BASE_TRANSACTION_GAS_COST b ≤ spent gas ≤ b)%Z ∧
      effects_ok (tx_sender t) (tx_digest t) inputs r0 ∧
      Forall (output_ok inputs) (res_created r0 ++ res_changed r0)) ∧
    apply_gas_spending (E:=ExecutorError.t) r0 coin (spent gas) (tx_digest t) = Ok r.
Proof.
  unfold execute. intros Hx. apply bind_Ok in Hx as (coin & Hcoin & Hx).
  apply bind_Ok in Hx as (b & Hb%expect_Ok & Hx).
  destruct (charge (gas_new b) BASE_TRANSACTION_GAS_COST) as [charged g] eqn:Hch.
  apply bind_Ok in Hx as ([r0 gas] & Hr0 & Hx). exists coin, b, r0, gas. split_and!; [done..| |done].
  intros Hu. pose proof (gas_new_wf b Hu) as Hwf.
  apply charge_le in Hch as Hle; [|done..].
  apply charge_spent in Hch as [Hsp Hlim]; [|done..]. simpl in Hsp, Hlim.
  assert (Hg : wf_gas g) by by apply Hle.
  assert (Hend : ∀ g', gas_le g g' → (Z.min BASE_TRANSACTION_GAS_COST b ≤ spent g' ≤ b)%Z).
  { intros g' (Hl & Hs & Hw). specialize (Hw Hg). unfold wf_gas in Hw. lia. }
  apply or_failure_Ok in Hr0 as [(e & _ & -> & ->)|([] & _ & Hr0)].
  - split_and!; [by apply Hend..|apply effects_ok_failure|by constructor].
  - destruct (tx_type t) as [c|module].
    + apply execute_meow_call_Ok in Hr0 as (He & Hle' & Ho); [|done]. split; [by apply Hend|by split].
    + apply (execute_publish_Ok _ _ _ _ _ _ (tx_sender t)) in Hr0 as (He & Hle' & Ho); [|done].
      split; [by apply Hend|by split].
Qed.

Lemma apply_gas_spending_Ok {E} r0 coin spent d r :
  apply_gas_spending (E:=E) r0 coin spent d = Ok r →
  ∃ content ver, deduct_gas coin spent = Some content ∧ version_next (obj_version coin) = Some ver ∧
    r = mkResult (res_status r0) (res_transaction_digest r0) (res_created r0)
          (res_changed r0 ++
             [mkObject (obj_address coin) (obj_owner coin) d ver (obj_type coin) content])
          (res_destroyed r0) spent.
Proof.
  unfold apply_gas_spending. intros Hr. apply bind_Ok in Hr as (content & Hc%expect_Ok & Hr).
  apply bind_Ok in Hr as (ver & Hv%bump_version_Ok & Hr). simplify_eq. by exists content, ver.
Qed.
End executor_props.

(** ** Termination *)

(** An object whose code, if it is a module, is short and only jumps forward. *)
Definition runnable_within `{Bcs} (L : nat) (o : Object) : Prop :=
  obj_type o = TypeModule → ∀ m, bcs_module_decode (obj_content o) = Some m →
    module_ok (λ c, code_at_most L c ∧ forward_only c) m.

Lemma module_index_Some inputs a o :
  module_index inputs !! a = Some o → o ∈ inputs ∧ obj_type o = TypeModule ∧ obj_address o = a.
Proof.
  intros Ho. apply (input_by_addr_Some (filter (λ o, obj_type o = TypeModule) inputs)) in Ho
    as [[? ?]%list_elem_of_filter ?]. done.
Qed.

Section finishes.
Context `{PrefixHexLaws, !Crypto, !Bcs, !CryptoLaws, !BcsLaws, !Rng}.

Lemma resolve_dep_modules_found inputs imports deps a m :
  resolve_dep_modules inputs imports = Ok deps → deps !! a = Some m →
  ∃ o, o ∈ inputs ∧ obj_type o = TypeModule ∧ obj_address o = a ∧
    bcs_module_decode (obj_content o) = Some m.
Proof.
  intros Hd Hm. unfold resolve_dep_modules in Hd.
  destruct (resolve_loop_sound (module_index inputs) imports
    (search_fuel (module_index inputs) imports) ∅ (reverse imports)
    (search_inv_init _ _)) as [Hs _].
  rewrite Hd in Hs. apply Hs in Hm as [_ (o & Ho & Hdec & _)%module_at_Some].
  apply module_index_Some in Ho as (? & ? & ?). eauto.
Qed.

Lemma resolve_module_found inputs a m :
  resolve_module inputs a = Ok m →
  ∃ o, o ∈ inputs ∧ obj_type o = TypeModule ∧ obj_address o = a ∧
    bcs_module_decode (obj_content o) = Some m.
Proof.
  unfold resolve_module. intros Hm. apply bind_Ok in Hm as (o & Ho%ok_or_Ok & Hm%ok_or_Ok).
  apply find_first_Some in Ho as [? [?%bool_decide_eq_true ?%bool_decide_eq_true]%andb_true_iff].
  eauto.
Qed.

Lemma outcome_fuel_bind {E A B} (m : outcome E A) (f : A → outcome E B) :
  m ≠ NoFuel → (∀ a, m = Ok a → f a ≠ NoFuel) → m ≫= f ≠ NoFuel.
Proof. destruct m; naive_solver. Qed.
Lemma outcome_fuel_expect {E A} (o : option A) s : expect (E:=E) o s ≠ NoFuel.
Proof. by destruct o. Qed.

Lemma outcome_fuel_assert {E} b s : rust_assert (E:=E) b s ≠ NoFuel.
Proof. by destruct b. Qed.

Lemma or_failure_finishes {A} (m : outcome string A) d gas k :
  m ≠ NoFuel → (∀ a, m = Ok a → k a ≠ NoFuel) → or_failure m d gas k ≠ NoFuel.
Proof. destruct m; naive_solver. Qed.

Lemma resolve_args_returns c f sender inputs : no_panic (resolve_args c f sender inputs).
Proof.
  unfold resolve_args. apply no_panic_bind; [apply no_panic_guard|intros _ _].
  generalize 0. generalize (fn_params f). induction (call_arguments c) as [|arg args IH];
    intros [|[n ty] params] i; simpl; try done.
  apply no_panic_bind; [|intros v _; apply no_panic_bind; [apply IH|by intros [] _]].
  apply no_panic_map_err. unfold resolve_arg, resolve_object_arg, resolve_raw_arg,
    object_to_vm_object_value. solve_no_panic.
Qed.

Lemma resolve_module_returns inputs a : no_panic (resolve_module inputs a).
Proof. unfold resolve_module. solve_no_panic. Qed.
Lemma resolve_gas_coin_returns r sender inputs :
  no_panic (resolve_gas_coin_object r sender inputs).
Proof. unfold resolve_gas_coin_object. solve_no_panic. Qed.

Lemma collect_effects_finishes c os d : collect_object_effects c os d ≠ NoFuel.
Proof.
  unfold collect_object_effects. apply outcome_fuel_bind.
  { induction os as [|o os IH]; simpl; [done|].
    repeat (apply outcome_fuel_bind; [apply outcome_fuel_assert|intros _ _]). done. }
  intros _ _. apply outcome_fuel_bind.
  { apply no_panic_fuel. induction (cx_fresh_ids c); simpl; [done|]. solve_no_panic. }
  intros _ _. apply outcome_fuel_bind.
  { apply no_panic_fuel. clear. generalize (transferred_ids c ∪ list_to_set (cx_destroyed c)).
    intros X. induction os; simpl; [done|]. solve_no_panic. }
  intros _ _. apply outcome_fuel_bind.
  { induction (cx_transfers c) as [|[v w] l IH]; simpl; [done|].
    apply outcome_fuel_bind; [apply outcome_fuel_expect|intros id _].
    apply outcome_fuel_bind; [case_bool_decide; [done|]|intros ver _].
    - apply outcome_fuel_bind; [apply outcome_fuel_expect|intros; apply outcome_fuel_expect].
    - apply outcome_fuel_bind; [by case_match|intros o _].
      apply outcome_fuel_bind; [done|]. by intros [] _. }
  intros [cr ch] _. apply outcome_fuel_bind; [|by intros].
  induction (cx_destroyed c) as [|id l IH]; simpl; [done|]. case_bool_decide; [done|].
  apply outcome_fuel_bind; [apply outcome_fuel_expect|intros i _].
  apply outcome_fuel_bind; [apply outcome_fuel_expect|intros ver _].
  by apply outcome_fuel_bind.
Qed.

(** A call into modules that come from runnable objects. *)
Lemma execute_meow_call_finishes L fuel sender d c inputs gas cfg ctx :
  fuel_by_depth L cfg ≤ fuel → wf_gas gas → Forall (runnable_within L) inputs →
  execute_meow_call fuel sender d c inputs gas cfg ctx ≠ NoFuel.
Proof.
  intros Hfuel Hg Hin. rewrite list.Forall_forall in Hin. unfold execute_meow_call.
  apply or_failure_finishes; [apply no_panic_fuel, resolve_module_returns|intros module Hm].
  apply or_failure_finishes; [apply no_panic_fuel, resolve_dep_modules_returns|intros deps Hd].
  apply or_failure_finishes; [apply no_panic_fuel, no_panic_ok_or|intros f _].
  apply or_failure_finishes; [apply no_panic_fuel, no_panic_guard|intros _ _].
  apply or_failure_finishes; [apply no_panic_fuel, resolve_args_returns|intros [vs os] _].
  rewrite vm_new_adapter. unfold run_call.
  destruct (call _ fuel _ vs _) as [res [g1 c1]] eqn:Hcall.
  assert (Hres : res ≠ NoFuel).
  { intros ->. pose proof (call_finishes_by_depth
      (adapter_vm (call_module c) module deps cfg) L
      (identifier_str (call_function c)) vs gas
      (context_new sender d (rand_seed ctx) (ctx_timestamp ctx))) as Hfin. simpl in Hfin.
    assert (Hno : fst (call (adapter_vm (call_module c) module deps cfg)
      (fuel_by_depth L cfg) (identifier_str (call_function c)) vs
      (gas, context_new sender d (rand_seed ctx) (ctx_timestamp ctx))) ≠ NoFuel).
    { apply Hfin; [apply adapter_vm_wf|..|done].
      - apply resolve_module_found in Hm as (o & Ho & Ht & _ & Hdec). by apply (Hin o Ho Ht).
      - intros a m Ha. destruct (resolve_dep_modules_found _ _ _ _ _ Hd Ha)
          as (o & Ho & Ht & _ & Hdec). by apply (Hin o Ho Ht). }
    destruct (call_fuel_le (adapter_vm (call_module c) module deps cfg) _ _
      (identifier_str (call_function c)) vs Hfuel
      (gas, context_new sender d (rand_seed ctx) (ctx_timestamp ctx))) as [Hn|He]; [done|].
    apply Hno. rewrite He. by rewrite Hcall. }
  destruct res; try done. pose proof (collect_effects_finishes c1 os d).
  by destruct (collect_object_effects c1 os d) as [[[??]?]| | |].
Qed.

Lemma execute_publish_finishes d module inputs gas :
  execute_meow_module_publish d module inputs gas ≠ NoFuel.
Proof.
  unfold execute_meow_module_publish.
  apply or_failure_finishes; [apply no_panic_fuel, no_panic_guard|intros _ _].
  apply or_failure_finishes; [apply no_panic_fuel, no_panic_ok_or|intros m _].
  apply or_failure_finishes;
    [apply no_panic_fuel, no_panic_map_err, resolve_dep_modules_returns|intros deps _].
  apply or_failure_finishes.
  { apply no_panic_fuel. unfold verify_published, verify, adapter_verify. solve_no_panic. }
  intros _ _. unfold charge. case_bool_decide; simpl; done.
Qed.

Lemma execute_finishes_within L fuel t inputs ctx :
  fuel_by_depth L vm_config ≤ fuel → Forall (runnable_within L) inputs →
  execute fuel t inputs ctx ≠ NoFuel.
Proof.
  intros Hf Hin. unfold execute. apply outcome_fuel_bind;
    [apply no_panic_fuel, resolve_gas_coin_returns|intros coin _].
  apply outcome_fuel_bind; [apply outcome_fuel_expect|intros b Hb%expect_Ok].
  apply balance_in_u64, gas_new_wf in Hb.
  destruct (charge (gas_new b) BASE_TRANSACTION_GAS_COST) as [charged g] eqn:Hch.
  apply charge_le in Hch as Hle; [|done..].
  apply outcome_fuel_bind.
  - apply or_failure_finishes; [unfold charge in Hch; by case_bool_decide; simplify_eq|intros _ _].
    destruct (tx_type t); [|apply execute_publish_finishes].
    eapply execute_meow_call_finishes; [done|by apply Hle|done].
  - intros [r0 gas] _. unfold apply_gas_spending.
    apply outcome_fuel_bind; [apply outcome_fuel_expect|intros ? _].
    apply outcome_fuel_bind; [apply outcome_fuel_expect|done].
Qed.

Lemma fuel_by_depth_privileged L : fuel_by_depth L vm_config_privileged = fuel_by_depth L vm_config.
Proof. done. Qed.

Lemma execute_system_finishes_within L fuel t inputs :
  fuel_by_depth L vm_config ≤ fuel → Forall (runnable_within L) inputs →
  execute_system_transaction fuel t inputs ≠ NoFuel.
Proof.
  intros Hf Hin. unfold execute_system_transaction. destruct (tx_type t) as [c|]; [|done].
  pose proof (execute_meow_call_finishes L fuel (tx_sender t) (tx_digest t) c inputs gas_unlimited
    vm_config_privileged ExternalContext_default) as Hfin.
  destruct (execute_meow_call fuel _ _ c inputs gas_unlimited _ _); try done.
  exfalso. apply Hfin; [by rewrite fuel_by_depth_privileged|by apply gas_new_wf|done|done].
Qed.

(** What the executor makes of runnable objects is runnable. *)
Lemma output_ok_runnable inputs o :
  output_ok inputs o → runnable_within (code_bound compiler_config) o.
Proof.
  intros Ho Ht m Hm. destruct (Ho Ht) as (m' & deps & Hm' & _ & Hv & _). simplify_eq.
  by eapply verify_module_ok.
Qed.
End finishes.

(** * Collected inputs are as good as the whole store

    The executor looks at its inputs only at the addresses a transaction
    needs; on two lists of stored objects that have the same objects there it
    does the same. *)

Section lookups.
Context `{PrefixHex, Crypto, Bcs} (m : gmap Address Object).

(** [l] holds objects of the store, and all it has at [a]. *)
Definition stored (l : list Object) : Prop := ∀ o, o ∈ l → m !! obj_address o = Some o.
Definition covers (l : list Object) (a : Address) : Prop := ∀ o, m !! a = Some o → o ∈ l.
Context (Hm : map_Forall (λ a o, obj_address o = a) m).

Lemma find_first_stored (p : Object → bool) l a :
  stored l → covers l a →
  find_first (λ o, p o && bool_decide (obj_address o = a)) l =
    (o ← m !! a; if p o then Some o else None).
Proof using Hm.
  intros Hs Hc. destruct (find_first _ l) as [o|] eqn:Hf.
  - apply find_first_Some in Hf as [Hin [Hp <-%bool_decide_eq_true]%andb_true_iff].
    rewrite (Hs _ Hin). simpl. by rewrite Hp.
  - destruct (m !! a) as [o|] eqn:Ho; simpl; [|done]. destruct (p o) eqn:Hp; [|done].
    pose proof (find_first_None _ _ Hf o (Hc _ Ho)) as Hn. simpl in Hn.
    rewrite Hp in Hn. simpl in Hn.
    apply Hm in Ho. by rewrite bool_decide_true in Hn.
Qed.

Lemma find_object_stored l a : stored l → covers l a → find_object l a = m !! a.
Proof using Hm.
  intros Hs Hc. unfold find_object. change (λ o, bool_decide (obj_address o = a)) with
    (λ o, true && bool_decide (obj_address o = a)).
  rewrite (find_first_stored (λ _, true)) by done. by destruct (m !! a).
Qed.

Definition module_objects : gmap Address Object := filter (λ p, obj_type (snd p) = TypeModule) m.

Lemma module_index_stored l a :
  stored l → covers l a → module_index l !! a = module_objects !! a.
Proof using Hm.
  intros Hs Hc. apply option_eq. intros o. unfold module_objects. rewrite map_lookup_filter_Some.
  simpl. split.
  - intros (Hin & Ht & <-)%module_index_Some. auto.
  - intros [Ho Ht]. pose proof (Hm _ _ Ho) as Ha. apply Hc in Ho as Hin.
    destruct (module_index l !! a) as [o'|] eqn:Hx.
    + apply module_index_Some in Hx as (Hin' & _ & <-). apply Hs in Hin'. congruence.
    + exfalso. revert Hx. unfold module_index.
      assert (Hinf : o ∈ filter (λ o, obj_type o = TypeModule) l) by by apply list_elem_of_filter.
      enough (∀ m0 : gmap Address Object, is_Some (foldl (λ m o, <[obj_address o := o]> m) m0
        (filter (λ o, obj_type o = TypeModule) l) !! a)) as Hg.
      { intros Hx. destruct (Hg ∅) as [? Hg']. by rewrite Hx in Hg'. }
      revert Hinf. induction (filter (λ o, obj_type o = TypeModule) l) as [|x k IH];
        [by intros ?%not_elem_of_nil|]. intros Hinf m0. simpl.
      apply elem_of_cons in Hinf as [<-|Hk]; [|by apply IH].
      enough (∀ m1 : gmap Address Object, is_Some (m1 !! a) →
        is_Some (foldl (λ m o, <[obj_address o := o]> m) m1 k !! a)) as Hkeep.
      { apply Hkeep. rewrite Ha, lookup_insert_eq. eauto. }
      clear. induction k as [|y k IH]; intros m1 Hm1; simpl; [done|]. apply IH.
      destruct (decide (obj_address y = a)) as [->|]; [rewrite lookup_insert_eq; eauto|].
      by rewrite lookup_insert_ne.
Qed.
End lookups.

(** ** Dependency resolution on two indices *)
Section resolve.
Context `{PrefixHex, Crypto, Bcs}.

Lemma resolve_loop_agree (index index' : gmap Address Object) (X : Address → Prop) n deps queue :
  (∀ a, X a → index !! a = index' !! a) → (∀ a b, X a → b ∈ import_succ index a → X b) →
  (∀ a, a ∈ queue → X a) →
  resolve_loop n index deps queue = resolve_loop n index' deps queue.
Proof.
  intros Hag HX. revert deps queue. induction n as [|n IH]; intros deps queue Hq; [done|].
  destruct queue as [|a queue]; simpl; [done|].
  assert (Hq' : ∀ b, b ∈ queue → X b) by (intros; apply Hq; by right).
  assert (Ha : X a) by (apply Hq; by left).
  case_bool_decide; [by apply IH|]. rewrite <-Hag by done.
  destruct (index !! a) as [o|] eqn:Ho; simpl; [|done].
  destruct (bcs_module_decode (obj_content o)) as [mo|] eqn:Hd; simpl; [|done].
  apply IH. intros b. rewrite elem_of_enqueue. intros [?|[Hb _]]; [auto|].
  apply (HX a); [done|]. unfold import_succ, object_imports. by rewrite Ho, Hd.
Qed.

Lemma resolve_loop_mono index n n' deps queue :
  n ≤ n' → resolve_loop n index deps queue ≠ NoFuel →
  resolve_loop n' index deps queue = resolve_loop n index deps queue.
Proof.
  revert n' deps queue. induction n as [|n IH]; intros [|n'] deps queue Hle; simpl; try done; [lia|].
  intros Hn. destruct queue as [|a queue]; [done|].
  case_bool_decide; [apply IH; [lia|done]|].
  destruct (index !! a) as [o|]; simpl in *; [|done].
  destruct (bcs_module_decode (obj_content o)) as [mo|]; simpl in *; [|done].
  apply IH; [lia|done].
Qed.

Lemma resolve_dep_modules_agree l l' imports (X : Address → Prop) :
  (∀ a, X a → module_index l !! a = module_index l' !! a) →
  (∀ a b, X a → b ∈ import_succ (module_index l) a → X b) →
  (∀ a, a ∈ imports → X a) →
  resolve_dep_modules l imports = resolve_dep_modules l' imports.
Proof.
  intros Hag HX Hi. pose proof (no_panic_fuel _ (resolve_dep_modules_returns l imports)) as H1'.
  pose proof (no_panic_fuel _ (resolve_dep_modules_returns l' imports)) as H2'.
  unfold resolve_dep_modules in *. set (n := search_fuel (module_index l) imports) in *.
  set (n' := search_fuel (module_index l') imports) in *.
  rewrite <-(resolve_loop_mono _ n (n `max` n')) by (done || lia).
  rewrite <-(resolve_loop_mono _ n' (n `max` n')) by (done || lia).
  apply (resolve_loop_agree _ _ X); [done..|]. intros a. rewrite elem_of_reverse. auto.
Qed.
End resolve.

(** ** The executor on two lists of inputs *)
Section agree.
Context `{PrefixHex, Crypto, Bcs, Rng} (m : gmap Address Object).
Context (Hm : map_Forall (λ a o, obj_address o = a) m).
Context (l l' : list Object) (t : Transaction).
Context (Hs : stored m l) (Hs' : stored m l').
Context (Hc : ∀ a, needed m t a → covers m l a) (Hc' : ∀ a, needed m t a → covers m l' a).

Lemma or_failure_ext {A} (o o' : outcome string A) d gas k k' :
  o = o' → (∀ a, o = Ok a → k a = k' a) → or_failure o d gas k = or_failure o' d gas k'.
Proof. intros <- Hk. destruct o; simpl; auto. Qed.

Lemma find_object_agree a : needed m t a → find_object l a = find_object l' a.
Proof using Hm Hs Hs' Hc Hc'. intros Ha. by rewrite !(find_object_stored m) by auto. Qed.

Lemma module_index_agree a : needed m t a → module_index l !! a = module_index l' !! a.
Proof using Hm Hs Hs' Hc Hc'. intros Ha. by rewrite !(module_index_stored m) by auto. Qed.

Lemma module_index_succ a b :
  needed m t a → b ∈ import_succ (module_index l) a → b ∈ import_succ m a.
Proof using Hm Hs Hc.
  intros Ha. unfold import_succ. rewrite (module_index_stored m) by auto. unfold module_objects.
  destruct (filter _ m !! a) as [o|] eqn:Ho; [|by intros ?%not_elem_of_nil].
  apply map_lookup_filter_Some in Ho as [-> _]. done.
Qed.

Lemma resolve_args_agree c f sender :
  tx_type t = MeowCall c → resolve_args c f sender l = resolve_args c f sender l'.
Proof using Hm Hs Hs' Hc Hc'.
  intros Ht. unfold resolve_args. destruct (guard_err _ _); [|done..]. simpl.
  assert (Hargs : ∀ r, InputObject r ∈ call_arguments c →
    find_object l (ref_address r) = find_object l' (ref_address r)).
  { intros r Hr. apply find_object_agree. right. rewrite Ht. right. eauto. }
  revert Hargs. generalize 0. generalize (fn_params f). induction (call_arguments c) as [|arg args IH];
    intros [|[n ty] params] i Hargs; simpl; try done.
  rewrite IH by (intros; apply Hargs; by right).
  destruct arg as [r|bs]; simpl; [|done]. unfold resolve_object_arg.
  by rewrite (Hargs r) by by left.
Qed.

Lemma execute_meow_call_agree fuel sender d c gas cfg ctx :
  tx_type t = MeowCall c →
  execute_meow_call fuel sender d c l gas cfg ctx = execute_meow_call fuel sender d c l' gas cfg ctx.
Proof using Hm Hs Hs' Hc Hc'.
  intros Ht. unfold execute_meow_call.
  assert (Hmod : ∀ a, reach (import_succ m) [call_module c] a → needed m t a).
  { intros a Ha. right. rewrite Ht. by left. }
  assert (Hcm : needed m t (call_module c)) by (apply Hmod, reach_root; by left).
  assert (resolve_module l (call_module c) = resolve_module l' (call_module c)) as Heq.
  { unfold resolve_module. by rewrite !(find_first_stored m Hm) by auto. }
  apply or_failure_ext; [done|]. intros mo Hmo.
  apply or_failure_ext.
  { apply (resolve_dep_modules_agree _ _ _ (reach (import_succ m) [call_module c])).
    - intros a Ha. by apply module_index_agree, Hmod.
    - intros a b Ha Hb. apply reach_step with a; [done|]. apply module_index_succ; auto.
    - intros a Ha. apply reach_step with (call_module c); [apply reach_root; by left|].
      destruct (resolve_module_found _ _ _ Hmo) as (o & Ho & _ & Hoa & Hdec).
      unfold import_succ, object_imports. rewrite <-Hoa, (Hs _ Ho), Hdec. done. }
  intros deps _. apply or_failure_ext; [done|]. intros f _.
  apply or_failure_ext; [done|]. intros _ _.
  apply or_failure_ext; [by apply resolve_args_agree|]. done.
Qed.

Lemma execute_publish_agree d module gas :
  tx_type t = MeowModulePublish module →
  execute_meow_module_publish d module l gas = execute_meow_module_publish d module l' gas.
Proof using Hm Hs Hs' Hc Hc'.
  intros Ht. unfold execute_meow_module_publish.
  apply or_failure_ext; [done|]. intros _ _. apply or_failure_ext; [done|].
  intros mo Hmo%ok_or_Ok.
  assert (Hmod : ∀ a, reach (import_succ m) (mod_imports mo) a → needed m t a).
  { intros a Ha. right. rewrite Ht. eauto. }
  apply or_failure_ext; [|done]. f_equal.
  apply (resolve_dep_modules_agree _ _ _ (reach (import_succ m) (mod_imports mo))).
  - intros a Ha. by apply module_index_agree, Hmod.
  - intros a b Ha Hb. apply reach_step with a; [done|]. apply module_index_succ; auto.
  - intros a Ha. by apply reach_root.
Qed.

Lemma execute_agree fuel ctx : execute fuel t l ctx = execute fuel t l' ctx.
Proof using Hm Hs Hs' Hc Hc'.
  unfold execute. assert (resolve_gas_coin_object (tx_gas_coin t) (tx_sender t) l =
    resolve_gas_coin_object (tx_gas_coin t) (tx_sender t) l') as ->.
  { unfold resolve_gas_coin_object. by rewrite find_object_agree by by left. }
  destruct (resolve_gas_coin_object _ _ l') as [coin|?|?|]; simpl; [|done..].
  destruct (expect _ _) as [b|?|?|]; simpl; [|done..].
  destruct (charge _ _) as [charged g]. f_equal.
  destruct charged; simpl; [|done..].
  destruct (tx_type t) as [c|module] eqn:Ht; [by apply execute_meow_call_agree|
    by apply execute_publish_agree].
Qed.
End agree.
