(* ===== verification/AdapterTyping.v ===== *)
(** * The adapter's natives have the types that the verifier assumes

    The machine that the executor builds is linked in the sense of
    [VerifierSound] as soon as its modules are verified and the module of
    object identifiers is among them. *)

From S2P Require Import Prelude Address VmTypes Gas Vm VmProps VerifierStructural VerifierAbstract.
From S2P Require Import VerifierTyping VerifierSound ChainTypes Convert.
From S2P Require Import Framework Context AdapterProps.

(** The name that the code writes out for the type of identifiers is the one
    that [qualify] prints. *)
Definition id_name_qualified `{PrefixHex} : Prop :=
  MEOW_OBJECT_ID_BYTECODE_TYPE_NAME = qualify MEOW_OBJECT_MODULE_ADDRESS MEOW_OBJECT_ID_OBJECT_NAME.

(** [env] has the struct [Id] with its one field. *)
Definition id_declared (env : gmap Address VmModule) : Prop :=
  ∃ m def, env !! MEOW_OBJECT_MODULE_ADDRESS = Some m ∧
    get_struct m MEOW_OBJECT_ID_OBJECT_NAME = Some def ∧
    sd_fields def = [mkFieldDef "inner" Ty.Address].

Section natives.
Context `{PrefixHexLaws, !Crypto, !Bcs, !Rng}.
Context (Hname : id_name_qualified).

Lemma id_name_parses :
  parse_module_ref MEOW_OBJECT_ID_BYTECODE_TYPE_NAME =
    Some (MEOW_OBJECT_MODULE_ADDRESS, MEOW_OBJECT_ID_OBJECT_NAME).
Proof using All. rewrite Hname. apply parse_qualify. by apply (bool_decide_unpack _). Qed.

Lemma id_value_typed env a x :
  id_declared env →
  has_type env a (id_value x) (AbstractType.Struct MEOW_OBJECT_ID_BYTECODE_TYPE_NAME).
Proof using All.
  intros (m & def & Hm & Hdef & Hf). unfold id_value. apply has_type_struct.
  assert (Hr : resolve_name a MEOW_OBJECT_ID_BYTECODE_TYPE_NAME =
    (MEOW_OBJECT_MODULE_ADDRESS, MEOW_OBJECT_ID_OBJECT_NAME))
    by (unfold resolve_name; by rewrite id_name_parses).
  rewrite Hr. split; [apply id_name_parses|]. exists def. split.
  - unfold lookup_struct. cbn [fst snd]. by rewrite Hm.
  - rewrite Hf. by repeat constructor.
Qed.

(** Every native has the signature given to the verifier, and answers with a
    value of its return type. *)
Lemma native_entries_ok (vm : Vm Context) :
  id_declared (vm_env vm) →
  Forall2 (λ sig entry, nat_name entry = sig_name sig ∧ native_ok vm sig entry)
    adapter_native_sigs build_natives.
Proof using All.
  intros Hid. repeat constructor; try done; intros a args s v s' _ Hf; simpl in Hf;
    unfold native_fresh_id, native_transfer, native_destroy, native_sender, native_rand,
      native_timestamp, missing_argument in Hf; repeat case_match; simplify_eq; try done.
  by apply id_value_typed.
Qed.

Lemma native_entry_ok (vm : Vm Context) sig :
  id_declared (vm_env vm) → sig ∈ adapter_native_sigs →
  ∃ entry, entry ∈ build_natives ∧ nat_name entry = sig_name sig ∧ native_ok vm sig entry.
Proof using All.
  intros Hid [i Hi]%list_elem_of_lookup.
  destruct (Forall2_lookup_l _ _ _ _ _ (native_entries_ok vm Hid) Hi) as (entry & He & ? & ?).
  exists entry. split; [by eapply list_elem_of_lookup_2|done].
Qed.

Lemma adapter_natives_find name sig :
  find_first (λ n, String.eqb (sig_name n) name) (builtin_natives ++ adapter_native_sigs) = Some sig →
  sig = meow_vm_abort_sig ∧ name = MEOW_VM_ABORT ∨ sig ∈ adapter_native_sigs ∧ sig_name sig = name.
Proof.
  intros [[->|Hs]%elem_of_cons Hn%String.eqb_eq]%find_first_Some; [left|right]; done.
Qed.

Lemma adapter_native_entry name entry :
  entry ∈ build_natives → nat_name entry = name → adapter_natives !! name = Some entry.
Proof.
  intros He Hn. repeat (apply elem_of_cons in He as [->|He]); [..|by apply not_elem_of_nil in He];
    subst name; reflexivity.
Qed.

(** The machine is linked when its modules are verified. *)
Lemma adapter_linked a module deps cfg :
  let vm := adapter_vm a module deps cfg in
  map_Forall (module_verified vm adapter_native_sigs compiler_config) (vm_env vm) →
  deps ⊆ vm_env vm → id_declared (vm_env vm) →
  linked vm adapter_native_sigs compiler_config.
Proof using All.
  intros vm Hmods Hself Hid. split; [done..|].
  intros name sig [[-> ->]|[Hs Hn]]%adapter_natives_find.
  - exists meow_vm_abort_entry. split; [apply lookup_insert_eq|apply abort_native_ok].
  - destruct (native_entry_ok vm sig Hid Hs) as (entry & He & Hen & Hok). exists entry.
    split; [|done]. apply adapter_native_entry; congruence.
Qed.
End natives.
