(* ===== verification/AdapterExamples.v ===== *)
(** * Small modules and objects, for the witnesses about the adapter

    Concrete functions in the place of the crates, the framework modules and
    two modules of users, and a few transactions run on them. *)

From S2P Require Import Prelude Address HexInstance VmTypes Gas Vm VerifierStructural.
From S2P Require Import VerifierAbstract ChainTypes Convert Framework Context Resolvers.
From S2P Require Import AdapterVerifier Execute.

(** ** Values can be counted *)
Definition leaf : Type := (bool + Z) + (Address + string).
Fixpoint value_tree (v : Value.t) : gen_tree leaf :=
  match v with
  | Value.Bool b => GenNode 0 [GenLeaf (inl (inl b))]
  | Value.U64 n => GenNode 1 [GenLeaf (inl (inr n))]
  | Value.Address a => GenNode 2 [GenLeaf (inr (inl a))]
  | Value.Str s => GenNode 3 [GenLeaf (inr (inr s))]
  | Value.Void => GenNode 4 []
  | Value.Struct n fs =>
      GenNode 5 (GenLeaf (inr (inr n)) ::
        map (λ f, GenNode 7 [GenLeaf (inr (inr (fst f))); value_tree (snd f)]) fs)
  | Value.Tuple vs => GenNode 6 (map value_tree vs)
  end.
Fixpoint tree_value (t : gen_tree leaf) : Value.t :=
  match t with
  | GenNode 0 [GenLeaf (inl (inl b))] => Value.Bool b
  | GenNode 1 [GenLeaf (inl (inr n))] => Value.U64 n
  | GenNode 2 [GenLeaf (inr (inl a))] => Value.Address a
  | GenNode 3 [GenLeaf (inr (inr s))] => Value.Str s
  | GenNode 5 (GenLeaf (inr (inr n)) :: fs) =>
      Value.Struct n (map (λ f, match f with
        | GenNode _ [GenLeaf (inr (inr k)); v] => (k, tree_value v)
        | _ => (EmptyString, Value.Void)
        end) fs)
  | GenNode 6 vs => Value.Tuple (map tree_value vs)
  | _ => Value.Void
  end.
Lemma tree_value_tree v : tree_value (value_tree v) = v.
Proof.
  induction v as [| | | | |n fs IH|vs IH] using Value.ind'; simpl; try done; f_equal; rewrite map_map.
  - induction IH as [|[k x] l Hx _ IHl]; simpl in *; [done|]. by rewrite Hx, IHl.
  - induction IH as [|x l Hx _ IHl]; simpl in *; [done|]. by rewrite Hx, IHl.
Qed.
Global Instance value_countable : Countable Value.t :=
  inj_countable' value_tree tree_value tree_value_tree.

(** ** The framework modules, and two modules of users *)
Definition ID : Ty.t := Ty.Struct MEOW_OBJECT_ID_BYTECODE_TYPE_NAME.
Definition meow_object : VmModule :=
  mkModule "meow_object" [] [mkStructDef "Id" [mkFieldDef "inner" Ty.Address] true] [].

(** [split_and_transfer] and [mint] of [meow_coin.meow], as the compiler
    translates them. *)
Definition split_and_transfer : Function :=
  mkFunction "split_and_transfer" true
    [("from", Ty.Struct "MeowCoin"); ("amount", Ty.U64); ("to", Ty.Address)] None 4
    [Instruction.LoadField 0 ["balance"]; Instruction.Load 1; Instruction.Ge;
     Instruction.PushU64 1; Instruction.PushStr "The balance is insufficient";
     Instruction.Call MEOW_VM_ABORT; Instruction.Pop;
     Instruction.LoadField 0 ["balance"]; Instruction.Load 1; Instruction.Sub;
     Instruction.StoreField 0 ["balance"];
     Instruction.Call NATIVE_FN_FRESH_ID; Instruction.Load 1;
     Instruction.NewStruct "MeowCoin" ["id"; "balance"]; Instruction.Store 3;
     Instruction.Load 3; Instruction.Load 2; Instruction.Call NATIVE_FN_TRANSFER; Instruction.Pop;
     Instruction.Load 0; Instruction.Call NATIVE_FN_SENDER; Instruction.Call NATIVE_FN_TRANSFER;
     Instruction.Pop; Instruction.Return].
Definition mint : Function :=
  mkFunction "mint" false [("balance", Ty.U64); ("owner", Ty.Address)] None 3
    [Instruction.Call NATIVE_FN_FRESH_ID; Instruction.Load 0;
     Instruction.NewStruct "MeowCoin" ["id"; "balance"]; Instruction.Store 2;
     Instruction.Load 2; Instruction.Load 1; Instruction.Call NATIVE_FN_TRANSFER; Instruction.Pop;
     Instruction.Return].
Definition coin_struct : StructDef :=
  mkStructDef "MeowCoin" [mkFieldDef "id" ID; mkFieldDef "balance" Ty.U64] true.
Definition meow_coin : VmModule :=
  mkModule "meow_coin" [MEOW_OBJECT_MODULE_ADDRESS] [coin_struct] [mint; split_and_transfer].

Definition framework_deps : gmap Address VmModule := {[ MEOW_OBJECT_MODULE_ADDRESS := meow_object ]}.

Lemma meow_coin_verified :
  verify meow_coin framework_deps adapter_native_sigs compiler_config = Ok () ∧
  adapter_verify meow_coin framework_deps adapter_native_sigs = Ok ().
Proof. vm_compute. by split. Qed.

(** [token]: an object with the fields of a coin and a public constructor,
    and [relabel], which rebuilds a [Ticket] as a [Medal]. *)
Definition token_struct (name : string) : StructDef :=
  mkStructDef name [mkFieldDef "id" ID; mkFieldDef "balance" Ty.U64] true.
Definition relabel : Function :=
  mkFunction "relabel" true [("t", Ty.Struct "Ticket")] None 5
    [Instruction.Load 0; Instruction.UnpackStruct "Ticket" ["id"; "balance"];
     Instruction.Store 1; Instruction.Store 2;
     Instruction.Call NATIVE_FN_FRESH_ID; Instruction.Load 1;
     Instruction.PushBool true; Instruction.PushU64 0; Instruction.PushStr "";
     Instruction.Call MEOW_VM_ABORT; Instruction.Pop;
     Instruction.Store 3; Instruction.Store 4;
     Instruction.Load 3; Instruction.Load 2; Instruction.NewStruct "Medal" ["id"; "balance"];
     Instruction.Call NATIVE_FN_SENDER; Instruction.Call NATIVE_FN_TRANSFER; Instruction.Pop;
     Instruction.Load 4; Instruction.Call NATIVE_FN_DESTROY; Instruction.Pop; Instruction.Return].
Definition token : VmModule :=
  mkModule "token" [MEOW_OBJECT_MODULE_ADDRESS] [token_struct "Ticket"; token_struct "Medal"]
    [relabel].

Lemma token_verified :
  verify token framework_deps adapter_native_sigs compiler_config = Ok () ∧
  adapter_verify token framework_deps adapter_native_sigs = Ok ().
Proof. vm_compute. by split. Qed.

(** A module whose function makes a new [Ticket], with a fresh identifier and
    the balance of another one. *)
Definition copy_ticket : Function :=
  mkFunction "copy" true [("t", Ty.Struct "Ticket")] None 2
    [Instruction.Call NATIVE_FN_FRESH_ID; Instruction.LoadField 0 ["balance"];
     Instruction.NewStruct "Ticket" ["id"; "balance"]; Instruction.Store 1;
     Instruction.Load 1; Instruction.Call NATIVE_FN_SENDER; Instruction.Call NATIVE_FN_TRANSFER;
     Instruction.Pop;
     Instruction.Load 0; Instruction.Call NATIVE_FN_SENDER; Instruction.Call NATIVE_FN_TRANSFER;
     Instruction.Pop; Instruction.Return].
Definition copier : VmModule :=
  mkModule "copier" [MEOW_OBJECT_MODULE_ADDRESS] [token_struct "Ticket"] [copy_ticket].

(** ** Stand-ins for the crates *)

(** 32 bytes that start with the end of the input. *)
Definition mini_hash (bs : list Z) : list Z :=
  (λ b, b mod 256)%Z <$> take 32 (reverse bs ++ replicate 32 0%Z).
Definition mini_bytes (s : Signable) : list Z :=
  match s with
  | SObject o => version_u64 (obj_version o) :: address_bytes (obj_address o)
  | STransaction t =>
      version_u64 (ref_version (tx_gas_coin t)) :: address_bytes (ref_address (tx_gas_coin t))
  | SBytes bs => bs
  | _ => []
  end.
Definition decode_address (bs : list Z) : option Address :=
  if bool_decide (wf_address (mkAddress bs)) then Some (mkAddress bs) else None.
Global Instance mini_crypto : Crypto := {|
  bcs_to_bytes := mini_bytes;
  bcs_serialized_size t := 100%Z;
  bcs_u64 n := [n];
  bcs_u64_decode bs :=
    match bs with [n] => if bool_decide (in_u64 n) then Some n else None | _ => None end;
  bcs_address a := address_bytes a;
  bcs_address_decode := decode_address;
  blake2b := mini_hash;
  ed_public sk := sk;
  ed_sign sk msg := sk ++ msg;
  ed_verify pk sg msg := bool_decide (sg = pk ++ msg);
|}.
Global Instance mini_crypto_laws : CryptoLaws.
Proof.
  split.
  - intros. by apply bool_decide_true.
  - intros n Hn. simpl. by rewrite bool_decide_true.
  - intros [bs] Ha. simpl. unfold decode_address. by rewrite bool_decide_true.
Qed.

(** Modules are stored as their number in a table. *)
Definition module_table : list VmModule := [meow_object; meow_coin; token].
Definition decode_fields (bs : list Z) : option (list (string * Value.t)) :=
  match bs with
  | [Z.pos p] => fs ← decode p; if wf_fields fs then Some fs else None
  | _ => None
  end.
Global Instance mini_bcs : Bcs := {|
  bcs_bool b := [if b then 1%Z else 0%Z];
  bcs_bool_decode bs := match bs with [n] => Some (Z.eqb n 1) | _ => None end;
  bcs_u8 b := [b];
  bcs_u16 n := [n mod 256; n / 256]%Z;
  bcs_u32 n := [n mod 65536; n / 65536]%Z;
  bcs_str s := (λ c, Z.of_nat (nat_of_ascii c)) <$> String.list_ascii_of_string s;
  bcs_str_decode bs := Some (String.string_of_list_ascii ((λ n, ascii_of_nat (Z.to_nat n)) <$> bs));
  bcs_fields fs := [Z.pos (encode fs)];
  bcs_fields_decode := decode_fields;
  bcs_module_decode bs := match bs with [n] => module_table !! Z.to_nat n | _ => None end;
  bcs_error ty bs := "malformed";
  bs58_encode bs := "digest";
|}.
Global Instance mini_bcs_laws : BcsLaws.
Proof.
  split; simpl.
  - intros fs Hw. rewrite decode_encode. simpl. by rewrite Hw.
  - unfold decode_fields. intros bs fs. repeat case_match; try done.
    intros (gs & _ & Hg)%bind_Some. case_match; by simplify_eq.
  - intros bs n. repeat case_match; try done. case_bool_decide; intros; by simplify_eq.
  - intros bs a. unfold decode_address. case_bool_decide; intros; by simplify_eq.
  - done.
  - done.
Qed.
Global Instance mini_rng : Rng := {|
  StdRng := Z;
  rng_from_seed _ := 7%Z;
  rng_next_u64 n := (n, ((n * 5 + 1) mod 2 ^ 64)%Z);
|}.

(** ** Objects and transactions *)
Definition user : Address := address_suffixed 225.
Definition token_addr : Address := address_suffixed 768.
Definition module_object (a : Address) (n : Z) : Object := fresh_module a digest_ZERO [n].
Definition token_of (a : Address) (module : Address) (name : string) (balance : Z) : Object :=
  fresh_object a user digest_ZERO (mkDeclRef module (mkIdentifier name))
    (bcs_fields [("balance", Value.U64 balance)]).
Definition gas_coin : Object :=
  token_of (address_suffixed 1) MEOW_COIN_MODULE_ADDRESS "MeowCoin" 50000.
Definition ticket : Object := token_of (address_suffixed 2) token_addr "Ticket" 1000000.
Definition world : list Object :=
  [module_object MEOW_OBJECT_MODULE_ADDRESS 0; module_object MEOW_COIN_MODULE_ADDRESS 1;
   module_object token_addr 2; gas_coin; ticket].
Definition call_tx (module : Address) (function : string) (args : list Input) : Transaction :=
  mkTransaction user (object_ref gas_coin) (MeowCall (mkCall module (mkIdentifier function) args)).
Definition block_context : ExternalContext := mkContext digest_ZERO 1000.
Definition split_tx (o : Object) (n : Z) : Transaction :=
  call_tx MEOW_COIN_MODULE_ADDRESS "split_and_transfer"
    [InputObject (object_ref o); InputRaw (bcs_u64 n); InputRaw (bcs_address user)].
Definition relabel_tx : Transaction :=
  call_tx token_addr "relabel" [InputObject (object_ref ticket)].

(** What a result says, in short. *)
Definition summary (o : Object) : Address * ObjectType * Z * option Z :=
  (obj_address o, obj_type o, version_u64 (obj_version o),
   fields ← bcs_fields_decode (obj_content o);
   Value.find_field "balance" fields ≫= Value.as_u64).
Definition result_summary (r : outcome ExecutorError.t ExecutionResult) :=
  match r with
  | Ok r => Some (res_status r, map summary (res_created r), map summary (res_changed r),
                  map summary (res_destroyed r), res_gas_used r)
  | _ => None
  end.
