(* ===== verification/GenesisCorrect.v ===== *)
(** * Properties of the framework and of the genesis state *)

From S2P Require Import Chumsky ChumskyInstance TypeChecker Compiler CompilerExamples.
From S2P Require Import Builder FrameworkModules GenesisProps.
From S2P Require Import Prelude Address HexInstance VmTypes Gas Vm VerifierStructural VerifierAbstract.
From S2P Require Import ChainTypes Convert Framework Context Worklist Resolvers AdapterVerifier.
From S2P Require Import Execute Genesis AdapterExamples.

(** ** The allocations get different coins *)
Section distinct.
Context `{Crypto, Bcs, !CryptoLaws}.

(** What is hashed on the way to the address of a coin. *)
Definition mint_preimages (index : nat) (p : Address * Z) : list (list Z) :=
  let t := mint_transaction index (fst p) (snd p) in
  [bcs_u64 (Z.of_nat index); bcs_to_bytes (STransaction t);
   0%Z :: digest_bytes (tx_digest t) ++ to_le_bytes 0].

(** The hash does not collide on these, and [bcs] tells these transactions
    apart. *)
Definition collision_free (allocations : list (Address * Z)) : Prop :=
  ∀ i j p q, allocations !! i = Some p → allocations !! j = Some q →
    (∀ x y, x ∈ mint_preimages i p → y ∈ mint_preimages j q → blake2b x = blake2b y → x = y) ∧
    (bcs_to_bytes (STransaction (mint_transaction i (fst p) (snd p))) =
     bcs_to_bytes (STransaction (mint_transaction j (fst q) (snd q))) →
     mint_transaction i (fst p) (snd p) = mint_transaction j (fst q) (snd q)).

Lemma genesis_coins_distinct allocations :
  collision_free allocations → in_u64 (Z.of_nat (length allocations)) →
  NoDup (obj_address <$> genesis_coins allocations).
Proof.
  intros Hcf Hlen. apply NoDup_alt. intros i j a. rewrite !list_lookup_fmap.
  unfold genesis_coins. rewrite !list_lookup_imap.
  destruct (allocations !! i) as [p|] eqn:Hi, (allocations !! j) as [q|] eqn:Hj; try done; simpl.
  intros [= <-] [= Heq]. symmetry in Heq. destruct (Hcf i j p q Hi Hj) as [Hh Hb].
  apply Hh in Heq; [|by apply (list_elem_of_lookup_2 _ 2)..].
  injection Heq as Heq. apply app_inv_tail in Heq. apply Hh in Heq; [|by apply (list_elem_of_lookup_2 _ 1)..].
  apply Hb in Heq. injection Heq as Heq _. apply Hh in Heq; [|by apply (list_elem_of_lookup_2 _ 0)..].
  assert (Hu : ∀ k p, allocations !! k = Some p → bcs_u64_decode (bcs_u64 (Z.of_nat k)) = Some (Z.of_nat k)).
  { intros k r Hk%lookup_lt_Some. apply bcs_u64_roundtrip. unfold in_u64 in *. lia. }
  apply Hu in Hi, Hj. rewrite Heq, Hj in Hi. by simplify_eq.
Qed.
End distinct.

(** ** Stand-ins for the crates, for the witnesses *)

(** A hash of 32 bytes that starts with the length of the input. *)
Definition length_hash (bs : list Z) : list Z :=
  (λ b, b mod 256)%Z <$> take 32 (Z.of_nat (length bs) :: bs ++ replicate 32 0%Z).
Lemma length_hash_32 bs : wf_address (mkAddress (length_hash bs)).
Proof.
  unfold length_hash. split; cbn [address_bytes].
  - rewrite length_fmap, length_take. cbn [length]. rewrite length_app, length_replicate.
    unfold ADDRESS_LENGTH. lia.
  - apply list.Forall_fmap, list.Forall_true. intros x. unfold is_byte. simpl.
    pose proof (Z.mod_pos_bound x 256). lia.
Qed.
Definition salted_crypto : Crypto := {|
  bcs_to_bytes s :=
    match s with STransaction t => 0%Z :: digest_bytes (ref_digest (tx_gas_coin t)) | _ => [] end;
  bcs_serialized_size := @bcs_serialized_size mini_crypto;
  bcs_u64 := @bcs_u64 mini_crypto;
  bcs_u64_decode := @bcs_u64_decode mini_crypto;
  bcs_address := @bcs_address mini_crypto;
  bcs_address_decode := @bcs_address_decode mini_crypto;
  blake2b := length_hash;
  ed_public := @ed_public mini_crypto;
  ed_sign := @ed_sign mini_crypto;
  ed_verify := @ed_verify mini_crypto;
|}.
Lemma salted_crypto_laws : @CryptoLaws salted_crypto.
Proof. split; apply mini_crypto_laws. Qed.
Definition table_bytes : ModuleBytes := {|
  bcs_module m := [if String.eqb (mod_name m) "meow_object" then 0%Z else 1%Z];
|}.
Definition table_bcs : Bcs := {|
  bcs_bool := @bcs_bool mini_bcs;
  bcs_bool_decode := @bcs_bool_decode mini_bcs;
  bcs_u8 := @bcs_u8 mini_bcs;
  bcs_u16 := @bcs_u16 mini_bcs;
  bcs_u32 := @bcs_u32 mini_bcs;
  bcs_str := @bcs_str mini_bcs;
  bcs_str_decode := @bcs_str_decode mini_bcs;
  bcs_fields := @bcs_fields mini_bcs;
  bcs_fields_decode := @bcs_fields_decode mini_bcs;
  bcs_module_decode bs :=
    match bs with [n] => [meow_object_compiled; meow_coin_compiled] !! Z.to_nat n | _ => None end;
  bcs_error := @bcs_error mini_bcs;
  bs58_encode := @bs58_encode mini_bcs;
|}.
Lemma table_bcs_laws : @BcsLaws salted_crypto table_bcs.
Proof. split; apply mini_bcs_laws. Qed.
Lemma table_genesis_laws : @GenesisLaws table_bytes salted_crypto table_bcs.
Proof. split; [apply length_hash_32|by vm_compute..]. Qed.

(** C24: the embedded sources of the framework parse and compile with the
    chain's configuration, whatever order the compiler's hash maps are iterated
    in and whatever implements the parser combinators, to modules that both
    bytecode verifiers accept; the builder functions return them and do not
    panic, provided they are within the size limit once serialized. *)
Theorem framework_builds `{HashOrderLaws, ChumskyLaws, ModuleBytes} {E} :
  (module_size meow_object_compiled ≤ MAX_BCS_SERIALIZED_MODULE_SIZE)%Z →
  (module_size meow_coin_compiled ≤ MAX_BCS_SERIALIZED_MODULE_SIZE)%Z →
  meow_object_module (E:=E) = Ok meow_object_compiled ∧
  meow_coin_module (E:=E) = Ok meow_coin_compiled ∧
  verify meow_object_compiled ∅ adapter_native_sigs compiler_config = Ok () ∧
  adapter_verify meow_object_compiled ∅ adapter_native_sigs = Ok () ∧
  verify meow_coin_compiled framework_map adapter_native_sigs compiler_config = Ok () ∧
  adapter_verify meow_coin_compiled framework_map adapter_native_sigs = Ok ().
Proof.
  intros Ho Hc. split; [by apply meow_object_module_built|]. split.
  - unfold meow_coin_module. rewrite meow_object_module_built by done. by apply meow_coin_module_built.
  - apply framework_verified.
Qed.

Lemma framework_builds_witness :
  @meow_object_module _ std_hash_order std_chumsky table_bytes () = Ok meow_object_compiled ∧
  @meow_coin_module _ std_hash_order std_chumsky table_bytes () = Ok meow_coin_compiled.
Proof.
  pose proof std_chumsky_laws.
  destruct (@framework_builds std_hash_order _ std_chumsky _ table_bytes ()) as (Ho & Hc & _);
    [by vm_compute..|]. by split.
Defined.

(** C9: the genesis state is built for all allocations of the right types, with
    fuel for the nine instructions of [mint]: it holds the two framework modules
    and then one new coin per allocation, in order, owned by its address with
    its amount as balance.  Equal allocations get different coins: the addresses
    are distinct as long as the hash does not collide on what it is given for
    them, because every transaction carries the digest of its index. *)
Theorem genesis_exact `{HashOrderLaws, ChumskyLaws, ModuleBytes, Crypto, Bcs, Rng, !CryptoLaws, !BcsLaws, !GenesisLaws}
    debug k allocations :
  Forall (λ p, wf_address (fst p) ∧ in_u64 (snd p)) allocations →
  ∃ coins,
    genesis_build (9 + k) debug allocations = Ok (mkGenesis (framework_objects ++ coins)) ∧
    Forall2 (λ p coin,
      obj_owner coin = OwnerAddress (fst p) ∧ is_meow_coin_object coin = true ∧
      balance_from_object coin = Some (snd p) ∧ obj_version coin = version_ONE) allocations coins ∧
    (collision_free allocations → in_u64 (Z.of_nat (length allocations)) →
     NoDup (obj_address <$> coins)).
Proof.
  intros Hall. exists (genesis_coins allocations). split; [by apply genesis_built|].
  split; [|apply genesis_coins_distinct].
  unfold genesis_coins. apply Forall2_same_length_lookup. split; [by rewrite length_imap|].
  intros i p c Hp. rewrite list_lookup_imap, Hp. intros [= <-]. split_and!; [done|done| |done].
  apply genesis_coin_balance. by destruct (list.Forall_lookup_1 _ _ _ _ Hall Hp).
Qed.

(** Two equal allocations. *)
Definition twice : list (Address * Z) := [(user, 100%Z); (user, 100%Z)].
Lemma twice_collision_free : @collision_free salted_crypto twice.
Proof.
  intros i j p q Hi Hj.
  destruct i as [|[|i]]; [| |done]; destruct j as [|[|j]]; [| |done| | |done];
    injection Hi as <-; injection Hj as <-; (split; [|vm_compute; by intros]);
    intros x y Hx Hy Hxy; unfold mint_preimages in Hx, Hy;
    repeat (apply elem_of_cons in Hx as [->|Hx]); try (by apply not_elem_of_nil in Hx);
    repeat (apply elem_of_cons in Hy as [->|Hy]); try (by apply not_elem_of_nil in Hy);
    first [reflexivity|by vm_compute in Hxy].
Qed.
Lemma twice_length : in_u64 (Z.of_nat (length twice)).
Proof. unfold in_u64, u64_max. simpl. lia. Qed.
Lemma genesis_exact_witness :
  ∃ coins,
    @genesis_build _ std_hash_order std_chumsky table_bytes salted_crypto table_bcs mini_rng
      (9 + 0) (λ _, "object") twice =
      Ok (mkGenesis (@framework_objects table_bytes ++ coins)) ∧
    NoDup (obj_address <$> coins).
Proof.
  pose proof std_chumsky_laws. pose proof salted_crypto_laws. pose proof table_bcs_laws.
  pose proof table_genesis_laws.
  destruct (@genesis_exact std_hash_order _ std_chumsky _ table_bytes salted_crypto table_bcs mini_rng
    _ _ _ (λ _, "object") 0 twice) as (coins & Hb & _ & Hd).
  { repeat constructor; vm_compute; done. }
  exists coins. split; [exact Hb|]. exact (Hd twice_collision_free twice_length).
Defined.
