(* ===== verification/Validator.v ===== *)
(** * Structural transaction validation

    Models [meow-types/src/transaction/validator/mod.rs]. *)

From S2P Require Import Prelude Address VmTypes ChainTypes.

Module ValidationError.
Inductive t :=
  | AliasedCallArgument (a : Address)
  | GasCoinUsedAsCallArgument (a : Address)
  | KeyPairError
  | ModuleTooLarge (size limit : Z)
  | SignerMismatch (sender signer : Address)
  | TooManyCallArguments (amount limit : nat)
  | TransactionTooLarge (size limit : Z).
End ValidationError.

(** The object arguments of a call, by address. *)
Definition object_args (args : list Input) : list Address :=
  omap (λ arg, match arg with InputObject r => Some (ref_address r) | InputRaw _ => None end) args.

(** The loop of [validate_no_aliased_args], with its set [seen]. *)
Fixpoint no_aliased_args (seen : gset Address) (args : list Input) : outcome ValidationError.t () :=
  match args with
  | [] => Ok ()
  | InputObject r :: args =>
      if bool_decide (ref_address r ∈ seen)
      then Err (ValidationError.AliasedCallArgument (ref_address r))
      else no_aliased_args ({[ref_address r]} ∪ seen) args
  | InputRaw _ :: args => no_aliased_args seen args
  end.

Definition validate_no_aliased_args (c : Call) : outcome ValidationError.t () :=
  no_aliased_args ∅ (call_arguments c).

Definition validate_gas_coin_not_in_args (c : Call) (gas_coin_address : Address)
  : outcome ValidationError.t () :=
  guard_err (existsb (λ arg, match arg with
                      | InputObject r => bool_decide (ref_address r = gas_coin_address)
                      | InputRaw _ => false
                      end) (call_arguments c))
    (ValidationError.GasCoinUsedAsCallArgument gas_coin_address).

Definition validate_call_args_count (c : Call) (compiler : CompilerConfig)
  : outcome ValidationError.t () :=
  let amount := length (call_arguments c) in
  let limit := max_params compiler in
  guard_err (bool_decide (limit < amount)) (ValidationError.TooManyCallArguments amount limit).

Definition validate_module_size (module : list Z) : outcome ValidationError.t () :=
  let size := Z.of_nat (length module) in
  guard_err (bool_decide (MAX_BCS_SERIALIZED_MODULE_SIZE < size)%Z)
    (ValidationError.ModuleTooLarge size MAX_BCS_SERIALIZED_MODULE_SIZE).

Definition validate_signed_transaction_sender (sender signer : Address)
  : outcome ValidationError.t () :=
  guard_err (bool_decide (signer ≠ sender)) (ValidationError.SignerMismatch sender signer).

Section validator.
Context `{Crypto}.

Definition validate_transaction_size (t : Transaction) (limit : Z)
  : outcome ValidationError.t () :=
  let size := bcs_serialized_size t in
  guard_err (bool_decide (limit < size)%Z) (ValidationError.TransactionTooLarge size limit).

(** [validate_transaction]. *)
Definition validate_transaction (t : Transaction) : outcome ValidationError.t () :=
  match tx_type t with
  | MeowCall call =>
      validate_transaction_size t MEOW_CALL_TRANSACTION_BCS_BYTES_MAX_SIZE ;;
      validate_call_args_count call compiler_config ;;
      validate_gas_coin_not_in_args call (ref_address (tx_gas_coin t)) ;;
      validate_no_aliased_args call
  | MeowModulePublish module =>
      validate_transaction_size t MEOW_PUBLISH_MODULE_TRANSACTION_BCS_BYTES_MAX_SIZE ;;
      validate_module_size module
  end.

(** [verify_signed_transaction_signature]. *)
Definition verify_signed_transaction_signature (s : SignedTransaction)
  : outcome ValidationError.t () :=
  guard_err (negb (signature_verify (signed_signature s)
                     (digest_bytes (tx_digest (signed_transaction s)))))
    ValidationError.KeyPairError.

(** [validate_signed_transaction]. *)
Definition validate_signed_transaction (s : SignedTransaction) : outcome ValidationError.t () :=
  validate_transaction (signed_transaction s) ;;
  validate_signed_transaction_sender (tx_sender (signed_transaction s))
    (signer (signed_signature s)) ;;
  verify_signed_transaction_signature s.
End validator.

(** ** Lemmas *)
Lemma no_aliased_args_Ok seen args u :
  no_aliased_args seen args = Ok u ↔
  NoDup (object_args args) ∧ ∀ a, a ∈ object_args args → a ∉ seen.
Proof.
  revert seen. induction args as [|[r|bs] args IH]; intros seen; simpl.
  - destruct u. split; [|done]. split; [constructor|]. by intros ? ?%not_elem_of_nil.
  - case_bool_decide as Hs.
    + split; [done|]. intros [_ Hn]. destruct (Hn (ref_address r)); [left|done].
    + rewrite IH, list.NoDup_cons. split.
      * intros [Hnd Hn]. split; [split; [|done]; intros Hin; by apply (Hn _ Hin); set_solver|].
        intros a [->|Ha]%elem_of_cons; [done|]. specialize (Hn a Ha). set_solver.
      * intros [[Hr Hnd] Hn]. split; [done|]. intros a Ha.
        rewrite not_elem_of_union, not_elem_of_singleton. split; [congruence|].
        apply Hn. by right.
  - apply IH.
Qed.

Lemma existsb_object_args a args :
  existsb (λ arg, match arg with
    | InputObject r => bool_decide (ref_address r = a) | InputRaw _ => false end) args = false ↔
  a ∉ object_args args.
Proof.
  induction args as [|[r|bs] args IH]; simpl; [split; [by intros _ ?%not_elem_of_nil|done]| |done].
  rewrite orb_false_iff, IH, not_elem_of_cons, bool_decide_eq_false. naive_solver.
Qed.

(** What an accepted call guarantees. *)
Lemma validate_transaction_call `{Crypto} t c u :
  tx_type t = MeowCall c →
  validate_transaction t = Ok u ↔
  (bcs_serialized_size t ≤ MEOW_CALL_TRANSACTION_BCS_BYTES_MAX_SIZE)%Z ∧
  length (call_arguments c) ≤ max_params compiler_config ∧
  NoDup (ref_address (tx_gas_coin t) :: object_args (call_arguments c)).
Proof.
  intros Ht. unfold validate_transaction. rewrite Ht, list.NoDup_cons.
  unfold validate_transaction_size, validate_call_args_count, validate_gas_coin_not_in_args,
    validate_no_aliased_args.
  split.
  - intros Hv. apply bind_Ok in Hv as (? & Hs%guard_err_Ok%bool_decide_eq_false & Hv).
    apply bind_Ok in Hv as (? & Hc%guard_err_Ok%bool_decide_eq_false & Hv).
    apply bind_Ok in Hv as (? & Hg%guard_err_Ok%existsb_object_args & Hv).
    apply no_aliased_args_Ok in Hv as [Hnd _]. split_and!; [lia..|done|done].
  - intros (Hs & Ha & Hg & Hnd).
    repeat (rewrite bool_decide_false by lia; simpl).
    rewrite (proj2 (existsb_object_args _ _)) by done. simpl.
    apply no_aliased_args_Ok. split; [done|set_solver].
Qed.
