(* ===== verification/Store.v ===== *)
(** * The object store and the roots committed in headers

    Models [meow-nakamoto/src/store.rs] and [roots.rs].  The Rust map is a
    [BTreeMap], whose iteration order is the order of the addresses; here the
    map is a [gmap] and [store_objects] sorts. *)

From S2P Require Import Prelude Address VmTypes ChainTypes.
From stdpp Require Import sorting.

(** The derived [Ord] of addresses: lexicographic on the bytes. *)
Fixpoint lex_le (a b : list Z) : bool :=
  match a, b with
  | [], _ => true
  | _ :: _, [] => false
  | x :: a, y :: b => Z.ltb x y || (Z.eqb x y && lex_le a b)
  end.
Definition entry_le (p q : Address * Object) : Prop :=
  lex_le (address_bytes (fst p)) (address_bytes (fst q)) = true.
Global Instance entry_le_dec p q : Decision (entry_le p q).
Proof. unfold entry_le. apply _. Defined.

Record Store := mkStore { store_map : gmap Address Object }.

(** [Store::default], [with_objects], [get_object], [get_objects], [contains], [objects]. *)
Definition store_default : Store := mkStore ∅.
Definition with_objects (objects : list Object) : Store :=
  mkStore (foldl (λ m obj, <[obj_address obj := obj]> m) ∅ objects).
Definition get_object (s : Store) (a : Address) : option Object := store_map s !! a.
Definition store_objects (s : Store) : list Object :=
  snd <$> merge_sort entry_le (map_to_list (store_map s)).
Definition get_objects (s : Store) (owner : Address) : list Object :=
  filter (λ obj, owner_address (obj_owner obj) = Some owner) (store_objects s).
Definition store_contains (s : Store) (a : Address) : bool :=
  bool_decide (is_Some (store_map s !! a)).

(** ** [apply_execution_result]: three loops, each with its assertion *)
Section apply.
Context {E : Type}.

Definition insert_created (m : gmap Address Object) (obj : Object)
  : outcome E (gmap Address Object) :=
  rust_assert (bool_decide (m !! obj_address obj = None)) "created object ID collision" ;;
  Ok (<[obj_address obj := obj]> m).
Definition insert_changed (m : gmap Address Object) (obj : Object)
  : outcome E (gmap Address Object) :=
  rust_assert (bool_decide (is_Some (m !! obj_address obj)))
    "changed object not found in store" ;;
  Ok (<[obj_address obj := obj]> m).
Definition remove_destroyed (m : gmap Address Object) (obj : Object)
  : outcome E (gmap Address Object) :=
  rust_assert (bool_decide (is_Some (m !! obj_address obj)))
    "destroyed object not found in store" ;;
  Ok (delete (obj_address obj) m).

Fixpoint fold_m {A B} (f : A → B → outcome E A) (a : A) (l : list B) : outcome E A :=
  match l with
  | [] => Ok a
  | b :: l => a ← f a b; fold_m f a l
  end.

Definition apply_execution_result (s : Store) (r : ExecutionResult) : outcome E Store :=
  m ← fold_m insert_created (store_map s) (res_created r);
  m ← fold_m insert_changed m (res_changed r);
  m ← fold_m remove_destroyed m (res_destroyed r);
  Ok (mkStore m).
End apply.

(** ** Roots ([roots.rs]) *)
Definition compute_state_root `{Crypto} (s : Store) : Digest :=
  digest_compute (SObjects (store_objects s)).
Definition compute_transactions_root `{Crypto} (txs : list SignedTransaction) : Digest :=
  digest_compute (SDigests ((λ t, tx_digest (signed_transaction t)) <$> txs)).

(** ** The store invariant: every object is filed under its own address *)
Definition wf_store (s : Store) : Prop := map_Forall (λ a o, obj_address o = a) (store_map s).

Definition entries (l : list Object) : list (Address * Object) := (λ o, (obj_address o, o)) <$> l.

Lemma entries_fst l : (entries l).*1 = obj_address <$> l.
Proof. unfold entries. by rewrite <-list_fmap_compose. Qed.

Global Instance lex_total : Total entry_le.
Proof.
  intros [a o] [b o']. unfold entry_le. simpl. generalize (address_bytes a), (address_bytes b).
  induction l as [|x l IH]; intros [|y l']; simpl; auto.
  destruct (Z.ltb_spec x y); simpl; [by left|]. destruct (Z.eqb_spec x y) as [->|].
  - rewrite Z.ltb_irrefl, Z.eqb_refl. simpl. apply IH.
  - right. by rewrite (proj2 (Z.ltb_lt y x)) by lia.
Qed.
Global Instance lex_trans : Transitive entry_le.
Proof.
  intros [a o] [b o'] [c o'']. unfold entry_le. simpl.
  generalize (address_bytes a), (address_bytes b), (address_bytes c).
  induction l as [|x l IH]; intros [|y l'] [|z l'']; simpl; try done.
  rewrite !orb_true_iff, !andb_true_iff, !Z.ltb_lt, !Z.eqb_eq.
  intros [?|[-> ?]] [?|[-> ?]]; [left; lia..|left; lia|right; split; [done|by eapply IH]].
Qed.

Lemma store_entries s :
  merge_sort entry_le (map_to_list (store_map s)) ≡ₚ map_to_list (store_map s).
Proof. apply merge_sort_Permutation. Qed.

Lemma elem_of_store_objects s o :
  o ∈ store_objects s ↔ ∃ a, get_object s a = Some o.
Proof.
  unfold store_objects, get_object. rewrite list_elem_of_fmap. setoid_rewrite store_entries.
  split.
  - intros ([a o'] & -> & Ho%elem_of_map_to_list). eauto.
  - intros [a Ha]. exists (a, o). split; [done|]. by apply elem_of_map_to_list.
Qed.

(** Objects come out in the order of their addresses. *)
Lemma store_objects_sorted s :
  wf_store s →
  StronglySorted (λ o o', lex_le (address_bytes (obj_address o)) (address_bytes (obj_address o')) = true)
    (store_objects s).
Proof.
  intros Hwf. unfold store_objects.
  pose proof (StronglySorted_merge_sort entry_le (map_to_list (store_map s))) as Hs.
  assert (Hin : ∀ p, p ∈ merge_sort entry_le (map_to_list (store_map s)) →
    obj_address (snd p) = fst p).
  { intros [a o]. rewrite store_entries. intros Hp%elem_of_map_to_list. by apply Hwf in Hp. }
  induction Hs as [|p l Hl IH Hall]; simpl; [constructor|].
  constructor; [apply IH; intros; apply Hin; by right|].
  rewrite Forall_fmap. apply list.Forall_forall. intros q Hq.
  rewrite list.Forall_forall in Hall. specialize (Hall q Hq). simpl.
  rewrite !Hin by (by left || by right). done.
Qed.

(** ** Rebuilding a store *)
Lemma with_objects_fold l (m : gmap Address Object) :
  foldl (λ m obj, <[obj_address obj := obj]> m) m l = list_to_map (reverse (entries l)) ∪ m.
Proof.
  revert m. induction l as [|o l IH]; intros m; simpl; [by rewrite (left_id_L ∅ (∪))|].
  rewrite IH, reverse_cons, list_to_map_app. simpl.
  by rewrite insert_empty, <-(assoc_L (∪)), <-insert_union_singleton_l.
Qed.

Lemma with_objects_wf l : wf_store (with_objects l).
Proof.
  unfold wf_store, with_objects. simpl. rewrite with_objects_fold, (right_id_L ∅ (∪)).
  intros a o Ho%elem_of_list_to_map_2. apply elem_of_reverse, list_elem_of_fmap in Ho.
  by destruct Ho as (o' & [= -> ->] & _).
Qed.

Lemma with_objects_store_objects s : wf_store s → with_objects (store_objects s) = s.
Proof.
  intros Hwf. destruct s as [m]. unfold with_objects. f_equal.
  rewrite with_objects_fold, (right_id_L ∅ (∪)).
  assert (Hent : entries (store_objects (mkStore m)) = merge_sort entry_le (map_to_list m)).
  { unfold store_objects, entries. simpl. rewrite <-list_fmap_compose.
    rewrite <-(list_fmap_id (merge_sort _ _)) at 2. apply list_fmap_ext.
    intros i [a o] Hi%list_elem_of_lookup_2. rewrite merge_sort_Permutation in Hi.
    apply elem_of_map_to_list, Hwf in Hi. by rewrite <-Hi. }
  rewrite Hent. rewrite <-(list_to_map_to_list m) at 2.
  apply list_to_map_proper.
  - rewrite reverse_Permutation, merge_sort_Permutation. apply NoDup_fst_map_to_list.
  - by rewrite reverse_Permutation, merge_sort_Permutation.
Qed.

(** ** What [apply_execution_result] does *)
Section apply_lemmas.
Context {E : Type}.

(** The conditions under which none of the assertions fails. *)
Definition applicable (s : Store) (r : ExecutionResult) : Prop :=
  NoDup (obj_address <$> res_created r) ∧
  (∀ o, o ∈ res_created r → store_map s !! obj_address o = None) ∧
  (∀ o, o ∈ res_changed r →
    obj_address o ∈ dom (store_map s) ∪ list_to_set (obj_address <$> res_created r)) ∧
  NoDup (obj_address <$> res_destroyed r) ∧
  (∀ o, o ∈ res_destroyed r →
    obj_address o ∈ dom (store_map s) ∪ list_to_set (obj_address <$> res_created r)).

(** The store after the three loops. *)
Definition applied (s : Store) (r : ExecutionResult) : Store :=
  mkStore (foldr delete
    (list_to_map (reverse (entries (res_changed r))) ∪
     (list_to_map (entries (res_created r)) ∪ store_map s))
    (obj_address <$> res_destroyed r)).

Lemma insert_created_eq m o :
  insert_created (E:=E) m o =
  if decide (m !! obj_address o = None) then Ok (<[obj_address o := o]> m)
  else Panic "created object ID collision".
Proof. unfold insert_created, bool_decide. by case_match. Qed.
Lemma insert_changed_eq m o :
  insert_changed (E:=E) m o =
  if decide (is_Some (m !! obj_address o)) then Ok (<[obj_address o := o]> m)
  else Panic "changed object not found in store".
Proof. unfold insert_changed, bool_decide. by case_match. Qed.
Lemma remove_destroyed_eq m o :
  remove_destroyed (E:=E) m o =
  if decide (is_Some (m !! obj_address o)) then Ok (delete (obj_address o) m)
  else Panic "destroyed object not found in store".
Proof. unfold remove_destroyed, bool_decide. by case_match. Qed.

Lemma fold_created (m : gmap Address Object) l :
  (NoDup (obj_address <$> l) ∧ (∀ o, o ∈ l → m !! obj_address o = None) →
    fold_m (E:=E) insert_created m l = Ok (list_to_map (entries l) ∪ m)) ∧
  (¬ (NoDup (obj_address <$> l) ∧ (∀ o, o ∈ l → m !! obj_address o = None)) →
    ∃ msg, fold_m (E:=E) insert_created m l = Panic msg).
Proof.
  revert m. induction l as [|o l IH]; intros m.
  { split; [simpl; by rewrite (left_id_L ∅ (∪))|]. intros []. split; [constructor|set_solver]. }
  cbn [fold_m]. rewrite ?fmap_cons. rewrite (insert_created_eq m o).
  destruct (decide (m !! obj_address o = None)) as [Hm|Hm]; cbn [mbind outcome_bind]; last first.
  { split; [|by eauto]. intros [_ Hf]. destruct Hm. apply Hf. left. }
  destruct (IH (<[obj_address o:=o]> m)) as [IHok IHpanic].
  rewrite list.NoDup_cons. split.
  - intros [[Hn Hnd] Hf]. rewrite IHok.
    + f_equal. change (list_to_map (entries (o :: l)) : gmap Address Object)
        with (<[obj_address o := o]> (list_to_map (entries l)) : gmap Address Object).
      rewrite <-insert_union_l, insert_union_r; [done|].
      apply not_elem_of_list_to_map_1. by rewrite entries_fst.
    + split; [done|]. intros o' Ho'. rewrite lookup_insert_ne; [by apply Hf; right|].
      intros Heq. apply Hn. rewrite Heq. by apply list_elem_of_fmap_2.
  - intros Hnot. apply IHpanic. intros [Hnd Hf]. apply Hnot. split; [split; [|done]|].
    + intros Hin. apply list_elem_of_fmap in Hin as (o' & Heq & Ho').
      specialize (Hf o' Ho'). by rewrite <-Heq, lookup_insert_eq in Hf.
    + intros o' [->|Ho']%elem_of_cons; [done|]. specialize (Hf o' Ho').
      by apply lookup_insert_None in Hf as [? _].
Qed.

Lemma fold_changed (m : gmap Address Object) l :
  ((∀ o, o ∈ l → obj_address o ∈ dom m) →
    fold_m (E:=E) insert_changed m l = Ok (list_to_map (reverse (entries l)) ∪ m)) ∧
  (¬ (∀ o, o ∈ l → obj_address o ∈ dom m) →
    ∃ msg, fold_m (E:=E) insert_changed m l = Panic msg).
Proof.
  revert m. induction l as [|o l IH]; intros m.
  { split; [simpl; by rewrite (left_id_L ∅ (∪))|]. intros []. set_solver. }
  cbn [fold_m]. rewrite ?fmap_cons. rewrite (insert_changed_eq m o).
  destruct (decide (is_Some (m !! obj_address o))) as [Hm|Hm]; cbn [mbind outcome_bind]; last first.
  { split; [|by eauto]. intros Hf. destruct Hm. apply elem_of_dom, Hf. left. }
  destruct (IH (<[obj_address o:=o]> m)) as [IHok IHpanic]. split.
  - intros Hf. rewrite IHok; [|intros o' Ho'; rewrite dom_insert_L; apply elem_of_union_r, Hf; by right].
    f_equal. unfold entries. rewrite fmap_cons, reverse_cons, list_to_map_app. simpl.
    by rewrite insert_empty, <-(assoc_L (∪)), <-insert_union_singleton_l.
  - intros Hnot. apply IHpanic. intros Hf. apply Hnot. intros o' [->|Ho']%elem_of_cons.
    + by apply elem_of_dom.
    + specialize (Hf o' Ho'). apply elem_of_dom in Hm. rewrite dom_insert_L in Hf.
      apply elem_of_union in Hf as [->%elem_of_singleton|?]; done.
Qed.

Lemma fold_destroyed (m : gmap Address Object) l :
  (NoDup (obj_address <$> l) ∧ (∀ o, o ∈ l → obj_address o ∈ dom m) →
    fold_m (E:=E) remove_destroyed m l = Ok (foldr delete m (obj_address <$> l))) ∧
  (¬ (NoDup (obj_address <$> l) ∧ (∀ o, o ∈ l → obj_address o ∈ dom m)) →
    ∃ msg, fold_m (E:=E) remove_destroyed m l = Panic msg).
Proof.
  revert m. induction l as [|o l IH]; intros m.
  { split; [done|]. intros []. split; [constructor|set_solver]. }
  cbn [fold_m]. rewrite ?fmap_cons. rewrite (remove_destroyed_eq m o).
  destruct (decide (is_Some (m !! obj_address o))) as [Hm|Hm]; cbn [mbind outcome_bind]; last first.
  { split; [|by eauto]. intros [_ Hf]. destruct Hm. apply elem_of_dom, Hf. left. }
  destruct (IH (delete (obj_address o) m)) as [IHok IHpanic].
  rewrite list.NoDup_cons. split.
  - intros [[Hn Hnd] Hf]. rewrite IHok.
    + f_equal. clear. induction (obj_address <$> l) as [|a as' IH]; simpl; [done|].
      by rewrite IH, delete_delete.
    + split; [done|]. intros o' Ho'. rewrite dom_delete_L.
      assert (obj_address o' ≠ obj_address o).
      { intros Heq. apply Hn. rewrite <-Heq. by apply list_elem_of_fmap_2. }
      apply elem_of_difference. rewrite elem_of_singleton. split; [apply Hf; by right|done].
  - intros Hnot. apply IHpanic. intros [Hnd Hf]. apply Hnot. split; [split; [|done]|].
    + intros (o' & Heq & Ho')%list_elem_of_fmap. specialize (Hf o' Ho').
      rewrite dom_delete_L, Heq in Hf. by apply elem_of_difference in Hf as [_ []%not_elem_of_singleton].
    + intros o' [->|Ho']%elem_of_cons; [by apply elem_of_dom|]. specialize (Hf o' Ho').
      rewrite dom_delete_L in Hf. by apply elem_of_difference in Hf as [? _].
Qed.

Lemma dom_entries (l : list Object) :
  dom (list_to_map (entries l) : gmap Address Object) = list_to_set (obj_address <$> l).
Proof. by rewrite dom_list_to_map_L, entries_fst. Qed.
Lemma dom_entries_reverse (l : list Object) :
  dom (list_to_map (reverse (entries l)) : gmap Address Object) = list_to_set (obj_address <$> l).
Proof.
  rewrite dom_list_to_map_L, fmap_reverse, entries_fst. apply set_eq. intros a.
  by rewrite !elem_of_list_to_set, elem_of_reverse.
Qed.

Lemma apply_execution_result_ok s r :
  applicable s r → apply_execution_result (E:=E) s r = Ok (applied s r).
Proof.
  intros (Hnd & Hfresh & Hch & Hnd' & Hde). unfold apply_execution_result.
  rewrite (proj1 (fold_created _ _)) by done. simpl.
  rewrite (proj1 (fold_changed _ _)).
  2:{ intros o Ho. rewrite dom_union_L, dom_entries, (comm_L (∪)). by apply Hch. }
  simpl. rewrite (proj1 (fold_destroyed _ _)); [done|]. split; [done|].
  intros o Ho. rewrite !dom_union_L, dom_entries. specialize (Hde o Ho). set_solver.
Qed.

Lemma apply_execution_result_panic s r :
  ¬ applicable s r → ∃ msg, apply_execution_result (E:=E) s r = Panic msg.
Proof.
  intros Hnot. unfold apply_execution_result.
  destruct (decide (NoDup (obj_address <$> res_created r) ∧
    Forall (λ o, store_map s !! obj_address o = None) (res_created r))) as [[Hnd Hf]|Hno].
  2:{ destruct (proj2 (fold_created (store_map s) (res_created r))) as [msg ->]; [|by exists msg].
      rewrite <-list.Forall_forall. done. }
  rewrite list.Forall_forall in Hf.
  rewrite (proj1 (fold_created _ _)) by done. cbn [mbind outcome_bind].
  set (m := list_to_map (entries (res_created r)) ∪ store_map s).
  assert (Hdom : dom m = dom (store_map s) ∪ list_to_set (obj_address <$> res_created r)).
  { unfold m. by rewrite dom_union_L, dom_entries, (comm_L (∪)). }
  destruct (decide (Forall (λ o, obj_address o ∈ dom m) (res_changed r))) as [Hch|Hno].
  2:{ destruct (proj2 (fold_changed m (res_changed r))) as [msg ->]; [|by exists msg].
      by rewrite <-list.Forall_forall. }
  rewrite list.Forall_forall in Hch.
  rewrite (proj1 (fold_changed _ _)) by done. cbn [mbind outcome_bind].
  destruct (proj2 (fold_destroyed (list_to_map (reverse (entries (res_changed r))) ∪ m)
    (res_destroyed r))) as [msg ->]; [|by exists msg].
  intros [Hnd' Hde]. apply Hnot. rewrite Hdom in Hch. split_and!; [done..|].
  intros o Ho. specialize (Hde o Ho). rewrite dom_union_L, dom_entries_reverse, Hdom in Hde.
  apply elem_of_union in Hde as [Hin|?]; [|done].
  apply elem_of_list_to_set, list_elem_of_fmap in Hin as (o' & -> & Ho'). by apply Hch.
Qed.

(** A property of filed objects that the new objects have survives. *)
Lemma applied_Forall (P : Address → Object → Prop) s r :
  map_Forall P (store_map s) →
  Forall (λ o, P (obj_address o) o) (res_created r ++ res_changed r) →
  map_Forall P (store_map (applied s r)).
Proof.
  rewrite Forall_app, !list.Forall_forall. intros Hwf [Hcr Hch]. unfold applied. simpl.
  assert (map_Forall P
    (list_to_map (reverse (entries (res_changed r))) ∪
     (list_to_map (entries (res_created r)) ∪ store_map s))) as Hu.
  { intros a o Ho. apply lookup_union_Some_raw in Ho as [Ho|[_ Ho]];
      [|apply lookup_union_Some_raw in Ho as [Ho|[_ Ho]]; [|by apply Hwf]];
      apply elem_of_list_to_map_2 in Ho; rewrite ?elem_of_reverse in Ho;
      apply list_elem_of_fmap in Ho as (? & [= -> ->] & ?); auto. }
  induction (obj_address <$> res_destroyed r) as [|a l IH]; simpl; [done|].
  by apply map_Forall_delete.
Qed.

Lemma applied_wf s r : wf_store s → wf_store (applied s r).
Proof. intros Hs. apply applied_Forall; [done|]. by apply list.Forall_forall. Qed.

Lemma lookup_foldr_delete (m : gmap Address Object) (l : list Address) a :
  foldr delete m l !! a = if decide (a ∈ l) then None else m !! a.
Proof.
  induction l as [|b l IH]; simpl; [done|].
  destruct (decide (a = b)) as [->|Hne].
  - by rewrite lookup_delete_eq, decide_True by left.
  - rewrite lookup_delete_ne, IH by done.
    destruct (decide (a ∈ l)), (decide (a ∈ b :: l)) as [Hd|Hd]; try done.
    + destruct Hd. by right.
    + by apply elem_of_cons in Hd as [?|?].
Qed.

Global Instance applicable_dec s r : Decision (applicable s r).
Proof.
  refine (cast_if (decide (NoDup (obj_address <$> res_created r) ∧
    Forall (λ o, store_map s !! obj_address o = None) (res_created r) ∧
    Forall (λ o, obj_address o ∈ dom (store_map s) ∪ list_to_set (obj_address <$> res_created r))
      (res_changed r) ∧
    NoDup (obj_address <$> res_destroyed r) ∧
    Forall (λ o, obj_address o ∈ dom (store_map s) ∪ list_to_set (obj_address <$> res_created r))
      (res_destroyed r))));
    abstract (unfold applicable; rewrite !list.Forall_forall in *; done).
Defined.

Lemma apply_execution_result_inv s r s' :
  apply_execution_result (E:=E) s r = Ok s' → applicable s r ∧ s' = applied s r.
Proof.
  destruct (decide (applicable s r)) as [Ha|Hn].
  - rewrite apply_execution_result_ok by done. by intros [= <-].
  - destruct (apply_execution_result_panic s r Hn) as [msg ->]. done.
Qed.

Lemma apply_execution_result_fuel s r : apply_execution_result (E:=E) s r ≠ NoFuel.
Proof.
  destruct (decide (applicable s r)) as [Ha|Hn].
  - by rewrite apply_execution_result_ok.
  - by destruct (apply_execution_result_panic s r Hn) as [msg ->].
Qed.
End apply_lemmas.
