(* ===== verification/Mempool.v ===== *)
(** * The pending transaction pool

    Models [meow-nakamoto/src/mempool/mod.rs].  A method on [&mut self] that
    returns a [Result] is a function to the new pool: an error leaves the pool
    as it was. *)

From S2P Require Import Prelude Address VmTypes ChainTypes Validator Store.

Module MempoolError.
Inductive t :=
  | DuplicateTransaction (digest : Digest)
  | InvalidObjectDigest (address : Address) (expected found : Digest)
  | InvalidObjectVersion (address : Address) (expected found : ObjectVersion)
  | MempoolFull (capacity : nat)
  | ObjectNotFound (address : Address)
  | TransactionValidationError (e : ValidationError.t).
End MempoolError.

Definition MAX_MEMPOOL_SIZE : nat := 4096.

Record Mempool := mkMempool {
  pending : list SignedTransaction;
  seen : gset Digest;
}.

(** [Mempool::empty], [is_empty], [len]. *)
Definition mempool_empty : Mempool := mkMempool [] ∅.
Definition mempool_is_empty (mp : Mempool) : bool := bool_decide (pending mp = []).
Definition mempool_len (mp : Mempool) : nat := length (pending mp).

Section mempool.
Context `{Crypto}.

Definition signed_digest (s : SignedTransaction) : Digest := tx_digest (signed_transaction s).

(** [validate_object_ref]. *)
Definition validate_object_ref (r : ObjectRef) (store : Store) : outcome MempoolError.t () :=
  object ← ok_or (get_object store (ref_address r)) (MempoolError.ObjectNotFound (ref_address r));
  guard_err (bool_decide (obj_version object ≠ ref_version r))
    (MempoolError.InvalidObjectVersion (ref_address r) (ref_version r) (obj_version object)) ;;
  guard_err (bool_decide (object_digest object ≠ ref_digest r))
    (MempoolError.InvalidObjectDigest (ref_address r) (ref_digest r) (object_digest object)).

(** The argument loop of [validate_against_store]. *)
Fixpoint validate_inputs (args : list Input) (store : Store) : outcome MempoolError.t () :=
  match args with
  | [] => Ok ()
  | InputObject r :: args => validate_object_ref r store ;; validate_inputs args store
  | InputRaw _ :: args => validate_inputs args store
  end.

(** [validate_against_store]. *)
Definition validate_against_store (t : Transaction) (store : Store) : outcome MempoolError.t () :=
  validate_object_ref (tx_gas_coin t) store ;;
  match tx_type t with
  | MeowCall call => validate_inputs (call_arguments call) store
  | MeowModulePublish _ => Ok ()
  end.

(** [Mempool::submit]. *)
Definition submit (mp : Mempool) (s : SignedTransaction) (store : Store)
  : outcome MempoolError.t Mempool :=
  map_err MempoolError.TransactionValidationError (validate_signed_transaction s) ;;
  let digest := signed_digest s in
  guard_err (bool_decide (digest ∈ seen mp)) (MempoolError.DuplicateTransaction digest) ;;
  guard_err (bool_decide (MAX_MEMPOOL_SIZE ≤ length (pending mp)))
    (MempoolError.MempoolFull MAX_MEMPOOL_SIZE) ;;
  validate_against_store (signed_transaction s) store ;;
  Ok (mkMempool (pending mp ++ [s]) ({[digest]} ∪ seen mp)).

(** The loop of [retain_valid]: [valid] and [valid_seen]. *)
Fixpoint retain_loop (store : Store) (todo valid : list SignedTransaction)
    (valid_seen : gset Digest) : Mempool :=
  match todo with
  | [] => mkMempool valid valid_seen
  | s :: todo =>
      if is_ok (validate_against_store (signed_transaction s) store)
      then retain_loop store todo (valid ++ [s]) ({[signed_digest s]} ∪ valid_seen)
      else retain_loop store todo valid valid_seen
  end.

(** [Mempool::retain_valid]. *)
Definition retain_valid (mp : Mempool) (store : Store) : Mempool :=
  retain_loop store (pending mp) [] ∅.

(** [Mempool::drain_batch]. *)
Definition drain_batch (mp : Mempool) (limit : nat) : list SignedTransaction * Mempool :=
  let count := Nat.min limit (length (pending mp)) in
  let batch := take count (pending mp) in
  (batch, mkMempool (drop count (pending mp))
            (foldl (λ sn s, sn ∖ {[signed_digest s]}) (seen mp) batch)).

(** ** The invariant *)
Definition digests (l : list SignedTransaction) : list Digest := signed_digest <$> l.

Record wf_mempool (mp : Mempool) : Prop := {
  wf_seen : seen mp = list_to_set (digests (pending mp));
  wf_nodup : NoDup (digests (pending mp));
  wf_capacity : length (pending mp) ≤ MAX_MEMPOOL_SIZE;
  wf_signed : Forall (λ s, validate_signed_transaction s = Ok ()) (pending mp);
}.

(** Every object the transaction refers to is in the store as referred to. *)
Definition ref_current (store : Store) (r : ObjectRef) : Prop :=
  ∃ o, get_object store (ref_address r) = Some o ∧ obj_version o = ref_version r ∧
    object_digest o = ref_digest r.
Definition tx_refs (t : Transaction) : list ObjectRef :=
  tx_gas_coin t ::
  match tx_type t with
  | MeowCall c => omap (λ arg, match arg with InputObject r => Some r | InputRaw _ => None end)
                    (call_arguments c)
  | MeowModulePublish _ => []
  end.
Definition current (store : Store) (t : Transaction) : Prop :=
  Forall (ref_current store) (tx_refs t).

Lemma validate_object_ref_Ok r store u :
  validate_object_ref r store = Ok u ↔ ref_current store r.
Proof.
  unfold validate_object_ref, ref_current. destruct (get_object store (ref_address r)) as [o|]; simpl.
  - unfold guard_err. destruct u. split.
    + intros Hv. repeat case_bool_decide; simplify_eq/=. eauto.
    + intros (o' & ? & Hv & Hd). simplify_eq. by repeat case_bool_decide.
  - naive_solver.
Qed.

Lemma validate_inputs_Ok args store u :
  validate_inputs args store = Ok u ↔
  Forall (ref_current store)
    (omap (λ arg, match arg with InputObject r => Some r | InputRaw _ => None end) args).
Proof.
  induction args as [|[r|bs] args IH]; simpl; [by destruct u| |done].
  rewrite list.Forall_cons, <-IH, <-(validate_object_ref_Ok _ _ ()). split.
  - intros ([] & Hr & Hv)%bind_Ok. done.
  - by intros [-> ->].
Qed.

Lemma validate_against_store_Ok t store u :
  validate_against_store t store = Ok u ↔ current store t.
Proof.
  unfold validate_against_store, current, tx_refs.
  rewrite list.Forall_cons, <-(validate_object_ref_Ok _ _ ()). split.
  - intros ([] & Hr & Hv)%bind_Ok. split; [done|].
    destruct (tx_type t); [by apply validate_inputs_Ok in Hv|constructor].
  - intros [-> Ha]. simpl. destruct (tx_type t); [by apply validate_inputs_Ok|by destruct u].
Qed.

Global Instance ref_current_dec store r : Decision (ref_current store r).
Proof.
  destruct (validate_object_ref r store) eqn:Hv;
    [left; by eapply validate_object_ref_Ok|right; rewrite <-(validate_object_ref_Ok _ _ ()); congruence..].
Defined.
Global Instance current_dec store t : Decision (current store t).
Proof. unfold current. apply _. Defined.

Lemma validate_against_store_is_ok t store :
  is_ok (validate_against_store t store) = bool_decide (current store t).
Proof.
  case_bool_decide as Hc.
  - by rewrite (proj2 (validate_against_store_Ok t store ())).
  - destruct (validate_against_store t store) as [u| | |] eqn:Hv; try done.
    destruct Hc. by eapply validate_against_store_Ok.
Qed.

(** ** What each operation does *)
Lemma retain_loop_spec store todo valid vs :
  vs = list_to_set (digests valid) →
  retain_loop store todo valid vs =
  let l := valid ++ filter (λ s, current store (signed_transaction s)) todo in
  mkMempool l (list_to_set (digests l)).
Proof.
  revert valid vs. induction todo as [|s todo IH]; intros valid vs ->; simpl.
  { by rewrite app_nil_r. }
  rewrite validate_against_store_is_ok.
  destruct (decide (current store (signed_transaction s))) as [Hc|Hc].
  - rewrite bool_decide_true by done. rewrite IH.
    + rewrite filter_cons_True by done. simpl. by rewrite <-app_assoc.
    + unfold digests. rewrite fmap_app, list_to_set_app_L, (comm_L (∪)). simpl.
      by rewrite (right_id_L ∅ (∪)).
  - rewrite bool_decide_false by done. rewrite IH by done. by rewrite filter_cons_False by done.
Qed.

Lemma retain_valid_spec mp store :
  retain_valid mp store =
  let l := filter (λ s, current store (signed_transaction s)) (pending mp) in
  mkMempool l (list_to_set (digests l)).
Proof. unfold retain_valid. by rewrite retain_loop_spec. Qed.

Lemma remove_digests_spec (l : list SignedTransaction) (sn : gset Digest) :
  foldl (λ sn s, sn ∖ {[signed_digest s]}) sn l = sn ∖ list_to_set (digests l).
Proof.
  revert sn. induction l as [|s l IH]; intros sn; simpl; [set_solver|].
  rewrite IH. set_solver.
Qed.

Lemma submit_Ok mp s store mp' :
  submit mp s store = Ok mp' ↔
  validate_signed_transaction s = Ok () ∧ signed_digest s ∉ seen mp ∧
  length (pending mp) < MAX_MEMPOOL_SIZE ∧ current store (signed_transaction s) ∧
  mp' = mkMempool (pending mp ++ [s]) ({[signed_digest s]} ∪ seen mp).
Proof.
  unfold submit. split.
  - intros Hs. apply bind_Ok in Hs as ([] & Hv%map_err_Ok & Hs).
    apply bind_Ok in Hs as (? & Hd%guard_err_Ok%bool_decide_eq_false & Hs).
    apply bind_Ok in Hs as (? & Hf%guard_err_Ok%bool_decide_eq_false & Hs).
    apply bind_Ok in Hs as (? & Hc%validate_against_store_Ok & Hs). simplify_eq.
    split_and!; [done..|lia|done|done].
  - intros (Hv & Hd & Hf & Hc & ->). rewrite Hv. simpl.
    rewrite (bool_decide_false (_ ∈ _)) by done. simpl.
    rewrite bool_decide_false by lia. simpl.
    by rewrite (proj2 (validate_against_store_Ok _ _ ())).
Qed.

Lemma submit_wf mp s store mp' : wf_mempool mp → submit mp s store = Ok mp' → wf_mempool mp'.
Proof.
  intros [Hs Hn Hc Hv] (Hsig & Hd & Hf & _ & ->)%submit_Ok. rewrite Hs in Hd.
  rewrite elem_of_list_to_set in Hd. split; simpl.
  - rewrite Hs. unfold digests. rewrite fmap_app, list_to_set_app_L. simpl.
    by rewrite (right_id_L ∅ (∪)), (comm_L (∪)).
  - unfold digests. rewrite fmap_app. apply list.NoDup_app. split_and!; [done| |apply NoDup_singleton].
    intros d Hd' ->%list_elem_of_singleton. done.
  - rewrite length_app. simpl. lia.
  - apply Forall_app. split; [done|]. by constructor.
Qed.

Lemma retain_valid_wf mp store : wf_mempool mp → wf_mempool (retain_valid mp store).
Proof.
  intros [Hs Hn Hc Hv]. rewrite retain_valid_spec. split; simpl; [done| | |].
  - eapply sublist_NoDup; [exact Hn|]. apply fmap_sublist, sublist_filter.
  - etrans; [|exact Hc]. apply length_filter.
  - rewrite list.Forall_forall in *. intros x [_ Hx]%list_elem_of_filter. by apply Hv.
Qed.

Lemma drain_batch_wf mp limit : wf_mempool mp → wf_mempool (snd (drain_batch mp limit)).
Proof.
  intros [Hs Hn Hc Hv]. unfold drain_batch. simpl. set (n := Nat.min _ _).
  rewrite remove_digests_spec. split; simpl.
  - rewrite Hs. rewrite <-(take_drop n (pending mp)) at 1. rewrite <-(take_drop n (pending mp)) in Hn.
    unfold digests in *. rewrite fmap_app, list_to_set_app_L in *.
    apply list.NoDup_app in Hn as (_ & Hdisj & _). apply set_eq. intros d.
    rewrite elem_of_difference, elem_of_union, !elem_of_list_to_set. specialize (Hdisj d). tauto.
  - rewrite <-(take_drop n (pending mp)) in Hn. unfold digests in *. rewrite fmap_app in Hn.
    by apply list.NoDup_app in Hn as (_ & _ & ?).
  - rewrite length_drop. lia.
  - by apply Forall_drop.
Qed.

(** ** Every reachable pool *)
Inductive mempool_step : Mempool → Mempool → Prop :=
  | step_submit mp s store mp' : submit mp s store = Ok mp' → mempool_step mp mp'
  | step_retain mp store : mempool_step mp (retain_valid mp store)
  | step_drain mp limit : mempool_step mp (snd (drain_batch mp limit)).

Lemma mempool_reachable_wf mp : rtc mempool_step mempool_empty mp → wf_mempool mp.
Proof.
  intros Hr. assert (He : wf_mempool mempool_empty).
  { split; [done|constructor|simpl; unfold MAX_MEMPOOL_SIZE; lia|constructor]. }
  revert He. induction Hr as [|mp1 mp2 mp3 Hstep _ IH]; [done|]. intros Hwf. apply IH.
  destruct Hstep; eauto using submit_wf, retain_valid_wf, drain_batch_wf.
Qed.

(** ** Runs of a pool, with what happens on the way *)
Inductive pool_event :=
  | Submitted (s : SignedTransaction) (store : Store)
  | Retained (store : Store)
  | Drained (limit : nat) (batch : list SignedTransaction).

Inductive pool_run : Mempool → list pool_event → Mempool → Prop :=
  | run_nil mp : pool_run mp [] mp
  | run_submit mp s store mp1 evs mp2 :
      submit mp s store = Ok mp1 → pool_run mp1 evs mp2 →
      pool_run mp (Submitted s store :: evs) mp2
  | run_retain mp store evs mp2 :
      pool_run (retain_valid mp store) evs mp2 → pool_run mp (Retained store :: evs) mp2
  | run_drain mp limit batch mp1 evs mp2 :
      drain_batch mp limit = (batch, mp1) → pool_run mp1 evs mp2 →
      pool_run mp (Drained limit batch :: evs) mp2.

(** The room in the batches of a run. *)
Definition drain_room (evs : list pool_event) : nat :=
  sum_list_with (λ e, match e with Drained limit _ => limit | _ => 0 end) evs.

(** A filter moves what it keeps to the front. *)
Lemma filter_lookup_front (P : SignedTransaction → Prop) `{∀ s, Decision (P s)} (l : list _) i s :
  l !! i = Some s → P s → ∃ j, j ≤ i ∧ filter P l !! j = Some s.
Proof.
  revert i. induction l as [|x l IH]; intros [|i] Hi HP; simplify_eq/=.
  - exists 0. split; [lia|]. by rewrite filter_cons_True.
  - destruct (IH i Hi HP) as (j & Hj & Hs). destruct (decide (P x)).
    + exists (S j). rewrite filter_cons_True by done. split; [lia|done].
    + exists j. rewrite filter_cons_False by done. split; [lia|done].
Qed.

(** A pending transaction advances with every batch. *)
Lemma pool_run_advances mp evs mp' i s :
  pool_run mp evs mp' → pending mp !! i = Some s → i < drain_room evs →
  (∃ limit batch, Drained limit batch ∈ evs ∧ s ∈ batch) ∨
  (∃ store, Retained store ∈ evs ∧ ¬ current store (signed_transaction s)).
Proof.
  intros Hrun. revert i. unfold drain_room.
  induction Hrun as [mp|mp s' store mp1 evs mp2 Hs _ IH|mp store evs mp2 _ IH|
    mp limit batch mp1 evs mp2 Hd _ IH]; intros i Hi Hlt; cbn [sum_list_with] in Hlt; [lia|..].
  - apply submit_Ok in Hs as (_ & _ & _ & _ & ->). simpl in IH.
    destruct (IH i) as [(l & b & ? & ?)|(st & ? & ?)]; [by apply lookup_app_l_Some|done|left|right].
    + exists l, b. split; [by right|done].
    + exists st. split; [by right|done].
  - destruct (decide (current store (signed_transaction s))) as [Hc|Hn];
      [|right; exists store; split; [by left|done]].
    destruct (filter_lookup_front (λ s, current store (signed_transaction s)) _ _ _ Hi Hc) as (j & Hj & Hs).
    rewrite retain_valid_spec in IH. simpl in IH.
    destruct (IH j Hs) as [(l & b & ? & ?)|(st & ? & ?)]; [simpl in *; lia|left|right].
    + exists l, b. split; [by right|done].
    + exists st. split; [by right|done].
  - unfold drain_batch in Hd. simplify_eq/=. pose proof (lookup_lt_Some _ _ _ Hi) as Hlen.
    destruct (decide (i < limit)) as [Hil|Hge].
    + left. eexists _, _. split; [by left|]. apply list_elem_of_lookup. exists i.
      rewrite lookup_take_lt by lia. done.
    + destruct (IH (i - limit)) as [(l & b & ? & ?)|(st & ? & ?)]; [|lia|left|right].
      * rewrite lookup_drop, Nat.min_l by lia. by replace (limit + (i - limit)) with i by lia.
      * exists l, b. split; [by right|done].
      * exists st. split; [by right|done].
Qed.
End mempool.
