(* ===== verification/Chain.v ===== *)
(** * Chain state and fork resolution

    Models [meow-nakamoto/src/chain/mod.rs] and [system_transactions.rs].
    [now] is the reading of the wall clock.  A [Result] of a method on
    [&mut self] carries the new state; an error leaves the state as it was.

    The executor of the VM adapter is the class [Executor]: the chain is
    proved against what the executor promises ([ExecutorLaws]). *)

From S2P Require Import Prelude Address VmTypes ChainTypes Framework Context Validator Store.

(** ** The executor, as the chain sees it *)

Class Executor := {
  ExecutorError : Type;
  (** [executor::execute], [executor::execute_system_transaction]. *)
  execute : Transaction → list Object → ExternalContext → outcome ExecutorError ExecutionResult;
  execute_system_transaction : Transaction → list Object → outcome ExecutorError ExecutionResult;
  (** [inputs_resolver::collect_inputs]; the closure [get_object] looks an
      address up in a store, which is given by its map. *)
  collect_inputs : Transaction → gmap Address Object → list Object;
}.

(** ** Unsigned arithmetic that the code leaves unchecked

    Overflow panics with debug assertions; in a release build it wraps. *)
Definition u64_add {E} (a b : Z) : outcome E Z :=
  expect (checked_add a b) "attempt to add with overflow".
Fixpoint u64_sum {E} (acc : Z) (l : list Z) : outcome E Z :=
  match l with
  | [] => Ok acc
  | x :: l => acc ← u64_add acc x; u64_sum acc l
  end.

Module ChainError.
Inductive t :=
  | AlreadyKnown
  | EmptyBlock
  | DuplicateTransaction
  | ExecutionFailed
  | InvalidHeight (expected got : Z)
  | InconsistentReward
  | InvalidReward
  | InvalidSignature
  | PowCheckFailed
  | ResultsCountMismatch
  | ResultsMismatch
  | RewardRootMismatch
  | SnapshotNotAdvancing (snap_height head_height : Z)
  | StateRootMismatch
  | TimestampNotAdvancing
  | TimestampTooFarInFuture
  | TooManyTransactions (max got : nat)
  | TransactionsRootMismatch
  | UnknownParent.
End ChainError.

Definition MAX_BLOCK_FUTURE_DRIFT_MS : Z := 120000.

(** ** System transactions ([system_transactions.rs]) *)
Section system_transactions.
Context `{Crypto, Executor}.

(** [make_reward_transaction]. *)
Definition make_reward_transaction (sig_addr reward_address : Address) (amount : Z)
    (mining_block_hash : Digest) : Transaction :=
  mkTransaction sig_addr (mkObjectRef address_ZERO version_ZERO mining_block_hash)
    (MeowCall (mkCall MEOW_COIN_MODULE_ADDRESS (mkIdentifier MEOW_COIN_MINT_FUNCTION_NAME)
       [InputRaw (bcs_u64 amount); InputRaw (bcs_address reward_address)])).

(** [is_valid_reward_transaction]. *)
Definition is_valid_reward_transaction (t : Transaction) (expected_amount : Z)
    (mining_block_hash : Digest) : bool :=
  match tx_type t with
  | MeowCall c =>
      let gas_coin := tx_gas_coin t in
      if bool_decide (ref_address gas_coin ≠ address_ZERO) ||
         bool_decide (ref_version gas_coin ≠ version_ZERO) ||
         bool_decide (ref_digest gas_coin ≠ mining_block_hash)
      then false
      else if bool_decide (call_module c ≠ MEOW_COIN_MODULE_ADDRESS) then false
      else if bool_decide (identifier_str (call_function c) ≠ MEOW_COIN_MINT_FUNCTION_NAME)
      then false
      else
        match call_arguments c with
        | [InputRaw amount_bytes; second] =>
            if bool_decide (bcs_u64_decode amount_bytes ≠ Some expected_amount) then false
            else
              match second with
              | InputRaw addr_bytes => bool_decide (is_Some (bcs_address_decode addr_bytes))
              | InputObject _ => false
              end
        | _ => false
        end
  | MeowModulePublish _ => false
  end.

(** [collect_inputs_for_reward_transaction]. *)
Definition collect_inputs_for_reward_transaction {E} (s : Store) : outcome E (list Object) :=
  o1 ← expect (get_object s MEOW_OBJECT_MODULE_ADDRESS) "framework module must be present in store";
  o2 ← expect (get_object s MEOW_COIN_MODULE_ADDRESS) "framework module must be present in store";
  Ok [o1; o2].

(** [execute_reward_transaction]. *)
Definition execute_reward_transaction (t : Transaction) (s : Store)
  : outcome ExecutorError ExecutionResult :=
  inputs ← collect_inputs_for_reward_transaction s;
  execute_system_transaction t inputs.
End system_transactions.

(** ** Structural checks *)
Section structure.
Context `{Crypto}.

(** The duplicate check of [validate_block_structure], with its set [seen]. *)
Fixpoint has_duplicate (seen : gset Digest) (txs : list SignedTransaction) : bool :=
  match txs with
  | [] => false
  | tx :: txs =>
      let digest := tx_digest (signed_transaction tx) in
      if bool_decide (digest ∈ seen) then true else has_duplicate ({[digest]} ∪ seen) txs
  end.

(** [validate_block_structure]. *)
Definition validate_block_structure (now : Z) (block : Block) (difficulty : Z)
  : outcome ChainError.t () :=
  guard_err (bool_decide (transactions block = [])) ChainError.EmptyBlock ;;
  guard_err (bool_decide (MAX_TRANSACTIONS_PER_BLOCK < length (transactions block)))
    (ChainError.TooManyTransactions MAX_TRANSACTIONS_PER_BLOCK (length (transactions block))) ;;
  guard_err (has_duplicate ∅ (transactions block)) ChainError.DuplicateTransaction ;;
  limit ← u64_add now MAX_BLOCK_FUTURE_DRIFT_MS;
  guard_err (bool_decide (limit < timestamp (block_header block))%Z)
    ChainError.TimestampTooFarInFuture ;;
  guard_err (bool_decide (length (results block) ≠ length (transactions block)))
    ChainError.ResultsCountMismatch ;;
  guard_err (xorb (is_some (reward_transaction block)) (is_some (reward_transaction_result block)))
    ChainError.InconsistentReward ;;
  guard_err (bool_decide (0 < height (block_header block))%Z &&
             negb (meets_difficulty (block_header block) difficulty))
    ChainError.PowCheckFailed ;;
  guard_err (bool_decide (compute_transactions_root (transactions block) ≠
                          transactions_root (block_header block)))
    ChainError.TransactionsRootMismatch ;;
  guard_err (bool_decide (((λ tx, tx_digest (signed_transaction tx)) <$> reward_transaction block) ≠
                          reward_root (block_header block)))
    ChainError.RewardRootMismatch.
End structure.

(** ** The state *)
Record ChainState := mkChain {
  blocks : gmap Digest Block;
  snapshots : gmap Digest Store;
  head_hash : Digest;
  difficulty : Z;
  snapshot_depth : Z;
}.

Section chain.
Context `{Crypto, Executor}.

(** [ChainState::new]. *)
Definition chain_new (initial_store : Store) (difficulty snapshot_depth : Z) : ChainState :=
  let genesis_hash := block_hash block_genesis in
  mkChain {[ genesis_hash := block_genesis ]} {[ genesis_hash := initial_store ]} genesis_hash
    difficulty snapshot_depth.

(** [ChainState::from_snapshot]. *)
Definition from_snapshot (now current_head_height : Z) (head_block : Block) (store : Store)
    (difficulty snapshot_depth : Z) : outcome ChainError.t ChainState :=
  let snap_height := height (block_header head_block) in
  guard_err (bool_decide (snap_height ≤ current_head_height)%Z)
    (ChainError.SnapshotNotAdvancing snap_height current_head_height) ;;
  validate_block_structure now head_block difficulty ;;
  guard_err (bool_decide (compute_state_root store ≠ state_root (block_header head_block)))
    ChainError.StateRootMismatch ;;
  let hash := block_hash head_block in
  Ok (mkChain {[ hash := head_block ]} {[ hash := store ]} hash difficulty snapshot_depth).

(** [head_block], [head_height], [sync_from_height], [head_store]. *)
Definition head_block {E} (cs : ChainState) : outcome E Block :=
  expect (blocks cs !! head_hash cs) "head always exists".
Definition head_height {E} (cs : ChainState) : outcome E Z :=
  b ← head_block cs; Ok (height (block_header b)).
Definition sync_from_height {E} (cs : ChainState) : outcome E Z :=
  h ← head_height cs; Ok (saturating_sub h (snapshot_depth cs)).
Definition head_store {E} (cs : ChainState) : outcome E Store :=
  expect (snapshots cs !! head_hash cs) "head snapshot always exists".

(** [get_block], [get_block_snapshot], [get_blocks_since]. *)
Definition get_block (cs : ChainState) (d : Digest) : option Block := blocks cs !! d.
Definition get_block_snapshot (cs : ChainState) (d : Digest) : option StateSnapshot :=
  block ← blocks cs !! d;
  store ← snapshots cs !! d;
  Some (mkSnapshot block (store_objects store)).
Definition get_blocks_since (cs : ChainState) (h : Z) : list Block :=
  filter (λ b, (h ≤ height (block_header b))%Z) (snd <$> map_to_list (blocks cs)).

(** [canonical_chain]: from the head along the parent links; [None] when the
    fuel runs out. *)
Fixpoint chain_from (fuel : nat) (bs : gmap Digest Block) (d : Digest) : option (list Block) :=
  match bs !! d with
  | None => Some []
  | Some block =>
      match fuel with
      | O => None
      | S fuel => l ← chain_from fuel bs (parent_hash (block_header block)); Some (block :: l)
      end
  end.
Definition canonical_chain (cs : ChainState) : option (list Block) :=
  chain_from (size (blocks cs)) (blocks cs) (head_hash cs).

(** [get_transaction_result], [get_transaction]. *)
Definition get_transaction_result (cs : ChainState) (d : Digest) : option ExecutionResult :=
  chain ← canonical_chain cs;
  find_first (λ r, bool_decide (res_transaction_digest r = d)) (mjoin (results <$> chain)).
Definition get_transaction (cs : ChainState) (d : Digest) : option SignedTransaction :=
  chain ← canonical_chain cs;
  find_first (λ tx, bool_decide (tx_digest (signed_transaction tx) = d))
    (mjoin (transactions <$> chain)).

(** [prune_finalized_blocks]. *)
Definition prune_finalized_blocks {E} (cs : ChainState) : outcome E ChainState :=
  b ← head_block cs;
  let head_h := height (block_header b) in
  if bool_decide (head_h ≤ snapshot_depth cs)%Z then Ok cs
  else
    let cutoff := (head_h - snapshot_depth cs)%Z in
    let to_remove :=
      fst <$> filter (λ p, (height (block_header (snd p)) < cutoff)%Z) (map_to_list (blocks cs)) in
    Ok (mkChain (foldl (λ m h, delete h m) (blocks cs) to_remove)
                (foldl (λ m h, delete h m) (snapshots cs) to_remove)
                (head_hash cs) (difficulty cs) (snapshot_depth cs)).

(** [commit]: [expect] on the structural checks. *)
Definition commit {E} (now : Z) (cs : ChainState) (block : Block) (new_store : Store)
  : outcome E ChainState :=
  match validate_block_structure now block (difficulty cs) with
  | Ok _ =>
      let hash := block_hash block in
      prune_finalized_blocks
        (mkChain (<[hash := block]> (blocks cs)) (<[hash := new_store]> (snapshots cs)) hash
           (difficulty cs) (snapshot_depth cs))
  | Err _ => Panic "commit called with structurally invalid block"
  | Panic msg => Panic msg
  | NoFuel => NoFuel
  end.

(** The signature loop of [apply_block]. *)
Fixpoint check_signatures (txs : list SignedTransaction) : outcome ChainError.t () :=
  match txs with
  | [] => Ok ()
  | tx :: txs =>
      map_err (λ _, ChainError.InvalidSignature) (validate_signed_transaction tx) ;;
      check_signatures txs
  end.

(** The execution loop of [apply_block]: the store and the results. *)
Fixpoint execute_all (ctx : ExternalContext) (s : Store) (txs : list SignedTransaction)
  : outcome ChainError.t (Store * list ExecutionResult) :=
  match txs with
  | [] => Ok (s, [])
  | tx :: txs =>
      let t := signed_transaction tx in
      result ← map_err (λ _, ChainError.ExecutionFailed)
                 (execute t (collect_inputs t (store_map s)) ctx);
      s ← apply_execution_result s result;
      '(s, rs) ← execute_all ctx s txs;
      Ok (s, result :: rs)
  end.

(** [apply_block_reward_transaction]: whether the reward is valid, and the store. *)
Definition apply_block_reward_transaction {E} (reward : SignedTransaction)
    (reward_result : ExecutionResult) (total_gas : Z) (mining_block_hash : Digest) (s : Store)
  : outcome E (bool * Store) :=
  match validate_signed_transaction reward with
  | Err _ => Ok (false, s)
  | Panic msg => Panic msg
  | NoFuel => NoFuel
  | Ok _ =>
      if negb (is_valid_reward_transaction (signed_transaction reward) total_gas mining_block_hash)
      then Ok (false, s)
      else
        match execute_reward_transaction (signed_transaction reward) s with
        | Err _ => Ok (false, s)
        | Panic msg => Panic msg
        | NoFuel => NoFuel
        | Ok recomputed =>
            if bool_decide (recomputed ≠ reward_result) then Ok (false, s)
            else s ← apply_execution_result s recomputed; Ok (true, s)
        end
  end.

(** The reward match of [apply_block]. *)
Definition check_reward {E} (block : Block) (total_gas : Z) (s : Store) : outcome E (bool * Store) :=
  match reward_transaction block, reward_transaction_result block with
  | None, None => Ok (bool_decide (total_gas = 0%Z), s)
  | Some reward, Some reward_result =>
      if bool_decide (total_gas = 0%Z) then Ok (false, s)
      else apply_block_reward_transaction reward reward_result total_gas
             (mining_hash (block_header block)) s
  | _, _ => Ok (false, s)
  end.

(** Re-execution of a block on the store of its parent. *)
Definition reexecute (block : Block) (parent_store : Store) : outcome ChainError.t Store :=
  let header := block_header block in
  '(s, rs) ← execute_all (mkContext (mining_hash header) (timestamp header)) parent_store
               (transactions block);
  guard_err (bool_decide (rs ≠ results block)) ChainError.ResultsMismatch ;;
  total_gas ← u64_sum 0 (res_gas_used <$> rs);
  '(reward_valid, s) ← check_reward block total_gas s;
  guard_err (negb reward_valid) ChainError.InvalidReward ;;
  guard_err (bool_decide (compute_state_root s ≠ state_root header)) ChainError.StateRootMismatch ;;
  Ok s.

(** [apply_block]: whether the head changed, and the new state. *)
Definition apply_block (now : Z) (cs : ChainState) (block : Block)
  : outcome ChainError.t (bool * ChainState) :=
  let hash := block_hash block in
  let header := block_header block in
  guard_err (bool_decide (is_Some (blocks cs !! hash))) ChainError.AlreadyKnown ;;
  guard_err (bool_decide (blocks cs !! parent_hash header = None)) ChainError.UnknownParent ;;
  validate_block_structure now block (difficulty cs) ;;
  parent ← expect (blocks cs !! parent_hash header) "no entry found for key";
  expected ← u64_add (height (block_header parent)) 1;
  guard_err (bool_decide (height header ≠ expected))
    (ChainError.InvalidHeight expected (height header)) ;;
  guard_err (bool_decide (timestamp header ≤ timestamp (block_header parent))%Z)
    ChainError.TimestampNotAdvancing ;;
  check_signatures (transactions block) ;;
  parent_snapshot ← expect (snapshots cs !! parent_hash header)
    "parent snapshot always exists when parent block is known";
  new_store ← reexecute block parent_snapshot;
  let cs' := mkChain (<[hash := block]> (blocks cs)) (<[hash := new_store]> (snapshots cs))
               (head_hash cs) (difficulty cs) (snapshot_depth cs) in
  head_h ← head_height cs';
  if bool_decide (head_h < height header)%Z then
    cs'' ← prune_finalized_blocks
             (mkChain (blocks cs') (snapshots cs') hash (difficulty cs) (snapshot_depth cs));
    Ok (true, cs'')
  else Ok (false, cs').
End chain.
