(* ===== verification/ChainProps.v ===== *)
(** * Invariants of the chain state *)

From S2P Require Import Prelude Address VmTypes ChainTypes Framework Context Validator Store.
From S2P Require Import Chain.

(** ** Pruning *)
Lemma lookup_foldl_delete {K A} `{Countable K} (m : gmap K A) (l : list K) k :
  foldl (λ m h, delete h m) m l !! k = if decide (k ∈ l) then None else m !! k.
Proof.
  revert m. induction l as [|h l IH]; intros m; simpl; [done|].
  rewrite IH. destruct (decide (k = h)) as [->|Hne].
  - rewrite lookup_delete_eq. rewrite (decide_True (P:=h ∈ h :: l)) by left. by case_decide.
  - rewrite lookup_delete_ne by done. destruct (decide (k ∈ l)) as [Hin|Hin].
    + by rewrite decide_True by by right.
    + rewrite decide_False; [done|]. by intros [?|?]%elem_of_cons.
Qed.

Section invariant.
Context `{Crypto, Executor}.

Notation block_height b := (height (block_header b)).

(** The blocks within [depth] of height [h]. *)
Definition in_window (h depth : Z) (b : Block) : Prop := (h - depth ≤ block_height b)%Z.

(** What holds of a chain whatever the hash function does. *)
Record chain_core (cs : ChainState) : Prop := {
  (** blocks and snapshots come in pairs *)
  wf_dom : dom (snapshots cs) = dom (blocks cs);
  (** every block is filed under its hash *)
  wf_hash d b : blocks cs !! d = Some b → block_hash b = d;
  (** the head is known, is the highest block, and no block lies deeper
      behind it than the snapshot depth *)
  wf_head : ∃ hb, blocks cs !! head_hash cs = Some hb ∧
    ∀ d b, blocks cs !! d = Some b →
      (0 ≤ block_height b ≤ block_height hb)%Z ∧
      in_window (block_height hb) (snapshot_depth cs) b;
  (** every snapshot is a store *)
  wf_snapshots d s : snapshots cs !! d = Some s → wf_store s;
}.

(** A block is one higher than its parent, when the parent is known. *)
Definition chain_linked (cs : ChainState) : Prop :=
  ∀ d b p, blocks cs !! d = Some b → blocks cs !! parent_hash (block_header b) = Some p →
    block_height b = (block_height p + 1)%Z.

Record wf_chain (cs : ChainState) : Prop := {
  wf_core :> chain_core cs;
  wf_link : chain_linked cs;
}.
Local Hint Resolve wf_core : core.

Lemma head_block_ok {E} cs hb :
  blocks cs !! head_hash cs = Some hb → head_block (E:=E) cs = Ok hb.
Proof. unfold head_block. by intros ->. Qed.

Lemma snapshot_of_block cs d b :
  chain_core cs → blocks cs !! d = Some b → ∃ s, snapshots cs !! d = Some s ∧ wf_store s.
Proof.
  intros Hwf Hb. assert (d ∈ dom (snapshots cs)) as [s Hs]%elem_of_dom.
  { rewrite (wf_dom _ Hwf). by apply elem_of_dom_2 in Hb. }
  exists s. split; [done|]. by eapply wf_snapshots.
Qed.

(** What pruning leaves: the blocks within the window, and their snapshots. *)
Lemma prune_spec {E} cs hb :
  blocks cs !! head_hash cs = Some hb → dom (snapshots cs) = dom (blocks cs) →
  (∀ d b, blocks cs !! d = Some b → (0 ≤ block_height b)%Z) →
  ∃ cs', prune_finalized_blocks (E:=E) cs = Ok cs' ∧
    head_hash cs' = head_hash cs ∧ difficulty cs' = difficulty cs ∧
    snapshot_depth cs' = snapshot_depth cs ∧
    (∀ d b, blocks cs' !! d = Some b ↔
      blocks cs !! d = Some b ∧ in_window (block_height hb) (snapshot_depth cs) b) ∧
    (∀ d s, snapshots cs' !! d = Some s ↔ snapshots cs !! d = Some s ∧
      ∃ b, blocks cs !! d = Some b ∧ in_window (block_height hb) (snapshot_depth cs) b).
Proof.
  intros Hh Hdom Hpos. unfold prune_finalized_blocks. rewrite (head_block_ok _ _ Hh). simpl.
  assert (Hdom' : ∀ d s, snapshots cs !! d = Some s → ∃ b, blocks cs !! d = Some b).
  { intros d s Hs. assert (d ∈ dom (blocks cs)) as [b Hb]%elem_of_dom; [|eauto].
    rewrite <-Hdom. by apply elem_of_dom_2 in Hs. }
  case_bool_decide as Hdepth.
  - exists cs. split_and!; [done..| |]; unfold in_window.
    + intros d b. split; [|by intros [? _]]. intros Hb. pose proof (Hpos _ _ Hb).
      split; [done|lia].
    + intros d s. split; [|by intros [? _]]. intros Hs. split; [done|].
      destruct (Hdom' _ _ Hs) as [b Hb]. pose proof (Hpos _ _ Hb). exists b. split; [done|lia].
  - set (rm := fst <$> filter _ _).
    assert (Hrm : ∀ d, d ∈ rm ↔ ∃ b, blocks cs !! d = Some b ∧
      (block_height b < block_height hb - snapshot_depth cs)%Z).
    { intros d. unfold rm. rewrite list_elem_of_fmap. split.
      - intros ([d' b] & -> & Hp). apply list_elem_of_filter in Hp as [Hlt Hp].
        apply elem_of_map_to_list in Hp. simpl in *. eauto.
      - intros (b & Hb & Hlt). exists (d, b). split; [done|]. apply list_elem_of_filter.
        split; [done|]. by apply elem_of_map_to_list. }
    eexists. split; [done|]. simpl. split_and!; [done..| |]; unfold in_window.
    + intros d b. rewrite lookup_foldl_delete. case_decide as Hin; rewrite Hrm in Hin.
      * split; [done|]. destruct Hin as (b' & Hb' & ?). intros [Hb ?]. simplify_eq. lia.
      * split; [|by intros [? _]]. intros Hb. split; [done|].
        destruct (decide (block_height hb - snapshot_depth cs ≤ block_height b)%Z); [done|].
        destruct Hin. exists b. split; [done|lia].
    + intros d s. rewrite lookup_foldl_delete. case_decide as Hin; rewrite Hrm in Hin.
      * split; [done|]. destruct Hin as (b' & Hb' & ?). intros (_ & b & Hb & ?).
        simplify_eq. lia.
      * split; [|by intros [? _]]. intros Hs. split; [done|].
        destruct (Hdom' _ _ Hs) as [b Hb]. exists b. split; [done|].
        destruct (decide (block_height hb - snapshot_depth cs ≤ block_height b)%Z); [done|].
        destruct Hin. exists b. split; [done|lia].
Qed.

(** ** Adding a block on top of a known one *)

(** The state with a block and its store added. *)
Definition add_block (cs : ChainState) (block : Block) (s : Store) (head : Digest) : ChainState :=
  mkChain (<[block_hash block := block]> (blocks cs)) (<[block_hash block := s]> (snapshots cs))
    head (difficulty cs) (snapshot_depth cs).

(** [block] is new, extends the known block [parent], and no known block
    already names it as its parent (its hash collides with nothing). *)
Record extends (cs : ChainState) (block : Block) : Prop := {
  ext_fresh : blocks cs !! block_hash block = None;
  ext_parent : ∃ p, blocks cs !! parent_hash (block_header block) = Some p ∧
    block_height block = (block_height p + 1)%Z;
  ext_orphans d b : blocks cs !! d = Some b →
    parent_hash (block_header b) ≠ block_hash block;
}.

(** The part of it that [apply_block] checks. *)
Definition on_parent (cs : ChainState) (block : Block) : Prop :=
  blocks cs !! block_hash block = None ∧
  ∃ p, blocks cs !! parent_hash (block_header block) = Some p ∧
    block_height block = (block_height p + 1)%Z.
Lemma extends_on_parent cs block : extends cs block → on_parent cs block.
Proof. by intros [? ? _]. Qed.

Lemma add_block_keep_core cs block s :
  chain_core cs → on_parent cs block → wf_store s →
  (∀ hb, blocks cs !! head_hash cs = Some hb → block_height block ≤ block_height hb)%Z →
  chain_core (add_block cs block s (head_hash cs)).
Proof.
  intros [Hdom Hhash (hb & Hhb & Hwin) Hst] [Hfresh (p & Hp & Hht)] Hs Hle.
  assert (Hne : head_hash cs ≠ block_hash block) by congruence.
  destruct (Hwin _ _ Hp) as [Hpp Hpw]. unfold in_window in Hpw.
  split; simpl.
  - rewrite !dom_insert_L. congruence.
  - intros d b. rewrite lookup_insert_Some. naive_solver.
  - exists hb. rewrite lookup_insert_ne by done. split; [done|].
    intros d b [[_ <-]|[_ Hb]]%lookup_insert_Some; [|by eapply Hwin].
    specialize (Hle hb Hhb). unfold in_window. lia.
  - intros d s' [[_ <-]|[_ Hs']]%lookup_insert_Some; eauto.
Qed.

(** Adding a block keeps the links, if nothing was waiting for it. *)
Lemma add_block_linked cs cs' block :
  chain_linked cs → extends cs block →
  (∀ d b, blocks cs' !! d = Some b → <[block_hash block := block]> (blocks cs) !! d = Some b) →
  chain_linked cs'.
Proof.
  intros Hlink [Hfresh (p & Hp & Hht) Horph] Hsub d b q Hb%Hsub Hq%Hsub.
  apply lookup_insert_Some in Hb as [[_ <-]|[_ Hb]].
  - rewrite lookup_insert_ne in Hq by congruence. by simplify_eq.
  - rewrite lookup_insert_ne in Hq by (apply not_eq_sym; by eapply Horph). by eapply Hlink.
Qed.

Lemma add_block_keep cs block s :
  wf_chain cs → extends cs block → wf_store s →
  (∀ hb, blocks cs !! head_hash cs = Some hb → block_height block ≤ block_height hb)%Z →
  wf_chain (add_block cs block s (head_hash cs)).
Proof.
  intros [Hc Hl] He Hs Hle. split; [by apply add_block_keep_core; [|apply extends_on_parent|..]|].
  by eapply add_block_linked.
Qed.

Lemma add_block_switch_core {E} cs block s :
  chain_core cs → on_parent cs block → wf_store s → (0 ≤ snapshot_depth cs)%Z →
  (∀ hb, blocks cs !! head_hash cs = Some hb → block_height hb < block_height block)%Z →
  ∃ cs', prune_finalized_blocks (E:=E) (add_block cs block s (block_hash block)) = Ok cs' ∧
    chain_core cs' ∧ head_hash cs' = block_hash block ∧
    blocks cs' !! block_hash block = Some block ∧
    snapshots cs' !! block_hash block = Some s ∧
    difficulty cs' = difficulty cs ∧ snapshot_depth cs' = snapshot_depth cs ∧
    (∀ d b, d ≠ block_hash block → blocks cs' !! d = Some b ↔
      blocks cs !! d = Some b ∧ in_window (block_height block) (snapshot_depth cs) b) ∧
    (∀ d t, d ≠ block_hash block → snapshots cs' !! d = Some t → snapshots cs !! d = Some t).
Proof.
  intros [Hdom Hhash (hb & Hhb & Hwin) Hst] [Hfresh (p & Hp & Hht)] Hs Hdepth Hlt.
  specialize (Hlt hb Hhb). destruct (Hwin _ _ Hp) as [Hpp _].
  set (cs1 := add_block cs block s (block_hash block)).
  destruct (prune_spec (E:=E) cs1 block) as (cs' & -> & Hhd & Hdf & Hdp & Hbs & Hss).
  { simpl. by rewrite lookup_insert_eq. }
  { simpl. rewrite !dom_insert_L. congruence. }
  { simpl. intros d b [[_ <-]|[_ Hb]]%lookup_insert_Some; [lia|]. destruct (Hwin _ _ Hb). lia. }
  unfold cs1, add_block in *. simpl in *. exists cs'.
  assert (Hself : in_window (block_height block) (snapshot_depth cs) block)
    by (unfold in_window; lia).
  assert (Hnb : blocks cs' !! block_hash block = Some block).
  { apply Hbs. by rewrite lookup_insert_eq. }
  split_and!; [done| |done|done| |done|done| |].
  - split.
    + apply set_eq. intros d. rewrite !elem_of_dom. split.
      * intros [s' (_ & b & Hb & Hw)%Hss]. exists b. by apply Hbs.
      * intros [b [Hb Hw]%Hbs].
        assert (is_Some (<[block_hash block:=s]> (snapshots cs) !! d)) as [s' Hs'].
        { destruct (decide (d = block_hash block)) as [->|]; [by rewrite lookup_insert_eq|].
          rewrite lookup_insert_ne in Hb by done. rewrite lookup_insert_ne by done. apply elem_of_dom. rewrite Hdom.
          by apply elem_of_dom_2 in Hb. }
        exists s'. apply Hss. eauto.
    + intros d b [Hb _]%Hbs. apply lookup_insert_Some in Hb as [[<- <-]|[_ Hb]]; eauto.
    + exists block. rewrite Hhd, Hdp. split; [done|]. intros d b [Hb Hw]%Hbs. split; [|done].
      apply lookup_insert_Some in Hb as [[_ <-]|[_ Hb]]; [lia|].
      destruct (Hwin _ _ Hb). lia.
    + intros d s' [Hs' _]%Hss. apply lookup_insert_Some in Hs' as [[_ <-]|[_ Hs']]; eauto.
  - apply Hss. rewrite !lookup_insert_eq. eauto.
  - intros d b Hne. rewrite Hbs, lookup_insert_ne by done. done.
  - intros d t Hne [Ht _]%Hss. by rewrite lookup_insert_ne in Ht.
Qed.

Lemma add_block_switch {E} cs block s :
  wf_chain cs → extends cs block → wf_store s → (0 ≤ snapshot_depth cs)%Z →
  (∀ hb, blocks cs !! head_hash cs = Some hb → block_height hb < block_height block)%Z →
  ∃ cs', prune_finalized_blocks (E:=E) (add_block cs block s (block_hash block)) = Ok cs' ∧
    wf_chain cs' ∧ head_hash cs' = block_hash block ∧
    blocks cs' !! block_hash block = Some block ∧
    snapshots cs' !! block_hash block = Some s ∧
    difficulty cs' = difficulty cs ∧ snapshot_depth cs' = snapshot_depth cs ∧
    (∀ d b, d ≠ block_hash block → blocks cs' !! d = Some b ↔
      blocks cs !! d = Some b ∧ in_window (block_height block) (snapshot_depth cs) b).
Proof.
  intros [Hc Hl] He Hs Hd Hlt.
  destruct (add_block_switch_core (E:=E) cs block s) as (cs' & Hp & Hc' & Hhd & Hb & Hsn & Hdf & Hdp & Hbs & _);
    [done|by apply extends_on_parent|done..|]. exists cs'. split_and!; try done.
  split; [done|]. eapply add_block_linked; [done..|]. intros d b Hdb.
  destruct (decide (d = block_hash block)) as [->|Hne]; [rewrite lookup_insert_eq; congruence|].
  rewrite lookup_insert_ne by done. by apply Hbs.
Qed.

(** ** What the checks establish *)
Definition tx_digests (txs : list SignedTransaction) : list Digest :=
  (λ tx, tx_digest (signed_transaction tx)) <$> txs.

Lemma has_duplicate_false seen txs :
  has_duplicate seen txs = false ↔
  NoDup (tx_digests txs) ∧ ∀ d, d ∈ tx_digests txs → d ∉ seen.
Proof.
  revert seen. induction txs as [|tx txs IH]; intros seen; simpl.
  { split; [|done]. split; [constructor|]. by intros ? ?%not_elem_of_nil. }
  case_bool_decide as Hs.
  - split; [done|]. intros [_ Hn]. destruct (Hn (tx_digest (signed_transaction tx))); [left|done].
  - rewrite IH, list.NoDup_cons. split.
    + intros [Hnd Hn]. split; [split; [|done]; intros Hin; by apply (Hn _ Hin); set_solver|].
      intros d [->|Hd]%elem_of_cons; [done|]. specialize (Hn d Hd). set_solver.
    + intros [[Hr Hnd] Hn]. split; [done|]. intros d Hd.
      rewrite not_elem_of_union, not_elem_of_singleton. split; [congruence|].
      apply Hn. by right.
Qed.

(** The structural checks, as a predicate. *)
Record structure_ok (now : Z) (block : Block) (diff : Z) : Prop := {
  so_nonempty : transactions block ≠ [];
  so_count : length (transactions block) ≤ MAX_TRANSACTIONS_PER_BLOCK;
  so_nodup : NoDup (tx_digests (transactions block));
  so_clock : in_u64 (now + MAX_BLOCK_FUTURE_DRIFT_MS);
  so_drift : (timestamp (block_header block) ≤ now + MAX_BLOCK_FUTURE_DRIFT_MS)%Z;
  so_results : length (results block) = length (transactions block);
  so_reward : is_some (reward_transaction block) = is_some (reward_transaction_result block);
  so_pow : (0 < block_height block)%Z → meets_difficulty (block_header block) diff = true;
  so_transactions_root :
    compute_transactions_root (transactions block) = transactions_root (block_header block);
  so_reward_root : ((λ tx, tx_digest (signed_transaction tx)) <$> reward_transaction block) =
    reward_root (block_header block);
}.

Lemma u64_add_Ok {E} a b c : u64_add (E:=E) a b = Ok c ↔ in_u64 (a + b) ∧ c = (a + b)%Z.
Proof.
  unfold u64_add, checked_add, fits_u64. split.
  - intros Hc%expect_Ok. case_bool_decide; naive_solver.
  - intros [Hin ->]. by rewrite bool_decide_true.
Qed.

Lemma validate_block_structure_Ok now block diff u :
  validate_block_structure now block diff = Ok u ↔ structure_ok now block diff.
Proof.
  unfold validate_block_structure. split.
  - intros Hv.
    apply bind_Ok in Hv as (? & H1%guard_err_Ok%bool_decide_eq_false & Hv).
    apply bind_Ok in Hv as (? & H2%guard_err_Ok%bool_decide_eq_false & Hv).
    apply bind_Ok in Hv as (? & H3%guard_err_Ok & Hv). apply has_duplicate_false in H3 as [H3 _].
    apply bind_Ok in Hv as (? & [Hu ->]%u64_add_Ok & Hv).
    apply bind_Ok in Hv as (? & H4%guard_err_Ok%bool_decide_eq_false & Hv).
    apply bind_Ok in Hv as (? & H5%guard_err_Ok%bool_decide_eq_false & Hv).
    apply bind_Ok in Hv as (? & H6%guard_err_Ok & Hv).
    apply bind_Ok in Hv as (? & H7%guard_err_Ok & Hv).
    apply bind_Ok in Hv as (? & H8%guard_err_Ok%bool_decide_eq_false & Hv).
    apply guard_err_Ok, bool_decide_eq_false in Hv.
    split; try done; try lia; try (by apply dec_stable).
    + by destruct (is_some (reward_transaction block)), (is_some (reward_transaction_result block)).
    + intros Hpos. rewrite bool_decide_true in H7 by done. by apply negb_false_iff in H7.
  - intros [H1 H2 H3 Hu H4 H5 H6 H7 H8 H9]. destruct u.
    rewrite (bool_decide_false (transactions block = [])) by done. cbn [guard_err mbind outcome_bind].
    rewrite (bool_decide_false (_ < _)) by lia. cbn [guard_err mbind outcome_bind].
    rewrite (proj2 (has_duplicate_false _ _)) by (split; [done|set_solver]).
    cbn [guard_err mbind outcome_bind].
    rewrite (proj2 (u64_add_Ok now MAX_BLOCK_FUTURE_DRIFT_MS _)) by done.
    cbn [guard_err mbind outcome_bind].
    rewrite (bool_decide_false (_ < timestamp _)%Z) by lia. cbn [guard_err mbind outcome_bind].
    rewrite (bool_decide_false (length _ ≠ length _)) by (by intros []).
    cbn [guard_err mbind outcome_bind].
    rewrite H6, xorb_nilpotent. cbn [guard_err mbind outcome_bind].
    assert (bool_decide (0 < block_height block)%Z &&
      negb (meets_difficulty (block_header block) diff) = false) as ->.
    { case_bool_decide; [|done]. by rewrite H7. }
    cbn [guard_err mbind outcome_bind].
    rewrite bool_decide_false by (by intros []). cbn [guard_err mbind outcome_bind].
    by rewrite bool_decide_false by (by intros []).
Qed.

Lemma check_signatures_Ok txs u :
  check_signatures txs = Ok u ↔ Forall (λ tx, validate_signed_transaction tx = Ok ()) txs.
Proof.
  induction txs as [|tx txs IH]; simpl; [by destruct u|]. rewrite list.Forall_cons, <-IH. split.
  - by intros ([] & Hv%map_err_Ok & Ht)%bind_Ok.
  - by intros [-> ->].
Qed.

(** Re-execution: each transaction on the store its predecessors left. *)
Lemma execute_all_wf ctx s txs s' rs :
  wf_store s → execute_all ctx s txs = Ok (s', rs) →
  wf_store s' ∧ length rs = length txs.
Proof.
  revert s rs. induction txs as [|tx txs IH]; intros s rs Hwf He; simpl in He; [by simplify_eq|].
  apply bind_Ok in He as (r & _ & He). apply bind_Ok in He as (s1 & Ha & He).
  apply bind_Ok in He as ([s2 rs2] & Hrec & He). simplify_eq.
  apply apply_execution_result_inv in Ha as [_ ->].
  destruct (IH _ _ (applied_wf s r Hwf) Hrec). simpl. auto.
Qed.

Lemma check_reward_wf {E} block gas s b s' :
  wf_store s → check_reward (E:=E) block gas s = Ok (b, s') → wf_store s'.
Proof.
  unfold check_reward, apply_block_reward_transaction. intros Hwf Hc.
  repeat case_match; simplify_eq; try done.
  apply bind_Ok in Hc as (s1 & Ha & Hc). simplify_eq.
  apply apply_execution_result_inv in Ha as [_ ->]. by apply applied_wf.
Qed.

Lemma reexecute_Ok block ps s :
  reexecute block ps = Ok s →
  ∃ s0, execute_all (mkContext (mining_hash (block_header block)) (timestamp (block_header block)))
      ps (transactions block) = Ok (s0, results block) ∧
    (∃ gas, u64_sum (E:=ChainError.t) 0 (res_gas_used <$> results block) = Ok gas ∧
      check_reward (E:=ChainError.t) block gas s0 = Ok (true, s)) ∧
    compute_state_root s = state_root (block_header block).
Proof.
  unfold reexecute. intros Hr. apply bind_Ok in Hr as ([s0 rs] & He & Hr).
  apply bind_Ok in Hr as (? & Hg%guard_err_Ok%bool_decide_eq_false & Hr).
  apply bind_Ok in Hr as (gas & Hgas & Hr). apply bind_Ok in Hr as ([rv s1] & Hrw & Hr).
  apply bind_Ok in Hr as (? & Hv%guard_err_Ok%negb_false_iff & Hr).
  apply bind_Ok in Hr as (? & Hroot%guard_err_Ok%bool_decide_eq_false & Hr). simplify_eq.
  assert (rs = results block) as -> by by apply dec_stable.
  exists s0. split_and!; [done|by eauto|by apply dec_stable].
Qed.

Lemma reexecute_wf block ps s : wf_store ps → reexecute block ps = Ok s → wf_store s.
Proof.
  intros Hwf (s0 & He & (gas & _ & Hr) & _)%reexecute_Ok.
  eapply check_reward_wf; [|done]. by eapply execute_all_wf.
Qed.

(** ** Acceptance *)
Record accepted (now : Z) (cs : ChainState) (block parent : Block) (new_store : Store) : Prop := {
  acc_fresh : blocks cs !! block_hash block = None;
  acc_parent : blocks cs !! parent_hash (block_header block) = Some parent;
  acc_structure : structure_ok now block (difficulty cs);
  acc_height : block_height block = (block_height parent + 1)%Z;
  acc_height_u64 : in_u64 (block_height parent + 1);
  acc_time : (timestamp (block_header parent) < timestamp (block_header block))%Z;
  acc_signatures : Forall (λ tx, validate_signed_transaction tx = Ok ()) (transactions block);
  acc_execution : ∃ ps, snapshots cs !! parent_hash (block_header block) = Some ps ∧
    reexecute block ps = Ok new_store;
}.

Lemma apply_block_inv now cs block r cs' :
  apply_block now cs block = Ok (r, cs') →
  ∃ parent s hb, accepted now cs block parent s ∧
    <[block_hash block := block]> (blocks cs) !! head_hash cs = Some hb ∧
    if bool_decide (block_height hb < block_height block)%Z
    then r = true ∧ prune_finalized_blocks (E:=ChainError.t)
                      (add_block cs block s (block_hash block)) = Ok cs'
    else r = false ∧ cs' = add_block cs block s (head_hash cs).
Proof.
  unfold apply_block. intros Ha.
  apply bind_Ok in Ha as (? & H1%guard_err_Ok%bool_decide_eq_false & Ha).
  apply bind_Ok in Ha as (? & H2%guard_err_Ok%bool_decide_eq_false & Ha).
  apply bind_Ok in Ha as (? & H3%validate_block_structure_Ok & Ha).
  apply bind_Ok in Ha as (parent & H4%expect_Ok & Ha).
  apply bind_Ok in Ha as (? & [H5 ->]%u64_add_Ok & Ha).
  apply bind_Ok in Ha as (? & H6%guard_err_Ok%bool_decide_eq_false & Ha).
  apply bind_Ok in Ha as (? & H7%guard_err_Ok%bool_decide_eq_false & Ha).
  apply bind_Ok in Ha as (? & H8%check_signatures_Ok & Ha).
  apply bind_Ok in Ha as (ps & H9%expect_Ok & Ha).
  apply bind_Ok in Ha as (s & H10 & Ha). apply bind_Ok in Ha as (hh & Hh & Ha).
  unfold head_height, head_block in Hh. apply bind_Ok in Hh as (hb & Hhb%expect_Ok & Hh).
  simplify_eq/=. exists parent, s, hb. split; [split|split]; try done.
  - by apply eq_None_not_Some.
  - by apply dec_stable.
  - lia.
  - eauto.
  - case_bool_decide; [|by simplify_eq].
    apply bind_Ok in Ha as (cs2 & Hp & Ha). by simplify_eq.
Qed.

Lemma accepted_extends now cs block parent s :
  accepted now cs block parent s →
  (∀ d b, blocks cs !! d = Some b → parent_hash (block_header b) ≠ block_hash block) →
  extends cs block.
Proof. intros [] Ho. split; eauto. Qed.

(** The store an accepted block adds. *)
Lemma accepted_store_wf now cs block parent s :
  chain_core cs → accepted now cs block parent s → wf_store s.
Proof.
  intros Hwf [_ _ _ _ _ _ _ (ps & Hps & Hr)]. eapply reexecute_wf; [|done].
  by eapply wf_snapshots.
Qed.

(** [apply_block] keeps the core, and what it adds and drops. *)
Lemma apply_block_core now cs block r cs' :
  chain_core cs → (0 ≤ snapshot_depth cs)%Z → apply_block now cs block = Ok (r, cs') →
  chain_core cs' ∧ difficulty cs' = difficulty cs ∧ snapshot_depth cs' = snapshot_depth cs ∧
  ∃ hb hb', blocks cs !! head_hash cs = Some hb ∧ blocks cs' !! head_hash cs' = Some hb' ∧
    block_height hb' = Z.max (block_height hb) (block_height block) ∧
    (∀ d b, blocks cs' !! d = Some b →
      (d = block_hash block ∧ b = block) ∨ blocks cs !! d = Some b) ∧
    (∀ d b, blocks cs !! d = Some b → (block_height hb' - snapshot_depth cs ≤ block_height b)%Z →
      blocks cs' !! d = Some b ∧ snapshots cs' !! d = snapshots cs !! d).
Proof.
  intros Hwf Hd (parent & s & hb & Hacc & Hhb & Hr)%apply_block_inv.
  assert (Hp : on_parent cs block).
  { split; [apply Hacc|]. exists parent. split; apply Hacc. }
  pose proof (accepted_store_wf _ _ _ _ _ Hwf Hacc) as Hs.
  destruct (wf_head _ Hwf) as (hb0 & Hhb0 & Hwin).
  pose proof (acc_fresh _ _ _ _ _ Hacc) as Hfresh.
  assert (head_hash cs ≠ block_hash block) as Hne by congruence.
  rewrite lookup_insert_ne in Hhb by done. rewrite Hhb0 in Hhb. simplify_eq.
  case_bool_decide as Hlt; destruct Hr as [-> Hr].
  - destruct (add_block_switch_core (E:=ChainError.t) cs block s)
      as (cs2 & Hpr & Hc & Hhd & Hb & Hsn & Hdf & Hdp & Hbs & Hss); try done; [intros; by simplify_eq|].
    rewrite Hpr in Hr. simplify_eq. split_and!; [done..|]. exists hb, block. rewrite Hhd.
    split_and!; [done|done|lia| |].
    + intros d b Hdb. destruct (decide (d = block_hash block)) as [->|Hdn]; [left; split; [done|congruence]|].
      right. by apply Hbs.
    + intros d b Hdb Hw. assert (Hdn : d ≠ block_hash block) by congruence.
      assert (blocks cs' !! d = Some b) as Hb' by (by apply Hbs). split; [done|].
      destruct (snapshot_of_block _ _ _ Hc Hb') as (t & Ht & _). rewrite Ht. symmetry. by apply Hss.
  - subst cs'. split_and!; [|done..|].
    + apply add_block_keep_core; try done. intros; simplify_eq. lia.
    + exists hb, hb. simpl. rewrite lookup_insert_ne by done. split_and!; [done..|lia| |].
      * intros d b. rewrite lookup_insert_Some. naive_solver.
      * intros d b Hdb _. assert (d ≠ block_hash block) by congruence. by rewrite !lookup_insert_ne.
Qed.

Lemma apply_block_wf now cs block r cs' :
  wf_chain cs → (0 ≤ snapshot_depth cs)%Z →
  (∀ d b, blocks cs !! d = Some b → parent_hash (block_header b) ≠ block_hash block) →
  apply_block now cs block = Ok (r, cs') →
  wf_chain cs' ∧
  ∃ hb hb' s, blocks cs !! head_hash cs = Some hb ∧ blocks cs' !! head_hash cs' = Some hb' ∧
    blocks cs' !! block_hash block = Some block ∧
    snapshots cs' !! block_hash block = Some s ∧
    (block_height hb ≤ block_height hb')%Z ∧
    difficulty cs' = difficulty cs ∧ snapshot_depth cs' = snapshot_depth cs ∧
    if r then hb' = block ∧ (block_height hb < block_height block)%Z
    else head_hash cs' = head_hash cs ∧ hb' = hb ∧ (block_height block ≤ block_height hb)%Z.
Proof.
  intros Hwf Hdepth Horph (parent & s & hb & Hacc & Hhb & Hr)%apply_block_inv.
  pose proof (accepted_extends _ _ _ _ _ Hacc Horph) as Hext.
  pose proof (accepted_store_wf _ _ _ _ _ Hwf Hacc) as Hs.
  destruct (wf_head _ Hwf) as (hb0 & Hhb0 & _).
  assert (head_hash cs ≠ block_hash block) as Hne.
  { pose proof (acc_fresh _ _ _ _ _ Hacc). congruence. }
  rewrite lookup_insert_ne in Hhb by done. rewrite Hhb0 in Hhb. simplify_eq.
  case_bool_decide as Hlt; destruct Hr as [-> Hr].
  - destruct (add_block_switch (E:=ChainError.t) cs block s) as (cs2 & Hp & Hwf' & Hhd & Hb & Hsn & ? & ? & _);
      try done; [intros; by simplify_eq|].
    rewrite Hp in Hr. simplify_eq. split; [done|]. exists hb, block, s.
    rewrite Hhd. split_and!; try done. lia.
  - subst cs'. split.
    + apply add_block_keep; try done. intros; simplify_eq. lia.
    + exists hb, hb, s. simpl. rewrite !lookup_insert_eq, !lookup_insert_ne by done.
      split_and!; try done; lia.
Qed.

(** Conversely, an acceptable block is accepted. *)
Lemma reexecute_complete block ps s s0 gas :
  execute_all (mkContext (mining_hash (block_header block)) (timestamp (block_header block)))
    ps (transactions block) = Ok (s0, results block) →
  u64_sum (E:=ChainError.t) 0 (res_gas_used <$> results block) = Ok gas →
  check_reward (E:=ChainError.t) block gas s0 = Ok (true, s) →
  compute_state_root s = state_root (block_header block) →
  reexecute block ps = Ok s.
Proof.
  intros He Hg Hr Hroot. unfold reexecute. rewrite He. cbn [mbind outcome_bind].
  rewrite (bool_decide_false (results block ≠ _)) by (by intros []).
  cbn [guard_err mbind outcome_bind]. rewrite Hg. cbn [mbind outcome_bind].
  rewrite Hr. cbn [guard_err mbind outcome_bind negb].
  by rewrite bool_decide_false by (by intros []).
Qed.

Lemma apply_block_eq now cs block parent s hb :
  accepted now cs block parent s → blocks cs !! head_hash cs = Some hb →
  apply_block now cs block =
  if bool_decide (block_height hb < block_height block)%Z
  then cs' ← prune_finalized_blocks (add_block cs block s (block_hash block)); Ok (true, cs')
  else Ok (false, add_block cs block s (head_hash cs)).
Proof.
  intros [Hf Hp Hst Hh Hu Ht Hs (ps & Hps & Hr)] Hhb. unfold apply_block.
  rewrite (bool_decide_false (is_Some _)) by (rewrite Hf; by intros []).
  cbn [guard_err mbind outcome_bind].
  rewrite (bool_decide_false (_ = None)) by congruence. cbn [guard_err mbind outcome_bind].
  rewrite (proj2 (validate_block_structure_Ok _ _ _ ())) by done. cbn [mbind outcome_bind].
  rewrite Hp. cbn [expect mbind outcome_bind].
  rewrite (proj2 (u64_add_Ok (block_height parent) 1 _)) by done. cbn [mbind outcome_bind].
  rewrite (bool_decide_false (_ ≠ _)) by (intros Hne; by apply Hne).
  cbn [guard_err mbind outcome_bind].
  rewrite (bool_decide_false (_ ≤ _)%Z) by lia. cbn [guard_err mbind outcome_bind].
  rewrite (proj2 (check_signatures_Ok _ ())) by done. cbn [mbind outcome_bind].
  rewrite Hps. cbn [expect mbind outcome_bind]. rewrite Hr. cbn [mbind outcome_bind].
  unfold head_height, head_block. cbn [blocks head_hash].
  rewrite lookup_insert_ne by congruence. by rewrite Hhb.
Qed.

Lemma apply_block_complete now cs block parent s :
  chain_core cs → (0 ≤ snapshot_depth cs)%Z → accepted now cs block parent s →
  ∃ r cs', apply_block now cs block = Ok (r, cs') ∧
    blocks cs' !! block_hash block = Some block ∧ snapshots cs' !! block_hash block = Some s.
Proof.
  intros Hwf Hd Hacc. destruct (wf_head _ Hwf) as (hb & Hhb & Hwin).
  rewrite (apply_block_eq _ _ _ _ _ _ Hacc Hhb). case_bool_decide as Hlt; last first.
  { do 2 eexists. split; [done|]. simpl. by rewrite !lookup_insert_eq. }
  destruct (prune_spec (E:=ChainError.t) (add_block cs block s (block_hash block)) block)
    as (cs' & -> & _ & _ & _ & Hb & Hs); simpl in *.
  - by rewrite lookup_insert_eq.
  - rewrite !dom_insert_L. by rewrite (wf_dom _ Hwf).
  - intros d b [[_ <-]|[_ Hb]]%lookup_insert_Some; [|by apply Hwin in Hb as [[] _]].
    destruct (Hwin _ _ (acc_parent _ _ _ _ _ Hacc)). rewrite (acc_height _ _ _ _ _ Hacc). lia.
  - exists true, cs'. rewrite Hb, Hs, !lookup_insert_eq. unfold in_window.
    split_and!; [done|done|lia|done|]. exists block. split; [done|lia].
Qed.

(** ** The other ways to get a chain *)

(** A chain of one block that is not its own parent. *)
Lemma single_chain_core b s diff depth :
  wf_store s → (0 ≤ depth)%Z → (0 ≤ block_height b)%Z →
  chain_core (mkChain {[ block_hash b := b ]} {[ block_hash b := s ]} (block_hash b) diff depth).
Proof.
  intros Hs Hd Hh. split; simpl.
  - by rewrite !dom_singleton_L.
  - by intros d b' [<- <-]%lookup_singleton_Some.
  - exists b. rewrite lookup_singleton_eq. split; [done|].
    intros d b' [_ <-]%lookup_singleton_Some. unfold in_window. lia.
  - by intros d s' [_ <-]%lookup_singleton_Some.
Qed.
Lemma single_chain_wf b s diff depth :
  wf_store s → (0 ≤ depth)%Z → (0 ≤ block_height b)%Z →
  parent_hash (block_header b) ≠ block_hash b →
  wf_chain (mkChain {[ block_hash b := b ]} {[ block_hash b := s ]} (block_hash b) diff depth).
Proof.
  intros Hs Hd Hh Hne. split; [by apply single_chain_core|].
  intros d b' p; simpl. intros [_ <-]%lookup_singleton_Some [Hz _]%lookup_singleton_Some. congruence.
Qed.

Lemma chain_new_wf s diff depth :
  wf_store s → (0 ≤ depth)%Z → block_hash block_genesis ≠ digest_ZERO →
  wf_chain (chain_new s diff depth).
Proof. intros. apply single_chain_wf; [done..|]. by apply not_eq_sym. Qed.

Lemma from_snapshot_Ok now hh b s diff depth cs :
  from_snapshot now hh b s diff depth = Ok cs ↔
  (hh < block_height b)%Z ∧ structure_ok now b diff ∧
  compute_state_root s = state_root (block_header b) ∧
  cs = mkChain {[ block_hash b := b ]} {[ block_hash b := s ]} (block_hash b) diff depth.
Proof.
  unfold from_snapshot. split.
  - intros Hf. apply bind_Ok in Hf as (? & H1%guard_err_Ok%bool_decide_eq_false & Hf).
    apply bind_Ok in Hf as (? & H2%validate_block_structure_Ok & Hf).
    apply bind_Ok in Hf as (? & H3%guard_err_Ok%bool_decide_eq_false & Hf). simplify_eq.
    split_and!; [lia|done|by apply dec_stable|done].
  - intros (H1 & H2 & H3 & ->). rewrite (bool_decide_false (_ ≤ _)%Z) by lia. simpl.
    rewrite (proj2 (validate_block_structure_Ok _ _ _ ())) by done. simpl.
    by rewrite bool_decide_false by (by intros []).
Qed.

(** [commit] of a block that extends the head. *)
Lemma commit_wf {E} now cs block s cs' :
  wf_chain cs → (0 ≤ snapshot_depth cs)%Z → wf_store s → extends cs block →
  parent_hash (block_header block) = head_hash cs →
  commit (E:=E) now cs block s = Ok cs' →
  wf_chain cs' ∧ structure_ok now block (difficulty cs) ∧ head_hash cs' = block_hash block ∧
  blocks cs' !! block_hash block = Some block ∧ snapshots cs' !! block_hash block = Some s.
Proof.
  intros Hwf Hd Hs Hext Hpar. unfold commit.
  destruct (validate_block_structure now block (difficulty cs)) as [[]| | |] eqn:Hv; try done.
  intros Hc. destruct (add_block_switch (E:=E) cs block s) as (cs2 & Hp & ? & ? & ? & ? & _); try done.
  { intros hb Hhb. destruct (ext_parent _ _ Hext) as (p & Hp & Hh). rewrite Hpar in Hp.
    simplify_eq. lia. }
  unfold add_block in Hp. rewrite Hp in Hc. simplify_eq.
  split_and!; try done. by eapply validate_block_structure_Ok.
Qed.

Lemma commit_panics {E} now cs block s :
  ¬ structure_ok now block (difficulty cs) → ∃ msg, commit (E:=E) now cs block s = Panic msg.
Proof.
  intros Hno. unfold commit.
  destruct (validate_block_structure now block (difficulty cs)) as [u|e|msg|] eqn:Hv; try by eauto.
  - destruct Hno. by eapply validate_block_structure_Ok.
  - exfalso. unfold validate_block_structure in Hv.
    repeat match goal with
    | H : _ ≫= _ = NoFuel |- _ => apply bind_NoFuel in H as [H|(? & _ & H)]
    end; unfold u64_add, expect, guard_err in *; by repeat case_match.
Qed.

(** ** The canonical chain *)

(** The blocks not above height [h]. *)
Definition below (bs : gmap Digest Block) (h : Z) : gmap Digest Block :=
  filter (λ p, (block_height (snd p) ≤ h)%Z) bs.

(** A list of blocks linked by parent hashes, down to one whose parent is unknown. *)
Fixpoint linked_from (bs : gmap Digest Block) (d : Digest) (l : list Block) : Prop :=
  match l with
  | [] => bs !! d = None
  | b :: l => bs !! d = Some b ∧ linked_from bs (parent_hash (block_header b)) l
  end.

Lemma chain_from_total bs fuel d :
  (∀ d b p, bs !! d = Some b → bs !! parent_hash (block_header b) = Some p →
    block_height b = (block_height p + 1)%Z) →
  (∀ b, bs !! d = Some b → size (below bs (block_height b)) ≤ fuel) →
  ∃ l, chain_from fuel bs d = Some l ∧ linked_from bs d l ∧ length l ≤ fuel.
Proof.
  intros Hlink. revert d. induction fuel as [|fuel IH]; intros d Hsize; simpl.
  - destruct (bs !! d) as [b|] eqn:Hb; [|exists []; auto].
    specialize (Hsize b eq_refl). exfalso.
    assert (below bs (block_height b) = ∅) as He by (apply map_size_empty_inv; lia).
    assert (below bs (block_height b) !! d = Some b) as Hin
      by (apply map_lookup_filter_Some; split; [done|simpl; lia]).
    by rewrite He in Hin.
  - destruct (bs !! d) as [b|] eqn:Hb; [|exists []; split_and!; [done..|simpl; lia]].
    specialize (Hsize b eq_refl).
    destruct (IH (parent_hash (block_header b))) as (l & -> & Hl & Hlen).
    + intros p Hp. pose proof (Hlink _ _ _ Hb Hp) as Hh.
      enough (size (below bs (block_height p)) < size (below bs (block_height b))) by lia.
      apply map_subset_size. split.
      * apply map_subseteq_spec. intros d' b' [? ?]%map_lookup_filter_Some.
        apply map_lookup_filter_Some. simpl in *. split; [done|lia].
      * intros Hsub. assert (below bs (block_height p) !! d = Some b) as Hin.
        { eapply lookup_weaken; [|exact Hsub]. apply map_lookup_filter_Some. simpl. split; [done|lia]. }
        apply map_lookup_filter_Some in Hin as [_ Hle]. simpl in Hle. lia.
    + exists (b :: l). simpl. split_and!; [done..|lia].
Qed.

Lemma canonical_chain_ok cs :
  wf_chain cs → ∃ l, canonical_chain cs = Some l ∧ linked_from (blocks cs) (head_hash cs) l ∧
    length l ≤ size (blocks cs).
Proof.
  intros Hwf. apply chain_from_total; [apply (wf_link _ Hwf)|].
  intros b _. apply map_subseteq_size, map_filter_subseteq.
Qed.

Lemma linked_from_heights bs d l i j b c :
  (∀ d b p, bs !! d = Some b → bs !! parent_hash (block_header b) = Some p →
    block_height b = (block_height p + 1)%Z) →
  linked_from bs d l → l !! i = Some b → l !! j = Some c →
  (block_height b + Z.of_nat i = block_height c + Z.of_nat j)%Z.
Proof.
  intros Hlink. revert d i j. induction l as [|x l IH]; intros d i j Hl Hi Hj; [done|].
  destruct Hl as [Hx Hl].
  assert (Hstep : ∀ k y, l !! k = Some y →
    (block_height x = block_height y + Z.of_nat (S k))%Z).
  { clear -Hlink Hx Hl. revert d x Hx Hl. induction l as [|z l IH]; intros d x Hx Hl k y Hk; [done|].
    destruct Hl as [Hz Hl]. pose proof (Hlink _ _ _ Hx Hz).
    destruct k as [|k]; simplify_eq/=; [lia|].
    specialize (IH _ _ Hz Hl _ _ Hk). lia. }
  destruct i as [|i], j as [|j]; simplify_eq/=.
  - lia.
  - apply Hstep in Hj. lia.
  - apply Hstep in Hi. lia.
  - specialize (IH _ i j Hl Hi Hj). lia.
Qed.
End invariant.

#[export] Hint Resolve wf_core : core.
