(* ===== verification/Miner.v ===== *)
(** * The miner

    Models [meow-nakamoto/src/miner/mod.rs] and [mining_work.rs].  The nonce
    search and the re-grinding loop are recursive on fuel; the yields to the
    async runtime do not change the result.  [now] is the wall clock. *)

From S2P Require Import Prelude Address VmTypes ChainTypes Framework Context Validator Store.
From S2P Require Import Mempool Chain.

Module MinerError.
Inductive t (E : Type) :=
  | ChainError (e : ChainError.t)
  | MempoolError (e : MempoolError.t)
  | SimulationError (e : E).
Arguments ChainError {_}.
Arguments MempoolError {_}.
Arguments SimulationError {_}.
End MinerError.

Record MinerConfig := mkMinerConfig {
  cfg_difficulty : Z;
  cfg_keypair : KeyPair;
  cfg_reward_address : Address;
  cfg_batch_size : nat;
  cfg_snapshot_depth : Z;
}.

Record Miner := mkMiner {
  chain : ChainState;
  mempool : Mempool;
  keypair : KeyPair;
  miner_address : Address;
  reward_address : Address;
  batch_size : nat;
}.

Record MiningWork := mkWork {
  work_header : BlockHeader;
  batch : list SignedTransaction;
  parent_store : Store;
  work_difficulty : Z;
  work_keypair : KeyPair;
  work_miner_address : Address;
  work_reward_address : Address;
}.

Definition set_chain (m : Miner) (cs : ChainState) : Miner :=
  mkMiner cs (mempool m) (keypair m) (miner_address m) (reward_address m) (batch_size m).
Definition set_mempool (m : Miner) (mp : Mempool) : Miner :=
  mkMiner (chain m) mp (keypair m) (miner_address m) (reward_address m) (batch_size m).

Definition set_nonce (h : BlockHeader) (n : Z) : BlockHeader :=
  mkHeader (height h) (parent_hash h) (transactions_root h) (reward_root h) (state_root h)
    (timestamp h) n.
Definition set_transactions_root (h : BlockHeader) (d : Digest) : BlockHeader :=
  mkHeader (height h) (parent_hash h) d (reward_root h) (state_root h) (timestamp h) (nonce h).
Definition set_roots (h : BlockHeader) (reward : option Digest) (state : Digest) : BlockHeader :=
  mkHeader (height h) (parent_hash h) (transactions_root h) reward state (timestamp h) (nonce h).

Section miner.
Context `{Crypto, Executor}.
Notation MErr := (MinerError.t ExecutorError).

(** [Miner::empty], [Miner::with_genesis] (the genesis objects given). *)
Definition miner_with_store (store : Store) (c : MinerConfig) : Miner :=
  mkMiner (chain_new store (cfg_difficulty c) (cfg_snapshot_depth c)) mempool_empty
    (cfg_keypair c) (keypair_address (cfg_keypair c)) (cfg_reward_address c) (cfg_batch_size c).
Definition miner_empty (c : MinerConfig) : Miner := miner_with_store store_default c.
Definition with_genesis (objects : list Object) (c : MinerConfig) : Miner :=
  miner_with_store (with_objects objects) c.

(** [get_state_snapshot]. *)
Definition get_state_snapshot {E} (m : Miner) : outcome E StateSnapshot :=
  b ← head_block (chain m);
  s ← head_store (chain m);
  Ok (mkSnapshot b (store_objects s)).

(** [submit_transaction]. *)
Definition submit_transaction (m : Miner) (s : SignedTransaction) : outcome MErr Miner :=
  store ← head_store (chain m);
  mp ← map_err MinerError.MempoolError (submit (mempool m) s store);
  Ok (set_mempool m mp).

(** [simulate_transaction]. *)
Definition simulate_transaction (m : Miner) (t : Transaction) : outcome MErr ExecutionResult :=
  store ← head_store (chain m);
  b ← head_block (chain m);
  let header := block_header b in
  map_err MinerError.MempoolError (validate_against_store t store) ;;
  map_err MinerError.SimulationError
    (execute t (collect_inputs t (store_map store))
       (mkContext (mining_hash header) (timestamp header))).

(** [replace_from_snapshot]. *)
Definition replace_from_snapshot (now : Z) (m : Miner) (snapshot : StateSnapshot)
  : outcome MErr Miner :=
  h ← head_height (chain m);
  cs ← map_err MinerError.ChainError
         (from_snapshot now h (snap_head snapshot) (with_objects (snap_objects snapshot))
            (difficulty (chain m)) (snapshot_depth (chain m)));
  Ok (set_mempool (set_chain m cs) mempool_empty).

(** [Miner::apply_block]. *)
Definition miner_apply_block (now : Z) (m : Miner) (block : Block) : outcome MErr (bool * Miner) :=
  '(reorged, cs) ← map_err MinerError.ChainError (apply_block now (chain m) block);
  let m := set_chain m cs in
  if (reorged : bool) then
    store ← head_store (chain m);
    Ok (true, set_mempool m (retain_valid (mempool m) store))
  else Ok (false, m).

(** [prepare_round]: the work, if the pool holds a full batch, and the miner. *)
Definition prepare_round {E} (now : Z) (m : Miner) : outcome E (option MiningWork * Miner) :=
  if bool_decide (mempool_len (mempool m) < batch_size m) then Ok (None, m)
  else
    let '(batch, mp) := drain_batch (mempool m) (batch_size m) in
    let parent_hash := head_hash (chain m) in
    h ← head_height (chain m);
    height ← u64_add h 1;
    parent_store ← head_store (chain m);
    let header := mkHeader height parent_hash (compute_transactions_root batch) None digest_ZERO
                    now 0 in
    Ok (Some (mkWork header batch parent_store (difficulty (chain m)) (keypair m)
                (miner_address m) (reward_address m)),
        set_mempool m mp).

(** The nonce loop of [grind]: [None] when the nonces are exhausted. *)
Fixpoint find_nonce {E} (fuel : nat) (h : BlockHeader) (difficulty : Z)
  : outcome E (option BlockHeader) :=
  match fuel with
  | O => NoFuel
  | S fuel =>
      if meets_difficulty h difficulty then Ok (Some h)
      else
        match checked_add (nonce h) 1 with
        | Some n => find_nonce fuel (set_nonce h n) difficulty
        | None => Ok None
        end
  end.

(** The execution loop of [grind]: failing transactions are dropped. *)
Fixpoint execute_batch {E} (ctx : ExternalContext) (s : Store) (txs : list SignedTransaction)
  : outcome E (Store * list SignedTransaction * list ExecutionResult) :=
  match txs with
  | [] => Ok (s, [], [])
  | tx :: txs =>
      let t := signed_transaction tx in
      match execute t (collect_inputs t (store_map s)) ctx with
      | Ok result =>
          s ← apply_execution_result s result;
          '(s, executed, rs) ← execute_batch ctx s txs;
          Ok (s, tx :: executed, result :: rs)
      | Err _ => execute_batch ctx s txs
      | Panic msg => Panic msg
      | NoFuel => NoFuel
      end
  end.

(** The reward of a completed block: the transaction, its result, the store. *)
Definition make_reward {E} (w : MiningWork) (header : BlockHeader) (rs : list ExecutionResult)
    (s : Store) : outcome E (option SignedTransaction * option ExecutionResult * Store) :=
  total_reward ← u64_sum 0 (res_gas_used <$> rs);
  if bool_decide (0 < total_reward)%Z then
    let t := make_reward_transaction (work_miner_address w) (work_reward_address w) total_reward
               (mining_hash header) in
    let signed := tx_sign t (work_keypair w) in
    match execute_reward_transaction t s with
    | Ok r => s ← apply_execution_result s r; Ok (Some signed, Some r, s)
    | Err _ => Panic "block reward mint must not fail"
    | Panic msg => Panic msg
    | NoFuel => NoFuel
    end
  else Ok (None, None, s).

(** The completed block. *)
Definition finish_block {E} (w : MiningWork) (header : BlockHeader)
    (executed : list SignedTransaction) (rs : list ExecutionResult) (s : Store)
  : outcome E (Block * Store) :=
  '(reward, reward_result, s) ← make_reward w header rs s;
  let header := set_roots header ((λ tx, tx_digest (signed_transaction tx)) <$> reward)
                  (compute_state_root s) in
  Ok (mkBlock header executed rs reward reward_result, s).

(** [grind]; [rounds] bounds the outer loop, [nonces] each nonce search. *)
Fixpoint grind_loop {E} (rounds nonces : nat) (w : MiningWork) (header : BlockHeader)
    (surviving : list SignedTransaction) : outcome E (option (Block * Store)) :=
  match rounds with
  | O => NoFuel
  | S rounds =>
      found ← find_nonce nonces (set_nonce header 0) (work_difficulty w);
      match found with
      | None => Ok None
      | Some header =>
          let ctx := mkContext (mining_hash header) (timestamp header) in
          '(s, executed, rs) ← execute_batch ctx (parent_store w) surviving;
          if bool_decide (executed = []) then Ok None
          else
            let actual_root := compute_transactions_root executed in
            if bool_decide (actual_root = transactions_root header) then
              Some <$> finish_block w header executed rs s
            else grind_loop rounds nonces w (set_transactions_root header actual_root) executed
      end
  end.
Definition grind {E} (rounds nonces : nat) (w : MiningWork) : outcome E (option (Block * Store)) :=
  grind_loop rounds nonces w (work_header w) (batch w).

(** [commit_mined]: whether the block was committed, and the miner. *)
Definition commit_mined {E} (now : Z) (m : Miner) (block : Block) (new_store : Store)
  : outcome E (bool * Miner) :=
  if bool_decide (parent_hash (block_header block) ≠ head_hash (chain m)) then Ok (false, m)
  else cs ← commit now (chain m) block new_store; Ok (true, set_chain m cs).
End miner.
