(* ===== verification/MinerProps.v ===== *)
(** * What the miner produces *)

From S2P Require Import Prelude Address VmTypes ChainTypes Framework Context Validator Store.
From S2P Require Import Mempool Chain.
From S2P Require Import ChainProps Miner.

Lemma in_u64_0 : in_u64 0.
Proof. done. Qed.

(** A sublist of the same length is the list. *)
Lemma sublist_same_length {A} (l k : list A) : l `sublist_of` k → length l = length k → l = k.
Proof.
  induction 1 as [|x l k Hs IH|x l k Hs IH]; simpl; intros Hl; [done|f_equal; auto|].
  apply sublist_length in Hs. lia.
Qed.

Lemma u64_sum_fuel {E} acc l : u64_sum (E:=E) acc l ≠ NoFuel.
Proof.
  revert acc. induction l as [|x l IH]; intros acc; simpl; [done|].
  intros [Hu|(a & _ & Hr)]%bind_NoFuel; [|by eapply IH].
  unfold u64_add, expect in Hu. by case_match.
Qed.

Section nonce.
Context `{Crypto}.

(** Enough fuel to try every nonce from the current one on. *)
Definition nonce_fuel (h : BlockHeader) : nat := Z.to_nat (u64_max - nonce h + 1).

Lemma set_nonce_nonce h n k : set_nonce (set_nonce h n) k = set_nonce h k.
Proof. done. Qed.
Lemma set_nonce_id h : set_nonce h (nonce h) = h.
Proof. by destruct h. Qed.

Lemma find_nonce_spec {E} fuel h diff :
  in_u64 (nonce h) → nonce_fuel h ≤ fuel →
  ∃ r, find_nonce (E:=E) fuel h diff = Ok r ∧
    match r with
    | Some h' => ∃ n, h' = set_nonce h n ∧ (nonce h ≤ n ≤ u64_max)%Z ∧
        meets_difficulty h' diff = true ∧
        ∀ k, (nonce h ≤ k < n)%Z → meets_difficulty (set_nonce h k) diff = false
    | None => ∀ k, (nonce h ≤ k ≤ u64_max)%Z → meets_difficulty (set_nonce h k) diff = false
    end.
Proof.
  revert h. induction fuel as [|fuel IH]; intros h Hn Hf.
  { unfold nonce_fuel, in_u64 in *. lia. }
  simpl. destruct (meets_difficulty h diff) eqn:Hm.
  { eexists. split; [done|]. exists (nonce h). rewrite set_nonce_id. unfold in_u64 in Hn.
    split_and!; [done|lia..|done|]. intros k ?. lia. }
  unfold checked_add, fits_u64. case_bool_decide as Hfit.
  - destruct (IH (set_nonce h (nonce h + 1))) as (r & -> & Hr).
    { done. }
    { unfold nonce_fuel, in_u64 in *. simpl. lia. }
    exists r. split; [done|].
    assert (Hcur : ∀ k, k = nonce h → meets_difficulty (set_nonce h k) diff = false).
    { intros k ->. by rewrite set_nonce_id. }
    destruct r as [h'|].
    + destruct Hr as (n & -> & Hn' & Hm' & Hk). simpl in Hn'. exists n.
      split_and!; [done|lia..|done|]. intros k Hk'.
      destruct (decide (k = nonce h)); [by apply Hcur|]. apply (Hk k). simpl. lia.
    + intros k Hk'. destruct (decide (k = nonce h)); [by apply Hcur|]. apply (Hr k). simpl. lia.
  - eexists. split; [done|]. intros k Hk. unfold in_u64 in *.
    assert (k = nonce h) as -> by lia. by rewrite set_nonce_id.
Qed.
End nonce.

(** Enough fuel to try all the nonces there are. *)
Definition all_nonces : nat := Z.to_nat (u64_max + 1).
Lemma nonce_fuel_all h n : all_nonces ≤ n → nonce_fuel (set_nonce h 0) ≤ n.
Proof. unfold all_nonces, nonce_fuel. cbn [nonce set_nonce]. lia. Qed.
Global Opaque nonce_fuel all_nonces.

(** What the executor promises.  There are objects it can work with: on them
    it always comes back, and what it creates and changes is of the same kind;
    the inputs it collects come from the store. *)
Class ExecutorLaws `{Executor} := {
  admissible : Object → Prop;
  execute_finishes t inputs ctx : Forall admissible inputs → execute t inputs ctx ≠ NoFuel;
  execute_system_finishes t inputs :
    Forall admissible inputs → execute_system_transaction t inputs ≠ NoFuel;
  execute_admissible t inputs ctx r :
    Forall admissible inputs → execute t inputs ctx = Ok r →
    Forall admissible (res_created r ++ res_changed r);
  execute_system_admissible t inputs r :
    Forall admissible inputs → execute_system_transaction t inputs = Ok r →
    Forall admissible (res_created r ++ res_changed r);
  collect_inputs_stored t m o : o ∈ collect_inputs t m → ∃ a, m !! a = Some o;
}.

(** A store of such objects. *)
Definition admissible_store `{ExecutorLaws} (s : Store) : Prop :=
  map_Forall (λ _, admissible) (store_map s).

Section batch.
Context `{Crypto, Executor}.

(** The transactions that survive re-execute to the same store and results. *)
Lemma execute_batch_spec {E} ctx s txs s' ex rs :
  execute_batch (E:=E) ctx s txs = Ok (s', ex, rs) →
  execute_all ctx s ex = Ok (s', rs) ∧ ex `sublist_of` txs.
Proof.
  revert s ex rs. induction txs as [|tx txs IH]; intros s ex rs He; simpl in He.
  { simplify_eq. split; [done|constructor]. }
  destruct (execute _ _ ctx) as [r|e|?|] eqn:Hx; try done.
  - apply bind_Ok in He as (s1 & Ha & He). apply bind_Ok in He as ([[s2 ex2] rs2] & Hrec & He).
    simplify_eq. apply IH in Hrec as [Hall Hsub]. split; [|by constructor].
    simpl. rewrite Hx. simpl. apply apply_execution_result_inv in Ha as [Hap ->].
    rewrite apply_execution_result_ok by done. simpl. by rewrite Hall.
  - apply IH in He as [? ?]. split; [done|by constructor].
Qed.

Lemma collect_inputs_admissible `{!ExecutorLaws} t s :
  admissible_store s → Forall admissible (collect_inputs t (store_map s)).
Proof.
  intros Hs. apply list.Forall_forall. intros o [a Ha]%collect_inputs_stored. by apply Hs in Ha.
Qed.

(** Executing a transaction keeps a store admissible. *)
Lemma execute_admissible_store `{!ExecutorLaws} t ctx s r :
  admissible_store s → execute t (collect_inputs t (store_map s)) ctx = Ok r →
  admissible_store (applied s r).
Proof.
  intros Hs Hx. apply applied_Forall; [done|].
  eapply execute_admissible; [|done]. by apply collect_inputs_admissible.
Qed.

Lemma execute_batch_finishes {E} `{!ExecutorLaws} ctx s txs :
  admissible_store s → execute_batch (E:=E) ctx s txs ≠ NoFuel.
Proof.
  revert s. induction txs as [|tx txs IH]; intros s Hs; simpl; [done|].
  pose proof (execute_finishes (signed_transaction tx)
    (collect_inputs (signed_transaction tx) (store_map s)) ctx
    (collect_inputs_admissible _ _ Hs)).
  destruct (execute _ _ ctx) as [r|e|?|] eqn:Hx; try done; [|by apply IH].
  intros [Ha|(s1 & Ha & Hb)]%bind_NoFuel.
  - by apply apply_execution_result_fuel in Ha.
  - apply apply_execution_result_inv in Ha as [_ ->].
    apply bind_NoFuel in Hb as [Hb|([[??] ?] & _ & Hb)]; [|done].
    eapply IH; [|done]. by eapply execute_admissible_store.
Qed.

Lemma execute_batch_admissible {E} `{!ExecutorLaws} ctx s txs s' ex rs :
  admissible_store s → execute_batch (E:=E) ctx s txs = Ok (s', ex, rs) → admissible_store s'.
Proof.
  revert s ex rs. induction txs as [|tx txs IH]; intros s ex rs Hs He; simpl in He.
  { by simplify_eq. }
  destruct (execute _ _ ctx) as [r|e|?|] eqn:Hx; try done; [|by eapply IH].
  apply bind_Ok in He as (s1 & Ha & He). apply bind_Ok in He as ([[s2 ex2] rs2] & Hrec & He).
  simplify_eq. apply apply_execution_result_inv in Ha as [_ ->].
  eapply IH; [|done]. by eapply execute_admissible_store.
Qed.

(** What a completed block consists of. *)
Record mined (w : MiningWork) (header : BlockHeader) (surviving : list SignedTransaction)
    (block : Block) (s : Store) : Prop := {
  mined_header : ∃ n rr sr, block_header block =
    set_roots (set_nonce (set_transactions_root header
      (compute_transactions_root (transactions block))) n) rr sr ∧ in_u64 n;
  mined_nonempty : transactions block ≠ [];
  mined_sublist : transactions block `sublist_of` surviving;
  mined_pow : meets_difficulty (block_header block) (work_difficulty w) = true;
  mined_execution : ∃ s0,
    execute_all (mkContext (mining_hash (block_header block)) (timestamp (block_header block)))
      (parent_store w) (transactions block) = Ok (s0, results block) ∧
    make_reward (E:=ChainError.t) w (block_header block) (results block) s0 =
      Ok (reward_transaction block, reward_transaction_result block, s);
  mined_reward_root : reward_root (block_header block) =
    ((λ tx, tx_digest (signed_transaction tx)) <$> reward_transaction block);
  mined_state_root : state_root (block_header block) = compute_state_root s;
}.

Lemma find_nonce_inv {E} fuel h diff h' :
  in_u64 (nonce h) → find_nonce (E:=E) fuel h diff = Ok (Some h') →
  (∃ n, h' = set_nonce h n ∧ in_u64 n) ∧ meets_difficulty h' diff = true.
Proof.
  revert h. induction fuel as [|fuel IH]; intros h Hn Hf; simpl in Hf; [done|].
  destruct (meets_difficulty h diff) eqn:Hm.
  { simplify_eq. split; [|done]. exists (nonce h'). by rewrite set_nonce_id. }
  unfold checked_add, fits_u64 in Hf. case_bool_decide; [|done].
  apply IH in Hf as [(n & -> & ?) ?]; [|done]. eauto.
Qed.

Lemma grind_loop_mined rounds nonces w header surviving block s :
  grind_loop (E:=ChainError.t) rounds nonces w header surviving = Ok (Some (block, s)) →
  mined w header surviving block s.
Proof.
  revert header surviving. induction rounds as [|rounds IH]; intros header surviving Hg; [done|].
  cbn [grind_loop] in Hg. apply bind_Ok in Hg as ([h|] & Hn & Hg); [|done].
  apply find_nonce_inv in Hn as [(n & -> & Hn) Hpow]; [|by apply in_u64_0].
  apply bind_Ok in Hg as ([[s0 ex] rs] & Hx & Hg).
  case_bool_decide as Hne; [done|]. apply execute_batch_spec in Hx as [Hall Hsub].
  case_bool_decide as Hroot.
  - apply fmap_Ok in Hg as ([b' s'] & Hfin & [= <- <-]). unfold finish_block in Hfin.
    apply bind_Ok in Hfin as ([[rw rr] s1] & Hrw & Hfin). simplify_eq. split; simpl; try done.
    + do 3 eexists. rewrite Hroot. done.
    + exists s0. done.
  - apply IH in Hg as [(n' & rr & sr & Hh & Hn') ? Hsub' Hp Hx' Hr Hs]. split; try done.
    + exists n', rr, sr. rewrite Hh. done.
    + by etrans.
Qed.

Lemma finish_block_finishes {E} `{!ExecutorLaws} w header ex rs s :
  admissible_store s → finish_block (E:=E) w header ex rs s ≠ NoFuel.
Proof.
  unfold finish_block, make_reward. intros Hs [Hm|([[??] ?] & _ & Hf)]%bind_NoFuel; [|done].
  apply bind_NoFuel in Hm as [Hm|(gas & _ & Hm)]; [by apply u64_sum_fuel in Hm|].
  case_bool_decide; [|done]. destruct (execute_reward_transaction _ s) as [r|e|?|] eqn:Hx; try done.
  - apply bind_NoFuel in Hm as [Hm|(s1 & _ & Hm)]; [by apply apply_execution_result_fuel in Hm|done].
  - unfold execute_reward_transaction in Hx. apply bind_NoFuel in Hx as [Hx|(i & Hi & Hx)].
    + unfold collect_inputs_for_reward_transaction, expect in Hx.
      by repeat (case_match; simplify_eq/=).
    + apply execute_system_finishes in Hx; [done|]. unfold collect_inputs_for_reward_transaction in Hi.
      inv_outcome Hi. apply expect_Ok in Hi0, Hi1. repeat constructor; by eapply (Hs _).
Qed.

(** The loop finishes: every further round has fewer transactions. *)
Lemma grind_loop_finishes `{!ExecutorLaws} rounds nonces w header surviving :
  admissible_store (parent_store w) →
  transactions_root header = compute_transactions_root surviving →
  length surviving < rounds → all_nonces ≤ nonces →
  grind_loop (E:=ChainError.t) rounds nonces w header surviving ≠ NoFuel.
Proof.
  intros Hst Hr0 Hl0 Hn0. revert Hr0 Hl0. revert header surviving. induction rounds as [|rounds IH]; intros header surviving Hroot Hlen; [lia|].
  cbn [grind_loop].
  destruct (find_nonce_spec (E:=ChainError.t) nonces (set_nonce header 0)
    (work_difficulty w)) as (r & -> & Hr); [by apply in_u64_0|by apply nonce_fuel_all|].
  cbn [mbind outcome_bind]. destruct r as [h|]; [|done]. destruct Hr as (n & -> & Hn & _ & _).
  intros [Hx|([[s0 ex] rs] & Hx & Hg)]%bind_NoFuel; [by eapply execute_batch_finishes|].
  case_bool_decide; [done|]. pose proof (execute_batch_admissible _ _ _ _ _ _ Hst Hx) as Hs0.
  apply execute_batch_spec in Hx as [_ Hsub]. case_bool_decide as Heq.
  - destruct (finish_block w (set_nonce (set_nonce header 0) n) ex rs s0) eqn:Hfin; try done.
    by apply finish_block_finishes in Hfin.
  - assert (length ex < length surviving).
    { apply sublist_length in Hsub as Hle.
      destruct (decide (length ex = length surviving)) as [Hl|]; [|lia].
      destruct Heq. simpl. rewrite Hroot. f_equal. by apply sublist_same_length. }
    eapply (IH (set_transactions_root (set_nonce (set_nonce header 0) n)
      (compute_transactions_root ex)) ex); [done|lia|exact Hg].
Qed.
End batch.

(** ** Peers accept what a miner mines *)
Section peers.
Context `{CryptoLaws, Executor}.

Lemma u64_sum_in_u64 {E} acc l n : in_u64 acc → u64_sum (E:=E) acc l = Ok n → in_u64 n.
Proof.
  revert acc. induction l as [|x l IH]; intros acc Ha; simpl; [by intros [= <-]|].
  intros (a & [Hu ->]%u64_add_Ok & Hs)%bind_Ok. by eapply IH.
Qed.

Lemma tx_sign_valid t kp :
  tx_sender t = keypair_address kp → validate_transaction t = Ok () →
  validate_signed_transaction (tx_sign t kp) = Ok ().
Proof.
  intros Hs Hv. unfold validate_signed_transaction. simpl. rewrite Hv. cbn [mbind outcome_bind].
  unfold validate_signed_transaction_sender. rewrite bool_decide_false by (intros []; by rewrite Hs).
  cbn [guard_err mbind outcome_bind]. unfold verify_signed_transaction_signature, signature_verify.
  simpl. by rewrite ed_verify_sign.
Qed.

Lemma reward_transaction_validates a r n d :
  (bcs_serialized_size (make_reward_transaction a r n d) ≤
    MEOW_CALL_TRANSACTION_BCS_BYTES_MAX_SIZE)%Z →
  validate_transaction (make_reward_transaction a r n d) = Ok ().
Proof.
  intros Hsz. eapply validate_transaction_call; [done|]. split_and!; [done| |].
  - simpl. apply Nat.leb_le. reflexivity.
  - simpl. apply NoDup_singleton.
Qed.

Lemma reward_transaction_is_valid a r n d :
  in_u64 n → wf_address r → is_valid_reward_transaction (make_reward_transaction a r n d) n d = true.
Proof.
  intros Hn Hr. unfold is_valid_reward_transaction. cbn [tx_type make_reward_transaction tx_gas_coin
    ref_address ref_version ref_digest call_module call_function call_arguments identifier_str].
  rewrite !(bool_decide_false (_ ≠ _)) by (try rewrite bcs_u64_roundtrip by done; by intros []).
  simpl. apply bool_decide_true. rewrite bcs_address_roundtrip by done. eauto.
Qed.

(** The size limit of the reward transactions that the miner may issue. *)
Definition reward_fits (w : MiningWork) : Prop := ∀ n d,
  (bcs_serialized_size (make_reward_transaction (work_miner_address w) (work_reward_address w) n d) ≤
    MEOW_CALL_TRANSACTION_BCS_BYTES_MAX_SIZE)%Z.

Lemma make_reward_checked w block s0 s :
  work_miner_address w = keypair_address (work_keypair w) → wf_address (work_reward_address w) →
  reward_fits w →
  make_reward (E:=ChainError.t) w (block_header block) (results block) s0 =
    Ok (reward_transaction block, reward_transaction_result block, s) →
  ∃ gas, u64_sum (E:=ChainError.t) 0 (res_gas_used <$> results block) = Ok gas ∧
    check_reward (E:=ChainError.t) block gas s0 = Ok (true, s) ∧
    is_some (reward_transaction block) = is_some (reward_transaction_result block).
Proof.
  intros Hkey Hrw Hfit Hm. unfold make_reward in Hm. apply bind_Ok in Hm as (gas & Hgas & Hm).
  pose proof (u64_sum_in_u64 _ _ _ in_u64_0 Hgas) as Hu. exists gas. split; [done|].
  unfold check_reward. case_bool_decide as Hpos.
  - set (t := make_reward_transaction _ _ _ _) in Hm.
    destruct (execute_reward_transaction t s0) as [r|e|?|] eqn:Hx; try done.
    apply bind_Ok in Hm as (s1 & Ha & Hm).
    destruct (reward_transaction block), (reward_transaction_result block); simplify_eq.
    rewrite (bool_decide_false (gas = 0%Z)) by lia. split; [|done].
    unfold apply_block_reward_transaction.
    rewrite tx_sign_valid; [|done|by apply reward_transaction_validates, Hfit].
    change (signed_transaction (tx_sign t (work_keypair w))) with t.
    unfold t at 1. rewrite reward_transaction_is_valid by done. simpl.
    fold t. rewrite Hx, bool_decide_false by (by intros []).
    apply apply_execution_result_inv in Ha as [Hap ->].
    by rewrite apply_execution_result_ok by done.
  - destruct (reward_transaction block), (reward_transaction_result block); simplify_eq.
    rewrite bool_decide_true by (unfold in_u64 in Hu; lia). done.
Qed.

(** What the miner and the peer have to agree on for [work]. *)
Record work_for (w : MiningWork) (cs : ChainState) (parent : Block) (now' : Z) : Prop := {
  wk_parent : blocks cs !! parent_hash (work_header w) = Some parent;
  wk_store : snapshots cs !! parent_hash (work_header w) = Some (parent_store w);
  wk_difficulty : difficulty cs = work_difficulty w;
  wk_height : height (work_header w) = (height (block_header parent) + 1)%Z;
  wk_height_u64 : in_u64 (height (block_header parent) + 1);
  wk_clock : in_u64 (now' + MAX_BLOCK_FUTURE_DRIFT_MS);
  wk_drift : (timestamp (work_header w) ≤ now' + MAX_BLOCK_FUTURE_DRIFT_MS)%Z;
  wk_batch : length (batch w) ≤ MAX_TRANSACTIONS_PER_BLOCK;
  wk_nodup : NoDup (tx_digests (batch w));
  wk_signed : Forall (λ tx, validate_signed_transaction tx = Ok ()) (batch w);
  wk_key : work_miner_address w = keypair_address (work_keypair w);
  wk_reward : wf_address (work_reward_address w);
  wk_fits : reward_fits w;
}.

(** What a peer checks of a block besides its timestamp and that it is new. *)
Record passes (now : Z) (cs : ChainState) (block parent : Block) (s : Store) : Prop := {
  ps_parent : blocks cs !! parent_hash (block_header block) = Some parent;
  ps_structure : structure_ok now block (difficulty cs);
  ps_height : height (block_header block) = (height (block_header parent) + 1)%Z;
  ps_height_u64 : in_u64 (height (block_header parent) + 1);
  ps_signatures : Forall (λ tx, validate_signed_transaction tx = Ok ()) (transactions block);
  ps_execution : ∃ ps, snapshots cs !! parent_hash (block_header block) = Some ps ∧
    reexecute block ps = Ok s;
}.

Lemma mined_passes w cs parent now' block s :
  wf_chain cs → work_for w cs parent now' → mined w (work_header w) (batch w) block s →
  passes now' cs block parent s.
Proof.
  intros Hwf [Hp Hps Hdiff Hh Hhu Hck Hdr Hbt Hnd Hsg Hkey Hrw Hfit]
    [(n & rr & sr & Hhd & Hn) Hne Hsub Hpow (s0 & Hall & Hmr) Hrr Hsr].
  destruct (make_reward_checked _ _ _ _ Hkey Hrw Hfit Hmr) as (gas & Hgas & Hck' & Hsome).
  assert (Hpar : parent_hash (block_header block) = parent_hash (work_header w)) by by rewrite Hhd.
  assert (Hht : height (block_header block) = height (work_header w)) by by rewrite Hhd.
  assert (Hts : timestamp (block_header block) = timestamp (work_header w)) by by rewrite Hhd.
  assert (Hroot : compute_transactions_root (transactions block) =
    transactions_root (block_header block)) by by rewrite Hhd.
  destruct (execute_all_wf _ _ _ _ _ (wf_snapshots _ Hwf _ _ Hps) Hall) as [_ Hlen].
  split.
  - by rewrite Hpar.
  - split; rewrite ?Hts, ?Hdiff; try done.
    + by apply sublist_length in Hsub; lia.
    + eapply sublist_NoDup; [exact Hnd|]. by apply fmap_sublist.
  - by rewrite Hht.
  - done.
  - rewrite list.Forall_forall in *. intros tx Htx. apply Hsg.
    eapply elem_of_submseteq; [done|by apply sublist_submseteq].
  - exists (parent_store w). rewrite Hpar. split; [done|]. by eapply reexecute_complete.
Qed.
Lemma mined_header_fields w block s :
  mined w (work_header w) (batch w) block s →
  parent_hash (block_header block) = parent_hash (work_header w) ∧
  timestamp (block_header block) = timestamp (work_header w).
Proof. intros [(n & rr & sr & -> & _) _ _ _ _ _ _]. done. Qed.

(** A block whose timestamp advances, or does not. *)
Lemma passes_accepted now cs block parent s :
  passes now cs block parent s → blocks cs !! block_hash block = None →
  (timestamp (block_header parent) < timestamp (block_header block))%Z →
  accepted now cs block parent s.
Proof. intros [] ? ?. by split. Qed.
Lemma passes_stale now cs block parent s :
  passes now cs block parent s → blocks cs !! block_hash block = None →
  (timestamp (block_header block) ≤ timestamp (block_header parent))%Z →
  apply_block now cs block = Err ChainError.TimestampNotAdvancing.
Proof.
  intros [Hp Hst Hh Hu _ _] Hf Ht. unfold apply_block.
  rewrite (bool_decide_false (is_Some (blocks cs !! block_hash block)))
    by (rewrite Hf; apply is_Some_None). rewrite Hp. simpl.
  rewrite (proj2 (validate_block_structure_Ok _ _ _ ())) by done. simpl.
  rewrite (proj2 (u64_add_Ok _ _ _)) by done. simpl.
  rewrite (bool_decide_false (height (block_header block) ≠ _)) by (intros Hne; by apply Hne). simpl.
  by rewrite bool_decide_true.
Qed.
Lemma passes_store_wf now cs block parent s :
  wf_chain cs → passes now cs block parent s → wf_store s.
Proof.
  intros Hwf [_ _ _ _ _ (ps & Hps & Hr)]. eapply reexecute_wf; [|done]. by eapply wf_snapshots; [apply wf_core|].
Qed.

(** The work of [prepare_round], for a peer that knows the miner's head with
    the same store. *)
Lemma prepare_round_work {E} now m w m' :
  wf_mempool (mempool m) → prepare_round (E:=E) now m = Ok (Some w, m') →
  ∃ parent, blocks (chain m) !! head_hash (chain m) = Some parent ∧
    snapshots (chain m) !! head_hash (chain m) = Some (parent_store w) ∧
    parent_hash (work_header w) = head_hash (chain m) ∧
    height (work_header w) = (height (block_header parent) + 1)%Z ∧
    in_u64 (height (block_header parent) + 1) ∧
    timestamp (work_header w) = now ∧ work_difficulty w = difficulty (chain m) ∧
    transactions_root (work_header w) = compute_transactions_root (batch w) ∧
    length (batch w) = batch_size m ∧ NoDup (tx_digests (batch w)) ∧
    Forall (λ tx, validate_signed_transaction tx = Ok ()) (batch w) ∧
    work_keypair w = keypair m ∧ work_miner_address w = miner_address m ∧
    work_reward_address w = reward_address m ∧ chain m' = chain m ∧
    wf_mempool (mempool m') ∧ batch w ++ pending (mempool m') = pending (mempool m).
Proof.
  intros Hwf. unfold prepare_round. case_bool_decide as Hb; [done|].
  destruct (drain_batch (mempool m) (batch_size m)) as [bt mp] eqn:Hdr.
  intros (h & Hh & Hp)%bind_Ok. apply bind_Ok in Hp as (ht & [Hu ->]%u64_add_Ok & Hp).
  apply bind_Ok in Hp as (ps & Hps%expect_Ok & Hp).
  unfold head_height, head_block in Hh. apply bind_Ok in Hh as (parent & Hpar%expect_Ok & Hh).
  simplify_eq. exists parent. pose proof (drain_batch_wf _ (batch_size m) Hwf) as Hwf'.
  rewrite Hdr in Hwf'. unfold drain_batch in Hdr. simplify_eq. simpl.
  unfold mempool_len in Hb. rewrite Nat.min_l in * by lia.
  destruct Hwf as [_ Hnd _ Hsg].
  split_and!; try done.
  - rewrite length_take. lia.
  - eapply sublist_NoDup; [exact Hnd|]. apply fmap_sublist, sublist_take.
  - by apply Forall_take.
  - apply take_drop.
Qed.
End peers.
