(* ===== verification/AdapterInstance.v ===== *)
(** * The adapter as the executor of the node

    The adapter's [execute], [execute_system_transaction] and [collect_inputs]
    implement the interface that the chain and the miner are proved against:
    with enough fuel they keep the promises of [ExecutorLaws], for objects
    whose code passed the verifier.  The errors and the panics with which an
    execution can end. *)

From S2P Require Import Prelude Address VmTypes Gas Vm VmProps VerifierSound ChainTypes Convert.
From S2P Require Import Framework Context Resolvers InputsResolver Execute AdapterProps.
From S2P Require Import Store Chain MinerProps VerifierAbstract AdapterVerifier.

(** The code limit of the verifier that [execute_meow_module_publish] runs. *)
Definition module_code_bound : nat := code_bound compiler_config.

(** Fuel for every call into modules within that limit. *)
Notation adapter_fuel := (fuel_by_depth module_code_bound vm_config).

Section instance.
Context `{PrefixHex, !Crypto, !Bcs, !Rng}.

Definition adapter_executor (fuel : nat) : Executor := {|
  Chain.ExecutorError := ExecutorError.t;
  Chain.execute := Execute.execute fuel;
  Chain.execute_system_transaction := Execute.execute_system_transaction fuel;
  Chain.collect_inputs t m := InputsResolver.collect_inputs m t;
|}.

(** An object that is no module, or one that decodes to bounded code. *)
Definition runnable : Object → Prop := runnable_within module_code_bound.
End instance.

Section laws.
Context `{PrefixHexLaws, !Crypto, !Bcs, !CryptoLaws, !BcsLaws, !Rng}.

Lemma outputs_runnable inputs l : Forall (output_ok inputs) l → Forall runnable l.
Proof. intros Hl. eapply list.Forall_impl; [exact Hl|]. intros o. apply output_ok_runnable. Qed.

Lemma execute_runnable fuel t inputs ctx r :
  Execute.execute fuel t inputs ctx = Ok r → Forall runnable (res_created r ++ res_changed r).
Proof.
  intros (coin & b & r0 & g & Hcoin & Hb & Hok & Hr)%execute_inv.
  destruct (Hok (balance_in_u64 _ _ Hb)) as (_ & _ & Hout%outputs_runnable).
  apply apply_gas_spending_Ok in Hr as (content & ver & _ & _ & ->). simpl.
  rewrite app_assoc. apply Forall_app. split; [done|]. constructor; [|done].
  apply resolve_gas_coin_Ok in Hcoin as (_ & _ & [_ Ht _] & _). by intros ?.
Qed.

Lemma execute_system_runnable fuel t inputs r :
  Execute.execute_system_transaction fuel t inputs = Ok r →
  Forall runnable (res_created r ++ res_changed r).
Proof.
  unfold Execute.execute_system_transaction. destruct (tx_type t) as [c|]; [|done]. intros Hr.
  destruct (execute_meow_call _ _ _ _ _ _ _ _) as [[r0 g]| | |] eqn:Hx; simplify_eq/=.
  apply execute_meow_call_Ok in Hx as (_ & _ & Hout%outputs_runnable); [done|].
  by apply gas_new_wf.
Qed.

Definition adapter_laws (fuel : nat) (Hfuel : adapter_fuel ≤ fuel) :
  ExecutorLaws (H:=adapter_executor fuel).
Proof.
  refine {| admissible := runnable : Object → Prop |}.
  - intros t inputs ctx. by apply (execute_finishes_within module_code_bound).
  - intros t inputs. by apply (execute_system_finishes_within module_code_bound).
  - intros t inputs ctx r _. apply execute_runnable.
  - intros t inputs r _. apply execute_system_runnable.
  - intros t m o (a & _ & Ha)%elem_of_collect_inputs. by exists a.
Defined.
End laws.

(** ** How an execution ends

    A panic needs a gas coin without a balance, or a call whose run or whose
    effects panic. *)
Section ends.
Context `{PrefixHexLaws, !Crypto, !Bcs, !CryptoLaws, !BcsLaws, !Rng}.

(** A transferred or destroyed value that is neither a new object nor one of
    the arguments, or that is no object. *)
Definition foreign_id (c : Context) (os : list Object) (id : Address) : Prop :=
  id ∉ cx_fresh_ids c ∧ id ∉ map obj_address os.
Definition unaccounted (c : Context) (os : list Object) (d : Digest) : Prop :=
  (∃ v owner, (v, owner) ∈ cx_transfers c ∧
     ((∀ id, object_address v = Some id → foreign_id c os id) ∨
      ∃ ver, is_ok (vm_object_value_to_object v (OwnerAddress owner) d ver) = false)) ∨
  ∃ id, id ∈ cx_destroyed c ∧ foreign_id c os id.

(** The arguments of the call are resolved, and then the machine panics, or it
    returns and leaves such values behind. *)
Definition call_panics (fuel : nat) (sender : Address) (d : Digest) (c : Call)
    (inputs : list Object) (cfg : VmConfig) (ctx : ExternalContext) : Prop :=
  ∃ module deps func vs os gas r gas' cx,
    resolve_module inputs (call_module c) = Ok module ∧
    resolve_dep_modules inputs (mod_imports module) = Ok deps ∧
    resolve_args c func sender inputs = Ok (vs, os) ∧
    call (adapter_vm (call_module c) module deps cfg) fuel (identifier_str (call_function c)) vs
      (gas, context_new sender d (rand_seed ctx) (ctx_timestamp ctx)) = (r, (gas', cx)) ∧
    ((∃ s, r = Panic s) ∨ (is_ok r = true ∧ unaccounted cx os d)).

Lemma or_failure_Panic {A} (m : outcome string A) d gas k s :
  or_failure m d gas k = Panic s → no_panic m → ∃ a, m = Ok a ∧ k a = Panic s.
Proof. destruct m; naive_solver. Qed.
Lemma or_failure_Err {A} (m : outcome string A) d gas k e :
  or_failure m d gas k = Err e → ∃ a, m = Ok a ∧ k a = Err e.
Proof. destruct m; naive_solver. Qed.

Lemma bump_version_usable {E} sender o : usable sender o → ∃ v, bump_version (E:=E) o = Ok v.
Proof.
  intros [_ _ Hv]. unfold bump_version, version_next. rewrite bool_decide_eq_false_2 by done. eauto.
Qed.
Lemma assert_args_Ok sender os : Forall (usable sender) os → assert_object_args os = Ok ().
Proof.
  induction 1 as [|o os [Ho Ht Hv] _ IH]; simpl; [done|]. rewrite Ho. simpl.
  by rewrite !bool_decide_eq_true_2.
Qed.
Lemma input_by_addr_is_Some l a : a ∈ map obj_address l → is_Some (input_by_addr l !! a).
Proof.
  unfold input_by_addr.
  enough (∀ m : gmap Address Object, a ∈ map obj_address l ∨ is_Some (m !! a) →
    is_Some (foldl (λ m o, <[obj_address o := o]> m) m l !! a)) as Hgen by auto.
  induction l as [|x l IH]; intros m [Ha|Ha]; simpl in *; [by apply not_elem_of_nil in Ha|done|..];
    apply IH; [apply elem_of_cons in Ha as [->|Ha]|]; auto; right.
  - by rewrite lookup_insert_eq.
  - destruct (decide (obj_address x = a)) as [->|]; [by rewrite lookup_insert_eq|].
    by rewrite lookup_insert_ne.
Qed.

(** The loops over transfers and destroyed identifiers. *)
Lemma collect_transfers_Panic sender c os d l s :
  Forall (usable sender) os → (∀ p, p ∈ l → p ∈ cx_transfers c) →
  collect_transfers (list_to_set (cx_fresh_ids c)) (input_by_addr os) d l = Panic s →
  unaccounted c os d.
Proof.
  intros Hos. induction l as [|[v owner] l IH]; intros Hl Hp; simpl in Hp; [done|].
  assert ((v, owner) ∈ cx_transfers c) as Hv by (apply Hl; by left).
  apply bind_Panic in Hp as [Hp|(id & Hid%expect_Ok & Hp)].
  { left. exists v, owner. split; [done|]. left. intros id Hid. by rewrite Hid in Hp. }
  apply bind_Panic in Hp as [Hp|(ver & _ & Hp)].
  { left. exists v, owner. split; [done|]. left. intros id' Hid'. simplify_eq.
    case_bool_decide as Hf; [done|]. split; [by rewrite elem_of_list_to_set in Hf|].
    intros [o Ho]%input_by_addr_is_Some. rewrite Ho in Hp. simpl in Hp.
    apply input_by_addr_Some in Ho as [Ho _]. rewrite list.Forall_forall in Hos.
    destruct (bump_version_usable (E:=string) sender o) as [ver Hver]; [auto|]. by rewrite Hver in Hp. }
  apply bind_Panic in Hp as [Hp|(o & _ & Hp)].
  { left. exists v, owner. split; [done|]. right. exists ver.
    by destruct (vm_object_value_to_object v (OwnerAddress owner) d ver). }
  apply bind_Panic in Hp as [Hp|([cr ch] & _ & Hp)]; [|done].
  apply IH; [|done]. intros p Hin. apply Hl. by right.
Qed.
Lemma collect_destroyed_Panic sender c os d l s :
  Forall (usable sender) os → (∀ id, id ∈ l → id ∈ cx_destroyed c) →
  collect_destroyed (list_to_set (cx_fresh_ids c)) (input_by_addr os) d l = Panic s →
  unaccounted c os d.
Proof.
  intros Hos. induction l as [|id l IH]; intros Hl Hp; simpl in Hp; [done|].
  assert (∀ id, id ∈ l → id ∈ cx_destroyed c) as Hl' by (intros; apply Hl; by right).
  case_bool_decide as Hf; [by apply IH|]. rewrite elem_of_list_to_set in Hf.
  destruct (input_by_addr os !! id) as [o|] eqn:Ho; simpl in Hp.
  - apply input_by_addr_Some in Ho as [Ho _]. rewrite list.Forall_forall in Hos.
    destruct (bump_version_usable (E:=string) sender o) as [ver Hver]; [auto|].
    rewrite Hver in Hp. simpl in Hp. apply bind_Panic in Hp as [Hp|(ds & _ & Hp)]; [by apply IH|done].
  - right. exists id. split; [apply Hl; by left|]. split; [done|].
    intros [o Ho']%input_by_addr_is_Some. by simplify_eq.
Qed.

Lemma collect_effects_Panic sender c os d s :
  Forall (usable sender) os → collect_object_effects c os d = Panic s → unaccounted c os d.
Proof.
  intros Hos. unfold collect_object_effects. rewrite (assert_args_Ok sender) by done. simpl.
  intros [Hp|([] & _ & Hp)]%bind_Panic.
  { exfalso. revert Hp. generalize (transferred_ids c ∪ list_to_set (cx_destroyed c)).
    intros X. induction (cx_fresh_ids c) as [|id l IH]; simpl; [done|].
    case_bool_decide; [done|]. apply IH. }
  apply bind_Panic in Hp as [Hp|([] & _ & Hp)].
  { exfalso. revert Hp. generalize (transferred_ids c ∪ list_to_set (cx_destroyed c)).
    intros X. clear Hos. induction os as [|o l IH]; simpl; [done|].
    case_bool_decide; [done|]. apply IH. }
  apply bind_Panic in Hp as [Hp|([cr ch] & _ & Hp)]; [by eapply collect_transfers_Panic|].
  apply bind_Panic in Hp as [Hp|(ds & _ & Hp)]; [by eapply collect_destroyed_Panic|done].
Qed.

Lemma execute_meow_call_Panic fuel sender d c inputs gas cfg ctx s :
  execute_meow_call fuel sender d c inputs gas cfg ctx = Panic s →
  call_panics fuel sender d c inputs cfg ctx.
Proof.
  unfold execute_meow_call. intros Hp.
  apply or_failure_Panic in Hp as (module & Hm & Hp); [|apply resolve_module_returns].
  apply or_failure_Panic in Hp as (deps & Hd & Hp); [|apply resolve_dep_modules_returns].
  apply or_failure_Panic in Hp as (func & _ & Hp); [|apply no_panic_ok_or].
  apply or_failure_Panic in Hp as ([] & _ & Hp); [|apply no_panic_guard].
  apply or_failure_Panic in Hp as ([vs os] & Ha & Hp); [|apply resolve_args_returns].
  rewrite vm_new_adapter in Hp. unfold run_call in Hp.
  destruct (call _ fuel _ vs _) as [r [gas' cx]] eqn:Hcall.
  exists module, deps, func, vs, os, gas, r, gas', cx. split_and!; [done..|].
  destruct r as [v|e|s'|]; simplify_eq; [right|by left; eexists]. split; [done|].
  apply resolve_args_Ok in Ha.
  destruct (collect_object_effects cx os d) as [[[??]?]| | |] eqn:He; simplify_eq.
  apply (collect_effects_Panic sender) in He; [done|].
  eapply list.Forall_impl; [exact Ha|]. by intros o [_ ?].
Qed.
Lemma execute_meow_call_Err fuel sender d c inputs gas cfg ctx e :
  execute_meow_call fuel sender d c inputs gas cfg ctx ≠ Err e.
Proof.
  unfold execute_meow_call. intros Hp.
  repeat (apply or_failure_Err in Hp as (? & _ & Hp)). case_match.
  rewrite vm_new_adapter in Hp. unfold run_call in Hp. by repeat case_match.
Qed.

(** Publishing neither panics nor returns an error of the executor. *)
Lemma execute_publish_returns d module inputs gas :
  ∃ r, execute_meow_module_publish d module inputs gas = Ok r.
Proof.
  unfold execute_meow_module_publish, or_failure.
  destruct (guard_err _ _) as [[]| | |] eqn:Hg1; [|eauto|by unfold guard_err in Hg1; case_match..].
  destruct (ok_or _ _) as [m| | |] eqn:Hg2; [|eauto|by unfold ok_or in Hg2; case_match..].
  pose proof (resolve_dep_modules_returns inputs (mod_imports m)) as Hr.
  destruct (resolve_dep_modules inputs (mod_imports m)) as [deps| | |]; [|eauto|done..]. simpl.
  assert (no_panic (verify_published m deps)) as Hv.
  { unfold verify_published, verify, adapter_verify. solve_no_panic. }
  destruct (verify_published m deps) as [[]| | |]; [|eauto|done..].
  unfold charge. destruct (bool_decide (_ > _)%Z); simpl; eauto.
Qed.

(** The gas of a readable coin can be deducted. *)
Lemma apply_gas_spending_returns {E} r0 sender coin b spent d :
  (0 ≤ spent)%Z → balance_from_object coin = Some b → usable sender coin →
  ∃ r, apply_gas_spending (E:=E) r0 coin spent d = Ok r.
Proof.
  intros Hs Hb Hu. unfold apply_gas_spending.
  destruct (deduct_gas_balance coin b spent Hs Hb) as (content & -> & _). simpl.
  destruct (bump_version_usable (E:=E) _ _ Hu) as [v ->]. simpl. eauto.
Qed.

Lemma execute_Err fuel t inputs ctx e :
  Execute.execute fuel t inputs ctx = Err e →
  resolve_gas_coin_object (tx_gas_coin t) (tx_sender t) inputs = Err e.
Proof.
  unfold Execute.execute. intros [Hx|(coin & _ & Hx)]%bind_Err; [done|exfalso].
  apply bind_Err in Hx as [Hx|(b & _ & Hx)]; [by destruct (balance_from_object coin)|].
  destruct (charge _ _) as [charged g]. apply bind_Err in Hx as [Hx|([r0 gas] & _ & Hx)].
  - apply or_failure_Err in Hx as ([] & _ & Hx). destruct (tx_type t) as [c|module].
    + by apply execute_meow_call_Err in Hx.
    + destruct (execute_publish_returns (tx_digest t) module inputs g) as [r Hr]. congruence.
  - unfold apply_gas_spending, bump_version in Hx.
    apply bind_Err in Hx as [Hx|(? & _ & Hx)]; [by destruct (deduct_gas _ _)|].
    apply bind_Err in Hx as [Hx|(? & _ & Hx)]; [by destruct (version_next _)|done].
Qed.

Lemma execute_Panic fuel t inputs ctx s :
  Execute.execute fuel t inputs ctx = Panic s →
  ∃ coin, resolve_gas_coin_object (tx_gas_coin t) (tx_sender t) inputs = Ok coin ∧
    (balance_from_object coin = None ∨
     ∃ c, tx_type t = MeowCall c ∧
       call_panics fuel (tx_sender t) (tx_digest t) c inputs vm_config ctx).
Proof.
  unfold Execute.execute. intros Hx.
  pose proof (resolve_gas_coin_returns (tx_gas_coin t) (tx_sender t) inputs) as Hret.
  destruct (resolve_gas_coin_object _ _ _) as [coin| | |] eqn:Hcoin; try done. simpl in Hx.
  exists coin. split; [done|]. destruct (balance_from_object coin) as [b|] eqn:Hb; [right|by left].
  simpl in Hx. pose proof (balance_in_u64 _ _ Hb) as Hu.
  pose proof (gas_new_wf b Hu) as Hwf.
  destruct (charge (gas_new b) BASE_TRANSACTION_GAS_COST) as [charged g] eqn:Hch.
  apply charge_le in Hch as Hle; [|done..]. assert (wf_gas g) as Hg by by apply Hle.
  apply bind_Panic in Hx as [Hx|([r0 gas] & Hr0 & Hx)].
  - apply or_failure_Panic in Hx as ([] & _ & Hx);
      [|apply no_panic_map_err; unfold charge in Hch; destruct (bool_decide _); by injection Hch as <- _].
    destruct (tx_type t) as [c|module]; [exists c; split; [done|by eapply execute_meow_call_Panic]|].
    destruct (execute_publish_returns (tx_digest t) module inputs g) as [r Hr]. congruence.
  - exfalso. assert (0 ≤ spent gas)%Z as Hsp.
    { assert (gas_le g gas) as (_ & _ & Hw); [|specialize (Hw Hg); unfold wf_gas in Hw; lia].
      apply or_failure_Ok in Hr0 as [(e & _ & _ & ->)|([] & _ & Hr0)]; [done|].
      destruct (tx_type t).
      - by apply execute_meow_call_Ok in Hr0 as (_ & ? & _).
      - by apply (execute_publish_Ok _ _ _ _ _ _ (tx_sender t)) in Hr0 as (_ & ? & _). }
    apply resolve_gas_coin_Ok in Hcoin as (_ & _ & Hus & _).
    destruct (apply_gas_spending_returns (E:=ExecutorError.t) r0 _ coin b (spent gas) (tx_digest t)
      Hsp Hb Hus) as [r Hr]. congruence.
Qed.

Lemma execute_system_ends fuel t inputs :
  match Execute.execute_system_transaction fuel t inputs with
  | Err e => e = ExecutorError.ModulePublishNotAllowed ∧ ∃ module, tx_type t = MeowModulePublish module
  | Panic _ =>
      ∃ c, tx_type t = MeowCall c ∧
        call_panics fuel (tx_sender t) (tx_digest t) c inputs vm_config_privileged
          ExternalContext_default
  | Ok _ | NoFuel => True
  end.
Proof.
  unfold Execute.execute_system_transaction. destruct (tx_type t) as [c|module]; [|by eauto].
  destruct (execute_meow_call _ _ _ _ _ _ _ _) as [[r g]|e|s|] eqn:Hx; simpl; [done|..|done].
  - by apply execute_meow_call_Err in Hx.
  - exists c. split; [done|by eapply execute_meow_call_Panic].
Qed.
End ends.
