(* ===== verification/AdapterCorrect.v ===== *)
(** * The VM adapter is correct

    The theorems about [meow-vm-adapter], [convert] and the object conversion,
    and what they give the node that runs the adapter. *)

From S2P Require Import Prelude Address HexInstance VmTypes Gas Vm VmProps VerifierStructural.
From S2P Require Import VerifierAbstract VerifierTyping VerifierSound.
From S2P Require Import VerifierCorrect ChainTypes.
From S2P Require Import Convert Framework AdapterTyping.
From S2P Require Import Context Worklist Resolvers InputsResolver AdapterVerifier ErrorText.
From S2P Require Import Execute AdapterProps AdapterExamples Store Chain.
From S2P Require Import Miner MinerProps AdapterInstance.
Import Execute InputsResolver.

(** ** Execution *)
Section execution.
Context `{PrefixHex, !Crypto, !Bcs, !CryptoLaws, !BcsLaws, !Rng}.

(** C2: What a user transaction can do.  Every changed or destroyed object is
    an input that is owned by the sender, is no module and is below the
    largest version, one version later and stamped with the transaction;
    every created object starts at version one at an address derived from the
    transaction; every created or changed module passed both verifiers with
    its dependencies; and a transaction that fails has no effect but on the
    gas coin it names. *)
Theorem execute_effects fuel t inputs ctx r :
  execute fuel t inputs ctx = Ok r →
  Forall (created_by (tx_digest t)) (res_created r) ∧
  Forall (λ o, ∃ i, i ∈ inputs ∧ touched (tx_digest t) i o ∧ usable (tx_sender t) i)
    (res_changed r ++ res_destroyed r) ∧
  Forall (λ o, obj_type o = TypeModule → verified_module_object inputs o)
    (res_created r ++ res_changed r) ∧
  (res_status r ≠ Success → res_created r = [] ∧ res_destroyed r = [] ∧
     ∃ coin, res_changed r = [coin] ∧ obj_address coin = ref_address (tx_gas_coin t)).
Proof.
  intros (coin & b & r0 & g & Hcoin & Hb & Hok & Hr)%execute_inv.
  destruct (Hok (balance_in_u64 _ _ Hb)) as (_ & [_ Hfail Hcr Hto] & Hout).
  apply resolve_gas_coin_Ok in Hcoin as (Hin & Haddr & Hu & _).
  apply apply_gas_spending_Ok in Hr as (content & ver & _ & Hver & ->). simpl.
  apply Forall_app in Hto as [Hch Hds]. split_and!; [done|..].
  - rewrite !Forall_app, Forall_singleton. split_and!; [done| |done].
    exists coin. split_and!; [done|by split|done].
  - rewrite app_assoc. apply Forall_app. split; [done|]. constructor; [|done]. intros Ht.
    by destruct (us_type _ _ Hu).
  - intros (-> & -> & ->)%Hfail. split_and!; [done..|]. by eexists.
Qed.

(** C7: Gas.  The last changed object of a result is the gas coin: it keeps
    its owner and type, its balance falls by exactly the gas reported, and
    that is at least the base cost (or all there is) and never more than the
    balance. *)
Theorem execute_gas fuel t inputs ctx r :
  execute fuel t inputs ctx = Ok r →
  ∃ coin coin' changed b, coin ∈ inputs ∧ object_ref coin = tx_gas_coin t ∧
    res_changed r = changed ++ [coin'] ∧
    obj_address coin' = obj_address coin ∧ obj_owner coin' = obj_owner coin ∧
    obj_type coin' = obj_type coin ∧ balance_from_object coin = Some b ∧
    balance_from_object coin' = Some (b - res_gas_used r)%Z ∧
    (Z.min BASE_TRANSACTION_GAS_COST b ≤ res_gas_used r ≤ b)%Z.
Proof.
  intros (coin & b & r0 & g & Hcoin & Hb & Hok & Hr)%execute_inv.
  pose proof (balance_in_u64 _ _ Hb) as Hu. destruct (Hok Hu) as (Hg & _).
  apply resolve_gas_coin_Ok in Hcoin as (Hin & _ & _ & _ & Href).
  apply apply_gas_spending_Ok in Hr as (content & ver & Hd & _ & ->). simpl.
  assert (Hpos : (0 ≤ spent g)%Z) by (unfold BASE_TRANSACTION_GAS_COST, in_u64 in *; lia).
  destruct (deduct_gas_balance coin b (spent g) Hpos Hb) as (content' & Hd' & Hbal). simplify_eq.
  eexists coin, _, (res_changed r0), b. split_and!; [done..| |lia|lia].
  rewrite Hbal by done. f_equal. unfold saturating_sub. lia.
Qed.
End execution.

(** ** Publishing *)
Section publishing.
Context `{PrefixHex, !Crypto, !Bcs, !Rng}.

(** What a module must be to be published. *)
Definition publishable (module : list Z) (inputs : list Object) : Prop :=
  (Z.of_nat (length module) ≤ MAX_BCS_SERIALIZED_MODULE_SIZE)%Z ∧
  ∃ m deps, bcs_module_decode module = Some m ∧
    resolve_dep_modules inputs (mod_imports m) = Ok deps ∧
    verify m deps adapter_native_sigs compiler_config = Ok () ∧
    adapter_verify m deps adapter_native_sigs = Ok ().

(** A run that returns; it succeeds exactly when [P], and then creates [created]. *)
Definition succeeds_iff (P : Prop) (created : list Object)
    (x : outcome ExecutorError.t (ExecutionResult * GasMeter)) : Prop :=
  ∃ r g, x = Ok (r, g) ∧ (res_status r = Success ↔ P) ∧ res_changed r = [] ∧
    res_destroyed r = [] ∧ (P → res_created r = created) ∧ (¬ P → res_created r = []).

Lemma or_failure_succeeds {A} (m : outcome string A) d gas k P created :
  no_panic m → (P → is_ok m = true) → (∀ a, m = Ok a → succeeds_iff P created (k a)) →
  succeeds_iff P created (or_failure m d gas k).
Proof.
  intros Hnp HP Hk. destruct m as [a|e| |]; try done; [by apply Hk|].
  assert (Hn : ¬ P) by by intros ?%HP. eexists _, _. split; [done|]. simpl. naive_solver.
Qed.

(** C23: Publishing always returns a result and never panics; it succeeds
    exactly for a module that is within the size limit, decodes, has
    dependencies that resolve, passes the bytecode verifier and the adapter's
    own checks, and can be paid for.  Then it creates one object, the module
    at the address derived from the transaction, and nothing else ever. *)
Theorem publish_exact d module inputs gas :
  succeeds_iff
    (publishable module inputs ∧
     (saturating_add (spent gas) (Z.of_nat (length module) * GAS_PER_MODULE_BYTE) ≤ limit gas)%Z)
    [fresh_module (address_derive d 0 0) d module]
    (execute_meow_module_publish d module inputs gas).
Proof.
  unfold execute_meow_module_publish, publishable.
  apply or_failure_succeeds; [apply no_panic_guard|..].
  { intros [[Hs _] _]. unfold guard_err. by rewrite bool_decide_false by lia. }
  intros [] Hsize%guard_err_Ok%bool_decide_eq_false. apply or_failure_succeeds; [apply no_panic_ok_or|..].
  { by intros [[_ (m & deps & -> & _)] _]. }
  intros m Hm%ok_or_Ok. rewrite Hm.
  apply or_failure_succeeds; [apply no_panic_map_err, resolve_dep_modules_returns|..].
  { by intros [[_ (m' & deps & [= <-] & -> & _)] _]. }
  intros deps Hd%map_err_Ok.
  apply or_failure_succeeds.
  { unfold verify_published, verify, adapter_verify. solve_no_panic. }
  { intros [[_ (m' & deps' & [= <-] & Hd' & Hv & Ha)] _]. unfold verify_published.
    rewrite Hd in Hd'. simplify_eq. by rewrite Hv, Ha. }
  intros [] Hv. unfold verify_published in Hv.
  apply bind_Ok in Hv as ([] & Hv1%map_err_Ok & Hv2%map_err_Ok).
  unfold charge. case_bool_decide as Hc; simpl.
  - eexists _, _. split; [done|]. simpl. assert (Hn : ∀ A, ¬ (A ∧ (saturating_add (spent gas)
      (Z.of_nat (length module) * GAS_PER_MODULE_BYTE) ≤ limit gas)%Z)) by (intros A [_ ?]; lia).
    naive_solver.
  - eexists _, _. split; [done|]. simpl. split_and!; [|done|done|done|].
    + split; [intros _|done]. split; [|lia]. split; [lia|]. by exists m, deps.
    + intros []. split; [|lia]. split; [lia|]. by exists m, deps.
Qed.
End publishing.

(** ** The node's executor *)
Section node.
Context `{PrefixHexLaws, !Crypto, !Bcs, !CryptoLaws, !BcsLaws, !Rng}.

(** C15: How the executor ends.  With fuel for the call depth and the code
    limit, on inputs whose modules are within the verifier's limit and only
    jump forward, an execution comes back.  If it returns a result, the created
    and changed objects are such inputs again.  If it returns an error, that is
    the error of resolving the gas coin.  If it panics, then the gas coin was
    resolved, and either its content has no readable balance, or the
    transaction is a call whose arguments were resolved, and the machine
    panicked or left a transfer or a destroyed identifier that is no object or
    is neither new nor among the arguments: publishing with a readable coin
    never panics.  A system transaction has no coin: it returns an error only
    for a publication, and panics only for such a call. *)
Theorem execute_ends fuel t inputs ctx :
  adapter_fuel ≤ fuel → Forall runnable inputs →
  match execute fuel t inputs ctx with
  | Ok r => Forall runnable (res_created r ++ res_changed r)
  | Err e => resolve_gas_coin_object (tx_gas_coin t) (tx_sender t) inputs = Err e
  | Panic _ =>
      ∃ coin, resolve_gas_coin_object (tx_gas_coin t) (tx_sender t) inputs = Ok coin ∧
        (balance_from_object coin = None ∨
         ∃ c, tx_type t = MeowCall c ∧
           call_panics fuel (tx_sender t) (tx_digest t) c inputs vm_config ctx)
  | NoFuel => False
  end ∧
  match execute_system_transaction fuel t inputs with
  | Ok r => Forall runnable (res_created r ++ res_changed r)
  | Err e => e = ExecutorError.ModulePublishNotAllowed ∧ ∃ module, tx_type t = MeowModulePublish module
  | Panic _ =>
      ∃ c, tx_type t = MeowCall c ∧
        call_panics fuel (tx_sender t) (tx_digest t) c inputs vm_config_privileged
          ExternalContext_default
  | NoFuel => False
  end.
Proof.
  intros Hfuel Hin. split.
  - pose proof (execute_finishes_within module_code_bound fuel t inputs ctx Hfuel Hin).
    destruct (execute fuel t inputs ctx) eqn:Hx; [|by eapply execute_Err|by eapply execute_Panic|done].
    by eapply execute_runnable.
  - pose proof (execute_system_finishes_within module_code_bound fuel t inputs Hfuel Hin).
    pose proof (execute_system_ends fuel t inputs).
    destruct (execute_system_transaction fuel t inputs) eqn:Hx; [|done..].
    by eapply execute_system_runnable.
Qed.

(** C27: Mining with the adapter terminates: on a store whose modules are
    within the verifier's limits the miner's loops end by themselves, with one
    round per transaction and one more, and all nonces in each round. *)
Theorem adapter_grind_terminates fuel rounds nonces w :
  adapter_fuel ≤ fuel → map_Forall (λ _, runnable) (store_map (parent_store w)) →
  transactions_root (work_header w) = compute_transactions_root (batch w) →
  length (batch w) < rounds → all_nonces ≤ nonces →
  grind (H0:=adapter_executor fuel) (E:=ChainError.t) rounds nonces w ≠ NoFuel.
Proof.
  intros Hfuel Hst Hroot Hr Hn.
  by apply (grind_loop_finishes (H0:=adapter_executor fuel) (H1:=adapter_laws fuel Hfuel)).
Qed.
End node.

(** ** Inputs *)
Section inputs.
Context `{PrefixHex, !Crypto, !Bcs, !Rng}.

(** C14: The inputs that the node collects are as good as the whole store: on
    them the executor returns what it returns on the list of all stored
    objects, whatever the transaction, errors and panics included. *)
Theorem execute_on_collected fuel m t ctx :
  map_Forall (λ a o, obj_address o = a) m →
  execute fuel t (collect_inputs m t) ctx = execute fuel t (map_to_list m).*2 ctx.
Proof.
  intros Hm.
  assert (Hall : ∀ o, o ∈ (map_to_list m).*2 ↔ ∃ a, m !! a = Some o).
  { intros o. rewrite list_elem_of_fmap. split.
    - intros ([a o'] & -> & Ho%elem_of_map_to_list). by exists a.
    - intros [a Ha]. exists (a, o). by rewrite elem_of_map_to_list. }
  apply (execute_agree m Hm).
  - intros o (a & _ & Ha)%elem_of_collect_inputs. by rewrite (Hm _ _ Ha).
  - intros o [a Ha]%Hall. by rewrite (Hm _ _ Ha).
  - intros a Ha o Ho. apply elem_of_collect_inputs. eauto.
  - intros a _ o Ho. apply Hall. eauto.
Qed.

(** C32: Both collectors return exactly the stored objects at the addresses the
    transaction needs: its gas coin, its object arguments, and the modules that
    the called or published module imports, transitively.  The client's
    asynchronous one, which first fetches a cache from the node and then runs
    the synchronous one on it, gives the same list as the synchronous one on
    the node's own store. *)
Theorem collectors_agree m t :
  collect_inputs_async t m = collect_inputs m t ∧
  ∀ o, o ∈ collect_inputs m t ↔ ∃ a, needed m t a ∧ m !! a = Some o.
Proof.
  split; [|apply elem_of_collect_inputs].
  symmetry. apply collect_inputs_agree. intros a Ha. by rewrite async_cache_needed.
Qed.

(** [resolve_dep_modules] returns the transitive closure of the imports,
    each address with the module stored there; it fails exactly when an
    address of the closure holds no module that decodes; it never panics. *)
Lemma resolve_dep_modules_closure inputs imports :
  let index := module_index inputs in
  let needed := reach (import_succ index) imports in
  match resolve_dep_modules inputs imports with
  | Ok deps => (∀ a, needed a → is_Some (module_at index a)) ∧
      ∀ a m, deps !! a = Some m ↔ needed a ∧ module_at index a = Some m
  | Err _ => ∃ a, needed a ∧ module_at index a = None
  | _ => False
  end.
Proof.
  simpl. pose proof (resolve_dep_modules_returns inputs imports) as Hnp.
  unfold resolve_dep_modules in *.
  destruct (resolve_loop_sound (module_index inputs) imports
    (search_fuel (module_index inputs) imports) ∅ (reverse imports) (search_inv_init _ _))
    as [Hs Hall].
  destruct (resolve_loop _ _ ∅ _) as [deps| | |]; [|done..]. split; [|done].
  intros a Ha. destruct (Hall deps eq_refl a Ha) as [m Hm]. apply Hs in Hm as [_ ->]. eauto.
Qed.
End inputs.

(** ** Types *)

(** C22: Type safety of calls through the adapter.  On the machine the executor
    builds, with modules that passed the verifier at publishing (and the two
    side conditions of the verifier's soundness), and the module of object
    identifiers among them, the adapter's natives respect their signatures: a
    call of a public function with arguments of the declared types ends with a
    value of the declared type or with an error that depends on data. *)
Theorem adapter_call_safe `{PrefixHexLaws, !Crypto, !Bcs, !Rng} a module deps cfg fuel name f args g c :
  let vm := adapter_vm a module deps cfg in
  id_name_qualified → id_declared (vm_env vm) → deps ⊆ vm_env vm →
  map_Forall (module_verified vm adapter_native_sigs compiler_config) (vm_env vm) →
  wf_gas g → get_function module name = Some f → fn_is_public f = true →
  adapter_natives !! name = None → size deps ≤ vm_max_dep_modules cfg →
  args_ok vm a f args → fuel_by_depth module_code_bound cfg ≤ fuel →
  (∃ ret, fst (call vm fuel name args (g, c)) = Ok ret ∧ returns vm a f ret) ∨
  (∃ e, fst (call vm fuel name args (g, c)) = Err e ∧ benign e = true).
Proof.
  intros vm Hname Hid Hself Hmods Hg Hf Hpub Hnat Hsize Hargs Hfuel.
  pose proof (adapter_linked Hname a module deps cfg Hmods Hself Hid) as Hl.
  pose proof (verified_finishes vm _ _ Hl fuel name args g c (adapter_vm_wf _ _ _ _) Hg Hfuel) as Hfin.
  pose proof (call_ok vm _ _ Hl fuel name f args Hf Hpub Hnat Hsize Hargs (g, c)) as Hok.
  destruct (fst (call vm fuel name args (g, c))); [left|right| |]; naive_solver.
Qed.

(** ** Conversions *)
Section conversions.
Context `{PrefixHexLaws, !Crypto, !Bcs, !CryptoLaws, !BcsLaws}.

(** Objects and VM values.  An object as the node stores it converts to a
    VM struct, and the struct converts back to an object with the same
    address, type and fields, whatever owner, digest and version it is given. *)
Lemma object_value_round_trip o decl fs owner d ver :
  wf_object o decl fs →
  ∃ v, object_to_vm_object_value o = Ok v ∧ object_address v = Some (obj_address o) ∧
    ∃ o', vm_object_value_to_object v owner d ver = Ok o' ∧
      obj_address o' = obj_address o ∧ obj_type o' = obj_type o ∧
      bcs_fields_decode (obj_content o') = Some fs ∧
      obj_owner o' = owner ∧ obj_transaction o' = d ∧ obj_version o' = ver.
Proof.
  intros Ho. destruct (object_value_roundtrip o decl fs owner d ver Ho) as (v & Hv & Hback).
  exists v. split; [done|]. apply value_to_object_inv in Hback as Hinv. destruct Hinv as (Ha & _).
  split; [done|]. eexists. split; [exact Hback|]. simpl. split_and!; try done.
  apply bcs_fields_roundtrip. eapply bcs_fields_decode_wf, (wo_content _ _ _ Ho).
Qed.

(** Rust data and VM values.  What [struct_from_rust] makes of Rust data
    without narrow integers serializes to the bytes that BCS writes for the
    data itself, so [value_to_rust] with a decoder that inverts those bytes
    returns the data. *)
Lemma struct_from_rust_round_trip {T} `{VmTypeNames T} (decode : list Z → option T) x v :
  no_narrow (to_serde x) = true → decode (serde_bytes (to_serde x)) = Some x →
  struct_from_rust x = Ok v → value_to_rust decode v = Ok x.
Proof.
  intros Hn Hd Hv. unfold value_to_rust, struct_from_rust in *.
  rewrite (serialize_layout _ _ _ Hv Hn). simpl. by rewrite Hd.
Qed.
End conversions.

(** ** The adapter's checks at publishing *)

(** The layout check reports nothing exactly when the type of object
    identifiers occurs only as the type of a first field and no field has an
    object type, of the module itself or of a dependency. *)
Lemma object_layouts_exact `{PrefixHex} module deps :
  check_object_layouts module deps = [] ↔
  ∀ s i f, s ∈ mod_structs module → sd_fields s !! i = Some f →
    (fd_ty f = Ty.Struct MEOW_OBJECT_ID_BYTECODE_TYPE_NAME → i = 0) ∧
    ¬ names_object module deps (fd_ty f).
Proof.
  unfold check_object_layouts. rewrite mjoin_nil, list.Forall_forall.
  setoid_rewrite <-(check_field_layout_nil module deps). split.
  - intros Hall s i f Hs Hf.
    assert (Hn : mjoin (imap (check_field_layout module deps s) (sd_fields s)) = [])
      by (apply Hall, list_elem_of_fmap; eauto).
    rewrite mjoin_nil, list.Forall_forall in Hn. apply (Hn _).
    apply list_elem_of_lookup. exists i. by rewrite list_lookup_imap, Hf.
  - intros Hall l (s & -> & Hs)%list_elem_of_fmap. apply mjoin_nil, list.Forall_forall.
    intros e [i Hi]%list_elem_of_lookup. rewrite list_lookup_imap in Hi.
    destruct (sd_fields s !! i) as [f|] eqn:Hf; simplify_eq/=. eauto.
Qed.

(** ** What the checks let through *)

(** C30: What the arguments of a call are resolved to, exactly.  There are as
    many arguments as parameters; an object argument is the current version of
    an object of the sender that is no module and not at the last version, and
    its value is that object with its own type; a raw argument is decoded at
    the type of its parameter, a primitive one.  The type of a parameter that
    takes an object plays no role: a function whose parameters differ there
    only gets the same values and objects, or the same error. *)
Theorem resolve_args_exact `{PrefixHex, !Crypto, !Bcs} c f sender inputs :
  (∀ vs os, resolve_args c f sender inputs = Ok (vs, os) ↔
     resolved sender inputs (call_arguments c) (fn_params f) vs os) ∧
  ∀ f', same_raw_params (call_arguments c) (fn_params f) (fn_params f') →
    resolve_args c f' sender inputs = resolve_args c f sender inputs.
Proof.
  unfold resolve_args. split.
  - intros vs os. destruct (decide (length (call_arguments c) = length (fn_params f))) as [Hl|Hl].
    + rewrite bool_decide_eq_false_2 by (intros []; done). by apply resolve_args_loop_exact.
    + rewrite bool_decide_eq_true_2 by done. split; [done|]. intros Hr. destruct Hl.
      by induction Hr; simpl; f_equal.
  - intros f' Hs. pose proof Hs as [Hl _]. rewrite <-Hl.
    by rewrite (resolve_args_loop_params _ _ _ _ _ _ Hs).
Qed.

(** So an object of another type reaches the code.  The framework's
    [split_and_transfer] takes a [MeowCoin]; called with a
    [Ticket], an object of a user's module that has the same fields and is no
    coin, it succeeds, and creates a coin of 999 out of it.  The modules
    involved are accepted by both verifiers. *)
Lemma coin_from_a_ticket :
  verify meow_coin framework_deps adapter_native_sigs compiler_config = Ok () ∧
  adapter_verify meow_coin framework_deps adapter_native_sigs = Ok () ∧
  is_meow_coin_object ticket = false ∧
  match execute 200 (split_tx ticket 999) world block_context with
  | Ok r => res_status r = Success ∧
      map (λ o, (is_meow_coin_object o, balance_from_object o)) (res_created r) =
        [(true, Some 999%Z)]
  | _ => False
  end.
Proof. vm_compute. by split_and!. Qed.

(** The freshness check does not follow the machine's stack.  It accepts
    [relabel], which builds a [Medal] with the identifier of a [Ticket]: the
    transaction succeeds and the object at the ticket's address has the other
    type.  And it rejects [copy], which builds a [Ticket] with a fresh
    identifier, because a field is read in between. *)
Lemma stale_id_accepted_fresh_rejected :
  adapter_verify token framework_deps adapter_native_sigs = Ok () ∧
  match execute 200 relabel_tx world block_context with
  | Ok r => res_status r = Success ∧
      (summary <$> head (res_changed r)) =
        Some (obj_address ticket, TypeObject (mkDeclRef token_addr (mkIdentifier "Medal")),
              2%Z, Some 1000000%Z)
  | _ => False
  end ∧
  verify copier framework_deps adapter_native_sigs compiler_config = Ok () ∧
  adapter_verify copier framework_deps adapter_native_sigs =
    Err [BytecodeVerifierError.ObjectIdNotFresh "copy" 2 "Ticket"].
Proof. vm_compute. by split_and!. Qed.

(** ** Witnesses *)
Definition relabel_run : outcome ExecutorError.t ExecutionResult :=
  execute 200 relabel_tx world block_context.
Lemma relabel_run_ok : is_ok relabel_run = true.
Proof. vm_compute. reflexivity. Qed.
Definition relabel_result : ExecutionResult := ok_value relabel_run relabel_run_ok.

Lemma execute_effects_witness :
  Forall (λ o, ∃ i, i ∈ world ∧ touched (tx_digest relabel_tx) i o ∧ usable user i)
    (res_changed relabel_result ++ res_destroyed relabel_result).
Proof.
  apply (execute_effects 200 relabel_tx world block_context relabel_result).
  apply (ok_value_eq relabel_run relabel_run_ok).
Defined.

Lemma execute_gas_witness :
  ∃ coin coin' changed b, coin ∈ world ∧ object_ref coin = tx_gas_coin relabel_tx ∧
    res_changed relabel_result = changed ++ [coin'] ∧
    obj_address coin' = obj_address coin ∧ obj_owner coin' = obj_owner coin ∧
    obj_type coin' = obj_type coin ∧ balance_from_object coin = Some b ∧
    balance_from_object coin' = Some (b - res_gas_used relabel_result)%Z ∧
    (Z.min BASE_TRANSACTION_GAS_COST b ≤ res_gas_used relabel_result ≤ b)%Z.
Proof.
  apply (execute_gas 200 relabel_tx world block_context relabel_result).
  apply (ok_value_eq relabel_run relabel_run_ok).
Defined.

(** The example objects in a store. *)
Definition world_store : Store := with_objects world.
Lemma world_by_address : map_Forall (λ a o, obj_address o = a) (store_map world_store).
Proof. apply (bool_decide_unpack _). vm_compute. exact I. Qed.

Lemma execute_on_collected_witness :
  execute 200 relabel_tx (collect_inputs (store_map world_store) relabel_tx) block_context =
  execute 200 relabel_tx (map_to_list (store_map world_store)).*2 block_context.
Proof. apply (execute_on_collected 200 (store_map world_store)), world_by_address. Defined.

Lemma meow_object_verified :
  verify meow_object ∅ adapter_native_sigs compiler_config = Ok ().
Proof. vm_compute. reflexivity. Qed.

Lemma world_inputs_runnable : Forall runnable world.
Proof.
  apply list.Forall_forall. intros o Hin Ht m Hm. unfold runnable, module_code_bound.
  repeat (apply elem_of_cons in Hin as [->|Hin]); simplify_eq; [..|by apply not_elem_of_nil in Hin].
  - injection Hm as <-. exact (verify_module_ok _ _ _ _ meow_object_verified).
  - injection Hm as <-. exact (verify_module_ok _ _ _ _ (proj1 meow_coin_verified)).
  - injection Hm as <-. exact (verify_module_ok _ _ _ _ (proj1 token_verified)).
Qed.
Lemma world_runnable : map_Forall (λ _, runnable) (store_map world_store).
Proof.
  intros a o Ho. pose proof world_inputs_runnable as Hw. rewrite list.Forall_forall in Hw. apply Hw.
  unfold world_store, with_objects in Ho. simpl in Ho.
  repeat (apply lookup_insert_Some in Ho as [[_ <-]|[_ Ho]]; [set_solver|]).
  by rewrite lookup_empty in Ho.
Qed.

(** The relabelling on the example store comes back, and not with an error. *)
Lemma execute_ends_witness :
  match execute adapter_fuel relabel_tx world block_context with
  | Ok r => Forall runnable (res_created r ++ res_changed r)
  | Err _ | NoFuel => False
  | Panic _ =>
      ∃ c, tx_type relabel_tx = MeowCall c ∧
        call_panics adapter_fuel user (tx_digest relabel_tx) c world vm_config block_context
  end.
Proof.
  destruct (execute_ends adapter_fuel relabel_tx world block_context) as [Hx _];
    [apply Nat.le_refl|exact world_inputs_runnable|].
  assert (resolve_gas_coin_object (tx_gas_coin relabel_tx) (tx_sender relabel_tx) world = Ok gas_coin)
    as Hcoin by (vm_compute; reflexivity).
  rewrite Hcoin in Hx.
  destruct (execute adapter_fuel relabel_tx world block_context); [exact Hx|discriminate Hx| |exact Hx].
  destruct Hx as (coin & Heq & [Hb|Hc]); [|exact Hc].
  injection Heq as <-. vm_compute in Hb. discriminate Hb.
Defined.

(** A round of one transaction on the example store. *)
Definition relabel_signed : SignedTransaction := mkSigned relabel_tx (mkSignature [] []).
Definition relabel_work : MiningWork :=
  mkWork (mkHeader 1 digest_ZERO (compute_transactions_root [relabel_signed]) None digest_ZERO 1 0)
    [relabel_signed] world_store 1 (mkKeyPair []) user user.

Lemma adapter_grind_terminates_witness :
  grind (H0:=adapter_executor adapter_fuel) (E:=ChainError.t) 2 all_nonces relabel_work ≠ NoFuel.
Proof.
  exact (adapter_grind_terminates _ 2 _ relabel_work (Nat.le_refl adapter_fuel) world_runnable
    eq_refl (Nat.lt_succ_diag_r 1) (Nat.le_refl all_nonces)).
Defined.

(** The machine for a call of [split_and_transfer]. *)
Definition coin_vm : Vm Context :=
  adapter_vm MEOW_COIN_MODULE_ADDRESS meow_coin framework_deps vm_config.
Definition coin_value : Value.t :=
  Value.Struct MEOW_COIN_OBJECT_BYTECODE_TYPE_NAME
    [("id", id_value (obj_address gas_coin)); ("balance", Value.U64 50000)].

Lemma coin_vm_verified :
  map_Forall (module_verified coin_vm adapter_native_sigs compiler_config) (vm_env coin_vm).
Proof.
  apply map_Forall_insert_2; [|apply map_Forall_singleton]; split.
  - by apply (bool_decide_unpack _).
  - exists framework_deps. split_and!; [done|apply meow_coin_verified|].
    intros f [->|[->|[]%not_elem_of_nil]%elem_of_cons]%elem_of_cons; vm_compute; reflexivity.
  - intros s [->|[]%not_elem_of_nil]%elem_of_cons. by apply (bool_decide_unpack _).
  - by apply (bool_decide_unpack _).
  - exists ∅. split_and!; [apply map_empty_subseteq|apply meow_object_verified|].
    by intros f ?%not_elem_of_nil.
  - intros s [->|[]%not_elem_of_nil]%elem_of_cons. apply NoDup_singleton.
Qed.

Lemma adapter_call_safe_witness :
  let r := fst (call coin_vm (fuel_by_depth module_code_bound vm_config) "split_and_transfer"
                  [coin_value; Value.U64 7; Value.Address user]
                  (gas_new 1000, context_new user digest_ZERO digest_ZERO 0)) in
  (∃ ret, r = Ok ret ∧ returns coin_vm MEOW_COIN_MODULE_ADDRESS split_and_transfer ret) ∨
  (∃ e, r = Err e ∧ benign e = true).
Proof.
  apply (adapter_call_safe MEOW_COIN_MODULE_ADDRESS meow_coin framework_deps vm_config).
  - vm_compute. reflexivity.
  - exists meow_object. eexists. split_and!; reflexivity.
  - by apply insert_subseteq.
  - apply coin_vm_verified.
  - by apply gas_new_wf.
  - reflexivity.
  - reflexivity.
  - reflexivity.
  - apply Nat.leb_le. reflexivity.
  - repeat constructor; vm_compute; repeat split.
  - apply Nat.le_refl.
Defined.

Definition ticket_decl : ObjectDeclRef := mkDeclRef token_addr (mkIdentifier "Ticket").
Lemma ticket_wf : wf_object ticket ticket_decl [("balance", Value.U64 1000000)].
Proof.
  split; try done; apply (bool_decide_unpack _); vm_compute; exact I.
Qed.

(** A ticket is passed for a coin, and would be for a number too. *)
Definition split_call : Call :=
  mkCall MEOW_COIN_MODULE_ADDRESS (mkIdentifier "split_and_transfer")
    [InputObject (object_ref ticket); InputRaw (bcs_u64 7); InputRaw (bcs_address user)].
Definition split_number : Function :=
  mkFunction "split_number" true
    [("from", Ty.U64); ("amount", Ty.U64); ("to", Ty.Address)] None 3 [].
Lemma resolve_args_exact_witness :
  resolved user world (call_arguments split_call) (fn_params split_and_transfer)
    [Value.Struct (qualify token_addr "Ticket")
       [("id", id_value (obj_address ticket)); ("balance", Value.U64 1000000)];
     Value.U64 7; Value.Address user] [ticket] ∧
  resolve_args split_call split_number user world =
  resolve_args split_call split_and_transfer user world.
Proof.
  destruct (resolve_args_exact split_call split_and_transfer user world) as [Hex Hty]. split.
  - apply Hex. vm_compute. reflexivity.
  - apply Hty. split; [reflexivity|].
    intros [|[|[|i]]] bytes p p' Ha Hp Hp'; cbn in Ha, Hp, Hp'; try discriminate Ha;
      injection Hp as <-; injection Hp' as <-; reflexivity.
Defined.

Definition decode_balance (bs : list Z) : option MeowCoinBalance :=
  mkCoinBalance <$> bcs_u64_decode bs.
