(* ===== verification/NodeExamples.v ===== *)
(** * A small chain, for the witnesses

    Concrete functions in the place of the cryptographic crates and of the
    executor, and a chain of two blocks mined with them.  They show that the
    hypotheses of the chain's theorems can hold together. *)

From S2P Require Import Prelude Address VmTypes ChainTypes Framework Context Validator Store.
From S2P Require Import Mempool Chain.
From S2P Require Import ChainProps Miner MinerProps.

(** ** A stand-in for the cryptographic crates *)
Definition toy_bytes (s : Signable) : list Z :=
  match s with
  | SObject o => 1%Z :: version_u64 (obj_version o) :: address_bytes (obj_address o)
  | SObjects os => 2%Z :: mjoin ((λ o, version_u64 (obj_version o) :: address_bytes (obj_address o)) <$> os)
  | STransaction t =>
      3%Z :: version_u64 (ref_version (tx_gas_coin t)) :: address_bytes (tx_sender t) ++
        address_bytes (ref_address (tx_gas_coin t)) ++ digest_bytes (ref_digest (tx_gas_coin t))
  | SDigests ds => 4%Z :: mjoin (digest_bytes <$> ds)
  | SHeader h => [5; height h; timestamp h; nonce h]%Z
  | SMiningHeader h => [0; Z.shiftr 255 (3 * m_nonce h); m_height h; m_timestamp h]%Z
  | SBytes bs => 6%Z :: bs
  end.

Global Instance toy_crypto : Crypto := {|
  bcs_to_bytes := toy_bytes;
  bcs_serialized_size t := 100%Z;
  bcs_u64 n := [n];
  bcs_u64_decode bs := match bs with [n] => Some n | _ => None end;
  bcs_address a := address_bytes a;
  bcs_address_decode bs := Some (mkAddress bs);
  blake2b bs := bs;
  ed_public sk := sk;
  ed_sign sk msg := sk ++ msg;
  ed_verify pk sg msg := bool_decide (sg = pk ++ msg);
|}.
Global Instance toy_crypto_laws : CryptoLaws.
Proof.
  split.
  - intros. by apply bool_decide_true.
  - done.
  - by intros [] ?.
Qed.

(** ** A stand-in for the executor: it charges seven units to the gas coin *)
Definition touch (d : Digest) (o : Object) : Object :=
  mkObject (obj_address o) (obj_owner o) d (mkVersion (version_u64 (obj_version o) + 1))
    (obj_type o) (obj_content o).
Global Instance toy_executor : Executor := {|
  ExecutorError := string;
  execute t inputs ctx :=
    match inputs with
    | gas :: _ =>
        Ok (with_gas_used (result_new Success (tx_digest t) [] [touch (tx_digest t) gas] []) 7)
    | [] => Err "gas coin not found"
    end;
  execute_system_transaction t inputs :=
    Ok (result_new Success (tx_digest t)
          [fresh_object (mkAddress (9%Z :: digest_bytes (tx_digest t))) (tx_sender t) (tx_digest t)
             (mkDeclRef MEOW_COIN_MODULE_ADDRESS (mkIdentifier "MeowCoin")) []] [] []);
  collect_inputs t m := omap (m !!.) [ref_address (tx_gas_coin t)];
|}.
Global Instance toy_executor_laws : ExecutorLaws.
Proof.
  refine {| admissible _ := True |}; [by intros t [|??] ?|done| | |].
  1-2: intros; by apply list.Forall_forall.
  intros t m o Ho. apply list_elem_of_omap in Ho as (a & _ & Ha). by exists a.
Defined.

(** ** A miner with one funded account *)
Definition alice : KeyPair := mkKeyPair [1; 2; 3]%Z.
Definition bob_address : Address := address_suffixed 77.
Definition framework (a : Address) : Object := fresh_module a digest_ZERO [].
Definition coin_address : Address := address_suffixed 5.
Definition coin : Object :=
  fresh_object coin_address (keypair_address alice) digest_ZERO
    (mkDeclRef MEOW_COIN_MODULE_ADDRESS (mkIdentifier "MeowCoin")) [].
Definition genesis_objects : list Object :=
  [framework MEOW_OBJECT_MODULE_ADDRESS; framework MEOW_COIN_MODULE_ADDRESS; coin].
Definition config : MinerConfig := mkMinerConfig 13 alice bob_address 1 2.

Definition spend (o : Object) : SignedTransaction :=
  tx_sign (mkTransaction (keypair_address alice) (object_ref o) (MeowModulePublish [])) alice.

(** ** The first rounds of the miner *)
Definition miner0 : Miner := with_genesis genesis_objects config.
Lemma miner0_full_ok : is_ok (submit_transaction miner0 (spend coin)) = true.
Proof. vm_compute. reflexivity. Qed.
Definition miner0_full : Miner := ok_value _ miner0_full_ok.
Lemma prepared1_ok : is_ok (prepare_round (E:=ChainError.t) 1000 miner0_full) = true.
Proof. vm_compute. reflexivity. Qed.
Definition prepared1 : option MiningWork * Miner := ok_value _ prepared1_ok.
Lemma work1_ok : is_some (fst prepared1) = true.
Proof. vm_compute. reflexivity. Qed.
Definition work1 : MiningWork := some_value _ work1_ok.
Lemma mined1_ok : is_ok (grind (E:=ChainError.t) 4 4 work1) = true.
Proof. vm_compute. reflexivity. Qed.
Definition mined1 : option (Block * Store) := ok_value _ mined1_ok.
Lemma found1_ok : is_some (mined1) = true.
Proof. vm_compute. reflexivity. Qed.
Definition found1 : Block * Store := some_value _ found1_ok.
Definition block1 : Block := fst found1.
Definition store1 : Store := snd found1.
Lemma committed1_ok : is_ok (commit_mined (E:=ChainError.t) 1000 (snd prepared1) block1 store1) = true.
Proof. vm_compute. reflexivity. Qed.
Definition committed1 : bool * Miner := ok_value _ committed1_ok.
Definition miner1 : Miner := snd committed1.

(** The first nonce that meets the difficulty is 2, and the block pays a reward. *)
Example block1_facts :
  nonce (block_header block1) = 2%Z ∧ is_some (reward_transaction block1) = true ∧
  fst committed1 = true.
Proof. vm_compute. done. Qed.

(** The second round: the coin, at its new version, is spent again at time [now]. *)
Lemma coin1_ok : is_some (get_object store1 coin_address) = true.
Proof. vm_compute. reflexivity. Qed.
Definition coin1 : Object := some_value _ coin1_ok.
Lemma miner1_full_ok : is_ok (submit_transaction miner1 (spend coin1)) = true.
Proof. vm_compute. reflexivity. Qed.
Definition miner1_full : Miner := ok_value _ miner1_full_ok.

Lemma miner0_chain_wf : wf_chain (chain miner0).
Proof. apply chain_new_wf; [apply with_objects_wf|vm_compute; done|vm_compute; done]. Qed.

(** A peer that starts from the same genesis receives the block. *)
Lemma received1_ok : is_ok (apply_block 1000 (chain miner0) block1) = true.
Proof. vm_compute. reflexivity. Qed.
Definition received1 : bool * ChainState := ok_value _ received1_ok.
Lemma received1_eq :
  apply_block 1000 (chain miner0) block1 = Ok (fst received1, snd received1).
Proof. rewrite <-surjective_pairing. apply ok_value_eq. Qed.
Lemma block1_closes_no_cycle d b :
  blocks (chain miner0) !! d = Some b → parent_hash (block_header b) ≠ block_hash block1.
Proof.
  change (blocks (chain miner0)) with ({[block_hash block_genesis := block_genesis]} : gmap Digest Block).
  intros [_ <-]%lookup_singleton_Some. vm_compute. done.
Qed.
