(* ===== verification/LedgerCorrect.v ===== *)
(** * Correctness of the ledger: validation, the object store, the pool *)

From S2P Require Import Prelude Address VmTypes ChainTypes Framework Context Validator Store.
From S2P Require Import Mempool Chain.
From S2P Require Import ChainProps Miner MinerProps NodeExamples.
From stdpp Require Import sorting.

(** ** Validation of transactions *)
Section validation.
Context `{Crypto}.

(** What a well-formed transaction is. *)
Definition well_formed (t : Transaction) : Prop :=
  match tx_type t with
  | MeowCall c =>
      (bcs_serialized_size t ≤ MEOW_CALL_TRANSACTION_BCS_BYTES_MAX_SIZE)%Z ∧
      length (call_arguments c) ≤ max_params compiler_config ∧
      NoDup (ref_address (tx_gas_coin t) :: object_args (call_arguments c))
  | MeowModulePublish module =>
      (bcs_serialized_size t ≤ MEOW_PUBLISH_MODULE_TRANSACTION_BCS_BYTES_MAX_SIZE)%Z ∧
      (Z.of_nat (length module) ≤ MAX_BCS_SERIALIZED_MODULE_SIZE)%Z
  end.

Lemma validate_transaction_Ok t u : validate_transaction t = Ok u ↔ well_formed t.
Proof.
  destruct (tx_type t) as [c|md] eqn:Ht; unfold well_formed; rewrite Ht.
  - by apply validate_transaction_call.
  - unfold validate_transaction, validate_transaction_size, validate_module_size. rewrite Ht.
    split.
    + intros (? & Hs%guard_err_Ok%bool_decide_eq_false & Hm%guard_err_Ok%bool_decide_eq_false)%bind_Ok.
      lia.
    + intros [Hs Hm]. rewrite bool_decide_false by lia. simpl.
      rewrite bool_decide_false by lia. by destruct u.
Qed.

(** What a valid signed transaction is. *)
Definition valid_signed (s : SignedTransaction) : Prop :=
  well_formed (signed_transaction s) ∧
  signer (signed_signature s) = tx_sender (signed_transaction s) ∧
  signature_verify (signed_signature s) (digest_bytes (tx_digest (signed_transaction s))) = true.

Lemma validate_signed_Ok s : validate_signed_transaction s = Ok () ↔ valid_signed s.
Proof.
  unfold valid_signed. rewrite <-(validate_transaction_Ok _ ()). unfold validate_signed_transaction.
  unfold validate_signed_transaction_sender, verify_signed_transaction_signature. split.
  - intros ([] & Hv & Hs)%bind_Ok.
    apply bind_Ok in Hs as (? & Hs%guard_err_Ok%bool_decide_eq_false & Hk%guard_err_Ok).
    apply negb_false_iff in Hk. split_and!; [done|by apply dec_stable|done].
  - intros (-> & -> & ->). cbn [mbind outcome_bind].
    by rewrite bool_decide_false by (by intros []).
Qed.

Lemma no_aliased_args_returns seen args : no_panic (no_aliased_args seen args).
Proof. revert seen. induction args as [|[r|] args IH]; intros seen; simpl; [done|case_bool_decide; [done|]|]; apply IH. Qed.

Lemma validate_signed_returns s : no_panic (validate_signed_transaction s).
Proof.
  unfold validate_signed_transaction, validate_transaction.
  apply no_panic_bind; [|intros ? _; apply no_panic_bind; intros; apply no_panic_guard].
  destruct (tx_type _).
  - do 3 (apply no_panic_bind; [apply no_panic_guard|intros ? _]). apply no_aliased_args_returns.
  - apply no_panic_bind; intros; apply no_panic_guard.
Qed.

(** A signed transaction passes validation exactly when it is within the
    size limits, a call has at most [max_params] arguments and names no
    object twice (the gas coin included), the signature's key belongs to the
    sender, and the signature verifies the digest of the transaction; any
    other transaction is answered with an error. *)
Lemma validate_signed_exact s :
  (validate_signed_transaction s = Ok () ∧ valid_signed s) ∨
  (∃ e, validate_signed_transaction s = Err e ∧ ¬ valid_signed s).
Proof.
  pose proof (validate_signed_Ok s) as Hok. pose proof (validate_signed_returns s) as Hr.
  destruct (validate_signed_transaction s) as [[]|e| |]; [left; naive_solver| |done..].
  right. exists e. split; [done|]. intros Hv. by apply Hok in Hv.
Qed.

(** Signing is complete for validation: a well-formed transaction signed
    with the key pair of its sender is valid, and signing leaves its digest
    alone. *)
Lemma sign_then_validate `{!CryptoLaws} t kp :
  tx_sender t = keypair_address kp → well_formed t →
  validate_signed_transaction (tx_sign t kp) = Ok () ∧ signed_digest (tx_sign t kp) = tx_digest t.
Proof.
  intros Hs Hw%(validate_transaction_Ok _ ()). split; [by apply tx_sign_valid|done].
Qed.
End validation.

(** ** The object store *)

(** [apply_execution_result] on a store.  It succeeds exactly when the
    created objects are new and distinct, the changed ones exist, and the
    destroyed ones exist and are distinct (otherwise an assertion fails), and
    then each address holds: nothing if destroyed, else the last change, else
    the creation, else what it held before. *)
Lemma apply_result_exact {E} (s : Store) (r : ExecutionResult) :
  (¬ applicable s r → ∃ msg, apply_execution_result (E:=E) s r = Panic msg) ∧
  (applicable s r → ∃ s', apply_execution_result (E:=E) s r = Ok s' ∧
    ∀ a, get_object s' a =
      if decide (a ∈ obj_address <$> res_destroyed r) then None
      else match find_first (λ o, bool_decide (obj_address o = a)) (reverse (res_changed r)) with
           | Some o => Some o
           | None =>
               match find_first (λ o, bool_decide (obj_address o = a)) (res_created r) with
               | Some o => Some o
               | None => get_object s a
               end
           end).
Proof.
  split; [apply apply_execution_result_panic|]. intros Ha.
  exists (applied s r). split; [by apply apply_execution_result_ok|]. intros a.
  unfold get_object, applied. cbn [store_map]. rewrite lookup_foldr_delete.
  case_decide; [done|].
  assert (Hl : ∀ l : list Object, (list_to_map (entries l) : gmap Address Object) !! a =
    find_first (λ o, bool_decide (obj_address o = a)) l).
  { induction l as [|o l IH]; cbn -[entries]; [apply lookup_empty|].
    unfold entries. cbn [fmap list_fmap list_to_map foldr]. case_bool_decide as Heq.
    - rewrite <-Heq. apply lookup_insert_eq.
    - rewrite lookup_insert_ne by done. apply IH. }
  assert (Hr : reverse (entries (res_changed r)) = entries (reverse (res_changed r)))
    by (unfold entries; by rewrite fmap_reverse).
  rewrite Hr, !lookup_union, !Hl.
  destruct (find_first _ (reverse _)), (find_first _ (res_created r)), (store_map s !! a); done.
Qed.

Definition touch_result : ExecutionResult :=
  result_new Success digest_ZERO [] [touch digest_ZERO coin] [].

(** Listing a store and building it again gives the same store, whatever
    the order in which the map was filled; the listing is sorted by address
    and holds exactly the stored objects, so state roots and snapshots are
    functions of the store's content. *)
Lemma store_roundtrip (s : Store) :
  wf_store s →
  with_objects (store_objects s) = s ∧
  (∀ o, o ∈ store_objects s ↔ get_object s (obj_address o) = Some o) ∧
  StronglySorted (λ o o', lex_le (address_bytes (obj_address o)) (address_bytes (obj_address o')) = true)
    (store_objects s).
Proof.
  intros Hwf. split_and!; [by apply with_objects_store_objects| |by apply store_objects_sorted].
  intros o. rewrite elem_of_store_objects. split; [|by eauto].
  intros [a Ha]. by rewrite (Hwf a o Ha).
Qed.

(** [get_objects] lists exactly the stored objects an address owns. *)
Lemma get_objects_owned (s : Store) (owner : Address) (o : Object) :
  o ∈ get_objects s owner ↔ obj_owner o = OwnerAddress owner ∧ ∃ a, get_object s a = Some o.
Proof.
  unfold get_objects. rewrite list_elem_of_filter, elem_of_store_objects.
  destruct (obj_owner o); simpl; naive_solver.
Qed.

(** ** The pool *)
Section pool.
Context `{Crypto}.

(** Every pool the node can reach, by any sequence of submissions,
    revalidations and drains, remembers exactly the digests of its pending
    transactions, holds no transaction twice, stays within its capacity and
    holds only transactions that pass validation. *)
Lemma mempool_invariant mp : rtc mempool_step mempool_empty mp → wf_mempool mp.
Proof. apply mempool_reachable_wf. Qed.

Lemma validate_inputs_returns args store : no_panic (validate_inputs args store).
Proof.
  induction args as [|[r|] args IH]; simpl; [done| |done].
  apply no_panic_bind; [|done]. unfold validate_object_ref.
  apply no_panic_bind; [apply no_panic_ok_or|intros ? _].
  apply no_panic_bind; intros; apply no_panic_guard.
Qed.

Lemma validate_against_store_returns t store : no_panic (validate_against_store t store).
Proof.
  unfold validate_against_store. apply no_panic_bind.
  - unfold validate_object_ref. apply no_panic_bind; [apply no_panic_ok_or|intros ? _].
    apply no_panic_bind; intros; apply no_panic_guard.
  - intros ? _. destruct (tx_type t); [apply validate_inputs_returns|done].
Qed.

Lemma submit_returns mp s store : no_panic (submit mp s store).
Proof.
  unfold submit. apply no_panic_bind; [apply no_panic_map_err, validate_signed_returns|intros ? _].
  do 2 (apply no_panic_bind; [apply no_panic_guard|intros ? _]).
  apply no_panic_bind; [apply validate_against_store_returns|done].
Qed.

(** [submit] accepts exactly the valid, unseen transactions whose object
    references are current, while there is room, and appends them to the
    queue; any other transaction is answered with an error. *)
Lemma submit_exact mp s store :
  let admissible := valid_signed s ∧ signed_digest s ∉ seen mp ∧
    length (pending mp) < MAX_MEMPOOL_SIZE ∧ current store (signed_transaction s) in
  (submit mp s store = Ok (mkMempool (pending mp ++ [s]) ({[signed_digest s]} ∪ seen mp)) ∧
    admissible) ∨
  (∃ e, submit mp s store = Err e ∧ ¬ admissible).
Proof.
  simpl. pose proof (validate_signed_Ok s) as Hok.
  pose proof (submit_returns mp s store) as Hr.
  destruct (submit mp s store) as [mp'|e| |] eqn:Hs; try done.
  - apply submit_Ok in Hs as (?%Hok & ? & ? & ? & ->). left. done.
  - right. exists e. split; [done|]. intros (?%Hok & ? & ? & ?).
    enough (submit mp s store = Ok (mkMempool (pending mp ++ [s]) ({[signed_digest s]} ∪ seen mp)))
      by congruence.
    by apply submit_Ok.
Qed.

(** [retain_valid] keeps exactly the pending transactions whose
    references are current in the given store, in their order, forgets the
    digests of the others (they can be submitted again), and a second pass
    changes nothing. *)
Lemma retain_valid_exact mp store :
  pending (retain_valid mp store) =
    filter (λ s, current store (signed_transaction s)) (pending mp) ∧
  (∀ d, d ∈ seen (retain_valid mp store) ↔ d ∈ digests (pending (retain_valid mp store))) ∧
  retain_valid (retain_valid mp store) store = retain_valid mp store.
Proof.
  rewrite !retain_valid_spec. simpl. split_and!; [done| |].
  - intros d. apply elem_of_list_to_set.
  - assert (Hff : ∀ l : list SignedTransaction,
      filter (λ s, current store (signed_transaction s))
        (filter (λ s, current store (signed_transaction s)) l) =
      filter (λ s, current store (signed_transaction s)) l).
    { intros l. rewrite list_filter_filter. apply list_filter_iff. naive_solver. }
    by rewrite Hff.
Qed.

(** C33: No pending transaction starves.  In any run of the pool, with
    submissions, revalidations and batches in any order, a transaction that
    has [i] transactions before it is in a batch as soon as the batches have
    room for more than [i], unless a revalidation dropped it because an object
    it refers to was no longer as it says. *)
Theorem pending_is_drained mp evs mp' i s :
  pool_run mp evs mp' → pending mp !! i = Some s → i < drain_room evs →
  (∃ limit batch, Drained limit batch ∈ evs ∧ s ∈ batch) ∨
  (∃ store, Retained store ∈ evs ∧ ¬ current store (signed_transaction s)).
Proof. apply pool_run_advances. Qed.

(** [drain_batch] takes transactions in the order of submission: the
    batch is the front of the queue, as long as the limit and the queue
    allow, the rest stays, and exactly the drained digests are forgotten. *)
Lemma drain_batch_fifo mp limit batch mp' :
  wf_mempool mp → drain_batch mp limit = (batch, mp') →
  batch ++ pending mp' = pending mp ∧ length batch = Nat.min limit (length (pending mp)) ∧
  wf_mempool mp' ∧ (∀ d, d ∈ seen mp' ↔ d ∈ seen mp ∧ d ∉ digests batch).
Proof.
  intros Hwf Hd. pose proof (drain_batch_wf mp limit Hwf) as Hwf'. rewrite Hd in Hwf'.
  unfold drain_batch in Hd. simplify_eq. simpl. split_and!; [apply take_drop| |done|].
  - rewrite length_take. lia.
  - intros d. rewrite remove_digests_spec, elem_of_difference, elem_of_list_to_set. done.
Qed.
End pool.

Lemma pending_is_drained_witness :
  (∃ limit batch, Drained limit batch ∈ [Drained 3 [spend coin]] ∧ spend coin ∈ batch) ∨
  (∃ store, Retained store ∈ [Drained 3 [spend coin]] ∧
     ¬ current store (signed_transaction (spend coin))).
Proof.
  apply (pending_is_drained (mempool miner0_full) _ mempool_empty 0).
  - apply run_drain with mempool_empty; [vm_compute; reflexivity|apply run_nil].
  - vm_compute. reflexivity.
  - apply Nat.lt_0_succ.
Defined.
