(* ===== verification/ChainCorrect.v ===== *)
(** * Correctness of the chain: acceptance, fork choice, pruning, proof of work *)

From S2P Require Import Prelude Address VmTypes ChainTypes Framework Context Validator Store.
From S2P Require Import Mempool Chain.
From S2P Require Import ChainProps Miner MinerProps NodeExamples.

(** ** Proof of work *)

(** A byte string as a big-endian number. *)
Definition be_value (bs : list Z) : Z := foldl (λ acc b, acc * 256 + b)%Z 0%Z bs.

Lemma be_value_acc bs acc :
  foldl (λ acc b, acc * 256 + b)%Z acc bs = (acc * 256 ^ Z.of_nat (length bs) + be_value bs)%Z.
Proof.
  unfold be_value. revert acc. induction bs as [|b bs IH]; intros acc; cbn [foldl length]; [lia|].
  rewrite IH, (IH (0 * 256 + b)%Z), Nat2Z.inj_succ, Z.pow_succ_r by lia. ring.
Qed.
Lemma be_value_cons b bs :
  be_value (b :: bs) = (b * 256 ^ Z.of_nat (length bs) + be_value bs)%Z.
Proof. unfold be_value at 1. cbn [foldl]. by rewrite be_value_acc. Qed.

Lemma be_value_bound bs :
  Forall is_byte bs → (0 ≤ be_value bs < 256 ^ Z.of_nat (length bs))%Z.
Proof.
  induction 1 as [|b bs Hb _ IH]; [done|].
  rewrite be_value_cons. cbn [length]. rewrite Nat2Z.inj_succ, Z.pow_succ_r by lia.
  unfold is_byte in Hb. nia.
Qed.

Lemma pow_256 n : (256 ^ Z.of_nat n = 2 ^ (8 * Z.of_nat n))%Z.
Proof. by rewrite Z.pow_mul_r by lia. Qed.

(** The leading zeros of a byte: [k] of them exactly when the byte is below [2^(8-k)]. *)
Lemma u8_leading_zeros_spec b k :
  is_byte b → (0 ≤ k ≤ 8)%Z → (k ≤ u8_leading_zeros b)%Z ↔ (b < 2 ^ (8 - k))%Z.
Proof.
  intros Hb Hk. unfold is_byte in Hb. unfold u8_leading_zeros.
  destruct (Z.eqb_spec b 0) as [->|Hne].
  - pose proof (Z.pow_pos_nonneg 2 (8 - k)). lia.
  - pose proof (Z.log2_lt_pow2 b (8 - k)). lia.
Qed.
Lemma u8_leading_zeros_bounds b : is_byte b → (0 ≤ u8_leading_zeros b ≤ 8)%Z.
Proof.
  intros Hb. split; [apply u8_leading_zeros_spec; unfold is_byte in *; lia|].
  unfold u8_leading_zeros. pose proof (Z.log2_nonneg b). case_match; lia.
Qed.

Lemma leading_zeros_step b bs d :
  is_byte b → Forall is_byte bs → (0 ≤ d ≤ 8 * Z.of_nat (S (length bs)))%Z →
  (∀ k, 0 ≤ k ≤ 8 * Z.of_nat (length bs) →
    k ≤ leading_zeros bs ↔ be_value bs < 2 ^ (8 * Z.of_nat (length bs) - k))%Z →
  (d ≤ leading_zeros (b :: bs) ↔ be_value (b :: bs) < 2 ^ (8 * Z.of_nat (S (length bs)) - d))%Z.
Proof.
  intros Hb Hbs Hd IH. rewrite be_value_cons, pow_256. cbn [leading_zeros].
  pose proof (be_value_bound bs Hbs) as Hv. rewrite pow_256 in Hv.
  set (n := Z.of_nat (length bs)) in *. set (P := (2 ^ (8 * n))%Z) in *.
  assert (0 < P)%Z by (apply Z.pow_pos_nonneg; lia).
  pose proof (u8_leading_zeros_bounds b Hb).
  destruct (decide (d ≤ 8)%Z) as [Hle|Hgt].
  - replace (8 * Z.of_nat (S (length bs)) - d)%Z with ((8 - d) + 8 * n)%Z by lia.
    rewrite Z.pow_add_r by lia. fold P.
    pose proof (u8_leading_zeros_spec b d Hb ltac:(lia)) as Hs.
    assert (Hlz : (0 ≤ leading_zeros bs)%Z) by (apply IH; lia || (rewrite Z.sub_0_r; lia)).
    destruct (Z.ltb_spec (u8_leading_zeros b) 8); [rewrite Hs|];
      pose proof (Z.pow_pos_nonneg 2 (8 - d)); [nia|].
    assert (b < 2 ^ (8 - d))%Z by (apply Hs; lia). nia.
  - assert (Hz : (u8_leading_zeros b < 8 ∨ b = 0)%Z).
    { destruct (decide (b = 0)%Z); [by right|left]. unfold u8_leading_zeros.
      destruct (Z.eqb_spec b 0); [done|]. pose proof (Z.log2_nonneg b). lia. }
    destruct Hz as [Hlt | ->].
    + rewrite (proj2 (Z.ltb_lt _ _)) by done.
      assert (b ≠ 0)%Z by (intros ->; unfold u8_leading_zeros in Hlt; simpl in Hlt; lia).
      assert (2 ^ (8 * Z.of_nat (S (length bs)) - d) ≤ P)%Z by (apply Z.pow_le_mono_r; lia).
      unfold is_byte in Hb. split; [lia|nia].
    + change (u8_leading_zeros 0) with 8%Z. cbn [Z.ltb Z.compare Pos.compare Pos.compare_cont].
      specialize (IH (d - 8)%Z ltac:(lia)).
      replace (8 * n - (d - 8))%Z with (8 * Z.of_nat (S (length bs)) - d)%Z in IH by lia.
      rewrite Z.mul_0_l, Z.add_0_l. change (if (8 <? 8)%Z then 8%Z else _) with (8 + leading_zeros bs)%Z. lia.
Qed.

Lemma leading_zeros_spec bs d :
  Forall is_byte bs → (0 ≤ d ≤ 8 * Z.of_nat (length bs))%Z →
  (d ≤ leading_zeros bs ↔ be_value bs < 2 ^ (8 * Z.of_nat (length bs) - d))%Z.
Proof.
  intros Hbs. revert d. induction Hbs as [|b bs Hb Hbs IH]; intros d Hd.
  - assert (d = 0)%Z as -> by (simpl in Hd; lia). done.
  - cbn [length] in *. by apply leading_zeros_step.
Qed.

(** The difficulty test is the usual proof-of-work bound: a header meets
    difficulty [d] exactly when its mining hash, read as a big-endian number
    of [8 n] bits, is below [2^(8 n - d)]; the nonce, the parent, the
    transactions and the time enter the hash, the roots found by execution do
    not. *)
Lemma meets_difficulty_bound `{Crypto} (h : BlockHeader) (d : Z) :
  let hash := digest_bytes (mining_hash h) in
  Forall is_byte hash → (0 ≤ d ≤ 8 * Z.of_nat (length hash))%Z →
  (meets_difficulty h d = true ↔ be_value hash < 2 ^ (8 * Z.of_nat (length hash) - d))%Z ∧
  ∀ reward state, meets_difficulty (set_roots h reward state) d = meets_difficulty h d.
Proof.
  intros hash Hb Hd. split; [|done]. unfold meets_difficulty. rewrite Z.leb_le.
  by apply leading_zeros_spec.
Qed.

Definition header_example : BlockHeader := mkHeader 1 digest_ZERO digest_ZERO None digest_ZERO 200 2.

(** ** Structural checks *)
Section chain_claims.
Context `{Crypto, Executor}.
Notation block_height b := (height (block_header b)).

Lemma validate_block_structure_returns now block diff :
  in_u64 (now + MAX_BLOCK_FUTURE_DRIFT_MS) → no_panic (validate_block_structure now block diff).
Proof.
  intros Hu. unfold validate_block_structure.
  do 3 (apply no_panic_bind; [apply no_panic_guard|intros ? _]).
  rewrite (proj2 (u64_add_Ok now MAX_BLOCK_FUTURE_DRIFT_MS _)) by done. cbn [mbind outcome_bind].
  repeat (apply no_panic_bind; [apply no_panic_guard|intros ? _]). apply no_panic_guard.
Qed.

(** [validate_block_structure] accepts exactly the blocks with between 1
    and 256 distinct transactions and as many results, a reward transaction
    and its result together or not at all, a timestamp at most two minutes
    ahead of the clock, proof of work above height 0, and headers that
    commit to the transactions and to the reward; any other block is an error. *)
Lemma block_structure_exact now block diff :
  in_u64 (now + MAX_BLOCK_FUTURE_DRIFT_MS) →
  (validate_block_structure now block diff = Ok () ∧ structure_ok now block diff) ∨
  (∃ e, validate_block_structure now block diff = Err e ∧ ¬ structure_ok now block diff).
Proof.
  intros Hu. pose proof (validate_block_structure_returns now block diff Hu) as Hr.
  pose proof (validate_block_structure_Ok now block diff ()) as Hok.
  destruct (validate_block_structure now block diff) as [[]|e| |]; [left| |done..].
  - naive_solver.
  - right. exists e. split; [done|]. intros Hv. by apply Hok in Hv.
Qed.

(** ** Acceptance of blocks *)

(** C6: On a well-formed chain, [apply_block] accepts a block exactly when it
    is new, extends a known parent by one, is later than it, passes the
    structural checks, carries valid signatures, and re-executes on the
    parent's store to its own results, reward and state root.  The block and
    the store re-execution gives are then added. *)
Theorem apply_block_exact now cs block :
  wf_chain cs → (0 ≤ snapshot_depth cs)%Z →
  (∀ parent s, accepted now cs block parent s →
    ∃ r cs', apply_block now cs block = Ok (r, cs') ∧
      blocks cs' !! block_hash block = Some block ∧
      snapshots cs' !! block_hash block = Some s) ∧
  (∀ r cs', apply_block now cs block = Ok (r, cs') → ∃ parent s, accepted now cs block parent s).
Proof.
  intros Hwf Hd. split.
  - intros parent s Ha. apply wf_core in Hwf. by eapply apply_block_complete.
  - intros r cs' (parent & s & _ & Ha & _)%apply_block_inv. eauto.
Qed.

(** ** Every reachable chain *)

(** The block closes no cycle of hashes with the known blocks. *)
Definition no_orphans (cs : ChainState) (block : Block) : Prop :=
  ∀ d b, blocks cs !! d = Some b → parent_hash (block_header b) ≠ block_hash block.

(** The ways a node changes its chain: a block of a peer, a block of its own
    on top of the head, a snapshot of a peer. *)
Inductive chain_step : ChainState → ChainState → Prop :=
  | chain_apply now cs block r cs' :
      no_orphans cs block → apply_block now cs block = Ok (r, cs') → chain_step cs cs'
  | chain_commit now cs block s cs' :
      wf_store s → extends cs block → parent_hash (block_header block) = head_hash cs →
      commit (E:=ChainError.t) now cs block s = Ok cs' → chain_step cs cs'
  | chain_replace now cs h block objects cs' :
      parent_hash (block_header block) ≠ block_hash block →
      head_height (E:=ChainError.t) cs = Ok h →
      from_snapshot now h block (with_objects objects) (difficulty cs) (snapshot_depth cs) = Ok cs' →
      chain_step cs cs'.

Lemma head_height_ok {E} cs hb :
  blocks cs !! head_hash cs = Some hb → head_height (E:=E) cs = Ok (block_height hb).
Proof. unfold head_height, head_block. by intros ->. Qed.

(** One step keeps the invariant and the parameters, and never lowers the head. *)
Lemma chain_step_wf cs cs' :
  chain_step cs cs' → wf_chain cs → (0 ≤ snapshot_depth cs)%Z →
  wf_chain cs' ∧ difficulty cs' = difficulty cs ∧ snapshot_depth cs' = snapshot_depth cs ∧
  ∃ hb hb', blocks cs !! head_hash cs = Some hb ∧ blocks cs' !! head_hash cs' = Some hb' ∧
    (block_height hb ≤ block_height hb')%Z.
Proof.
  intros Hstep Hwf Hd. destruct (wf_head _ Hwf) as (hb & Hhb & Hwin).
  destruct Hstep as [now cs block r cs' Ho Ha|now cs block s cs' Hs He Hp Hc|
    now cs h block objs cs' Hne Hh Hf].
  - destruct (apply_block_wf _ _ _ _ _ Hwf Hd Ho Ha) as (? & hb1 & hb2 & s & ? & ? & ? & ? & ? & ? & ? & _).
    split_and!; try done. eauto.
  - unfold commit in Hc.
    destruct (validate_block_structure now block (difficulty cs)) as [[]| | |]; try done.
    destruct (ext_parent _ _ He) as (p & Hpp & Hpe). rewrite Hp in Hpp. simplify_eq.
    destruct (add_block_switch (E:=ChainError.t) cs block s) as (cs2 & Hpr & ? & Hhd & Hb & ? & ? & ? & _);
      try done; [intros; simplify_eq; lia|].
    unfold add_block in Hpr. rewrite Hpr in Hc. simplify_eq. split_and!; try done.
    exists hb, block. rewrite Hhd. split_and!; [done..|lia].
  - apply from_snapshot_Ok in Hf as (Hlt & _ & _ & ->).
    rewrite (head_height_ok _ hb Hhb) in Hh. simplify_eq. destruct (Hwin _ _ Hhb).
    split_and!; [|done..|].
    + apply single_chain_wf; [apply with_objects_wf|done|lia|done].
    + exists hb, block. simpl. rewrite lookup_singleton_eq. split_and!; [done..|lia].
Qed.

(** C8: Every chain a node reaches from genesis, by blocks of peers, blocks
    of its own and snapshots, keeps the invariant: blocks are filed under
    their hashes, each with its store; the head is known and the highest;
    every block is one above its known parent and within the snapshot depth
    of the head.  Over any part of the run the head's height never drops. *)
Theorem chain_reachable store diff depth cs cs' :
  wf_store store → (0 ≤ depth)%Z → block_hash block_genesis ≠ digest_ZERO →
  rtc chain_step (chain_new store diff depth) cs → rtc chain_step cs cs' →
  wf_chain cs' ∧ difficulty cs' = diff ∧ snapshot_depth cs' = depth ∧
  ∃ hb hb', blocks cs !! head_hash cs = Some hb ∧ blocks cs' !! head_hash cs' = Some hb' ∧
    (block_height hb ≤ block_height hb')%Z.
Proof.
  intros Hs Hd Hg Hr1 Hr2.
  assert (Hrun : ∀ cs1 cs2, rtc chain_step cs1 cs2 → wf_chain cs1 → (0 ≤ snapshot_depth cs1)%Z →
    wf_chain cs2 ∧ difficulty cs2 = difficulty cs1 ∧ snapshot_depth cs2 = snapshot_depth cs1 ∧
    ∃ hb hb', blocks cs1 !! head_hash cs1 = Some hb ∧ blocks cs2 !! head_hash cs2 = Some hb' ∧
      (block_height hb ≤ block_height hb')%Z).
  { clear. induction 1 as [cs|cs1 cs2 cs3 Hstep _ IH]; intros Hwf Hd.
    - destruct (wf_head _ Hwf) as (hb & ? & _). split_and!; [done..|]. exists hb, hb. auto with lia.
    - destruct (chain_step_wf _ _ Hstep Hwf Hd) as (Hwf2 & <- & Hd2 & hb & hb' & ? & ? & ?).
      destruct IH as (? & ? & ? & hb1 & hb2 & ? & ? & ?); [done|by rewrite Hd2|].
      split_and!; [done|done|congruence|]. simplify_eq. exists hb, hb2. auto with lia. }
  destruct (Hrun _ _ Hr1) as (Hwf & Hdf & Hdp & _); [by apply chain_new_wf|done|].
  destruct (Hrun _ _ Hr2) as (? & ? & ? & ?); [done|by rewrite Hdp|].
  simpl in Hdf, Hdp. split_and!; [done|congruence|congruence|done].
Qed.

(** C16: Fork choice.  An accepted block becomes the head exactly when it is
    strictly higher than the head; then the known blocks are the new block
    and the old ones within the snapshot depth of it.  Otherwise the head
    and every known block stay and the block is added. *)
Theorem fork_choice now cs block r cs' hb :
  wf_chain cs → (0 ≤ snapshot_depth cs)%Z → no_orphans cs block →
  blocks cs !! head_hash cs = Some hb → apply_block now cs block = Ok (r, cs') →
  wf_chain cs' ∧ r = bool_decide (block_height hb < block_height block)%Z ∧
  head_hash cs' = (if r then block_hash block else head_hash cs) ∧
  ∀ d b, blocks cs' !! d = Some b ↔
    if r then (d = block_hash block ∧ b = block) ∨
              (d ≠ block_hash block ∧ blocks cs !! d = Some b ∧
               in_window (block_height block) (snapshot_depth cs) b)
    else <[block_hash block := block]> (blocks cs) !! d = Some b.
Proof.
  intros Hwf Hd Ho Hhb Ha. pose proof (apply_block_wf _ _ _ _ _ Hwf Hd Ho Ha) as [Hwf' _].
  apply apply_block_inv in Ha as (parent & s & hb' & Hacc & Hhb' & Hr).
  assert (head_hash cs ≠ block_hash block) as Hne.
  { pose proof (acc_fresh _ _ _ _ _ Hacc). congruence. }
  rewrite lookup_insert_ne in Hhb' by done. simplify_eq. split; [done|].
  case_bool_decide as Hlt; destruct Hr as [-> Hr]; split_and!; try done.
  - destruct (add_block_switch (E:=ChainError.t) cs block s) as (cs2 & Hp & _ & Hhd & _);
      [done|by eapply accepted_extends|by eapply (accepted_store_wf _ cs); [apply wf_core|]|done|intros; by simplify_eq|].
    unfold add_block in *. congruence.
  - destruct (add_block_switch (E:=ChainError.t) cs block s)
      as (cs2 & Hp & _ & Hhd & Hb & _ & _ & _ & Hrest);
      [done|by eapply accepted_extends|by eapply (accepted_store_wf _ cs); [apply wf_core|]|done|intros; by simplify_eq|].
    rewrite Hp in Hr. simplify_eq. intros d b. destruct (decide (d = block_hash block)) as [->|Hd'].
    + rewrite Hb. naive_solver.
    + rewrite Hrest by done. naive_solver.
  - by subst cs'.
  - by subst cs'.
Qed.

(** C35: [commit] of a block on top of the head succeeds exactly on
    structurally valid blocks, which become the head; on any other block,
    such as one with more than 256 transactions, the node panics. *)
Theorem commit_exact now cs block s :
  wf_chain cs → (0 ≤ snapshot_depth cs)%Z → wf_store s → extends cs block →
  parent_hash (block_header block) = head_hash cs →
  (structure_ok now block (difficulty cs) → ∃ cs', commit (E:=ChainError.t) now cs block s = Ok cs' ∧
    wf_chain cs' ∧ head_hash cs' = block_hash block ∧
    blocks cs' !! block_hash block = Some block ∧ snapshots cs' !! block_hash block = Some s) ∧
  (¬ structure_ok now block (difficulty cs) →
    ∃ msg, commit (E:=ChainError.t) now cs block s = Panic msg).
Proof.
  intros Hwf Hd Hs Hext Hpar. split; [|apply commit_panics]. intros Hst.
  destruct (add_block_switch (E:=ChainError.t) cs block s) as (cs' & Hp & _); try done.
  { intros hb Hhb. destruct (ext_parent _ _ Hext) as (p & Hp & Hh). rewrite Hpar in Hp.
    simplify_eq. lia. }
  assert (Hc : commit (E:=ChainError.t) now cs block s = Ok cs').
  { unfold commit. by rewrite (proj2 (validate_block_structure_Ok _ _ _ ())). }
  exists cs'. split; [done|]. destruct (commit_wf _ _ _ _ _ Hwf Hd Hs Hext Hpar Hc) as (? & _ & ?).
  done.
Qed.

(** ** The canonical chain *)

(** On a well-formed chain [canonical_chain] terminates: it lists the
    blocks from the head down the parent links, one height at a time, to a
    block whose parent is not known. *)
Lemma canonical_chain_linear cs :
  wf_chain cs →
  ∃ l, canonical_chain cs = Some l ∧ linked_from (blocks cs) (head_hash cs) l ∧
    length l ≤ size (blocks cs) ∧ head l = blocks cs !! head_hash cs ∧
    ∀ i j b c, l !! i = Some b → l !! j = Some c →
      (block_height b + Z.of_nat i = block_height c + Z.of_nat j)%Z.
Proof.
  intros Hwf. destruct (canonical_chain_ok cs Hwf) as (l & Hc & Hl & Hlen).
  exists l. split_and!; [done..| |].
  - destruct l as [|b l]; simpl in *; [done|]. by destruct Hl as [-> _].
  - intros. eapply linked_from_heights; [apply (wf_link _ Hwf)|done..].
Qed.

(** [get_transaction] and [get_transaction_result] answer for the
    canonical chain only: what they return lies in a canonical block and has
    the digest asked for, and they return nothing only when no canonical
    block has it. *)
Lemma transaction_lookup cs d :
  wf_chain cs →
  ∃ l, canonical_chain cs = Some l ∧
    match get_transaction cs d with
    | Some tx => tx_digest (signed_transaction tx) = d ∧ ∃ b, b ∈ l ∧ tx ∈ transactions b
    | None => ∀ b tx, b ∈ l → tx ∈ transactions b → tx_digest (signed_transaction tx) ≠ d
    end ∧
    match get_transaction_result cs d with
    | Some r => res_transaction_digest r = d ∧ ∃ b, b ∈ l ∧ r ∈ results b
    | None => ∀ b r, b ∈ l → r ∈ results b → res_transaction_digest r ≠ d
    end.
Proof.
  intros Hwf. destruct (canonical_chain_ok cs Hwf) as (l & Hc & _). exists l. split; [done|].
  assert (Hfind : ∀ A (p : A → bool) (f : Block → list A),
    match find_first p (mjoin (f <$> l)) with
    | Some x => p x = true ∧ ∃ b, b ∈ l ∧ x ∈ f b
    | None => ∀ b x, b ∈ l → x ∈ f b → p x = false
    end).
  { intros A p f. destruct (find_first p _) as [x|] eqn:Hf.
    - apply find_first_Some in Hf as [Hin Hp]. split; [done|].
      apply list_elem_of_join in Hin as (xs & Hx & (b & -> & Hb)%list_elem_of_fmap). eauto.
    - intros b x Hb Hx. eapply find_first_None; [done|]. apply list_elem_of_join.
      exists (f b). split; [done|]. by apply list_elem_of_fmap_2. }
  unfold get_transaction, get_transaction_result. rewrite Hc. cbn [mbind option_bind]. split.
  - specialize (Hfind _ (λ tx, bool_decide (tx_digest (signed_transaction tx) = d)) transactions).
    case_match; [by destruct Hfind as [?%bool_decide_eq_true ?]|].
    intros b tx Hb Htx. by eapply bool_decide_eq_false, Hfind.
  - specialize (Hfind _ (λ r, bool_decide (res_transaction_digest r = d)) results).
    case_match; [by destruct Hfind as [?%bool_decide_eq_true ?]|].
    intros b r Hb Hr. by eapply bool_decide_eq_false, Hfind.
Qed.
End chain_claims.

Lemma apply_block_exact_witness : ∃ parent s, accepted 1000 (chain miner0) block1 parent s.
Proof.
  apply (proj2 (apply_block_exact 1000 (chain miner0) block1 miner0_chain_wf ltac:(done))
    (fst received1) (snd received1)).
  exact received1_eq.
Defined.

Lemma chain_reachable_witness : wf_chain (snd received1) ∧ difficulty (snd received1) = 13%Z.
Proof.
  destruct (chain_reachable (with_objects genesis_objects) 13 2
    (chain miner0) (snd received1)) as (Hwf & Hd & _).
  - apply with_objects_wf.
  - done.
  - vm_compute. done.
  - apply rtc_refl.
  - apply rtc_once. apply (chain_apply 1000 _ block1 (fst received1)).
    + exact block1_closes_no_cycle.
    + exact received1_eq.
  - split; [exact Hwf|exact Hd].
Defined.

Lemma fork_choice_witness :
  fst received1 = true ∧ head_hash (snd received1) = block_hash block1.
Proof.
  destruct (fork_choice 1000 (chain miner0) block1 (fst received1) (snd received1) block_genesis)
    as (_ & Hr & Hh & _).
  - exact miner0_chain_wf.
  - done.
  - exact block1_closes_no_cycle.
  - vm_compute. reflexivity.
  - exact received1_eq.
  - rewrite Hr in Hh |- *. exact (conj eq_refl Hh).
Defined.

Lemma commit_exact_witness :
  ∃ cs', commit (E:=ChainError.t) 1000 (chain miner0) block1 store1 = Ok cs' ∧ wf_chain cs'.
Proof.
  destruct (apply_block_inv _ _ _ _ _ received1_eq) as (parent & s & _ & Hacc & _ & _).
  assert (s = store1) as ->.
  { destruct (acc_execution _ _ _ _ _ Hacc) as (ps & Hps & Hr).
    assert (reexecute block1 (with_objects genesis_objects) = Ok store1) as Hr1
      by (vm_compute; reflexivity).
    assert (snapshots (chain miner0) !! parent_hash (block_header block1) =
      Some (with_objects genesis_objects)) as Hps1 by (vm_compute; reflexivity).
    congruence. }
  destruct (commit_exact 1000 (chain miner0) block1 store1) as [Hc _].
  - exact miner0_chain_wf.
  - done.
  - exact (accepted_store_wf _ _ _ _ _ miner0_chain_wf Hacc).
  - exact (accepted_extends _ _ _ _ _ Hacc block1_closes_no_cycle).
  - vm_compute. reflexivity.
  - destruct (Hc (acc_structure _ _ _ _ _ Hacc)) as (cs' & He & Hw & _). exists cs'.
    split; [exact He|exact Hw].
Defined.
