(* ===== verification/MinerCorrect.v ===== *)
(** * Correctness of the miner

    What a miner mines, it can commit and its peers accept, unless its clock did
    not advance; the snapshots of a miner that ran are taken over by its peers. *)

From S2P Require Import Prelude Address VmTypes ChainTypes Framework Context Validator Store.
From S2P Require Import Mempool Chain.
From S2P Require Import ChainProps Miner MinerProps NodeExamples.

Section miner_claims.
Context `{CryptoLaws, Executor}.
Notation block_height b := (height (block_header b)).

Lemma grind_mined rounds nonces w block s :
  grind (E:=ChainError.t) rounds nonces w = Ok (Some (block, s)) →
  mined w (work_header w) (batch w) block s.
Proof. apply grind_loop_mined. Qed.

(** What a miner is set up with. *)
Record sound_config (m : Miner) : Prop := {
  sc_key : miner_address m = keypair_address (keypair m);
  sc_reward : wf_address (reward_address m);
  sc_batch : batch_size m ≤ MAX_TRANSACTIONS_PER_BLOCK;
  sc_fits : ∀ n d,
    (bcs_serialized_size (make_reward_transaction (miner_address m) (reward_address m) n d) ≤
      MEOW_CALL_TRANSACTION_BCS_BYTES_MAX_SIZE)%Z;
}.

(** The work of a round suits every chain that has the miner's head, with
    the same store and difficulty, and a clock in step. *)
Lemma prepared_work_for {E} now m w m' cs parent now' :
  sound_config m → wf_mempool (mempool m) → prepare_round (E:=E) now m = Ok (Some w, m') →
  blocks (chain m) !! head_hash (chain m) = Some parent →
  blocks cs !! head_hash (chain m) = Some parent →
  snapshots cs !! head_hash (chain m) = snapshots (chain m) !! head_hash (chain m) →
  difficulty cs = difficulty (chain m) →
  (now ≤ now' + MAX_BLOCK_FUTURE_DRIFT_MS)%Z → in_u64 (now' + MAX_BLOCK_FUTURE_DRIFT_MS) →
  work_for w cs parent now'.
Proof.
  intros [Hkey Hrw Hbs Hfit] Hmp Hp Hpar Hpar' Hsnap Hdiff Hdr Hu.
  destruct (prepare_round_work _ _ _ _ Hmp Hp) as (p & Hpm & Hsm & Hph & Hht & Hhu & Hts & Hwd & _ &
    Hlen & Hnd & Hsg & Hwk & Hwa & Hwr & _).
  assert (p = parent) as -> by congruence.
  split; try (by rewrite Hlen); try (unfold reward_fits; rewrite Hwa, Hwr); congruence || done.
Qed.

(** C4: Miners and peers agree.  A block that a soundly configured miner
    grinds from a round of its own is accepted by every peer that knows the
    miner's head with the same store and difficulty, provided the miner's
    clock read more than the parent's timestamp and no more than the drift
    ahead of the peer's clock, and the block is new to the peer.  The peer
    ends up with the very store the miner computed. *)
Theorem mined_block_accepted now m w m' rounds nonces block s cs parent now' :
  sound_config m → wf_mempool (mempool m) →
  prepare_round (E:=ChainError.t) now m = Ok (Some w, m') →
  grind (E:=ChainError.t) rounds nonces w = Ok (Some (block, s)) →
  wf_chain cs → (0 ≤ snapshot_depth cs)%Z →
  blocks (chain m) !! head_hash (chain m) = Some parent →
  blocks cs !! head_hash (chain m) = Some parent →
  snapshots cs !! head_hash (chain m) = snapshots (chain m) !! head_hash (chain m) →
  difficulty cs = difficulty (chain m) →
  (timestamp (block_header parent) < now)%Z → (now ≤ now' + MAX_BLOCK_FUTURE_DRIFT_MS)%Z →
  in_u64 (now' + MAX_BLOCK_FUTURE_DRIFT_MS) →
  blocks cs !! block_hash block = None →
  ∃ r cs', apply_block now' cs block = Ok (r, cs') ∧
    blocks cs' !! block_hash block = Some block ∧ snapshots cs' !! block_hash block = Some s.
Proof.
  intros Hsc Hmp Hp Hg Hwf Hd Hpar Hpar' Hsnap Hdiff Hadv Hdr Hu Hfresh.
  eapply apply_block_complete; [by apply wf_core|done|].
  apply grind_mined in Hg. apply mined_header_fields in Hg as Hhd.
  eapply passes_accepted; [eapply mined_passes; [done|by eapply prepared_work_for|done]|done|].
  destruct (prepare_round_work _ _ _ _ Hmp Hp) as (p & _ & _ & _ & _ & _ & Hts & _).
  destruct Hhd as [_ ->]. by rewrite Hts.
Qed.

(** What a round and its grinding give, at a chain that has the miner's head. *)
Lemma round_passes now m w m0 rounds nonces block s cs parent now' :
  sound_config m → wf_mempool (mempool m) →
  prepare_round (E:=ChainError.t) now m = Ok (Some w, m0) →
  grind (E:=ChainError.t) rounds nonces w = Ok (Some (block, s)) →
  wf_chain cs → blocks (chain m) !! head_hash (chain m) = Some parent →
  blocks cs !! head_hash (chain m) = Some parent →
  snapshots cs !! head_hash (chain m) = snapshots (chain m) !! head_hash (chain m) →
  difficulty cs = difficulty (chain m) →
  (now ≤ now' + MAX_BLOCK_FUTURE_DRIFT_MS)%Z → in_u64 (now' + MAX_BLOCK_FUTURE_DRIFT_MS) →
  passes now' cs block parent s ∧ timestamp (block_header block) = now ∧
  parent_hash (block_header block) = head_hash (chain m).
Proof.
  intros Hsc Hmp Hp Hg Hwf Hpar Hpar' Hsnap Hdiff Hdr Hu. apply grind_mined in Hg.
  destruct (mined_header_fields _ _ _ Hg) as [-> ->].
  destruct (prepare_round_work _ _ _ _ Hmp Hp) as (p & _ & _ & -> & _ & _ & -> & _).
  split_and!; [|done..]. eapply mined_passes; [done|by eapply prepared_work_for|done].
Qed.

(** A block that passes on top of the head is committed. *)
Lemma passes_commit now m block s parent :
  wf_chain (chain m) → (0 ≤ snapshot_depth (chain m))%Z →
  passes now (chain m) block parent s →
  parent_hash (block_header block) = head_hash (chain m) →
  blocks (chain m) !! block_hash block = None →
  (∀ d b, blocks (chain m) !! d = Some b → parent_hash (block_header b) ≠ block_hash block) →
  ∃ m', commit_mined (E:=ChainError.t) now m block s = Ok (true, m') ∧
    wf_chain (chain m') ∧ head_hash (chain m') = block_hash block ∧
    snapshots (chain m') !! block_hash block = Some s ∧ mempool m' = mempool m.
Proof.
  intros Hwf Hd Hps Hhd Hfresh Horph. pose proof Hps as [Hpar Hst Hh _ _ _].
  unfold commit_mined. rewrite bool_decide_false by (intros Hno; by apply Hno).
  unfold commit. rewrite (proj2 (validate_block_structure_Ok _ _ _ ())) by done.
  destruct (add_block_switch (E:=ChainError.t) (chain m) block s)
    as (cs2 & Hpr & ? & ? & ? & ? & _).
  - done.
  - split; eauto.
  - by eapply passes_store_wf.
  - done.
  - intros hb Hhb. rewrite Hhd in Hpar. simplify_eq. lia.
  - unfold add_block in Hpr. rewrite Hpr. eexists. split_and!; done.
Qed.

(** C31: The miner can commit what it mined.  Let a soundly configured miner
    (its address is that of its key, the reward address is an address, the
    batch is at most the block limit, reward transactions fit) prepare and
    grind a round.  If, at commit time, the head and its store have not moved,
    the clock is not behind the clock of the round by more than the drift, and
    the block is new and no stored block names it as its parent, then
    [commit_mined] does not panic, the block becomes the head with the store
    that grinding computed, and the chain stays well formed. *)
Theorem mined_block_commits now m w m0 rounds nonces block s m1 parent now' :
  sound_config m → wf_mempool (mempool m) →
  prepare_round (E:=ChainError.t) now m = Ok (Some w, m0) →
  grind (E:=ChainError.t) rounds nonces w = Ok (Some (block, s)) →
  wf_chain (chain m1) → (0 ≤ snapshot_depth (chain m1))%Z →
  blocks (chain m) !! head_hash (chain m) = Some parent →
  head_hash (chain m1) = head_hash (chain m) →
  blocks (chain m1) !! head_hash (chain m) = Some parent →
  snapshots (chain m1) !! head_hash (chain m) = snapshots (chain m) !! head_hash (chain m) →
  difficulty (chain m1) = difficulty (chain m) →
  (now ≤ now' + MAX_BLOCK_FUTURE_DRIFT_MS)%Z → in_u64 (now' + MAX_BLOCK_FUTURE_DRIFT_MS) →
  blocks (chain m1) !! block_hash block = None →
  (∀ d b, blocks (chain m1) !! d = Some b → parent_hash (block_header b) ≠ block_hash block) →
  ∃ m2, commit_mined (E:=ChainError.t) now' m1 block s = Ok (true, m2) ∧
    wf_chain (chain m2) ∧ head_hash (chain m2) = block_hash block ∧
    snapshots (chain m2) !! block_hash block = Some s ∧ mempool m2 = mempool m1.
Proof.
  intros Hsc Hmp Hp Hg Hwf Hd Hpar Hhd Hpar' Hsnap Hdiff Hdr Hu Hfresh Horph.
  destruct (round_passes _ _ _ _ _ _ _ _ _ _ _ Hsc Hmp Hp Hg Hwf Hpar Hpar' Hsnap Hdiff Hdr Hu)
    as (Hps & _ & Hph).
  eapply passes_commit; [done..|congruence|done|done].
Qed.

(** C37: A miner does not check that its clock advanced.  If a soundly
    configured miner prepares a round when its clock reads no more than the
    timestamp of its head, and grinding finds a block, the miner itself
    commits the block on the unmoved head (under the same conditions as any
    block it mined), but every peer that has the miner's head with the same
    store and difficulty, and for which the block is new and not too far in
    the future, rejects it with [TimestampNotAdvancing]. *)
Theorem stale_clock_block_is_rejected now m w m0 rounds nonces block s parent :
  sound_config m → wf_mempool (mempool m) →
  prepare_round (E:=ChainError.t) now m = Ok (Some w, m0) →
  grind (E:=ChainError.t) rounds nonces w = Ok (Some (block, s)) →
  blocks (chain m) !! head_hash (chain m) = Some parent →
  (now ≤ timestamp (block_header parent))%Z →
  (∀ now', wf_chain (chain m) → (0 ≤ snapshot_depth (chain m))%Z →
    (now ≤ now' + MAX_BLOCK_FUTURE_DRIFT_MS)%Z → in_u64 (now' + MAX_BLOCK_FUTURE_DRIFT_MS) →
    blocks (chain m) !! block_hash block = None →
    (∀ d b, blocks (chain m) !! d = Some b → parent_hash (block_header b) ≠ block_hash block) →
    ∃ m1, commit_mined (E:=ChainError.t) now' m block s = Ok (true, m1) ∧
      head_hash (chain m1) = block_hash block) ∧
  ∀ cs now', wf_chain cs →
    blocks cs !! head_hash (chain m) = Some parent →
    snapshots cs !! head_hash (chain m) = snapshots (chain m) !! head_hash (chain m) →
    difficulty cs = difficulty (chain m) →
    (now ≤ now' + MAX_BLOCK_FUTURE_DRIFT_MS)%Z → in_u64 (now' + MAX_BLOCK_FUTURE_DRIFT_MS) →
    blocks cs !! block_hash block = None →
    apply_block now' cs block = Err ChainError.TimestampNotAdvancing.
Proof.
  intros Hsc Hmp Hp Hg Hpar Hstale. split.
  - intros now' Hwf Hd Hdr Hu Hfresh Horph.
    destruct (round_passes _ _ _ _ _ _ _ _ _ _ _ Hsc Hmp Hp Hg Hwf Hpar Hpar eq_refl eq_refl Hdr Hu)
      as (Hps & _ & Hph).
    destruct (passes_commit _ _ _ _ _ Hwf Hd Hps Hph Hfresh Horph) as (m1 & Hc & _ & Hh & _). eauto.
  - intros cs now' Hwf Hpar' Hsnap Hdiff Hdr Hu Hfresh.
    destruct (round_passes _ _ _ _ _ _ _ _ _ _ _ Hsc Hmp Hp Hg Hwf Hpar Hpar' Hsnap Hdiff Hdr Hu)
      as (Hps & Hts & _).
    eapply passes_stale; [done|done|by rewrite Hts].
Qed.

(** [grind] terminates on the work of a round: with one round per
    transaction of the batch and one more, and all the nonces in each round,
    the loops end by themselves, because every new round works on strictly
    fewer transactions.  The executor comes back because the objects of the
    store are ones it can work with. *)
Lemma grind_terminates `{!ExecutorLaws} now m w m' rounds nonces :
  admissible_store (parent_store w) → wf_mempool (mempool m) → prepare_round (E:=ChainError.t) now m = Ok (Some w, m') →
  length (batch w) < rounds → all_nonces ≤ nonces →
  grind (E:=ChainError.t) rounds nonces w ≠ NoFuel.
Proof.
  intros Hst Hmp Hp Hr Hn. apply grind_loop_finishes; [done| |done..].
  by destruct (prepare_round_work _ _ _ _ Hmp Hp) as (? & _ & _ & _ & _ & _ & _ & _ & ? & _).
Qed.

(** The nonce search returns the first nonce, from the current one on,
    that meets the difficulty, and changes nothing else in the header; it
    gives up only when none up to the largest [u64] does. *)
Lemma nonce_search_exact {E} fuel h diff :
  in_u64 (nonce h) → nonce_fuel h ≤ fuel →
  ∃ r, find_nonce (E:=E) fuel h diff = Ok r ∧
    match r with
    | Some h' => ∃ n, h' = set_nonce h n ∧ (nonce h ≤ n ≤ u64_max)%Z ∧
        meets_difficulty h' diff = true ∧
        ∀ k, (nonce h ≤ k < n)%Z → meets_difficulty (set_nonce h k) diff = false
    | None => ∀ k, (nonce h ≤ k ≤ u64_max)%Z → meets_difficulty (set_nonce h k) diff = false
    end.
Proof. apply find_nonce_spec. Qed.

(** A round starts exactly when the pool holds a full batch; it then
    takes the oldest [batch_size] transactions out of the pool, builds on the
    head (its hash, its height plus one, its store) at the current time,
    commits to the batch in the header, and leaves the chain alone.  With
    fewer transactions the miner is unchanged. *)
Lemma prepare_round_spec {E} now m parent :
  wf_mempool (mempool m) → wf_chain (chain m) →
  blocks (chain m) !! head_hash (chain m) = Some parent → in_u64 (block_height parent + 1) →
  if bool_decide (mempool_len (mempool m) < batch_size m)
  then prepare_round (E:=E) now m = Ok (None, m)
  else ∃ w m', prepare_round (E:=E) now m = Ok (Some w, m') ∧
    batch w = take (batch_size m) (pending (mempool m)) ∧
    pending (mempool m') = drop (batch_size m) (pending (mempool m)) ∧
    wf_mempool (mempool m') ∧ chain m' = chain m ∧
    snapshots (chain m) !! head_hash (chain m) = Some (parent_store w) ∧
    work_header w = mkHeader (block_height parent + 1) (head_hash (chain m))
      (compute_transactions_root (batch w)) None digest_ZERO now 0.
Proof.
  intros Hmp Hwf Hpar Hu. case_bool_decide as Hb.
  { unfold prepare_round. by rewrite bool_decide_true. }
  destruct (snapshot_of_block _ _ _ Hwf Hpar) as (ps & Hps & _).
  assert (∃ w m', prepare_round (E:=E) now m = Ok (Some w, m') ∧
    batch w = take (batch_size m) (pending (mempool m)) ∧
    pending (mempool m') = drop (batch_size m) (pending (mempool m)) ∧
    reward_root (work_header w) = None ∧ state_root (work_header w) = digest_ZERO ∧
    nonce (work_header w) = 0%Z) as (w & m' & Hp & Hbt & Hpd & Hrr & Hsr & Hn).
  { unfold prepare_round. rewrite bool_decide_false by done. unfold drain_batch, mempool_len in *.
    rewrite Nat.min_l by lia. unfold head_height, head_block, head_store. rewrite Hpar, Hps. simpl.
    rewrite (proj2 (u64_add_Ok _ _ _)) by done. simpl. do 2 eexists. by split. }
  exists w, m'. destruct (prepare_round_work _ _ _ _ Hmp Hp) as (p & Hpm & Hsm & Hph & Hht & _ & Hts &
    _ & Htr & _ & _ & _ & _ & _ & _ & Hch & Hwm & _).
  rewrite Hpar in Hpm. simplify_eq. split_and!; try done.
  destruct (work_header w); simpl in *. congruence.
Qed.

(** A block of a peer at the miner.  The pool changes only when the head
    does: it then keeps, in order, exactly the pending transactions whose
    references are current in the store of the new head; the pool stays well
    formed, and the miner's identity is untouched. *)
Lemma peer_block_at_miner now m block r m' :
  wf_chain (chain m) → (0 ≤ snapshot_depth (chain m))%Z → wf_mempool (mempool m) →
  (∀ d b, blocks (chain m) !! d = Some b → parent_hash (block_header b) ≠ block_hash block) →
  miner_apply_block now m block = Ok (r, m') →
  apply_block now (chain m) block = Ok (r, chain m') ∧
  wf_chain (chain m') ∧ wf_mempool (mempool m') ∧
  keypair m' = keypair m ∧ miner_address m' = miner_address m ∧
  if r then ∃ s, snapshots (chain m') !! block_hash block = Some s ∧
    head_hash (chain m') = block_hash block ∧
    pending (mempool m') = filter (λ tx, current s (signed_transaction tx)) (pending (mempool m))
  else mempool m' = mempool m.
Proof.
  intros Hwf Hd Hmp Ho Hm. unfold miner_apply_block in Hm.
  apply bind_Ok in Hm as ([r' cs'] & Ha%map_err_Ok & Hm).
  destruct (apply_block_wf _ _ _ _ _ Hwf Hd Ho Ha) as (Hwf' & hb & hb' & s & _ & Hhd & _ & Hs & _ & _ & _ & Hr).
  destruct r'; cbn [chain set_chain] in Hm.
  - apply bind_Ok in Hm as (st & Hst%expect_Ok & Hm). simplify_eq. destruct Hr as [-> _].
    cbn [chain set_chain set_mempool mempool keypair miner_address].
    assert (head_hash cs' = block_hash block) as Hhh.
    { symmetry. by apply (wf_hash _ Hwf'). }
    split_and!; try done; [by apply retain_valid_wf|].
    exists s. split_and!; [done..|]. rewrite Hhh in Hst. rewrite Hs in Hst. simplify_eq.
    by rewrite retain_valid_spec.
  - simplify_eq. by split_and!.
Qed.

(** *** The runs of a miner *)

(** A miner and the work it grinds on, if any. *)
Inductive miner_step : Miner * option MiningWork → Miner * option MiningWork → Prop :=
  | step_submit_tx m w tx m' : submit_transaction m tx = Ok m' → miner_step (m, w) (m', w)
  | step_block now m w block r m' :
      miner_apply_block now m block = Ok (r, m') → miner_step (m, w) (m', w)
  | step_replace now m w snap m' :
      replace_from_snapshot now m snap = Ok m' → miner_step (m, w) (m', w)
  | step_prepare now m w m' :
      prepare_round (E:=ChainError.t) now m = Ok (w, m') → miner_step (m, None) (m', w)
  | step_give_up m w : miner_step (m, Some w) (m, None)
  | step_commit now m w rounds nonces block s r m' :
      grind (E:=ChainError.t) rounds nonces w = Ok (Some (block, s)) →
      commit_mined (E:=ChainError.t) now m block s = Ok (r, m') → miner_step (m, Some w) (m', None).

(** Each block of a chain was checked at some time, unless it is a genesis, and
    commits to the store that is kept for it. *)
Record checked (diff : Z) (d : Digest) (b : Block) (s : Store) : Prop := {
  ck_hash : block_hash b = d;
  ck_store : wf_store s;
  ck_structure : (0 < block_height b)%Z → ∃ now, structure_ok now b diff;
  ck_root : (0 < block_height b)%Z → compute_state_root s = state_root (block_header b);
}.
Definition checked_chain (cs : ChainState) : Prop :=
  ∀ d b s, blocks cs !! d = Some b → snapshots cs !! d = Some s → checked (difficulty cs) d b s.

Lemma foldl_delete_subseteq {A} (l : list Digest) (m : gmap Digest A) :
  foldl (λ m h, delete h m) m l ⊆ m.
Proof.
  revert m. induction l as [|d l IH]; intros m; simpl; [done|].
  etrans; [apply IH|apply delete_subseteq].
Qed.
Lemma prune_subseteq {E} cs cs' :
  prune_finalized_blocks (E:=E) cs = Ok cs' →
  blocks cs' ⊆ blocks cs ∧ snapshots cs' ⊆ snapshots cs ∧ difficulty cs' = difficulty cs.
Proof.
  unfold prune_finalized_blocks. intros (b & _ & Hp)%bind_Ok.
  case_bool_decide; simplify_eq/=; [done|]. split_and!; [apply foldl_delete_subseteq..|done].
Qed.
Lemma checked_subseteq cs cs' :
  checked_chain cs → blocks cs' ⊆ blocks cs → snapshots cs' ⊆ snapshots cs →
  difficulty cs' = difficulty cs → checked_chain cs'.
Proof.
  intros Hc Hb Hs Hdf d b s Hd Hds. rewrite Hdf. apply Hc; by eapply lookup_weaken.
Qed.
Lemma checked_insert cs block s h :
  checked_chain cs → checked (difficulty cs) (block_hash block) block s →
  checked_chain (add_block cs block s h).
Proof.
  intros Hc Hck d b s'. simpl. destruct (decide (d = block_hash block)) as [->|Hd].
  - rewrite !lookup_insert_eq. by intros [= <-] [= <-].
  - rewrite !lookup_insert_ne by done. apply Hc.
Qed.

Lemma apply_block_checked now cs block r cs' :
  checked_chain cs → apply_block now cs block = Ok (r, cs') → checked_chain cs'.
Proof.
  intros Hc (parent & s & hb & [Hf Hp Hst _ _ _ _ (ps & Hps & Hr)] & _ & Hb)%apply_block_inv.
  assert (checked (difficulty cs) (block_hash block) block s) as Hck.
  { split; [done| |by eauto|by intros _; apply reexecute_Ok in Hr as (? & _ & _ & ?)].
    eapply reexecute_wf; [|done]. by eapply ck_store, Hc. }
  case_bool_decide; destruct Hb as [-> Hb].
  - apply prune_subseteq in Hb as (H1' & H2' & H3').
    eapply checked_subseteq; [by apply (checked_insert cs block s (block_hash block))|done..].
  - subst cs'. by apply checked_insert.
Qed.

(** The store of a block that was ground is well formed, and the block commits
    to it. *)
Lemma mined_store_wf w block s :
  wf_store (parent_store w) → mined w (work_header w) (batch w) block s → wf_store s.
Proof.
  intros Hwf [_ _ _ _ (s0 & Hall & Hmr) _ _].
  destruct (execute_all_wf _ _ _ _ _ Hwf Hall) as [Hs0 _]. unfold make_reward in Hmr.
  apply bind_Ok in Hmr as (gas & _ & Hmr). case_bool_decide; [|by simplify_eq].
  destruct (execute_reward_transaction _ _); try done.
  apply bind_Ok in Hmr as (s1 & Ha & Hmr). simplify_eq.
  apply apply_execution_result_inv in Ha as [_ ->]. by apply applied_wf.
Qed.
Lemma commit_mined_checked now m w rounds nonces block s r m' :
  checked_chain (chain m) → wf_store (parent_store w) →
  grind (E:=ChainError.t) rounds nonces w = Ok (Some (block, s)) →
  commit_mined (E:=ChainError.t) now m block s = Ok (r, m') → checked_chain (chain m').
Proof.
  intros Hc Hw Hg%grind_mined. unfold commit_mined. case_bool_decide; [by intros [= _ <-]|].
  intros (cs & Hcm & [= _ <-])%bind_Ok. simpl. unfold commit in Hcm.
  destruct (validate_block_structure now block (difficulty (chain m))) as [[]| | |] eqn:Hv; try done.
  apply validate_block_structure_Ok in Hv. apply prune_subseteq in Hcm as (H1' & H2' & H3').
  eapply checked_subseteq; [|done..]. apply (checked_insert (chain m) block s (block_hash block)); [done|].
  split; [done|by eapply mined_store_wf|by eauto|].
  intros _. by rewrite (mined_state_root _ _ _ _ _ Hg).
Qed.

(** What holds in a run, and the parameters it keeps. *)
Definition run_ok (diff : Z) (p : Miner * option MiningWork) : Prop :=
  checked_chain (chain (fst p)) ∧ difficulty (chain (fst p)) = diff ∧
  ∀ w, snd p = Some w → wf_store (parent_store w).
Lemma apply_block_difficulty now cs block r cs' :
  apply_block now cs block = Ok (r, cs') → difficulty cs' = difficulty cs.
Proof.
  intros (parent & s & hb & _ & _ & Hb)%apply_block_inv. case_bool_decide; destruct Hb as [-> Hb].
  - by apply prune_subseteq in Hb as (_ & _ & ->).
  - by subst cs'.
Qed.
Lemma miner_step_ok diff p p' : miner_step p p' → run_ok diff p → run_ok diff p'.
Proof.
  intros Hstep (Hc & Hd & Hw). unfold run_ok.
  destruct Hstep as [m w tx m' Hs|now m w block r m' Hs|now m w snap m' Hs|now m w m' Hs|m w|
    now m w rounds nonces block s r m' Hg Hs]; simpl in *.
  - apply bind_Ok in Hs as (st & _ & Hs). apply bind_Ok in Hs as (mp & _ & [= <-]). done.
  - unfold miner_apply_block in Hs. apply bind_Ok in Hs as ([r' cs'] & Ha%map_err_Ok & Hs).
    assert (chain m' = cs') as ->.
    { destruct r'; [apply bind_Ok in Hs as (? & _ & Hs)|]; by simplify_eq. }
    split_and!; [by eapply apply_block_checked|by rewrite (apply_block_difficulty _ _ _ _ _ Ha)|done].
  - apply bind_Ok in Hs as (h & _ & Hs). apply bind_Ok in Hs as (cs & Hs%map_err_Ok & [= <-]).
    apply from_snapshot_Ok in Hs as (_ & Hst & Hroot & ->). simpl. split_and!; [|done..].
    intros d b s; cbn [blocks snapshots].
    intros [<- <-]%lookup_singleton_Some [_ <-]%lookup_singleton_Some.
    split; [done|apply with_objects_wf|by eauto|done].
  - unfold prepare_round in Hs. case_bool_decide; [by simplify_eq|].
    destruct (drain_batch _ _) as [bt mp]. apply bind_Ok in Hs as (h & Hh & Hs).
    apply bind_Ok in Hs as (h' & _ & Hs). apply bind_Ok in Hs as (ps & Hps%expect_Ok & Hs).
    unfold head_height, head_block in Hh. apply bind_Ok in Hh as (b & Hb%expect_Ok & _).
    simplify_eq. split_and!; [done..|]. intros w' [= <-]. simpl. by eapply ck_store, Hc.
  - done.
  - split_and!; [by eapply commit_mined_checked; [|apply Hw|..]| |done].
    unfold commit_mined in Hs. case_bool_decide; [by simplify_eq|].
    apply bind_Ok in Hs as (cs & Hcm & [= _ <-]). simpl. unfold commit in Hcm.
    destruct (validate_block_structure _ _ _); try done. by apply prune_subseteq in Hcm as (_ & _ & ->).
Qed.

Lemma miner_run_ok diff p p' : rtc miner_step p p' → run_ok diff p → run_ok diff p'.
Proof. induction 1 as [|p1 p2 p3 Hs _ IH]; [done|]. intros Hok. by eapply IH, miner_step_ok. Qed.

(** A structurally valid block stays valid while the clock allows it. *)
Lemma structure_ok_clock now now' b diff :
  structure_ok now b diff → in_u64 (now' + MAX_BLOCK_FUTURE_DRIFT_MS) →
  (timestamp (block_header b) ≤ now' + MAX_BLOCK_FUTURE_DRIFT_MS)%Z → structure_ok now' b diff.
Proof. intros [] ? ?. by split. Qed.

(** C34: Synchronisation.  Take a node that was started with a store and a
    configuration and ran in any way: transactions submitted, blocks of peers
    applied, rounds prepared, abandoned or mined and committed, snapshots
    taken over.  The snapshot it serves rebuilds the same head with the same
    store at every node with a lower head and the same difficulty, unless the
    timestamp of the head is further ahead of the receiver's clock than the
    drift; the receiver's pool is emptied and its key stays.  That the head
    passes the structural checks and commits to its store is proved of the
    run. *)
Theorem snapshot_sync store cfg m w hb s now m2 h2 :
  wf_store store → rtc miner_step (miner_with_store store cfg, None) (m, w) →
  head_block (E:=ChainError.t) (chain m) = Ok hb → head_store (E:=ChainError.t) (chain m) = Ok s →
  head_height (E:=MinerError.t ExecutorError) (chain m2) = Ok h2 → (0 ≤ h2 < block_height hb)%Z →
  difficulty (chain m2) = cfg_difficulty cfg →
  (timestamp (block_header hb) ≤ now + MAX_BLOCK_FUTURE_DRIFT_MS)%Z →
  in_u64 (now + MAX_BLOCK_FUTURE_DRIFT_MS) →
  ∃ snap m2', get_state_snapshot (E:=ChainError.t) m = Ok snap ∧
    replace_from_snapshot now m2 snap = Ok m2' ∧
    head_hash (chain m2') = head_hash (chain m) ∧
    head_block (E:=ChainError.t) (chain m2') = Ok hb ∧
    head_store (E:=ChainError.t) (chain m2') = Ok s ∧
    mempool m2' = mempool_empty ∧ keypair m2' = keypair m2.
Proof.
  intros Hst Hrun Hhb%expect_Ok Hs%expect_Ok Hh2 Hlt Hdiff Hts Hu.
  assert (run_ok (cfg_difficulty cfg) (m, w)) as (Hc & Hd & _).
  { eapply miner_run_ok; [exact Hrun|]. split_and!; [|done..]. intros d b s'. cbn.
    intros [<- <-]%lookup_singleton_Some [_ <-]%lookup_singleton_Some. by split. }
  destruct (Hc _ _ _ Hhb Hs) as [Hhash Hwf [now0 Hok] Hroot]; [lia|]. simpl in Hd, Hhash.
  exists (mkSnapshot hb (store_objects s)). unfold get_state_snapshot, head_block, head_store.
  rewrite Hhb, Hs. unfold replace_from_snapshot. rewrite Hh2.
  cbn [snap_head snap_objects mbind outcome_bind].
  rewrite with_objects_store_objects by done.
  assert (structure_ok now hb (difficulty (chain m2))) as Hok'.
  { rewrite Hdiff, <-Hd. by eapply structure_ok_clock. }
  rewrite (proj2 (from_snapshot_Ok _ _ _ _ _ _ _))
    by (split_and!; [apply Hlt|exact Hok'|apply Hroot; lia|reflexivity]).
  eexists. split; [done|]. split; [done|].
  cbn [chain set_chain set_mempool blocks snapshots head_hash mempool keypair].
  rewrite Hhash, !lookup_singleton_eq. done.
Qed.
End miner_claims.

(** ** The example miner *)
Lemma miner0_sound : sound_config miner0_full.
Proof.
  split.
  - vm_compute. reflexivity.
  - apply (bool_decide_unpack _). vm_compute. exact I.
  - vm_compute. lia.
  - intros n d. vm_compute. done.
Qed.
Lemma miner0_pool : wf_mempool (mempool miner0_full).
Proof.
  apply mempool_reachable_wf, rtc_once.
  apply (step_submit _ (spend coin) (with_objects genesis_objects)). vm_compute. reflexivity.
Qed.
Lemma work1_eq : prepare_round (E:=ChainError.t) 1000 miner0_full = Ok (Some work1, snd prepared1).
Proof. vm_compute. reflexivity. Qed.
Lemma block1_eq : grind (E:=ChainError.t) 4 4 work1 = Ok (Some (block1, store1)).
Proof. vm_compute. reflexivity. Qed.

Lemma mined_block_accepted_witness :
  ∃ r cs', apply_block 900 (chain miner0) block1 = Ok (r, cs') ∧
    blocks cs' !! block_hash block1 = Some block1 ∧ snapshots cs' !! block_hash block1 = Some store1.
Proof.
  apply (mined_block_accepted 1000 miner0_full work1 (snd prepared1) 4 4 block1 store1
    (chain miner0) block_genesis 900).
  - exact miner0_sound.
  - exact miner0_pool.
  - exact work1_eq.
  - exact block1_eq.
  - exact miner0_chain_wf.
  - done.
  - vm_compute. reflexivity.
  - vm_compute. reflexivity.
  - vm_compute. reflexivity.
  - vm_compute. reflexivity.
  - vm_compute. reflexivity.
  - vm_compute. done.
  - vm_compute. done.
  - vm_compute. reflexivity.
Defined.

Lemma mined_block_commits_witness :
  ∃ m2, commit_mined (E:=ChainError.t) 1000 miner0_full block1 store1 = Ok (true, m2) ∧
    wf_chain (chain m2) ∧ head_hash (chain m2) = block_hash block1.
Proof.
  destruct (mined_block_commits 1000 miner0_full work1 (snd prepared1) 4 4 block1 store1
    miner0_full block_genesis 1000) as (m2 & Hc & Hw & Hh & _).
  - exact miner0_sound.
  - exact miner0_pool.
  - exact work1_eq.
  - exact block1_eq.
  - exact miner0_chain_wf.
  - done.
  - vm_compute. reflexivity.
  - reflexivity.
  - vm_compute. reflexivity.
  - reflexivity.
  - reflexivity.
  - vm_compute. done.
  - vm_compute. done.
  - vm_compute. reflexivity.
  - exact block1_closes_no_cycle.
  - exists m2. split; [exact Hc|split; [exact Hw|exact Hh]].
Defined.

Lemma miner_received1_ok : is_ok (miner_apply_block 1000 miner0_full block1) = true.
Proof. vm_compute. reflexivity. Qed.
Definition miner_received1 : bool * Miner := ok_value _ miner_received1_ok.
Lemma miner_received1_eq :
  miner_apply_block 1000 miner0_full block1 = Ok (fst miner_received1, snd miner_received1).
Proof. rewrite <-surjective_pairing. apply ok_value_eq. Qed.

Lemma received1_wf : wf_chain (snd received1).
Proof.
  apply (apply_block_wf 1000 (chain miner0) block1 (fst received1) (snd received1)).
  - exact miner0_chain_wf.
  - done.
  - exact block1_closes_no_cycle.
  - exact received1_eq.
Qed.

(** The miner mines its first block, and another one takes its snapshot over. *)
Lemma mined1_run :
  rtc miner_step (miner_with_store (with_objects genesis_objects) config, None)
    (miner1, None).
Proof.
  eapply rtc_l; [apply (step_submit_tx _ _ (spend coin) miner0_full); vm_compute; reflexivity|].
  eapply rtc_l; [apply (step_prepare 1000 _ (Some work1) (snd prepared1)); vm_compute; reflexivity|].
  apply rtc_once. apply (step_commit 1000 _ _ 4 4 block1 store1 true).
  - exact block1_eq.
  - vm_compute. reflexivity.
Qed.
Lemma snapshot_sync_witness :
  ∃ snap m2', get_state_snapshot (E:=ChainError.t) miner1 = Ok snap ∧
    replace_from_snapshot 900 miner0 snap = Ok m2' ∧ head_hash (chain m2') = block_hash block1.
Proof.
  destruct (snapshot_sync (with_objects genesis_objects) config miner1 None block1 store1 900 miner0 0)
    as (snap & m2' & Hg & Hr & Hh & _).
  - apply with_objects_wf.
  - exact mined1_run.
  - vm_compute. reflexivity.
  - vm_compute. reflexivity.
  - vm_compute. reflexivity.
  - vm_compute. split; [discriminate|reflexivity].
  - reflexivity.
  - vm_compute. discriminate.
  - vm_compute. split; discriminate.
  - exists snap, m2'. split; [exact Hg|split; [exact Hr|]]. rewrite Hh. vm_compute. reflexivity.
Defined.

(** The next round of the miner, whose head has timestamp 1000, at clock 900. *)
Lemma prepared2_ok : is_ok (prepare_round (E:=ChainError.t) 900 miner1_full) = true.
Proof. vm_compute. reflexivity. Qed.
Definition prepared2 : option MiningWork * Miner := ok_value _ prepared2_ok.
Lemma work2_ok : is_some (fst prepared2) = true.
Proof. vm_compute. reflexivity. Qed.
Definition work2 : MiningWork := some_value _ work2_ok.
Lemma mined2_ok : is_ok (grind (E:=ChainError.t) 4 4 work2) = true.
Proof. vm_compute. reflexivity. Qed.
Definition mined2 : option (Block * Store) := ok_value _ mined2_ok.
Lemma found2_ok : is_some mined2 = true.
Proof. vm_compute. reflexivity. Qed.
Definition block2 : Block := fst (some_value _ found2_ok).
Definition store2 : Store := snd (some_value _ found2_ok).

Lemma miner1_sound : sound_config miner1_full.
Proof.
  split.
  - vm_compute. reflexivity.
  - apply (bool_decide_unpack _). vm_compute. exact I.
  - vm_compute. lia.
  - intros n d. vm_compute. done.
Qed.
Lemma miner1_pool : wf_mempool (mempool miner1_full).
Proof.
  apply mempool_reachable_wf, rtc_once.
  apply (step_submit _ (spend coin1) store1). vm_compute. reflexivity.
Qed.

Lemma chain1_eq : chain miner1_full = snd received1.
Proof. vm_compute. reflexivity. Qed.
Lemma block2_closes_no_cycle :
  map_Forall (λ _ b, parent_hash (block_header b) ≠ block_hash block2) (blocks (chain miner1_full)).
Proof. apply (bool_decide_unpack _). vm_compute. exact I. Qed.

(** The miner commits the block, and a peer with the same chain refuses it. *)
Lemma stale_clock_block_is_rejected_witness :
  (∃ m1, commit_mined (E:=ChainError.t) 900 miner1_full block2 store2 = Ok (true, m1) ∧
    head_hash (chain m1) = block_hash block2) ∧
  apply_block 900 (snd received1) block2 = Err ChainError.TimestampNotAdvancing.
Proof.
  destruct (stale_clock_block_is_rejected 900 miner1_full work2 (snd prepared2) 4 4 block2 store2
    block1) as [Hcommit Hpeer].
  - exact miner1_sound.
  - exact miner1_pool.
  - vm_compute. reflexivity.
  - vm_compute. reflexivity.
  - vm_compute. reflexivity.
  - vm_compute. discriminate.
  - split.
    + apply Hcommit.
      * rewrite chain1_eq. exact received1_wf.
      * vm_compute. discriminate.
      * vm_compute. discriminate.
      * vm_compute. split; discriminate.
      * vm_compute. reflexivity.
      * exact block2_closes_no_cycle.
    + apply Hpeer.
      * exact received1_wf.
      * vm_compute. reflexivity.
      * vm_compute. reflexivity.
      * vm_compute. reflexivity.
      * vm_compute. discriminate.
      * vm_compute. split; discriminate.
      * vm_compute. reflexivity.
Defined.
