(* ===== verification/Http.v ===== *)
(** * HTTP, URLs and JSON

    What the node's RPC service and its client use of [axum], [reqwest], [url],
    [serde_json] and [bs58].  The body of a message is a value of a type that
    the serializer fixes; paths are texts, queries lists of pairs. *)

From S2P Require Import Prelude Text Address ChainTypes Convert.

(** ** Serialization *)

(** [Serialize] and [Deserialize] of one type, to the body of a message. *)
Class Serde (Body A : Type) := {
  serialize : A → Body;
  deserialize : Body → option A;
}.
Arguments serialize {Body A _} a : simpl never.
Arguments deserialize {Body A _} b : simpl never.
Class SerdeLaw (Body A : Type) `{Serde Body A} : Prop :=
  serde_roundtrip (a : A) : deserialize (serialize a) = Some a.

(** The JSON body of an error. *)
Record ErrorBody := mkErrorBody { eb_code : string; eb_message : string }.

(** [serde_json] on the types that cross the wire, and what [axum] adds:
    [body_text] is [Response::text]; [json_rejection] is the answer of the [Json]
    extractor to a body that does not decode, [path_rejection] that of the [Path]
    extractor to a segment that does not; segments are percent-decoded. *)
Class JsonLib := {
  Body : Type;
  body_empty : Body;
  body_size : Body → Z;
  body_text : Body → string;
  plain_text : string → Body;
  json_rejection : Body → Z * string;
  path_rejection : string → string;
  percent_decode : string → option string;
  json_signed :: Serde Body SignedTransaction;
  json_transaction :: Serde Body Transaction;
  json_result :: Serde Body ExecutionResult;
  json_object :: Serde Body (option Object);
  json_objects :: Serde Body (list (option Object));
  json_owned :: Serde Body (list Object);
  json_opt_signed :: Serde Body (option SignedTransaction);
  json_opt_result :: Serde Body (option ExecutionResult);
  json_opt_block :: Serde Body (option Block);
  json_opt_snapshot :: Serde Body (option StateSnapshot);
  json_digest :: Serde Body Digest;
  json_blocks :: Serde Body (list Block);
  json_snapshot :: Serde Body StateSnapshot;
  json_error :: Serde Body ErrorBody;
}.
Definition is_plain (c : ascii) : bool :=
  is_upper c || is_lower c || is_digit c || Ascii.eqb c "-" || Ascii.eqb c "_".
Class JsonLaws `{JsonLib} : Prop := {
  percent_plain s : all_chars is_plain s = true → percent_decode s = Some s;
  law_signed :: SerdeLaw Body SignedTransaction;
  law_transaction :: SerdeLaw Body Transaction;
  law_result :: SerdeLaw Body ExecutionResult;
  law_object :: SerdeLaw Body (option Object);
  law_objects :: SerdeLaw Body (list (option Object));
  law_owned :: SerdeLaw Body (list Object);
  law_opt_signed :: SerdeLaw Body (option SignedTransaction);
  law_opt_result :: SerdeLaw Body (option ExecutionResult);
  law_opt_block :: SerdeLaw Body (option Block);
  law_opt_snapshot :: SerdeLaw Body (option StateSnapshot);
  law_digest :: SerdeLaw Body Digest;
  law_blocks :: SerdeLaw Body (list Block);
  law_snapshot :: SerdeLaw Body StateSnapshot;
}.

(** [bcs] on what the node publishes; [String::from_utf8]. *)
Class WireLib := {
  bcs_signed : SignedTransaction → list Z;
  bcs_signed_decode : list Z → option SignedTransaction;
  bcs_block : Block → list Z;
  bcs_block_decode : list Z → option Block;
  from_utf8 : list Z → option string;
  as_bytes : string → list Z;
}.

(** ** Messages *)
Inductive Method := GET | HEAD | POST | OtherMethod.
Record Request `{JsonLib} := mkRequest {
  req_method : Method;
  req_path : string;
  req_query : list (string * string);
  req_body : Body;
}.
Record Response `{JsonLib} := mkResponse {
  resp_status : Z;
  resp_body : Body;
}.
Arguments mkRequest {_} _ _ _ _.
Arguments mkResponse {_} _ _.
(** [StatusCode::is_success]. *)
Definition is_success (status : Z) : bool := (200 <=? status)%Z && (status <? 300)%Z.

(** ** URLs *)
Class UrlLib := {
  Url : Type;
  url_parse : string → option Url;
  url_as_str : Url → string;
  url_path : Url → string;
  url_query : Url → list (string * string);
  url_set_path : Url → string → Url;
  url_join : Url → string → option Url;
  url_append_pair : Url → string → string → Url;
}.

(** The characters of the paths that are built here. *)
Definition is_path_char (c : ascii) : bool := is_plain c || Ascii.eqb c "/".

Fixpoint ends_with_slash (s : string) : bool :=
  match s with
  | EmptyString => false
  | String c EmptyString => Ascii.eqb c "/"
  | String _ s => ends_with_slash s
  end.
Definition starts_with_slash (s : string) : bool :=
  match s with String c _ => Ascii.eqb c "/" | EmptyString => false end.

(** Documented behaviour of [url]: a path of plain characters can be set, and a
    relative path of plain characters joined to a base path that ends with a
    slash is appended; pairs are appended to the query. *)
Class UrlLaws `{UrlLib} := {
  set_path_path u p :
    starts_with_slash (url_path u) = true → starts_with_slash p = true →
    url_path (url_set_path u p) = p;
  join_plain u s :
    starts_with_slash (url_path u) = true → ends_with_slash (url_path u) = true →
    all_chars is_path_char s = true → starts_with_slash s = false → s ≠ "" →
    ∃ u', url_join u s = Some u' ∧ url_path u' = url_path u +:+ s ∧ url_query u' = [];
  append_pair_path u k v : url_path (url_append_pair u k v) = url_path u;
  append_pair_query u k v : url_query (url_append_pair u k v) = url_query u ++ [(k, v)];
}.

(** ** Digests as texts ([Display], [FromStr]) *)
Class Base58 := {
  bs58_decode : string → option (list Z);
  bs58_error : string → string;
}.
Class Base58Laws `{Bcs, Base58} := {
  bs58_roundtrip bs : Forall is_byte bs → bs58_decode (bs58_encode bs) = Some bs;
  bs58_plain bs : Forall is_byte bs → all_chars is_plain (bs58_encode bs) = true;
  bs58_nonempty bs : bs ≠ [] → bs58_encode bs ≠ "";
}.

Module DigestParseError.
Inductive t :=
  | Base58Error (text : string)
  | InvalidDigestBytesLength (actual expected : nat).
End DigestParseError.

Section digest.
Context `{Bcs, Base58}.
(** [impl Display for Digest], [impl FromStr for Digest]. *)
Definition digest_to_string (d : Digest) : string := bs58_encode (digest_bytes d).
Definition digest_from_str (s : string) : outcome DigestParseError.t Digest :=
  bytes ← ok_or (bs58_decode s) (DigestParseError.Base58Error (bs58_error s));
  map_err (λ '(DigestError.InvalidDigestBytesLength actual expected),
             DigestParseError.InvalidDigestBytesLength actual expected) (digest_try_from bytes).

(** What the Rust type of a digest guarantees. *)
Definition wf_digest (d : Digest) : Prop :=
  length (digest_bytes d) = DIGEST_LENGTH ∧ Forall is_byte (digest_bytes d).
Lemma digest_from_to_string `{!Base58Laws} d : wf_digest d → digest_from_str (digest_to_string d) = Ok d.
Proof.
  intros [Hl Hb]. unfold digest_from_str, digest_to_string. rewrite bs58_roundtrip by done. simpl.
  unfold digest_try_from. rewrite bool_decide_true by done. by destruct d.
Qed.
End digest.
