(* ===== verification/Rpc.v ===== *)
(** * The RPC service

    Models [meow-node/src/rpc]: the handler ([rpc_handler/mod.rs]) on the shared
    miner, and the router with the endpoints ([rpc_service.rs]).  A request is
    answered in one turn, while the handler holds the lock on the miner.
    Requests are taken to name the content type [application/json]. *)

From S2P Require Import Prelude Text Address VmTypes ChainTypes Convert Framework Context.
From S2P Require Import Validator Store Mempool Chain Miner Http.

Definition MAX_GET_OBJECTS_ADDRESSES : nat := 100.
Definition MAX_REQUEST_BODY_BYTES : Z := 4 * 1024 * 1024.

(** [StatusCode]. *)
Definition OK : Z := 200.
Definition ACCEPTED : Z := 202.
Definition BAD_REQUEST : Z := 400.
Definition NOT_FOUND : Z := 404.
Definition METHOD_NOT_ALLOWED : Z := 405.
Definition CONFLICT : Z := 409.
Definition PAYLOAD_TOO_LARGE : Z := 413.
Definition SERVICE_UNAVAILABLE : Z := 503.

(** The texts of errors that other crates raise. *)
Class ErrorTexts `{Executor} := {
  prefix_hex_error : string → string;
  keypair_error : string;
  executor_error_to_string : ExecutorError → string;
}.

Section rpc.
Context `{PrefixHex, Crypto, Executor, Bcs, Base58, JsonLib, WireLib, !ErrorTexts}.
Notation MErr := (MinerError.t ExecutorError).

(** ** The handler ([rpc_handler/mod.rs]) *)

(** [RpcHandlerError] has the one variant [MinerError]. *)
Record RpcHandler := mkHandler {
  rpc_miner : Miner;
  publish_transactions_tx : list (list Z);
}.

Definition handler_submit_transaction (h : RpcHandler) (s : SignedTransaction)
  : outcome MErr RpcHandler :=
  m ← submit_transaction (rpc_miner h) s;
  Ok (mkHandler m (publish_transactions_tx h ++ [bcs_signed s])).
Definition handler_simulate_transaction (h : RpcHandler) (t : Transaction)
  : outcome MErr ExecutionResult := simulate_transaction (rpc_miner h) t.

Definition handler_get_object {E} (h : RpcHandler) (address : Address)
  : outcome E (option Object) :=
  store ← head_store (chain (rpc_miner h));
  Ok (get_object store address).
Fixpoint handler_get_objects {E} (h : RpcHandler) (addresses : list Address)
  : outcome E (list (option Object)) :=
  match addresses with
  | [] => Ok []
  | address :: addresses =>
      o ← handler_get_object h address;
      os ← handler_get_objects h addresses;
      Ok (o :: os)
  end.
Definition handler_get_objects_owned {E} (h : RpcHandler) (owner : Address)
  : outcome E (list Object) :=
  store ← head_store (chain (rpc_miner h));
  Ok (get_objects store owner).
Definition handler_get_transaction (h : RpcHandler) (d : Digest) : option SignedTransaction :=
  get_transaction (chain (rpc_miner h)) d.
Definition handler_get_transaction_result (h : RpcHandler) (d : Digest) : option ExecutionResult :=
  get_transaction_result (chain (rpc_miner h)) d.
Definition handler_get_block (h : RpcHandler) (d : Digest) : option Block :=
  get_block (chain (rpc_miner h)) d.
Definition handler_get_block_snapshot (h : RpcHandler) (d : Digest) : option StateSnapshot :=
  get_block_snapshot (chain (rpc_miner h)) d.
Definition handler_get_chain_head (h : RpcHandler) : Digest := head_hash (chain (rpc_miner h)).
Definition handler_get_blocks_since (h : RpcHandler) (height : Z) : list Block :=
  get_blocks_since (chain (rpc_miner h)) height.
Definition handler_get_state_snapshot {E} (h : RpcHandler) : outcome E StateSnapshot :=
  get_state_snapshot (rpc_miner h).

(** ** Answers ([rpc_service.rs]) *)
Definition respond {A} `{Serde Body A} (a : A) : Response := mkResponse OK (serialize a).
Definition error_response (status : Z) (code message : string) : Response :=
  mkResponse status (serialize (mkErrorBody code message)).

(** [impl Display] of the errors. *)
Definition address_error_to_string (raw : string) (e : AddressError.t) : string :=
  match e with
  | AddressError.PrefixHexError => "prefix hex error: " +:+ prefix_hex_error raw
  | AddressError.InvalidLength actual expected =>
      "invalid address bytes length: actual " +:+ pretty actual +:+ ", expected " +:+ pretty expected
  end.
Definition digest_error_to_string (e : DigestParseError.t) : string :=
  match e with
  | DigestParseError.Base58Error text => "base58 error: " +:+ text
  | DigestParseError.InvalidDigestBytesLength actual expected =>
      "invalid digest bytes length: actual " +:+ pretty actual +:+ ", expected " +:+ pretty expected
  end.
Definition validation_error_to_string (e : ValidationError.t) : string :=
  match e with
  | ValidationError.AliasedCallArgument a =>
      "object " +:+ address_to_string a +:+ " appears more than once in call arguments"
  | ValidationError.GasCoinUsedAsCallArgument a =>
      "gas coin " +:+ address_to_string a +:+ " cannot be used as a call argument"
  | ValidationError.KeyPairError => "key pair error: " +:+ keypair_error
  | ValidationError.ModuleTooLarge size limit =>
      "module is too large: " +:+ pretty size +:+ " bytes (limit: " +:+ pretty limit +:+ ")"
  | ValidationError.SignerMismatch sender signer =>
      "invalid signature: signer does not match the transaction sender (sender: " +:+
      address_to_string sender +:+ ", signer: " +:+ address_to_string signer +:+ ")"
  | ValidationError.TooManyCallArguments amount limit =>
      "too many call arguments: " +:+ pretty amount +:+ " (limit: " +:+ pretty limit +:+ ")"
  | ValidationError.TransactionTooLarge size limit =>
      "transaction is too large: " +:+ pretty size +:+ " bytes (limit: " +:+ pretty limit +:+ ")"
  end.
Definition version_to_string (v : ObjectVersion) : string := pretty (version_u64 v).
Definition mempool_error_to_string (e : MempoolError.t) : string :=
  match e with
  | MempoolError.DuplicateTransaction digest =>
      "transaction already in mempool: " +:+ digest_to_string digest
  | MempoolError.InvalidObjectDigest address expected found =>
      "object " +:+ address_to_string address +:+ " has invalid digest: expected " +:+
      digest_to_string expected +:+ ", found " +:+ digest_to_string found
  | MempoolError.InvalidObjectVersion address expected found =>
      "object " +:+ address_to_string address +:+ " has invalid version: expected " +:+
      version_to_string expected +:+ ", found " +:+ version_to_string found
  | MempoolError.MempoolFull capacity =>
      "mempool is full: capacity is " +:+ pretty capacity +:+ " transactions"
  | MempoolError.ObjectNotFound address =>
      "object " +:+ address_to_string address +:+ " not found in store"
  | MempoolError.TransactionValidationError e =>
      "transaction validation error: " +:+ validation_error_to_string e
  end.

(** [mempool_error_response]. *)
Definition mempool_error_status (e : MempoolError.t) : Z * string :=
  match e with
  | MempoolError.TransactionValidationError _ => (BAD_REQUEST, "invalid_transaction")
  | MempoolError.DuplicateTransaction _ => (CONFLICT, "duplicate_transaction")
  | MempoolError.ObjectNotFound _ | MempoolError.InvalidObjectVersion _ _ _
  | MempoolError.InvalidObjectDigest _ _ _ => (BAD_REQUEST, "invalid_object_reference")
  | MempoolError.MempoolFull _ => (SERVICE_UNAVAILABLE, "mempool_full")
  end.
Definition mempool_error_response (e : MempoolError.t) : Response :=
  let '(status, code) := mempool_error_status e in
  error_response status code (mempool_error_to_string e).

(** [parse_address], [parse_digest]: the error is the answer. *)
Definition parse_address (raw : string) : outcome Response Address :=
  map_err (λ e, error_response BAD_REQUEST "invalid_address"
                  ("invalid address '" +:+ raw +:+ "': " +:+ address_error_to_string raw e))
    (address_from_str raw).
Definition parse_digest (raw : string) : outcome Response Digest :=
  map_err (λ e, error_response BAD_REQUEST "invalid_digest"
                  ("invalid digest '" +:+ raw +:+ "': " +:+ digest_error_to_string e))
    (digest_from_str raw).

(** ** The endpoints: an early return of an answer is an error *)
Definition rpc_submit_transaction (h : RpcHandler) (s : SignedTransaction)
  : outcome Response (Response * RpcHandler) :=
  match handler_submit_transaction h s with
  | Ok h => Ok (mkResponse ACCEPTED body_empty, h)
  | Err (MinerError.MempoolError e) => Err (mempool_error_response e)
  | Err (MinerError.SimulationError _) => Panic "submit_transaction never simulates"
  | Err (MinerError.ChainError _) => Panic "submit_transaction never interacts with the chain"
  | Panic msg => Panic msg
  | NoFuel => NoFuel
  end.
Definition rpc_simulate_transaction (h : RpcHandler) (t : Transaction) : outcome Response Response :=
  match handler_simulate_transaction h t with
  | Ok result => Ok (respond result)
  | Err (MinerError.MempoolError e) => Err (mempool_error_response e)
  | Err (MinerError.SimulationError e) =>
      Err (error_response BAD_REQUEST "simulation_error" (executor_error_to_string e))
  | Err (MinerError.ChainError _) => Panic "simulate_transaction never interacts with the chain"
  | Panic msg => Panic msg
  | NoFuel => NoFuel
  end.
Definition rpc_get_object (h : RpcHandler) (raw : string) : outcome Response Response :=
  address ← parse_address raw;
  o ← handler_get_object h address;
  Ok (respond o).
Fixpoint parse_addresses (raws : list string) : outcome Response (list Address) :=
  match raws with
  | [] => Ok []
  | raw :: raws => a ← parse_address raw; l ← parse_addresses raws; Ok (a :: l)
  end.
Definition rpc_get_objects (h : RpcHandler) (params : list (string * string))
  : outcome Response Response :=
  let raw_addresses := snd <$> filter (λ p, fst p = "address") params in
  guard_err (bool_decide (MAX_GET_OBJECTS_ADDRESSES < length raw_addresses))
    (error_response BAD_REQUEST "too_many_addresses"
       ("too many addresses: limit is " +:+ pretty MAX_GET_OBJECTS_ADDRESSES +:+ " per request")) ;;
  addresses ← parse_addresses raw_addresses;
  os ← handler_get_objects h addresses;
  Ok (respond os).
Definition rpc_get_objects_owned (h : RpcHandler) (raw : string) : outcome Response Response :=
  owner ← parse_address raw;
  os ← handler_get_objects_owned h owner;
  Ok (respond os).
Definition rpc_get_transaction (h : RpcHandler) (raw : string) : outcome Response Response :=
  digest ← parse_digest raw; Ok (respond (handler_get_transaction h digest)).
Definition rpc_get_transaction_result (h : RpcHandler) (raw : string) : outcome Response Response :=
  digest ← parse_digest raw; Ok (respond (handler_get_transaction_result h digest)).
Definition rpc_get_block (h : RpcHandler) (raw : string) : outcome Response Response :=
  digest ← parse_digest raw; Ok (respond (handler_get_block h digest)).
Definition rpc_get_block_snapshot (h : RpcHandler) (raw : string) : outcome Response Response :=
  digest ← parse_digest raw; Ok (respond (handler_get_block_snapshot h digest)).
Definition rpc_get_chain_head (h : RpcHandler) : outcome Response Response :=
  Ok (respond (handler_get_chain_head h)).
Definition rpc_get_blocks_since (h : RpcHandler) (raw : string) : outcome Response Response :=
  height ← ok_or (parse_u64 raw) (mkResponse BAD_REQUEST (plain_text (path_rejection raw)));
  Ok (respond (handler_get_blocks_since h height)).
Definition rpc_get_state_snapshot (h : RpcHandler) : outcome Response Response :=
  s ← handler_get_state_snapshot h; Ok (respond s).

(** ** The router *)
Inductive Endpoint :=
  | SubmitTransaction
  | SimulateTransaction
  | GetObject (addr : string)
  | GetObjects
  | GetObjectsOwned (owner : string)
  | GetTransaction (digest : string)
  | GetTransactionResult (digest : string)
  | GetBlock (digest : string)
  | GetBlockSnapshot (digest : string)
  | GetChainHead
  | GetBlocksSince (height : string)
  | GetStateSnapshot.

(** A route with one parameter: a segment that is not empty. *)
Definition segment (prefix path : string) : option string :=
  match strip_prefix prefix path with
  | Some (String c s) =>
      if all_chars (λ c, negb (Ascii.eqb c "/")) (String c s) then Some (String c s) else None
  | _ => None
  end.
Definition routes : list (string → option Endpoint) :=
  let exact (p : string) (e : Endpoint) (path : string) :=
    if String.eqb p path then Some e else None in
  [exact "/submit-transaction" SubmitTransaction;
   exact "/simulate-transaction" SimulateTransaction;
   λ path, GetObject <$> segment "/object/" path;
   exact "/objects" GetObjects;
   λ path, GetObjectsOwned <$> segment "/objects_owned/" path;
   λ path, GetTransaction <$> segment "/transaction/" path;
   λ path, GetTransactionResult <$> segment "/transaction-result/" path;
   λ path, GetBlock <$> segment "/block/" path;
   λ path, GetBlockSnapshot <$> segment "/block-snapshot/" path;
   exact "/chain-head" GetChainHead;
   λ path, GetBlocksSince <$> segment "/blocks-since/" path;
   exact "/state-snapshot" GetStateSnapshot].
Definition route (path : string) : option Endpoint := head (omap (λ r, r path) routes).

(** [post] routes take [POST], [get] routes [GET] and [HEAD]. *)
Definition is_post (e : Endpoint) : bool :=
  match e with SubmitTransaction | SimulateTransaction => true | _ => false end.
Definition allowed (e : Endpoint) (method : Method) : bool :=
  match method with
  | POST => is_post e
  | GET | HEAD => negb (is_post e)
  | OtherMethod => false
  end.

(** The extractors [Json] (with [DefaultBodyLimit]) and [Path]. *)
Definition extract_json {A} `{Serde Body A} (body : Body) : outcome Response A :=
  guard_err (bool_decide (MAX_REQUEST_BODY_BYTES < body_size body)%Z)
    (mkResponse PAYLOAD_TOO_LARGE
       (plain_text "Failed to buffer the request body: length limit exceeded")) ;;
  ok_or (deserialize body)
    (mkResponse (fst (json_rejection body)) (plain_text (snd (json_rejection body)))).
Definition extract_path (raw : string) : outcome Response string :=
  ok_or (percent_decode raw) (mkResponse BAD_REQUEST (plain_text (path_rejection raw))).

Definition handle (h : RpcHandler) (e : Endpoint) (req : Request)
  : outcome Response (Response * RpcHandler) :=
  let keep (r : outcome Response Response) := (λ resp, (resp, h)) <$> r in
  match e with
  | SubmitTransaction => s ← extract_json (req_body req); rpc_submit_transaction h s
  | SimulateTransaction => keep (t ← extract_json (req_body req); rpc_simulate_transaction h t)
  | GetObject addr => keep (raw ← extract_path addr; rpc_get_object h raw)
  | GetObjects => keep (rpc_get_objects h (req_query req))
  | GetObjectsOwned owner => keep (raw ← extract_path owner; rpc_get_objects_owned h raw)
  | GetTransaction d => keep (raw ← extract_path d; rpc_get_transaction h raw)
  | GetTransactionResult d => keep (raw ← extract_path d; rpc_get_transaction_result h raw)
  | GetBlock d => keep (raw ← extract_path d; rpc_get_block h raw)
  | GetBlockSnapshot d => keep (raw ← extract_path d; rpc_get_block_snapshot h raw)
  | GetChainHead => keep (rpc_get_chain_head h)
  | GetBlocksSince height => keep (raw ← extract_path height; rpc_get_blocks_since h raw)
  | GetStateSnapshot => keep (rpc_get_state_snapshot h)
  end.

(** One request: the answer and the handler afterwards. *)
Definition serve {E} (h : RpcHandler) (req : Request) : outcome E (Response * RpcHandler) :=
  match route (req_path req) with
  | None => Ok (mkResponse NOT_FOUND body_empty, h)
  | Some e =>
      if allowed e (req_method req) then
        '(resp, h) ← match handle h e req with
                     | Ok r => Ok r
                     | Err resp => Ok (resp, h)
                     | Panic msg => Panic msg
                     | NoFuel => NoFuel
                     end;
        Ok (match req_method req with
            | HEAD => mkResponse (resp_status resp) body_empty
            | _ => resp
            end, h)
      else Ok (mkResponse METHOD_NOT_ALLOWED body_empty, h)
  end.
End rpc.
