(* ===== verification/NodeClient.v ===== *)
(** * The client of the RPC service

    Models [meow-node-client/src/lib.rs].  A method of the client is the request
    it sends and what it makes of the answer ([Call]); [perform] runs it against
    a network, a function of the state of the other side. *)

From S2P Require Import Prelude Text Address ChainTypes Convert Http.

Module NodeClientError.
Inductive t :=
  | NodeError (status : Z) (body : string)
  | ReqwestError
  | UrlParseError.
End NodeClientError.

Section client.
Context `{PrefixHex, Bcs, Base58, JsonLib, UrlLib}.
Notation CResult := (outcome NodeClientError.t).

Record Call (A : Type) := mkCall {
  call_method : Method;
  call_url : CResult Url;
  call_body : Body;
  call_finish : Response → CResult A;
}.
Arguments mkCall {A}.

(** [normalize_url]. *)
Definition normalize_url (url : Url) : Url :=
  if ends_with_slash (url_path url) then url else url_set_path url (url_path url +:+ "/").

(** [NodeClient]: the base URL. *)
Record NodeClient := mkClient { base_url : Url }.
Definition with_url (base : Url) : NodeClient := mkClient (normalize_url base).
Definition with_url_str (base : string) : CResult NodeClient :=
  url ← ok_or (url_parse base) NodeClientError.UrlParseError;
  Ok (with_url url).
Definition with_address {E} (address : string) : outcome E NodeClient :=
  url ← expect (url_parse ("http://" +:+ address +:+ "/")) "invalid URL";
  Ok (with_url url).

Definition join (c : NodeClient) (path : string) : CResult Url :=
  ok_or (url_join (base_url c) path) NodeClientError.UrlParseError.

(** [node_error], and the tail of every method. *)
Definition node_error (r : Response) : NodeClientError.t :=
  NodeClientError.NodeError (resp_status r) (body_text (resp_body r)).
Definition expect_json {A} `{Serde Body A} (r : Response) : CResult A :=
  if is_success (resp_status r) then ok_or (deserialize (resp_body r)) NodeClientError.ReqwestError
  else Err (node_error r).
Definition expect_success (r : Response) : CResult () :=
  if is_success (resp_status r) then Ok () else Err (node_error r).

Definition post {A B} `{Serde Body A} (c : NodeClient) (path : string) (a : A)
    (finish : Response → CResult B) : Call B :=
  mkCall POST (join c path) (serialize a) finish.
Definition get {A} `{Serde Body A} (url : CResult Url) : Call A :=
  mkCall GET url body_empty expect_json.

(** ** The methods *)
Definition client_submit_transaction (c : NodeClient) (s : SignedTransaction) : Call () :=
  post c "submit-transaction" s expect_success.
Definition client_simulate_transaction (c : NodeClient) (t : Transaction) : Call ExecutionResult :=
  post c "simulate-transaction" t expect_json.
Definition client_get_object (c : NodeClient) (addr : Address) : Call (option Object) :=
  get (join c ("object/" +:+ address_to_string addr)).
Definition client_get_objects (c : NodeClient) (addresses : list Address)
  : Call (list (option Object)) :=
  get (url ← join c "objects";
       Ok (foldl (λ url addr, url_append_pair url "address" (address_to_string addr)) url addresses)).
Definition client_get_objects_owned (c : NodeClient) (owner : Address) : Call (list Object) :=
  get (join c ("objects_owned/" +:+ address_to_string owner)).
Definition client_get_transaction (c : NodeClient) (d : Digest) : Call (option SignedTransaction) :=
  get (join c ("transaction/" +:+ digest_to_string d)).
Definition client_get_transaction_result (c : NodeClient) (d : Digest)
  : Call (option ExecutionResult) :=
  get (join c ("transaction-result/" +:+ digest_to_string d)).
Definition client_get_block (c : NodeClient) (d : Digest) : Call (option Block) :=
  get (join c ("block/" +:+ digest_to_string d)).
Definition client_get_block_snapshot (c : NodeClient) (d : Digest) : Call (option StateSnapshot) :=
  get (join c ("block-snapshot/" +:+ digest_to_string d)).
Definition client_get_chain_head (c : NodeClient) : Call Digest := get (join c "chain-head").
Definition client_get_blocks_since (c : NodeClient) (height : Z) : Call (list Block) :=
  get (join c ("blocks-since/" +:+ pretty height)).
Definition client_get_state_snapshot (c : NodeClient) : Call StateSnapshot :=
  get (join c "state-snapshot").

(** ** Running a call *)
Definition Network (S : Type) : Type := S → Method → Url → Body → option (Response * S).
Definition perform {S A} (net : Network S) (s : S) (c : Call A) : CResult A * S :=
  match call_url _ c with
  | Ok url =>
      match net s (call_method _ c) url (call_body _ c) with
      | Some (response, s) => (call_finish _ c response, s)
      | None => (Err NodeClientError.ReqwestError, s)
      end
  | Err e => (Err e, s)
  | Panic msg => (Panic msg, s)
  | NoFuel => (NoFuel, s)
  end.
End client.
