(* ===== verification/GossipNetwork.v ===== *)
(** * The gossip network

    Models [meow-gossip-types] and [next_event] of [meow-gossip-network]: how the
    events of the [libp2p] swarm become events of the node.  The swarm itself is
    a stream of events; of its behaviour the model keeps the set of explicit
    peers. *)

From S2P Require Import Prelude.

(** ** Types ([meow-gossip-types]) *)
Record PeerId := mkPeerId { peer_bytes : list Z }.
Global Instance PeerId_eq_dec : EqDecision PeerId.
Proof. solve_decision. Defined.
Global Instance PeerId_countable : Countable PeerId := inj_countable' peer_bytes mkPeerId (λ '(mkPeerId _), eq_refl).
Record MessageId := mkMessageId { message_bytes : list Z }.

(** One part of a [libp2p] multiaddr, as far as the code tells them apart. *)
Inductive Protocol :=
  | P2p (peer : PeerId)
  | Ip4 (unspecified loopback : bool)
  | Ip6 (unspecified loopback : bool)
  | OtherProtocol (text : string).
Record Multiaddr := mkMultiaddr { multiaddr_parts : list Protocol }.

(** [NetworkEvent]. *)
Inductive NetworkEvent :=
  | Listening (addr : Multiaddr)
  | Message (id : MessageId) (topic : string) (data : list Z) (from : option PeerId)
  | PeerConnected (peer : PeerId)
  | PeerDisconnected (peer : PeerId)
  | PeerSubscribedToTopic (peer : PeerId) (topic : string).

(** [GossipNetworkConfig]; the interval in seconds. *)
Definition DEFAULT_MDNS_QUERY_INTERVAL_SECS : Z := 300.
Definition DEFAULT_CHECK_EXPLICIT_PEERS_TICKS : Z := 300.
Definition DEFAULT_MAX_TRANSMIT_SIZE : Z := 16 * 1024 * 1024.
Record GossipNetworkConfig := mkGossipConfig {
  listen_address : Multiaddr;
  bootstrap_peers : list Multiaddr;
  mdns_query_interval : Z;
  check_explicit_peers_ticks : Z;
  max_transmit_size : Z;
}.
Definition gossip_config_new (listen_address : Multiaddr) (bootstrap_peers : list Multiaddr)
    (mdns_query_interval check_explicit_peers_ticks : Z) : GossipNetworkConfig :=
  mkGossipConfig listen_address bootstrap_peers mdns_query_interval check_explicit_peers_ticks
    DEFAULT_MAX_TRANSMIT_SIZE.
Definition gossip_config_new_with_defaults (listen_address : Multiaddr)
    (bootstrap_peers : list Multiaddr) : GossipNetworkConfig :=
  gossip_config_new listen_address bootstrap_peers DEFAULT_MDNS_QUERY_INTERVAL_SECS
    DEFAULT_CHECK_EXPLICIT_PEERS_TICKS.

(** ** Events of the swarm *)
Inductive SwarmEvent :=
  | GossipsubMessage (id : MessageId) (topic : string) (data : list Z) (source : option PeerId)
  | GossipsubSubscribed (peer_id : PeerId) (topic : string)
  | MdnsDiscovered (peers : list (PeerId * Multiaddr))
  | MdnsExpired (peers : list (PeerId * Multiaddr))
  | ConnectionEstablished (peer_id : PeerId)
  | ConnectionClosed (peer_id : PeerId)
  | NewListenAddr (address : Multiaddr)
  | OtherSwarmEvent.

Definition is_routable (address : Multiaddr) : bool :=
  forallb (λ p, match p with
                | P2p _ => false
                | Ip4 unspecified loopback | Ip6 unspecified loopback =>
                    negb unspecified && negb loopback
                | OtherProtocol _ => true
                end) (multiaddr_parts address).

(** One turn of the loop of [next_event]: the event to return, if any, and the
    explicit peers. *)
Definition handle_swarm_event (e : SwarmEvent) (explicit : gset PeerId)
  : option NetworkEvent * gset PeerId :=
  match e with
  | GossipsubMessage id topic data source => (Some (Message id topic data source), explicit)
  | GossipsubSubscribed peer topic => (Some (PeerSubscribedToTopic peer topic), explicit)
  | MdnsDiscovered peers => (None, foldl (λ s p, {[fst p]} ∪ s) explicit peers)
  | MdnsExpired peers => (None, foldl (λ s p, s ∖ {[fst p]}) explicit peers)
  | ConnectionEstablished peer => (Some (PeerConnected peer), explicit)
  | ConnectionClosed peer => (Some (PeerDisconnected peer), explicit)
  | NewListenAddr address =>
      (if is_routable address then Some (Listening address) else None, explicit)
  | OtherSwarmEvent => (None, explicit)
  end.

(** [next_event] on what the swarm produces before it shuts down: the event, the
    explicit peers and the rest of the stream. *)
Fixpoint next_event (swarm : list SwarmEvent) (explicit : gset PeerId)
  : option NetworkEvent * gset PeerId * list SwarmEvent :=
  match swarm with
  | [] => (None, explicit, [])
  | e :: swarm =>
      match handle_swarm_event e explicit with
      | (Some event, explicit) => (Some event, explicit, swarm)
      | (None, explicit) => next_event swarm explicit
      end
  end.

(** Every event of the swarm that the node should see is delivered, in order. *)
Fixpoint drain_events (fuel : nat) (swarm : list SwarmEvent) (explicit : gset PeerId)
  : list NetworkEvent :=
  match fuel with
  | O => []
  | S fuel =>
      match next_event swarm explicit with
      | (Some event, explicit, swarm) => event :: drain_events fuel swarm explicit
      | (None, _, _) => []
      end
  end.
Definition visible (e : SwarmEvent) : option NetworkEvent := fst (handle_swarm_event e ∅).

Lemma handle_visible e explicit : fst (handle_swarm_event e explicit) = visible e.
Proof. by destruct e. Qed.
Lemma drain_events_all fuel swarm explicit :
  length swarm ≤ fuel → drain_events fuel swarm explicit = omap visible swarm.
Proof.
  revert swarm explicit. induction fuel as [|fuel IH]; intros swarm explicit Hl.
  { destruct swarm; simpl in Hl; [done|lia]. }
  cbn [drain_events]. revert explicit Hl. induction swarm as [|e swarm IHs]; intros explicit Hl; [done|].
  cbn [next_event omap list_omap]. rewrite <-(handle_visible e explicit). simpl in Hl.
  destruct (handle_swarm_event e explicit) as [[event|] explicit']; simpl.
  - rewrite IH by lia. done.
  - apply IHs. lia.
Qed.
