(* ===== verification/GossipService.v ===== *)
(** * The gossip service

    Models [meow-node/src/gossip_service/mod.rs].  A turn of the [select!] loop
    is a function of the event that is taken, the service and the shared miner.
    A handler that locks the miner twice is two turns, so that other services can
    run in between.  Futures that fetch from a peer are the requests they carry
    out; one that was never created ([std::future::pending()]) is [None].  Log
    output is left out.  The clock does not advance within a turn. *)

From S2P Require Import Prelude Address VmTypes ChainTypes Framework Context Validator Store.
From S2P Require Import Convert Mempool Chain Miner Http NodeClient GossipNetwork.
From stdpp Require Import sorting.

(** ** Libraries that the service calls *)

(** The iteration order of a [HashMap] and [sort_unstable_by_key], which leaves
    the order of equal keys open. *)
Class NodeLib `{UrlLib} := {
  first_value : gmap PeerId Url → option Url;
  sort_by_height : list Block → list Block;
}.
Definition height_le (a b : Block) : Prop :=
  (height (block_header a) ≤ height (block_header b))%Z.
Class NodeLibLaws `{NodeLib} := {
  first_value_None m : first_value m = None ↔ m = ∅;
  sort_perm l : sort_by_height l ≡ₚ l;
  sort_sorted l : StronglySorted height_le (sort_by_height l);
}.

Definition TOPIC_TRANSACTIONS : string := "transactions".
Definition TOPIC_BLOCKS : string := "blocks".
Definition TOPIC_PEER_INFO : string := "peer-info".
Definition MAX_BUFFERED_SYNC_BLOCKS : Z := 100000.

(** [GossipServiceState]. *)
Inductive GossipServiceState :=
  | Working
  | Syncing (buffered_blocks : list Block) (buffered_hashes : gset Digest)
  | StateSyncing (buffered_blocks : list Block) (buffered_hashes : gset Digest).

Section service.
Context `{Crypto, Executor, UrlLib, WireLib, !NodeLib}.

(** What the handler of a block has read before it locks the miner again. *)
Record BlockDecision := mkDecision {
  bd_block : Block;
  bd_peer_url : option Url;
  bd_local_height : Z;
  bd_sync_start : Z;
  bd_snapshot_depth : Z;
}.

(** The service and the locals of [run]; the miner is shared and kept apart. *)
Record GossipService := mkGossip {
  node_rpc_url : Url;
  known_peer_urls : gmap PeerId Url;
  service_state : GossipServiceState;
  sync_fut : option (Url * Z);
  state_sync_fut : option Url;
  deciding : option BlockDecision;
}.
Definition gossip_new {E} (node_rpc_bound_addr : string) : outcome E GossipService :=
  node_rpc_url ← expect (url_parse ("http://" +:+ node_rpc_bound_addr)) "the RPC URL must be valid";
  Ok (mkGossip node_rpc_url ∅ Working None None None).

Definition set_known (g : GossipService) (urls : gmap PeerId Url) : GossipService :=
  mkGossip (node_rpc_url g) urls (service_state g) (sync_fut g) (state_sync_fut g) (deciding g).
Definition set_state (g : GossipService) (s : GossipServiceState) : GossipService :=
  mkGossip (node_rpc_url g) (known_peer_urls g) s (sync_fut g) (state_sync_fut g) (deciding g).
Definition set_futures (g : GossipService) (sync : option (Url * Z)) (state : option Url)
  : GossipService :=
  mkGossip (node_rpc_url g) (known_peer_urls g) (service_state g) sync state (deciding g).
Definition set_deciding (g : GossipService) (d : option BlockDecision) : GossipService :=
  mkGossip (node_rpc_url g) (known_peer_urls g) (service_state g) (sync_fut g) (state_sync_fut g) d.

Context {E : Type}.

(** A result that is only looked at: the error is dropped. *)
Definition attempt {F A} (m : outcome F A) : outcome E (option A) :=
  match m with
  | Ok a => Ok (Some a)
  | Err _ => Ok None
  | Panic s => Panic s
  | NoFuel => NoFuel
  end.

(** [let _ = miner.apply_block(block)]: the miner afterwards. *)
Definition apply_quietly (now : Z) (m : Miner) (block : Block) : outcome E Miner :=
  r ← attempt (miner_apply_block now m block);
  Ok match r with Some (_, m') => m' | None => m end.

(** The loops over pulled and buffered blocks, with their set [seen]. *)
Fixpoint apply_unseen (now : Z) (seen : gset Digest) (m : Miner) (l : list Block)
  : outcome E (gset Digest * Miner) :=
  match l with
  | [] => Ok (seen, m)
  | block :: l =>
      if bool_decide (block_hash block ∈ seen) then apply_unseen now seen m l
      else
        m ← apply_quietly now m block;
        apply_unseen now ({[block_hash block]} ∪ seen) m l
  end.

(** [state_sync_fut] resolves. *)
Definition on_snapshot (now : Z) (snapshot : option StateSnapshot) (g : GossipService) (m : Miner)
  : outcome E (GossipService * Miner) :=
  m ← match snapshot with
      | Some snapshot =>
          r ← attempt (replace_from_snapshot now m snapshot);
          match r with
          | Some m =>
              match service_state g with
              | StateSyncing buffered_blocks _ =>
                  snd <$> apply_unseen now ∅ m (sort_by_height buffered_blocks)
              | _ => Ok m
              end
          | None => Ok m
          end
      | None => Ok m
      end;
  Ok (set_state (set_futures g (sync_fut g) None) Working, m).

(** [sync_fut] resolves. *)
Definition on_pulled (now : Z) (pulled_blocks : list Block) (g : GossipService) (m : Miner)
  : outcome E (GossipService * Miner) :=
  '(seen, m) ← apply_unseen now ∅ m (sort_by_height pulled_blocks);
  m ← match service_state g with
      | Syncing buffered_blocks _ =>
          snd <$> apply_unseen now seen m (sort_by_height buffered_blocks)
      | _ => Ok m
      end;
  Ok (set_state (set_futures g None (state_sync_fut g)) Working, m).

(** A message on the topic [transactions]. *)
Definition on_transaction (data : list Z) (m : Miner) : outcome E Miner :=
  match bcs_signed_decode data with
  | Some signed_transaction =>
      r ← attempt (submit_transaction m signed_transaction);
      Ok (default m r)
  | None => Ok m
  end.

(** Buffering a block during a sync. *)
Definition buffer (blocks : list Block) (hashes : gset Digest) (block : Block)
  : list Block * gset Digest :=
  if bool_decide (MAX_BUFFERED_SYNC_BLOCKS ≤ Z.of_nat (length blocks))%Z then (blocks, hashes)
  else if bool_decide (block_hash block ∈ hashes) then (blocks, hashes)
  else (blocks ++ [block], {[block_hash block]} ∪ hashes).

(** The peer to sync from: the sender of the block, or any known one. *)
Definition choose_peer (g : GossipService) (from : option PeerId) : option Url :=
  match from ≫= λ id, known_peer_urls g !! id with
  | Some url => Some url
  | None => first_value (known_peer_urls g)
  end.

(** A message on the topic [blocks], up to the end of the first lock. *)
Definition on_block (data : list Z) (from : option PeerId) (g : GossipService) (m : Miner)
  : outcome E GossipService :=
  match bcs_block_decode data with
  | None => Ok g
  | Some block =>
      match service_state g with
      | Syncing blocks hashes =>
          let '(blocks, hashes) := buffer blocks hashes block in
          Ok (set_state g (Syncing blocks hashes))
      | StateSyncing blocks hashes =>
          let '(blocks, hashes) := buffer blocks hashes block in
          Ok (set_state g (StateSyncing blocks hashes))
      | Working =>
          local_height ← head_height (chain m);
          sync_start ← sync_from_height (chain m);
          Ok (set_deciding g (Some (mkDecision block (choose_peer g from) local_height sync_start
                                      (snapshot_depth (chain m)))))
      end
  end.

(** The rest of it: a large gap asks for a snapshot, a gap or a rejected next
    block for the blocks since [sync_start], and other blocks are applied. *)
Definition decide_block (now : Z) (d : BlockDecision) (g : GossipService) (m : Miner)
  : outcome E (GossipService * Miner) :=
  let g := set_deciding g None in
  let block := bd_block d in
  let h := height (block_header block) in
  let start_sync (g : GossipService) :=
    set_futures (set_state g (Syncing [block] {[block_hash block]}))
      match bd_peer_url d with Some url => Some (url, bd_sync_start d) | None => sync_fut g end
      (state_sync_fut g) in
  far ← u64_add (bd_local_height d) (bd_snapshot_depth d);
  if bool_decide (far < h)%Z then
    Ok (set_futures (set_state g (StateSyncing [block] {[block_hash block]}))
          (sync_fut g)
          match bd_peer_url d with Some url => Some url | None => state_sync_fut g end, m)
  else
    next ← u64_add (bd_local_height d) 1;
    if bool_decide (next < h)%Z then Ok (start_sync g, m)
    else
      r ← attempt (miner_apply_block now m block);
      match r with
      | Some (_, m) => Ok (g, m)
      | None => if bool_decide (bd_local_height d < h)%Z then Ok (start_sync g, m) else Ok (g, m)
      end.

(** A message on the topic [peer-info]: the first URL of a peer is kept. *)
Definition on_peer_info (data : list Z) (from : option PeerId) (g : GossipService) : GossipService :=
  match from_utf8 data ≫= url_parse, from with
  | Some url, Some peer =>
      match known_peer_urls g !! peer with
      | Some _ => g
      | None => set_known g (<[peer := url]> (known_peer_urls g))
      end
  | _, _ => g
  end.

(** ** The loop *)
Inductive LoopEvent :=
  | ShutdownChanged
  | StateSyncDone (snapshot : option StateSnapshot)
  | SyncDone (pulled_blocks : list Block)
  | NetworkMessage (event : option NetworkEvent)
  | DecideBlock
  | TransactionToPublish (data : option (list Z))
  | BlockToPublish (data : option (list Z)).

(** [None]: the loop ends.  Otherwise the service, the miner and what is
    published, by topic. *)
Definition Turn : Type := option (GossipService * Miner * list (string * list Z)).

Definition on_network (e : NetworkEvent) (g : GossipService) (m : Miner) : outcome E Turn :=
  match e with
  | Message _ topic data from =>
      if String.eqb topic TOPIC_TRANSACTIONS then
        m ← on_transaction data m; Ok (Some (g, m, []))
      else if String.eqb topic TOPIC_BLOCKS then
        g ← on_block data from g m; Ok (Some (g, m, []))
      else if String.eqb topic TOPIC_PEER_INFO then
        Ok (Some (on_peer_info data from g, m, []))
      else Ok (Some (g, m, []))
  | PeerSubscribedToTopic _ topic =>
      Ok (Some (g, m, if String.eqb topic TOPIC_PEER_INFO
                      then [(TOPIC_PEER_INFO, as_bytes (url_as_str (node_rpc_url g)))] else []))
  | Listening _ | PeerConnected _ | PeerDisconnected _ => Ok (Some (g, m, []))
  end.

(** One turn of [run]. *)
Definition gossip_turn (now : Z) (e : LoopEvent) (g : GossipService) (m : Miner) : outcome E Turn :=
  match e with
  | ShutdownChanged => Ok None
  | StateSyncDone snapshot =>
      '(g, m) ← on_snapshot now snapshot g m; Ok (Some (g, m, []))
  | SyncDone pulled => '(g, m) ← on_pulled now pulled g m; Ok (Some (g, m, []))
  | NetworkMessage (Some event) => on_network event g m
  | NetworkMessage None => Ok None
  | DecideBlock =>
      match deciding g with
      | Some d => '(g, m) ← decide_block now d g m; Ok (Some (g, m, []))
      | None => Ok (Some (g, m, []))
      end
  | TransactionToPublish (Some data) => Ok (Some (g, m, [(TOPIC_TRANSACTIONS, data)]))
  | BlockToPublish (Some data) => Ok (Some (g, m, [(TOPIC_BLOCKS, data)]))
  | TransactionToPublish None | BlockToPublish None => Ok None
  end.

(** The events that [select!] can take: a future resolves only if it was
    created, and between the two locks of a handler only the handler runs. *)
Definition enabled (e : LoopEvent) (g : GossipService) : bool :=
  match deciding g with
  | Some _ => match e with DecideBlock => true | _ => false end
  | None =>
      match e with
      | DecideBlock => false
      | StateSyncDone _ => is_some (state_sync_fut g)
      | SyncDone _ => is_some (sync_fut g)
      | _ => true
      end
  end.
End service.

(** ** What the futures fetch *)
Section fetch.
Context `{PrefixHex, Bcs, Base58, JsonLib, UrlLib} {S : Type} (net : Network S).

(** [pull_snapshot_from_peer], [pull_blocks_from_peer]. *)
Definition pull_snapshot_from_peer (s : S) (peer_rpc_url : Url) : option StateSnapshot * S :=
  match perform net s (client_get_state_snapshot (with_url peer_rpc_url)) with
  | (Ok snapshot, s) => (Some snapshot, s)
  | (_, s) => (None, s)
  end.
Definition pull_blocks_from_peer (s : S) (peer_rpc_url : Url) (from_height : Z) : list Block * S :=
  match perform net s (client_get_blocks_since (with_url peer_rpc_url) from_height) with
  | (Ok blocks, s) => (blocks, s)
  | (_, s) => ([], s)
  end.
End fetch.
