(* ===== verification/Node.v ===== *)
(** * The node

    Models [meow-node/src/node/mod.rs] and [meow-node/src/miner_service/mod.rs]:
    the three services around one miner behind a lock, and the two channels
    between them.  A turn is what one service does while it holds the lock once;
    turns of different services interleave in any order. *)

From S2P Require Import Prelude Text Address VmTypes ChainTypes Convert Framework Context.
From S2P Require Import Validator Store Mempool Chain Miner.
From S2P Require Import Http Rpc NodeClient GossipNetwork GossipService.
From S2P Require Genesis.

(** Where the loop of the miner service is: about to take the lock, searching
    without the lock, or about to commit. *)
Inductive MinerPhase :=
  | MIdle
  | MGrinding (work : MiningWork)
  | MFound (block : Block) (new_store : Store).

Section node.
Context `{PrefixHex, Crypto, Executor, Bcs, Base58, JsonLib, WireLib, UrlLib}.
Context `{!NodeLib, !ErrorTexts}.
Notation NResult := (outcome ChainError.t).

Record Node := mkNode {
  node_miner : Miner;
  node_gossip : GossipService;
  node_mining : MinerPhase;
  transactions_ch : list (list Z);
  blocks_ch : list (list Z);
}.

(** [Node::with_genesis], and the state in which [run_internal] starts the
    services once the listener is bound. *)
Definition node_with_genesis (genesis : Genesis.Genesis) (c : MinerConfig) : Miner :=
  with_genesis (Genesis.genesis_objects genesis) c.
Definition node_start (miner : Miner) (bound_addr : string) : NResult Node :=
  gossip ← gossip_new bound_addr;
  Ok (mkNode miner gossip MIdle [] []).

(** ** The miner service *)

(** The first lock: a round is prepared, or the service sleeps. *)
Definition miner_prepare (now : Z) (n : Node) : NResult Node :=
  '(work, m) ← prepare_round now (node_miner n);
  Ok (mkNode m (node_gossip n) match work with Some w => MGrinding w | None => MIdle end
        (transactions_ch n) (blocks_ch n)).

(** [work.grind()], without the lock. *)
Definition miner_grind (rounds nonces : nat) (work : MiningWork) (n : Node) : NResult Node :=
  r ← grind rounds nonces work;
  Ok (mkNode (node_miner n) (node_gossip n)
        match r with Some (block, s) => MFound block s | None => MIdle end
        (transactions_ch n) (blocks_ch n)).

(** The second lock: a block that was committed is sent to the gossip service. *)
Definition miner_commit (now : Z) (block : Block) (new_store : Store) (n : Node) : NResult Node :=
  '(committed, m) ← commit_mined now (node_miner n) block new_store;
  Ok (mkNode m (node_gossip n) MIdle (transactions_ch n)
        (if (committed : bool) then blocks_ch n ++ [bcs_block block] else blocks_ch n)).

(** ** Turns of the node *)
Inductive NodeEvent :=
  | RpcRequest (req : Request)
  | MinerPrepare (now : Z)
  | MinerGrind (rounds nonces : nat)
  | MinerCommit (now : Z)
  | GossipEvent (now : Z) (e : LoopEvent).

(** What a turn sends out: messages to the gossip network, by topic, and the
    answer to a request. *)
Record Output := mkOutput {
  out_messages : list (string * list Z);
  out_response : option Response;
}.
Definition silent : Output := mkOutput [] None.

(** The events that can happen: a service takes its next step, and messages
    come out of the channels in order. *)
Definition node_enabled (ev : NodeEvent) (n : Node) : bool :=
  match ev with
  | RpcRequest _ => true
  | MinerPrepare _ => match node_mining n with MIdle => true | _ => false end
  | MinerGrind _ _ => match node_mining n with MGrinding _ => true | _ => false end
  | MinerCommit _ => match node_mining n with MFound _ _ => true | _ => false end
  | GossipEvent _ e =>
      enabled e (node_gossip n) &&
      match e with
      | TransactionToPublish data => bool_decide (data = head (transactions_ch n) ∧ data ≠ None)
      | BlockToPublish data => bool_decide (data = head (blocks_ch n) ∧ data ≠ None)
      | _ => true
      end
  end.

(** [None]: a service has ended, and the node with it. *)
Definition node_turn (ev : NodeEvent) (n : Node) : NResult (option (Node * Output)) :=
  match ev with
  | RpcRequest req =>
      '(resp, h) ← serve (mkHandler (node_miner n) (transactions_ch n)) req;
      Ok (Some (mkNode (rpc_miner h) (node_gossip n) (node_mining n) (publish_transactions_tx h)
                  (blocks_ch n), mkOutput [] (Some resp)))
  | MinerPrepare now => n ← miner_prepare now n; Ok (Some (n, silent))
  | MinerGrind rounds nonces =>
      match node_mining n with
      | MGrinding work => n ← miner_grind rounds nonces work n; Ok (Some (n, silent))
      | _ => Ok (Some (n, silent))
      end
  | MinerCommit now =>
      match node_mining n with
      | MFound block s => n ← miner_commit now block s n; Ok (Some (n, silent))
      | _ => Ok (Some (n, silent))
      end
  | GossipEvent now e =>
      turn ← gossip_turn now e (node_gossip n) (node_miner n);
      Ok match turn with
         | Some (g, m, messages) =>
             Some (mkNode m g (node_mining n)
                     match e with TransactionToPublish _ => tail (transactions_ch n)
                                | _ => transactions_ch n end
                     match e with BlockToPublish _ => tail (blocks_ch n) | _ => blocks_ch n end,
                   mkOutput messages None)
         | None => None
         end
  end.
End node.

(** ** How the node ends ([run_internal]) *)
Inductive NodeError :=
  | BindFailed (addr text : string)
  | GossipServiceError (text : string)
  | MinerServiceError (text : string)
  | RpcServiceError (text : string)
  | SignalHandlerError (text : string)
  | TcpListenerError (text : string).

(** A service ends with an error text or without. *)
Definition service_result (wrap : string → NodeError) (r : option string) : outcome NodeError () :=
  match r with None => Ok () | Some text => Err (wrap text) end.

(** The listener fails, or a branch of [select!] is taken; after Ctrl+C the
    services are awaited in turn. *)
Inductive Ending :=
  | NotBound (addr text : string)
  | NoLocalAddr (text : string)
  | CtrlC (rpc miner gossip : option string)
  | SignalFailed (text : string)
  | RpcEnded (r : option string)
  | MinerEnded (r : option string)
  | GossipEnded (r : option string).
Definition run_result (e : Ending) : outcome NodeError () :=
  match e with
  | NotBound addr text => Err (BindFailed addr text)
  | NoLocalAddr text => Err (TcpListenerError text)
  | CtrlC rpc miner gossip =>
      service_result RpcServiceError rpc ;;
      service_result MinerServiceError miner ;;
      service_result GossipServiceError gossip
  | SignalFailed text => Err (SignalHandlerError text)
  | RpcEnded r => service_result RpcServiceError r
  | MinerEnded r => service_result MinerServiceError r
  | GossipEnded r => service_result GossipServiceError r
  end.
