(* ===== verification/RpcProps.v ===== *)
(** * Requests and answers

    The router on the paths that the client builds, and the client against the
    service. *)

From S2P Require Import Prelude Text Address VmTypes ChainTypes Convert Framework Context.
From S2P Require Import Validator Store Mempool Chain ChainProps Miner Http Rpc NodeClient.
From S2P Require Import LedgerCorrect.
From S2P Require Import HexInstance.
From S2P Require Import MinerProps.
From S2P Require Import NodeExamples.

(** ** Plain texts *)
Lemma all_chars_impl (f g : ascii → bool) s :
  (∀ c, f c = true → g c = true) → all_chars f s = true → all_chars g s = true.
Proof.
  intros Hfg. induction s as [|c s IH]; [done|]. simpl.
  intros [Hc Hs]%andb_true_iff. by rewrite Hfg, IH.
Qed.
Lemma plain_path c : is_plain c = true → is_path_char c = true.
Proof. unfold is_path_char. by intros ->. Qed.
Lemma plain_no_slash c : is_plain c = true → negb (Ascii.eqb c "/") = true.
Proof. destruct (Ascii.eqb_spec c "/") as [->|]; [by vm_compute|done]. Qed.
Lemma digit_plain c : is_digit c = true → is_plain c = true.
Proof. unfold is_plain. intros ->. by rewrite orb_true_r. Qed.
Lemma hex_digit_plain c : is_hex_digit c = true → is_plain c = true.
Proof. destruct c as [[] [] [] [] [] [] [] []]; vm_compute; congruence. Qed.

Lemma pretty_Z_N n : (0 ≤ n)%Z → pretty n = pretty (Z.to_N n).
Proof. by destruct n. Qed.
Lemma pretty_plain n : (0 ≤ n)%Z → all_chars is_plain (pretty n) = true ∧ pretty n ≠ "".
Proof.
  intros Hn. rewrite pretty_Z_N by done. unfold pretty, pretty_N. case_decide as Hz; [done|]. split.
  - eapply all_chars_impl; [apply digit_plain|]. by apply pretty_go_digits.
  - destruct (pretty_go_head (Z.to_N n)) with (s := "") as (c & r & -> & _); [lia|done].
Qed.

Section texts.
Context `{PrefixHexLaws}.
Lemma address_plain a : wf_address a →
  all_chars is_plain (address_to_string a) = true ∧ address_to_string a ≠ "".
Proof.
  intros [_ (ds & Hd & Hds & _)%hex_encode_digits]. unfold address_to_string. rewrite Hd.
  split; [|done]. rewrite all_chars_app. simpl. by eapply all_chars_impl; [apply hex_digit_plain|].
Qed.
End texts.
Lemma digest_plain `{Base58Laws} d : wf_digest d →
  all_chars is_plain (digest_to_string d) = true ∧ digest_to_string d ≠ "".
Proof.
  intros [Hl Hb]. split; [by apply bs58_plain|]. apply bs58_nonempty. intros He. by rewrite He in Hl.
Qed.

(** ** Routing *)
Lemma segment_app prefix s :
  all_chars is_plain s = true → s ≠ "" → segment prefix (prefix +:+ s) = Some s.
Proof.
  intros Hs Hne. unfold segment. rewrite strip_prefix_app. destruct s as [|c s]; [done|].
  by rewrite (all_chars_impl _ _ _ plain_no_slash Hs).
Qed.

Ltac solve_route :=
  intros; unfold route, routes; cbn [omap list_omap];
  match goal with |- context [?p +:+ ?s] => rewrite (segment_app p s) by done end;
  match goal with |- context [_ +:+ ?s] => destruct s as [|? ?]; [done|] end; vm_compute; reflexivity.

Section routes.
Context (s : string) (Hs : all_chars is_plain s = true) (Hne : s ≠ "").
Lemma route_object : route ("/object/" +:+ s) = Some (GetObject s).
Proof. solve_route. Qed.
Lemma route_objects_owned : route ("/objects_owned/" +:+ s) = Some (GetObjectsOwned s).
Proof. solve_route. Qed.
Lemma route_transaction : route ("/transaction/" +:+ s) = Some (GetTransaction s).
Proof. solve_route. Qed.
Lemma route_transaction_result :
  route ("/transaction-result/" +:+ s) = Some (GetTransactionResult s).
Proof. solve_route. Qed.
Lemma route_block : route ("/block/" +:+ s) = Some (GetBlock s).
Proof. solve_route. Qed.
Lemma route_block_snapshot : route ("/block-snapshot/" +:+ s) = Some (GetBlockSnapshot s).
Proof. solve_route. Qed.
Lemma route_blocks_since : route ("/blocks-since/" +:+ s) = Some (GetBlocksSince s).
Proof. solve_route. Qed.
End routes.

(** ** The client against the service *)
Section delivery.
Context `{PrefixHex, Crypto, Executor, Bcs, Base58, JsonLib, WireLib, UrlLib, !ErrorTexts}.
Context `{!PrefixHexLaws, !Base58Laws, !JsonLaws, !UrlLaws}.

(** A network that carries requests to a service: the connection breaks when
    the service panics. *)
Definition deliver : Network RpcHandler := λ h method url body,
  match serve (E:=()) h (mkRequest method (url_path url) (url_query url) body) with
  | Ok (response, h) => Some (response, h)
  | _ => None
  end.

(** What the service makes of a request. *)
Definition answered (h : RpcHandler) (e : Endpoint) (req : Request) : option (Response * RpcHandler) :=
  match handle h e req with
  | Ok (response, h) => Some (response, h)
  | Err response => Some (response, h)
  | _ => None
  end.

Context (c : NodeClient) (Hbase : url_path (base_url c) = "/").

Lemma join_path path :
  all_chars is_path_char path = true → starts_with_slash path = false → path ≠ "" →
  ∃ u, join c path = Ok u ∧ url_path u = "/" +:+ path ∧ url_query u = [].
Proof.
  intros Hp Hs Hne. destruct (join_plain (base_url c) path) as (u & Hj & Hu & Hq); try done;
    [by rewrite Hbase..|]. exists u. unfold join. rewrite Hj, Hu, Hbase. done.
Qed.

Lemma deliver_allowed h method url body e :
  route (url_path url) = Some e → allowed e method = true → method ≠ HEAD →
  deliver h method url body =
    answered h e (mkRequest method (url_path url) (url_query url) body).
Proof.
  intros Hr Ha Hm. unfold deliver, serve, answered. cbn [req_path req_method]. rewrite Hr, Ha.
  destruct (handle _ _ _) as [[??]|?|?|]; simpl; by destruct method.
Qed.

Lemma perform_get {A} `{Serde Body A} h (url : outcome NodeClientError.t Url) u e :
  url = Ok u → route (url_path u) = Some e → is_post e = false →
  perform deliver h (get (A:=A) url) =
  match answered h e (mkRequest GET (url_path u) (url_query u) body_empty) with
  | Some (response, h) => (expect_json response, h)
  | None => (Err NodeClientError.ReqwestError, h)
  end.
Proof.
  intros -> Hr Hp. unfold perform, get. cbn [call_url call_method call_body call_finish].
  rewrite (deliver_allowed _ _ _ _ e) by (try done; simpl; by rewrite Hp). done.
Qed.

Lemma perform_post {A B} `{Serde Body A} h path (a : A) (finish : Response → outcome NodeClientError.t B) e :
  all_chars is_path_char path = true → starts_with_slash path = false → path ≠ "" →
  route ("/" +:+ path) = Some e → is_post e = true →
  ∃ req, req_body req = serialize a ∧
  perform deliver h (post c path a finish) =
  match answered h e req with
  | Some (response, h) => (finish response, h)
  | None => (Err NodeClientError.ReqwestError, h)
  end.
Proof.
  intros Hp Hs Hne Hr He. destruct (join_path path) as (u & Hj & Hu & Hq); try done.
  exists (mkRequest POST (url_path u) (url_query u) (serialize a)). split; [done|].
  unfold perform, post. cbn [call_url call_method call_body call_finish]. rewrite Hj.
  rewrite (deliver_allowed _ _ _ _ e) by (try done; by rewrite Hu). done.
Qed.

Lemma expect_respond {A} `{SerdeLaw Body A} (a : A) : expect_json (respond a) = Ok a.
Proof. unfold expect_json, respond. cbn [resp_status resp_body]. by rewrite serde_roundtrip. Qed.

(** A [GET] whose endpoint answers with a value. *)
Lemma get_value {A} `{SerdeLaw Body A} h path e (a : A) :
  all_chars is_path_char path = true → starts_with_slash path = false → path ≠ "" →
  route ("/" +:+ path) = Some e → is_post e = false →
  (∀ req, req_query req = [] → handle h e req = Ok (respond a, h)) →
  perform deliver h (get (A:=A) (join c path)) = (Ok a, h).
Proof.
  intros Hp Hs Hne Hr He Hh. destruct (join_path path) as (u & Hj & Hu & Hq); try done.
  rewrite (perform_get _ _ u e) by (try done; by rewrite Hu). unfold answered.
  rewrite Hh by done. by rewrite expect_respond.
Qed.
End delivery.

(** * Stand-ins for the libraries of the RPC service, for the witnesses *)

(** Bodies that are not written out. *)
Inductive toy_body :=
  | BEmpty
  | BText (s : string)
  | BSigned (s : SignedTransaction)
  | BTransaction (t : Transaction)
  | BResult (r : ExecutionResult)
  | BObject (o : option Object)
  | BObjects (os : list (option Object))
  | BOwned (os : list Object)
  | BOptSigned (s : option SignedTransaction)
  | BOptResult (r : option ExecutionResult)
  | BOptBlock (b : option Block)
  | BOptSnapshot (s : option StateSnapshot)
  | BDigest (d : Digest)
  | BBlocks (bs : list Block)
  | BSnapshot (s : StateSnapshot)
  | BError (e : ErrorBody).

Global Instance toy_json : JsonLib := {|
  Body := toy_body;
  body_empty := BEmpty;
  body_size _ := 100%Z;
  body_text b := match b with BText s => s | BError e => eb_code e | _ => "" end;
  plain_text := BText;
  json_rejection _ := (422%Z, "");
  path_rejection s := s;
  percent_decode := Some;
  json_signed := {| serialize := BSigned; deserialize b := match b with BSigned x => Some x | _ => None end |};
  json_transaction := {| serialize := BTransaction; deserialize b := match b with BTransaction x => Some x | _ => None end |};
  json_result := {| serialize := BResult; deserialize b := match b with BResult x => Some x | _ => None end |};
  json_object := {| serialize := BObject; deserialize b := match b with BObject x => Some x | _ => None end |};
  json_objects := {| serialize := BObjects; deserialize b := match b with BObjects x => Some x | _ => None end |};
  json_owned := {| serialize := BOwned; deserialize b := match b with BOwned x => Some x | _ => None end |};
  json_opt_signed := {| serialize := BOptSigned; deserialize b := match b with BOptSigned x => Some x | _ => None end |};
  json_opt_result := {| serialize := BOptResult; deserialize b := match b with BOptResult x => Some x | _ => None end |};
  json_opt_block := {| serialize := BOptBlock; deserialize b := match b with BOptBlock x => Some x | _ => None end |};
  json_opt_snapshot := {| serialize := BOptSnapshot; deserialize b := match b with BOptSnapshot x => Some x | _ => None end |};
  json_digest := {| serialize := BDigest; deserialize b := match b with BDigest x => Some x | _ => None end |};
  json_blocks := {| serialize := BBlocks; deserialize b := match b with BBlocks x => Some x | _ => None end |};
  json_snapshot := {| serialize := BSnapshot; deserialize b := match b with BSnapshot x => Some x | _ => None end |};
  json_error := {| serialize := BError; deserialize b := match b with BError x => Some x | _ => None end |};
|}.
Global Instance toy_json_laws : JsonLaws.
Proof. by split. Qed.

(** A URL is its path and its query. *)
Record toy_url := mkToyUrl { toy_path : string; toy_query : list (string * string) }.
Global Instance toy_url_lib : UrlLib := {|
  Url := toy_url;
  url_parse s := Some (mkToyUrl "/" []);
  url_as_str := toy_path;
  url_path := toy_path;
  url_query := toy_query;
  url_set_path u p := mkToyUrl p (toy_query u);
  url_join u s := Some (mkToyUrl (toy_path u +:+ s) []);
  url_append_pair u k v := mkToyUrl (toy_path u) (toy_query u ++ [(k, v)]);
|}.
Global Instance toy_url_laws : UrlLaws.
Proof. split; try done. intros u s _ _ _ _ _. by eexists. Qed.

(** Hexadecimal digits in the place of base 58. *)
Global Instance toy_bcs : Bcs := {|
  bcs_bool _ := [];
  bcs_bool_decode _ := None;
  bcs_u8 b := [b];
  bcs_u16 _ := [];
  bcs_u32 _ := [];
  bcs_str _ := [];
  bcs_str_decode _ := None;
  bcs_fields _ := [];
  bcs_fields_decode _ := None;
  bcs_module_decode _ := None;
  bcs_error _ _ := "";
  bs58_encode := digits;
|}.
Global Instance toy_base58 : Base58 := {| bs58_decode := undigits; bs58_error _ := "bad character" |}.
Lemma digits_plain bs : Forall is_byte bs → all_chars is_plain (digits bs) = true.
Proof.
  induction 1 as [|b bs Hb _ IH]; [done|]. destruct (byte_nibbles b Hb). simpl.
  by rewrite !hex_digit_plain, IH by by apply hex_digit_is.
Qed.
Global Instance toy_base58_laws : Base58Laws.
Proof. split; [apply undigits_digits|apply digits_plain|by intros []]. Qed.

Global Instance toy_error_texts : @ErrorTexts toy_executor := {|
  prefix_hex_error s := "bad digit";
  keypair_error := "bad signature";
  executor_error_to_string := (λ e, e) : string → string;
|}.

(** A block with a height and nothing else. *)
Definition junk_block (h : Z) : Block :=
  mkBlock (mkHeader h digest_ZERO digest_ZERO None digest_ZERO 0 0) [] [] None None.

(** The blocks and transactions of the small chain, by number. *)
Global Instance toy_wire : WireLib := {|
  bcs_signed _ := [0%Z];
  bcs_signed_decode bs := match bs with [0%Z] => Some (spend coin) | _ => None end;
  bcs_block b := [height (block_header b)];
  bcs_block_decode bs := match bs with [1%Z] => Some block1 | [h] => Some (junk_block h) | _ => None end;
  from_utf8 _ := Some "";
  as_bytes _ := [];
|}.
