(* ===== verification/RpcCorrect.v ===== *)
(** * Properties of the RPC service and its client *)

From S2P Require Import Prelude Text Address VmTypes ChainTypes Convert Framework Context.
From S2P Require Import Validator Store Mempool Chain ChainProps Miner Http Rpc NodeClient.
From S2P Require Import MinerProps HexInstance NodeExamples LedgerCorrect RpcProps.

Section round_trip.
Context `{PrefixHex, Crypto, Executor, Bcs, Base58, JsonLib, WireLib, UrlLib, !ErrorTexts}.
Context `{!PrefixHexLaws, !Base58Laws, !JsonLaws, !UrlLaws}.

Lemma extract_path_plain raw : all_chars is_plain raw = true → extract_path raw = Ok raw.
Proof. intros Hr. unfold extract_path. by rewrite percent_plain. Qed.
Lemma parse_address_ok a : wf_address a → parse_address (address_to_string a) = Ok a.
Proof. intros Ha. unfold parse_address. by rewrite address_from_to_string. Qed.
Lemma parse_digest_ok d : wf_digest d → parse_digest (digest_to_string d) = Ok d.
Proof. intros Hd. unfold parse_digest. by rewrite digest_from_to_string. Qed.

(** A path of a known prefix and a plain parameter. *)
Lemma param_path prefix s :
  all_chars is_path_char prefix = true → starts_with_slash prefix = false → prefix ≠ "" →
  all_chars is_plain s = true →
  all_chars is_path_char (prefix +:+ s) = true ∧ starts_with_slash (prefix +:+ s) = false ∧
  prefix +:+ s ≠ "".
Proof.
  intros Hp Hs Hne Hpl. rewrite all_chars_app, Hp, (all_chars_impl _ _ _ plain_path Hpl).
  by destruct prefix.
Qed.

Context (c : NodeClient) (Hbase : url_path (base_url c) = "/") (h : RpcHandler) (store : Store).
Context (Hstore : ∀ E, head_store (E:=E) (chain (rpc_miner h)) = Ok store).

(** A [GET] by the route of its path. *)
Ltac get_by route :=
  eapply (get_value c Hbase); [try done; by apply route..|]; intros req _; cbn [handle];
  rewrite ?extract_path_plain by done.

Lemma get_object_round_trip a :
  wf_address a → perform deliver h (client_get_object c a) = (Ok (get_object store a), h).
Proof.
  intros Ha. destruct (address_plain a Ha) as [Hp Hne].
  destruct (param_path "object/" (address_to_string a)) as (? & ? & ?); try done. get_by route_object.
  simpl. unfold rpc_get_object. rewrite parse_address_ok by done. simpl.
  unfold handler_get_object. by rewrite Hstore.
Qed.
Lemma get_objects_owned_round_trip a :
  wf_address a → perform deliver h (client_get_objects_owned c a) = (Ok (get_objects store a), h).
Proof.
  intros Ha. destruct (address_plain a Ha) as [Hp Hne].
  destruct (param_path "objects_owned/" (address_to_string a)) as (? & ? & ?); try done.
  get_by route_objects_owned. simpl. unfold rpc_get_objects_owned.
  rewrite parse_address_ok by done. simpl. unfold handler_get_objects_owned. by rewrite Hstore.
Qed.

(** The four queries by digest. *)
Lemma by_digest_round_trip d :
  wf_digest d →
  perform deliver h (client_get_transaction c d) = (Ok (get_transaction (chain (rpc_miner h)) d), h) ∧
  perform deliver h (client_get_transaction_result c d) =
    (Ok (get_transaction_result (chain (rpc_miner h)) d), h) ∧
  perform deliver h (client_get_block c d) = (Ok (get_block (chain (rpc_miner h)) d), h) ∧
  perform deliver h (client_get_block_snapshot c d) =
    (Ok (get_block_snapshot (chain (rpc_miner h)) d), h).
Proof.
  intros Hd. destruct (digest_plain d Hd) as [Hp Hne]. split_and!.
  - destruct (param_path "transaction/" (digest_to_string d)) as (? & ? & ?); try done.
    get_by route_transaction. simpl. unfold rpc_get_transaction. by rewrite parse_digest_ok.
  - destruct (param_path "transaction-result/" (digest_to_string d)) as (? & ? & ?); try done.
    get_by route_transaction_result. simpl. unfold rpc_get_transaction_result.
    by rewrite parse_digest_ok.
  - destruct (param_path "block/" (digest_to_string d)) as (? & ? & ?); try done.
    get_by route_block. simpl. unfold rpc_get_block. by rewrite parse_digest_ok.
  - destruct (param_path "block-snapshot/" (digest_to_string d)) as (? & ? & ?); try done.
    get_by route_block_snapshot. simpl. unfold rpc_get_block_snapshot. by rewrite parse_digest_ok.
Qed.

Lemma get_blocks_since_round_trip n :
  in_u64 n →
  perform deliver h (client_get_blocks_since c n) = (Ok (get_blocks_since (chain (rpc_miner h)) n), h).
Proof.
  intros Hn. destruct (pretty_plain n) as [Hp Hne]; [apply Hn|].
  destruct (param_path "blocks-since/" (pretty n)) as (? & ? & ?); try done.
  get_by route_blocks_since. simpl. unfold rpc_get_blocks_since.
  rewrite pretty_Z_N, parse_u64_pretty by (try done; apply Hn). done.
Qed.
Lemma get_chain_head_round_trip :
  perform deliver h (client_get_chain_head c) = (Ok (head_hash (chain (rpc_miner h))), h).
Proof. by get_by (eq_refl (Some GetChainHead)). Qed.
Lemma get_state_snapshot_round_trip snapshot :
  (∀ E, get_state_snapshot (E:=E) (rpc_miner h) = Ok snapshot) →
  perform deliver h (client_get_state_snapshot c) = (Ok snapshot, h).
Proof.
  intros Hs. get_by (eq_refl (Some GetStateSnapshot)). unfold rpc_get_state_snapshot, handler_get_state_snapshot.
  by rewrite Hs.
Qed.

(** The query of [get_objects]. *)
Lemma append_addresses u addresses :
  let u' := foldl (λ url addr, url_append_pair url "address" (address_to_string addr)) u addresses in
  url_path u' = url_path u ∧
  url_query u' = url_query u ++ ((λ a, ("address", address_to_string a)) <$> addresses).
Proof.
  simpl. revert u. induction addresses as [|a l IH]; intros u; simpl; [by rewrite app_nil_r|].
  destruct (IH (url_append_pair u "address" (address_to_string a))) as [-> ->].
  by rewrite append_pair_path, append_pair_query, <-app_assoc.
Qed.
Lemma address_params (addresses : list Address) :
  snd <$> filter (λ p : string * string, fst p = "address")
    ((λ a, ("address", address_to_string a)) <$> addresses) = address_to_string <$> addresses.
Proof.
  induction addresses as [|a l IH]; [done|]. rewrite !fmap_cons, filter_cons_True by done.
  rewrite fmap_cons. by f_equal.
Qed.
Lemma parse_addresses_ok l :
  Forall wf_address l → parse_addresses (address_to_string <$> l) = Ok l.
Proof.
  induction 1 as [|a l Ha _ IH]; [done|]. cbn [fmap list_fmap parse_addresses].
  rewrite parse_address_ok by done. simpl. by rewrite IH.
Qed.
Lemma handler_get_objects_ok {E} l : handler_get_objects (E:=E) h l = Ok (get_object store <$> l).
Proof.
  induction l as [|a l IH]; [done|]. simpl. unfold handler_get_object. rewrite Hstore. simpl.
  by rewrite IH.
Qed.
Lemma get_objects_round_trip l :
  Forall wf_address l →
  if bool_decide (MAX_GET_OBJECTS_ADDRESSES < length l)
  then ∃ body, perform deliver h (client_get_objects c l) = (Err (NodeClientError.NodeError BAD_REQUEST body), h)
  else perform deliver h (client_get_objects c l) = (Ok (get_object store <$> l), h).
Proof.
  intros Hl. unfold client_get_objects.
  destruct (join_path c Hbase "objects") as (u & -> & Hu & Hq); [done..|]. cbn [mbind outcome_bind].
  destruct (append_addresses u l) as [Hu' Hq']. cbv zeta in Hu', Hq'.
  set (u' := foldl _ _ _) in *.
  assert (Hr : route (url_path u') = Some GetObjects) by by rewrite Hu', Hu.
  rewrite (perform_get _ _ u' GetObjects) by done. unfold answered. cbn [handle req_query].
  unfold rpc_get_objects. rewrite Hq', Hq. cbn [app]. rewrite address_params, length_fmap.
  case_bool_decide as Hn.
  - eexists. simpl. done.
  - cbn [guard_err mbind outcome_bind]. rewrite parse_addresses_ok by done.
    cbn [mbind outcome_bind]. rewrite handler_get_objects_ok. simpl. by rewrite expect_respond.
Qed.

(** The two [POST] endpoints. *)
Lemma submit_round_trip s :
  (body_size (serialize s) ≤ MAX_REQUEST_BODY_BYTES)%Z →
  match submit_transaction (rpc_miner h) s with
  | Ok m => perform deliver h (client_submit_transaction c s) =
      (Ok (), mkHandler m (publish_transactions_tx h ++ [bcs_signed s]))
  | Err (MinerError.MempoolError e) => perform deliver h (client_submit_transaction c s) =
      (Err (node_error (mempool_error_response e)), h)
  | _ => False
  end.
Proof.
  intros Hsize. destruct (perform_post c Hbase h "submit-transaction" s expect_success SubmitTransaction)
    as (req & Hreq & Hp); try done. unfold client_submit_transaction. rewrite Hp. clear Hp.
  unfold answered. cbn [handle]. unfold extract_json.
  rewrite Hreq, bool_decide_false by lia. cbn [guard_err mbind outcome_bind].
  rewrite serde_roundtrip. cbn [ok_or mbind outcome_bind].
  unfold rpc_submit_transaction, handler_submit_transaction, submit_transaction. rewrite Hstore.
  cbn [mbind outcome_bind].
  pose proof (submit_returns (mempool (rpc_miner h)) s store) as Hr.
  destruct (submit (mempool (rpc_miner h)) s store) as [mp|e| |]; simpl; try done.
  unfold mempool_error_response. destruct (mempool_error_status e) as [status code] eqn:He.
  destruct e; simpl in He; simplify_eq; done.
Qed.
Lemma simulate_round_trip t :
  (body_size (serialize t) ≤ MAX_REQUEST_BODY_BYTES)%Z →
  match simulate_transaction (rpc_miner h) t with
  | Ok r => perform deliver h (client_simulate_transaction c t) = (Ok r, h)
  | Err (MinerError.MempoolError e) => perform deliver h (client_simulate_transaction c t) =
      (Err (node_error (mempool_error_response e)), h)
  | Err (MinerError.SimulationError e) => perform deliver h (client_simulate_transaction c t) =
      (Err (node_error (error_response BAD_REQUEST "simulation_error" (executor_error_to_string e))), h)
  | Err (MinerError.ChainError _) => False
  | _ => perform deliver h (client_simulate_transaction c t) = (Err NodeClientError.ReqwestError, h)
  end.
Proof.
  intros Hsize. destruct (perform_post c Hbase h "simulate-transaction" t (expect_json (A:=ExecutionResult)) SimulateTransaction)
    as (req & Hreq & Hp); try done. unfold client_simulate_transaction. rewrite Hp. clear Hp.
  unfold answered. cbn [handle]. unfold extract_json.
  rewrite Hreq, bool_decide_false by lia. cbn [guard_err mbind outcome_bind].
  rewrite serde_roundtrip. cbn [ok_or mbind outcome_bind].
  unfold rpc_simulate_transaction, handler_simulate_transaction.
  assert (Hnc : ∀ e, simulate_transaction (rpc_miner h) t ≠ Err (MinerError.ChainError e)).
  { intros e. unfold simulate_transaction. rewrite Hstore. cbn [mbind outcome_bind].
    destruct (head_block _) eqn:Hh; simpl; try done; [|by unfold head_block in Hh; destruct (_ !! _)].
    destruct (validate_against_store t store); simpl; try done. by destruct (execute _ _ _). }
  destruct (simulate_transaction (rpc_miner h) t) as [r|[e|e|e]| |]; simpl; try done.
  - by rewrite expect_respond.
  - by destruct (Hnc e).
  - unfold mempool_error_response. destruct (mempool_error_status e) as [status code] eqn:He.
    destruct e; simpl in He; simplify_eq; done.
Qed.
End round_trip.

Section claim.
Context `{PrefixHex, Crypto, Executor, Bcs, Base58, JsonLib, WireLib, UrlLib, !ErrorTexts}.
Context `{!PrefixHexLaws, !Base58Laws, !JsonLaws, !UrlLaws}.

(** C13: every method of the client, run against the service over a network that
    carries its requests, returns what the node holds: the objects of the head's
    store, committed transactions and their results, blocks and snapshots by
    hash, the head, the blocks from a height on.  A submitted transaction is
    accepted exactly when the pool accepts it, and is then queued for gossip;
    otherwise the client gets the status and text of the pool's error and
    nothing has changed.  More than 100 addresses at once are refused.  The
    branches of the service that are marked as unreachable are not reached. *)
Theorem rpc_round_trip (u : Url) (h : RpcHandler) :
  let c := with_url u in let cs := chain (rpc_miner h) in
  url_path u = "/" → chain_core cs →
  ∃ hb store, blocks cs !! head_hash cs = Some hb ∧ snapshots cs !! head_hash cs = Some store ∧
  (∀ a, wf_address a →
    perform deliver h (client_get_object c a) = (Ok (get_object store a), h) ∧
    perform deliver h (client_get_objects_owned c a) = (Ok (get_objects store a), h)) ∧
  (∀ l, Forall wf_address l →
    if bool_decide (MAX_GET_OBJECTS_ADDRESSES < length l)
    then ∃ body, perform deliver h (client_get_objects c l) =
                 (Err (NodeClientError.NodeError BAD_REQUEST body), h)
    else perform deliver h (client_get_objects c l) = (Ok (get_object store <$> l), h)) ∧
  (∀ d, wf_digest d →
    perform deliver h (client_get_transaction c d) = (Ok (get_transaction cs d), h) ∧
    perform deliver h (client_get_transaction_result c d) = (Ok (get_transaction_result cs d), h) ∧
    perform deliver h (client_get_block c d) = (Ok (get_block cs d), h) ∧
    perform deliver h (client_get_block_snapshot c d) = (Ok (get_block_snapshot cs d), h)) ∧
  perform deliver h (client_get_chain_head c) = (Ok (head_hash cs), h) ∧
  (∀ n, in_u64 n → perform deliver h (client_get_blocks_since c n) = (Ok (get_blocks_since cs n), h)) ∧
  perform deliver h (client_get_state_snapshot c) = (Ok (mkSnapshot hb (store_objects store)), h) ∧
  (∀ s, (body_size (serialize s) ≤ MAX_REQUEST_BODY_BYTES)%Z →
    match submit_transaction (rpc_miner h) s with
    | Ok m => perform deliver h (client_submit_transaction c s) =
        (Ok (), mkHandler m (publish_transactions_tx h ++ [bcs_signed s]))
    | Err (MinerError.MempoolError e) => perform deliver h (client_submit_transaction c s) =
        (Err (node_error (mempool_error_response e)), h)
    | _ => False
    end) ∧
  (∀ t, (body_size (serialize t) ≤ MAX_REQUEST_BODY_BYTES)%Z →
    match simulate_transaction (rpc_miner h) t with
    | Ok r => perform deliver h (client_simulate_transaction c t) = (Ok r, h)
    | Err (MinerError.MempoolError e) => perform deliver h (client_simulate_transaction c t) =
        (Err (node_error (mempool_error_response e)), h)
    | Err (MinerError.SimulationError e) => perform deliver h (client_simulate_transaction c t) =
        (Err (node_error (error_response BAD_REQUEST "simulation_error" (executor_error_to_string e))), h)
    | Err (MinerError.ChainError _) => False
    | _ => perform deliver h (client_simulate_transaction c t) = (Err NodeClientError.ReqwestError, h)
    end).
Proof.
  intros c cs Hu Hwf. destruct (wf_head _ Hwf) as (hb & Hhb & _).
  destruct (snapshot_of_block _ _ _ Hwf Hhb) as (store & Hs & _). exists hb, store.
  assert (Hbase : url_path (base_url c) = "/").
  { unfold c, with_url, normalize_url. cbn [base_url]. by rewrite Hu. }
  assert (Hstore : ∀ E, head_store (E:=E) (chain (rpc_miner h)) = Ok store).
  { intros E. unfold head_store. fold cs. by rewrite Hs. }
  split_and!; [done..| | | | | | | |].
  - intros a Ha. split; [by apply get_object_round_trip|by apply get_objects_owned_round_trip].
  - intros l Hl. by apply get_objects_round_trip.
  - intros d Hd. by apply by_digest_round_trip.
  - by apply get_chain_head_round_trip.
  - intros n Hn. by apply get_blocks_since_round_trip.
  - apply get_state_snapshot_round_trip; [done|]. intros E. unfold get_state_snapshot. fold cs.
    by rewrite (head_block_ok _ _ Hhb), Hstore.
  - intros s Hsz. by eapply submit_round_trip.
  - intros t Hsz. by eapply simulate_round_trip.
Qed.
End claim.

(** A node at genesis, and a transaction submitted to it. *)
Definition handler0 : RpcHandler := mkHandler miner0 [].
Definition root_url : Url := mkToyUrl "/" [].
Lemma rpc_round_trip_witness :
  fst (perform deliver handler0 (client_submit_transaction (with_url root_url) (spend coin))) = Ok () ∧
  perform deliver handler0 (client_get_chain_head (with_url root_url)) =
    (Ok (block_hash block_genesis), handler0).
Proof.
  destruct (rpc_round_trip root_url handler0) as (hb & store & _ & _ & _ & _ & _ & Hh & _ & _ & Hs & _).
  - reflexivity.
  - apply wf_core, miner0_chain_wf.
  - split; [|exact Hh]. specialize (Hs (spend coin)).
    destruct (submit_transaction (rpc_miner handler0) (spend coin)) as [m| | |] eqn:Hm;
      [|by vm_compute in Hm..]. rewrite Hs; [reflexivity|by vm_compute].
Defined.
