(* ===== verification/NodeProps.v ===== *)
(** * The invariant of a node

    For the blocks in play, on which the hash does not collide: what every turn
    of every service preserves.  Then what applying the blocks of a peer achieves. *)

From S2P Require Import Prelude Text Address VmTypes ChainTypes Convert Framework Context.
From S2P Require Import Validator Store Mempool Chain ChainProps Miner MinerProps.
From S2P Require Import Http Rpc NodeClient GossipNetwork GossipService Node.
From S2P Require Import LedgerCorrect.
From stdpp Require Import sorting.

(** The height of the head. *)
Definition chain_height (cs : ChainState) : Z :=
  match blocks cs !! head_hash cs with Some b => height (block_header b) | None => 0%Z end.
Lemma chain_height_eq cs hb :
  blocks cs !! head_hash cs = Some hb → chain_height cs = height (block_header hb).
Proof. unfold chain_height. by intros ->. Qed.

Section miner.
Context `{Crypto, Executor} (P : Block → Prop).

Record miner_ok (m : Miner) : Prop := {
  mo_core : chain_core (chain m);
  mo_depth : (0 ≤ snapshot_depth (chain m))%Z;
  mo_pool : wf_mempool (mempool m);
  mo_play d b : blocks (chain m) !! d = Some b → P b;
}.
(** A turn leaves the miner well formed, its head no lower and its settings as
    they were. *)
Definition advances (m m' : Miner) : Prop :=
  miner_ok m' ∧ (chain_height (chain m) ≤ chain_height (chain m'))%Z ∧
  difficulty (chain m') = difficulty (chain m) ∧
  snapshot_depth (chain m') = snapshot_depth (chain m).
Lemma advances_refl m : miner_ok m → advances m m.
Proof. by split. Qed.
Lemma advances_trans m1 m2 m3 : advances m1 m2 → advances m2 m3 → advances m1 m3.
Proof.
  intros (_ & H1 & D1 & S1) (Hok & H2 & D2 & S2). split_and!; [done|lia|congruence|congruence].
Qed.

Lemma with_pool_ok m mp : miner_ok m → wf_mempool mp → advances m (set_mempool m mp).
Proof. intros [Hc Hd Hp Hpl] Hmp. by split. Qed.

Lemma miner_apply_block_ok now m b r m' :
  miner_ok m → P b → miner_apply_block now m b = Ok (r, m') → advances m m'.
Proof.
  intros [Hc Hd Hmp Hpl] Hb Ha. unfold miner_apply_block in Ha.
  apply bind_Ok in Ha as ([re cs] & Ha%map_err_Ok & Hr).
  destruct (apply_block_core _ _ _ _ _ Hc Hd Ha) as (Hc' & Hdf & Hd' & hb & hb' & Hhb & Hhb' & Hh & Hsub & _).
  assert (Hadv : advances m (set_chain m cs)).
  { split_and!; [split; simpl; [done|by rewrite Hd'|done|]| |done..].
    - intros d b' [[_ ->]|Hb']%Hsub; [done|by eapply Hpl].
    - simpl. rewrite (chain_height_eq _ _ Hhb), (chain_height_eq _ _ Hhb'). lia. }
  destruct re; [|by simplify_eq]. apply bind_Ok in Hr as (s & _ & Hr). simplify_eq.
  eapply advances_trans; [done|]. apply with_pool_ok; [apply Hadv|]. by apply retain_valid_wf.
Qed.

Lemma replace_from_snapshot_ok now m snapshot m' :
  miner_ok m → P (snap_head snapshot) → replace_from_snapshot now m snapshot = Ok m' → advances m m'.
Proof.
  intros [Hc Hd Hmp Hpl] Hb Hr. unfold replace_from_snapshot in Hr.
  apply bind_Ok in Hr as (h & Hh & Hr). apply bind_Ok in Hr as (cs & Hf%map_err_Ok & Hr). simplify_eq.
  apply from_snapshot_Ok in Hf as (Hlt & _ & _ & ->).
  destruct (wf_head _ Hc) as (hb & Hhb & Hwin). unfold head_height in Hh.
  rewrite (head_block_ok _ _ Hhb) in Hh. simplify_eq/=. destruct (Hwin _ _ Hhb) as [[Hpos _] _].
  split_and!; [split; simpl| |done..].
  - apply single_chain_core; [apply with_objects_wf|done|lia].
  - done.
  - apply mempool_reachable_wf. constructor.
  - by intros d b [_ <-]%lookup_singleton_Some.
  - simpl. rewrite (chain_height_eq _ _ Hhb). unfold chain_height. simpl. rewrite lookup_singleton_eq. lia.
Qed.

Lemma submit_transaction_ok m s m' :
  miner_ok m → submit_transaction m s = Ok m' →
  advances m m' ∧ validate_signed_transaction s = Ok ().
Proof.
  intros Hm Hs. unfold submit_transaction in Hs. apply bind_Ok in Hs as (store & _ & Hs).
  apply bind_Ok in Hs as (mp & Hs%map_err_Ok & Heq). simplify_eq. split.
  - apply with_pool_ok; [done|]. eapply submit_wf; [apply Hm|done].
  - by apply submit_Ok in Hs as (? & _).
Qed.
End miner.

(** ** The miner service *)
Section mining.
Context `{Crypto, Executor} (P : Block → Prop).

(** A header for the child of a block in play. *)
Definition child_header (header : BlockHeader) : Prop :=
  ∃ p, P p ∧ block_hash p = parent_hash header ∧ height header = (height (block_header p) + 1)%Z.
Definition phase_ok (ph : MinerPhase) : Prop :=
  match ph with
  | MIdle => True
  | MGrinding w => child_header (work_header w) ∧ wf_store (parent_store w)
  | MFound b s => child_header (block_header b) ∧ wf_store s
  end.

Lemma prepare_round_ok {E} now m w m' :
  miner_ok P m → prepare_round (E:=E) now m = Ok (w, m') →
  advances P m m' ∧ phase_ok match w with Some w => MGrinding w | None => MIdle end.
Proof.
  intros Hm Hp. destruct w as [w|]; last first.
  { unfold prepare_round in Hp. case_bool_decide; [simplify_eq; by split; [apply advances_refl|]|].
    destruct (drain_batch _ _). repeat (apply bind_Ok in Hp as (? & _ & Hp)). done. }
  destruct (prepare_round_work _ _ _ _ (mo_pool _ _ Hm) Hp)
    as (p & Hpb & Hps & Hph & Hht & _ & _ & _ & _ & _ & _ & _ & _ & _ & _ & Hc & Hmp & _).
  destruct Hm as [Hco Hd _ Hpl]. split.
  - split; [|by rewrite Hc]. split; rewrite ?Hc; done.
  - split; [|by eapply wf_snapshots]. exists p. split_and!; [by eapply Hpl| |done].
    rewrite Hph. by eapply wf_hash.
Qed.

Lemma make_reward_wf {E} w h rs s t r s' :
  wf_store s → make_reward (E:=E) w h rs s = Ok (t, r, s') → wf_store s'.
Proof.
  intros Hs Hm. unfold make_reward in Hm. apply bind_Ok in Hm as (g & _ & Hm).
  case_bool_decide; [|by simplify_eq]. case_match; try done.
  apply bind_Ok in Hm as (s1 & Ha & Hm). simplify_eq.
  apply apply_execution_result_inv in Ha as [_ ->]. by apply applied_wf.
Qed.
Lemma grind_ok rounds nonces w r :
  phase_ok (MGrinding w) → grind (E:=ChainError.t) rounds nonces w = Ok r →
  phase_ok match r with Some (b, s) => MFound b s | None => MIdle end.
Proof.
  intros [(p & Hp & Hh & Hht) Hs] Hg. destruct r as [[b s]|]; [|done].
  apply grind_loop_mined in Hg as [(n & rr & sr & Hhd & _) _ _ _ (s0 & Hx & Hr) _ _].
  split.
  - exists p. rewrite Hhd. done.
  - eapply make_reward_wf; [|done]. by eapply execute_all_wf.
Qed.

Context (HP : ∀ a b, P a → P b → block_hash a = block_hash b → a = b).

Lemma commit_mined_ok {E} now m b s r m' :
  miner_ok P m → P b → phase_ok (MFound b s) → commit_mined (E:=E) now m b s = Ok (r, m') →
  advances P m m' ∧ (r = true → structure_ok now b (difficulty (chain m))).
Proof.
  intros Hm Hb [(p & Hp & Hh & Hht) Hs] Hc. unfold commit_mined in Hc.
  destruct (decide (parent_hash (block_header b) = head_hash (chain m))) as [Hhd|Hhd]; last first.
  { rewrite bool_decide_true in Hc by done. simplify_eq. by split; [apply advances_refl|]. }
  rewrite bool_decide_false in Hc by (by intros []).
  apply bind_Ok in Hc as (cs & Hc & Heq). simplify_eq. destruct Hm as [Hco Hd Hmp Hpl].
  destruct (wf_head _ Hco) as (hb & Hhb & Hwin).
  assert (hb = p) as ->.
  { apply HP; [by eapply Hpl|done|]. rewrite Hh, Hhd. by eapply wf_hash. }
  assert (Hon : on_parent (chain m) b).
  { split; [|exists p; by rewrite Hhd]. destruct (blocks (chain m) !! block_hash b) as [b'|] eqn:Hb'; [|done].
    assert (b' = b) as ->; [|destruct (Hwin _ _ Hb'); lia].
    apply HP; [by eapply Hpl|done|by eapply wf_hash]. }
  unfold commit in Hc. destruct (validate_block_structure now b _) as [[]| | |] eqn:Hv; try done.
  destruct (add_block_switch_core (E:=E) (chain m) b s)
    as (cs' & Hpr & Hc' & Hhd' & Hbl & _ & Hdf & Hdp & Hbs & _); try done.
  { intros hb' Hhb'. simplify_eq. lia. }
  unfold add_block in Hpr. rewrite Hpr in Hc. simplify_eq.
  split; [split_and!; [split; simpl; [done|by rewrite Hdp|done|]| |done..]|].
  - intros d b' Hdb. destruct (decide (d = block_hash b)) as [->|Hne]; [by simplify_eq|].
    apply Hbs in Hdb as [Hdb _]; [|done]. by eapply Hpl.
  - simpl. rewrite (chain_height_eq _ _ Hhb). rewrite <-Hhd' in Hbl. rewrite (chain_height_eq _ _ Hbl). lia.
  - intros _. by eapply validate_block_structure_Ok.
Qed.
End mining.

(** ** The gossip service *)
Section gossip.
Context `{Crypto, Executor, UrlLib, WireLib, !NodeLib, !NodeLibLaws} (P : Block → Prop).

(** Buffered blocks are distinct, remembered, and not too many. *)
Record buffer_ok (bs : list Block) (hs : gset Digest) : Prop := {
  bo_seen : hs = list_to_set (block_hash <$> bs);
  bo_nodup : NoDup (block_hash <$> bs);
  bo_bound : (Z.of_nat (length bs) ≤ MAX_BUFFERED_SYNC_BLOCKS)%Z;
  bo_play : Forall P bs;
}.
(** A future is pending only in its own state, so that none is ever dropped or
    resolves in another state. *)
Record gossip_ok (g : GossipService) : Prop := {
  go_state : match service_state g with
    | Working => sync_fut g = None ∧ state_sync_fut g = None
    | Syncing bs hs => state_sync_fut g = None ∧ deciding g = None ∧ buffer_ok bs hs
    | StateSyncing bs hs => sync_fut g = None ∧ deciding g = None ∧ buffer_ok bs hs
    end;
  go_deciding d : deciding g = Some d → P (bd_block d);
}.

Lemma buffer_single b : P b → buffer_ok [b] {[block_hash b]}.
Proof.
  intros Hb. split; simpl.
  - by rewrite (right_id_L ∅ (∪)).
  - apply NoDup_singleton.
  - unfold MAX_BUFFERED_SYNC_BLOCKS. lia.
  - by constructor.
Qed.
Lemma buffer_keeps bs hs b bs' hs' :
  buffer_ok bs hs → P b → buffer bs hs b = (bs', hs') → buffer_ok bs' hs'.
Proof.
  intros [Hs Hn Hl Hp] Hb. unfold buffer. case_bool_decide as Hf; [by intros [= <- <-]|].
  case_bool_decide as Hin; intros [= <- <-]; [done|]. rewrite Hs, elem_of_list_to_set in Hin. split.
  - rewrite fmap_app, list_to_set_app_L, Hs. simpl. by rewrite (right_id_L ∅ (∪)), (comm_L (∪)).
  - rewrite fmap_app. apply list.NoDup_app. split_and!; [done| |apply NoDup_singleton].
    by intros d Hd ->%list_elem_of_singleton.
  - rewrite length_app. simpl. lia.
  - apply Forall_app. by split; [|constructor].
Qed.

Lemma attempt_Ok {E F A} (m : outcome F A) r :
  attempt (E:=E) m = Ok r → match r with Some a => m = Ok a | None => ∃ e, m = Err e end.
Proof. destruct m; simpl; intros; simplify_eq; eauto. Qed.
Lemma apply_quietly_ok {E} now m b m' :
  miner_ok P m → P b → apply_quietly (E:=E) now m b = Ok m' → advances P m m'.
Proof.
  intros Hm Hb Ha. unfold apply_quietly in Ha. apply bind_Ok in Ha as (r & Hr%attempt_Ok & Ha).
  destruct r as [[r m1]|]; simplify_eq; [by eapply miner_apply_block_ok|by apply advances_refl].
Qed.
Lemma apply_unseen_ok {E} now seen m l seen' m' :
  miner_ok P m → Forall P l → apply_unseen (E:=E) now seen m l = Ok (seen', m') → advances P m m'.
Proof.
  intros Hm Hl. revert seen m Hm. induction Hl as [|b l Hb _ IH]; intros seen m Hm Ha; simpl in Ha.
  { simplify_eq. by apply advances_refl. }
  case_bool_decide; [by eapply IH|]. apply bind_Ok in Ha as (m1 & Hq & Ha).
  apply (apply_quietly_ok _ _ _ _ Hm Hb) in Hq. eapply advances_trans; [done|]. eapply IH; [apply Hq|done].
Qed.
Lemma sorted_play l : Forall P l → Forall P (sort_by_height l).
Proof. by rewrite sort_perm. Qed.
Lemma apply_sorted_ok {E} now seen m l m' :
  miner_ok P m → Forall P l →
  snd <$> apply_unseen (E:=E) now seen m (sort_by_height l) = Ok m' → advances P m m'.
Proof.
  intros Hm Hl ([seen' m1] & Ha & ->)%fmap_Ok. eapply apply_unseen_ok; [done|by apply sorted_play|done].
Qed.

Lemma on_snapshot_ok {E} now snapshot g m g' m' :
  gossip_ok g → miner_ok P m → is_some (state_sync_fut g) = true → deciding g = None →
  (∀ s, snapshot = Some s → P (snap_head s)) →
  on_snapshot (E:=E) now snapshot g m = Ok (g', m') → gossip_ok g' ∧ advances P m m'.
Proof.
  intros [Hg Hd] Hm Hf Hdn Hsn Ho. unfold on_snapshot in Ho. apply bind_Ok in Ho as (m1 & Hm1 & Ho).
  simplify_eq. destruct (service_state g) as [|bs hs|bs hs] eqn:Hst.
  1-2: destruct (state_sync_fut g); naive_solver.
  destruct Hg as (Hsf & _ & Hb). split.
  { split; [simpl; by rewrite Hsf|]. simpl. by rewrite Hdn. }
  destruct snapshot as [s|]; [|simplify_eq; by apply advances_refl].
  apply bind_Ok in Hm1 as (r & Hr%attempt_Ok & Hm1).
  destruct r as [m2|]; [|simplify_eq; by apply advances_refl].
  apply (replace_from_snapshot_ok P) in Hr; [|done|by apply Hsn].
  eapply advances_trans; [done|]. eapply apply_sorted_ok; [apply Hr|apply Hb|done].
Qed.

Lemma on_pulled_ok {E} now pulled g m g' m' :
  gossip_ok g → miner_ok P m → is_some (sync_fut g) = true → deciding g = None → Forall P pulled →
  on_pulled (E:=E) now pulled g m = Ok (g', m') → gossip_ok g' ∧ advances P m m'.
Proof.
  intros [Hg Hd] Hm Hf Hdn Hp Ho. unfold on_pulled in Ho.
  apply bind_Ok in Ho as ([seen m1] & Hm1 & Ho). apply bind_Ok in Ho as (m2 & Hm2 & Ho). simplify_eq.
  destruct (service_state g) as [|bs hs|bs hs] eqn:Hst.
  1,3: destruct (sync_fut g); naive_solver.
  destruct Hg as (Hsf & _ & Hb). split.
  { split; [simpl; by rewrite Hsf|]. simpl. by rewrite Hdn. }
  apply apply_unseen_ok in Hm1; [|done|by apply sorted_play].
  eapply advances_trans; [done|]. eapply apply_sorted_ok; [apply Hm1|apply Hb|done].
Qed.

Lemma on_transaction_ok {E} data m m' :
  miner_ok P m → on_transaction (E:=E) data m = Ok m' → advances P m m'.
Proof.
  intros Hm Ho. unfold on_transaction in Ho.
  destruct (bcs_signed_decode data) as [s|]; [|simplify_eq; by apply advances_refl].
  apply bind_Ok in Ho as (r & Hr%attempt_Ok & Ho). simplify_eq.
  destruct r as [m1|]; simpl; [|by apply advances_refl].
  by apply (submit_transaction_ok P) in Hr as [? _].
Qed.

Lemma on_block_ok {E} data from g m g' :
  gossip_ok g → deciding g = None → (∀ b, bcs_block_decode data = Some b → P b) →
  on_block (E:=E) data from g m = Ok g' → gossip_ok g'.
Proof.
  intros [Hg Hd] Hdn Hb Ho. unfold on_block in Ho.
  destruct (bcs_block_decode data) as [b|]; [|by simplify_eq]. specialize (Hb b eq_refl).
  destruct (service_state g) as [|bs hs|bs hs] eqn:Hst.
  - apply bind_Ok in Ho as (lh & _ & Ho). apply bind_Ok in Ho as (ss & _ & Ho). simplify_eq.
    split; simpl; [by rewrite Hst|]. by intros d [= <-].
  - destruct (buffer bs hs b) as [bs' hs'] eqn:Hbf. simplify_eq. destruct Hg as (? & ? & Hok).
    split; simpl; [|done]. split_and!; [done..|]. by eapply buffer_keeps.
  - destruct (buffer bs hs b) as [bs' hs'] eqn:Hbf. simplify_eq. destruct Hg as (? & ? & Hok).
    split; simpl; [|done]. split_and!; [done..|]. by eapply buffer_keeps.
Qed.

Lemma decide_block_ok {E} now d g m g' m' :
  gossip_ok g → miner_ok P m → deciding g = Some d →
  decide_block (E:=E) now d g m = Ok (g', m') → gossip_ok g' ∧ advances P m m'.
Proof.
  intros [Hg Hd] Hm Hdg Ho. specialize (Hd d Hdg).
  destruct (service_state g) as [|bs hs|bs hs] eqn:Hst; [|naive_solver..]. destruct Hg as [Hs1 Hs2].
  unfold decide_block in Ho. apply bind_Ok in Ho as (far & _ & Ho).
  case_bool_decide as Hfar.
  { simplify_eq. split; [|by apply advances_refl]. split; simpl; [|done].
    split_and!; [done..|by apply buffer_single]. }
  apply bind_Ok in Ho as (next & _ & Ho).
  assert (Hstart : ∀ m1, advances P m m1 → gossip_ok (set_futures
      (set_state (set_deciding g None) (Syncing [bd_block d] {[block_hash (bd_block d)]}))
      match bd_peer_url d with Some url => Some (url, bd_sync_start d) | None => sync_fut g end
      (state_sync_fut g)) ∧ advances P m m1).
  { intros m1 Hm1. split; [|done]. split; simpl; [|done]. split_and!; [done..|by apply buffer_single]. }
  case_bool_decide as Hnext; [simplify_eq; apply Hstart; by apply advances_refl|].
  apply bind_Ok in Ho as (r & Hr%attempt_Ok & Ho).
  assert (Hkeep : gossip_ok (set_deciding g None)) by (split; simpl; [by rewrite Hst|done]).
  destruct r as [[r m1]|].
  - simplify_eq. split; [done|]. by eapply miner_apply_block_ok.
  - case_bool_decide; simplify_eq; [apply Hstart; by apply advances_refl|].
    split; [done|by apply advances_refl].
Qed.

(** The blocks that an event brings are in play. *)
Definition event_in_play (e : LoopEvent) : Prop :=
  match e with
  | StateSyncDone (Some s) => P (snap_head s)
  | SyncDone l => Forall P l
  | NetworkMessage (Some (Message _ _ data _)) => ∀ b, bcs_block_decode data = Some b → P b
  | _ => True
  end.

(** What a turn may publish. *)
Definition messages_of (e : LoopEvent) (msgs : list (string * list Z)) : Prop :=
  ∀ topic data, (topic, data) ∈ msgs →
    topic = TOPIC_PEER_INFO ∨
    (topic = TOPIC_TRANSACTIONS ∧ e = TransactionToPublish (Some data)) ∨
    (topic = TOPIC_BLOCKS ∧ e = BlockToPublish (Some data)).

Lemma gossip_turn_ok {E} now e g m g' m' msgs :
  gossip_ok g → miner_ok P m → enabled e g = true → event_in_play e →
  gossip_turn (E:=E) now e g m = Ok (Some (g', m', msgs)) →
  gossip_ok g' ∧ advances P m m' ∧ messages_of e msgs.
Proof.
  intros Hg Hm He Hp Ho. unfold enabled in He.
  assert (Hnone : messages_of e []) by (by intros ? ? ?%not_elem_of_nil).
  assert (Hdn : deciding g = None ∨ e = DecideBlock).
  { destruct (deciding g); [destruct e|]; eauto; done. }
  destruct e as [|sn|pl|[ev|]| |[data|]|[data|]]; simpl in Ho; try done.
  - destruct Hdn as [Hdn|?]; [|done]. rewrite Hdn in He.
    apply bind_Ok in Ho as ([g1 m1] & Ho & Heq). simplify_eq.
    apply on_snapshot_ok in Ho as [??]; try done. intros s ->. done.
  - destruct Hdn as [Hdn|?]; [|done]. rewrite Hdn in He.
    apply bind_Ok in Ho as ([g1 m1] & Ho & Heq). simplify_eq.
    by apply on_pulled_ok in Ho as [??].
  - destruct Hdn as [Hdn|?]; [|done]. destruct ev as [a|id topic data from|pr|pr|pr topic]; simpl in Ho.
    1,3,4: simplify_eq; split_and!; [done|by apply advances_refl|done].
    + destruct (String.eqb topic TOPIC_TRANSACTIONS).
      { apply bind_Ok in Ho as (m1 & Ho & Heq). simplify_eq. by apply on_transaction_ok in Ho. }
      destruct (String.eqb topic TOPIC_BLOCKS).
      { apply bind_Ok in Ho as (g1 & Ho & Heq). simplify_eq.
        split_and!; [by eapply on_block_ok|by apply advances_refl|done]. }
      destruct (String.eqb topic TOPIC_PEER_INFO); simplify_eq;
        (split_and!; [|by apply advances_refl|done]); [|done].
      unfold on_peer_info. repeat case_match; try done.
      destruct Hg as [Hs Hd]. by split.
    + simplify_eq. split_and!; [done|by apply advances_refl|].
      destruct (String.eqb topic TOPIC_PEER_INFO); [|done].
      intros t d [= -> ->]%list_elem_of_singleton. by left.
  - destruct (deciding g) as [d|] eqn:Hdg; [|done].
    apply bind_Ok in Ho as ([g1 m1] & Ho & Heq). simplify_eq. by apply decide_block_ok in Ho as [??].
  - simplify_eq. split_and!; [done|by apply advances_refl|].
    intros t d [= -> ->]%list_elem_of_singleton. right. by left.
  - simplify_eq. split_and!; [done|by apply advances_refl|].
    intros t d [= -> ->]%list_elem_of_singleton. right. by right.
Qed.

(** The blocks that are asked for reach back to the finalized ones: a request
    starts no later than the snapshot depth below the head, which can only rise
    while the request is under way. *)
Definition starts_by (m : Miner) (from : Z) : Prop :=
  (0 ≤ from ≤ saturating_sub (chain_height (chain m)) (snapshot_depth (chain m)))%Z.
Record requests_ok (g : GossipService) (m : Miner) : Prop := {
  ro_sync u from : sync_fut g = Some (u, from) → starts_by m from;
  ro_deciding d : deciding g = Some d → starts_by m (bd_sync_start d);
}.
Lemma starts_by_advances m m' from : advances P m m' → starts_by m from → starts_by m' from.
Proof.
  intros (_ & Hh & _ & Hd). unfold starts_by, saturating_sub. rewrite Hd. lia.
Qed.
Lemma requests_advance g m m' : advances P m m' → requests_ok g m → requests_ok g m'.
Proof. intros Ha [Hs Hd]. split; intros; eapply starts_by_advances; eauto. Qed.
Lemma sync_from_height_starts {E} m from :
  miner_ok P m → sync_from_height (E:=E) (chain m) = Ok from → starts_by m from.
Proof.
  intros Hm (h & (b & Hb%expect_Ok & Hh)%bind_Ok & Hf)%bind_Ok. simplify_eq.
  unfold starts_by. rewrite (chain_height_eq _ _ Hb). unfold saturating_sub. lia.
Qed.

Lemma decide_block_futures {E} now d g m g' m' :
  decide_block (E:=E) now d g m = Ok (g', m') →
  deciding g' = None ∧
  (sync_fut g' = sync_fut g ∨ ∃ url, sync_fut g' = Some (url, bd_sync_start d)).
Proof.
  intros (far & _ & Ho)%bind_Ok. case_bool_decide; [simplify_eq; by split; [|left]|].
  assert (∀ m1, Ok (E:=E) (set_futures
      (set_state (set_deciding g None) (Syncing [bd_block d] {[block_hash (bd_block d)]}))
      match bd_peer_url d with Some url => Some (url, bd_sync_start d) | None => sync_fut g end
      (state_sync_fut g), m1) = Ok (g', m') → deciding g' = None ∧
    (sync_fut g' = sync_fut g ∨ ∃ url, sync_fut g' = Some (url, bd_sync_start d))) as Hstart.
  { intros m1 [= <- _]. simpl. destruct (bd_peer_url d); eauto. }
  apply bind_Ok in Ho as (next & _ & Ho). case_bool_decide; [by eapply Hstart|].
  apply bind_Ok in Ho as ([[r m1]|] & _ & Ho); [simplify_eq; by split; [|left]|].
  case_bool_decide; [by eapply Hstart|]. simplify_eq. by split; [|left].
Qed.
Lemma gossip_turn_requests {E} now e g m g' m' msgs :
  miner_ok P m → advances P m m' → requests_ok g m →
  gossip_turn (E:=E) now e g m = Ok (Some (g', m', msgs)) → requests_ok g' m'.
Proof.
  intros Hm Ha Hr Ho. pose proof (requests_advance _ _ _ Ha Hr) as Hr'.
  destruct e as [|sn|pl|[ev|]| |[data|]|[data|]]; simpl in Ho; try done; try (by simplify_eq).
  - apply bind_Ok in Ho as ([g1 m1] & Ho & Heq). simplify_eq. unfold on_snapshot in Ho.
    apply bind_Ok in Ho as (m2 & _ & Ho). simplify_eq. split; simpl; apply Hr'.
  - apply bind_Ok in Ho as ([g1 m1] & Ho & Heq). simplify_eq. unfold on_pulled in Ho.
    apply bind_Ok in Ho as ([s2 m2] & _ & Ho). apply bind_Ok in Ho as (m3 & _ & Ho). simplify_eq.
    split; simpl; [done|apply Hr'].
  - destruct ev as [a|id topic data from|pr|pr|pr topic]; simpl in Ho; try (by simplify_eq).
    destruct (String.eqb topic TOPIC_TRANSACTIONS);
      [by apply bind_Ok in Ho as (? & _ & Ho); simplify_eq|].
    destruct (String.eqb topic TOPIC_BLOCKS).
    { apply bind_Ok in Ho as (g1 & Ho & Heq). simplify_eq. unfold on_block in Ho.
      destruct (bcs_block_decode data) as [b|]; [|by simplify_eq].
      destruct (service_state g) as [|bs hs|bs hs].
      - apply bind_Ok in Ho as (lh & _ & Ho). apply bind_Ok in Ho as (ss & Hss & Ho). simplify_eq.
        split; simpl; [apply Hr'|]. intros d [= <-]. simpl. by eapply sync_from_height_starts.
      - destruct (buffer bs hs b). simplify_eq. split; simpl; apply Hr'.
      - destruct (buffer bs hs b). simplify_eq. split; simpl; apply Hr'. }
    destruct (String.eqb topic TOPIC_PEER_INFO); simplify_eq; [|done].
    unfold on_peer_info. repeat case_match; try done. split; simpl; apply Hr'.
  - destruct (deciding g) as [d|] eqn:Hdg; [|by simplify_eq].
    apply bind_Ok in Ho as ([g1 m1] & Ho & Heq). simplify_eq.
    destruct (decide_block_futures _ _ _ _ _ _ Ho) as [Hdn Hf].
    split; [|by rewrite Hdn]. intros u from Hs. destruct Hf as [Hf|[url Hf]]; rewrite Hf in Hs.
    + by eapply Hr'.
    + simplify_eq. by eapply ro_deciding.
Qed.
End gossip.

(** ** The node *)
Section node.
Context `{PrefixHex, Crypto, Executor, Bcs, Base58, JsonLib, WireLib, UrlLib}.
Context `{!NodeLib, !ErrorTexts, !NodeLibLaws} (P : Block → Prop).

(** A request changes the handler only by a submission that the pool accepts. *)
Lemma serve_changes {E} h req resp h' :
  serve (E:=E) h req = Ok (resp, h') →
  h' = h ∨ ∃ s m, submit_transaction (rpc_miner h) s = Ok m ∧
    h' = mkHandler m (publish_transactions_tx h ++ [bcs_signed s]).
Proof.
  unfold serve. destruct (route (req_path req)) as [e|]; [|intros; simplify_eq; by left].
  destruct (allowed e (req_method req)); [|intros; simplify_eq; by left].
  intros ([r h1] & Hh & Heq)%bind_Ok.
  assert (h1 = h') as -> by (by simplify_eq). clear Heq.
  destruct (handle h e req) as [[r' h2]|r'| |] eqn:Hd; simplify_eq; [|by left].
  destruct e; cbn [handle] in Hd; try (apply fmap_Ok in Hd as (? & _ & ?); simplify_eq; by left).
  apply bind_Ok in Hd as (s & _ & Hd). unfold rpc_submit_transaction in Hd.
  destruct (handler_submit_transaction h s) as [h1|[]| |] eqn:Hs; simplify_eq.
  unfold handler_submit_transaction in Hs. apply bind_Ok in Hs as (m & Hm & Hs). simplify_eq. eauto.
Qed.

(** What is in the channels. *)
Definition valid_transaction_bytes (data : list Z) : Prop :=
  ∃ s, data = bcs_signed s ∧ validate_signed_transaction s = Ok ().
Definition valid_block_bytes (diff : Z) (data : list Z) : Prop :=
  ∃ b now, data = bcs_block b ∧ structure_ok now b diff.

Record node_ok (n : Node) : Prop := {
  no_miner : miner_ok P (node_miner n);
  no_gossip : gossip_ok P (node_gossip n);
  no_phase : phase_ok P (node_mining n);
  no_found b s : node_mining n = MFound b s → P b;
  no_transactions : Forall valid_transaction_bytes (transactions_ch n);
  no_blocks : Forall (valid_block_bytes (difficulty (chain (node_miner n)))) (blocks_ch n);
}.

(** Valid messages: those that the node publishes. *)
Definition valid_message (diff : Z) (msg : string * list Z) : Prop :=
  (fst msg = TOPIC_TRANSACTIONS → valid_transaction_bytes (snd msg)) ∧
  (fst msg = TOPIC_BLOCKS → valid_block_bytes diff (snd msg)).

(** A turn with the blocks it brings in play. *)
Definition turn_in_play (ev : NodeEvent) (n' : Node) : Prop :=
  match ev with
  | GossipEvent _ e => event_in_play P e
  | MinerGrind _ _ => ∀ b s, node_mining n' = MFound b s → P b
  | _ => True
  end.
Definition node_step (n n' : Node) (out : Output) : Prop :=
  ∃ ev, node_enabled ev n = true ∧ node_turn ev n = Ok (Some (n', out)) ∧ turn_in_play ev n'.

Context (HP : ∀ a b, P a → P b → block_hash a = block_hash b → a = b).

Lemma head_tail_Forall {A} (Q : A → Prop) (l : list A) a :
  Forall Q l → head l = Some a → Q a ∧ Forall Q (tail l).
Proof. destruct 1; simpl; intros; by simplify_eq. Qed.

Lemma node_step_ok n n' out :
  node_ok n → node_step n n' out →
  node_ok n' ∧ advances P (node_miner n) (node_miner n') ∧
  Forall (valid_message (difficulty (chain (node_miner n)))) (out_messages out).
Proof.
  intros [Hm Hg Hph Hf Htx Hbl] (ev & Hen & Ht & Hpl). destruct ev as [req|now|rounds nonces|now|now e]; simpl in *.
  - apply bind_Ok in Ht as ([resp h] & Hs & Ht). simplify_eq.
    apply serve_changes in Hs as [->|(s & m & Hs & ->)]; simpl.
    + split; [by split|]. split; [by apply advances_refl|constructor].
    + apply (submit_transaction_ok P) in Hs as [Hadv Hv]; [|done].
      split; [|by split; [|constructor]]. split; simpl; try done; [apply Hadv| |].
      * apply Forall_app. split; [done|]. constructor; [|done]. by exists s.
      * by rewrite (proj1 (proj2 (proj2 Hadv))).
  - apply bind_Ok in Ht as (n1 & Hp & Ht). simplify_eq. unfold miner_prepare in Hp.
    apply bind_Ok in Hp as ([w m] & Hp & Heq). simplify_eq.
    apply (prepare_round_ok P) in Hp as [Hadv Hw]; [|done]. split; [|by split; [|constructor]].
    split; simpl; try done; [apply Hadv|by destruct w|]. by rewrite (proj1 (proj2 (proj2 Hadv))).
  - destruct (node_mining n) as [|w|] eqn:Hmn; try done. apply bind_Ok in Ht as (n1 & Hp & Ht). simplify_eq.
    unfold miner_grind in Hp. apply bind_Ok in Hp as (r & Hp & Heq). simplify_eq.
    apply (grind_ok P) in Hp; [|done]. split; [|split; [by apply advances_refl|constructor]].
    split; simpl; done.
  - destruct (node_mining n) as [| |b s] eqn:Hmn; try done. apply bind_Ok in Ht as (n1 & Hp & Ht). simplify_eq.
    unfold miner_commit in Hp. apply bind_Ok in Hp as ([c m] & Hp & Heq). simplify_eq.
    apply (commit_mined_ok P HP) in Hp as [Hadv Hst]; [|done|by eapply Hf|done].
    split; [|by split; [|constructor]]. split; simpl; try done; [apply Hadv|].
    rewrite (proj1 (proj2 (proj2 Hadv))). destruct c; [|done]. apply Forall_app. split; [done|].
    constructor; [|done]. exists b, now. split; [done|by apply Hst].
  - apply andb_true_iff in Hen as [Hen Hch]. apply bind_Ok in Ht as (turn & Hp & Ht).
    destruct turn as [[[g m] msgs]|]; simplify_eq.
    destruct (gossip_turn_ok P now e _ _ _ _ _ Hg Hm Hen Hpl Hp) as (Hg' & Hadv & Hmsg).
    assert (Hdf : difficulty (chain m) = difficulty (chain (node_miner n))) by apply Hadv.
    split; [split; simpl; try done; [apply Hadv| |]|split; [done|]].
    + destruct e as [| | | | |data|]; try done. apply bool_decide_eq_true in Hch as [Hch _].
      destruct (transactions_ch n); [done|]. by inversion Htx.
    + rewrite Hdf. destruct e as [| | | | | |data]; try done. apply bool_decide_eq_true in Hch as [Hch _].
      destruct (blocks_ch n); [done|]. by inversion Hbl.
    + simpl. apply list.Forall_forall. intros [topic data] Hin.
      apply Hmsg in Hin as [->|[[-> ->]|[-> ->]]]; [by split| |];
        simpl in Hch; apply bool_decide_eq_true in Hch as [Hch _].
      * split; [intros _|done]. by destruct (head_tail_Forall _ _ _ Htx (eq_sym Hch)).
      * split; [done|intros _]. by destruct (head_tail_Forall _ _ _ Hbl (eq_sym Hch)).
Qed.

Lemma node_step_requests n n' out :
  node_ok n → node_step n n' out → requests_ok (node_gossip n) (node_miner n) →
  requests_ok (node_gossip n') (node_miner n').
Proof.
  intros Hn Hs Hr. destruct (node_step_ok _ _ _ Hn Hs) as (_ & Hadv & _).
  destruct Hs as (ev & _ & Ht & _). pose proof (requests_advance P _ _ _ Hadv Hr) as Hr'.
  destruct ev as [req|now|rounds nonces|now|now e]; simpl in Ht.
  - apply bind_Ok in Ht as ([resp h] & _ & Ht). by simplify_eq.
  - apply bind_Ok in Ht as (n1 & Hp & Ht). simplify_eq. apply bind_Ok in Hp as ([w m] & _ & Heq).
    by simplify_eq.
  - destruct (node_mining n); try (by simplify_eq). apply bind_Ok in Ht as (n1 & Hp & Ht).
    simplify_eq. apply bind_Ok in Hp as (r & _ & Heq). by simplify_eq.
  - destruct (node_mining n); try (by simplify_eq). apply bind_Ok in Ht as (n1 & Hp & Ht).
    simplify_eq. apply bind_Ok in Hp as ([c m] & _ & Heq). by simplify_eq.
  - apply bind_Ok in Ht as ([[[g m] msgs]|] & Hp & Ht); simplify_eq.
    eapply gossip_turn_requests; [apply Hn|exact Hadv|exact Hr|exact Hp].
Qed.
End node.

(** * Applying the blocks of a peer

    Blocks sorted by height, with a valid chain among them: when the gossip
    service has applied them all, its head is at least as high as that chain. *)

Notation block_height b := (height (block_header b)).

(** ** When applying a block returns *)
Section returns.
Context `{Crypto, Executor} (R : Block → Store → Prop).

(** [R b s]: [s] is the store after [b].  Re-executing the block on the store of
    its parent neither panics nor runs out of fuel. *)
Definition executes_cleanly (b : Block) : Prop :=
  ∀ p ps, R p ps → block_hash p = parent_hash (block_header b) →
    no_panic (reexecute b ps) ∧ ∀ s, reexecute b ps = Ok s → R b s.
Definition stores_ok (cs : ChainState) : Prop :=
  ∀ d b s, blocks cs !! d = Some b → snapshots cs !! d = Some s → R b s.

(** A miner on which blocks can be applied. *)
Record steady (m : Miner) : Prop := {
  st_miner : miner_ok (λ _, True) m;
  st_u64 : in_u64 (chain_height (chain m) + 1);
  st_stores : stores_ok (chain m);
}.
(** Blocks that can be applied. *)
Definition applicable (b : Block) : Prop := executes_cleanly b ∧ in_u64 (block_height b + 1).

Lemma u64_add_returns {E} a b : in_u64 (a + b) → u64_add (E:=E) a b = Ok (a + b)%Z.
Proof. intros Hab. by apply u64_add_Ok. Qed.
Lemma check_signatures_returns txs : no_panic (check_signatures txs).
Proof.
  induction txs as [|tx txs IH]; [done|]. cbn [check_signatures]. apply no_panic_bind; [|done].
  apply no_panic_map_err, validate_signed_returns.
Qed.
Lemma structure_returns now b diff :
  in_u64 (now + MAX_BLOCK_FUTURE_DRIFT_MS) → no_panic (validate_block_structure now b diff).
Proof.
  intros Hu. unfold validate_block_structure. rewrite u64_add_returns by done.
  repeat (apply no_panic_bind; [apply no_panic_guard || done|intros ? _]). apply no_panic_guard.
Qed.

Lemma apply_block_returns now cs b :
  chain_core cs → (0 ≤ snapshot_depth cs)%Z → in_u64 (now + MAX_BLOCK_FUTURE_DRIFT_MS) →
  in_u64 (chain_height cs + 1) → stores_ok cs → executes_cleanly b → no_panic (apply_block now cs b).
Proof.
  intros Hc Hd Hu Hh Hst Hx. destruct (wf_head _ Hc) as (hb & Hhb & Hwin).
  rewrite (chain_height_eq _ _ Hhb) in Hh. unfold apply_block.
  apply no_panic_bind; [apply no_panic_guard|intros ? Hfr%guard_err_Ok%bool_decide_eq_false].
  apply no_panic_bind; [apply no_panic_guard|intros ? Hp%guard_err_Ok%bool_decide_eq_false].
  apply no_panic_bind; [by apply structure_returns|intros ? _].
  destruct (blocks cs !! parent_hash (block_header b)) as [p|] eqn:Hpar; [|done].
  cbn [expect mbind outcome_bind]. destruct (Hwin _ _ Hpar) as [[Hp0 Hph] _].
  rewrite u64_add_returns by (unfold in_u64 in *; lia). cbn [mbind outcome_bind].
  apply no_panic_bind; [apply no_panic_guard|intros ? Hhe%guard_err_Ok%bool_decide_eq_false].
  apply no_panic_bind; [apply no_panic_guard|intros ? Hti%guard_err_Ok%bool_decide_eq_false].
  apply no_panic_bind; [apply check_signatures_returns|intros ? _].
  destruct (snapshot_of_block _ _ _ Hc Hpar) as (ps & Hps & Hwf). rewrite Hps. cbn [expect mbind outcome_bind].
  apply no_panic_bind; [|intros s Hs; apply eq_None_not_Some in Hfr].
  { eapply Hx; [by eapply Hst|]. by eapply wf_hash. }
  unfold head_height, head_block. cbn [blocks head_hash].
  rewrite lookup_insert_ne by congruence. rewrite Hhb. cbn [expect mbind outcome_bind].
  case_bool_decide as Hlt; [|done].
  destruct (add_block_switch_core (E:=ChainError.t) cs b s) as (cs' & Hpr & _); try done.
  - split; [done|]. exists p. split; [done|]. by apply dec_stable in Hhe.
  - by eapply reexecute_wf.
  - intros hb' Hhb'. by simplify_eq.
  - match goal with |- no_panic (?x ≫= _) =>
      change x with (prune_finalized_blocks (E:=ChainError.t) (add_block cs b s (block_hash b))) end.
    by rewrite Hpr.
Qed.

Lemma apply_block_steady now m m' b r :
  steady m → applicable b → advances (λ _, True) m m' → apply_block now (chain m) b = Ok (r, chain m') →
  steady m'.
Proof.
  intros [Hm Hu Hst] [Hx Hb] [Hm' _] Ha. pose proof (mo_core _ _ Hm) as Hc.
  destruct (apply_block_core _ _ _ _ _ Hc (mo_depth _ _ Hm) Ha)
    as (Hc' & _ & Hdp & hb & hb' & Hhb & Hhb' & Hmax & Hsub & Hkeep).
  split; [done| |].
  - rewrite (chain_height_eq _ _ Hhb) in Hu. rewrite (chain_height_eq _ _ Hhb'), Hmax.
    unfold in_u64 in *. lia.
  - intros d c s Hd Hs. pose proof Hd as [[-> ->]|Hold]%Hsub.
    + pose proof Ha as (p & s' & _ & Hacc & _)%apply_block_inv.
      destruct (acc_execution _ _ _ _ _ Hacc) as (ps & Hps & Hre).
      pose proof (acc_parent _ _ _ _ _ Hacc) as Hp.
      destruct (apply_block_complete now (chain m) b p s') as (r' & cs' & Ha' & _ & Hs');
        [done|apply Hm|done|]. rewrite Ha in Ha'. simplify_eq.
      eapply (Hx p ps); [by eapply Hst|by apply (wf_hash _ Hc)|done].
    + eapply Hst; [done|]. destruct (Hkeep _ _ Hold) as [_ <-]; [|done].
      destruct (wf_head _ Hc') as (hb2 & Hhb2 & Hwin). simplify_eq.
      destruct (Hwin _ _ Hd) as [_ Hw]. unfold in_window in Hw. lia.
Qed.

(** What one block does to the miner: nothing, or it is accepted. *)
Lemma apply_quietly_returns {E} now m b :
  steady m → in_u64 (now + MAX_BLOCK_FUTURE_DRIFT_MS) → applicable b →
  ∃ m', apply_quietly (E:=E) now m b = Ok m' ∧ steady m' ∧ advances (λ _, True) m m' ∧
    ((m' = m ∧ ∃ e, apply_block now (chain m) b = Err e) ∨
     ∃ r, apply_block now (chain m) b = Ok (r, chain m')).
Proof.
  intros Hs Hu Hb. pose proof Hs as [Hm Hh Hst]. pose proof (mo_core _ _ Hm) as Hc.
  pose proof (apply_block_returns now (chain m) b Hc (mo_depth _ _ Hm) Hu Hh Hst (proj1 Hb)) as Hr.
  unfold apply_quietly, miner_apply_block.
  destruct (apply_block now (chain m) b) as [[r cs]|e| |] eqn:Ha; try done; simpl; last first.
  { exists m. split_and!; [done|done|by apply advances_refl|]. left. eauto. }
  destruct (apply_block_core _ _ _ _ _ Hc (mo_depth _ _ Hm) Ha) as (Hc' & _ & _ & hb & hb' & _ & Hhb' & _).
  destruct (snapshot_of_block _ _ _ Hc' Hhb') as (s & Hsn & _).
  set (m' := if r then set_mempool (set_chain m cs) (retain_valid (mempool m) s) else set_chain m cs).
  assert (Hm' : miner_apply_block now m b = Ok (r, m') ∧ chain m' = cs).
  { unfold miner_apply_block, m'. rewrite Ha. simpl. destruct r; [|done].
    unfold head_store. cbn [chain set_chain]. by rewrite Hsn. }
  destruct Hm' as [Hma Hch].
  assert (Hadv : advances (λ _, True) m m') by (by eapply miner_apply_block_ok).
  exists m'. split_and!; [| |done|by right; exists r; rewrite Hch].
  - unfold m'. destruct r; [|done]. unfold head_store. cbn [chain set_chain]. by rewrite Hsn.
  - eapply apply_block_steady; [done..|]. by rewrite Ha, Hch.
Qed.
End returns.

(** ** A valid chain of blocks *)
Section chain.
Context `{Crypto, Executor} (R : Block → Store → Prop).

(** [b] is a valid child of [p] and turns the store [ps] into [s]. *)
Record valid_child (now diff : Z) (p : Block) (ps : Store) (b : Block) (s : Store) : Prop := {
  vc_parent : parent_hash (block_header b) = block_hash p;
  vc_structure : structure_ok now b diff;
  vc_height : block_height b = (block_height p + 1)%Z;
  vc_time : (timestamp (block_header p) < timestamp (block_header b))%Z;
  vc_signatures : Forall (λ tx, validate_signed_transaction tx = Ok ()) (transactions b);
  vc_execution : reexecute b ps = Ok s;
}.
Fixpoint valid_chain (now diff : Z) (p : Block) (ps : Store) (l : list Block) : Prop :=
  match l with
  | [] => True
  | b :: l => ∃ s, valid_child now diff p ps b s ∧ valid_chain now diff b s l
  end.
Lemma valid_chain_heights now diff p ps l b :
  valid_chain now diff p ps l → b ∈ l → (block_height p < block_height b)%Z.
Proof.
  revert p ps. induction l as [|c l IH]; intros p ps Hv Hb; [by apply not_elem_of_nil in Hb|].
  destruct Hv as (s & Hc & Hv). pose proof (vc_height _ _ _ _ _ _ Hc).
  apply elem_of_cons in Hb as [->|Hb]; [lia|]. specialize (IH _ _ Hv Hb). lia.
Qed.
Lemma valid_child_accepted now cs p ps b s :
  blocks cs !! block_hash p = Some p → snapshots cs !! block_hash p = Some ps →
  blocks cs !! block_hash b = None → in_u64 (block_height p + 1) →
  valid_child now (difficulty cs) p ps b s → accepted now cs b p s.
Proof.
  intros Hp Hps Hf Hu [Hpar Hst Hh Ht Hsg Hx]. split; rewrite ?Hpar; try done. by exists ps.
Qed.

(** The state of the loop: [p], with its store, is known, the chain [l] on top of
    it is still to come, and the head has not left [p] behind. *)
Record catching_up (now : Z) (m : Miner) (seen : gset Digest) (todo : list Block)
    (start : Z) (p : Block) (ps : Store) (l : list Block) : Prop := {
  cu_steady : steady R m;
  cu_block : blocks (chain m) !! block_hash p = Some p;
  cu_store : snapshots (chain m) !! block_hash p = Some ps;
  cu_valid : valid_chain now (difficulty (chain m)) p ps l;
  cu_todo b : b ∈ l → b ∈ todo;
  cu_new b : b ∈ l → block_hash b ∉ seen ∧ blocks (chain m) !! block_hash b = None;
  cu_start : (start - snapshot_depth (chain m) ≤ block_height p)%Z;
  cu_window b : b ∈ todo → (chain_height (chain m) ≤ Z.max start (block_height b))%Z;
  cu_head : (chain_height (chain m) - snapshot_depth (chain m) ≤ block_height p)%Z;
}.

Lemma known_le m d b :
  miner_ok (λ _, True) m → blocks (chain m) !! d = Some b →
  (0 ≤ block_height b ≤ chain_height (chain m))%Z.
Proof.
  intros [Hc _ _ _] Hb. destruct (wf_head _ Hc) as (hb & Hhb & Hwin).
  rewrite (chain_height_eq _ _ Hhb). by destruct (Hwin _ _ Hb).
Qed.

(** The next block of the chain is accepted. *)
Lemma catching_up_accepts now m seen todo start p ps b l :
  catching_up now m seen todo start p ps (b :: l) → (1 ≤ snapshot_depth (chain m))%Z →
  ∃ s r cs, valid_child now (difficulty (chain m)) p ps b s ∧
    valid_chain now (difficulty (chain m)) b s l ∧ apply_block now (chain m) b = Ok (r, cs) ∧
    blocks cs !! block_hash b = Some b ∧ snapshots cs !! block_hash b = Some s.
Proof.
  intros [[Hm Hu _] Hp Hps (s & Hch & Hv) Ht Hn Hst Hw Hhd] Hd.
  pose proof (known_le _ _ _ Hm Hp) as Hple. destruct (Hn b ltac:(left)) as [_ Hfresh].
  destruct (apply_block_complete now (chain m) b p s) as (r & cs & Ha & Hb & Hs); [apply Hm|lia| |].
  { eapply valid_child_accepted; try done. unfold in_u64 in *. lia. }
  exists s, r, cs. done.
Qed.
Lemma catching_up_next now m seen todo start p ps b l m' r :
  catching_up now m seen (b :: todo) start p ps (b :: l) →
  (1 ≤ snapshot_depth (chain m))%Z → StronglySorted height_le (b :: todo) →
  (∀ x, x ∈ l → block_hash x ≠ block_hash b) →
  steady R m' → apply_block now (chain m) b = Ok (r, chain m') →
  ∃ s, catching_up now m' ({[block_hash b]} ∪ seen) todo start b s l ∧
    snapshot_depth (chain m') = snapshot_depth (chain m).
Proof.
  intros Hcu Hd Hsort Hne Hm' Ha.
  destruct (catching_up_accepts _ _ _ _ _ _ _ _ _ Hcu Hd) as (s & r' & cs' & Hch & Hv & Ha' & Hb' & Hs').
  rewrite Ha in Ha'. simplify_eq. destruct Hcu as [[Hm Hu _] Hp Hps _ Ht Hn Hst Hw Hhd].
  pose proof (mo_core _ _ Hm) as Hc. pose proof (known_le _ _ _ Hm Hp) as Hple.
  pose proof (vc_height _ _ _ _ _ _ Hch) as Hbh.
  destruct (apply_block_core _ _ _ _ _ Hc ltac:(lia) Ha)
    as (_ & Hdf & Hdp & hb & hb' & Hhb & Hhb' & Hmax & Hsub & _).
  rewrite <-(chain_height_eq _ _ Hhb), <-(chain_height_eq _ _ Hhb') in Hmax.
  apply StronglySorted_inv in Hsort as [_ Hall]. rewrite list.Forall_forall in Hall.
  exists s. split; [|done]. split; rewrite ?Hdp, ?Hdf; try done.
  - intros x Hx. assert (x ∈ b :: todo) as [->|?]%elem_of_cons by (apply Ht; by right); [|done].
    by destruct (Hne b).
  - intros x Hx. destruct (Hn x ltac:(by right)) as [Hns Hnb]. specialize (Hne x Hx). split; [set_solver|].
    destruct (blocks (chain m') !! block_hash x) as [y|] eqn:Hy; [|done].
    apply Hsub in Hy as [[? _]|?]; congruence.
  - lia.
  - intros y Hy. specialize (Hw b ltac:(left)). apply Hall in Hy. unfold height_le in Hy. lia.
  - lia.
Qed.

(** Any other block leaves the chain possible. *)
Lemma catching_up_other now m seen todo start p ps b l m' r :
  catching_up now m seen (b :: todo) start p ps l → l ≠ [] →
  (1 ≤ snapshot_depth (chain m))%Z → StronglySorted height_le (b :: todo) →
  (∀ x, x ∈ l → x ∈ todo ∧ block_hash x ≠ block_hash b) →
  steady R m' → apply_block now (chain m) b = Ok (r, chain m') →
  catching_up now m' ({[block_hash b]} ∪ seen) todo start p ps l ∧
  snapshot_depth (chain m') = snapshot_depth (chain m).
Proof.
  intros [[Hm Hu _] Hp Hps Hv Ht Hn Hst Hw Hhd] Hl Hd Hsort Hne Hm' Ha.
  pose proof (mo_core _ _ Hm) as Hc. pose proof (known_le _ _ _ Hm Hp) as Hple.
  destruct (apply_block_core _ _ _ _ _ Hc ltac:(lia) Ha)
    as (_ & Hdf & Hdp & hb & hb' & Hhb & Hhb' & Hmax & Hsub & Hkeep).
  rewrite <-(chain_height_eq _ _ Hhb') in Hkeep.
  rewrite <-(chain_height_eq _ _ Hhb), <-(chain_height_eq _ _ Hhb') in Hmax.
  apply StronglySorted_inv in Hsort as [_ Hall]. rewrite list.Forall_forall in Hall.
  destruct l as [|c l]; [done|]. destruct Hv as (s & Hch & Hv).
  pose proof (vc_height _ _ _ _ _ _ Hch) as Hchh.
  assert (Hbc : (block_height b ≤ block_height c)%Z).
  { destruct (Hne c ltac:(left)) as [Hct _]. by apply Hall in Hct. }
  destruct (Hkeep _ _ Hp) as [Hp' Hps']; [lia|].
  split; [|done]. split; rewrite ?Hdp, ?Hdf; try done.
  - by rewrite Hps'.
  - by exists s.
  - intros x Hx. by apply Hne.
  - intros x Hx. destruct (Hn x Hx) as [Hns Hnb]. destruct (Hne x Hx) as [_ Hneq]. split; [set_solver|].
    destruct (blocks (chain m') !! block_hash x) as [y|] eqn:Hy; [|done].
    apply Hsub in Hy as [[? _]|?]; congruence.
  - intros y Hy. specialize (Hw b ltac:(left)). apply Hall in Hy. unfold height_le in Hy. lia.
  - lia.
Qed.
End chain.

(** ** The loops *)
Section loops.
Context `{Crypto, Executor} (R : Block → Store → Prop).

Lemma apply_unseen_returns {E} now seen m l :
  steady R m → in_u64 (now + MAX_BLOCK_FUTURE_DRIFT_MS) → Forall (applicable R) l →
  ∃ seen' m', apply_unseen (E:=E) now seen m l = Ok (seen', m') ∧ steady R m' ∧
    advances (λ _, True) m m'.
Proof.
  intros Hs Hu Hl. revert seen m Hs. induction Hl as [|b l Hb _ IH]; intros seen m Hs; cbn [apply_unseen].
  { exists seen, m. split_and!; [done..|apply advances_refl, Hs]. }
  case_bool_decide; [by apply IH|].
  destruct (apply_quietly_returns R (E:=E) now m b Hs Hu Hb) as (m1 & -> & Hs1 & Hadv & _).
  cbn [mbind outcome_bind].
  destruct (IH ({[block_hash b]} ∪ seen) m1 Hs1) as (seen' & m' & -> & Hs' & Hadv').
  exists seen', m'. split_and!; [done..|]. by eapply advances_trans.
Qed.

Lemma catching_up_skip now m seen b todo start p ps l :
  catching_up R now m seen (b :: todo) start p ps l → block_hash b ∈ seen →
  catching_up R now m seen todo start p ps l.
Proof.
  intros [Hm Hp Hps Hv Ht Hn Hst Hw Hhd] Hs. split; try done.
  - intros x Hx. specialize (Ht x Hx). apply elem_of_cons in Ht as [->|?]; [|done].
    by destruct (Hn b Hx).
  - intros y Hy. apply Hw. by right.
Qed.
Lemma catching_up_rejected now m seen b todo start p ps l :
  catching_up R now m seen (b :: todo) start p ps l →
  (∀ x, x ∈ l → x ∈ todo ∧ block_hash x ≠ block_hash b) →
  catching_up R now m ({[block_hash b]} ∪ seen) todo start p ps l.
Proof.
  intros [Hm Hp Hps Hv Ht Hn Hst Hw Hhd] Hne. split; try done.
  - intros x Hx. by apply Hne.
  - intros x Hx. destruct (Hn x Hx), (Hne x Hx). split; [set_solver|done].
  - intros y Hy. apply Hw. by right.
Qed.

(** Where a block of the sorted list stands to the chain: it is the next one, or
    the whole chain is still to come. *)
Lemma next_or_other now m seen b todo start p ps c l :
  catching_up R now m seen (b :: todo) start p ps (c :: l) →
  StronglySorted height_le (b :: todo) →
  (∀ x y, x ∈ b :: todo → y ∈ b :: todo → block_hash x = block_hash y → x = y) →
  (b = c ∧ ∀ x, x ∈ l → block_hash x ≠ block_hash c) ∨
  (∀ x, x ∈ c :: l → x ∈ todo ∧ block_hash x ≠ block_hash b).
Proof.
  intros [_ _ _ (s & Hch & Hv) Ht _ _ _ _] Hsort Hinj.
  apply StronglySorted_inv in Hsort as [_ Hall]. rewrite list.Forall_forall in Hall.
  assert (Htail : ∀ x, x ∈ l → (block_height c < block_height x)%Z).
  { intros x Hx. by eapply valid_chain_heights. }
  destruct (decide (block_hash b = block_hash c)) as [Hbc|Hbc].
  - left. apply Hinj in Hbc as ->; [|left|apply Ht; left]. split; [done|]. intros x Hx Heq.
    apply Hinj in Heq as ->; [|by apply Ht; right|left]. specialize (Htail _ Hx). lia.
  - right. assert (Hnb : b ∉ c :: l).
    { intros [->|Hb]%elem_of_cons; [done|]. pose proof (Ht c ltac:(left)) as Hct.
      apply elem_of_cons in Hct as [->|Hct]; [done|].
      apply Hall in Hct. apply Htail in Hb. unfold height_le in Hct. lia. }
    intros x Hx. pose proof (Ht x Hx) as Hxt. split.
    + apply elem_of_cons in Hxt as [->|?]; done.
    + intros Heq. apply Hinj in Heq as ->; [done|done|left].
Qed.

Lemma last_cons_default {A} (c p : A) l : List.last l c = List.last (c :: l) p.
Proof.
  revert c p. induction l as [|x l IH]; intros c p; [done|].
  change (List.last (x :: l) c = List.last (x :: l) p). by rewrite <-(IH x c), <-(IH x p).
Qed.
Lemma catch_up {E} now m seen todo start p ps l :
  catching_up R now m seen todo start p ps l → (1 ≤ snapshot_depth (chain m))%Z →
  in_u64 (now + MAX_BLOCK_FUTURE_DRIFT_MS) → StronglySorted height_le todo → Forall (applicable R) todo →
  (∀ x y, x ∈ todo → y ∈ todo → block_hash x = block_hash y → x = y) →
  ∃ seen' m', apply_unseen (E:=E) now seen m todo = Ok (seen', m') ∧ steady R m' ∧
    advances (λ _, True) m m' ∧ (block_height (List.last l p) ≤ chain_height (chain m'))%Z.
Proof.
  intros Hcu Hd Hu Hsort Hap Hinj. revert seen m p ps l Hcu Hd.
  induction todo as [|b todo IH]; intros seen m p ps l Hcu Hd;
    pose proof (cu_steady _ _ _ _ _ _ _ _ _ Hcu) as Hs.
  { destruct l as [|c l]; [|by pose proof (cu_todo _ _ _ _ _ _ _ _ _ Hcu c ltac:(left)) as ?%not_elem_of_nil].
    exists seen, m. split_and!; [done..|apply advances_refl, Hs|]. eapply known_le; [apply Hs|apply Hcu]. }
  destruct l as [|c l].
  { destruct (apply_unseen_returns (E:=E) now seen m (b :: todo)) as (seen' & m' & Ha & Hs' & Hadv);
      try done. exists seen', m'. split_and!; [done..|]. simpl.
    pose proof (known_le _ _ _ (st_miner _ _ Hs) (cu_block _ _ _ _ _ _ _ _ _ Hcu)).
    destruct Hadv as (_ & ? & _). lia. }
  apply list.Forall_cons in Hap as [Hb Hap]. pose proof Hsort as [Hsort' _]%StronglySorted_inv.
  assert (Hinj' : ∀ x y, x ∈ todo → y ∈ todo → block_hash x = block_hash y → x = y).
  { intros x y Hx' Hy'. apply Hinj; by right. }
  specialize (IH Hsort' Hap Hinj'). cbn [apply_unseen]. case_bool_decide as Hseen.
  { apply (IH _ _ p ps (c :: l)); [by eapply catching_up_skip|done]. }
  destruct (apply_quietly_returns R (E:=E) now m b Hs Hu Hb) as (m1 & -> & Hs1 & Hadv & Hcase).
  cbn [mbind outcome_bind].
  assert (Hnext : ∃ p' ps' l', catching_up R now m1 ({[block_hash b]} ∪ seen) todo start p' ps' l' ∧
    List.last l' p' = List.last (c :: l) p ∧ snapshot_depth (chain m1) = snapshot_depth (chain m)).
  { destruct (next_or_other _ _ _ _ _ _ _ _ _ _ Hcu Hsort Hinj) as [[-> Hne]|Hne].
    - destruct Hcase as [(-> & e & He)|(r & Ha)].
      + by destruct (catching_up_accepts _ _ _ _ _ _ _ _ _ _ Hcu Hd) as (s & r & cs & _ & _ & Ha & _);
          rewrite He in Ha.
      + destruct (catching_up_next _ _ _ _ _ _ _ _ _ _ _ _ Hcu Hd Hsort Hne Hs1 Ha) as (s & Hcu' & Hdp).
        exists c, s, l. split_and!; [done|apply last_cons_default|done].
    - exists p, ps, (c :: l). destruct Hcase as [(-> & _)|(r & Ha)].
      + split_and!; [|done..]. by apply catching_up_rejected.
      + by destruct (catching_up_other _ _ _ _ _ _ _ _ _ _ _ _ Hcu ltac:(done) Hd Hsort Hne Hs1 Ha). }
  destruct Hnext as (p' & ps' & l' & Hcu' & Hlast & Hdp).
  destruct (IH _ _ _ _ _ Hcu') as (seen' & m' & -> & Hs' & Hadv' & Hle); [lia|].
  exists seen', m'. rewrite <-Hlast. split_and!; [done..| |done]. by eapply advances_trans.
Qed.
End loops.
