(* ===== verification/NodeCorrect.v ===== *)
(** * Properties of the node *)

From S2P Require Import Prelude Text Address HexInstance VmTypes ChainTypes Convert Framework Context.
From S2P Require Import Validator Store Mempool Chain ChainProps Miner MinerProps NodeExamples.
From S2P Require Import Http Rpc NodeClient RpcProps GossipNetwork GossipService Node NodeProps.
From S2P Require Genesis.
From stdpp Require Import sorting.

(** ** The invariant *)
Section invariant.
Context `{PrefixHex, Crypto, Executor, Bcs, Base58, JsonLib, WireLib, UrlLib}.
Context `{!NodeLib, !ErrorTexts, !NodeLibLaws} (P : Block → Prop).
Context (HP : ∀ a b, P a → P b → block_hash a = block_hash b → a = b).

Lemma node_start_ok genesis c addr n :
  (0 ≤ cfg_snapshot_depth c)%Z → P block_genesis →
  node_start (node_with_genesis genesis c) addr = Ok n → node_ok P n.
Proof.
  intros Hd Hg (g & Hgn & Hn)%bind_Ok. simplify_eq. unfold gossip_new in Hgn.
  apply bind_Ok in Hgn as (u & _ & Hgn). simplify_eq. split; simpl; try done.
  - split; simpl.
    + apply single_chain_core; [apply with_objects_wf|done|done].
    + done.
    + apply mempool_reachable_wf. constructor.
    + by intros d b [_ <-]%lookup_singleton_Some.
Qed.

(** The states of a node, with its services interleaved in any way. *)
Definition node_runs : Node → Node → Prop := rtc (λ n n', ∃ out, node_step P n n' out).
Lemma node_runs_ok n n' :
  node_ok P n → node_runs n n' → node_ok P n' ∧ advances P (node_miner n) (node_miner n').
Proof.
  intros Hn. induction 1 as [n|n1 n2 n3 [out Hs] _ IH]; [by split; [|apply advances_refl, Hn]|].
  destruct (node_step_ok P HP _ _ _ Hn Hs) as (Hn2 & Hadv & _). destruct (IH Hn2) as [Hn3 Hadv'].
  split; [done|]. by eapply advances_trans.
Qed.

(** What a sync asks for, in every state of a node. *)
Lemma node_start_requests genesis c addr n :
  node_start (node_with_genesis genesis c) addr = Ok n →
  requests_ok (node_gossip n) (node_miner n).
Proof.
  intros (g & Hgn & Hn)%bind_Ok. simplify_eq. unfold gossip_new in Hgn.
  apply bind_Ok in Hgn as (u & _ & Hgn). simplify_eq. by split.
Qed.
Lemma node_runs_requests n n' :
  node_ok P n → node_runs n n' → requests_ok (node_gossip n) (node_miner n) →
  requests_ok (node_gossip n') (node_miner n').
Proof.
  intros Hn Hr. induction Hr as [n|n1 n2 n3 [out Hs] _ IH]; intros Hq; [done|].
  apply IH; [by apply (node_step_ok P HP _ _ _ Hn Hs)|by eapply node_step_requests].
Qed.
End invariant.

(** ** A node that mines a block, for the witnesses *)
Global Instance height_le_dec : RelDecision height_le.
Proof. intros a b. unfold height_le. apply _. Defined.
Global Instance height_le_total : Total height_le.
Proof. intros a b. unfold height_le. lia. Qed.
Global Instance height_le_trans : Transitive height_le.
Proof. intros a b c. unfold height_le. lia. Qed.
Lemma first_None {A} (m : gmap PeerId A) : snd <$> list.head (map_to_list m) = None ↔ m = ∅.
Proof. rewrite <-map_to_list_empty_iff. by destruct (map_to_list m). Qed.
Global Instance toy_node_lib : NodeLib := {|
  first_value m := snd <$> list.head (map_to_list m);
  sort_by_height := merge_sort height_le;
|}.
Global Instance toy_node_lib_laws : NodeLibLaws.
Proof.
  split.
  - intros m. apply first_None.
  - intros l. apply merge_sort_Permutation.
  - intros l. apply StronglySorted_merge_sort; apply _.
Qed.

Definition next (ev : NodeEvent) (n : Node) : Node :=
  match node_turn ev n with Ok (Some (n, _)) => n | _ => n end.
Definition proceeds (ev : NodeEvent) (n : Node) : bool :=
  node_enabled ev n && match node_turn ev n with Ok (Some _) => true | _ => false end.
Lemma next_step P ev n :
  proceeds ev n = true → turn_in_play P ev (next ev n) → node_runs P n (next ev n).
Proof.
  unfold proceeds, next. intros [He Ht]%andb_true_iff Hp. apply rtc_once.
  destruct (node_turn ev n) as [[[n' out]|]| | |] eqn:Hn; try done. exists out, ev. done.
Qed.

Definition toy_genesis : Genesis.Genesis := Genesis.mkGenesis genesis_objects.
Lemma node0_ok : is_ok (node_start (node_with_genesis toy_genesis config) "127.0.0.1:0") = true.
Proof. vm_compute. reflexivity. Qed.
Definition node0 : Node := ok_value _ node0_ok.
Definition submit_event : NodeEvent :=
  RpcRequest (mkRequest POST "/submit-transaction" [] (serialize (spend coin))).
Definition node1 : Node := next submit_event node0.
Definition node2 : Node := next (MinerPrepare 1000) node1.
Definition node3 : Node := next (MinerGrind 4 4) node2.
Definition node4 : Node := next (MinerCommit 1000) node3.
(** The blocks of this run. *)
Definition toy_blocks (b : Block) : Prop := b = block_genesis ∨ b = block1.
Lemma toy_blocks_inj a b : toy_blocks a → toy_blocks b → block_hash a = block_hash b → a = b.
Proof. intros [->| ->] [->| ->] Hh; try reflexivity; vm_compute in Hh; discriminate Hh. Qed.
Lemma found_block a s b t : MFound a s = MFound b t → a = b.
Proof. by intros [= -> _]. Qed.
Lemma node3_found : node_mining node3 = MFound block1 store1.
Proof. vm_compute. reflexivity. Qed.
Lemma node4_runs : node_runs toy_blocks node0 node4.
Proof.
  etrans; [apply (next_step _ submit_event); [by vm_compute|done]|].
  etrans; [apply (next_step _ (MinerPrepare 1000)); [by vm_compute|done]|].
  etrans; [apply (next_step _ (MinerGrind 4 4)); [by vm_compute|]|].
  { intros b s Hf. fold node1 node2 node3 in Hf. rewrite node3_found in Hf.
    apply found_block in Hf as <-. by right. }
  apply (next_step _ (MinerCommit 1000)); [by vm_compute|done].
Qed.

(** C17: for any interleaving of the RPC service, the miner service and the
    gossip service, from the genesis state on: the chain state is well formed
    (every block under its hash with its store, the head known and highest), the
    pool valid, the search of the miner service for a child of a known block,
    and the gossip service consistent (a future is pending only in its own
    state, so that the branch marked as a bug is not reached; at most 100000
    blocks are buffered, all different and remembered by hash).  In every
    further turn the height of the head does not decrease, and what the node
    publishes is valid: transactions carry valid signatures, blocks have passed
    the structural checks and the proof of work.  The hash is assumed not to
    collide on the blocks that occur. *)
Theorem node_reachable
    `{PrefixHex, Crypto, Executor, Bcs, Base58, JsonLib, WireLib, UrlLib,
      !NodeLib, !ErrorTexts, !NodeLibLaws} (P : Block → Prop) genesis c addr n0 n :
  (∀ a b, P a → P b → block_hash a = block_hash b → a = b) →
  P block_genesis → (0 ≤ cfg_snapshot_depth c)%Z →
  node_start (node_with_genesis genesis c) addr = Ok n0 → node_runs P n0 n →
  node_ok P n ∧
  (chain_height (chain (node_miner n0)) ≤ chain_height (chain (node_miner n)))%Z ∧
  ∀ n' out, node_step P n n' out →
    (chain_height (chain (node_miner n)) ≤ chain_height (chain (node_miner n')))%Z ∧
    Forall (valid_message (cfg_difficulty c)) (out_messages out).
Proof.
  intros HP Hg Hd Hst Hr. pose proof (node_start_ok P _ _ _ _ Hd Hg Hst) as Hok.
  assert (Hdiff : difficulty (chain (node_miner n0)) = cfg_difficulty c).
  { apply bind_Ok in Hst as (g & _ & Hn). by simplify_eq. }
  destruct (node_runs_ok P HP _ _ Hok Hr) as [Hn (_ & Hh & Hdf & _)]. split_and!; [done..|].
  intros n' out Hs. destruct (node_step_ok P HP _ _ _ Hn Hs) as (_ & (_ & Hh' & _) & Hmsg).
  split; [done|]. by rewrite <-Hdiff, <-Hdf.
Qed.

(** The block is mined, and the head is at height one. *)
Lemma node_reachable_witness :
  node_ok toy_blocks node4 ∧ chain_height (chain (node_miner node4)) = 1%Z.
Proof.
  split; [|by vm_compute].
  apply (node_reachable toy_blocks toy_genesis config "127.0.0.1:0" node0 node4).
  - exact toy_blocks_inj.
  - by left.
  - by vm_compute.
  - apply ok_value_eq.
  - exact node4_runs.
Defined.

(** ** Waiting for a future that was never created *)
Section stuck.
Context `{Crypto, Executor, UrlLib, WireLib, !NodeLib, !NodeLibLaws}.

(** In a sync, with no future pending and no block under way. *)
Definition is_stuck (g : GossipService) : bool :=
  match service_state g with Working => false | _ => true end &&
  negb (is_some (sync_fut g)) && negb (is_some (state_sync_fut g)) && negb (is_some (deciding g)).

(** Turns of the gossip service, while the other services leave the miner alone. *)
Definition gossip_step (x y : GossipService * Miner) : Prop :=
  ∃ now e msgs, enabled e (fst x) = true ∧
    gossip_turn (E:=()) now e (fst x) (snd x) = Ok (Some (fst y, snd y, msgs)).

Lemma on_transaction_chain {E} data m m' :
  on_transaction (E:=E) data m = Ok m' → chain m' = chain m.
Proof.
  unfold on_transaction. destruct (bcs_signed_decode data) as [s|]; [|by intros; simplify_eq].
  intros (r & Hr%attempt_Ok & Ho)%bind_Ok. simplify_eq. destruct r as [m1|]; [|done]. simpl.
  unfold submit_transaction in Hr. apply bind_Ok in Hr as (? & _ & Hr).
  apply bind_Ok in Hr as (? & _ & Hr). by simplify_eq.
Qed.

Lemma is_stuck_spec g :
  is_stuck g = true ↔ service_state g ≠ Working ∧ sync_fut g = None ∧ state_sync_fut g = None ∧
    deciding g = None.
Proof.
  unfold is_stuck. destruct (service_state g), (sync_fut g), (state_sync_fut g), (deciding g);
    simpl; naive_solver.
Qed.

Lemma stuck_step x y :
  is_stuck (fst x) = true → gossip_step x y → is_stuck (fst y) = true ∧ chain (snd y) = chain (snd x).
Proof.
  destruct x as [g m], y as [g' m']. simpl. intros Hst (now & e & msgs & He & Ht). simpl in *.
  pose proof Hst as (Hw & Hs1 & Hs2 & Hd)%is_stuck_spec. unfold enabled in He. rewrite Hd, Hs1, Hs2 in He.
  destruct e as [|sn|pl|[ev|]| |[data|]|[data|]]; simpl in *; try done; try (by simplify_eq).
  destruct ev as [a|id topic data from|pr|pr|pr topic]; simpl in Ht; try (by simplify_eq).
  destruct (String.eqb topic TOPIC_TRANSACTIONS).
  { apply bind_Ok in Ht as (m1 & Ho & Heq). simplify_eq. split; [done|]. by eapply on_transaction_chain. }
  destruct (String.eqb topic TOPIC_BLOCKS).
  { apply bind_Ok in Ht as (g1 & Ho & Heq). simplify_eq. split; [|done]. unfold on_block in Ho.
    destruct (bcs_block_decode data) as [b|]; [|by simplify_eq].
    destruct (service_state g) as [|bs hs|bs hs] eqn:Hsv; [done| |];
      destruct (buffer bs hs b); simplify_eq; by apply is_stuck_spec. }
  destruct (String.eqb topic TOPIC_PEER_INFO); simplify_eq; [|done]. split; [|done].
  unfold on_peer_info. by repeat case_match.
Qed.

(** C26: a block sync that cannot name a peer never ends.  When a working
    service knows no peer's URL and receives a block that is more than one
    above its head, whatever else the block contains, it waits for a future
    that was not created.  From then on, whatever happens, also when URLs of
    peers arrive later, it stays in that state and applies no block. *)
Theorem gossip_stuck_without_peer g m hb data id from block now :
  service_state g = Working → sync_fut g = None → state_sync_fut g = None → deciding g = None →
  known_peer_urls g = ∅ →
  blocks (chain m) !! head_hash (chain m) = Some hb →
  in_u64 (height (block_header hb) + 1) →
  in_u64 (height (block_header hb) + snapshot_depth (chain m)) →
  bcs_block_decode data = Some block →
  (height (block_header hb) + 1 < height (block_header block))%Z →
  ∃ g1 g2,
    gossip_turn (E:=()) now (NetworkMessage (Some (Message id TOPIC_BLOCKS data from))) g m =
      Ok (Some (g1, m, [])) ∧
    gossip_turn (E:=()) now DecideBlock g1 m = Ok (Some (g2, m, [])) ∧
    is_stuck g2 = true ∧
    ∀ g' m', rtc gossip_step (g2, m) (g', m') → is_stuck g' = true ∧ chain m' = chain m.
Proof.
  intros Hst Hs1 Hs2 Hd Hk Hhb Hu1 Hu2 Hdec Hgap.
  assert (Hpeer : choose_peer g from = None).
  { unfold choose_peer. rewrite Hk. rewrite (proj2 (first_value_None ∅) eq_refl). destruct from; simpl; by rewrite ?lookup_empty. }
  set (d := mkDecision block None (height (block_header hb))
    (saturating_sub (height (block_header hb)) (snapshot_depth (chain m))) (snapshot_depth (chain m))).
  assert (Hdecide : ∃ st, st ≠ Working ∧
    decide_block (E:=()) now d (set_deciding g (Some d)) m =
    Ok (set_futures (set_state (set_deciding g None) st) None None, m)).
  { unfold decide_block. cbn [d bd_local_height bd_snapshot_depth bd_block bd_peer_url].
    rewrite (proj2 (u64_add_Ok _ _ _) (conj Hu2 eq_refl)). cbn [mbind outcome_bind].
    rewrite (proj2 (u64_add_Ok _ _ _) (conj Hu1 eq_refl)). cbn [mbind outcome_bind].
    rewrite (bool_decide_true (_ + 1 < _)%Z) by done.
    cbn [set_deciding sync_fut state_sync_fut set_state]. rewrite Hs1, Hs2.
    case_bool_decide; eexists; (split; [|done]); done. }
  destruct Hdecide as (st & Hne & Hdecide).
  set (g2 := set_futures (set_state (set_deciding g None) st) None None) in *.
  assert (Hstuck : is_stuck g2 = true) by (by apply is_stuck_spec).
  exists (set_deciding g (Some d)), g2. split_and!; [| |done|].
  - simpl. unfold on_block. rewrite Hdec, Hst. unfold sync_from_height, head_height, head_block.
    rewrite Hhb, Hpeer. done.
  - simpl. by rewrite Hdecide.
  - intros g' m' Hr. apply (rtc_ind_l (λ x, is_stuck (fst x) = true →
      is_stuck g' = true ∧ chain m' = chain (snd x)) (g', m')) in Hr; try done.
    intros x y Hs _ IH Hx. destruct (stuck_step _ _ Hx Hs) as [Hy <-]. by apply IH.
Qed.
End stuck.

(** A block that says it is at height nine, received by a new node. *)
Lemma gossip_stuck_without_peer_witness :
  ∃ g1 g2,
    gossip_turn (E:=()) 1000 (NetworkMessage (Some (Message (mkMessageId []) TOPIC_BLOCKS [9%Z] None)))
      (node_gossip node0) miner0 = Ok (Some (g1, miner0, [])) ∧
    gossip_turn (E:=()) 1000 DecideBlock g1 miner0 = Ok (Some (g2, miner0, [])) ∧
    is_stuck g2 = true.
Proof.
  destruct (gossip_stuck_without_peer (node_gossip node0) miner0 block_genesis [9%Z] (mkMessageId [])
    None (junk_block 9) 1000) as (g1 & g2 & H1 & H2 & H3 & _);
    [try (vm_compute; (reflexivity || (split; discriminate)))..|exists g1, g2; by split_and!].
Defined.
