(* ===== verification/SyncCorrect.v ===== *)
(** * Catching up with a peer

    A block sync of a reachable node, from the request to the last buffered
    block. *)

From S2P Require Import Prelude Text Address HexInstance VmTypes ChainTypes Convert Framework Context.
From S2P Require Import Validator Store Mempool Chain ChainProps Miner MinerProps NodeExamples.
From S2P Require Import Http Rpc NodeClient RpcProps RpcCorrect.
From S2P Require Import GossipNetwork GossipService Node NodeProps NodeCorrect.
From stdpp Require Import sorting.

Section sync.
Context `{PrefixHex, Crypto, Executor, Bcs, Base58, JsonLib, WireLib, UrlLib, !NodeLib, !ErrorTexts}.
Context `{!PrefixHexLaws, !Base58Laws, !JsonLaws, !UrlLaws, !NodeLibLaws}.

(** What a peer answers to the pull. *)
Lemma pull_blocks_exact u peer from :
  url_path u = "/" → in_u64 from →
  pull_blocks_from_peer deliver peer u from = (get_blocks_since (chain (rpc_miner peer)) from, peer).
Proof.
  intros Hu Hf. unfold pull_blocks_from_peer. rewrite get_blocks_since_round_trip; [done| |done].
  unfold with_url, normalize_url. cbn [base_url]. by rewrite Hu.
Qed.
Lemma elem_of_blocks_since cs from b :
  b ∈ get_blocks_since cs from ↔
  (from ≤ block_height b)%Z ∧ ∃ d, blocks cs !! d = Some b.
Proof.
  unfold get_blocks_since. rewrite list_elem_of_filter, list_elem_of_fmap. split.
  - intros [Hf ([d b'] & -> & Hd%elem_of_map_to_list)]. eauto.
  - intros [Hf (d & Hd)]. split; [done|]. exists (d, b). split; [done|]. by apply elem_of_map_to_list.
Qed.

(** A sync that delivers what a peer answers, for a request that starts within
    the window. *)
Lemma pulled_catches_up (R : Block → Store → Prop) u (peer : RpcHandler) g m bs hs from now p ps l :
  url_path u = "/" → chain_core (chain (rpc_miner peer)) →
  in_u64 (chain_height (chain (rpc_miner peer)) + 1) →
  steady R m → (1 ≤ snapshot_depth (chain m))%Z → in_u64 (now + MAX_BLOCK_FUTURE_DRIFT_MS) →
  service_state g = Syncing bs hs → starts_by m from →
  blocks (chain m) !! block_hash p = Some p → snapshots (chain m) !! block_hash p = Some ps →
  valid_chain now (difficulty (chain m)) p ps l →
  (∀ b, b ∈ l → blocks (chain (rpc_miner peer)) !! block_hash b = Some b ∧
                blocks (chain m) !! block_hash b = None) →
  Forall (executes_cleanly R) (get_blocks_since (chain (rpc_miner peer)) from) → Forall (applicable R) bs →
  ∃ g' m',
    on_pulled (E:=()) now (fst (pull_blocks_from_peer deliver peer u from)) g m = Ok (g', m') ∧
    service_state g' = Working ∧ sync_fut g' = None ∧ steady R m' ∧
    (block_height (List.last l p) ≤ chain_height (chain m'))%Z.
Proof.
  intros Hu Hpc Hpu Hs Hd Hnow Hst Hfr Hp Hps Hv Hl Hx Hbs. pose proof Hs as [Hm Hmu _].
  pose proof (known_le _ _ _ Hm Hp) as Hple. destruct (wf_head _ (mo_core _ _ Hm)) as (hb & Hhb & Hwin).
  destruct (Hwin _ _ Hp) as [_ Hpw]. unfold in_window in Hpw. rewrite <-(chain_height_eq _ _ Hhb) in Hpw.
  assert (Hfrom : in_u64 from ∧ (from ≤ block_height p)%Z).
  { unfold starts_by, saturating_sub, in_u64 in *. lia. }
  rewrite pull_blocks_exact by tauto. cbn [fst]. set (pulled := get_blocks_since _ from) in *.
  destruct (wf_head _ Hpc) as (phb & Hphb & Hpwin). rewrite (chain_height_eq _ _ Hphb) in Hpu.
  assert (Hap : Forall (applicable R) pulled).
  { apply list.Forall_forall. intros b Hb. rewrite list.Forall_forall in Hx. split; [by apply Hx|].
    apply elem_of_blocks_since in Hb as [_ (d & Hb)]. destruct (Hpwin _ _ Hb) as [? _].
    unfold in_u64 in *. lia. }
  assert (Hinj : ∀ x y, x ∈ sort_by_height pulled → y ∈ sort_by_height pulled →
    block_hash x = block_hash y → x = y).
  { intros x y. rewrite !sort_perm. intros [_ (dx & Hdx)]%elem_of_blocks_since [_ (dy & Hdy)]%elem_of_blocks_since Heq.
    pose proof (wf_hash _ Hpc _ _ Hdx). pose proof (wf_hash _ Hpc _ _ Hdy). congruence. }
  destruct (catch_up R (E:=()) now m ∅ (sort_by_height pulled) (chain_height (chain m)) p ps l)
    as (seen & m1 & Ha & Hs1 & _ & Hle); try done.
  - split; try done; try lia.
    + intros b Hb. rewrite sort_perm. apply elem_of_blocks_since. destruct (Hl b Hb) as [Hb' _].
      pose proof (valid_chain_heights _ _ _ _ _ _ Hv Hb). split; [lia|by eauto].
    + intros b Hb. split; [set_solver|by apply Hl].
  - apply sort_sorted.
  - by rewrite sort_perm.
  - destruct (apply_unseen_returns R (E:=()) now seen m1 (sort_by_height bs)) as (seen' & m2 & Hb & Hs2 & Hadv);
      [done|done|by rewrite sort_perm|].
    unfold on_pulled. rewrite Ha. cbn [mbind outcome_bind]. rewrite Hst, Hb.
    eexists _, m2. split; [done|]. split_and!; [done..|]. destruct Hadv as (_ & ? & _). lia.
Qed.

(** C11: a sync ends, and it catches up.  Take any state that a node reaches in
    which a block sync is under way, with a request to a peer's URL for the
    blocks from some height on.  When the future delivers what that peer
    answers over RPC, the service is working again, its pool and chain are well
    formed, and its head is at least as high as every chain of valid blocks
    that the peer knows, that the node does not know yet, and that starts from
    a block that both know.  The other blocks that the peer sent and those that
    were buffered in the meantime may be invalid, but re-executing any of them
    on the store of its parent must not panic, and heights and clocks must not
    overflow.  That the request starts low enough (at most at the snapshot
    depth below the head, although other services may have moved the head
    since it was created) is proved of the run. *)
Theorem gossip_catches_up (P : Block → Prop) (R : Block → Store → Prop) genesis c addr n0 n
    (u : Url) from (peer : RpcHandler) now p ps l :
  (∀ a b, P a → P b → block_hash a = block_hash b → a = b) →
  P block_genesis → (1 ≤ cfg_snapshot_depth c)%Z →
  node_start (node_with_genesis genesis c) addr = Ok n0 → node_runs P n0 n →
  sync_fut (node_gossip n) = Some (u, from) → url_path u = "/" →
  chain_core (chain (rpc_miner peer)) → in_u64 (chain_height (chain (rpc_miner peer)) + 1) →
  in_u64 (chain_height (chain (node_miner n)) + 1) → in_u64 (now + MAX_BLOCK_FUTURE_DRIFT_MS) →
  blocks (chain (node_miner n)) !! block_hash p = Some p →
  snapshots (chain (node_miner n)) !! block_hash p = Some ps →
  valid_chain now (cfg_difficulty c) p ps l →
  (∀ b, b ∈ l → blocks (chain (rpc_miner peer)) !! block_hash b = Some b ∧
                blocks (chain (node_miner n)) !! block_hash b = None) →
  stores_ok R (chain (node_miner n)) →
  Forall (executes_cleanly R) (get_blocks_since (chain (rpc_miner peer)) from) →
  (∀ bs hs, service_state (node_gossip n) = Syncing bs hs → Forall (applicable R) bs) →
  ∃ g' m',
    gossip_turn (E:=()) now (SyncDone (fst (pull_blocks_from_peer deliver peer u from)))
      (node_gossip n) (node_miner n) = Ok (Some (g', m', [])) ∧
    service_state g' = Working ∧ sync_fut g' = None ∧ steady R m' ∧
    (block_height (List.last l p) ≤ chain_height (chain m'))%Z.
Proof.
  intros HP Hg Hd Hst Hrun Hf Hu Hpc Hpu Hmu Hnow Hp Hps Hv Hl HR Hx Hbs.
  assert (node_ok P n0) as Hok0 by (eapply node_start_ok; [|done..]; lia).
  assert (difficulty (chain (node_miner n0)) = cfg_difficulty c ∧
    snapshot_depth (chain (node_miner n0)) = cfg_snapshot_depth c) as [Hdf0 Hdp0].
  { apply bind_Ok in Hst as (g & _ & Hn). by simplify_eq. }
  destruct (node_runs_ok P HP _ _ Hok0 Hrun) as [[Hm [Hgs _] _ _ _ _] (_ & _ & Hdf & Hdp)].
  assert (starts_by (node_miner n) from) as Hfrom.
  { eapply ro_sync; [|exact Hf]. eapply node_runs_requests; [exact HP|exact Hok0|exact Hrun|].
    by eapply node_start_requests. }
  destruct (service_state (node_gossip n)) as [|bs hs|bs hs] eqn:Hsv;
    [destruct Hgs; congruence| |destruct Hgs; congruence].
  assert (steady R (node_miner n)) as Hs.
  { split; [|done..]. by destruct Hm; split. }
  destruct (pulled_catches_up R u peer (node_gossip n) (node_miner n) bs hs from now p ps l)
    as (g' & m' & Hon & Hw & Hsf & Hs' & Hh); try done.
  - by rewrite Hdp, Hdp0.
  - by rewrite Hdf, Hdf0.
  - by eapply Hbs.
  - exists g', m'. simpl. by rewrite Hon.
Qed.
End sync.

(** ** A node at genesis catches up with one that has mined a block *)
Definition toy_stores (b : Block) (s : Store) : Prop :=
  (b = block_genesis ∧ s = with_objects genesis_objects) ∨ (b = block1 ∧ s = store1).
(** A peer announces its URL, and then a block two above the head. *)
Definition peer_id : PeerId := mkPeerId [].
Definition announce_event : NodeEvent :=
  GossipEvent 1000 (NetworkMessage (Some (Message (mkMessageId []) TOPIC_PEER_INFO
    (as_bytes (url_as_str root_url)) (Some peer_id)))).
Definition gap_event : NodeEvent :=
  GossipEvent 1000 (NetworkMessage (Some (Message (mkMessageId []) TOPIC_BLOCKS [2%Z] (Some peer_id)))).
Definition behind1 : Node := next announce_event node0.
Definition behind2 : Node := next gap_event behind1.
Definition behind : Node := next (GossipEvent 1000 DecideBlock) behind2.
Definition gap_blocks (b : Block) : Prop := b = block_genesis ∨ b = block1 ∨ b = junk_block 2.
Definition ahead : RpcHandler := mkHandler (node_miner node4) [].

Lemma ahead_core : chain_core (chain (rpc_miner ahead)).
Proof.
  pose proof (node_runs_ok toy_blocks toy_blocks_inj node0 node4) as Hr.
  destruct Hr as [Hn _]; [|exact node4_runs|apply Hn].
  eapply (node_start_ok toy_blocks toy_genesis config "127.0.0.1:0");
    [by vm_compute|by left|apply ok_value_eq].
Qed.
Lemma genesis_hash_only p : toy_blocks p → block_hash p = parent_hash (block_header block1) → p = block_genesis.
Proof. intros [->| ->] Hh; [reflexivity|]. vm_compute in Hh. discriminate Hh. Qed.
Lemma no_parent_of_genesis p :
  toy_blocks p → block_hash p ≠ parent_hash (block_header block_genesis).
Proof. intros [->| ->] Hh; vm_compute in Hh; discriminate Hh. Qed.
Lemma toy_stores_block p ps : toy_stores p ps → toy_blocks p.
Proof. intros [[-> _]|[-> _]]; [by left|by right]. Qed.
Lemma block1_reexecutes : reexecute block1 (with_objects genesis_objects) = Ok store1.
Proof. vm_compute. reflexivity. Qed.
Lemma block1_clean : executes_cleanly toy_stores block1.
Proof.
  intros p ps Hp Hh. pose proof (toy_stores_block _ _ Hp) as Hb.
  apply genesis_hash_only in Hh as ->; [|done]. destruct Hp as [[_ ->]|[Hp _]]; last first.
  { exfalso. apply (f_equal (λ b, block_height b)) in Hp. vm_compute in Hp. discriminate Hp. }
  rewrite block1_reexecutes. split; [done|]. intros s [= <-]. by right.
Qed.
Lemma genesis_clean : executes_cleanly toy_stores block_genesis.
Proof. intros p ps Hp%toy_stores_block Hh. by destruct (no_parent_of_genesis p). Qed.
Lemma ahead_blocks d b : blocks (chain (rpc_miner ahead)) !! d = Some b → toy_blocks b.
Proof.
  pose proof (node_runs_ok toy_blocks toy_blocks_inj node0 node4) as Hr.
  destruct Hr as [[Hm _ _ _ _ _] _]; [|exact node4_runs|apply (mo_play _ _ Hm)].
  eapply (node_start_ok toy_blocks toy_genesis config "127.0.0.1:0");
    [by vm_compute|by left|apply ok_value_eq].
Qed.
Lemma miner0_steady : steady toy_stores miner0.
Proof.
  split; [split| |].
  - apply wf_core, miner0_chain_wf.
  - by vm_compute.
  - apply mempool_reachable_wf. constructor.
  - done.
  - vm_compute. by split.
  - intros d b s. change (blocks (chain miner0)) with ({[block_hash block_genesis := block_genesis]} : gmap Digest Block).
    change (snapshots (chain miner0)) with ({[block_hash block_genesis := with_objects genesis_objects]} : gmap Digest Store).
    intros [_ <-]%lookup_singleton_Some [_ <-]%lookup_singleton_Some. by left.
Qed.
Lemma block1_valid_child :
  valid_child 1000 (difficulty (chain miner0)) block_genesis (with_objects genesis_objects) block1 store1.
Proof.
  split.
  - vm_compute. reflexivity.
  - eapply (validate_block_structure_Ok _ _ _ ()). vm_compute. reflexivity.
  - vm_compute. reflexivity.
  - vm_compute. reflexivity.
  - apply (check_signatures_Ok _ ()). vm_compute. reflexivity.
  - exact block1_reexecutes.
Qed.

Lemma gap_blocks_inj a b : gap_blocks a → gap_blocks b → block_hash a = block_hash b → a = b.
Proof.
  intros [->|[->| ->]] [->|[->| ->]] Hh; try reflexivity; vm_compute in Hh; discriminate Hh.
Qed.
Lemma behind_runs : node_runs gap_blocks node0 behind.
Proof.
  etrans; [apply (next_step _ announce_event); [by vm_compute|]|].
  { intros b Hb. vm_compute in Hb. discriminate Hb. }
  etrans; [apply (next_step _ gap_event); [by vm_compute|]|].
  { intros b [= <-]. right. right. reflexivity. }
  apply (next_step _ (GossipEvent 1000 DecideBlock)); [by vm_compute|exact I].
Qed.
Lemma behind_miner : node_miner behind = miner0.
Proof. vm_compute. reflexivity. Qed.
Lemma behind_state :
  service_state (node_gossip behind) = Syncing [junk_block 2] {[block_hash (junk_block 2)]}.
Proof. vm_compute. reflexivity. Qed.
Lemma junk_clean : executes_cleanly toy_stores (junk_block 2).
Proof.
  intros p ps Hp%toy_stores_block Hh. exfalso.
  destruct Hp as [->| ->]; vm_compute in Hh; discriminate Hh.
Qed.

Lemma gossip_catches_up_witness :
  ∃ g' m',
    gossip_turn (E:=()) 1000 (SyncDone (fst (pull_blocks_from_peer deliver ahead root_url 0)))
      (node_gossip behind) miner0 = Ok (Some (g', m', [])) ∧
    service_state g' = Working ∧ (1 ≤ chain_height (chain m'))%Z.
Proof.
  rewrite <-behind_miner.
  destruct (gossip_catches_up gap_blocks toy_stores toy_genesis config "127.0.0.1:0" node0 behind
    root_url 0 ahead 1000 block_genesis (with_objects genesis_objects) [block1])
    as (g' & m' & Ho & Hw & _ & _ & Hh).
  - exact gap_blocks_inj.
  - left. reflexivity.
  - vm_compute. discriminate.
  - apply ok_value_eq.
  - exact behind_runs.
  - vm_compute. reflexivity.
  - reflexivity.
  - exact ahead_core.
  - vm_compute. split; discriminate.
  - vm_compute. split; discriminate.
  - vm_compute. split; discriminate.
  - vm_compute. reflexivity.
  - vm_compute. reflexivity.
  - exists store1. split; [exact block1_valid_child|exact I].
  - intros b ->%list_elem_of_singleton. split; vm_compute; reflexivity.
  - rewrite behind_miner. apply miner0_steady.
  - apply list.Forall_forall. intros b [_ (d & Hb)]%elem_of_blocks_since.
    apply ahead_blocks in Hb as [->| ->]; [exact genesis_clean|exact block1_clean].
  - intros bs hs. rewrite behind_state. intros [= <- _]. constructor; [|constructor].
    split; [exact junk_clean|]. vm_compute. split; discriminate.
  - exists g', m'. split; [exact Ho|]. split; [exact Hw|].
    etrans; [|exact Hh]. vm_compute. discriminate.
Defined.
