(* ===== verification/Keys.v ===== *)
(** * Keys and key stores

    Models [meow-types/src/keypair] and [meow-types/src/keystore].  The crates
    [base64], [bip32], [bip39], [slip10_ed25519], the keys of
    [ed25519_consensus] and [serde_json] on lists of strings are the classes
    [Bip32] and [KeyLib], with what the code relies on in their laws.  The file
    behind a key store is a value that the operations thread through; how a write
    to it goes is an argument. *)

From S2P Require Import Prelude Text Address VmTypes ChainTypes Store.
From stdpp Require Import sorting.

(** ** Schemes and mnemonics *)
Inductive SignatureScheme := Ed25519.
Inductive MnemonicType := Words12 | Words15 | Words18 | Words21 | Words24.

(** [SignatureScheme::flag], [impl TryFrom<u8>]; the derived [Display] and
    [EnumString] use the lower-case names. *)
Definition scheme_flag (scheme : SignatureScheme) : Z := match scheme with Ed25519 => 0 end.
Definition scheme_to_string (scheme : SignatureScheme) : string :=
  match scheme with Ed25519 => "ed25519" end.
Definition scheme_from_str (s : string) : option SignatureScheme :=
  if String.eqb s "ed25519" then Some Ed25519 else None.
Definition mnemonic_to_string (t : MnemonicType) : string :=
  match t with
  | Words12 => "words12" | Words15 => "words15" | Words18 => "words18"
  | Words21 => "words21" | Words24 => "words24"
  end.
Definition mnemonic_from_str (s : string) : option MnemonicType :=
  find_first (λ t, String.eqb s (mnemonic_to_string t)) [Words12; Words15; Words18; Words21; Words24].
(** [impl From<MnemonicType> for bip39::MnemonicType], as the number of words. *)
Definition bip39_words (t : MnemonicType) : nat :=
  match t with Words12 => 12 | Words15 => 15 | Words18 => 18 | Words21 => 21 | Words24 => 24 end.

(** ** The crates *)
Class Bip32 := {
  ChildNumber : Type;
  child_eq_dec :: EqDecision ChildNumber;
  child_new : Z → bool → option ChildNumber;
  is_hardened : ChildNumber → bool;
  child_to_u32 : ChildNumber → Z;
  DerivationPath : Type;
  path_components : DerivationPath → list ChildNumber;
  path_parse : string → option DerivationPath;
}.

(** The text of a path: [m], then the numbers, hardened ones with a quote. *)
Fixpoint path_tail (l : list (Z * bool)) : string :=
  match l with
  | [] => ""
  | (i, hardened) :: l => "/" +:+ pretty i +:+ (if hardened then "'" else "") +:+ path_tail l
  end.
Definition path_text (l : list (Z * bool)) : string := "m" +:+ path_tail l.
Definition child_in_range (x : Z * bool) : Prop := (0 ≤ fst x < 2 ^ 31)%Z.

(** Documented behaviour of [bip32]: a child number is an index below 2^31 with a
    mark, and paths are read from their text. *)
Class Bip32Laws `{Bip32} := {
  child_new_some i hardened : child_in_range (i, hardened) →
    ∃ c, child_new i hardened = Some c ∧ is_hardened c = hardened ∧
      child_to_u32 c = (i + (if hardened then 2 ^ 31 else 0))%Z;
  child_to_u32_inj c d : child_to_u32 c = child_to_u32 d → c = d;
  path_parse_text l : Forall child_in_range l →
    ∃ p, path_parse (path_text l) = Some p ∧
      Forall2 (λ x c, child_new (fst x) (snd x) = Some c) l (path_components p);
}.

Class KeyLib := {
  base64_encode : list Z → string;
  base64_decode : string → option (list Z);
  hex_encode_plain : list Z → string;
  Mnemonic : Type;
  Entropy : Type;
  mnemonic_new : nat → Entropy → Mnemonic;
  mnemonic_phrase : Mnemonic → string;
  mnemonic_from_phrase : string → option Mnemonic;
  mnemonic_error : string → string;
  seed_new : Mnemonic → string → list Z;
  derive_ed25519_private_key : list Z → list Z → list Z;
  signing_key_new : Entropy → list Z;
  signing_key_try_from : list Z → option (list Z);
  (** [serde_json] on a [Vec<String>]: [to_string_pretty] and [from_slice]. *)
  json_strings : list string → string;
  json_strings_decode : string → option (list string);
}.

Definition is_signing_key (bs : list Z) : Prop := length bs = 32 ∧ Forall is_byte bs.

(** Documented behaviour: codecs decode what they encode, a phrase determines its
    mnemonic, signing keys are 32 bytes, and an empty text is no JSON value. *)
Class KeyLaws `{KeyLib} := {
  base64_roundtrip bs : Forall is_byte bs → base64_decode (base64_encode bs) = Some bs;
  base64_decode_bytes s bs : base64_decode s = Some bs → Forall is_byte bs;
  phrase_roundtrip m : mnemonic_from_phrase (mnemonic_phrase m) = Some m;
  derive_is_key seed path : is_signing_key (derive_ed25519_private_key seed path);
  signing_key_try_from_eq bs : Forall is_byte bs →
    signing_key_try_from bs = if bool_decide (length bs = 32) then Some bs else None;
  json_strings_roundtrip l : json_strings_decode (json_strings l) = Some l;
  json_strings_empty : json_strings_decode "" = None;
}.

Module KeyPairError.
Inductive t `{Bip32} :=
  | Bip32Error
  | Base64DecodeError
  | Ed25519ConsensusError
  | InvalidDerivationPath (path : DerivationPath)
  | InvalidKeyPairBytes (bytes : list Z)
  | InvalidMnemonic (text : string)
  | InvalidSignatureSchemeFlag (flag : Z).
End KeyPairError.

Definition scheme_try_from `{Bip32} (flag : Z) : outcome KeyPairError.t SignatureScheme :=
  if Z.eqb flag 0 then Ok Ed25519 else Err (KeyPairError.InvalidSignatureSchemeFlag flag).

(** ** Key pairs *)
Definition DERIVATION_PATH_PURPOSE_ED25519 : Z := 44.
Definition DERIVATION_PATH_COIN_TYPE : Z := 9999.
Definition default_path_text : string :=
  "m/" +:+ pretty DERIVATION_PATH_PURPOSE_ED25519 +:+ "'/" +:+ pretty DERIVATION_PATH_COIN_TYPE +:+
  "'/0'/0'/0'".

Section keypair.
Context `{Bip32, KeyLib, Crypto}.
Notation KResult := (outcome KeyPairError.t).

(** [validate_path]. *)
Definition validate_path (path : option DerivationPath) : KResult DerivationPath :=
  match path with
  | Some path =>
      match path_components path with
      | [purpose; coin_type; account; change; address] =>
          if bool_decide (Some purpose = child_new DERIVATION_PATH_PURPOSE_ED25519 true) &&
             bool_decide (Some coin_type = child_new DERIVATION_PATH_COIN_TYPE true) &&
             is_hardened account && is_hardened change && is_hardened address
          then Ok path else Err (KeyPairError.InvalidDerivationPath path)
      | _ => Err (KeyPairError.InvalidDerivationPath path)
      end
  | None => ok_or (path_parse default_path_text) KeyPairError.Bip32Error
  end.

(** [Ed25519KeyPair::derive], [generate], [random], [try_from]. *)
Definition ed25519_derive (seed : list Z) (path : option DerivationPath) : KResult KeyPair :=
  path ← validate_path path;
  let indexes := child_to_u32 <$> path_components path in
  Ok (mkKeyPair (derive_ed25519_private_key seed indexes)).
Definition ed25519_generate (path : option DerivationPath) (mnemonic_type : option MnemonicType)
    (entropy : Entropy) : KResult (KeyPair * string) :=
  let mnemonic_type := default Words24 mnemonic_type in
  let mnemonic := mnemonic_new (bip39_words mnemonic_type) entropy in
  let seed := seed_new mnemonic "" in
  keypair ← ed25519_derive seed path;
  Ok (keypair, mnemonic_phrase mnemonic).
Definition ed25519_random (entropy : Entropy) : KeyPair := mkKeyPair (signing_key_new entropy).
Definition ed25519_try_from (bytes : list Z) : KResult KeyPair :=
  key ← ok_or (signing_key_try_from bytes) KeyPairError.Ed25519ConsensusError;
  Ok (mkKeyPair key).

(** [KeyPair::derive], [from_phrase], [generate], [random]. *)
Definition keypair_derive (seed : list Z) (scheme : SignatureScheme) (path : option DerivationPath)
  : KResult KeyPair :=
  match scheme with Ed25519 => ed25519_derive seed path end.
Definition keypair_from_phrase (phrase : string) (scheme : SignatureScheme)
    (path : option DerivationPath) : KResult KeyPair :=
  mnemonic ← ok_or (mnemonic_from_phrase phrase)
               (KeyPairError.InvalidMnemonic (mnemonic_error phrase));
  let seed := seed_new mnemonic "" in
  keypair_derive seed scheme path.
Definition keypair_generate (scheme : SignatureScheme) (path : option DerivationPath)
    (mnemonic_type : option MnemonicType) (entropy : Entropy) : KResult (KeyPair * string) :=
  match scheme with
  | Ed25519 =>
      '(keypair, words) ← ed25519_generate path mnemonic_type entropy;
      Ok (keypair, words)
  end.
Definition keypair_random (scheme : SignatureScheme) (entropy : Entropy) : KeyPair :=
  match scheme with Ed25519 => ed25519_random entropy end.

(** [KeyPair::public] with [PublicKey::scheme], [encode_base64], [encode_hex]. *)
Definition keypair_public (kp : KeyPair) : list Z := ed_public (signing_key kp).
Definition public_scheme (key : list Z) : SignatureScheme := Ed25519.
Definition public_encode_base64 (key : list Z) : string := base64_encode key.
Definition public_encode_hex (key : list Z) : string := hex_encode_plain key.

(** [KeyPair::to_bytes], [encode_base64], [decode_base64], [from_bytes]. *)
Definition keypair_to_bytes (kp : KeyPair) : list Z :=
  scheme_flag (public_scheme (keypair_public kp)) :: signing_key kp.
Definition encode_base64 (kp : KeyPair) : string := base64_encode (keypair_to_bytes kp).
Definition keypair_from_bytes (bytes : list Z) : KResult KeyPair :=
  scheme_byte ← ok_or (head bytes) (KeyPairError.InvalidKeyPairBytes bytes);
  scheme ← scheme_try_from scheme_byte;
  match scheme with Ed25519 => ed25519_try_from (tail bytes) end.
Definition decode_base64 (text : string) : KResult KeyPair :=
  bytes ← ok_or (base64_decode text) KeyPairError.Base64DecodeError;
  keypair_from_bytes bytes.

(** [impl Display for Signature]. *)
Definition signature_to_string (s : Signature) : string := base64_encode (sig_bytes s ++ sig_key s).
End keypair.

(** ** Key stores *)
Module KeystoreError.
Inductive t :=
  | IoError
  | KeyPairAlreadyExists (address : Address)
  | SerdeJsonError.
End KeystoreError.

(** The file behind a store, and how a write to it goes: [fs::write] empties the
    file before it writes, so a write that fails can leave anything. *)
Inductive File := Missing | Unreadable | Content (text : string).
Inductive Write := WriteOk | WriteFails (leftover : File).

Definition key_le (p q : Address * KeyPair) : Prop :=
  lex_le (address_bytes (fst p)) (address_bytes (fst q)) = true.
Global Instance key_le_dec p q : Decision (key_le p q).
Proof. unfold key_le. apply _. Defined.

Section keystore.
Context `{Bip32, KeyLib, Crypto}.
Notation KsResult := (outcome KeystoreError.t).

(** [InMemoryKeystore] and its operations. *)
Record InMemoryKeystore := mkInMemory { keys : gmap Address KeyPair }.
Definition in_memory_default : InMemoryKeystore := mkInMemory ∅.
Definition in_memory_add_key (ks : InMemoryKeystore) (keypair : KeyPair) : KsResult InMemoryKeystore :=
  let address := keypair_address keypair in
  guard_err (bool_decide (is_Some (keys ks !! address))) (KeystoreError.KeyPairAlreadyExists address) ;;
  Ok (mkInMemory (<[address := keypair]> (keys ks))).
Definition in_memory_get_key (ks : InMemoryKeystore) (address : Address) : option KeyPair :=
  keys ks !! address.
Definition in_memory_remove_key (ks : InMemoryKeystore) (address : Address)
  : option KeyPair * InMemoryKeystore :=
  (keys ks !! address, mkInMemory (delete address (keys ks))).
Definition in_memory_iter (ks : InMemoryKeystore) : list (Address * KeyPair) :=
  merge_sort key_le (map_to_list (keys ks)).

(** [impl Serialize], [impl Deserialize]: the keys in base 64, in a list. *)
Definition keystore_serialize (ks : InMemoryKeystore) : string :=
  json_strings ((λ p, encode_base64 (snd p)) <$> in_memory_iter ks).
Fixpoint decode_keys (texts : list string) : KsResult (list KeyPair) :=
  match texts with
  | [] => Ok []
  | text :: texts =>
      key ← map_err (λ _, KeystoreError.SerdeJsonError) (decode_base64 text);
      keys ← decode_keys texts;
      Ok (key :: keys)
  end.
Definition keystore_deserialize (text : string) : KsResult InMemoryKeystore :=
  texts ← ok_or (json_strings_decode text) KeystoreError.SerdeJsonError;
  keys ← decode_keys texts;
  map_err (λ _, KeystoreError.SerdeJsonError) (fold_m in_memory_add_key in_memory_default keys).

(** [FileBasedKeystore::load]. *)
Definition load (file : File) : KsResult InMemoryKeystore :=
  match file with
  | Missing => Ok in_memory_default
  | Unreadable => Err KeystoreError.IoError
  | Content text => keystore_deserialize text
  end.

(** [FileBasedKeystore::save]: the result, and the file after it. *)
Definition save (w : Write) (inner : InMemoryKeystore) : KsResult () * File :=
  let contents := keystore_serialize inner in
  match w with
  | WriteOk => (Ok (), Content contents)
  | WriteFails leftover => (Err KeystoreError.IoError, leftover)
  end.

(** [FileBasedKeystore::add_key], [remove_key]: the result, the keys in memory
    and the file. *)
Definition file_based_add_key (w : Write) (file : File) (inner : InMemoryKeystore) (keypair : KeyPair)
  : KsResult () * InMemoryKeystore * File :=
  let address := keypair_address keypair in
  match in_memory_add_key inner keypair with
  | Ok inner' =>
      match save w inner' with
      | (Err e, file) => (Err e, snd (in_memory_remove_key inner' address), file)
      | (_, file) => (Ok (), inner', file)
      end
  | Err e => (Err e, inner, file)
  | Panic msg => (Panic msg, inner, file)
  | NoFuel => (NoFuel, inner, file)
  end.
Definition file_based_remove_key (w : Write) (inner : InMemoryKeystore) (address : Address)
  : KsResult (option KeyPair) * InMemoryKeystore * File :=
  let '(removed, inner') := in_memory_remove_key inner address in
  match save w inner' with
  | (Err e, file) =>
      (Err e,
       match removed with
       | Some keypair => match in_memory_add_key inner' keypair with Ok inner => inner | _ => inner' end
       | None => inner'
       end, file)
  | (_, file) => (Ok removed, inner', file)
  end.

(** [Keystore]: either kind; the file stays as it is behind one in memory. *)
Inductive Keystore :=
  | FileBased (inner : InMemoryKeystore)
  | InMemory (inner : InMemoryKeystore).
Definition keystore_file_based (file : File) : KsResult Keystore :=
  inner ← load file; Ok (FileBased inner).
Definition keystore_in_memory : Keystore := InMemory in_memory_default.
Definition keystore_inner (ks : Keystore) : InMemoryKeystore :=
  match ks with FileBased inner | InMemory inner => inner end.
Definition keystore_add_key (w : Write) (file : File) (ks : Keystore) (keypair : KeyPair)
  : KsResult () * Keystore * File :=
  match ks with
  | FileBased inner =>
      let '(r, inner, file) := file_based_add_key w file inner keypair in (r, FileBased inner, file)
  | InMemory inner =>
      match in_memory_add_key inner keypair with
      | Ok inner => (Ok (), InMemory inner, file)
      | Err e => (Err e, ks, file)
      | Panic msg => (Panic msg, ks, file)
      | NoFuel => (NoFuel, ks, file)
      end
  end.
Definition keystore_get_key (ks : Keystore) (address : Address) : option KeyPair :=
  in_memory_get_key (keystore_inner ks) address.
Definition keystore_remove_key (w : Write) (file : File) (ks : Keystore) (address : Address)
  : KsResult (option KeyPair) * Keystore * File :=
  match ks with
  | FileBased inner =>
      let '(r, inner, file) := file_based_remove_key w inner address in (r, FileBased inner, file)
  | InMemory inner =>
      let '(removed, inner) := in_memory_remove_key inner address in (Ok removed, InMemory inner, file)
  end.
Definition keystore_iter (ks : Keystore) : list (Address * KeyPair) :=
  in_memory_iter (keystore_inner ks).
End keystore.
