(* ===== verification/KeysCorrect.v ===== *)
(** * Keys survive, in phrases and in files

    A generated key comes back from its phrase and from its text; the keys in
    memory are the keys in the file, as long as a write that fails leaves the
    file as it was. *)

From S2P Require Import Prelude Text Address HexInstance VmTypes ChainTypes Store Keys NodeExamples.
From stdpp Require Import sorting.

(** ** Key pairs *)
Section keypair.
Context `{Bip32, KeyLib, Crypto, !Bip32Laws, !KeyLaws}.

(** The numbers of the paths that are allowed. *)
Definition is_meow_path (l : list (Z * bool)) : Prop :=
  ∃ account change address,
    l = [(DERIVATION_PATH_PURPOSE_ED25519, true); (DERIVATION_PATH_COIN_TYPE, true);
         (account, true); (change, true); (address, true)].

Lemma child_new_inj i j h k c :
  child_in_range (i, h) → child_in_range (j, k) →
  child_new i h = Some c → child_new j k = Some c → i = j ∧ h = k.
Proof.
  intros Hi Hj Hc Hd. destruct (child_new_some _ _ Hi) as (c' & Hc' & Hh & Hu).
  destruct (child_new_some _ _ Hj) as (d' & Hd' & Hk & Hv). simplify_eq.
  split; [|done]. by case_match; lia.
Qed.
Lemma child_new_hardened i h c : child_in_range (i, h) → child_new i h = Some c → is_hardened c = h.
Proof. intros Hi Hc. destruct (child_new_some _ _ Hi) as (c' & Hc' & Hh & _). by simplify_eq. Qed.
Lemma purpose_in_range : child_in_range (DERIVATION_PATH_PURPOSE_ED25519, true).
Proof. split; by vm_compute. Qed.
Lemma coin_type_in_range : child_in_range (DERIVATION_PATH_COIN_TYPE, true).
Proof. split; by vm_compute. Qed.

(** The test of one fixed component. *)
Lemma child_test i h j c :
  child_in_range (i, h) → child_in_range (j, true) → child_new i h = Some c →
  bool_decide (Some c = child_new j true) = true ↔ (i, h) = (j, true).
Proof.
  intros Hi Hj Hc. rewrite bool_decide_eq_true. split; intros Heq.
  - destruct (child_new_inj i j h true c) as [-> ->]; done.
  - by simplify_eq.
Qed.

Lemma validate_path_text l p :
  Forall child_in_range l → Forall2 (λ x c, child_new (fst x) (snd x) = Some c) l (path_components p) →
  validate_path (Some p) = Ok p ∧ is_meow_path l ∨
  validate_path (Some p) = Err (KeyPairError.InvalidDerivationPath p) ∧ ¬ is_meow_path l.
Proof.
  intros Hl Hp. unfold validate_path.
  assert (Hlen : length l ≠ 5 → ¬ is_meow_path l) by (intros Hne (a & c & x & ->); done).
  destruct Hp as [|x0 c0 l0 cs0 Hc0 [|x1 c1 l1 cs1 Hc1 [|x2 c2 l2 cs2 Hc2 [|x3 c3 l3 cs3 Hc3 [|x4 c4 l4 cs4 Hc4
    [|x5 c5 l5 cs5 Hc5 Hp]]]]]]; try (right; split; [done|by apply Hlen]).
  destruct x0 as [i0 h0], x1 as [i1 h1], x2 as [i2 h2], x3 as [i3 h3], x4 as [i4 h4]. simpl in *.
  rewrite !list.Forall_cons in Hl. destruct Hl as (Hi0 & Hi1 & Hi2 & Hi3 & Hi4 & _).
  rewrite (child_new_hardened _ _ _ Hi2 Hc2), (child_new_hardened _ _ _ Hi3 Hc3),
    (child_new_hardened _ _ _ Hi4 Hc4).
  pose proof (child_test _ _ _ _ Hi0 purpose_in_range Hc0) as Ht0.
  pose proof (child_test _ _ _ _ Hi1 coin_type_in_range Hc1) as Ht1.
  destruct (bool_decide (Some c0 = _)), (bool_decide (Some c1 = _)), h2, h3, h4; simpl;
    try (right; split; [done|]; intros (a & c & x & Heq); simplify_eq; naive_solver).
  left. split; [done|]. destruct Ht0 as [Ht0 _], Ht1 as [Ht1 _].
  rewrite Ht0, Ht1 by done. by exists i2, i3, i4.
Qed.

Lemma default_path_eq :
  default_path_text =
  path_text [(DERIVATION_PATH_PURPOSE_ED25519, true); (DERIVATION_PATH_COIN_TYPE, true);
             (0%Z, true); (0%Z, true); (0%Z, true)].
Proof. reflexivity. Qed.
Lemma validate_path_default : ∃ p, validate_path None = Ok p.
Proof.
  destruct (path_parse_text [(DERIVATION_PATH_PURPOSE_ED25519, true); (DERIVATION_PATH_COIN_TYPE, true);
             (0%Z, true); (0%Z, true); (0%Z, true)]) as (p & Hp & _).
  { repeat constructor; try done; by apply coin_type_in_range || by apply purpose_in_range. }
  exists p. unfold validate_path. by rewrite default_path_eq, Hp.
Qed.

Lemma keypair_bytes_round_trip kp :
  is_signing_key (signing_key kp) → keypair_from_bytes (keypair_to_bytes kp) = Ok kp.
Proof.
  intros [Hlen Hb]. unfold keypair_from_bytes, keypair_to_bytes, ed25519_try_from. simpl.
  rewrite signing_key_try_from_eq, bool_decide_true by done. by destruct kp.
Qed.
Lemma decode_encode_base64 kp : is_signing_key (signing_key kp) → decode_base64 (encode_base64 kp) = Ok kp.
Proof.
  intros Hk. unfold decode_base64, encode_base64.
  rewrite base64_roundtrip by (constructor; [by vm_compute|by apply Hk]). by apply keypair_bytes_round_trip.
Qed.
Lemma from_bytes_key bytes kp :
  Forall is_byte bytes → keypair_from_bytes bytes = Ok kp →
  bytes = keypair_to_bytes kp ∧ is_signing_key (signing_key kp).
Proof.
  intros Hb. unfold keypair_from_bytes, ed25519_try_from, scheme_try_from.
  destruct bytes as [|b bytes]; simpl; [done|]. inversion Hb; subst.
  destruct (Z.eqb_spec b 0) as [->|]; simpl; [|done].
  rewrite signing_key_try_from_eq by done. case_bool_decide; simpl; [|done].
  intros Heq. simplify_eq. done.
Qed.
Lemma decode_base64_key text kp : decode_base64 text = Ok kp → is_signing_key (signing_key kp).
Proof.
  unfold decode_base64. intros (bytes & Hb%ok_or_Ok & Hkp)%bind_Ok.
  by eapply from_bytes_key; [eapply base64_decode_bytes|].
Qed.

(** C19: a key pair can always be generated on the default path, and on exactly
    those paths that have the purpose, the coin type and three further numbers,
    all hardened.  A generated key pair is recovered from its phrase with the same
    path, and from its base 64 text, whatever the number of words. *)
Theorem keypair_recovered scheme mnemonic_type entropy :
  (∃ kp phrase, keypair_generate scheme None mnemonic_type entropy = Ok (kp, phrase)) ∧
  (∀ path kp phrase, keypair_generate scheme path mnemonic_type entropy = Ok (kp, phrase) →
    keypair_from_phrase phrase scheme path = Ok kp ∧ decode_base64 (encode_base64 kp) = Ok kp) ∧
  (∀ l, Forall child_in_range l → ∃ p, path_parse (path_text l) = Some p ∧
    ((∃ r, keypair_generate scheme (Some p) mnemonic_type entropy = Ok r) ↔ is_meow_path l) ∧
    (¬ is_meow_path l → keypair_generate scheme (Some p) mnemonic_type entropy =
                         Err (KeyPairError.InvalidDerivationPath p))).
Proof.
  destruct scheme. unfold keypair_generate, keypair_from_phrase, keypair_derive, ed25519_generate,
    ed25519_derive. split_and!.
  - destruct validate_path_default as (p & Hp). rewrite Hp. simpl. eauto.
  - intros path kp phrase Hg. destruct (validate_path path) as [p| | |]; simpl in Hg; simplify_eq.
    rewrite phrase_roundtrip. split; [done|]. apply decode_encode_base64, derive_is_key.
  - intros l Hl. destruct (path_parse_text l Hl) as (p & Hp & Hcs). exists p. split; [done|].
    destruct (validate_path_text l p Hl Hcs) as [[-> Hm]|[-> Hm]]; simpl; naive_solver.
Qed.
End keypair.

(** ** Key stores *)
Section keystore.
Context `{Bip32, KeyLib, Crypto, !Bip32Laws, !KeyLaws}.

(** Every key is filed under its own address. *)
Definition wf_key (a : Address) (kp : KeyPair) : Prop :=
  keypair_address kp = a ∧ is_signing_key (signing_key kp).
Definition wf_keystore (ks : InMemoryKeystore) : Prop := map_Forall wf_key (keys ks).

Lemma add_key_Ok ks kp ks' :
  in_memory_add_key ks kp = Ok ks' ↔
  keys ks !! keypair_address kp = None ∧ ks' = mkInMemory (<[keypair_address kp := kp]> (keys ks)).
Proof.
  unfold in_memory_add_key. destruct (keys ks !! keypair_address kp); simpl; naive_solver.
Qed.
Lemma add_key_wf ks kp ks' :
  wf_keystore ks → is_signing_key (signing_key kp) → in_memory_add_key ks kp = Ok ks' → wf_keystore ks'.
Proof. intros Hwf Hkp [_ ->]%add_key_Ok. by apply map_Forall_insert_2. Qed.
Lemma add_keys_wf l ks ks' :
  wf_keystore ks → Forall (λ kp, is_signing_key (signing_key kp)) l →
  fold_m in_memory_add_key ks l = Ok ks' → wf_keystore ks'.
Proof.
  revert ks. induction l as [|kp l IH]; intros ks Hwf Hl; simpl.
  - intros. by simplify_eq.
  - inversion Hl; subst. intros (ks1 & Hadd & Hks)%bind_Ok. eapply IH, Hks; [|done].
    by eapply add_key_wf.
Qed.
Lemma add_keys_fresh l ks :
  Forall (λ p, keypair_address (snd p) = fst p) l → NoDup (fst <$> l) →
  (∀ a, a ∈ fst <$> l → keys ks !! a = None) →
  fold_m in_memory_add_key ks (snd <$> l) = Ok (mkInMemory (list_to_map l ∪ keys ks)).
Proof.
  revert ks. induction l as [|[a kp] l IH]; intros ks Hl Hnd Hks; simpl.
  - rewrite (left_id_L ∅ (∪)). by destruct ks.
  - inversion Hl as [|? ? Ha Hl']; simplify_eq. simpl in *. subst a. apply list.NoDup_cons in Hnd as [Hnin Hnd].
    assert (Hadd : in_memory_add_key ks kp = Ok (mkInMemory (<[keypair_address kp := kp]> (keys ks)))).
    { apply add_key_Ok. split; [|done]. apply Hks. by left. }
    rewrite Hadd. simpl. rewrite IH; [|done..|].
    + simpl. by rewrite <-insert_union_r, insert_union_l by (by apply not_elem_of_list_to_map).
    + intros b Hb. simpl. rewrite lookup_insert_ne by (by intros <-). apply Hks. by right.
Qed.
Lemma decode_keys_encoded l :
  Forall (λ kp, is_signing_key (signing_key kp)) l → decode_keys (encode_base64 <$> l) = Ok l.
Proof.
  induction 1 as [|kp l Hkp Hl IH]; [done|]. rewrite fmap_cons. simpl.
  by rewrite decode_encode_base64, IH.
Qed.
Lemma decode_keys_valid texts l :
  decode_keys texts = Ok l → Forall (λ kp, is_signing_key (signing_key kp)) l.
Proof.
  revert l. induction texts as [|text texts IH]; intros l; simpl; [intros; by simplify_eq|].
  intros (kp & Hkp%map_err_Ok & (l' & Hl' & Heq)%bind_Ok)%bind_Ok. simplify_eq.
  constructor; [by eapply decode_base64_key|by apply IH].
Qed.

Lemma keystore_round_trip ks :
  wf_keystore ks → keystore_deserialize (keystore_serialize ks) = Ok ks.
Proof.
  intros Hwf. unfold keystore_deserialize, keystore_serialize, in_memory_iter.
  rewrite json_strings_roundtrip. simpl.
  set (l := merge_sort key_le (map_to_list (keys ks))).
  assert (Hperm : l ≡ₚ map_to_list (keys ks)) by apply merge_sort_Permutation.
  assert (Hl : Forall (λ p, wf_key (fst p) (snd p)) l).
  { rewrite Hperm. apply map_Forall_to_list in Hwf.
    eapply list.Forall_impl; [exact Hwf|]. by intros []. }
  replace ((λ p, encode_base64 (snd p)) <$> l) with (encode_base64 <$> (snd <$> l))
    by (by rewrite <-list_fmap_compose).
  rewrite decode_keys_encoded.
  2: { apply list.Forall_fmap. eapply list.Forall_impl; [exact Hl|]. by intros p [_ Hp]. }
  simpl. rewrite add_keys_fresh.
  - simpl. rewrite (right_id_L ∅ (∪)). erewrite list_to_map_proper; [|..|exact Hperm].
    + rewrite list_to_map_to_list. by destruct ks.
    + rewrite Hperm. apply NoDup_fst_map_to_list.
  - eapply list.Forall_impl; [exact Hl|]. by intros p [Hp _].
  - rewrite Hperm. apply NoDup_fst_map_to_list.
  - intros a _. apply lookup_empty.
Qed.
Lemma load_wf file ks : load file = Ok ks → wf_keystore ks.
Proof.
  destruct file as [| |text]; simpl; [intros; simplify_eq; by apply map_Forall_empty|done|].
  unfold keystore_deserialize. intros (texts & _ & (l & Hl & Hks%map_err_Ok)%bind_Ok)%bind_Ok.
  eapply add_keys_wf, Hks; [by apply map_Forall_empty|by eapply decode_keys_valid].
Qed.

(** A write that fails leaves the file as it was. *)
Definition keeps_file (w : Write) (file : File) : Prop := ∀ leftover, w = WriteFails leftover → leftover = file.

Lemma file_add_spec w file ks kp r ks' file' :
  wf_keystore ks → is_signing_key (signing_key kp) → keeps_file w file →
  file_based_add_key w file ks kp = (r, ks', file') →
  (r = Ok () ∧ in_memory_add_key ks kp = Ok ks' ∧ file' = Content (keystore_serialize ks')) ∨
  (is_ok r = false ∧ ks' = ks ∧ file' = file).
Proof.
  intros Hwf Hkp Hw. unfold file_based_add_key.
  destruct (in_memory_add_key ks kp) as [ks1| | |] eqn:Hadd; try (intros; simplify_eq; by right).
  destruct w as [|leftover]; simpl; intros Heq; simplify_eq.
  - by left.
  - right. split_and!; [done| |by apply Hw]. apply add_key_Ok in Hadd as [Hnone ->]. simpl.
    rewrite delete_insert_id by done. by destruct ks.
Qed.
Lemma file_remove_spec w file ks a r ks' file' :
  wf_keystore ks → keeps_file w file →
  file_based_remove_key w ks a = (r, ks', file') →
  (r = Ok (keys ks !! a) ∧ keys ks' = delete a (keys ks) ∧ file' = Content (keystore_serialize ks')) ∨
  (is_ok r = false ∧ ks' = ks ∧ file' = file).
Proof.
  intros Hwf Hw. unfold file_based_remove_key. simpl.
  destruct w as [|leftover]; simpl; intros Heq; simplify_eq; [by left|right].
  split_and!; [done| |by apply Hw]. destruct (keys ks !! a) as [kp|] eqn:Ha.
  - destruct (Hwf _ _ Ha) as [Hka _].
    assert (Hadd : in_memory_add_key (mkInMemory (delete a (keys ks))) kp = Ok ks).
    { apply add_key_Ok. simpl. rewrite Hka, lookup_delete_eq, insert_delete_eq, insert_id by done. by destruct ks. }
    by rewrite Hadd.
  - rewrite delete_id by done. by destruct ks.
Qed.

(** The operations on a store and its file, with writes that keep the file when
    they fail. *)
Inductive keystore_step : Keystore * File → Keystore * File → Prop :=
  | step_add w file ks kp r ks' file' :
      is_signing_key (signing_key kp) → keeps_file w file →
      keystore_add_key w file ks kp = (r, ks', file') → keystore_step (ks, file) (ks', file')
  | step_remove w file ks a r ks' file' :
      keeps_file w file →
      keystore_remove_key w file ks a = (r, ks', file') → keystore_step (ks, file) (ks', file').

(** The keys in memory are those that the file has. *)
Definition in_sync (x : Keystore * File) : Prop :=
  ∃ inner, fst x = FileBased inner ∧ wf_keystore inner ∧ load (snd x) = Ok inner.

Lemma saved_in_sync inner :
  wf_keystore inner → in_sync (FileBased inner, Content (keystore_serialize inner)).
Proof. intros Hwf. exists inner. split_and!; [done..|]. by apply keystore_round_trip. Qed.
Lemma add_in_sync w file inner kp r ks' file' :
  in_sync (FileBased inner, file) → is_signing_key (signing_key kp) → keeps_file w file →
  keystore_add_key w file (FileBased inner) kp = (r, ks', file') → in_sync (ks', file').
Proof.
  intros (? & [= <-] & Hwf & Hload) Hkp Hw. simpl.
  destruct (file_based_add_key w file inner kp) as [[r1 inner1] file1] eqn:Hadd. intros. simplify_eq.
  destruct (file_add_spec _ _ _ _ _ _ _ Hwf Hkp Hw Hadd) as [(_ & Ha & ->)|(_ & -> & ->)].
  - apply saved_in_sync. by eapply add_key_wf.
  - by exists inner.
Qed.
Lemma remove_in_sync w file inner a r ks' file' :
  in_sync (FileBased inner, file) → keeps_file w file →
  keystore_remove_key w file (FileBased inner) a = (r, ks', file') → in_sync (ks', file').
Proof.
  intros (? & [= <-] & Hwf & Hload) Hw. simpl.
  destruct (file_based_remove_key w inner a) as [[r1 inner1] file1] eqn:Hrm. intros. simplify_eq.
  destruct (file_remove_spec _ _ _ _ _ _ _ Hwf Hw Hrm) as [(_ & Hk & ->)|(_ & -> & ->)].
  - apply saved_in_sync. unfold wf_keystore. rewrite Hk. by apply map_Forall_delete.
  - by exists inner.
Qed.
Lemma steps_in_sync x y : rtc keystore_step x y → in_sync x → in_sync y.
Proof.
  induction 1 as [|x y z Hs _ IH]; [done|]. intros Hx. apply IH.
  destruct Hs; (pose proof Hx as (inner & Heq & _); simpl in Heq; subst);
    [by eapply add_in_sync|by eapply remove_in_sync].
Qed.

(** C18: whatever is added to and removed from a key store after it was loaded,
    and however many writes fail, the keys in memory are those that loading the
    file again gives, each under its own address; adding and removing a key
    either do that, or fail and change nothing.  This needs that a write that
    fails leaves the file as it was: one that fails after it has emptied the
    file leaves the keys in memory, but a file that does not load. *)
Theorem keystore_in_sync file0 ks0 ks file :
  keystore_file_based file0 = Ok ks0 → rtc keystore_step (ks0, file0) (ks, file) →
  keystore_file_based file = Ok ks ∧
  (∀ a kp, keystore_get_key ks a = Some kp → keypair_address kp = a) ∧
  (∀ w kp r ks' file', is_signing_key (signing_key kp) → keeps_file w file →
    keystore_add_key w file ks kp = (r, ks', file') →
    if is_ok r then keystore_get_key ks (keypair_address kp) = None ∧
                    keystore_get_key ks' (keypair_address kp) = Some kp
    else ks' = ks ∧ file' = file) ∧
  (∀ w a r ks' file', keeps_file w file →
    keystore_remove_key w file ks a = (r, ks', file') →
    if is_ok r then r = Ok (keystore_get_key ks a) ∧ keystore_get_key ks' a = None
    else ks' = ks ∧ file' = file) ∧
  (∀ kp, keystore_get_key ks (keypair_address kp) = None →
    keystore_add_key (WriteFails (Content "")) file ks kp = (Err KeystoreError.IoError, ks, Content "") ∧
    keystore_file_based (Content "") = Err KeystoreError.SerdeJsonError).
Proof.
  intros (inner0 & Hload0 & Heq)%bind_Ok Hsteps. simplify_eq.
  assert (Hsync : in_sync (ks, file)).
  { eapply steps_in_sync; [done|]. exists inner0. split_and!; [done| |done]. by eapply load_wf. }
  destruct Hsync as (inner & Hks & Hwf & Hload). simpl in *. subst ks. unfold keystore_file_based.
  rewrite Hload. simpl. split_and!; [done| | | |].
  - intros a kp Ha. by apply (Hwf a kp).
  - intros w kp r ks' file' Hkp Hw Hadd.
    destruct (file_based_add_key w file inner kp) as [[r1 inner1] file1] eqn:Hf. simplify_eq.
    destruct (file_add_spec _ _ _ _ _ _ _ Hwf Hkp Hw Hf) as [(-> & [Hn ->]%add_key_Ok & _)|(-> & -> & ->)];
      [|done]. simpl. split; [done|]. unfold keystore_get_key, in_memory_get_key. simpl.
    apply lookup_insert_eq.
  - intros w a r ks' file' Hw Hrm.
    destruct (file_based_remove_key w inner a) as [[r1 inner1] file1] eqn:Hf. simplify_eq.
    destruct (file_remove_spec _ _ _ _ _ _ _ Hwf Hw Hf) as [(-> & Hk & _)|(-> & -> & ->)]; [|done].
    simpl. split; [done|]. unfold keystore_get_key, in_memory_get_key. simpl. rewrite Hk. apply lookup_delete_eq.
  - intros kp Hn. unfold keystore_deserialize. rewrite json_strings_empty. split; [|done].
    unfold file_based_add_key.
    replace (in_memory_add_key inner kp) with
      (@Ok KeystoreError.t _ (mkInMemory (<[keypair_address kp := kp]> (keys inner))))
      by (symmetry; by apply add_key_Ok).
    simpl. rewrite delete_insert_id by done. by destruct inner.
Qed.
End keystore.

(** ** Stand-ins for the crates, for the witnesses *)

(** A child number is its [u32], a path the list of them. *)
Fixpoint toy_path_tail (fuel : nat) (s : string) : option (list Z) :=
  match fuel, s with
  | _, EmptyString => Some []
  | 0, _ => None
  | S fuel, _ =>
      r ← Text.strip_prefix "/" s;
      let '(ds, r) := span is_digit r in
      i ← parse_u64 ds;
      match Text.strip_prefix "'" r with
      | Some r => l ← toy_path_tail fuel r; Some ((i + 2 ^ 31)%Z :: l)
      | None => l ← toy_path_tail fuel r; Some (i :: l)
      end
  end.
Global Instance toy_bip32 : Bip32 := {|
  ChildNumber := Z;
  child_new i hardened :=
    if (0 <=? i)%Z && (i <? 2 ^ 31)%Z then Some (i + (if hardened then 2 ^ 31 else 0))%Z else None;
  is_hardened c := (2 ^ 31 <=? c)%Z;
  child_to_u32 c := c;
  DerivationPath := list Z;
  path_components p := p;
  path_parse s := r ← Text.strip_prefix "m" s; toy_path_tail (String.length r) r;
|}.

Lemma pretty_Z_digits i : (0 ≤ i)%Z → in_u64 i → all_chars is_digit (pretty i) = true ∧ parse_u64 (pretty i) = Some i.
Proof.
  intros Hi Hu. replace (pretty i) with (pretty (Z.to_N i)) by (by destruct i).
  split; [|by apply parse_u64_pretty]. unfold pretty, pretty_N.
  case_decide; [done|]. by apply pretty_go_digits.
Qed.
Lemma path_tail_head l : match path_tail l with String c _ => is_digit c = false | _ => True end.
Proof. by destruct l as [|[i h] l]. Qed.
Lemma toy_path_tail_step fuel ds r : all_chars is_digit ds = true →
  match r with String c _ => is_digit c = false | _ => True end →
  toy_path_tail (S fuel) (String "/" (ds +:+ r)) =
    i ← parse_u64 ds;
    match Text.strip_prefix "'" r with
    | Some r => l ← toy_path_tail fuel r; Some ((i + 2 ^ 31)%Z :: l)
    | None => l ← toy_path_tail fuel r; Some (i :: l)
    end.
Proof. intros Hds Hr. simpl. by rewrite span_app. Qed.
Lemma toy_path_tail_text l fuel : Forall child_in_range l → length l ≤ fuel →
  toy_path_tail fuel (path_tail l) = Some ((λ x : Z * bool, fst x + (if snd x then 2 ^ 31 else 0))%Z <$> l).
Proof.
  revert fuel. induction l as [|[i h] l IH]; intros fuel Hl Hf; [by destruct fuel|].
  destruct fuel as [|fuel]; simpl in Hf; [lia|]. inversion Hl as [|? ? Hi Hl']; subst. unfold child_in_range in Hi; simpl in Hi.
  destruct (pretty_Z_digits i) as [Hds Hp]; [lia|unfold in_u64, u64_max; lia|].
  change (path_tail ((i, h) :: l)) with (String "/" (pretty i +:+ (if h then "'" else "") +:+ path_tail l)).
  pose proof (path_tail_head l) as Hh. rewrite toy_path_tail_step, Hp by (done || by destruct h).
  destruct h; cbn [mbind option_bind].
  - change (Text.strip_prefix "'" ("'" +:+ path_tail l)) with (Some (path_tail l)). cbv iota beta.
    by rewrite IH by (done || lia).
  - assert (Hq : Text.strip_prefix "'" (path_tail l) = None) by (by destruct l as [|[? ?] l']).
    change ("" +:+ path_tail l) with (path_tail l).
    rewrite Hq, IH by (done || lia). cbn. by rewrite Z.add_0_r.
Qed.
Lemma path_tail_length l : length l ≤ String.length (path_tail l).
Proof.
  induction l as [|[i h] l IH]; [done|]. cbn [path_tail]. simpl.
  assert (Happ : ∀ a b, String.length (a +:+ b) = String.length a + String.length b).
  { intros a b. induction a as [|c a IHa]; [done|]. simpl. by rewrite IHa. }
  rewrite !Happ. lia.
Qed.
Global Instance toy_bip32_laws : Bip32Laws.
Proof.
  split.
  - intros i h [Hi1 Hi2]. simpl in *. exists (i + (if h then 2 ^ 31 else 0))%Z.
    rewrite (proj2 (Z.leb_le 0 i)), (proj2 (Z.ltb_lt i _)) by done. split_and!; [done| |done].
    destruct h; [apply Z.leb_le|apply Z.leb_gt]; lia.
  - done.
  - intros l Hl. exists ((λ x : Z * bool, fst x + (if snd x then 2 ^ 31 else 0))%Z <$> l). split.
    + simpl. unfold path_text. simpl. by apply toy_path_tail_text, path_tail_length.
    + simpl. apply list.Forall2_fmap_r, list.Forall_Forall2_diag.
      eapply list.Forall_impl; [exact Hl|]. intros [i h] [Hi1 Hi2]. simpl in *.
      by rewrite (proj2 (Z.leb_le 0 i)), (proj2 (Z.ltb_lt i _)).
Qed.

(** Hexadecimal digits in the place of base 64; a list of texts with a mark
    before each text and each character. *)
Fixpoint toy_chars (s rest : string) : string :=
  match s with EmptyString => rest | String c s => String "c" (String c (toy_chars s rest)) end.
Fixpoint toy_strings (l : list string) : string :=
  match l with [] => "]" | s :: l => String "s" (toy_chars s (toy_strings l)) end.
Fixpoint toy_unstrings (s : string) : option (string * list string) :=
  match s with
  | String "]" EmptyString => Some ("", [])
  | String "s" s => '(cur, l) ← toy_unstrings s; Some ("", cur :: l)
  | String "c" (String c s) => '(cur, l) ← toy_unstrings s; Some (String c cur, l)
  | _ => None
  end.
Global Instance toy_keylib : KeyLib := {|
  base64_encode := digits;
  base64_decode := undigits;
  hex_encode_plain := digits;
  Mnemonic := string;
  Entropy := string;
  mnemonic_new words entropy := entropy;
  mnemonic_phrase m := m;
  mnemonic_from_phrase := Some;
  mnemonic_error s := s;
  seed_new m password := (λ c, Z.of_nat (code c)) <$> String.list_ascii_of_string m;
  derive_ed25519_private_key seed path := replicate 32 (foldr Z.add 0 (seed ++ path) `mod` 256)%Z;
  signing_key_new entropy := replicate 32 (Z.of_nat (String.length entropy) `mod` 256)%Z;
  signing_key_try_from bs := if bool_decide (length bs = 32) then Some bs else None;
  json_strings := toy_strings;
  json_strings_decode s := '(cur, l) ← toy_unstrings s; if String.eqb cur "" then Some l else None;
|}.
Lemma toy_unstrings_chars s rest cur l :
  toy_unstrings rest = Some (cur, l) → toy_unstrings (toy_chars s rest) = Some (s +:+ cur, l).
Proof. intros Hr. induction s as [|c s IH]; [done|]. simpl. by rewrite IH. Qed.
Lemma toy_unstrings_strings l : toy_unstrings (toy_strings l) = Some ("", l).
Proof.
  induction l as [|s l IH]; [done|]. simpl. rewrite (toy_unstrings_chars _ _ _ _ IH). simpl. by rewrite append_nil.
Qed.
Global Instance toy_keylib_laws : KeyLaws.
Proof.
  split.
  - apply undigits_digits.
  - intros s bs. by apply (undigits_bytes (String.length s)).
  - done.
  - intros seed path. split; [apply length_replicate|]. apply list.Forall_replicate. by apply Z.mod_pos_bound.
  - done.
  - intros l. simpl. by rewrite toy_unstrings_strings.
  - done.
Qed.

Definition toy_entropy : Entropy := "meow".
Lemma keypair_recovered_witness :
  ∃ kp phrase, keypair_generate Ed25519 None (Some Words12) toy_entropy = Ok (kp, phrase) ∧
    keypair_from_phrase phrase Ed25519 None = Ok kp ∧ decode_base64 (encode_base64 kp) = Ok kp.
Proof.
  destruct (keypair_recovered Ed25519 (Some Words12) toy_entropy) as ((kp & phrase & Hg) & Hr & _).
  exists kp, phrase. split; [exact Hg|]. exact (Hr _ _ _ Hg).
Defined.

(** A key is added to a store without a file. *)
Definition key7 : KeyPair := mkKeyPair (replicate 32 7%Z).
Lemma keystore_in_sync_witness :
  keystore_file_based Missing = Ok (FileBased in_memory_default) ∧
  ∀ a kp, keystore_get_key (FileBased (mkInMemory {[keypair_address key7 := key7]})) a = Some kp →
    keypair_address kp = a.
Proof.
  split; [reflexivity|].
  destruct (keystore_in_sync Missing (FileBased in_memory_default)
    (FileBased (mkInMemory {[keypair_address key7 := key7]}))
    (Content (keystore_serialize (mkInMemory {[keypair_address key7 := key7]})))) as (_ & Hk & _);
    [reflexivity| |exact Hk].
  apply rtc_once. apply (step_add WriteOk Missing _ key7 (Ok ())).
  - split; [reflexivity|]. by apply list.Forall_replicate.
  - by intros ?.
  - reflexivity.
Defined.
