(* ===== verification/Cli.v ===== *)
(** * The command line

    Models [meow/src]: call arguments, the commands of the [meow] binary and what
    they print; and how [meow-node] sets a node up from its options.  A command is a computation on the state of the node behind the
    client ([Cli]).  Files are arguments, as is what the node answers to the
    closures that fetch objects in a search ([view]).  The texts of [Debug], [bcs]
    on what is printed and the environment are the class [CliLib]. *)

From S2P Require Import Prelude Text Address VmTypes Gas Vm Ast Chumsky TypeChecker Compiler.
From S2P Require Import ChainTypes Convert Framework Context Resolvers InputsResolver Builder FrameworkModules.
From S2P Require Import Execute Genesis Validator Store Chain Miner Http NodeClient GossipNetwork Node Keys.

(** ** Outputs ([outputs/]) *)
Section outputs.
Context `{PrefixHex, Crypto, Bcs, Bip32, KeyLib}.

(** [Display] of digests, versions, owners and types of objects. *)
Definition digest_text (d : Digest) : string := bs58_encode (digest_bytes d).
Definition version_to_string (v : ObjectVersion) : string := pretty (version_u64 v).
Definition owner_to_string (o : ObjectOwner) : string :=
  match o with OwnerAddress a => address_to_string a | Immutable => "immutable" end.
Definition decl_ref_to_string (r : ObjectDeclRef) : string :=
  address_to_string (decl_module r) +:+ "::" +:+ identifier_str (decl_name r).
Definition object_type_to_string (t : ObjectType) : string :=
  match t with TypeModule => "module" | TypeObject r => decl_ref_to_string r end.

(** [ObjectOutput::new]. *)
Record ObjectOutput := mkObjectOutput {
  oo_address : string;
  oo_owner : string;
  oo_type : string;
  oo_version : string;
  oo_digest : string;
  oo_content : option (gmap string string);
}.
Definition object_output (obj : Object) (with_object_content : bool) : ObjectOutput :=
  mkObjectOutput (address_to_string (obj_address obj)) (owner_to_string (obj_owner obj))
    (object_type_to_string (obj_type obj)) (version_to_string (obj_version obj))
    (digest_text (object_digest obj))
    (if with_object_content then extract_human_readable_content obj else None).

(** [TransactionResultOutput::new]. *)
Record TransactionResultOutput := mkResultOutput {
  ro_digest : string;
  ro_status : string;
  ro_gas_used : string;
  ro_created : list ObjectOutput;
  ro_changed : list ObjectOutput;
  ro_destroyed : list ObjectOutput;
}.
Definition transaction_result_output (r : ExecutionResult) (with_object_content : bool)
  : TransactionResultOutput :=
  let status := match res_status r with Success => "success" | Failure msg => "failure: " +:+ msg end in
  mkResultOutput (digest_text (res_transaction_digest r)) status (pretty (res_gas_used r))
    ((λ o, object_output o with_object_content) <$> res_created r)
    ((λ o, object_output o with_object_content) <$> res_changed r)
    ((λ o, object_output o with_object_content) <$> res_destroyed r).

(** [TransactionOutput] and its parts. *)
Record ObjectRefOutput := mkRefOutput { rf_address : string; rf_version : string; rf_digest : string }.
Definition object_ref_output (r : ObjectRef) : ObjectRefOutput :=
  mkRefOutput (address_to_string (ref_address r)) (version_to_string (ref_version r))
    (digest_text (ref_digest r)).
Definition bytes_to_string (bytes : list Z) : string := base64_encode bytes.
Inductive CallArgumentOutput :=
  | ArgObject (object_ref : ObjectRefOutput)
  | ArgRaw (bytes : string).
Definition call_argument_output (i : Input) : CallArgumentOutput :=
  match i with
  | InputObject r => ArgObject (object_ref_output r)
  | InputRaw bytes => ArgRaw (bytes_to_string bytes)
  end.
Record CallOutput := mkCallOutput {
  co_module : string;
  co_function : string;
  co_arguments : list CallArgumentOutput;
}.
Definition call_output (c : ChainTypes.Call) : CallOutput :=
  mkCallOutput (address_to_string (call_module c)) (identifier_str (call_function c))
    (call_argument_output <$> call_arguments c).
Inductive TransactionTypeOutput :=
  | TypeCall (c : CallOutput)
  | TypePublish (bytes : string) (byte_size : nat).
Definition transaction_type_output (t : TransactionType) : TransactionTypeOutput :=
  match t with
  | MeowCall c => TypeCall (call_output c)
  | MeowModulePublish bytes => TypePublish (bytes_to_string bytes) (length bytes)
  end.
Record TransactionOutput := mkTransactionOutput {
  to_digest : string;
  to_sender : string;
  to_gas_coin : ObjectRefOutput;
  to_signature : string;
  to_type : TransactionTypeOutput;
}.
Definition transaction_output (s : SignedTransaction) : TransactionOutput :=
  let t := signed_transaction s in
  mkTransactionOutput (digest_text (tx_digest t)) (address_to_string (tx_sender t))
    (object_ref_output (tx_gas_coin t)) (signature_to_string (signed_signature s))
    (transaction_type_output (tx_type t)).

(** [BlockOutput], [BlockSnapshotOutput], [GenesisOutput]. *)
Record BlockHeaderOutput := mkHeaderOutput {
  ho_height : string;
  ho_parent_hash : string;
  ho_transactions_root : string;
  ho_reward_root : option string;
  ho_state_root : string;
  ho_timestamp : string;
  ho_nonce : string;
}.
Definition block_header_output (h : BlockHeader) : BlockHeaderOutput :=
  mkHeaderOutput (pretty (height h)) (digest_text (parent_hash h)) (digest_text (transactions_root h))
    (digest_text <$> reward_root h) (digest_text (state_root h)) (pretty (timestamp h))
    (pretty (nonce h)).
Record BlockOutput := mkBlockOutput {
  bo_hash : string;
  bo_header : BlockHeaderOutput;
  bo_transactions : list TransactionOutput;
  bo_results : list TransactionResultOutput;
  bo_reward_transaction : option TransactionOutput;
  bo_reward_transaction_result : option TransactionResultOutput;
}.
Definition block_output (b : Block) (with_object_content : bool) : BlockOutput :=
  mkBlockOutput (digest_text (block_hash b)) (block_header_output (block_header b))
    (transaction_output <$> transactions b)
    ((λ r, transaction_result_output r with_object_content) <$> results b)
    (transaction_output <$> reward_transaction b)
    ((λ r, transaction_result_output r with_object_content) <$> reward_transaction_result b).
Record BlockSnapshotOutput := mkSnapshotOutput {
  so_head : BlockOutput;
  so_objects : list ObjectOutput;
}.
Definition block_snapshot_output (s : StateSnapshot) (with_object_content : bool) : BlockSnapshotOutput :=
  mkSnapshotOutput (block_output (snap_head s) with_object_content)
    ((λ o, object_output o with_object_content) <$> snap_objects s).
Definition genesis_output (g : Genesis) (with_object_content : bool) : list ObjectOutput :=
  (λ o, object_output o with_object_content) <$> genesis_objects g.

(** [KeyOutput]. *)
Record KeyOutput := mkKeyOutput { ko_address : string; ko_public_key : string; ko_scheme : string }.
Definition key_output (keypair : KeyPair) : KeyOutput :=
  let public_key := keypair_public keypair in
  mkKeyOutput (address_to_string (keypair_address keypair)) (public_encode_base64 public_key)
    (scheme_to_string (public_scheme public_key)).

(** [RunResultOutput]. *)
Record RunResultOutput := mkRunOutput {
  out_return_value : option string;
  out_transfers : list (string * string);
  out_destroyed : list string;
  out_gas_spent : Z;
}.
Definition run_result_output (r : RunResult) : RunResultOutput :=
  mkRunOutput (value_to_string <$> rr_return_value r)
    ((λ p, (value_to_string (fst p), address_to_string (snd p))) <$> rr_transfers r)
    (address_to_string <$> rr_destroyed r) (rr_gas_spent r).
End outputs.

(** ** Errors, encoders and the computations of commands *)
Module ConfigError.
Inductive t := CannotObtainHomeDirectoryPath | IoError.
End ConfigError.

Module CliError.
(** What ends up in an [anyhow::Error]. *)
Inductive t `{Bip32} :=
  | Message (text : string)
  | ClientError (e : NodeClientError.t)
  | BuilderError (e : BuilderError.t)
  | ValidationFailed (e : ValidationError.t)
  | KeystoreFailed (e : KeystoreError.t)
  | KeyPairFailed (e : KeyPairError.t)
  | ConversionFailed (e : ObjectConversionError.t)
  | ExecutorFailed (e : ExecutorError.t)
  | RunFailed (e : VmError.t)
  | GenesisFailed (e : GenesisError.t)
  | AddressFailed (e : AddressError.t)
  | Base64DecodeError
  | BcsError
  | ParseIntError
  | ConfigFailed (e : ConfigError.t)
  | IoError.
End CliError.

Inductive OutputEncoder := Base64 | Debug | Pretty.

(** What an encoder is applied to. *)
Inductive Encodable :=
  | ETransaction (t : Transaction)
  | ESigned (s : SignedTransaction)
  | EModule (m : VmModule).

Class CliLib := {
  (** [bcs] on transactions and genesis states. *)
  bcs_transaction : Transaction → list Z;
  bcs_transaction_decode : list Z → option Transaction;
  bcs_genesis : Genesis → list Z;
  bcs_genesis_decode : list Z → option Genesis;
  (** The derived [Debug], and its alternate form; [Debug] of a path. *)
  debug_text : Encodable → string;
  debug_path : string → string;
  pretty_text : Encodable → string;
  (** The order in which a [HashMap] of modules is walked. *)
  deps_iter : gmap Address VmModule → list (Address * VmModule);
  (** The environment: a variable, the home directory, and directories. *)
  env_config_dir : option string;
  home_dir : option string;
  path_join : string → string → string;
  path_exists : string → bool;
  create_dir_all : string → bool;
}.
(** Documented behaviour: [bcs] reads what it writes, and writes bytes. *)
Class CliLaws `{CliLib, WireLib} := {
  bcs_transaction_roundtrip t : bcs_transaction_decode (bcs_transaction t) = Some t;
  bcs_transaction_bytes t : Forall is_byte (bcs_transaction t);
  bcs_signed_roundtrip s : bcs_signed_decode (bcs_signed s) = Some s;
  bcs_signed_bytes s : Forall is_byte (bcs_signed s);
  bcs_genesis_roundtrip g : bcs_genesis_decode (bcs_genesis g) = Some g;
}.

Section monad.
Context `{Bip32} {St : Type}.
Definition Cli (A : Type) : Type := St → outcome CliError.t A * St.
Global Instance cli_ret : MRet Cli := λ A a s, (Ok a, s).
Global Instance cli_bind : MBind Cli := λ A B f m s,
  match m s with
  | (Ok a, s) => f a s
  | (Err e, s) => (Err e, s)
  | (Panic msg, s) => (Panic msg, s)
  | (NoFuel, s) => (NoFuel, s)
  end.
Definition lift {E A} (f : E → CliError.t) (r : outcome E A) : Cli A := λ s, (map_err f r, s).
Fixpoint for_all {A B} (f : A → Cli B) (l : list A) : Cli (list B) :=
  match l with
  | [] => mret []
  | a :: l => b ← f a; bs ← for_all f l; mret (b :: bs)
  end.
End monad.
Arguments Cli {_} St A.

(** ** Where the key store is ([config/mod.rs] of [meow-types]) *)
Definition MEOW_DIR : string := ".meow".
Definition MEOW_KEYSTORE_FILE : string := "keystore.json".
Definition meow_config_dir `{CliLib} : outcome ConfigError.t string :=
  dir ← match env_config_dir with
        | Some dir => Ok dir
        | None =>
            match home_dir with
            | Some v => Ok (path_join v MEOW_DIR)
            | None => Err ConfigError.CannotObtainHomeDirectoryPath
            end
        end;
  guard_err (negb (path_exists dir) && negb (create_dir_all dir)) ConfigError.IoError ;;
  Ok dir.
Definition meow_keystore_path `{CliLib} : outcome ConfigError.t string :=
  (λ dir, path_join dir MEOW_KEYSTORE_FILE) <$> meow_config_dir.

(** ** Call arguments ([call_arg.rs]) *)
Inductive CallArg :=
  | ArgBool (b : bool)
  | ArgU64 (n : Z)
  | ArgAddress (a : Address)
  | ArgObjectAt (a : Address)
  | ArgStr (s : string).

(** [impl FromStr for CallArg]. *)
Definition starts_with (p s : string) : bool := is_some (Text.strip_prefix p s).
Definition call_arg_from_str `{PrefixHex, Bip32} (s : string) : outcome CliError.t CallArg :=
  if String.eqb s "true" then Ok (ArgBool true)
  else if String.eqb s "false" then Ok (ArgBool false)
  else if negb (String.eqb s "") && all_chars is_digit s then
    ArgU64 <$> ok_or (parse_u64 s) CliError.ParseIntError
  else match Text.strip_prefix "@" s with
  | Some hex => ArgAddress <$> map_err CliError.AddressFailed (address_from_str hex)
  | None =>
      if starts_with "0x" s || starts_with "0X" s then
        ArgObjectAt <$> map_err CliError.AddressFailed (address_from_str s)
      else Ok (ArgStr s)
  end.

Section commands.
Context `{PrefixHex, HashOrder, Chumsky, ModuleBytes, Crypto, Bcs, Rng, Base58, JsonLib, WireLib, UrlLib}.
Context `{Bip32, KeyLib, CliLib} {St : Type} (net : Network St) (client : NodeClient).
Notation Cmd := (Cli St).

(** A method of the client, and [get_object] of [call_arg.rs]. *)
Definition ask {A} (c : Call A) : Cmd A := λ s,
  let '(r, s) := perform net s c in (map_err CliError.ClientError r, s).
Definition found (what : string) (o : option Object) : Cmd Object :=
  lift CliError.Message (ok_or o what).
Definition get_live_object (addr : Address) : Cmd Object :=
  o ← ask (client_get_object client addr);
  found ("object not found on node: " +:+ address_to_string addr) o.

(** [CallArg::into_input], [CallArg::into_value]. *)
Definition into_input (arg : CallArg) : Cmd Input :=
  match arg with
  | ArgBool b => mret (InputRaw (bcs_bool b))
  | ArgU64 n => mret (InputRaw (bcs_u64 n))
  | ArgAddress a => mret (InputRaw (bcs_address a))
  | ArgStr s => mret (InputRaw (bcs_str s))
  | ArgObjectAt a => obj ← get_live_object a; mret (InputObject (object_ref obj))
  end.
Definition into_value (arg : CallArg) : Cmd Value.t :=
  match arg with
  | ArgBool b => mret (Value.Bool b)
  | ArgU64 n => mret (Value.U64 n)
  | ArgAddress a => mret (Value.Address a)
  | ArgObjectAt a =>
      obj ← get_live_object a;
      lift CliError.ConversionFailed (object_to_vm_object_value obj)
  | ArgStr s => mret (Value.Str s)
  end.

(** [OutputEncoder::encode]. *)
Definition encode (encoder : OutputEncoder) (output : Encodable) : string :=
  match encoder with
  | Base64 =>
      base64_encode
        match output with
        | ETransaction t => bcs_transaction t
        | ESigned s => bcs_signed s
        | EModule m => bcs_module m
        end
  | Debug => debug_text output
  | Pretty => pretty_text output
  end.

(** [builder.rs]: [view] is what the node answers for an address. *)
Definition build_module (file : SourceFile) (view : gmap Address Object)
  : outcome CliError.t (VmModule * gmap Address VmModule) :=
  source ← map_err CliError.BuilderError (read_source_file file);
  uses ← map_err CliError.BuilderError (extract_module_deps source);
  let dep_addresses := snd <$> uses in
  let deps := load_deps_async (omap (λ obj, bcs_module_decode (obj_content obj)) view) dep_addresses in
  module ← map_err CliError.BuilderError (build module_size source (deps_iter deps));
  Ok (module, deps).

(** ** [meow transaction] ([transaction/mod.rs], [transaction/signer.rs]) *)
Inductive TransactionCommand :=
  | TPublish (path : SourceFile) (sender gas_coin : Address)
  | TMeowCall (module : Address) (function : Identifier) (sender gas_coin : Address) (args : list CallArg)
  | TSign (keystore_path : option string) (transaction : string)
  | TSimulate (transaction : string)
  | TExecuteLocally (seed : Digest) (timestamp : option Z) (transaction : string).
Inductive TransactionCommandOutput :=
  | Encoded (transaction : string)
  | Simulate (r : TransactionResultOutput)
  | ExecuteLocally (r : TransactionResultOutput).

Definition gas_coin_ref (gas_coin : Address) : Cmd ObjectRef :=
  o ← ask (client_get_object client gas_coin);
  obj ← found ("gas coin " +:+ address_to_string gas_coin +:+ " not found") o;
  mret (object_ref obj).
Definition validated (t : Transaction) : Cmd () :=
  lift CliError.ValidationFailed (validate_transaction t).
Definition read_transaction (text : string) : Cmd Transaction :=
  bytes ← lift id (ok_or (base64_decode text) CliError.Base64DecodeError);
  lift id (ok_or (bcs_transaction_decode bytes) CliError.BcsError).

(** [signer::sign_transaction]. *)
Definition sign_transaction (t : Transaction) (ks : Keystore) : outcome CliError.t SignedTransaction :=
  keypair ← ok_or (keystore_get_key ks (tx_sender t))
    (CliError.Message ("A key has not been found in the keystore for " +:+ address_to_string (tx_sender t)));
  Ok (tx_sign t keypair).

(** [keystore_path.unwrap_or(config::meow_keystore_path()?)]: the default is
    computed first. *)
Definition keystore_path_or_default (keystore_path : option string) : outcome CliError.t string :=
  path ← map_err CliError.ConfigFailed meow_keystore_path;
  Ok (default path keystore_path).

(** [TransactionCommand::run]; [files] are the files that can be key stores, [now]
    is the clock. *)
Definition transaction_run (fuel : nat) (view : gmap Address Object) (files : string → File) (now : Z)
    (cmd : TransactionCommand) (encoder : OutputEncoder) (with_object_content : bool)
  : Cmd TransactionCommandOutput :=
  match cmd with
  | TPublish path sender gas_coin =>
      gas_coin_ref ← gas_coin_ref gas_coin;
      '(module, _) ← lift id (build_module path view);
      let module_bytes := bcs_module module in
      let transaction := mkTransaction sender gas_coin_ref (MeowModulePublish module_bytes) in
      _ ← validated transaction;
      mret (Encoded (encode encoder (ETransaction transaction)))
  | TMeowCall module function sender gas_coin args =>
      gas_coin_ref ← gas_coin_ref gas_coin;
      inputs ← for_all into_input args;
      let transaction :=
        mkTransaction sender gas_coin_ref (MeowCall (ChainTypes.mkCall module function inputs)) in
      _ ← validated transaction;
      mret (Encoded (encode encoder (ETransaction transaction)))
  | TSign keystore_path text =>
      keystore_path ← lift id (keystore_path_or_default keystore_path);
      ks ← lift CliError.KeystoreFailed (keystore_file_based (files keystore_path));
      transaction ← read_transaction text;
      _ ← validated transaction;
      signed ← lift id (sign_transaction transaction ks);
      mret (Encoded (encode encoder (ESigned signed)))
  | TSimulate text =>
      transaction ← read_transaction text;
      _ ← validated transaction;
      result ← ask (client_simulate_transaction client transaction);
      mret (Simulate (transaction_result_output result with_object_content))
  | TExecuteLocally seed timestamp text =>
      transaction ← read_transaction text;
      _ ← validated transaction;
      let timestamp := default now timestamp in
      let execution_context := mkContext seed timestamp in
      let inputs := collect_inputs_async transaction view in
      result ← lift CliError.ExecutorFailed (Execute.execute fuel transaction inputs execution_context);
      mret (ExecuteLocally (transaction_result_output result with_object_content))
  end.

(** ** [meow client] ([client/mod.rs]) *)
Inductive ClientCommand :=
  | CGetObject (address : Address)
  | CGetObjects (addresses : list Address)
  | CGetObjectsOwned (owner : Address)
  | CGetTransaction (digest : Digest)
  | CGetTransactionResult (digest : Digest)
  | CSubmitTransaction (transaction : string)
  | CGetBlock (digest : Digest)
  | CGetBlockSnapshot (digest : Digest)
  | CGetChainHead.
Inductive ClientCommandOutput :=
  | OGetObject (o : option ObjectOutput)
  | OGetObjects (os : list (option ObjectOutput))
  | OGetObjectsOwned (os : list ObjectOutput)
  | OGetTransaction (t : option TransactionOutput)
  | OGetTransactionResult (r : option TransactionResultOutput)
  | OSubmitTransaction (digest : string)
  | OGetBlock (b : option BlockOutput)
  | OGetBlockSnapshot (s : option BlockSnapshotOutput)
  | OGetChainHead (digest : string).

(** The constructors of [client/output.rs]. *)
Definition output_get_object (object : option Object) (with_object_content : bool) : ClientCommandOutput :=
  OGetObject ((λ o, object_output o with_object_content) <$> object).
Definition output_get_objects (objects : list (option Object)) (with_object_content : bool)
  : ClientCommandOutput :=
  OGetObjects ((λ o : option Object, (λ o, object_output o with_object_content) <$> o) <$> objects).
Definition output_get_objects_owned (objects : list Object) (with_object_content : bool)
  : ClientCommandOutput :=
  OGetObjectsOwned ((λ o, object_output o with_object_content) <$> objects).
Definition output_get_transaction (transaction : option SignedTransaction) : ClientCommandOutput :=
  OGetTransaction (transaction_output <$> transaction).
Definition output_get_transaction_result (result : option ExecutionResult) (with_object_content : bool)
  : ClientCommandOutput :=
  OGetTransactionResult ((λ r, transaction_result_output r with_object_content) <$> result).
Definition output_submit_transaction (digest : Digest) : ClientCommandOutput :=
  OSubmitTransaction (digest_text digest).
Definition output_get_block (block : option Block) (with_object_content : bool) : ClientCommandOutput :=
  OGetBlock ((λ b, block_output b with_object_content) <$> block).
Definition output_get_block_snapshot (snapshot : option StateSnapshot) (with_object_content : bool)
  : ClientCommandOutput :=
  OGetBlockSnapshot ((λ s, block_snapshot_output s with_object_content) <$> snapshot).
Definition output_get_chain_head (digest : Digest) : ClientCommandOutput :=
  OGetChainHead (digest_text digest).

(** [ClientCommand::run]. *)
Definition client_run (cmd : ClientCommand) (with_object_content : bool) : Cmd ClientCommandOutput :=
  match cmd with
  | CGetObject address =>
      object ← ask (client_get_object client address);
      mret (output_get_object object with_object_content)
  | CGetObjects addresses =>
      objects ← ask (client_get_objects client addresses);
      mret (output_get_objects objects with_object_content)
  | CGetObjectsOwned owner =>
      objects ← ask (client_get_objects_owned client owner);
      mret (output_get_objects_owned objects with_object_content)
  | CGetTransaction digest =>
      transaction ← ask (client_get_transaction client digest);
      mret (output_get_transaction transaction)
  | CGetTransactionResult digest =>
      result ← ask (client_get_transaction_result client digest);
      mret (output_get_transaction_result result with_object_content)
  | CSubmitTransaction text =>
      bytes ← lift id (ok_or (base64_decode text) CliError.Base64DecodeError);
      signed ← lift id (ok_or (bcs_signed_decode bytes) CliError.BcsError);
      _ ← lift CliError.ValidationFailed (validate_signed_transaction signed);
      let digest := tx_digest (signed_transaction signed) in
      _ ← ask (client_submit_transaction client signed);
      mret (output_submit_transaction digest)
  | CGetBlock digest =>
      block ← ask (client_get_block client digest);
      mret (output_get_block block with_object_content)
  | CGetBlockSnapshot digest =>
      snapshot ← ask (client_get_block_snapshot client digest);
      mret (output_get_block_snapshot snapshot with_object_content)
  | CGetChainHead =>
      digest ← ask (client_get_chain_head client);
      mret (output_get_chain_head digest)
  end.

(** ** [meow contract] ([contract/mod.rs]) *)
Inductive ContractCommand :=
  | KBuild (path : SourceFile) (encoder : OutputEncoder)
  | KRun (path : SourceFile) (function : Identifier) (args : list CallArg)
  | KRunPrivileged (path : SourceFile) (function : Identifier) (args : list CallArg).
Inductive ContractCommandOutput :=
  | OBuild (name content : string)
  | ORun (r : RunResultOutput).
Definition contract_run (fuel : nat) (view : gmap Address Object) (cmd : ContractCommand)
  : Cmd ContractCommandOutput :=
  match cmd with
  | KBuild path encoder =>
      '(module, _) ← lift id (build_module path view);
      mret (OBuild (mod_name module) (encode encoder (EModule module)))
  | KRun path function args =>
      '(module, deps) ← lift id (build_module path view);
      values ← for_all into_value args;
      result ← lift CliError.RunFailed
        (Execute.run fuel (address_ZERO, module) function values deps ExternalContext_default);
      mret (ORun (run_result_output result))
  | KRunPrivileged path function args =>
      '(module, deps) ← lift id (build_module path view);
      values ← for_all into_value args;
      result ← lift CliError.RunFailed
        (Execute.run_privileged fuel (address_ZERO, module) function values deps ExternalContext_default);
      mret (ORun (run_result_output result))
  end.
End commands.

(** ** [meow genesis] ([genesis/mod.rs]) *)

(** [str::lines]: lines end with a line feed, before which a carriage return is
    dropped; nothing after the last line feed is not a line. *)
Definition LF : ascii := ascii_of_nat 10.
Definition CR : ascii := ascii_of_nat 13.
Fixpoint drop_cr (s : string) : string :=
  match s with
  | EmptyString => EmptyString
  | String c EmptyString => if Ascii.eqb c CR then EmptyString else s
  | String c rest => String c (drop_cr rest)
  end.
Fixpoint split_lines (s : string) : list (string * bool) :=
  match s with
  | EmptyString => []
  | String c s =>
      if Ascii.eqb c LF then (EmptyString, true) :: split_lines s
      else match split_lines s with
           | [] => [(String c EmptyString, false)]
           | (l, ended) :: ls => (String c l, ended) :: ls
           end
  end.
Definition lines (s : string) : list string :=
  (λ l : string * bool, if snd l then drop_cr (fst l) else fst l) <$> split_lines s.
(** [str::trim], [str::split_once] at a character. *)
Fixpoint trim_end (s : string) : string :=
  match s with
  | EmptyString => EmptyString
  | String c s =>
      match trim_end s with
      | EmptyString => if is_ws c then EmptyString else String c EmptyString
      | t => String c t
      end
  end.
Definition trim (s : string) : string := trim_end (skip_ws s).
Fixpoint split_at (sep : ascii) (s : string) : option (string * string) :=
  match s with
  | EmptyString => None
  | String c s =>
      if Ascii.eqb c sep then Some (EmptyString, s)
      else '(a, b) ← split_at sep s; Some (String c a, b)
  end.

Section local_commands.
Context `{PrefixHex, HashOrder, Chumsky, ModuleBytes, Crypto, Bcs, Rng, Bip32, KeyLib, CliLib}.

Definition parse_allocation (line : string) : outcome CliError.t (Address * Z) :=
  match split_at "," line with
  | Some (address, amount) =>
      address ← map_err CliError.AddressFailed (address_from_str (trim address));
      amount ← ok_or (parse_u64 (trim amount)) CliError.ParseIntError;
      Ok (address, amount)
  | None => Err (CliError.Message ("invalid allocation line: " +:+ line))
  end.
Fixpoint parse_allocations (ls : list string) : outcome CliError.t (list (Address * Z)) :=
  match ls with
  | [] => Ok []
  | line :: ls =>
      allocation ← parse_allocation line;
      allocations ← parse_allocations ls;
      Ok (allocation :: allocations)
  end.

(** [GenesisCommand::run]: the file of allocations, and whether the output can be
    written; the result carries what is written. *)
Definition genesis_run (fuel : nat) (object_type_debug : ObjectType → string)
    (allocations : option string) (writable : bool) (with_object_content : bool)
  : outcome CliError.t (list Z * list ObjectOutput) :=
  text ← ok_or allocations CliError.IoError;
  allocations ← parse_allocations (lines text);
  genesis ← map_err CliError.GenesisFailed (genesis_build fuel object_type_debug allocations);
  let genesis_bytes := bcs_genesis genesis in
  guard_err (negb writable) CliError.IoError ;;
  Ok (genesis_bytes, genesis_output genesis with_object_content).

(** ** [meow keytool] ([keytool/mod.rs]) *)
Inductive KeyToolCommand :=
  | KGenerate (scheme : SignatureScheme) (derivation_path : option DerivationPath)
      (word_length : option MnemonicType)
  | KRecover (scheme : SignatureScheme) (phrase : string) (derivation_path : option DerivationPath)
  | KList
  | KRemove (address : Address).
Inductive KeyToolCommandOutput :=
  | OGenerate (key : KeyOutput) (phrase : string)
  | ORecover (key : KeyOutput)
  | OList (keys : list KeyOutput)
  | ORemove (key : option KeyOutput).

(** The result, the store and its file after a key was added. *)
Definition add_and_show (w : Write) (file : File) (ks : Keystore) (keypair : KeyPair)
    (output : KeyToolCommandOutput) : outcome CliError.t KeyToolCommandOutput * Keystore * File :=
  let '(r, ks, file) := keystore_add_key w file ks keypair in
  (_ ← map_err CliError.KeystoreFailed r; Ok output, ks, file).

(** [KeyToolCommand::run]; [entropy] is what the generator draws. *)
Definition keytool_run (entropy : Entropy) (w : Write) (file : File) (cmd : KeyToolCommand) (ks : Keystore)
  : outcome CliError.t KeyToolCommandOutput * Keystore * File :=
  match cmd with
  | KGenerate scheme derivation_path word_length =>
      match keypair_generate scheme derivation_path word_length entropy with
      | Ok (keypair, phrase) => add_and_show w file ks keypair (OGenerate (key_output keypair) phrase)
      | Err e => (Err (CliError.KeyPairFailed e), ks, file)
      | Panic msg => (Panic msg, ks, file)
      | NoFuel => (NoFuel, ks, file)
      end
  | KRecover scheme phrase derivation_path =>
      match keypair_from_phrase phrase scheme derivation_path with
      | Ok keypair => add_and_show w file ks keypair (ORecover (key_output keypair))
      | Err e => (Err (CliError.KeyPairFailed e), ks, file)
      | Panic msg => (Panic msg, ks, file)
      | NoFuel => (NoFuel, ks, file)
      end
  | KList => (Ok (OList ((λ p, key_output (snd p)) <$> keystore_iter ks)), ks, file)
  | KRemove address =>
      let '(r, ks, file) := keystore_remove_key w file ks address in
      (removed ← map_err CliError.KeystoreFailed r; Ok (ORemove (key_output <$> removed)), ks, file)
  end.

(** [Command::run] for [meow keytool]: the store is loaded first. *)
Definition keytool_command (entropy : Entropy) (w : Write) (files : string → File)
    (keystore_path : option string) (cmd : KeyToolCommand)
  : outcome CliError.t (outcome CliError.t KeyToolCommandOutput * File) :=
  path ← keystore_path_or_default keystore_path;
  ks ← map_err CliError.KeystoreFailed (keystore_file_based (files path));
  let '(r, _, file) := keytool_run entropy w (files path) cmd ks in
  Ok (r, file).
End local_commands.

(** ** [meow-node run] ([meow-node/src/commands.rs]) *)
Definition DEFAULT_NODE_URL : string := "127.0.0.1:8600".
Definition DEFAULT_DIFFICULTY : Z := 20.
Definition DEFAULT_BATCH_SIZE : Z := 1.
Definition DEFAULT_SNAPSHOT_DEPTH : Z := 64.
Record NodeConfig := mkNodeConfig {
  rpc_listen : string;
  gossip_network_config : GossipNetworkConfig;
}.

(** [Command::Run]; [run_genesis] is what reading the file gives. *)
Record RunOptions := mkRunOptions {
  run_rpc_listen : string;
  run_listen_address : Multiaddr;
  run_bootstrap_peers : list Multiaddr;
  run_mdns_query_interval : Z;
  run_check_explicit_peers_ticks : Z;
  run_genesis : option (list Z);
  run_difficulty : Z;
  run_miner_address : option Address;
  run_miner_reward_address : option Address;
  run_keystore_path : option string;
  run_batch_size : Z;
  run_snapshot_depth : Z;
}.
(** The ranges and the dependency that the option parser enforces. *)
Definition run_options_ok (o : RunOptions) : bool :=
  (1 <=? run_difficulty o)%Z && (run_difficulty o <=? 32)%Z &&
  (1 <=? run_batch_size o)%Z && (run_batch_size o <=? Z.of_nat MAX_TRANSACTIONS_PER_BLOCK)%Z &&
  (1 <=? run_snapshot_depth o)%Z && (run_snapshot_depth o <=? u64_max)%Z &&
  (is_some (run_miner_address o) || negb (is_some (run_keystore_path o))).

Section node_command.
Context `{PrefixHex, Crypto, Bip32, KeyLib, CliLib} (files : string → File) (entropy : Entropy).

(** [resolve_miner_keypair]. *)
Definition resolve_miner_keypair (keystore_path : option string) (miner_address : option Address)
  : outcome CliError.t KeyPair :=
  match miner_address with
  | Some address =>
      keystore_path ← keystore_path_or_default keystore_path;
      ks ← map_err CliError.KeystoreFailed (keystore_file_based (files keystore_path));
      keypair ← ok_or (keystore_get_key ks address)
        (CliError.Message ("address " +:+ address_to_string address +:+ " not found in keystore " +:+
                           debug_path keystore_path));
      map_err CliError.KeyPairFailed (keypair_from_bytes (keypair_to_bytes keypair))
  | None => Ok (keypair_random Ed25519 entropy)
  end.

(** [Command::run], up to the start of the services. *)
Definition node_command (o : RunOptions) : outcome CliError.t (NodeConfig * Miner) :=
  miner_keypair ← resolve_miner_keypair (run_keystore_path o) (run_miner_address o);
  let miner_reward_address := default (keypair_address miner_keypair) (run_miner_reward_address o) in
  let gossip_network_config :=
    gossip_config_new (run_listen_address o) (run_bootstrap_peers o) (run_mdns_query_interval o)
      (run_check_explicit_peers_ticks o) in
  let node_config := mkNodeConfig (run_rpc_listen o) gossip_network_config in
  let miner_config :=
    mkMinerConfig (run_difficulty o) miner_keypair miner_reward_address
      (Z.to_nat (run_batch_size o)) (run_snapshot_depth o) in
  genesis_bytes ← ok_or (run_genesis o) CliError.IoError;
  genesis ← ok_or (bcs_genesis_decode genesis_bytes) CliError.BcsError;
  Ok (node_config, node_with_genesis genesis miner_config).
End node_command.
