(* ===== verification/CliCorrect.v ===== *)
(** * The command line agrees with the node

    Call arguments are read as documented, apart from texts that look like an
    address; what is built, signed and submitted with the commands is what the
    node accepts; and a node starts from the file that the genesis command
    writes. *)

From S2P Require Import Prelude Text Address HexInstance VmTypes Ast Chumsky ChumskyInstance TypeChecker.
From S2P Require Import FrameworkModules.
From S2P Require Import ChainTypes Convert Framework Context Execute Genesis GenesisProps AdapterExamples GenesisCorrect.
From S2P Require Import CompilerExamples.
From S2P Require Import Validator Store Mempool Chain ChainProps Miner MinerProps NodeExamples.
From S2P Require Import LedgerCorrect Http Rpc NodeClient GossipNetwork Node RpcProps RpcCorrect Keys KeysCorrect Cli.

(** ** Call arguments *)
Section call_args.
Context `{PrefixHex, Bip32, !PrefixHexLaws}.

(** A text for an argument; the texts that are strings. *)
Definition call_arg_text (arg : CallArg) : string :=
  match arg with
  | ArgBool b => if b then "true" else "false"
  | ArgU64 n => pretty n
  | ArgAddress a => "@" +:+ address_to_string a
  | ArgObjectAt a => address_to_string a
  | ArgStr s => s
  end.
Definition is_number (s : string) : bool := negb (String.eqb s "") && all_chars is_digit s.
Definition is_free_text (s : string) : bool :=
  negb (String.eqb s "true" || String.eqb s "false" || is_number s || starts_with "@" s ||
        starts_with "0x" s || starts_with "0X" s).
Definition wf_call_arg (arg : CallArg) : Prop :=
  match arg with
  | ArgBool _ => True
  | ArgU64 n => in_u64 n
  | ArgAddress a | ArgObjectAt a => wf_address a
  | ArgStr s => is_free_text s = true
  end.

Lemma not_digits s t : all_chars is_digit s = true → all_chars is_digit t = false → String.eqb s t = false.
Proof. intros Hs Ht. apply String.eqb_neq. intros ->. congruence. Qed.
Lemma address_from_str_wf s a : address_from_str s = Ok a → wf_address a.
Proof.
  unfold address_from_str. intros (bytes & Hb%ok_or_Ok & Ha)%bind_Ok.
  apply hex_decode_bytes in Hb. unfold address_try_from in Ha.
  repeat case_bool_decide; simplify_eq; split; try done.
  apply list.Forall_app. split; [|done]. by apply list.Forall_replicate.
Qed.

Lemma strip_prefix_Some p text r : Text.strip_prefix p text = Some r → text = p +:+ r.
Proof.
  revert text. induction p as [|c p IH]; intros [|d text]; simpl; try (intros; by simplify_eq).
  destruct (Ascii.eqb_spec c d) as [->|]; [|done]. intros Hr. by rewrite (IH _ Hr).
Qed.
Lemma call_arg_round_trip arg : wf_call_arg arg → call_arg_from_str (call_arg_text arg) = Ok arg.
Proof.
  destruct arg as [b|n|a|a|s]; simpl; intros Hwf; unfold call_arg_from_str.
  - by destruct b.
  - destruct (pretty_Z_digits n) as [Hds Hp]; [apply Hwf|done|].
    assert (Hne : String.eqb (pretty n) "" = false) by (apply String.eqb_neq; intros He; by rewrite He in Hp).
    rewrite (not_digits _ "true"), (not_digits _ "false"), Hne, Hds by done. simpl. by rewrite Hp.
  - simpl. change ("" +:+ address_to_string a) with (address_to_string a). by rewrite address_from_to_string.
  - destruct Hwf as [Hlen Hb]. destruct (hex_encode_digits _ Hb) as (ds & Heq & _).
    pose proof (address_from_to_string a (conj Hlen Hb)) as Ha.
    unfold address_to_string in *. rewrite Heq in *. simpl in *. by rewrite Ha.
  - unfold is_free_text, is_number in Hwf. apply negb_true_iff in Hwf.
    rewrite !orb_false_iff in Hwf. destruct Hwf as (((((Ht & Hf) & Hn) & Hat) & Hx) & HX).
    rewrite Ht, Hf, Hn, Hx, HX. unfold starts_with in Hat. by destruct (Text.strip_prefix "@" s).
Qed.
Lemma call_arg_parsed text arg : call_arg_from_str text = Ok arg →
  wf_call_arg arg ∧ ∀ s, arg = ArgStr s → text = s.
Proof.
  unfold call_arg_from_str. destruct (String.eqb text "true") eqn:Ht; [intros; by simplify_eq|].
  destruct (String.eqb text "false") eqn:Hf; [intros; by simplify_eq|].
  fold (is_number text). destruct (is_number text) eqn:Hn.
  { intros (n & Hn' & ->)%fmap_Ok. apply ok_or_Ok in Hn'. by apply parse_u64_range in Hn'. }
  destruct (Text.strip_prefix "@" text) as [r|] eqn:Hat.
  { intros (a & Ha & ->)%fmap_Ok. apply map_err_Ok, address_from_str_wf in Ha. done. }
  destruct (starts_with "0x" text || starts_with "0X" text) eqn:Hx.
  { intros (a & Ha & ->)%fmap_Ok. apply map_err_Ok, address_from_str_wf in Ha. done. }
  intros. simplify_eq. simpl. split; [|intros; by simplify_eq]. unfold is_free_text.
  apply orb_false_iff in Hx as [Hx HX].
  rewrite Ht, Hf, Hn, Hx, HX. unfold starts_with. by rewrite Hat.
Qed.

(** A text that begins with the given characters, and a test it fails. *)
Lemma prefix_not (f : string → bool) p text r :
  (∀ r, f (p +:+ r) = false) → Text.strip_prefix p text = Some r → f text = false.
Proof. intros Hf Hp. by rewrite (strip_prefix_Some _ _ _ Hp). Qed.
Lemma call_arg_refused text :
  is_ok (call_arg_from_str text) = false ↔
    (is_number text = true ∧ parse_u64 text = None) ∨
    (∃ r, Text.strip_prefix "@" text = Some r ∧ is_ok (address_from_str r) = false) ∨
    ((starts_with "0x" text = true ∨ starts_with "0X" text = true) ∧
      is_ok (address_from_str text) = false).
Proof.
  unfold call_arg_from_str. fold (is_number text).
  destruct (String.eqb_spec text "true") as [->|Ht]; [naive_solver|].
  destruct (String.eqb_spec text "false") as [->|Hf]; [naive_solver|].
  assert (Hp : ∀ A B (r : outcome A B) (f : B → CallArg), is_ok (f <$> r) = is_ok r) by (by intros ? ? []).
  assert (Hm : ∀ A B C (f : A → B) (r : outcome A C), is_ok (map_err f r) = is_ok r) by (by intros ? ? ? ? []).
  destruct (is_number text) eqn:Hn.
  { rewrite Hp. destruct (parse_u64 text) eqn:Hu; cbn [ok_or is_ok]; [|split; [by left|done]]. split; [done|].
    intros [[_ ?]|[(r & Hr & _)|[[Hx|Hx] _]]]; [done|exfalso..].
    - by rewrite (prefix_not is_number "@" text r (λ _, eq_refl) Hr) in Hn.
    - unfold starts_with in Hx. destruct (Text.strip_prefix "0x" text) as [r|] eqn:Hr; [|done].
      by rewrite (prefix_not is_number "0x" text r (λ _, eq_refl) Hr) in Hn.
    - unfold starts_with in Hx. destruct (Text.strip_prefix "0X" text) as [r|] eqn:Hr; [|done].
      by rewrite (prefix_not is_number "0X" text r (λ _, eq_refl) Hr) in Hn. }
  destruct (Text.strip_prefix "@" text) as [r|] eqn:Hat.
  { rewrite Hp, Hm. split; [by eauto|]. intros [[? _]|[(r' & [= <-] & Hr)|[Hx _]]]; [done..|].
    exfalso. pose proof (strip_prefix_Some _ _ _ Hat) as ->. by destruct Hx as [Hx|Hx]. }
  destruct (starts_with "0x" text) eqn:Hx, (starts_with "0X" text) eqn:HX; simpl;
    rewrite ?Hp, ?Hm; naive_solver.
Qed.

(** C40: reading arguments from the command line.  Every argument that is read is
    well formed and is what its own text means; every number, address, object
    and boolean has a text.  A string is passed exactly if it is none of the
    other forms and does not begin like an address: texts that begin with an at
    sign or with [0x] and are no address, and numbers that do not fit, are
    errors, although the comment says that anything else is a string. *)
Theorem call_arg_exact :
  (∀ arg, wf_call_arg arg → call_arg_from_str (call_arg_text arg) = Ok arg) ∧
  (∀ text arg, call_arg_from_str text = Ok arg → wf_call_arg arg) ∧
  (∀ text s, call_arg_from_str text = Ok (ArgStr s) ↔ text = s ∧ is_free_text s = true) ∧
  (∀ text, is_ok (call_arg_from_str text) = false ↔
    (is_number text = true ∧ parse_u64 text = None) ∨
    (∃ r, Text.strip_prefix "@" text = Some r ∧ is_ok (address_from_str r) = false) ∨
    ((starts_with "0x" text = true ∨ starts_with "0X" text = true) ∧
      is_ok (address_from_str text) = false)).
Proof.
  split_and!.
  - apply call_arg_round_trip.
  - intros text arg Hp. exact (proj1 (call_arg_parsed _ _ Hp)).
  - intros text s. split.
    + intros Hp. destruct (call_arg_parsed _ _ Hp) as [Hwf Heq]. rewrite (Heq s eq_refl). by split.
    + intros [-> Hs]. by apply (call_arg_round_trip (ArgStr s)).
  - apply call_arg_refused.
Qed.
End call_args.

(** ** Sequences of steps *)
Section steps.
Context `{Bip32} {St A B : Type} (m : Cli St A) (f : A → Cli St B).
Lemma cli_bind_Ok s a s' : m s = (Ok a, s') → (m ≫= f) s = f a s'.
Proof. intros Hm. unfold mbind, cli_bind. by rewrite Hm. Qed.
Lemma cli_bind_Err s e s' : m s = (Err e, s') → (m ≫= f) s = (Err e, s').
Proof. intros Hm. unfold mbind, cli_bind. by rewrite Hm. Qed.
End steps.

(** ** From a call on the command line to the pool of the node *)
Section pipeline.
Context `{PrefixHex, HashOrder, Chumsky, ModuleBytes, Crypto, Executor, Bcs, Rng, Base58, JsonLib, WireLib, UrlLib}.
Context `{!ErrorTexts, Bip32, KeyLib, CliLib}.
Context `{!PrefixHexLaws, !CryptoLaws, !Base58Laws, !JsonLaws, !UrlLaws, !Bip32Laws, !KeyLaws, !CliLaws}.

(** What an argument stands for, on a store. *)
Definition arg_input (store : Store) (arg : CallArg) : option Input :=
  match arg with
  | ArgBool b => Some (InputRaw (bcs_bool b))
  | ArgU64 n => Some (InputRaw (bcs_u64 n))
  | ArgAddress a => Some (InputRaw (bcs_address a))
  | ArgStr s => Some (InputRaw (bcs_str s))
  | ArgObjectAt a => (λ o, InputObject (object_ref o)) <$> get_object store a
  end.

Context (c : NodeClient) (h : RpcHandler) (store : Store) (Hbase : url_path (base_url c) = "/").
Context (Hstore : ∀ E, head_store (E:=E) (chain (rpc_miner h)) = Ok store).

Lemma ask_object a : wf_address a → ask deliver (client_get_object c a) h = (Ok (get_object store a), h).
Proof. intros Ha. unfold ask. by rewrite get_object_round_trip with (store := store). Qed.
Lemma into_input_eq arg : wf_call_arg arg →
  match arg_input store arg with
  | Some i => into_input deliver c arg h = (Ok i, h)
  | None => ∃ msg, into_input deliver c arg h = (Err (CliError.Message msg), h)
  end.
Proof.
  destruct arg as [b|n|a|a|s]; simpl; try done. intros Ha. unfold get_live_object, mbind, cli_bind.
  rewrite ask_object by done. destruct (get_object store a); simpl; eauto.
Qed.
Lemma into_inputs_eq args : Forall wf_call_arg args →
  match mapM (arg_input store) args with
  | Some inputs => for_all (into_input deliver c) args h = (Ok inputs, h)
  | None => ∃ msg, for_all (into_input deliver c) args h = (Err (CliError.Message msg), h)
  end.
Proof.
  induction 1 as [|arg args Harg _ IH]; [done|]. cbn [mapM for_all].
  pose proof (into_input_eq arg Harg) as Hi. destruct (arg_input store arg) as [i|]; simpl.
  - rewrite (cli_bind_Ok _ _ _ _ _ Hi). destruct (mapM (arg_input store) args) as [inputs|]; simpl.
    + by rewrite (cli_bind_Ok _ _ _ _ _ IH).
    + destruct IH as (msg & IH). rewrite (cli_bind_Err _ _ _ _ _ IH). eauto.
  - destruct Hi as (msg & Hi). rewrite (cli_bind_Err _ _ _ _ _ Hi). eauto.
Qed.
Lemma validate_transaction_returns t : no_panic (validate_transaction t).
Proof.
  unfold validate_transaction. destruct (tx_type t).
  - do 3 (apply no_panic_bind; [apply no_panic_guard|intros ? _]). apply no_aliased_args_returns.
  - apply no_panic_bind; intros; apply no_panic_guard.
Qed.

(** The references of a transaction that was built from the store. *)
Lemma object_ref_current a o : wf_store store → get_object store a = Some o → ref_current store (object_ref o).
Proof.
  intros Hwf Ho. exists o. split_and!; [|done..]. simpl.
  unfold get_object in *. by rewrite (Hwf _ _ Ho).
Qed.
Lemma arg_inputs_current args inputs :
  wf_store store → mapM (arg_input store) args = Some inputs →
  Forall (ref_current store) (omap (λ arg, match arg with InputObject r => Some r | InputRaw _ => None end) inputs).
Proof.
  intros Hwf. rewrite mapM_Some. induction 1 as [|arg i args inputs Hi _ IH]; [constructor|].
  destruct arg as [b|n|a|a|s]; simpl in Hi; simplify_eq; try exact IH.
  destruct (get_object store a) as [o|] eqn:Ho; simpl in Hi; simplify_eq.
  simpl. constructor; [by eapply object_ref_current|exact IH].
Qed.

Context (fuel : nat) (view : gmap Address Object) (files : string → File) (now : Z) (contents : bool).
Notation run cmd := (transaction_run deliver c fuel view files now cmd Base64 contents h).

Lemma gas_coin_ref_eq a : wf_address a →
  match get_object store a with
  | Some o => gas_coin_ref deliver c a h = (Ok (object_ref o), h)
  | None => ∃ msg, gas_coin_ref deliver c a h = (Err (CliError.Message msg), h)
  end.
Proof.
  intros Ha. unfold gas_coin_ref. pose proof (ask_object a Ha) as Hask.
  destruct (get_object store a) as [o|]; rewrite (cli_bind_Ok _ _ _ _ _ Hask).
  - done.
  - eexists. unfold found. by erewrite cli_bind_Err.
Qed.

(** [meow transaction meow-call]. *)
Lemma meow_call_eq module function sender gas_coin args :
  wf_address gas_coin → Forall wf_call_arg args →
  match get_object store gas_coin, mapM (arg_input store) args with
  | Some coin, Some inputs =>
      let t := mkTransaction sender (object_ref coin) (MeowCall (ChainTypes.mkCall module function inputs)) in
      run (TMeowCall module function sender gas_coin args) =
        (_ ← map_err CliError.ValidationFailed (validate_transaction t);
         Ok (Encoded (base64_encode (bcs_transaction t))), h)
  | _, _ => ∃ msg, run (TMeowCall module function sender gas_coin args) = (Err (CliError.Message msg), h)
  end.
Proof.
  intros Hg Hargs. cbn [transaction_run]. pose proof (gas_coin_ref_eq gas_coin Hg) as Hcoin.
  pose proof (into_inputs_eq args Hargs) as Hin.
  destruct (get_object store gas_coin) as [coin|]; [rewrite (cli_bind_Ok _ _ _ _ _ Hcoin)|].
  - destruct (mapM (arg_input store) args) as [inputs|].
    + rewrite (cli_bind_Ok _ _ _ _ _ Hin). unfold validated, lift, mbind, cli_bind. cbv zeta beta.
      by destruct (validate_transaction _).
    + destruct Hin as (msg & Hin). rewrite (cli_bind_Err _ _ _ _ _ Hin). eauto.
  - destruct Hcoin as (msg & Hcoin). rewrite (cli_bind_Err _ _ _ _ _ Hcoin). eauto.
Qed.

(** [meow transaction sign]. *)
Lemma sign_eq path p ks t :
  keystore_path_or_default path = Ok p → keystore_file_based (files p) = Ok ks →
  validate_transaction t = Ok () →
  run (TSign path (base64_encode (bcs_transaction t))) =
    (signed ← sign_transaction t ks; Ok (Encoded (base64_encode (bcs_signed signed))), h).
Proof.
  intros Hpath Hks Hv. cbn [transaction_run].
  erewrite cli_bind_Ok by (unfold lift; by rewrite Hpath).
  erewrite cli_bind_Ok by (unfold lift; by rewrite Hks).
  assert (Hread : read_transaction (base64_encode (bcs_transaction t)) h = (Ok t, h)).
  { unfold read_transaction.
    erewrite cli_bind_Ok by (unfold lift; by rewrite base64_roundtrip by apply bcs_transaction_bytes).
    unfold lift. by rewrite bcs_transaction_roundtrip. }
  rewrite (cli_bind_Ok _ _ _ _ _ Hread).
  erewrite cli_bind_Ok by (unfold validated, lift; by rewrite Hv).
  unfold lift, mbind, cli_bind. by destruct (sign_transaction t ks).
Qed.

(** [meow client submit-transaction]. *)
Lemma submit_eq s m :
  validate_signed_transaction s = Ok () → (body_size (serialize s) ≤ MAX_REQUEST_BODY_BYTES)%Z →
  submit_transaction (rpc_miner h) s = Ok m →
  client_run deliver c (CSubmitTransaction (base64_encode (bcs_signed s))) contents h =
    (Ok (OSubmitTransaction (digest_text (tx_digest (signed_transaction s)))),
     mkHandler m (publish_transactions_tx h ++ [bcs_signed s])).
Proof.
  intros Hv Hsize Hm. cbn [client_run].
  erewrite cli_bind_Ok by (unfold lift; by rewrite base64_roundtrip by apply bcs_signed_bytes).
  erewrite cli_bind_Ok by (unfold lift; by rewrite bcs_signed_roundtrip).
  erewrite cli_bind_Ok by (unfold lift; by rewrite Hv).
  pose proof (submit_round_trip c Hbase h store Hstore s Hsize) as Hs. rewrite Hm in Hs.
  erewrite cli_bind_Ok by (unfold ask; by rewrite Hs). done.
Qed.
End pipeline.

Section claim.
Context `{PrefixHex, HashOrder, Chumsky, ModuleBytes, Crypto, Executor, Bcs, Rng, Base58, JsonLib, WireLib, UrlLib}.
Context `{!ErrorTexts, Bip32, KeyLib, CliLib}.
Context `{!PrefixHexLaws, !CryptoLaws, !Base58Laws, !JsonLaws, !UrlLaws, !Bip32Laws, !KeyLaws, !CliLaws}.

(** C10: a call that is built, signed and submitted with the commands reaches the
    pool.  Building fails exactly when the gas coin or an object argument is not
    on the node, or the transaction is not valid, and changes nothing on the
    node.  What it prints can be signed with every key store that has the key of
    the sender, and what signing prints is accepted by the node while its pool
    has room and does not know the transaction: it is appended to the pool,
    queued for gossip, and its digest is printed. *)
Theorem cli_call_submitted (u : Url) (h : RpcHandler) store fuel view files now contents
    module function sender gas_coin args :
  let c := with_url u in let cs := chain (rpc_miner h) in let pool := mempool (rpc_miner h) in
  let run cmd := transaction_run deliver c fuel view files now cmd Base64 contents h in
  url_path u = "/" → chain_core cs → snapshots cs !! head_hash cs = Some store →
  wf_address gas_coin → Forall wf_call_arg args →
  match get_object store gas_coin, mapM (arg_input store) args with
  | Some coin, Some inputs =>
      let t := mkTransaction sender (object_ref coin) (MeowCall (ChainTypes.mkCall module function inputs)) in
      match validate_transaction t with
      | Ok _ => ∃ text, run (TMeowCall module function sender gas_coin args) = (Ok (Encoded text), h) ∧
          ∀ path p ks, keystore_path_or_default path = Ok p → keystore_file_based (files p) = Ok ks →
            match keystore_get_key ks sender with
            | Some kp => ∃ signed, run (TSign path text) = (Ok (Encoded signed), h) ∧
                (tx_digest t ∉ seen pool → length (pending pool) < MAX_MEMPOOL_SIZE →
                 (body_size (serialize (tx_sign t kp)) ≤ MAX_REQUEST_BODY_BYTES)%Z →
                 ∃ m, client_run deliver c (CSubmitTransaction signed) contents h =
                     (Ok (OSubmitTransaction (digest_text (tx_digest t))),
                      mkHandler m (publish_transactions_tx h ++ [bcs_signed (tx_sign t kp)])) ∧
                   pending (mempool m) = pending pool ++ [tx_sign t kp] ∧ chain m = cs)
            | None => ∃ msg, run (TSign path text) = (Err (CliError.Message msg), h)
            end
      | Err e => run (TMeowCall module function sender gas_coin args) = (Err (CliError.ValidationFailed e), h)
      | _ => False
      end
  | _, _ => ∃ msg, run (TMeowCall module function sender gas_coin args) = (Err (CliError.Message msg), h)
  end.
Proof.
  intros c cs pool run Hu Hcore Hsnap Hg Hargs.
  assert (Hbase : url_path (base_url c) = "/").
  { unfold c, with_url, normalize_url. cbn [base_url]. by rewrite Hu. }
  assert (Hstore : ∀ E, head_store (E:=E) (chain (rpc_miner h)) = Ok store).
  { intros E. unfold head_store. fold cs. by rewrite Hsnap. }
  pose proof (wf_snapshots _ Hcore _ _ Hsnap) as Hwf.
  pose proof (meow_call_eq c h store Hbase Hstore fuel view files now contents module function sender
    gas_coin args Hg Hargs) as Hcall.
  destruct (get_object store gas_coin) as [coin|] eqn:Hcoin; [|exact Hcall].
  destruct (mapM (arg_input store) args) as [inputs|] eqn:Hin; [|exact Hcall].
  cbv zeta in *. set (t := mkTransaction sender _ _) in *.
  pose proof (validate_transaction_returns t) as Hret. fold run in Hcall.
  destruct (validate_transaction t) as [[]|e| |] eqn:Hv; [|exact Hcall|done..].
  eexists. split; [exact Hcall|]. intros path p ks Hpath Hks. unfold run.
  rewrite (sign_eq c h fuel view files now contents path p ks t Hpath Hks Hv). unfold sign_transaction.
  change (tx_sender t) with sender.
  destruct (keystore_get_key ks sender) as [kp|] eqn:Hkey; [|by eexists].
  eexists. split; [done|]. intros Hseen Hroom Hsize.
  apply bind_Ok in Hks as (inner & Hload & [= <-]).
  destruct (load_wf _ _ Hload _ _ Hkey) as [Haddr _].
  assert (Hsv : validate_signed_transaction (tx_sign t kp) = Ok ()) by by apply tx_sign_valid.
  assert (Hsub : submit pool (tx_sign t kp) store =
    Ok (mkMempool (pending pool ++ [tx_sign t kp]) ({[tx_digest t]} ∪ seen pool))).
  { apply submit_Ok. split_and!; try done. constructor; [by eapply object_ref_current|].
    by eapply arg_inputs_current. }
  eexists. split; [apply (submit_eq c h store Hbase Hstore); try done|].
  - unfold submit_transaction. rewrite Hstore. simpl. fold pool. by rewrite Hsub.
  - done.
Qed.
End claim.

(** ** From a file of allocations to a node *)
Section allocations.
Context `{PrefixHex, Bip32, !PrefixHexLaws}.

(** The file, one line per allocation. *)
Definition allocation_line (p : Address * Z) : string := address_to_string (fst p) +:+ "," +:+ pretty (snd p).
Definition allocations_text (l : list (Address * Z)) : string :=
  foldr (λ p rest, allocation_line p +:+ String LF rest) "" l.
Definition wf_allocation (p : Address * Z) : Prop := wf_address (fst p) ∧ in_u64 (snd p).

(** Characters of a field. *)
Definition is_field_char (c : ascii) : bool := negb (is_ws c) && negb (Ascii.eqb c ",").
Lemma hex_field c : is_hex_digit c = true → is_field_char c = true.
Proof. by destruct c as [[] [] [] [] [] [] [] []]. Qed.
Lemma digit_field c : is_digit c = true → is_field_char c = true.
Proof. by destruct c as [[] [] [] [] [] [] [] []]. Qed.
Lemma field_not_ws c : is_field_char c = true → negb (is_ws c) = true.
Proof. by intros [? _]%andb_true_iff. Qed.
Lemma address_field a : wf_address a → all_chars is_field_char (address_to_string a) = true.
Proof.
  intros [_ Hb]. destruct (hex_encode_digits _ Hb) as (ds & Heq & Hds & _).
  unfold address_to_string. rewrite Heq. simpl. by apply (all_chars_impl _ _ _ hex_field).
Qed.
Lemma amount_field n : in_u64 n → all_chars is_field_char (pretty n) = true.
Proof.
  intros Hn. destruct (pretty_Z_digits n) as [Hd _]; [apply Hn|done|].
  by apply (all_chars_impl _ _ _ digit_field).
Qed.

Lemma split_lines_line l rest :
  all_chars (λ c, negb (is_ws c)) l = true → split_lines (l +:+ String LF rest) = (l, true) :: split_lines rest.
Proof.
  induction l as [|c l IH]; [done|]. simpl. intros [Hc Hl]%andb_true_iff.
  rewrite (IH Hl). destruct (Ascii.eqb_spec c LF) as [->|]; done.
Qed.
Lemma drop_cr_line l : all_chars (λ c, negb (is_ws c)) l = true → drop_cr l = l.
Proof.
  induction l as [|c l IH]; [done|]. cbn [all_chars drop_cr]. intros [Hc Hl]%andb_true_iff.
  rewrite (IH Hl). destruct l; [|done]. by destruct (Ascii.eqb_spec c CR) as [->|].
Qed.
Lemma trim_field s : all_chars is_field_char s = true → trim s = s.
Proof.
  intros Hs. assert (Hend : trim_end s = s).
  { clear -Hs. induction s as [|c s IH]; [done|]. simpl in *. apply andb_true_iff in Hs as [Hc Hs].
    apply field_not_ws, negb_true_iff in Hc. rewrite (IH Hs), Hc. by destruct s. }
  unfold trim, skip_ws. destruct s as [|c s]; [done|]. simpl in Hs. apply andb_true_iff in Hs as [Hc _].
  apply field_not_ws, negb_true_iff in Hc. cbn [span]. by rewrite Hc.
Qed.
Lemma split_at_field a b : all_chars is_field_char a = true → split_at "," (a +:+ "," +:+ b) = Some (a, b).
Proof.
  induction a as [|c a IH]; [done|]. rewrite append_cons. cbn [all_chars split_at].
  intros [Hc Ha]%andb_true_iff. rewrite (IH Ha). unfold is_field_char in Hc.
  apply andb_true_iff in Hc as [_ Hc%negb_true_iff]. by rewrite Hc.
Qed.

Lemma parse_allocation_line p : wf_allocation p → parse_allocation (allocation_line p) = Ok p.
Proof.
  intros [Ha Hn]. destruct p as [a n]. unfold parse_allocation, allocation_line. cbn [fst snd] in *.
  rewrite split_at_field, !trim_field, address_from_to_string by (done || by apply address_field || by apply amount_field).
  simpl. destruct (pretty_Z_digits n) as [_ ->]; [apply Hn|done|done].
Qed.
Lemma allocation_line_chars p : wf_allocation p → all_chars (λ c, negb (is_ws c)) (allocation_line p) = true.
Proof.
  intros [Ha Hn]. unfold allocation_line. rewrite all_chars_app. cbn [all_chars String.append].
  rewrite (all_chars_impl _ _ _ field_not_ws (address_field _ Ha)). simpl.
  apply (all_chars_impl _ _ _ field_not_ws), amount_field, Hn.
Qed.
Lemma parse_allocations_text l :
  Forall wf_allocation l → parse_allocations (lines (allocations_text l)) = Ok l.
Proof.
  unfold lines. induction 1 as [|p l Hp _ IH]; [done|]. cbn [allocations_text foldr].
  pose proof (allocation_line_chars p Hp) as Hc. rewrite split_lines_line by done.
  rewrite fmap_cons. cbn [fst snd parse_allocations]. rewrite drop_cr_line, parse_allocation_line by done.
  cbn [mbind outcome_bind]. unfold allocations_text in IH. by rewrite IH.
Qed.
End allocations.

Section genesis_claim.
Context `{HashOrderLaws, ChumskyLaws, ModuleBytes, Crypto, Bcs, Rng, !CryptoLaws, !BcsLaws, !GenesisLaws}.
Context `{WireLib, Bip32, KeyLib, CliLib, !Bip32Laws, !KeyLaws, !CliLaws}.

Lemma resolve_miner_keypair_ok files entropy path address :
  (∀ a, address = Some a → ∃ p ks kp,
    keystore_path_or_default path = Ok p ∧ keystore_file_based (files p) = Ok ks ∧
    keystore_get_key ks a = Some kp) →
  ∃ kp, resolve_miner_keypair files entropy path address = Ok kp ∧
    ∀ a, address = Some a → keypair_address kp = a.
Proof.
  intros Hkey. unfold resolve_miner_keypair. destruct address as [a|]; [|by eexists].
  destruct (Hkey a eq_refl) as (p & ks & kp & Hp & Hks & Hget). rewrite Hp. cbn [mbind outcome_bind].
  rewrite Hks. cbn [map_err mbind outcome_bind]. rewrite Hget. cbn [ok_or mbind outcome_bind].
  apply bind_Ok in Hks as (inner & Hload & [= <-]). destruct (load_wf _ _ Hload _ _ Hget) as [Ha Hk].
  exists kp. rewrite keypair_bytes_round_trip by done. split; [done|]. by intros ? [= <-].
Qed.
Lemma run_options_range o : run_options_ok o = true →
  (1 ≤ Z.to_nat (run_batch_size o) ≤ MAX_TRANSACTIONS_PER_BLOCK) ∧ (1 ≤ run_snapshot_depth o)%Z.
Proof.
  unfold run_options_ok. rewrite !andb_true_iff, !Z.leb_le. unfold MAX_TRANSACTIONS_PER_BLOCK. lia.
Qed.
(** Every coin is in the first store, under its own address. *)
Lemma with_objects_other l a :
  a ∉ obj_address <$> l →
  ∀ m : gmap Address Object, foldl (λ m obj, <[obj_address obj := obj]> m) m l !! a = m !! a.
Proof.
  induction l as [|x l IH]; [done|]. rewrite fmap_cons, not_elem_of_cons. intros [Hne Hnin] m. simpl.
  rewrite IH by done. by rewrite lookup_insert_ne.
Qed.
Lemma with_objects_last l o :
  NoDup (obj_address <$> l) → o ∈ l →
  ∀ m : gmap Address Object, foldl (λ m obj, <[obj_address obj := obj]> m) m l !! obj_address o = Some o.
Proof.
  induction l as [|x l IH]; [by intros _ ?%not_elem_of_nil|].
  rewrite fmap_cons, list.NoDup_cons. intros [Hnin Hnd] [->|Ho]%elem_of_cons m; simpl.
  - by rewrite with_objects_other, lookup_insert_eq.
  - by apply IH.
Qed.
Lemma genesis_coins_held allocations :
  Forall wf_allocation allocations → collision_free allocations → in_u64 (Z.of_nat (length allocations)) →
  Forall (λ p, ∃ coin, get_object (with_objects (framework_objects ++ genesis_coins allocations)) (obj_address coin) = Some coin ∧
    obj_owner coin = OwnerAddress (fst p) ∧ is_meow_coin_object coin = true ∧
    balance_from_object coin = Some (snd p)) allocations.
Proof.
  intros Hall Hcf Hlen. apply list.Forall_lookup. intros i p Hp.
  set (coin := genesis_coin (tx_digest (mint_transaction i (fst p) (snd p))) (fst p) (snd p)).
  assert (Hc : coin ∈ genesis_coins allocations).
  { apply (list_elem_of_lookup_2 _ i). unfold genesis_coins. by rewrite list_lookup_imap, Hp. }
  exists coin. split_and!; [|done|done|].
  - unfold get_object, with_objects. cbn [store_map]. rewrite foldl_app.
    apply with_objects_last; [by apply genesis_coins_distinct|done].
  - apply genesis_coin_balance. by destruct (list.Forall_lookup_1 _ _ _ _ Hall Hp).
Qed.

End genesis_claim.

(** ** Witnesses *)
Lemma call_arg_exact_witness :
  call_arg_from_str (call_arg_text (ArgAddress (address_suffixed 5))) = Ok (ArgAddress (address_suffixed 5)) ∧
  is_ok (call_arg_from_str "@bob") = false.
Proof.
  destruct call_arg_exact as (Hr & _ & _ & He). split.
  - apply (Hr (ArgAddress (address_suffixed 5))). split; [reflexivity|]. by repeat constructor.
  - apply He. right. left. exists "bob". by split.
Defined.

(** Transactions as numbers, and numbers as bits. *)
Definition ref_tuple (r : ObjectRef) : Address * Z * Digest :=
  (ref_address r, version_u64 (ref_version r), ref_digest r).
Definition input_sum (i : Input) : (Address * Z * Digest) + list Z :=
  match i with InputObject r => inl (ref_tuple r) | InputRaw bs => inr bs end.
Definition type_sum (t : TransactionType)
  : (Address * string * list ((Address * Z * Digest) + list Z)) + list Z :=
  match t with
  | MeowCall c => inl (call_module c, identifier_str (call_function c), input_sum <$> call_arguments c)
  | MeowModulePublish bs => inr bs
  end.
Definition tuple_ref (x : Address * Z * Digest) : ObjectRef :=
  let '(a, v, d) := x in mkObjectRef a (mkVersion v) d.
Definition sum_input (x : (Address * Z * Digest) + list Z) : Input :=
  match x with inl r => InputObject (tuple_ref r) | inr bs => InputRaw bs end.
Definition sum_type (x : (Address * string * list ((Address * Z * Digest) + list Z)) + list Z)
  : TransactionType :=
  match x with
  | inl (a, f, args) => MeowCall (ChainTypes.mkCall a (mkIdentifier f) (sum_input <$> args))
  | inr bs => MeowModulePublish bs
  end.
Lemma sum_input_sum i : sum_input (input_sum i) = i.
Proof. by destruct i as [[a [v] d]|bs]. Qed.
Lemma sum_type_sum t : sum_type (type_sum t) = t.
Proof.
  destruct t as [[a [f] args]|bs]; [|done]. simpl. rewrite <-list_fmap_compose. do 2 f_equal.
  induction args as [|i args IH]; [done|]. cbn. by rewrite sum_input_sum, IH.
Qed.
Global Instance transaction_countable : Countable Transaction.
Proof.
  refine (inj_countable' (λ t, (tx_sender t, ref_tuple (tx_gas_coin t), type_sum (tx_type t)))
    (λ x, let '(a, r, t) := x in mkTransaction a (tuple_ref r) (sum_type t)) _).
  intros [a [ra [v] d] t]. simpl. by rewrite sum_type_sum.
Defined.
Global Instance signed_countable : Countable SignedTransaction.
Proof.
  refine (inj_countable' (λ s, (signed_transaction s, sig_bytes (signed_signature s), sig_key (signed_signature s)))
    (λ x, let '(t, b, k) := x in mkSigned t (mkSignature b k)) _).
  by intros [t [b k]].
Defined.
Definition object_tuple (o : Object)
  : Address * option Address * Digest * Z * option (Address * string) * list Z :=
  (obj_address o, owner_address (obj_owner o), obj_transaction o, version_u64 (obj_version o),
   match obj_type o with TypeModule => None | TypeObject r => Some (decl_module r, identifier_str (decl_name r)) end,
   obj_content o).
Definition tuple_object (x : Address * option Address * Digest * Z * option (Address * string) * list Z) : Object :=
  let '(a, w, d, v, t, bs) := x in
  mkObject a (match w with Some w => OwnerAddress w | None => Immutable end) d (mkVersion v)
    (match t with Some (m, n) => TypeObject (mkDeclRef m (mkIdentifier n)) | None => TypeModule end) bs.
Lemma tuple_object_tuple o : tuple_object (object_tuple o) = o.
Proof. by destruct o as [a [w|] d [v] [|[m [n]]] bs]. Qed.
Lemma tuple_objects (l : list Object) : tuple_object <$> (object_tuple <$> l) = l.
Proof. induction l as [|o l IH]; [done|]. by rewrite !fmap_cons, tuple_object_tuple, IH. Qed.
Fixpoint bits (p : positive) : list Z :=
  match p with xH => [] | xO p => 0%Z :: bits p | xI p => 1%Z :: bits p end.
Fixpoint unbits (l : list Z) : positive :=
  match l with [] => xH | 0%Z :: l => xO (unbits l) | _ :: l => xI (unbits l) end.
Lemma unbits_bits p : unbits (bits p) = p.
Proof. induction p as [p IH|p IH|]; simpl; by rewrite ?IH. Qed.
Lemma bits_bytes p : Forall is_byte (bits p).
Proof. induction p; simpl; by constructor. Qed.

Global Instance bit_wire : WireLib := {|
  bcs_signed s := bits (countable.encode s);
  bcs_signed_decode bs := countable.decode (unbits bs);
  bcs_block _ := [];
  bcs_block_decode _ := None;
  from_utf8 _ := None;
  as_bytes _ := [];
|}.
Global Instance bit_cli : CliLib := {|
  bcs_transaction t := bits (countable.encode t);
  bcs_transaction_decode bs := countable.decode (unbits bs);
  bcs_genesis g := bits (countable.encode (object_tuple <$> Genesis.genesis_objects g));
  bcs_genesis_decode bs := (λ l, mkGenesis (tuple_object <$> l)) <$> countable.decode (unbits bs);
  debug_text _ := "";
  debug_path p := p;
  pretty_text _ := "";
  deps_iter := map_to_list;
  env_config_dir := Some "/meow";
  home_dir := None;
  path_join a b := a +:+ "/" +:+ b;
  path_exists _ := true;
  create_dir_all _ := true;
|}.
Global Instance bit_cli_laws : CliLaws.
Proof.
  split; intros; simpl; try apply bits_bytes; rewrite unbits_bits, decode_encode; try done.
  destruct g as [l]. cbn [fmap option_fmap option_map Genesis.genesis_objects]. by rewrite tuple_objects.
Qed.

Global Instance toy_order : HashOrder := {| hash_iter m := map_to_list m |}.
Global Instance toy_modules : ModuleBytes := {| bcs_module _ := [] |}.
Global Instance toy_rng : Rng := {| StdRng := Z; rng_from_seed _ := 0%Z; rng_next_u64 n := (n, n) |}.

(** A call that is paid with the coin of the small chain. *)
Definition call0 : TransactionCommand :=
  TMeowCall (address_suffixed 9) (mkIdentifier "f") (keypair_address key7) coin_address [ArgBool true].
Definition files0 (path : string) : File :=
  Content (keystore_serialize (mkInMemory {[keypair_address key7 := key7]})).
Definition run0 (cmd : TransactionCommand) : outcome CliError.t TransactionCommandOutput * RpcHandler :=
  transaction_run deliver (with_url root_url) 0 ∅ files0 0 cmd Base64 false handler0.
Lemma files0_load path : keystore_file_based (files0 path) = Ok (FileBased (mkInMemory {[keypair_address key7 := key7]})).
Proof.
  unfold keystore_file_based, files0, load. rewrite keystore_round_trip; [done|].
  apply map_Forall_singleton. split; [done|]. split; [done|]. by apply list.Forall_replicate.
Qed.
Lemma cli_call_submitted_witness :
  ∃ text signed h, run0 call0 = (Ok (Encoded text), handler0) ∧
    run0 (TSign None text) = (Ok (Encoded signed), handler0) ∧
    snd (client_run deliver (with_url root_url) (CSubmitTransaction signed) false handler0) = h ∧
    length (pending (mempool (rpc_miner h))) = 1.
Proof.
  destruct (snapshots (chain miner0) !! head_hash (chain miner0)) as [store|] eqn:Hs; [|by vm_compute in Hs].
  pose proof (cli_call_submitted root_url handler0 store 0 ∅ files0 0 false (address_suffixed 9)
    (mkIdentifier "f") (keypair_address key7) coin_address [ArgBool true]) as Hc.
  specialize (Hc eq_refl (wf_core _ miner0_chain_wf) Hs).
  assert (Hcoin : (s ← snapshots (chain miner0) !! head_hash (chain miner0); get_object s coin_address) = Some coin)
    by (vm_compute; reflexivity).
  rewrite Hs in Hcoin. cbn [mbind option_bind] in Hcoin. rewrite Hcoin in Hc.
  specialize (Hc ltac:(split; [reflexivity|by repeat constructor]) ltac:(by repeat constructor)).
  cbn [mapM arg_input mret mbind option_ret option_bind] in Hc. cbv zeta in Hc.
  set (t := mkTransaction _ _ _) in Hc.
  assert (Hv : validate_transaction t = Ok ()) by (vm_compute; reflexivity). rewrite Hv in Hc.
  destruct Hc as (text & Htext & Hc).
  specialize (Hc None _ _ eq_refl (files0_load _)).
  assert (Hkey : keystore_get_key (FileBased (mkInMemory {[keypair_address key7 := key7]})) (keypair_address key7)
    = Some key7) by apply lookup_singleton_eq.
  rewrite Hkey in Hc. destruct Hc as (signed & Hsigned & Hc).
  destruct Hc as (m & Hm & Hp & _); [apply not_elem_of_empty|vm_compute; lia|by vm_compute|].
  exists text, signed. eexists. split_and!; [exact Htext|exact Hsigned|reflexivity|].
  rewrite Hm. cbn [snd rpc_miner]. rewrite Hp. reflexivity.
Defined.

(** Two coins for one account, and a node with an ephemeral key. *)
Definition build_twice : outcome CliError.t (list Z * list ObjectOutput) :=
  @genesis_run _ std_hash_order std_chumsky table_bytes salted_crypto table_bcs mini_rng _ _
    (9 + 0) (λ _, "object") (Some (allocations_text twice)) true false.
Definition options (genesis : list Z) : RunOptions :=
  mkRunOptions DEFAULT_NODE_URL (mkMultiaddr []) [] DEFAULT_MDNS_QUERY_INTERVAL_SECS
    DEFAULT_CHECK_EXPLICIT_PEERS_TICKS (Some genesis) DEFAULT_DIFFICULTY None None None
    DEFAULT_BATCH_SIZE DEFAULT_SNAPSHOT_DEPTH.
